(* ===== verification/_CoqProject ===== *)
-Q . S2P
Prelude.v
Effects.v
Bytes.v
F64.v
Keys.v
KeysOrder.v
KeysSkip.v
Timestamp.v
Crc.v
Page.v
LeafNode.v
InternalNode.v
BTreeMap.v
Version.v
OverflowRefs.v
Chain.v
Writers.v
HistoryCodec.v
KeyTree.v
HistoryStore.v
Synth.v
Fold.v
FoldCases.v
PublishSequencer.v
LogManager.v
DbHeader.v
Parser.v
JournalHeader.v
LogRecord.v
Payloads.v
LogicalFrame.v
Recovery.v
RecoveryReplay.v
PageSource.v
PageStore.v
OverflowChain.v
BTree.v
BTreeLists.v
BTreeShape.v
BTreeNodes.v
BTreeSplit.v
BTreeInsert.v
BTreeDelete.v
BTreeRead.v
BTreeCorrect.v
Allocator.v
DeferredFree.v
