(* ===== verification/Prelude.v ===== *)
(** * mqlite: a verification development

    mqlite is an embedded, MongoDB-compatible document store in Rust.  A write
    travels through these parts: values become order-preserving byte keys; the
    timestamp oracle and the publish sequencer give it a commit timestamp and a
    place in the visibility order; pending versions are pushed on the chains of
    resident leaves; a journal record that carries the logical frame of the
    transaction is reserved, written and group-committed through the log
    manager; the versions are flipped to committed (or aborted) and published.
    A checkpoint folds committed versions into the leaf images of the B+ trees
    and moves versions that older readers still need to the history store;
    pages come from the allocator and return to it through the page-lifetime
    queue.  Readers combine chains, history store and leaf images at their
    snapshot.  After a crash, recovery replays the journal.  This library
    models those parts and proves what each promises.

    ** Files and the code they model (paths under [src/src/])

    Foundations.
    - [Prelude]: results ([Result] with [Panic] as a value), machine integers,
      generic lemmas and tactics.  [Effects]: the state and error monad of
      stateful code, and bounded loops.  [Parser]: the monad of cursor decoders
      with its two laws, [parses] and [prints].
    - [Bytes]: byte buffers, slicing with Rust's panics, little- and big-endian
      integers, lexicographic order, and the tactics of the codec proofs.
    - [F64]: IEEE doubles as used by the key encoder, and text to [f64].
    - [Crc]: the interface of the [crc32c] crate, with a bitwise instance.
    - [BTreeMap]: the ordered maps of the Rust standard library, as sorted
      association lists.

    Keys and time.
    - [Keys], [KeysOrder], [KeysSkip]: [keys/mod.rs].  The encoder, the order
      theorem, and the skipper with the unique-prefix range.
    - [Timestamp]: [mvcc/timestamp.rs].  [Ts], the oracle (Module
      [TimestampOracle]) and the seqlock cell (Module [AtomicTs], a step system
      of one writer and one reader).
    - [PublishSequencer]: [paged_engine/publish_sequencer.rs].

    Versions.
    - [Version]: [mvcc/version.rs], [chain_snapshot.rs], [registry.rs].
      [OverflowRefs]: the refcount table of [storage/allocator/overflow.rs].
    - [Chain]: what [paged_engine/pending_install.rs],
      [buffer_pool/latched_page.rs], [buffer_pool/partition.rs] and
      [paged_engine/recovery_apply.rs] do to one chain.  [Writers]: the
      interleavings of transactions on one key, from the observation of its
      head ([paged_engine/doc_ops.rs], [mvcc/transaction.rs]) through the
      registration, the installs and the flips of
      [paged_engine/commit_envelope.rs].
    - [HistoryCodec], [KeyTree], [HistoryStore]: [history_store/codec.rs] and
      [history_store.rs], over any tree that keeps the laws of the class
      [KeyTree] (what the history store needs of a B+ tree).  The instances are
      a sorted map and the B+ tree itself ([btree_tree_laws] of [BTreeCorrect]).
    - [Synth]: [reconcile/synth.rs], [btree/reconcile.rs], the spill staging of
      [reconcile/driver.rs] and the point read of [btree/scan.rs].  [Fold],
      [FoldCases]: the theorems on folding and pruning, and concrete folds.

    Pages and trees.
    - [Page], [LeafNode], [InternalNode]: [storage/page.rs] and
      [storage/btree/leaf_node.rs], [layout.rs], [classify.rs],
      [internal_node.rs].  [DbHeader]: [storage/header.rs].
    - [PageSource], [PageStore]: the traits the allocator and the tree work
      against, as classes with laws, with the page file of
      [storage/file_io.rs] and an in-memory store as instances.
    - [OverflowChain]: [storage/btree/overflow.rs].
    - [BTree]: every operation of [storage/btree/] ([insert.rs], [delete.rs],
      [scan.rs], [chain.rs], [chain_migration.rs], [mod.rs]).  [BTreeLists],
      [BTreeShape], [BTreeNodes]: sorted lists, what it means that pages hold a
      tree, what reads and writes of nodes do.  [BTreeSplit], [BTreeInsert],
      [BTreeDelete], [BTreeRead]: the operations keep the tree.
      [BTreeCorrect]: the tree as an ordered map.
    - [Allocator]: [storage/allocator/free_list.rs] and [mod.rs].
      [DeferredFree]: [mvcc/deferred_free.rs], the drains of
      [storage/allocator/overflow.rs] and the retirement of dropped trees.

    Journal.
    - [LogManager]: [journal/log_manager.rs].
    - [JournalHeader], [LogRecord], [Payloads], [LogicalFrame]: the on-disk
      formats of [journal/wire/].
    - [Recovery], [RecoveryReplay]: [journal/recovery.rs] and the opening of the
      journal in [journal/mod.rs]: the scan, the replay passes, the truncation.

    ** How the code is modelled

    A function that returns [Result<T, Error>] returns [Ok], [Err] or [Panic];
    a slice out of range, an arithmetic overflow the code does not check and a
    failed [expect] are [Panic].  The models are of a release build: a
    [debug_assert!] is compiled out, except in [LeafNode.parse_build], which
    takes it as a switch.  Error values keep the variant and the literal text
    of the message without interpolated values.  Integers are [Z] with their
    width written out ([is_u 64], [as_u 32], [checked_add 64]).  Concurrency is
    explicit: the oracle, the sequencer, the log manager, the transactions on a
    key, the allocator's clients and the retirement of a tree are step
    relations whose steps are the critical sections of the code's mutexes and
    latches (or single atomic accesses where there is none), and theorems
    quantify over all interleavings.  Ghost fields ([published], [issued],
    [complete], [synced]) record history and are never read by the steps.

    Recursion that is not structural carries fuel: the key skipper (the length
    of the key suffices, [skip_encoded_value_total]), the positioned write loop
    (the length of the data, since every successful write takes at least one
    byte), the ready-frontier walk (the number of slots), the scan of a journal
    (its length, since a record is never empty), the walks over overflow chains
    (one more than the limit the code itself imposes), the growth of the root
    (the number of promotions, [root_growth_terminates]).  Descents recurse on
    the level of the tree.

    ** What the theorems show, and under which conditions

    - Keys: byte order is value order, for single and compound keys, and the
      unique check's range is exact, for values that satisfy [key_ok] (numbers
      exact in 64 integer and 64 fraction bits; no empty field name, [MinKey]
      array element or [DbPointer]); [ambiguous_encodings] gives the shapes
      outside this.
    - Time and visibility: the oracle is strictly monotone, seqlock reads are
      never torn, commits are published in timestamp order, a ready slot waits
      only for an earlier unfinished one or for ever behind a failed publish
      closure, a [mark_ready] that returns success has published its slot.
    - Chains: on one key, chains stay ordered with at most one version in force
      at any time, as long as no install that expects no head passes a later or
      pending head.  The code does not check that:
      [insert_overtakes_delete] and [inner_abort_leaves_two_heads] are the
      interleavings it lets through, and [base_update_revives_deleted] an update
      that undoes a deletion.  Aborts restore; on primary keys the first
      committer wins.
    - Checkpoints: folding a leaf preserves the reads of every reader the
      horizon protects whose snapshot the folded chain covers, outside
      secondary deletions; [fold_loses_base_version] and
      [secondary_tombstone_resurrects] show what happens without either
      condition.  Pruning preserves the reads of every protected reader.
    - History store: over readable rows spilled versions are found, and garbage
      collection is invisible above its horizon, reference counts included;
      rows survive their encoding; [oversized_spill_unreadable] is the row
      length where this stops.
    - Trees: any sequence of operations that succeeds on a B+ tree refines an
      ordered map, reads and scans always succeed, no page is lost or shared,
      version chains stay with the leaf of their key, splits never fail;
      [Stuck.drained_parent_delete_fails] is a delete that does fail.  The
      store's reads and writes of pages in use succeed, and a run holds its
      pages exclusively.
    - Pages: allocation never hands out a page in use, none is lost, a clean
      header reopens; the checkpoint drain frees only what no reference and, for
      entries queued as retired tree pages, no registered view can reach;
      [failed_drain_forgets] and [retired_page_can_lose_fence] are its limits.
    - Journal: reservations are disjoint, the ready frontier is exact, a synced
      record implies synced bytes below it; records, frames and payloads survive
      the journal and torn tails are recognised; decoders do not panic
      ([page_frame_decode_panics] gives the one exception);
      [group_commit_lost_wakeup] is an interleaving of the notification protocol
      in which a wake-up is lost.
    - Recovery: a scan accepts exactly what was written, accepted records tile
      the journal, and opening a journal with a torn tail keeps every commit;
      [boundary_overwrites_later_catalog_commit] is a catalog commit it loses.
    - Formats: page, header and leaf codecs round-trip; reading arbitrary bytes
      as a leaf never panics in a release build.

    ** What is not modelled

    The BSON and CRC crates are interfaces ([BsonFormat], [Crc32c]).  Atomics
    are sequentially consistent; system calls on the recovery path succeed.
    [decode_history_key] and [LogManager.reset_to] model code that only tests
    call.  Not modelled: the query, update and aggregation language, the client
    and the wire server; catalog and index maintenance; buffer-pool residency
    and latching; the checkpoint driver and the appending of checkpoint batches;
    the commit envelope across keys; files, locks and metrics. *)

From Stdlib Require Export ZArith Lia.
From stdpp Require Export base tactics numbers list option strings relations.

#[local] Open Scope Z_scope.

(** ** Results of Rust code

    Fallible functions of the code return [Result<T, Error>]; slicing,
    indexing and [copy_from_slice] may panic.  Both are values here.  Error
    details keep the literal text of the message and drop the interpolated
    values and the path. *)

Inductive EngineFatalReason : Set :=
| PostReservationLogWriteFailure
| PostDurablePublishFailure
| PostDurablePendingFlipFailure
| PostDurableDdlPublishFailure
| CheckpointPostMutationFailure
| PreDurableAbortFlipFailure.

#[global] Instance EngineFatalReason_eq_dec : EqDecision EngineFatalReason.
Proof. solve_decision. Defined.

Inductive WriteConflictReason : Set :=
| StaleSnapshot
| UpgradeRace
| SameKeyConflict (key_preview : list Z)
| CatalogGenerationChanged
| StructuralContention
| UniqueConflict (key_prefix_preview : list Z).

Inductive Error : Set :=
| Io (detail : string)
| CorruptDatabase (detail : string) (recoverable : bool)
| DiskFull (required_bytes : Z)
| DuplicateKey
| Internal (detail : string)
| UnsupportedJournalFormat (found : list Z)
| TimestampExhausted
| RefcountOverflow
| ReadViewExpired
| JournalFrameTooLarge (logical_frame_bytes max_bytes : Z)
| EngineFatal (reason : EngineFatalReason)
| WriteConflict (reason : WriteConflictReason).

Inductive Result (A : Type) : Type :=
| Ok (a : A)
| Err (e : Error)
| Panic.
Arguments Ok {A} _.
Arguments Err {A} _.
Arguments Panic {A}.

#[global] Instance Result_ret : MRet Result := fun A a => Ok a.
#[global] Instance Result_bind : MBind Result := fun A B f r =>
  match r with Ok a => f a | Err e => Err e | Panic => Panic end.
#[global] Instance Result_fmap : FMap Result := fun A B f r =>
  match r with Ok a => Ok (f a) | Err e => Err e | Panic => Panic end.

(** [opt.ok_or(e)] *)
Definition ok_or {A} (o : option A) (e : Error) : Result A :=
  match o with Some a => Ok a | None => Err e end.

(** [if cond { return Err(e); }] *)
Definition reject_if (cond : bool) (e : Error) : Result unit :=
  if cond then Err e else Ok tt.

Lemma bind_Ok {A B} (f : A -> Result B) a : (Ok a ≫= f) = f a.
Proof. reflexivity. Qed.

Lemma bind_Ok_inv {A B} (r : Result A) (f : A -> Result B) b :
  r ≫= f = Ok b -> exists a, r = Ok a /\ f a = Ok b.
Proof. destruct r; simpl; try discriminate; eauto. Qed.

Lemma reject_if_false e : reject_if false e = Ok tt.
Proof. reflexivity. Qed.

Lemma reject_if_Ok c e u : reject_if c e = Ok u -> c = false.
Proof. destruct c; [discriminate|reflexivity]. Qed.

(** A computation that does not panic, whatever its result. *)
Definition no_panic {A} (r : Result A) : Prop := r <> Panic.

Lemma no_panic_bind {A B} (r : Result A) (f : A -> Result B) :
  no_panic r -> (forall a, r = Ok a -> no_panic (f a)) -> no_panic (r ≫= f).
Proof. unfold no_panic. destruct r; simpl; auto; congruence. Qed.

Lemma no_panic_Ok {A} (a : A) : no_panic (Ok a).
Proof. discriminate. Qed.

Lemma no_panic_Err {A} e : no_panic (Err e : Result A).
Proof. discriminate. Qed.

Lemma no_panic_reject c e : no_panic (reject_if c e).
Proof. destruct c; discriminate. Qed.

Lemma no_panic_ok_or {A} (o : option A) e : no_panic (ok_or o e).
Proof. destruct o; discriminate. Qed.

Create HintDb panics.
#[export] Hint Resolve no_panic_Ok no_panic_Err no_panic_reject no_panic_ok_or : panics.

(** ** Machine integers

    A w-bit unsigned integer is a [Z] in [0, 2^w); [usize] is 64 bits wide. *)

Definition is_u (w z : Z) : Prop := 0 <= z < 2 ^ w.
Definition is_i (w z : Z) : Prop := - 2 ^ (w - 1) <= z < 2 ^ (w - 1).
Abbreviation is_u8 := (is_u 8).
Abbreviation is_u16 := (is_u 16).
Abbreviation is_u32 := (is_u 32).
Abbreviation is_u64 := (is_u 64).
Abbreviation is_i32 := (is_i 32).
Abbreviation is_i64 := (is_i 64).

Definition u8_max : Z := 2 ^ 8 - 1.
Definition u16_max : Z := 2 ^ 16 - 1.
Definition u32_max : Z := 2 ^ 32 - 1.
Definition u64_max : Z := 2 ^ 64 - 1.

(** [a.checked_add(b)] at width [w] *)
Definition checked_add (w a b : Z) : option Z :=
  if a + b <? 2 ^ w then Some (a + b) else None.
(** [a.saturating_add(b)] at width [w] *)
Definition saturating_add (w a b : Z) : Z := Z.min (a + b) (2 ^ w - 1).
(** [a.saturating_sub(b)] on an unsigned type *)
Definition saturating_sub (a b : Z) : Z := Z.max 0 (a - b).
(** [!a] at width [w] *)
Definition bit_not (w a : Z) : Z := 2 ^ w - 1 - a.
(** [z as u<w>] (truncating cast, two's complement for negative values) *)
Definition as_u (w z : Z) : Z := z mod 2 ^ w.
(** [z as i<w>] of an unsigned [z] *)
Definition as_i (w z : Z) : Z := if z <? 2 ^ (w - 1) then z else z - 2 ^ w.

Lemma bit_not_involutive w a : bit_not w (bit_not w a) = a.
Proof. unfold bit_not. lia. Qed.

Lemma bit_not_u w a : is_u w a -> is_u w (bit_not w a).
Proof. unfold is_u, bit_not. lia. Qed.

(** [bit_not] is the two's complement negation cut to the width. *)
Lemma bit_not_lnot w a : is_u w a -> bit_not w a = Z.lnot a mod 2 ^ w.
Proof.
  unfold is_u, bit_not, Z.lnot. intros.
  apply (Z.mod_unique_pos _ _ (-1)); lia.
Qed.

Lemma as_i_u w z : 0 < w -> is_u w z -> is_i w (as_i w z).
Proof.
  intros Hw Hz. unfold is_u, is_i, as_i in *.
  assert (2 ^ w = 2 * 2 ^ (w - 1)) by (rewrite <- Z.pow_succ_r by lia; f_equal; lia).
  destruct (Z.ltb_spec z (2 ^ (w - 1))); lia.
Qed.

Lemma as_u_range w z : 0 <= w -> is_u w (as_u w z).
Proof. intros. apply Z.mod_pos_bound. lia. Qed.

Lemma as_u_small w z : is_u w z -> as_u w z = z.
Proof. intros. apply Z.mod_small. done. Qed.

Lemma as_i_as_u w z : 0 < w -> is_i w z -> as_i w (as_u w z) = z.
Proof.
  intros Hw Hz. unfold is_i, as_i, as_u in *.
  assert (2 ^ w = 2 * 2 ^ (w - 1)) by (rewrite <- Z.pow_succ_r by lia; f_equal; lia).
  destruct (Z.leb_spec 0 z).
  - rewrite Z.mod_small by lia. destruct (Z.ltb_spec z (2 ^ (w - 1))); lia.
  - assert (z mod 2 ^ w = z + 2 ^ w) as ->
      by (symmetry; apply (Z.mod_unique_pos _ _ (-1)); lia).
    destruct (Z.ltb_spec (z + 2 ^ w) (2 ^ (w - 1))); lia.
Qed.

Lemma as_u_as_i w z : 0 < w -> is_u w z -> as_u w (as_i w z) = z.
Proof.
  intros Hw Hz. unfold is_u, as_u, as_i in *. destruct (_ <? _); [by apply Z.mod_small|].
  rewrite <- (Z.mod_add _ 1) by lia. rewrite Z.mod_small by lia. lia.
Qed.

(** A power of two shares no bit with the numbers below it. *)
Lemma land_pow2_below y n : 0 <= n -> 0 <= y < 2 ^ n -> Z.land y (2 ^ n) = 0.
Proof.
  intros Hn Hy. apply Z.bits_inj'. intros k Hk. rewrite Z.land_spec, Z.bits_0.
  destruct (decide (k = n)) as [->|].
  - destruct (decide (y = 0)) as [->|]; [by rewrite Z.bits_0|].
    by rewrite (Z.bits_above_log2 y n) by (lia || apply Z.log2_lt_pow2; lia).
  - rewrite Z.pow2_bits_false by lia. apply andb_false_r.
Qed.

(** [(x as u64) ^ (1 << 63)]: flipping the sign bit adds 2^63. *)
Lemma flip_sign_bit x : is_i64 x -> Z.lxor (as_u 64 x) 0x8000000000000000 = x + 2 ^ 63.
Proof.
  unfold is_i, as_u. intros Hx. change 0x8000000000000000 with (2 ^ 63).
  destruct (decide (0 <= x)).
  - rewrite Z.mod_small by lia.
    by rewrite <- Z.add_nocarry_lxor by (apply land_pow2_below; lia).
  - replace (x mod 2 ^ 64) with (x + 2 ^ 63 + 2 ^ 63)
      by (rewrite <- (Z.mod_add x 1) by lia; rewrite Z.mod_small; lia).
    rewrite (Z.add_nocarry_lxor (x + 2 ^ 63) (2 ^ 63)) by (apply land_pow2_below; lia).
    by rewrite Z.lxor_assoc, Z.lxor_nilpotent, Z.lxor_0_r.
Qed.

(** Bitwise operators stay within the width. *)
Lemma is_u_log2 w x : 0 < w -> 0 <= x -> (is_u w x <-> Z.log2 x < w).
Proof.
  intros. unfold is_u. destruct (decide (x = 0)) as [->|].
  - simpl. split; [lia|]. intros. split; [lia|]. by apply Z.pow_pos_nonneg; lia.
  - rewrite <- Z.log2_lt_pow2 by lia. lia.
Qed.

Lemma lor_u w a b : 0 < w -> is_u w a -> is_u w b -> is_u w (Z.lor a b).
Proof.
  intros Hw Ha Hb. pose proof Ha as [? _]. pose proof Hb as [? _].
  apply is_u_log2; [done|apply Z.lor_nonneg; lia|].
  rewrite Z.log2_lor by lia. apply is_u_log2 in Ha, Hb; lia.
Qed.

Lemma land_u w a b : 0 < w -> is_u w a -> is_u w b -> is_u w (Z.land a b).
Proof.
  intros Hw Ha Hb. pose proof Ha as [? _]. pose proof Hb as [? _].
  apply is_u_log2; [done|apply Z.land_nonneg; lia|].
  pose proof (Z.log2_land a b ltac:(lia) ltac:(lia)). apply is_u_log2 in Ha, Hb; lia.
Qed.

Lemma lxor_u w a b : 0 < w -> is_u w a -> is_u w b -> is_u w (Z.lxor a b).
Proof.
  intros Hw Ha Hb. pose proof Ha as [? _]. pose proof Hb as [? _].
  apply is_u_log2; [done|apply Z.lxor_nonneg; lia|].
  pose proof (Z.log2_lxor a b ltac:(lia) ltac:(lia)). apply is_u_log2 in Ha, Hb; lia.
Qed.
