(* ===== verification/Effects.v ===== *)
(** * Stateful code that can fail

    The state and error monad of the models: a computation maps a state to a
    result and the state it leaves, also when it fails, as a Rust method on
    [&mut self] does; and bounded loops. *)

From S2P Require Import Prelude.

#[local] Open Scope Z_scope.

Definition st (S A : Type) : Type := S -> Result A * S.

Section Monad.
Context {S : Type}.

Definition st_ret {A} (a : A) : st S A := fun s => (Ok a, s).

Definition st_bind {A B} (m : st S A) (k : A -> st S B) : st S B := fun s =>
  match m s with
  | (Ok a, s') => k a s'
  | (Err e, s') => (Err e, s')
  | (Panic, s') => (Panic, s')
  end.

Definition st_lift {A} (r : Result A) : st S A := fun s => (r, s).

(** A method on [&self] *)
Definition st_read {A} (f : S -> Result A) : st S A := fun s => (f s, s).

Lemma st_bind_inv {A B} (m : st S A) (k : A -> st S B) s b s2 :
  st_bind m k s = (Ok b, s2) -> exists a s1, m s = (Ok a, s1) /\ k a s1 = (Ok b, s2).
Proof. unfold st_bind. destruct (m s) as [[a| |] s1]; [|done..]. eauto. Qed.

Lemma st_bind_Ok {A B} (m : st S A) (k : A -> st S B) s a s1 : m s = (Ok a, s1) -> st_bind m k s = k a s1.
Proof. unfold st_bind. by intros ->. Qed.

Lemma st_lift_inv {A} (r : Result A) s a s' : st_lift r s = (Ok a, s') -> r = Ok a /\ s' = s.
Proof. intros [= -> <-]. done. Qed.

Lemma st_read_inv {A} (f : S -> Result A) s a s' : st_read f s = (Ok a, s') -> f s = Ok a /\ s' = s.
Proof. unfold st_read. intros [= -> <-]. done. Qed.
End Monad.

Declare Scope st_scope.
Delimit Scope st_scope with st.
Notation "x <~ m ;; k" := (st_bind m (fun x => k)) (at level 100, m at next level, right associativity) : st_scope.

(** Walks a run that succeeded. *)
Ltac st_inv H :=
  repeat match type of H with
  | st_bind _ _ _ = (Ok _, _) => let a := fresh "a" in let w := fresh "w" in let Ha := fresh "Ha" in
      apply st_bind_inv in H as (a & w & Ha & H)
  | st_ret _ _ = _ => injection H; clear H; intros; subst
  | (let (_, _) := ?p in _) _ = _ => destruct p
  end.

(** ** Loops

    [loop { ... }] as a body that continues with a new state or leaves with a
    value.  [iterate k] runs it at most [2 ^ k] times; a body that is still
    running then is a loop that does not end. *)

Inductive step (A B : Type) : Type := Continue (a : A) | Done (b : B).
Arguments Continue {A B} _.
Arguments Done {A B} _.

Section Loops.
Context {A B : Type}.

Fixpoint iterate (k : nat) (body : A -> step A B) (a : A) : step A B :=
  match k with
  | O => body a
  | S k' => match iterate k' body a with Continue a' => iterate k' body a' | Done b => Done b end
  end.

(** The same, counted in unary *)
Fixpoint run (n : nat) (body : A -> step A B) (a : A) : step A B :=
  match n with
  | O => Continue a
  | S n' => match body a with Continue a' => run n' body a' | Done b => Done b end
  end.

Lemma run_add n m body a :
  run (n + m) body a = match run n body a with Continue a' => run m body a' | Done b => Done b end.
Proof. revert a. induction n as [|n IH]; intros a; simpl; [done|]. destruct (body a); [apply IH|done]. Qed.

Lemma iterate_run k body : forall a, iterate k body a = run (2 ^ k) body a.
Proof.
  induction k as [|k IH]; intros a; simpl; [by destruct (body a)|].
  rewrite Nat.add_0_r, run_add, <- IH. destruct (iterate k body a); [apply IH|done].
Qed.

Lemma iterate_Done n k body a b : (n <= 2 ^ k)%nat -> run n body a = Done b -> iterate k body a = Done b.
Proof.
  intros Hn Hr. rewrite iterate_run. replace (2 ^ k)%nat with (n + (2 ^ k - n))%nat by lia. by rewrite run_add, Hr.
Qed.
End Loops.
