(* ===== verification/Bytes.v ===== *)
(** * Byte buffers

    Byte strings as lists of [Z]; slices with Rust's panics; fixed-offset
    reads and writes of a buffer and the lemmas that relate them; integers to
    and from little- and big-endian bytes; the lexicographic order of byte
    strings ([memcmp], [Ord for [u8]]). *)

From S2P Require Import Prelude.

#[local] Open Scope Z_scope.

(** ** Lengths and sub-ranges *)

Definition len {A} (l : list A) : Z := Z.of_nat (length l).

(** [l[off .. off + n]] when it is in range *)
Definition get {A} (l : list A) (off n : Z) : list A :=
  take (Z.to_nat n) (drop (Z.to_nat off) l).

(** [l[off .. off + src.len()].copy_from_slice(src)] when it is in range *)
Definition put {A} (l : list A) (off : Z) (src : list A) : list A :=
  take (Z.to_nat off) l ++ src ++ drop (Z.to_nat off + length src) l.

(** [[0u8; n]] *)
Definition zeros (n : Z) : list Z := replicate (Z.to_nat n) 0.

(** [&l[a..b]]: panics unless [a <= b <= l.len()] *)
Definition slice {A} (l : list A) (a b : Z) : Result (list A) :=
  if (0 <=? a) && (a <=? b) && (b <=? len l) then Ok (get l a (b - a)) else Panic.

(** [l[i]]: panics out of range *)
Definition index {A} (l : list A) (i : Z) : Result A :=
  if 0 <=? i then match l !! Z.to_nat i with Some x => Ok x | None => Panic end
  else Panic.

(** [l.get(i).copied()] *)
Definition get_opt {A} (l : list A) (i : Z) : option A :=
  if 0 <=? i then l !! Z.to_nat i else None.

Definition bytes_ok (l : list Z) : Prop := Forall is_u8 l.

Lemma len_nonneg {A} (l : list A) : 0 <= len l.
Proof. unfold len. lia. Qed.

#[export] Instance len_perm {A} : Proper (Permutation ==> eq) (@len A).
Proof. intros l k Hp. unfold len. by rewrite (Permutation_length Hp). Qed.

Lemma len_nil {A} : len (@nil A) = 0.
Proof. reflexivity. Qed.

Lemma len_cons {A} (x : A) l : len (x :: l) = 1 + len l.
Proof. unfold len. simpl length. lia. Qed.

Lemma len_app {A} (l k : list A) : len (l ++ k) = len l + len k.
Proof. unfold len. rewrite length_app. lia. Qed.

Lemma len_rev {A} (l : list A) : len (rev l) = len l.
Proof. unfold len. by rewrite length_rev. Qed.

Lemma len_map {A B} (f : A -> B) l : len (map f l) = len l.
Proof. unfold len. by rewrite length_map. Qed.

Lemma len_zeros n : 0 <= n -> len (zeros n) = n.
Proof. intros. unfold len, zeros. rewrite length_replicate. lia. Qed.

Lemma len_get {A} (l : list A) off n :
  0 <= off -> 0 <= n -> off + n <= len l -> len (get l off n) = n.
Proof. unfold len, get. intros. rewrite length_take, length_drop. lia. Qed.

Lemma len_put {A} (l : list A) off src :
  0 <= off -> off + len src <= len l -> len (put l off src) = len l.
Proof.
  unfold len, put. intros.
  rewrite !length_app, length_take, length_drop. lia.
Qed.

Create Rewrite HintDb len.
#[export] Hint Rewrite @len_nil @len_cons @len_app @len_rev @len_map : len.

Lemma get_app_l {A} (l k : list A) off n :
  0 <= off -> 0 <= n -> off + n <= len l -> get (l ++ k) off n = get l off n.
Proof.
  unfold len, get. intros.
  rewrite drop_app_le by lia. apply take_app_le. rewrite length_drop. lia.
Qed.

Lemma get_app_r {A} (l k : list A) off n :
  len l <= off -> get (l ++ k) off n = get k (off - len l) n.
Proof.
  unfold len, get. intros. rewrite drop_app_ge by lia. do 2 f_equal. lia.
Qed.

Lemma get_all {A} (l : list A) n : n = len l -> get l 0 n = l.
Proof. unfold get, len. intros ->. simpl. apply take_ge. lia. Qed.

Lemma get_app_exact {A} (l k : list A) n : n = len l -> get (l ++ k) 0 n = l.
Proof. intros ->. rewrite get_app_l by (pose proof (len_nonneg l); lia). by apply get_all. Qed.

Lemma get_get {A} (l : list A) a n b m :
  0 <= a -> 0 <= b -> 0 <= m -> b + m <= n -> get (get l a n) b m = get l (a + b) m.
Proof.
  unfold get. intros.
  rewrite skipn_firstn_comm, take_take, drop_drop. f_equal; [lia|f_equal; lia].
Qed.

Lemma get_nil_n {A} (l : list A) off n : n <= 0 -> get l off n = [].
Proof. unfold get. intros. by replace (Z.to_nat n) with 0%nat by lia. Qed.

Lemma get_split {A} (l : list A) off n m :
  0 <= off -> 0 <= n -> 0 <= m -> get l off (n + m) = get l off n ++ get l (off + n) m.
Proof.
  intros. unfold get.
  rewrite <- (take_drop (Z.to_nat n) (drop (Z.to_nat off) l)) at 1.
  rewrite drop_drop.
  replace (Z.to_nat off + Z.to_nat n)%nat with (Z.to_nat (off + n)) by lia.
  destruct (decide (Z.to_nat n <= length (drop (Z.to_nat off) l))%nat).
  - rewrite take_app_ge by (rewrite length_take; lia). f_equal. f_equal.
    rewrite length_take. lia.
  - rewrite (drop_ge l (Z.to_nat (off + n))) by (rewrite length_drop in *; lia).
    rewrite app_nil_r, take_nil, app_nil_r. apply take_ge. rewrite length_take. lia.
Qed.

Lemma get_put_same {A} (l : list A) off src n :
  0 <= off -> off + len src <= len l -> n = len src -> get (put l off src) off n = src.
Proof.
  unfold len, get, put. intros ?? ->.
  rewrite drop_app_ge by (rewrite length_take; lia).
  rewrite length_take, Nat2Z.id.
  replace (Z.to_nat off - Z.to_nat off `min` length l)%nat with 0%nat by lia.
  by rewrite drop_0, take_app_length.
Qed.

Lemma get_put_before {A} (l : list A) off src a n :
  0 <= a -> 0 <= n -> a + n <= off -> off <= len l -> get (put l off src) a n = get l a n.
Proof.
  unfold put. intros.
  rewrite get_app_l by (unfold len in *; rewrite ?length_take; lia).
  unfold get. rewrite skipn_firstn_comm, take_take. f_equal. lia.
Qed.

Lemma get_put_after {A} (l : list A) off src a n :
  0 <= off -> off + len src <= a -> off + len src <= len l -> get (put l off src) a n = get l a n.
Proof.
  unfold len, get, put. intros. f_equal.
  rewrite drop_app_ge by (rewrite length_take; lia).
  rewrite drop_app_ge by (rewrite length_take; lia).
  rewrite drop_drop, length_take. f_equal. lia.
Qed.

Lemma put_put_same {A} (l : list A) off s1 s2 :
  0 <= off -> off + len s1 <= len l -> len s1 = len s2 ->
  put (put l off s1) off s2 = put l off s2.
Proof.
  unfold len, put. intros.
  rewrite (take_app_le _ _ (Z.to_nat off)) by (rewrite length_take; lia).
  rewrite take_take, Nat.min_id. f_equal. f_equal.
  rewrite drop_app_ge by (rewrite length_take; lia).
  rewrite drop_app_ge by (rewrite length_take; lia).
  rewrite drop_drop, length_take. f_equal. lia.
Qed.

Lemma put_get_id {A} (l : list A) off n :
  0 <= off -> 0 <= n -> off + n <= len l -> put l off (get l off n) = l.
Proof.
  intros. pose proof (len_get l off n ltac:(lia) ltac:(lia) ltac:(lia)) as Hn.
  unfold put. unfold len in Hn. unfold get in *.
  replace (drop (Z.to_nat off + _) l) with (drop (Z.to_nat n) (drop (Z.to_nat off) l))
    by (rewrite drop_drop; f_equal; lia).
  by rewrite take_drop, take_drop.
Qed.

Lemma slice_Ok {A} (l : list A) a b :
  0 <= a -> a <= b -> b <= len l -> slice l a b = Ok (get l a (b - a)).
Proof.
  intros. unfold slice.
  destruct (Z.leb_spec 0 a), (Z.leb_spec a b), (Z.leb_spec b (len l)); simpl; lia || done.
Qed.

Lemma slice_inv {A} (l : list A) a b x :
  slice l a b = Ok x -> 0 <= a /\ a <= b /\ b <= len l /\ x = get l a (b - a).
Proof.
  unfold slice.
  destruct (Z.leb_spec 0 a), (Z.leb_spec a b), (Z.leb_spec b (len l)); simpl; try done.
  by intros [= <-].
Qed.

Lemma index_Ok {A} (l : list A) i x :
  0 <= i -> l !! Z.to_nat i = Some x -> index l i = Ok x.
Proof. intros ? Hx. unfold index. destruct (Z.leb_spec 0 i); [by rewrite Hx|lia]. Qed.

Lemma index_in_range {A} (l : list A) i :
  0 <= i < len l -> exists x, index l i = Ok x /\ get l i 1 = [x].
Proof.
  intros Hi. unfold len in Hi.
  destruct (lookup_lt_is_Some_2 l (Z.to_nat i)) as [x Hx]; [lia|].
  exists x. split; [apply index_Ok; [lia|done]|].
  unfold get. by rewrite (drop_S _ x) by done.
Qed.

Lemma index_app_r {A} (l k : list A) i : len l <= i -> index (l ++ k) i = index k (i - len l).
Proof.
  intros. pose proof (len_nonneg l). unfold index.
  destruct (Z.leb_spec 0 i), (Z.leb_spec 0 (i - len l)); try lia.
  rewrite lookup_app_r by (unfold len in *; lia).
  by replace (Z.to_nat (i - len l)) with (Z.to_nat i - length l)%nat by (unfold len in *; lia).
Qed.

Lemma index_get {A} (l : list A) i x : 0 <= i -> get l i 1 = [x] -> index l i = Ok x.
Proof.
  intros ? Hg. apply index_Ok; [done|]. unfold get in Hg.
  destruct (drop (Z.to_nat i) l) as [|y t] eqn:E; [done|]. simpl in Hg.
  injection Hg as ->. rewrite <- (Nat.add_0_r (Z.to_nat i)), <- lookup_drop, E. done.
Qed.

(** ** Integers as bytes *)

(** [z.to_le_bytes()] for an [n]-byte unsigned integer *)
Fixpoint le_bytes (n : nat) (z : Z) : list Z :=
  match n with
  | O => []
  | S n' => z mod 256 :: le_bytes n' (z / 256)
  end.

(** [uN::from_le_bytes] *)
Fixpoint from_le (l : list Z) : Z :=
  match l with
  | [] => 0
  | b :: t => b + 256 * from_le t
  end.

Definition be_bytes (n : nat) (z : Z) : list Z := rev (le_bytes n z).

Definition from_be (l : list Z) : Z := from_le (rev l).

Lemma length_le_bytes n z : length (le_bytes n z) = n.
Proof. revert z. induction n; intros; simpl; auto. Qed.

Lemma len_le_bytes n z : len (le_bytes n z) = Z.of_nat n.
Proof. unfold len. by rewrite length_le_bytes. Qed.

Lemma len_be_bytes n z : len (be_bytes n z) = Z.of_nat n.
Proof. unfold be_bytes. by rewrite len_rev, len_le_bytes. Qed.

#[export] Hint Rewrite len_le_bytes len_be_bytes : len.

Lemma le_bytes_ok n z : bytes_ok (le_bytes n z).
Proof.
  revert z. induction n; intros z; simpl; constructor; [|apply IHn].
  pose proof (Z.mod_pos_bound z 256). unfold is_u. simpl. lia.
Qed.

Lemma be_bytes_ok n z : bytes_ok (be_bytes n z).
Proof. apply Forall_rev, le_bytes_ok. Qed.

Lemma pow256_S n : 256 ^ Z.of_nat (S n) = 256 * 256 ^ Z.of_nat n.
Proof. rewrite Nat2Z.inj_succ, Z.pow_succ_r; lia. Qed.

Lemma pow256_pos n : 0 < 256 ^ Z.of_nat n.
Proof. apply Z.pow_pos_nonneg; lia. Qed.

Lemma from_le_le_bytes n z : 0 <= z < 256 ^ Z.of_nat n -> from_le (le_bytes n z) = z.
Proof.
  revert z. induction n as [|n IH]; intros z Hz; simpl.
  - change (256 ^ Z.of_nat 0) with 1 in Hz. lia.
  - rewrite pow256_S in Hz. rewrite IH.
    + pose proof (Z.div_mod z 256). lia.
    + split; [apply Z.div_pos; lia|]. apply Z.div_lt_upper_bound; lia.
Qed.

Lemma from_le_range l : bytes_ok l -> 0 <= from_le l < 256 ^ len l.
Proof.
  unfold len. induction 1 as [|b t Hb _ IH]; [by simpl|].
  change (length (b :: t)) with (S (length t)). rewrite pow256_S. simpl.
  unfold is_u in Hb. simpl in Hb. lia.
Qed.

Lemma le_bytes_from_le l n : bytes_ok l -> n = length l -> le_bytes n (from_le l) = l.
Proof.
  intros Hl ->. induction Hl as [|b t Hb Ht IH]; [done|]. simpl.
  unfold is_u in Hb. simpl in Hb.
  rewrite (Z.mul_comm 256), Z.mod_add, Z.div_add by lia.
  rewrite Z.mod_small, Z.div_small by lia. by rewrite Z.add_0_l, IH.
Qed.

Lemma from_be_be_bytes n z : 0 <= z < 256 ^ Z.of_nat n -> from_be (be_bytes n z) = z.
Proof. intros. unfold from_be, be_bytes. by rewrite rev_involutive, from_le_le_bytes. Qed.

Lemma be_bytes_from_be l n : bytes_ok l -> n = length l -> be_bytes n (from_be l) = l.
Proof.
  intros ? ->. unfold from_be, be_bytes.
  rewrite le_bytes_from_le, rev_involutive; [done|by apply Forall_rev|by rewrite length_rev].
Qed.

(** The widths the code uses *)
Lemma from_le_u16 z : is_u16 z -> from_le (le_bytes 2 z) = z.
Proof. intros. by apply from_le_le_bytes. Qed.
Lemma from_le_u32 z : is_u32 z -> from_le (le_bytes 4 z) = z.
Proof. intros. by apply from_le_le_bytes. Qed.
Lemma from_le_u64 z : is_u64 z -> from_le (le_bytes 8 z) = z.
Proof. intros. by apply from_le_le_bytes. Qed.
Lemma from_be_u32 z : is_u32 z -> from_be (be_bytes 4 z) = z.
Proof. intros. by apply from_be_be_bytes. Qed.
Lemma from_be_u64 z : is_u64 z -> from_be (be_bytes 8 z) = z.
Proof. intros. by apply from_be_be_bytes. Qed.

Lemma from_le_bound l w : bytes_ok l -> 8 * len l = w -> 0 <= from_le l < 2 ^ w.
Proof.
  intros Hl <-. pose proof (from_le_range l Hl).
  rewrite Z.pow_mul_r by (pose proof (len_nonneg l); lia). done.
Qed.

Lemma bytes_ok_get l off n : bytes_ok l -> bytes_ok (get l off n).
Proof. intros. apply Forall_take, Forall_drop. done. Qed.

Lemma bytes_ok_app l k : bytes_ok (l ++ k) <-> bytes_ok l /\ bytes_ok k.
Proof. apply Forall_app. Qed.

Lemma bytes_ok_zeros n : bytes_ok (zeros n).
Proof. apply Forall_replicate. unfold is_u. simpl. lia. Qed.

Create HintDb bytes.
#[export] Hint Resolve le_bytes_ok be_bytes_ok bytes_ok_get bytes_ok_zeros len_nonneg : bytes.

(** ** Lexicographic order *)

Fixpoint lex_cmp (a b : list Z) : comparison :=
  match a, b with
  | [], [] => Eq
  | [], _ :: _ => Lt
  | _ :: _, [] => Gt
  | x :: a', y :: b' => match x ?= y with Eq => lex_cmp a' b' | c => c end
  end.

(** [Ordering::then_with] *)
Definition then_with (c d : comparison) : comparison :=
  match c with Eq => d | _ => c end.

Lemma lex_cmp_refl a : lex_cmp a a = Eq.
Proof. induction a as [|x a IH]; simpl; [done|]. by rewrite Z.compare_refl. Qed.

Lemma lex_cmp_eq a b : lex_cmp a b = Eq <-> a = b.
Proof.
  split; [|intros ->; apply lex_cmp_refl].
  revert b. induction a as [|x a IH]; intros [|y b]; simpl; try done.
  destruct (Z.compare_spec x y); try done. intros. f_equal; auto.
Qed.

Lemma lex_cmp_antisym a b : lex_cmp b a = CompOpp (lex_cmp a b).
Proof.
  revert b. induction a as [|x a IH]; intros [|y b]; simpl; try done.
  rewrite (Z.compare_antisym x y). destruct (x ?= y); simpl; auto.
Qed.

Lemma lex_cmp_trans a b c : lex_cmp a b = Lt -> lex_cmp b c = Lt -> lex_cmp a c = Lt.
Proof.
  revert b c. induction a as [|x a IH]; intros [|y b] [|z c]; simpl; try done.
  destruct (Z.compare_spec x y), (Z.compare_spec y z), (Z.compare_spec x z);
    try done; try lia; eauto.
Qed.

Lemma lex_cmp_prefix p a b : lex_cmp (p ++ a) (p ++ b) = lex_cmp a b.
Proof. induction p as [|x p IH]; simpl; [done|]. by rewrite Z.compare_refl. Qed.

Lemma lex_cmp_app_same_len a b x y :
  length a = length b -> lex_cmp (a ++ x) (b ++ y) = then_with (lex_cmp a b) (lex_cmp x y).
Proof.
  revert b. induction a as [|p a IH]; intros [|q b] Hl; simpl in *; try done.
  destruct (p ?= q); simpl; auto.
Qed.

Lemma lex_cmp_be_bytes n x y :
  0 <= x < 256 ^ Z.of_nat n -> 0 <= y < 256 ^ Z.of_nat n ->
  lex_cmp (be_bytes n x) (be_bytes n y) = (x ?= y).
Proof.
  revert x y. induction n as [|n IH]; intros x y Hx Hy.
  - change (256 ^ Z.of_nat 0) with 1 in *. replace x with 0 by lia. by replace y with 0 by lia.
  - rewrite pow256_S in Hx, Hy. unfold be_bytes in *. simpl.
    rewrite lex_cmp_app_same_len by (by rewrite !length_rev, !length_le_bytes).
    rewrite IH by (split; [apply Z.div_pos|apply Z.div_lt_upper_bound]; lia). simpl.
    pose proof (Z.div_mod x 256 ltac:(lia)). pose proof (Z.div_mod y 256 ltac:(lia)).
    pose proof (Z.mod_pos_bound x 256 ltac:(lia)). pose proof (Z.mod_pos_bound y 256 ltac:(lia)).
    destruct (Z.compare_spec (x / 256) (y / 256)) as [E|L|L]; simpl.
    + destruct (Z.compare_spec (x mod 256) (y mod 256)), (Z.compare_spec x y); lia || done.
    + destruct (Z.compare_spec x y); nia || done.
    + destruct (Z.compare_spec x y); nia || done.
Qed.

(** [for b in buf { *b = !*b }] reverses the order of strings of one length *)
Lemma lex_cmp_map_not a b :
  length a = length b ->
  lex_cmp (map (bit_not 8) a) (map (bit_not 8) b) = CompOpp (lex_cmp a b).
Proof.
  revert b. induction a as [|x a IH]; intros [|y b] Hl; simpl in *; try done.
  unfold bit_not.
  destruct (Z.compare_spec x y), (Z.compare_spec (2 ^ 8 - 1 - x) (2 ^ 8 - 1 - y)); lia || auto.
Qed.

Definition lex_ltb (a b : list Z) : bool :=
  match lex_cmp a b with Lt => true | _ => false end.
Definition lex_leb (a b : list Z) : bool :=
  match lex_cmp a b with Gt => false | _ => true end.

Definition lex_lt (a b : list Z) : Prop := lex_cmp a b = Lt.

#[export] Instance lex_lt_dec : RelDecision lex_lt.
Proof. intros a b. unfold lex_lt. solve_decision. Defined.

#[export] Instance lex_lt_strict : StrictOrder lex_lt.
Proof.
  split.
  - intros a H. unfold lex_lt in H. by rewrite lex_cmp_refl in H.
  - intros a b c. apply lex_cmp_trans.
Qed.

(** ** Reads and writes of a buffer that may panic *)

(** [uN::from_le_bytes([l[off], ..])] / [.try_into()] of a slice *)
Definition read_le (l : list Z) (off n : Z) : Result Z :=
  b ← slice l off (off + n); Ok (from_le b).

Definition read_be (l : list Z) (off n : Z) : Result Z :=
  b ← slice l off (off + n); Ok (from_be b).

(** [l[off..off + src.len()].copy_from_slice(src)] *)
Definition write_at {A} (l : list A) (off : Z) (src : list A) : Result (list A) :=
  if (0 <=? off) && (off + len src <=? len l) then Ok (put l off src) else Panic.

Lemma read_le_Ok l off n :
  0 <= off -> 0 <= n -> off + n <= len l -> read_le l off n = Ok (from_le (get l off n)).
Proof.
  intros. unfold read_le. rewrite slice_Ok by lia. simpl. do 3 f_equal. lia.
Qed.

Lemma read_be_Ok l off n :
  0 <= off -> 0 <= n -> off + n <= len l -> read_be l off n = Ok (from_be (get l off n)).
Proof.
  intros. unfold read_be. rewrite slice_Ok by lia. simpl. do 3 f_equal. lia.
Qed.

Lemma read_le_inv l off n z :
  read_le l off n = Ok z -> 0 <= off /\ 0 <= n /\ off + n <= len l /\ z = from_le (get l off n).
Proof.
  unfold read_le. intros (b & Hb & Hz)%bind_Ok_inv. apply slice_inv in Hb as (? & ? & ? & ->).
  injection Hz as <-. split_and!; try lia. do 2 f_equal. lia.
Qed.

Lemma write_at_Ok {A} (l : list A) off src :
  0 <= off -> off + len src <= len l -> write_at l off src = Ok (put l off src).
Proof.
  intros. unfold write_at.
  destruct (Z.leb_spec 0 off), (Z.leb_spec (off + len src) (len l)); simpl; lia || done.
Qed.

Lemma put_put_app {A} (l : list A) off s1 s2 off2 :
  0 <= off -> off + len s1 + len s2 <= len l -> off2 = off + len s1 ->
  put (put l off s1) off2 s2 = put l off (s1 ++ s2).
Proof.
  intros Ho Hl ->. pose proof (len_nonneg s1). pose proof (len_nonneg s2).
  assert (Hn : Z.to_nat (off + len s1) = (Z.to_nat off + length s1)%nat) by (unfold len in *; lia).
  assert (Ht : length (take (Z.to_nat off) l ++ s1) = (Z.to_nat off + length s1)%nat)
    by (rewrite length_app, length_take; unfold len in *; lia).
  assert (HP : put l off s1 = (take (Z.to_nat off) l ++ s1) ++ drop (Z.to_nat off + length s1) l)
    by (unfold put; by rewrite app_assoc).
  unfold put at 1. rewrite HP, Hn, take_app_le, take_ge by lia.
  rewrite drop_app_ge, drop_drop, Ht by lia. unfold put.
  rewrite length_app, <- !app_assoc. do 4 f_equal. lia.
Qed.

(** Splits a known sub-range into its parts. *)
Lemma get_sub {A} (l : list A) off s a n :
  get l off (len s) = s -> 0 <= off -> 0 <= a -> 0 <= n -> a + n <= len s ->
  get l (off + a) n = get s a n.
Proof. intros E ????. rewrite <- E. by rewrite get_get by lia. Qed.

Lemma get_app_parts {A} (l : list A) off s1 s2 :
  0 <= off -> get l off (len (s1 ++ s2)) = s1 ++ s2 ->
  get l off (len s1) = s1 /\ get l (off + len s1) (len s2) = s2.
Proof.
  intros Ho E. pose proof (len_nonneg s1). pose proof (len_nonneg s2).
  split.
  - rewrite <- (Z.add_0_r off), (get_sub l off _ _ _ E) by (rewrite ?len_app; lia).
    by apply get_app_exact.
  - rewrite (get_sub l off _ _ _ E) by (rewrite ?len_app; lia).
    rewrite get_app_r, Z.sub_diag by lia. by apply get_all.
Qed.

Lemma get_len_app {A} (l : list A) off s1 s2 :
  0 <= off ->
  get l off (len s1) = s1 -> get l (off + len s1) (len s2) = s2 ->
  get l off (len (s1 ++ s2)) = s1 ++ s2.
Proof.
  intros Ho E1 E2. pose proof (len_nonneg s1). pose proof (len_nonneg s2).
  rewrite len_app, get_split by lia. by rewrite E1, E2.
Qed.

(** ** Sequences of writes

    Consecutive writes are one write of the concatenation; a read inside a
    written region reads the source. *)

Lemma write_at_next {A} (l : list A) off s1 off2 s2 :
  0 <= off -> off2 = off + len s1 -> off + len s1 + len s2 <= len l ->
  write_at (put l off s1) off2 s2 = Ok (put l off (s1 ++ s2)).
Proof.
  intros ? -> ?. pose proof (len_nonneg s1). pose proof (len_nonneg s2).
  rewrite write_at_Ok by (rewrite ?len_put; lia).
  by rewrite put_put_app.
Qed.

(** The region of [l] at [base] holds [h]. *)
Definition holds {A} (l : list A) (base : Z) (h : list A) : Prop :=
  0 <= base /\ base + len h <= len l /\ get l base (len h) = h.

Lemma holds_put {A} (l : list A) base h :
  0 <= base -> base + len h <= len l -> holds (put l base h) base h.
Proof. intros. split_and!; [done|by rewrite len_put|by apply get_put_same]. Qed.

(** A write elsewhere keeps the region. *)
Lemma holds_put_other {A} (l : list A) base h off s :
  holds l base h -> 0 <= off -> off + len s <= len l ->
  base + len h <= off \/ off + len s <= base -> holds (put l off s) base h.
Proof.
  intros (? & ? & E) ?? [|]; pose proof (len_nonneg h); pose proof (len_nonneg s).
  - split_and!; [done|by rewrite len_put|]. by rewrite get_put_before by lia.
  - split_and!; [done|by rewrite len_put|]. by rewrite get_put_after by lia.
Qed.

Lemma holds_app {A} (l : list A) base h k :
  holds l base (h ++ k) <-> holds l base h /\ holds l (base + len h) k.
Proof.
  pose proof (len_nonneg h). pose proof (len_nonneg k). unfold holds. rewrite len_app. split.
  - intros (? & ? & E). rewrite <- len_app in E. apply get_app_parts in E as [? ?]; [|done].
    split_and!; done || lia.
  - intros [(? & ? & E) (? & ? & E')]. split_and!; [done|lia|].
    rewrite <- len_app. by apply get_len_app.
Qed.

Lemma read_le_holds l base h off n :
  holds l base h -> base <= off -> 0 <= n -> off + n <= base + len h ->
  read_le l off n = Ok (from_le (get h (off - base) n)).
Proof.
  intros (? & ? & E) ???. rewrite read_le_Ok by lia. do 2 f_equal.
  replace off with (base + (off - base)) at 1 by lia. apply get_sub; done || lia.
Qed.

Lemma slice_holds {A} (l : list A) base h off n :
  holds l base h -> base <= off -> off <= n -> n <= base + len h ->
  slice l off n = Ok (get h (off - base) (n - off)).
Proof.
  intros (? & ? & E) ???. rewrite slice_Ok by lia. f_equal.
  replace off with (base + (off - base)) at 1 by lia. apply get_sub; done || lia.
Qed.

Lemma index_holds {A} (l : list A) base h off :
  holds l base h -> base <= off < base + len h -> index l off = index h (off - base).
Proof.
  intros (? & ? & E) ?. destruct (index_in_range h (off - base)) as (x & Hx & Hg); [lia|].
  rewrite Hx. apply index_get; [lia|]. replace off with (base + (off - base)) by lia.
  rewrite (get_sub _ _ h); done || lia.
Qed.

(** Side conditions of the codecs: lengths of concrete shape *)
Ltac len_solve :=
  repeat first
    [ rewrite len_put by len_solve
    | progress autorewrite with len in * ];
  simpl Z.of_nat in *; lia.

Ltac write_chain :=
  repeat first
    [ rewrite write_at_next by len_solve
    | rewrite write_at_Ok by len_solve
    | rewrite bind_Ok ].

(** Reading exactly a region that is known *)
Lemma slice_part {A} (l : list A) base h n :
  holds l base h -> n = base + len h -> slice l base n = Ok h.
Proof.
  intros (? & ? & E) ->. pose proof (len_nonneg h). rewrite slice_Ok by lia. f_equal.
  by replace (base + len h - base) with (len h) by lia.
Qed.

Lemma index_part {A} (l : list A) base b : holds l base [b] -> index l base = Ok b.
Proof. intros (? & ? & E). by apply index_get. Qed.

Lemma read_le_part l base n z k :
  holds l base (le_bytes n z) -> 0 <= z < 256 ^ Z.of_nat n -> k = Z.of_nat n ->
  read_le l base k = Ok z.
Proof.
  intros Hh Hz ->. unfold read_le.
  rewrite (slice_part _ _ _ _ Hh) by (by rewrite len_le_bytes).
  rewrite bind_Ok. f_equal. by apply from_le_le_bytes.
Qed.

Lemma holds_bounds {A} (l : list A) base h : holds l base h -> 0 <= base /\ base + len h <= len l.
Proof. by intros (? & ? & _). Qed.

Lemma lex_lt_irrefl a : ~ lex_lt a a.
Proof. unfold lex_lt. by rewrite lex_cmp_refl. Qed.

(** Overwriting a part of a region just written *)
Lemma put_put_inner {A} (l : list A) off a b c b' off2 :
  0 <= off -> off + len (a ++ b ++ c) <= len l -> off2 = off + len a -> len b = len b' ->
  put (put l off (a ++ b ++ c)) off2 b' = put l off (a ++ b' ++ c).
Proof.
  intros Ho Hl -> Hb. rewrite !len_app in Hl. unfold len in *.
  assert (Ht : length (take (Z.to_nat off) l ++ a) = (Z.to_nat off + length a)%nat)
    by (rewrite length_app, length_take; lia).
  assert (Hn : Z.to_nat (off + Z.of_nat (length a)) = (Z.to_nat off + length a)%nat) by lia.
  assert (HP : put l off (a ++ b ++ c) =
    (take (Z.to_nat off) l ++ a) ++ b ++ c ++ drop (Z.to_nat off + length (a ++ b ++ c)) l)
    by (unfold put; by rewrite <- !app_assoc).
  unfold put at 1. rewrite HP, Hn, take_app_le, take_ge by lia.
  rewrite drop_app_ge by lia. rewrite Ht.
  replace (Z.to_nat off + length a + length b' - (Z.to_nat off + length a))%nat
    with (length b) by lia.
  rewrite drop_app_length. unfold put. rewrite <- !app_assoc, !length_app.
  do 5 f_equal. lia.
Qed.

(** ** Panic freedom of reads *)

Lemma no_panic_guard {A} c e (k : Result A) :
  (c = false -> no_panic k) -> no_panic (reject_if c e;; k).
Proof. intros Hk. destruct c; simpl; [discriminate|auto]. Qed.

Lemma no_panic_slice {A} (l : list A) a b : 0 <= a -> a <= b -> b <= len l -> no_panic (slice l a b).
Proof. intros. rewrite slice_Ok by lia. discriminate. Qed.

Lemma no_panic_index {A} (l : list A) i : 0 <= i < len l -> no_panic (index l i).
Proof. intros Hi. destruct (index_in_range l i Hi) as (x & -> & _). discriminate. Qed.

Lemma no_panic_read_le l off n : 0 <= off -> 0 <= n -> off + n <= len l -> no_panic (read_le l off n).
Proof. intros. rewrite read_le_Ok by lia. discriminate. Qed.

Lemma no_panic_read_be l off n : 0 <= off -> 0 <= n -> off + n <= len l -> no_panic (read_be l off n).
Proof. intros. rewrite read_be_Ok by lia. discriminate. Qed.

Lemma read_le_range l off n z : bytes_ok l -> read_le l off n = Ok z -> 0 <= z < 256 ^ n.
Proof.
  intros Hl (? & ? & ? & ->)%read_le_inv.
  pose proof (from_le_range (get l off n) (bytes_ok_get l off n Hl)) as Hr.
  by rewrite len_get in Hr by lia.
Qed.

Lemma read_le_bytes l c n z :
  bytes_ok l -> read_le l c (Z.of_nat n) = Ok z -> le_bytes n z = get l c (Z.of_nat n).
Proof.
  intros Hb (? & ? & ? & ->)%read_le_inv. apply le_bytes_from_le; [by apply bytes_ok_get|].
  assert (len (get l c (Z.of_nat n)) = Z.of_nat n) by (rewrite len_get; lia). unfold len in *. lia.
Qed.

Lemma index_byte {A} (l : list A) i x : 0 <= i < len l -> index l i = Ok x -> get l i 1 = [x].
Proof. intros Hi Hx. destruct (index_in_range l i Hi) as (y & Hy & Hg). congruence. Qed.

(** Walks a chain of guards and reads, leaving side conditions to [lia]. *)
Ltac panic_free :=
  repeat first
    [ apply no_panic_guard; intros ?%Z.ltb_ge
    | apply no_panic_bind;
        [ first [ apply no_panic_read_le; lia | apply no_panic_read_be; lia
                | apply no_panic_slice; lia | apply no_panic_index; lia
                | solve [auto with panics] ]
        | intros ? ?;
          try match goal with
          | Hb : bytes_ok ?l, Hr : read_le ?l _ ?n = Ok ?z |- _ =>
              pose proof (read_le_range _ _ _ _ Hb Hr); revert Hr
          end; intros ]
    | progress cbv zeta
    | discriminate ].

(** ** Reading a record field by field *)

Lemma read_le_field l base off n z k :
  holds l base (le_bytes n z) -> off = base -> k = Z.of_nat n -> 0 <= z < 256 ^ Z.of_nat n -> read_le l off k = Ok z.
Proof. intros Hh -> -> Hz. by apply (read_le_part l base n). Qed.

Lemma slice_field {A} (l : list A) base a b h :
  holds l base h -> a = base -> b = base + len h -> slice l a b = Ok h.
Proof. intros Hh -> ->. by apply slice_part. Qed.

Lemma index_field {A} (l : list A) base i b : holds l base [b] -> i = base -> index l i = Ok b.
Proof. intros Hh ->. by apply index_part. Qed.

(** Cuts every known region that is a concatenation into its fields. *)
Ltac split_fields :=
  repeat match goal with
  | H : holds _ _ (_ ++ _) |- _ => apply holds_app in H as [? ?]
  end;
  autorewrite with len in *; simpl Z.of_nat in *.

(** Replaces the next read by the field at its offset. *)
Ltac read_field :=
  match goal with
  | H : holds ?l ?base (le_bytes ?n ?z) |- context [read_le ?l ?off ?k] =>
      rewrite (read_le_field l base off n z k H) by (reflexivity || lia || assumption)
  | H : holds ?l ?base [?b] |- context [index ?l ?i] =>
      rewrite (index_field l base i b H) by lia
  | H : holds ?l ?base ?h |- context [slice ?l ?a ?b] =>
      rewrite (slice_field l base a b h H) by (autorewrite with len; simpl Z.of_nat; lia)
  end; rewrite ?bind_Ok.

Lemma put_whole {A} (l src : list A) : len src = len l -> put l 0 src = src.
Proof. intros Hl. unfold put. rewrite drop_ge, app_nil_r; [done|]. unfold len in Hl. lia. Qed.

Lemma ok_or_checked_add w a b e : a + b < 2 ^ w -> ok_or (checked_add w a b) e = Ok (a + b).
Proof. intros. unfold checked_add. by destruct (Z.ltb_spec (a + b) (2 ^ w)); [|lia]. Qed.

(** A bound check that the context shows not taken *)
Lemma reject_if_ge a b e : b <= a -> reject_if (a <? b) e = Ok tt.
Proof. intros. by destruct (Z.ltb_spec a b); [lia|]. Qed.

Lemma reject_if_leb a b e : b < a -> reject_if (a <=? b) e = Ok tt.
Proof. intros. by destruct (Z.leb_spec a b); [lia|]. Qed.

(** A comparison of two values the context shows equal *)
Lemma reject_if_eq a b e : a = b -> reject_if (negb (a =? b)) e = Ok tt.
Proof. intros ->. by rewrite Z.eqb_refl. Qed.

Lemma reject_neq_Ok a b e u : reject_if (negb (a =? b)) e = Ok u -> a = b.
Proof. intros Hr. by apply reject_if_Ok, negb_false_iff, Z.eqb_eq in Hr. Qed.

Lemma checked_add_Ok w a b e c : ok_or (checked_add w a b) e = Ok c -> c = a + b /\ c < 2 ^ w.
Proof. unfold checked_add. destruct (Z.ltb_spec (a + b) (2 ^ w)); [|done]. simpl. intros [= <-]. lia. Qed.

Lemma to_nat_len {A} (l : list A) : Z.to_nat (len l) = length l.
Proof. unfold len. lia. Qed.

Lemma holds_self {A} (l : list A) : holds l 0 l.
Proof. split_and!; [lia|lia|by apply get_all]. Qed.

Lemma holds_at {A} (l : list A) base base' h : holds l base h -> base' = base -> holds l base' h.
Proof. by intros ? ->. Qed.

(** Opens a successful chain of binds into its steps. *)
Ltac bind_inv H :=
  repeat match type of H with
  | _ ≫= _ = Ok _ => let x := fresh "x" in let Hx := fresh "Hx" in apply bind_Ok_inv in H as (x & Hx & H)
  end.

(** Turns the passed guards of an opened chain into facts. *)
Ltac guard_facts :=
  repeat match goal with
  | Hr : reject_if (negb (_ =? _)) _ = Ok _ |- _ => apply reject_neq_Ok in Hr
  | Hr : reject_if (_ <? _) _ = Ok _ |- _ => apply reject_if_Ok, Z.ltb_ge in Hr
  | Hr : ok_or (checked_add _ _ _) _ = Ok _ |- _ => apply checked_add_Ok in Hr as [? ?]
  end.

(** ** Files as byte lists *)

(** [file.seek(offset); file.write_all(data)]: a write behind the end of the
    file leaves a hole of zeros *)
Definition file_write (file : list Z) (offset : Z) (data : list Z) : list Z :=
  let padded := file ++ zeros (offset + len data - len file) in
  put padded offset data.

Lemma len_file_pad (file : list Z) off (data : list Z) :
  0 <= off -> len (file ++ zeros (off + len data - len file)) = Z.max (len file) (off + len data).
Proof.
  intros. pose proof (len_nonneg file). pose proof (len_nonneg data). rewrite len_app. unfold len at 2, zeros.
  rewrite length_replicate. lia.
Qed.

Lemma len_file_write file off data : 0 <= off -> len (file_write file off data) = Z.max (len file) (off + len data).
Proof.
  intros Ho. pose proof (len_nonneg data). unfold file_write. cbv zeta. rewrite len_put; rewrite ?len_file_pad by done; lia.
Qed.

Lemma holds_file_write file off data : 0 <= off -> holds (file_write file off data) off data.
Proof. intros Ho. apply holds_put; [done|]. rewrite len_file_pad by done. lia. Qed.

Lemma holds_file_write_other file off data base h :
  0 <= off -> holds file base h -> base + len h <= off \/ off + len data <= base -> holds (file_write file off data) base h.
Proof.
  intros Ho (Hb & Hl & Hg) Hd. pose proof (len_nonneg h). pose proof (len_nonneg data).
  apply holds_put_other; rewrite ?len_file_pad by done; [|lia|lia|done].
  split_and!; [done|rewrite len_file_pad by done; lia|by rewrite get_app_l by lia].
Qed.
