(* ===== verification/F64.v ===== *)
(** * Binary64 numbers as the code uses them

    [f64] is [SpecFloat.spec_float] with 53 bits of precision; a finite value
    is [(-1)^s * m * 2^e].  Only what the sources call is modelled: the class
    tests, [trunc() as u64], the scaled fraction, and [str::parse::<f64>]
    (decimal, correctly rounded). *)

From S2P Require Import Prelude Bytes.
From Stdlib Require Export SpecFloat.
From Stdlib Require Import Ascii.

#[local] Open Scope Z_scope.

Abbreviation f64 := spec_float.

Definition prec : Z := 53.
Definition emax : Z := 1024.

(** The finite, normalised values of the format *)
Definition f64_wf (v : f64) : Prop := valid_binary prec emax v = true.

(** [abs.trunc() as u64] for the finite positive [m * 2^e]: the cast saturates *)
Definition trunc_as_u64 (m : positive) (e : Z) : Z :=
  let t := if 0 <=? e then Zpos m * 2 ^ e else Zpos m / 2 ^ (- e) in
  Z.min t u64_max.

(** [(abs.fract() * (u64::MAX as f64)) as u64]: [fract] is exact, and
    [u64::MAX as f64] is [2^64], so the product is exact as well. *)
Definition scaled_fract_as_u64 (m : positive) (e : Z) : Z :=
  if 0 <=? e then 0 else (Zpos m mod 2 ^ (- e)) * 2 ^ 64 / 2 ^ (- e).

(** ** [str::parse::<f64>] *)

(** The bytes of a string literal *)
Definition str (s : string) : list Z :=
  map (fun a => Z.of_N (N_of_ascii a)) (String.list_ascii_of_string s).

Definition digit (b : Z) : option Z :=
  if (48 <=? b) && (b <=? 57) then Some (b - 48) else None.

(** Leading digits: their value appended to [acc], their number, the rest *)
Fixpoint eat_digits (acc n : Z) (l : list Z) : Z * Z * list Z :=
  match l with
  | [] => (acc, n, [])
  | b :: t =>
      match digit b with
      | Some d => eat_digits (10 * acc + d) (n + 1) t
      | None => (acc, n, l)
      end
  end.

(** [e[+-]digits], to the end of the input *)
Definition parse_exponent (l : list Z) : option Z :=
  let '(neg, l) :=
    match l with
    | 43 :: t => (false, t)
    | 45 :: t => (true, t)
    | _ => (false, l)
    end in
  match eat_digits 0 0 l with
  | (x, n, []) => if n =? 0 then None else Some (if (neg : bool) then - x else x)
  | _ => None
  end.

(** Decimal mantissa and power of ten *)
Definition parse_number (l : list Z) : option (Z * Z) :=
  let '(a, n1, r) := eat_digits 0 0 l in
  let '(a, n2, r) :=
    match r with 46 :: t => eat_digits a 0 t | _ => (a, 0, r) end in
  if n1 + n2 =? 0 then None
  else
    match r with
    | [] => Some (a, - n2)
    | c :: t =>
        if (c =? 101) || (c =? 69) then
          x ← parse_exponent t; Some (a, x - n2)
        else None
    end.

Definition lowercase (b : Z) : Z := if (65 <=? b) && (b <=? 90) then b + 32 else b.

Definition parse_inf_nan (neg : bool) (l : list Z) : option f64 :=
  let l := map lowercase l in
  if bool_decide (l = str "inf") || bool_decide (l = str "infinity") then Some (S754_infinity neg)
  else if bool_decide (l = str "nan") then Some S754_nan
  else None.

(** [m * 10^x], rounded to nearest even *)
Definition round_decimal (neg : bool) (m x : Z) : f64 :=
  match m with
  | Zpos p =>
      match 10 ^ Z.abs x with
      | Zpos q =>
          if 0 <=? x then binary_normalize prec emax (if neg then Zneg (p * q) else Zpos (p * q)) 0 neg
          else SFdiv prec emax (S754_finite neg p 0) (S754_finite false q 0)
      | _ => S754_nan
      end
  | _ => S754_zero neg
  end.

Definition parse_f64 (l : list Z) : option f64 :=
  let '(neg, s) :=
    match l with
    | 45 :: t => (true, t)
    | 43 :: t => (false, t)
    | _ => (false, l)
    end in
  if bool_decide (s = []) then None
  else
    match parse_number s with
    | Some (m, x) => Some (round_decimal neg m x)
    | None => parse_inf_nan neg s
    end.

(** Sample conversions: 0.1 is 3602879701896397 * 2^-55 up to normalisation,
    1e400 overflows, 3e-400 underflows. *)
Example parse_f64_samples :
  parse_f64 (str "0.1") = Some (S754_finite false 7205759403792794 (-56)) /\
  parse_f64 (str "-2.5e1") = Some (S754_finite true 7036874417766400 (-48)) /\
  parse_f64 (str "1E400") = Some (S754_infinity false) /\
  parse_f64 (str "3e-400") = Some (S754_zero false) /\
  parse_f64 (str "-nAn") = Some S754_nan /\
  parse_f64 (str ".") = None /\ parse_f64 (str "1e") = None /\ parse_f64 (str "+") = None.
Proof. vm_compute. repeat split. Qed.

(** ** Mathematical values *)

(** The dyadic rational [mant * 2^ex], the non-finite values around it *)
Inductive num : Set :=
| NumNaN
| NumNegInf
| NumFin (mant ex : Z)
| NumPosInf.

Definition f64_num (v : f64) : num :=
  match v with
  | S754_nan => NumNaN
  | S754_infinity true => NumNegInf
  | S754_infinity false => NumPosInf
  | S754_zero _ => NumFin 0 0
  | S754_finite s m e => NumFin (if s then Zneg m else Zpos m) e
  end.

(** Comparison of two dyadic rationals, at their smaller exponent *)
Definition dyadic_cmp (m1 e1 m2 e2 : Z) : comparison :=
  let e := Z.min e1 e2 in (m1 * 2 ^ (e1 - e) ?= m2 * 2 ^ (e2 - e)).

Definition num_cmp (a b : num) : comparison :=
  match a, b with
  | NumNaN, NumNaN => Eq
  | NumNaN, _ => Lt
  | _, NumNaN => Gt
  | NumNegInf, NumNegInf => Eq
  | NumNegInf, _ => Lt
  | _, NumNegInf => Gt
  | NumPosInf, NumPosInf => Eq
  | NumPosInf, _ => Gt
  | _, NumPosInf => Lt
  | NumFin m1 e1, NumFin m2 e2 => dyadic_cmp m1 e1 m2 e2
  end.

(** At any exponent [k] below both, the comparison is that of the scaled
    integers. *)
Lemma dyadic_cmp_at k m1 e1 m2 e2 :
  k <= e1 -> k <= e2 -> dyadic_cmp m1 e1 m2 e2 = (m1 * 2 ^ (e1 - k) ?= m2 * 2 ^ (e2 - k)).
Proof.
  intros. unfold dyadic_cmp. set (e := Z.min e1 e2).
  assert (k <= e) by lia.
  replace (e1 - k) with ((e1 - e) + (e - k)) by lia.
  replace (e2 - k) with ((e2 - e) + (e - k)) by lia.
  rewrite !Z.pow_add_r, !Z.mul_assoc by lia.
  assert (0 < 2 ^ (e - k)) by (apply Z.pow_pos_nonneg; lia).
  destruct (Z.compare_spec (m1 * 2 ^ (e1 - e)) (m2 * 2 ^ (e2 - e))),
    (Z.compare_spec (m1 * 2 ^ (e1 - e) * 2 ^ (e - k)) (m2 * 2 ^ (e2 - e) * 2 ^ (e - k)));
    done || nia.
Qed.
