(* ===== verification/Keys.v ===== *)
(** * Index key encoding ([keys/mod.rs])

    [Bson] values, [encode_key] and its helpers, [encode_compound_key], the
    [skip_encoded_*] parser and the unique-index prefix range.  Strings are
    their UTF-8 bytes.  [encode_into(buf, v)] appends to [buf]; here it is the
    list of the bytes appended. *)

From S2P Require Import Prelude Bytes F64.

#[local] Open Scope Z_scope.

(** ** [bson::Bson] *)

Inductive Bson : Set :=
| Double (v : f64)
| BString (s : list Z)
| Array (l : list Bson)
| Document (fields : list (list Z * Bson))
| Boolean (b : bool)
| Null
| RegularExpression (pattern options : list Z)
| JavaScriptCode (s : list Z)
| JavaScriptCodeWithScope (code : list Z) (scope : list (list Z * Bson))
| Int32 (v : Z)
| Int64 (v : Z)
| Timestamp (time increment : Z)
| Binary (subtype : Z) (bytes : list Z)
| ObjectId (bytes : list Z)
| DateTime (millis : Z)
| Symbol (s : list Z)
| Decimal128 (bytes : list Z)
| Undefined
| MaxKey
| MinKey
| DbPointer (namespace : list Z) (id : list Z).

(** What the sources take from the [bson] crate's formatting traits *)
Class BsonFormat := {
  (** [Display for Decimal128], over its 16 bytes *)
  decimal128_to_string : list Z -> list Z;
  (** [Debug for DbPointer] *)
  dbpointer_debug : list Z -> list Z -> list Z
}.

Definition TYPE_MIN_KEY := 0x00.
Definition TYPE_NULL := 0x05.
Definition TYPE_NUMBER := 0x10.
Definition TYPE_SYMBOL := 0x15.
Definition TYPE_STRING := 0x20.
Definition TYPE_OBJECT := 0x30.
Definition TYPE_ARRAY := 0x40.
Definition TYPE_BIN_DATA := 0x50.
Definition TYPE_OBJECT_ID := 0x60.
Definition TYPE_BOOLEAN := 0x70.
Definition TYPE_DATE := 0x80.
Definition TYPE_TIMESTAMP := 0x85.
Definition TYPE_REGEXP := 0x90.
Definition TYPE_MAX_KEY := 0xFF.

Definition NUM_NAN := 0x00.
Definition NUM_NEG := 0x40.
Definition NUM_ZERO := 0x80.
Definition NUM_POS := 0xC0.

Definition COMPOUND_SEP := 0x01.

(** ** Numbers *)

Definition encode_f64 (v : f64) : list Z :=
  match v with
  | S754_nan => NUM_NAN :: replicate 16 0
  | S754_zero _ => NUM_ZERO :: replicate 16 0
  | S754_infinity false => NUM_POS :: replicate 16 0xFF
  | S754_infinity true => NUM_NEG :: replicate 16 0x00
  | S754_finite neg m e =>
      let class := if neg then NUM_NEG else NUM_POS in
      let int_part := trunc_as_u64 m e in
      let frac_part := scaled_fract_as_u64 m e in
      class ::
        if class =? NUM_NEG then
          be_bytes 8 (bit_not 64 int_part) ++ be_bytes 8 (bit_not 64 frac_part)
        else be_bytes 8 int_part ++ be_bytes 8 frac_part
  end.

Definition encode_i64 (v : Z) : list Z :=
  if v =? 0 then NUM_ZERO :: replicate 16 0
  else
    let '(class, abs_val) := if v <? 0 then (NUM_NEG, Z.abs v) else (NUM_POS, as_u 64 v) in
    class ::
      if class =? NUM_NEG then be_bytes 8 (bit_not 64 abs_val) ++ replicate 8 0xFF
      else be_bytes 8 abs_val ++ replicate 8 0x00.

Definition decimal128_f64 `{BsonFormat} (v : list Z) : f64 :=
  let s := decimal128_to_string v in
  if bool_decide (s = str "Inf") || bool_decide (s = str "Infinity") then S754_infinity false
  else if bool_decide (s = str "-Inf") || bool_decide (s = str "-Infinity") then S754_infinity true
  else if bool_decide (s = str "NaN") then S754_nan
  else default S754_nan (parse_f64 s).

Definition encode_decimal128 `{BsonFormat} (v : list Z) : list Z :=
  encode_f64 (decimal128_f64 v).

Definition encode_signed_i64_be (v : Z) : list Z :=
  be_bytes 8 (Z.lxor (as_u 64 v) 0x8000000000000000).

(** ** Strings and composite values *)

Fixpoint escape_bytes (bytes : list Z) : list Z :=
  match bytes with
  | [] => []
  | b :: t =>
      (if b =? 0x00 then [0x01; 0x01]
       else if b =? 0x01 then [0x01; 0x02]
       else [b]) ++ escape_bytes t
  end.

Definition encode_string_bytes (bytes : list Z) : list Z := escape_bytes bytes ++ [0x00].

Definition encode_binary (subtype : Z) (bytes : list Z) : list Z :=
  subtype :: be_bytes 4 (as_u 32 (len bytes)) ++ bytes.

(** [encode_document] and [encode_array], over the encoder of the values *)
Definition encode_document (enc : Bson -> list Z) : list (list Z * Bson) -> list Z :=
  fix go fields :=
    match fields with
    | [] => [0x00]
    | (key, val) :: t => encode_string_bytes key ++ enc val ++ go t
    end.

Definition encode_array (enc : Bson -> list Z) : list Bson -> list Z :=
  fix go arr :=
    match arr with
    | [] => [0x00]
    | val :: t => enc val ++ 0x00 :: go t
    end.

Fixpoint encode_into `{BsonFormat} (value : Bson) : list Z :=
  match value with
  | MinKey => [TYPE_MIN_KEY]
  | Null | Undefined => [TYPE_NULL]
  | Double v => TYPE_NUMBER :: encode_f64 v
  | Int32 v => TYPE_NUMBER :: encode_i64 v
  | Int64 v => TYPE_NUMBER :: encode_i64 v
  | Decimal128 v => TYPE_NUMBER :: encode_decimal128 v
  | Symbol s => TYPE_SYMBOL :: encode_string_bytes s
  | BString s => TYPE_STRING :: encode_string_bytes s
  | Document doc => TYPE_OBJECT :: encode_document encode_into doc
  | Array arr => TYPE_ARRAY :: encode_array encode_into arr
  | Binary subtype bytes => TYPE_BIN_DATA :: encode_binary subtype bytes
  | ObjectId oid => TYPE_OBJECT_ID :: oid
  | Boolean b => [TYPE_BOOLEAN; if b then 1 else 0]
  | DateTime dt => TYPE_DATE :: encode_signed_i64_be dt
  | Timestamp time increment => TYPE_TIMESTAMP :: be_bytes 4 time ++ be_bytes 4 increment
  | RegularExpression pattern options =>
      TYPE_REGEXP :: encode_string_bytes pattern ++ encode_string_bytes options
  | MaxKey => [TYPE_MAX_KEY]
  | JavaScriptCode s => TYPE_STRING :: encode_string_bytes s
  | JavaScriptCodeWithScope code _ => TYPE_STRING :: encode_string_bytes code
  | DbPointer ns id => TYPE_REGEXP :: encode_string_bytes (dbpointer_debug ns id)
  end.

Definition encode_key `{BsonFormat} (value : Bson) : list Z := encode_into value.

(** One field's bytes: inverted when the field is descending *)
Definition encode_directed (bytes : list Z) (ascending : bool) : list Z :=
  if ascending then bytes else map (bit_not 8) bytes.

Fixpoint encode_compound_tail `{BsonFormat} (fields : list (Bson * bool)) : list Z :=
  match fields with
  | [] => []
  | (value, ascending) :: t =>
      COMPOUND_SEP :: encode_directed (encode_into value) ascending ++ encode_compound_tail t
  end.

(** The first field has no separator in front ([if i > 0]) *)
Definition encode_compound_key `{BsonFormat} (fields : list (Bson * bool)) : list Z :=
  match fields with
  | [] => []
  | (value, ascending) :: t =>
      encode_directed (encode_into value) ascending ++ encode_compound_tail t
  end.

(** ** Skipping over encoded values *)

Definition require_byte (bytes : list Z) (offset expected : Z) : Result unit :=
  match get_opt bytes offset with
  | Some actual => if actual =? expected then Ok tt else Err (Internal "compound key: expected")
  | None => Err (Internal "compound key: missing")
  end.

Definition raw_key_byte (bytes : list Z) (offset : Z) (ascending : bool) : Result Z :=
  byte ← ok_or (get_opt bytes offset) (Internal "compound key: truncated");
  Ok (if ascending then byte else bit_not 8 byte).

Definition checked_skip (bytes : list Z) (offset n : Z) : Result Z :=
  end_ ← ok_or (checked_add 64 offset n) (Internal "compound key: length overflow");
  if end_ <=? len bytes then Ok end_ else Err (Internal "compound key: truncated payload").

(** The loops and recursive calls carry fuel.  Every iteration of the string
    loop consumes a byte; the mutually recursive calls consume at least a byte
    in every two, an array element being entered at the byte just peeked at.
    So one unit, respectively two, per byte are enough
    ([KeysSkip.skip_encoded_value_total]).  [Panic] marks
    exhausted fuel: the code itself never panics here. *)
Fixpoint skip_string_fuel (fuel : nat) (bytes : list Z) (offset : Z) (ascending : bool) : Result Z :=
  match fuel with
  | O => Panic
  | S fuel' =>
      raw ← raw_key_byte bytes offset ascending;
      if raw =? 0 then Ok (offset + 1) else skip_string_fuel fuel' bytes (offset + 1) ascending
  end.

Definition skip_encoded_string (bytes : list Z) (offset : Z) (ascending : bool) : Result Z :=
  skip_string_fuel (S (length bytes)) bytes offset ascending.

Definition skip_encoded_binary (bytes : list Z) (offset : Z) (ascending : bool) : Result Z :=
  len_offset ← checked_skip bytes offset 1;
  len_end ← checked_skip bytes len_offset 4;
  b0 ← raw_key_byte bytes (len_offset + 0) ascending;
  b1 ← raw_key_byte bytes (len_offset + 1) ascending;
  b2 ← raw_key_byte bytes (len_offset + 2) ascending;
  b3 ← raw_key_byte bytes (len_offset + 3) ascending;
  checked_skip bytes len_end (from_be [b0; b1; b2; b3]).

Fixpoint skip_value_fuel (fuel : nat) (bytes : list Z) (offset : Z) (ascending : bool) : Result Z :=
  match fuel with
  | O => Panic
  | S fuel' =>
      ty ← raw_key_byte bytes offset ascending;
      let offset := offset + 1 in
      if (ty =? TYPE_MIN_KEY) || (ty =? TYPE_NULL) || (ty =? TYPE_MAX_KEY) then Ok offset
      else if ty =? TYPE_NUMBER then checked_skip bytes offset 17
      else if (ty =? TYPE_SYMBOL) || (ty =? TYPE_STRING) then
        skip_encoded_string bytes offset ascending
      else if ty =? TYPE_OBJECT then skip_document_fuel fuel' bytes offset ascending
      else if ty =? TYPE_ARRAY then skip_array_fuel fuel' bytes offset ascending
      else if ty =? TYPE_BIN_DATA then skip_encoded_binary bytes offset ascending
      else if ty =? TYPE_OBJECT_ID then checked_skip bytes offset 12
      else if ty =? TYPE_BOOLEAN then checked_skip bytes offset 1
      else if ty =? TYPE_DATE then checked_skip bytes offset 8
      else if ty =? TYPE_TIMESTAMP then checked_skip bytes offset 8
      else if ty =? TYPE_REGEXP then
        after_pattern ← skip_encoded_string bytes offset ascending;
        skip_encoded_string bytes after_pattern ascending
      else Err (Internal "compound key: unknown encoded BSON type")
  end
with skip_document_fuel (fuel : nat) (bytes : list Z) (offset : Z) (ascending : bool) : Result Z :=
  match fuel with
  | O => Panic
  | S fuel' =>
      raw ← raw_key_byte bytes offset ascending;
      if raw =? 0 then Ok (offset + 1)
      else
        offset ← skip_encoded_string bytes offset ascending;
        offset ← skip_value_fuel fuel' bytes offset ascending;
        skip_document_fuel fuel' bytes offset ascending
  end
with skip_array_fuel (fuel : nat) (bytes : list Z) (offset : Z) (ascending : bool) : Result Z :=
  match fuel with
  | O => Panic
  | S fuel' =>
      raw ← raw_key_byte bytes offset ascending;
      if raw =? 0 then Ok (offset + 1)
      else
        offset ← skip_value_fuel fuel' bytes offset ascending;
        raw ← raw_key_byte bytes offset ascending;
        if negb (raw =? 0) then Err (Internal "compound key: array element separator missing")
        else skip_array_fuel fuel' bytes (offset + 1) ascending
  end.

Definition skip_encoded_value (bytes : list Z) (offset : Z) (ascending : bool) : Result Z :=
  skip_value_fuel (S (2 * length bytes)) bytes offset ascending.

(** ** The unique-index prefix range *)

Fixpoint skip_fields_from (key : list Z) (first : bool) (directions : list bool) (offset : Z) : Result Z :=
  match directions with
  | [] => Ok offset
  | ascending :: t =>
      offset ← (if first then Ok offset
                else require_byte key offset COMPOUND_SEP;; Ok (offset + 1));
      offset ← skip_encoded_value key offset ascending;
      skip_fields_from key false t offset
  end.

Definition bump_last (l : list Z) : list Z :=
  match rev l with
  | [] => []
  | last :: t => rev (Z.min (last + 1) u8_max :: t)
  end.

Definition compound_prefix_range_excluding_trailing_id (key : list Z) (field_directions : list bool)
  : Result (list Z * list Z) :=
  offset ← skip_fields_from key true field_directions 0;
  require_byte key offset COMPOUND_SEP;;
  let split := offset + 1 in
  start ← slice key 0 split;
  Ok (start, bump_last start).
