(* ===== verification/KeysOrder.v ===== *)
(** * Correctness of index keys

    The order of encoded numbers, of encoded values and of compound keys
    against a reference comparison; the skip parser against the encoder; the
    unique-index prefix range. *)

From S2P Require Import Prelude Bytes F64 Keys.

#[local] Open Scope Z_scope.

(** ** Numbers

    A number's 17 bytes are the big-endian form of one integer: its class and
    128 bits of magnitude (64 integer bits, 64 fraction bits). *)

Definition magnitude (m e : Z) : Z :=
  if 0 <=? e then Z.min (m * 2 ^ e) u64_max * 2 ^ 64 else m * 2 ^ 64 / 2 ^ (- e).

Definition num_rank (n : num) : Z :=
  match n with
  | NumNaN => 0
  | NumNegInf => NUM_NEG * 2 ^ 128
  | NumPosInf => NUM_POS * 2 ^ 128 + (2 ^ 128 - 1)
  | NumFin m e =>
      if m =? 0 then NUM_ZERO * 2 ^ 128
      else if m <? 0 then NUM_NEG * 2 ^ 128 + bit_not 128 (magnitude (- m) e)
      else NUM_POS * 2 ^ 128 + magnitude m e
  end.

(** A number whose value fits: a mantissa as the two sources produce it *)
Definition num_wf (n : num) : Prop :=
  match n with
  | NumFin m e => (0 <= e /\ Z.abs m < 2 ^ 64) \/ Z.abs m < 2 ^ 53
  | _ => True
  end.

(** The integer part fits 64 bits and no fraction bit lies below 2^-64 *)
Definition num_exact (n : num) : bool :=
  match n with
  | NumFin m e =>
      if 0 <=? e then Z.abs m * 2 ^ e <=? u64_max
      else (m * 2 ^ 64) mod 2 ^ (- e) =? 0
  | _ => true
  end.

Lemma be_bytes_app a b n m x y z :
  n = (a + b)%nat -> 0 <= y < 256 ^ Z.of_nat b -> z = x * 256 ^ Z.of_nat b + y ->
  m = be_bytes a x -> be_bytes n z = m ++ be_bytes b y.
Proof.
  intros -> Hy -> ->. unfold be_bytes. rewrite <- rev_app_distr. f_equal.
  revert y Hy. induction b as [|b IH]; intros y Hy.
  - change (256 ^ Z.of_nat 0) with 1 in *. rewrite Nat.add_0_r. simpl. f_equal. lia.
  - rewrite Nat.add_succ_r. simpl. rewrite pow256_S in *. f_equal.
    + rewrite Z.add_comm, Z.mul_assoc, (Z.mul_comm x 256), <- Z.mul_assoc, Z.mul_comm.
      by rewrite Z.mod_add.
    + rewrite <- IH by (split; [apply Z.div_pos|apply Z.div_lt_upper_bound]; lia).
      f_equal. rewrite Z.mul_assoc, (Z.mul_comm x 256), <- Z.mul_assoc, Z.mul_comm.
      by rewrite Z.div_add_l.
Qed.

Lemma digits2_pos_bound m : Zpos m < 2 ^ Zpos (digits2_pos m).
Proof.
  induction m as [m IH|m IH|]; simpl digits2_pos; [| |done];
    rewrite Pos2Z.inj_succ, Z.pow_succ_r; lia.
Qed.

Lemma f64_wf_mantissa s m e : f64_wf (S754_finite s m e) -> Zpos m < 2 ^ 53.
Proof.
  unfold f64_wf. simpl. unfold bounded. intros [Hc _]%andb_prop.
  unfold canonical_mantissa, fexp, emin, prec, emax in Hc. apply Z.eqb_eq in Hc.
  pose proof (digits2_pos_bound m).
  assert (2 ^ Zpos (digits2_pos m) <= 2 ^ 53); [apply Z.pow_le_mono_r|]; lia.
Qed.

Lemma f64_num_wf v : f64_wf v -> num_wf (f64_num v).
Proof.
  destruct v as [|[]| |s m e]; simpl; try done; [lia|].
  intros Hm%f64_wf_mantissa. destruct s; simpl; lia.
Qed.

Lemma pow2_pos e : 0 <= e -> 0 < 2 ^ e.
Proof. intros. apply Z.pow_pos_nonneg; lia. Qed.

Lemma magnitude_range m e :
  0 <= m -> (0 <= e \/ m < 2 ^ 53) -> 0 <= magnitude m e <= u64_max * 2 ^ 64.
Proof.
  intros Hm Hwf. unfold magnitude. destruct (Z.leb_spec 0 e).
  - pose proof (pow2_pos e ltac:(lia)). unfold u64_max. nia.
  - pose proof (pow2_pos (- e) ltac:(lia)). split; [apply Z.div_pos; lia|].
    apply Z.div_le_upper_bound; [lia|]. unfold u64_max. nia.
Qed.

(** The magnitude from the mantissa at any exponent [k] below [e] and zero *)
Definition clamp (M D : Z) : Z := Z.min (M * 2 ^ 64 / D) (u64_max * 2 ^ 64).

Lemma magnitude_clamp k m e :
  0 <= m -> k <= e -> k <= 0 -> (0 <= e \/ m < 2 ^ 53) ->
  magnitude m e = clamp (m * 2 ^ (e - k)) (2 ^ (- k)).
Proof.
  intros Hm Hke Hk Hwf. pose proof (magnitude_range m e Hm Hwf) as Hr.
  unfold magnitude, clamp in *.
  pose proof (pow2_pos (- k) ltac:(lia)) as HD. destruct (Z.leb_spec 0 e).
  - replace (e - k) with (e + - k) by lia. rewrite Z.pow_add_r by lia.
    replace (m * (2 ^ e * 2 ^ (- k)) * 2 ^ 64) with (m * 2 ^ e * 2 ^ 64 * 2 ^ (- k)) by lia.
    rewrite Z.div_mul by lia. unfold u64_max. lia.
  - rewrite Z.min_l in *; replace (2 ^ (- k)) with (2 ^ (- e) * 2 ^ (e - k))
      by (rewrite <- Z.pow_add_r by lia; f_equal; lia);
      pose proof (pow2_pos (e - k) ltac:(lia)); pose proof (pow2_pos (- e) ltac:(lia));
      replace (m * 2 ^ (e - k) * 2 ^ 64) with (m * 2 ^ 64 * 2 ^ (e - k)) by lia;
      rewrite Z.div_mul_cancel_r by lia; lia.
Qed.

Lemma clamp_mono M1 M2 D : 0 < D -> M1 <= M2 -> clamp M1 D <= clamp M2 D.
Proof.
  intros HD HM. unfold clamp.
  pose proof (Z.div_le_mono (M1 * 2 ^ 64) (M2 * 2 ^ 64) D HD ltac:(lia)). lia.
Qed.

(** A number whose bits all fit: its magnitude is its value times 2^64 *)
Lemma clamp_exact k m e :
  num_exact (NumFin m e) = true -> 0 <= m -> k <= e -> k <= 0 -> (0 <= e \/ m < 2 ^ 53) ->
  clamp (m * 2 ^ (e - k)) (2 ^ (- k)) * 2 ^ (- k) = m * 2 ^ (e - k) * 2 ^ 64.
Proof.
  intros Hx Hm Hke Hk Hwf. rewrite <- magnitude_clamp by done. simpl in Hx.
  unfold magnitude. destruct (Z.leb_spec 0 e).
  - rewrite Z.abs_eq in Hx by lia. apply Z.leb_le in Hx. rewrite Z.min_l by lia.
    replace (e - k) with (e + - k) by lia. rewrite Z.pow_add_r by lia. lia.
  - apply Z.eqb_eq in Hx. pose proof (pow2_pos (- e) ltac:(lia)).
    pose proof (Z.div_mod (m * 2 ^ 64) (2 ^ (- e)) ltac:(lia)) as Hd.
    replace (2 ^ (- k)) with (2 ^ (- e) * 2 ^ (e - k))
      by (rewrite <- Z.pow_add_r by lia; f_equal; lia). nia.
Qed.

Lemma dyadic_cmp_antisym m1 e1 m2 e2 : dyadic_cmp m2 e2 m1 e1 = CompOpp (dyadic_cmp m1 e1 m2 e2).
Proof. unfold dyadic_cmp. by rewrite (Z.min_comm e2 e1), Z.compare_antisym. Qed.

Lemma num_cmp_antisym a b : num_cmp b a = CompOpp (num_cmp a b).
Proof. destruct a, b; simpl; try done. apply dyadic_cmp_antisym. Qed.

Lemma dyadic_cmp_opp m1 e1 m2 e2 :
  dyadic_cmp (- m1) e1 (- m2) e2 = dyadic_cmp m2 e2 m1 e1.
Proof.
  unfold dyadic_cmp. rewrite (Z.min_comm e2 e1), !Z.mul_opp_l.
  destruct (Z.compare_spec (- (m1 * 2 ^ (e1 - Z.min e1 e2))) (- (m2 * 2 ^ (e2 - Z.min e1 e2)))),
    (Z.compare_spec (m2 * 2 ^ (e2 - Z.min e1 e2)) (m1 * 2 ^ (e1 - Z.min e1 e2))); lia || done.
Qed.

Lemma dyadic_cmp_sign m1 e1 m2 e2 : m1 <= 0 <= m2 -> m1 < m2 -> dyadic_cmp m1 e1 m2 e2 = Lt.
Proof.
  intros. unfold dyadic_cmp. apply Z.compare_lt_iff.
  pose proof (pow2_pos (e1 - Z.min e1 e2) ltac:(lia)).
  pose proof (pow2_pos (e2 - Z.min e1 e2) ltac:(lia)). nia.
Qed.

Lemma magnitude_mono m1 e1 m2 e2 :
  0 <= m1 -> 0 <= m2 -> num_wf (NumFin m1 e1) -> num_wf (NumFin m2 e2) ->
  dyadic_cmp m1 e1 m2 e2 <> Gt -> magnitude m1 e1 <= magnitude m2 e2.
Proof.
  simpl. intros ???? Hc. set (k := Z.min 0 (Z.min e1 e2)).
  rewrite (magnitude_clamp k m1), (magnitude_clamp k m2) by lia.
  rewrite (dyadic_cmp_at k) in Hc by lia.
  apply clamp_mono; [apply pow2_pos; lia|done].
Qed.

Lemma magnitude_strict m1 e1 m2 e2 :
  0 <= m1 -> 0 <= m2 -> num_wf (NumFin m1 e1) -> num_wf (NumFin m2 e2) ->
  num_exact (NumFin m1 e1) = true -> num_exact (NumFin m2 e2) = true ->
  dyadic_cmp m1 e1 m2 e2 = Lt -> magnitude m1 e1 < magnitude m2 e2.
Proof.
  unfold num_wf. intros ???? X1 X2 Hc. set (k := Z.min 0 (Z.min e1 e2)).
  rewrite (magnitude_clamp k m1), (magnitude_clamp k m2) by lia.
  rewrite (dyadic_cmp_at k), Z.compare_lt_iff in Hc by lia.
  pose proof (clamp_exact k _ _ X1 ltac:(lia) ltac:(lia) ltac:(lia) ltac:(lia)).
  pose proof (clamp_exact k _ _ X2 ltac:(lia) ltac:(lia) ltac:(lia) ltac:(lia)).
  pose proof (pow2_pos (- k) ltac:(lia)). nia.
Qed.

Lemma num_exact_opp m e : num_exact (NumFin (- m) e) = num_exact (NumFin m e).
Proof.
  simpl. rewrite Z.abs_opp. destruct (Z.leb_spec 0 e); [done|].
  pose proof (pow2_pos (- e) ltac:(lia)). rewrite Z.mul_opp_l.
  apply eq_true_iff_eq. rewrite !Z.eqb_eq. split; intros Hz.
  - rewrite <- (Z.opp_involutive (m * 2 ^ 64)). by apply Z_mod_zero_opp_full.
  - by apply Z_mod_zero_opp_full.
Qed.

(** Where a rank lies, by sign of the mantissa *)
Lemma num_rank_fin m e :
  num_wf (NumFin m e) ->
  let r := num_rank (NumFin m e) in
  (m < 0 /\ r = NUM_NEG * 2 ^ 128 + (2 ^ 128 - 1 - magnitude (- m) e) /\
     0 <= magnitude (- m) e <= u64_max * 2 ^ 64) \/
  (m = 0 /\ r = NUM_ZERO * 2 ^ 128) \/
  (0 < m /\ r = NUM_POS * 2 ^ 128 + magnitude m e /\
     0 <= magnitude m e <= u64_max * 2 ^ 64).
Proof.
  simpl. intros Hwf. destruct (Z.eqb_spec m 0); [by right; left|].
  destruct (Z.ltb_spec m 0); [left|right; right]; split_and!; try done; try lia;
    apply magnitude_range; lia.
Qed.

Ltac rank_cases :=
  repeat match goal with
  | H : num_wf (NumFin ?m ?e) |- _ =>
      let E := fresh "E" in
      destruct (num_rank_fin m e H) as [(? & E & ?)|[(? & E)|(? & E & ?)]]; cbv zeta in E;
      rewrite ?E in *; clear E;
      let W := fresh "W" in assert (W := H); unfold num_wf in W; revert H
  end; intros.

Lemma num_rank_mono a b :
  num_wf a -> num_wf b -> num_cmp a b <> Gt -> num_rank a <= num_rank b.
Proof.
  intros Ha Hb Hc. unfold NUM_NAN, NUM_NEG, NUM_ZERO, NUM_POS, u64_max in *.
  destruct a as [| |m1 e1|], b as [| |m2 e2|]; simpl num_cmp in Hc; try done;
    rank_cases; unfold NUM_NAN, NUM_NEG, NUM_ZERO, NUM_POS, u64_max in *;
    try (simpl num_rank; unfold NUM_NAN, NUM_NEG, NUM_ZERO, NUM_POS, u64_max; lia); try lia;
    try (exfalso; apply Hc; rewrite dyadic_cmp_antisym, dyadic_cmp_sign by lia; done).
  - rewrite <- (Z.opp_involutive m1), <- (Z.opp_involutive m2), dyadic_cmp_opp in Hc.
    pose proof (magnitude_mono (- m2) e2 (- m1) e1 ltac:(lia) ltac:(lia)
      ltac:(simpl; lia) ltac:(simpl; lia) Hc). lia.
  - pose proof (magnitude_mono m1 e1 m2 e2 ltac:(lia) ltac:(lia)
      ltac:(simpl; lia) ltac:(simpl; lia) Hc). lia.
Qed.

Lemma num_rank_strict a b :
  num_wf a -> num_wf b -> num_exact a = true -> num_exact b = true ->
  num_cmp a b = Lt -> num_rank a < num_rank b.
Proof.
  intros Ha Hb Xa Xb Hc.
  destruct a as [| |m1 e1|], b as [| |m2 e2|]; simpl num_cmp in Hc; try done;
    rank_cases; unfold NUM_NAN, NUM_NEG, NUM_ZERO, NUM_POS, u64_max in *;
    try (simpl num_rank; unfold NUM_NAN, NUM_NEG, NUM_ZERO, NUM_POS, u64_max; lia); try lia;
    try (exfalso; revert Hc; rewrite dyadic_cmp_antisym, dyadic_cmp_sign by lia; done).
  - rewrite <- (Z.opp_involutive m1), <- (Z.opp_involutive m2), dyadic_cmp_opp in Hc.
    rewrite <- num_exact_opp in Xa, Xb.
    pose proof (magnitude_strict (- m2) e2 (- m1) e1 ltac:(lia) ltac:(lia)
      ltac:(simpl; lia) ltac:(simpl; lia) Xb Xa Hc). lia.
  - subst. unfold dyadic_cmp in Hc. by rewrite !Z.mul_0_l in Hc.
  - pose proof (magnitude_strict m1 e1 m2 e2 ltac:(lia) ltac:(lia)
      ltac:(simpl; lia) ltac:(simpl; lia) Xa Xb Hc). lia.
Qed.

Lemma num_rank_cmp a b :
  num_wf a -> num_wf b -> num_exact a = true -> num_exact b = true ->
  (num_rank a ?= num_rank b) = num_cmp a b.
Proof.
  intros Ha Hb Xa Xb. destruct (num_cmp a b) eqn:Hc.
  - apply Z.compare_eq_iff.
    pose proof (num_rank_mono a b Ha Hb ltac:(congruence)).
    pose proof (num_rank_mono b a Hb Ha ltac:(rewrite num_cmp_antisym, Hc; done)). lia.
  - apply Z.compare_lt_iff. by apply num_rank_strict.
  - apply Z.compare_gt_iff. apply num_rank_strict; try done. by rewrite num_cmp_antisym, Hc.
Qed.

Lemma num_rank_range n : num_wf n -> 0 <= num_rank n < 256 ^ Z.of_nat 17.
Proof.
  intros Hn. change (256 ^ Z.of_nat 17) with (256 * 2 ^ 128).
  destruct n as [| |m e|]; rank_cases;
    try (simpl num_rank); unfold NUM_NAN, NUM_NEG, NUM_ZERO, NUM_POS, u64_max in *; lia.
Qed.

(** Joins a class byte and two 64-bit halves. *)
Lemma be_bytes_17 c i f :
  is_u8 c -> is_u64 i -> is_u64 f ->
  c :: be_bytes 8 i ++ be_bytes 8 f = be_bytes 17 (c * 2 ^ 128 + (i * 2 ^ 64 + f)).
Proof.
  unfold is_u. intros Hc Hi Hf.
  rewrite (be_bytes_app 1 16 17 [c] c (i * 2 ^ 64 + f));
    [|done|change (256 ^ Z.of_nat 16) with (2 ^ 128); lia|done|].
  - simpl app. f_equal.
    by rewrite (be_bytes_app 8 8 16 (be_bytes 8 i) i f).
  - unfold be_bytes. simpl. by rewrite Z.mod_small by lia.
Qed.

Lemma trunc_range m e : is_u64 (trunc_as_u64 m e).
Proof.
  unfold trunc_as_u64, is_u, u64_max. destruct (Z.leb_spec 0 e).
  - pose proof (pow2_pos e ltac:(lia)). nia.
  - pose proof (Z.div_pos (Zpos m) (2 ^ (- e)) ltac:(lia) (pow2_pos (- e) ltac:(lia))). lia.
Qed.

Lemma fract_range m e : is_u64 (scaled_fract_as_u64 m e).
Proof.
  unfold scaled_fract_as_u64, is_u. destruct (Z.leb_spec 0 e); [lia|].
  pose proof (pow2_pos (- e) ltac:(lia)).
  pose proof (Z.mod_pos_bound (Zpos m) (2 ^ (- e)) ltac:(lia)).
  split; [apply Z.div_pos; lia|]. apply Z.div_lt_upper_bound; nia.
Qed.

(** The two halves together are the magnitude. *)
Lemma magnitude_split m e :
  Zpos m < 2 ^ 53 ->
  trunc_as_u64 m e * 2 ^ 64 + scaled_fract_as_u64 m e = magnitude (Zpos m) e.
Proof.
  intros Hm. unfold trunc_as_u64, scaled_fract_as_u64, magnitude, u64_max.
  destruct (Z.leb_spec 0 e); [lia|]. pose proof (pow2_pos (- e) ltac:(lia)).
  pose proof (Z.div_mod (Zpos m) (2 ^ (- e)) ltac:(lia)) as Hd.
  assert (Zpos m / 2 ^ (- e) <= Zpos m) by (apply Z.div_le_upper_bound; nia).
  rewrite Z.min_l, <- Z.div_add_l by lia. f_equal. nia.
Qed.

Lemma encode_f64_rank v : f64_wf v -> encode_f64 v = be_bytes 17 (num_rank (f64_num v)).
Proof.
  destruct v as [s|[]| |s m e]; intros Hv; [reflexivity..|].
  assert (Hm := f64_wf_mantissa _ _ _ Hv).
  pose proof (trunc_range m e) as Hi. pose proof (fract_range m e) as Hf.
  pose proof (magnitude_split m e Hm) as Hs. cbn [encode_f64 f64_num num_rank].
  destruct s; cbn [Z.eqb Z.ltb Z.compare NUM_NEG NUM_POS Pos.eqb Z.opp];
    rewrite be_bytes_17 by (done || by apply bit_not_u); do 2 f_equal;
    unfold bit_not, NUM_NEG, NUM_POS in *; rewrite ?Pos2Z.opp_neg; lia.
Qed.

Lemma encode_i64_rank v : is_i64 v -> encode_i64 v = be_bytes 17 (num_rank (NumFin v 0)).
Proof.
  unfold is_i. intros Hv. unfold encode_i64, num_rank.
  destruct (Z.eqb_spec v 0); [reflexivity|].
  assert (Hmag : forall x, 0 <= x <= 2 ^ 63 -> magnitude x 0 = x * 2 ^ 64).
  { intros x ?. unfold magnitude, u64_max. rewrite Z.pow_0_r. rewrite Z.leb_refl. lia. }
  destruct (Z.ltb_spec v 0); simpl Z.eqb; cbv iota.
  - change (replicate 8 255) with (be_bytes 8 u64_max). rewrite Hmag, Z.abs_neq by lia.
    rewrite be_bytes_17 by (unfold is_u, u64_max, bit_not, NUM_NEG; lia).
    do 2 f_equal. unfold bit_not, u64_max. lia.
  - change (replicate 8 0) with (be_bytes 8 0). rewrite Hmag, as_u_small by (unfold is_u; lia).
    rewrite be_bytes_17 by (unfold is_u, NUM_POS; lia). do 2 f_equal. lia.
Qed.

(** ** The reference comparison of values *)

Section ValueOrder.
Context `{BsonFormat}.

(** The canonical type order of the module documentation *)
Definition type_rank (v : Bson) : Z :=
  match v with
  | MinKey => 0x00
  | Null | Undefined => 0x05
  | Double _ | Int32 _ | Int64 _ | Decimal128 _ => 0x10
  | Symbol _ => 0x15
  | BString _ | JavaScriptCode _ | JavaScriptCodeWithScope _ _ => 0x20
  | Document _ => 0x30
  | Array _ => 0x40
  | Binary _ _ => 0x50
  | ObjectId _ => 0x60
  | Boolean _ => 0x70
  | DateTime _ => 0x80
  | Timestamp _ _ => 0x85
  | RegularExpression _ _ | DbPointer _ _ => 0x90
  | MaxKey => 0xFF
  end.

Definition bson_num (v : Bson) : option num :=
  match v with
  | Double v => Some (f64_num v)
  | Int32 v | Int64 v => Some (NumFin v 0)
  | Decimal128 v => Some (f64_num (decimal128_f64 v))
  | _ => None
  end.

Definition bson_str (v : Bson) : option (list Z) :=
  match v with
  | BString s | Symbol s | JavaScriptCode s | JavaScriptCodeWithScope s _ => Some s
  | _ => None
  end.

Definition opt_cmp {A} (cmp : A -> A -> comparison) (a b : option A) : comparison :=
  match a, b with Some x, Some y => cmp x y | _, _ => Eq end.

(** Values of one type, containers aside *)
Definition scalar_cmp (a b : Bson) : comparison :=
  match a, b with
  | Boolean x, Boolean y => Z.compare (Z.b2z x) (Z.b2z y)
  | DateTime x, DateTime y => x ?= y
  | Timestamp t i, Timestamp t' i' => then_with (t ?= t') (i ?= i')
  | ObjectId x, ObjectId y => lex_cmp x y
  | Binary s x, Binary s' x' =>
      then_with (s ?= s') (then_with (len x ?= len x') (lex_cmp x x'))
  | RegularExpression p o, RegularExpression p' o' => then_with (lex_cmp p p') (lex_cmp o o')
  | _, _ =>
      then_with (opt_cmp num_cmp (bson_num a) (bson_num b))
        (opt_cmp lex_cmp (bson_str a) (bson_str b))
  end.

Definition doc_cmp (cmp : Bson -> Bson -> comparison)
  : list (list Z * Bson) -> list (list Z * Bson) -> comparison :=
  fix go d d' :=
    match d, d' with
    | [], [] => Eq
    | [], _ :: _ => Lt
    | _ :: _, [] => Gt
    | (k, v) :: t, (k', v') :: t' => then_with (lex_cmp k k') (then_with (cmp v v') (go t t'))
    end.

Definition arr_cmp (cmp : Bson -> Bson -> comparison) : list Bson -> list Bson -> comparison :=
  fix go l l' :=
    match l, l' with
    | [], [] => Eq
    | [], _ :: _ => Lt
    | _ :: _, [] => Gt
    | v :: t, v' :: t' => then_with (cmp v v') (go t t')
    end.

(** Types first; documents by name, then value, of each field in turn; arrays
    element by element; the shorter of two containers first. *)
Fixpoint bson_cmp (a b : Bson) : comparison :=
  then_with (type_rank a ?= type_rank b)
    (match a, b with
     | Document d, Document d' => doc_cmp bson_cmp d d'
     | Array l, Array l' => arr_cmp bson_cmp l l'
     | _, _ => scalar_cmp a b
     end).

(** A test of every value nested in a value *)
Fixpoint bson_forall (p : Bson -> bool) (v : Bson) : bool :=
  p v &&
  match v with
  | Document fields => forallb (fun kv => bson_forall p (snd kv)) fields
  | Array l => forallb (bson_forall p) l
  | _ => true
  end.

Definition u_ok (w z : Z) : bool := (0 <=? z) && (z <? 2 ^ w).
Definition i_ok (w z : Z) : bool := (- 2 ^ (w - 1) <=? z) && (z <? 2 ^ (w - 1)).
Definition bytes_okb (l : list Z) : bool := forallb (u_ok 8) l.
Definition is_min_key (v : Bson) : bool := match v with MinKey => true | _ => false end.

(** Fields hold values of their Rust types, and the value is none of the
    three shapes whose encoding is ambiguous: an empty field name, a [MinKey]
    array element, a [DbPointer]. *)
Definition node_ok (v : Bson) : bool :=
  match v with
  | Double v => valid_binary prec emax v
  | Decimal128 v => valid_binary prec emax (decimal128_f64 v)
  | Int32 v => i_ok 32 v
  | Int64 v | DateTime v => i_ok 64 v
  | Timestamp t i => u_ok 32 t && u_ok 32 i
  | BString s | Symbol s | JavaScriptCode s | JavaScriptCodeWithScope s _ => bytes_okb s
  | RegularExpression p o => bytes_okb p && bytes_okb o
  | Binary s x => u_ok 8 s && bytes_okb x && (len x <? 2 ^ 32)
  | ObjectId x => bytes_okb x && (len x =? 12)
  | Document fields =>
      forallb (fun kv => bytes_okb (fst kv) && negb (bool_decide (fst kv = []))) fields
  | Array l => forallb (fun v => negb (is_min_key v)) l
  | DbPointer _ _ => false
  | Boolean _ | Null | Undefined | MinKey | MaxKey => true
  end.

Definition shape_ok (v : Bson) : bool := bson_forall node_ok v.

(** Numbers that 64 integer and 64 fraction bits represent *)
Definition exact_node (v : Bson) : bool :=
  match bson_num v with Some n => num_exact n | None => true end.

Definition key_ok (v : Bson) : bool := bson_forall (fun v => node_ok v && exact_node v) v.

End ValueOrder.

(** Induction with hypotheses for the values nested in containers *)
Section BsonInd.
Variable P : Bson -> Prop.
Hypothesis Hdoc : forall d, Forall (fun kv => P (snd kv)) d -> P (Document d).
Hypothesis Harr : forall l, Forall P l -> P (Array l).
Hypothesis Hscalar :
  forall v, match v with Document _ | Array _ => False | _ => True end -> P v.

Fixpoint Bson_nested_ind (v : Bson) : P v :=
  match v with
  | Document d =>
      Hdoc d ((fix go d : Forall (fun kv => P (snd kv)) d :=
        match d with
        | [] => List.Forall_nil _
        | kv :: t => List.Forall_cons _ _ _ (Bson_nested_ind (snd kv)) (go t)
        end) d)
  | Array l =>
      Harr l ((fix go l : Forall P l :=
        match l with
        | [] => List.Forall_nil _
        | v :: t => List.Forall_cons _ _ _ (Bson_nested_ind v) (go t)
        end) l)
  | v => Hscalar v I
  end.
End BsonInd.

(** ** Order-preserving encodings

    [ordered ea eb c]: whatever follows them, the encodings [ea] and [eb]
    compare as [c], and where [c] is [Eq] what follows decides. *)

Definition ordered (ea eb : list Z) (c : comparison) : Prop :=
  forall x y, lex_cmp (ea ++ x) (eb ++ y) = then_with c (lex_cmp x y).

Lemma then_with_assoc a b c : then_with (then_with a b) c = then_with a (then_with b c).
Proof. by destruct a. Qed.

Lemma then_with_Eq_r c : then_with c Eq = c.
Proof. by destruct c. Qed.

Lemma ordered_nil : ordered [] [] Eq.
Proof. done. Qed.

Lemma ordered_fixed a b : length a = length b -> ordered a b (lex_cmp a b).
Proof. intros ? x y. by apply lex_cmp_app_same_len. Qed.

Lemma ordered_app a b c a' b' c' :
  ordered a b c -> ordered a' b' c' -> ordered (a ++ a') (b ++ b') (then_with c c').
Proof.
  intros Ho Ho' x y. rewrite <- !app_assoc. by rewrite Ho, Ho', then_with_assoc.
Qed.

Lemma ordered_cons p q a b c :
  (p = q -> ordered a b c) -> ordered (p :: a) (q :: b) (then_with (p ?= q) c).
Proof.
  intros Ho x y. simpl. destruct (Z.compare_spec p q); simpl; try done. by apply Ho.
Qed.

Lemma ordered_tag t a b c : ordered a b c -> ordered (t :: a) (t :: b) c.
Proof. intros Ho. pose proof (ordered_cons t t a b c (fun _ => Ho)). by rewrite Z.compare_refl in *. Qed.

Lemma ordered_lex a b c : ordered a b c -> lex_cmp a b = c.
Proof. intros Ho. specialize (Ho [] []). by rewrite !app_nil_r, then_with_Eq_r in Ho. Qed.

(** Inverting the bytes reverses the order, and keeps it unambiguous. *)
Lemma ordered_inverted a b c :
  ordered a b c -> ordered (map (bit_not 8) a) (map (bit_not 8) b) (CompOpp c).
Proof.
  revert b. induction a as [|p a IH]; intros [|q b] Ho; simpl.
  - pose proof (ordered_lex _ _ _ Ho) as E. simpl in E. subst. done.
  - pose proof (ordered_lex _ _ _ Ho) as E. simpl in E. subst.
    specialize (Ho [q + 1] []). simpl in Ho. destruct (Z.compare_spec (q + 1) q); lia || done.
  - pose proof (ordered_lex _ _ _ Ho) as E. simpl in E. subst.
    specialize (Ho [] [p + 1]). simpl in Ho. destruct (Z.compare_spec p (p + 1)); lia || done.
  - intros x y. simpl. unfold bit_not at 1 2.
    destruct (Z.compare_spec p q) as [->|Hl|Hl].
    + rewrite Z.compare_refl. apply IH. intros x' y'. specialize (Ho x' y'). simpl in Ho.
      by rewrite Z.compare_refl in Ho.
    + pose proof (ordered_lex _ _ _ Ho) as E. simpl in E.
      rewrite (proj2 (Z.compare_lt_iff p q) Hl) in E. subst c. simpl.
      by rewrite (proj2 (Z.compare_gt_iff _ _)) by lia.
    + pose proof (ordered_lex _ _ _ Ho) as E. simpl in E.
      rewrite (proj2 (Z.compare_gt_iff p q) Hl) in E. subst c. simpl.
      by rewrite (proj2 (Z.compare_lt_iff _ _)) by lia.
Qed.

Lemma ordered_be n x y :
  0 <= x < 256 ^ Z.of_nat n -> 0 <= y < 256 ^ Z.of_nat n ->
  ordered (be_bytes n x) (be_bytes n y) (x ?= y).
Proof.
  intros. rewrite <- (lex_cmp_be_bytes n) by done. apply ordered_fixed.
  unfold be_bytes. by rewrite !length_rev, !length_le_bytes.
Qed.

Lemma u_ok_spec w z : u_ok w z = true <-> is_u w z.
Proof. unfold u_ok, is_u. rewrite andb_true_iff, Z.leb_le, Z.ltb_lt. done. Qed.

Lemma i_ok_spec w z : i_ok w z = true <-> is_i w z.
Proof. unfold i_ok, is_i. rewrite andb_true_iff, Z.leb_le, Z.ltb_lt. done. Qed.

Lemma bytes_okb_spec l : bytes_okb l = true <-> bytes_ok l.
Proof.
  unfold bytes_okb, bytes_ok. rewrite forallb_forall, List.Forall_forall.
  by setoid_rewrite u_ok_spec.
Qed.

Lemma ordered_string s t :
  bytes_ok s -> bytes_ok t ->
  ordered (encode_string_bytes s) (encode_string_bytes t) (lex_cmp s t).
Proof.
  intros Hs. revert t. induction Hs as [|b s Hb Hs IH]; intros t Ht x y;
    destruct Ht as [|c t Hc Ht]; try specialize (IH t Ht x y);
    unfold is_u, encode_string_bytes in *; cbn [escape_bytes app lex_cmp] in *; [done|..].
  - destruct (Z.eqb_spec c 0), (Z.eqb_spec c 1); cbn [app lex_cmp]; try done.
    by rewrite (proj2 (Z.compare_lt_iff 0 c)) by lia.
  - destruct (Z.eqb_spec b 0), (Z.eqb_spec b 1); cbn [app lex_cmp]; try done.
    by rewrite (proj2 (Z.compare_gt_iff b 0)) by lia.
  - rewrite <- !app_assoc in *. cbn [app] in *.
    destruct (Z.eqb_spec b 0), (Z.eqb_spec b 1), (Z.eqb_spec c 0), (Z.eqb_spec c 1);
      subst; try lia; cbn [app lex_cmp]; rewrite ?Z.compare_refl; try done;
      repeat match goal with
      | |- context [?p ?= ?q] =>
          destruct (Z.compare_spec p q); try lia; cbn [then_with]; try done
      end.
Qed.

Section EncodeOrder.
Context `{BsonFormat}.

(** The bytes after the type byte *)
Definition payload (v : Bson) : list Z := tail (encode_into v).

Lemma encode_into_cons v : encode_into v = type_rank v :: payload v.
Proof. by destruct v. Qed.

Lemma bson_num_wf v n : node_ok v = true -> bson_num v = Some n -> num_wf n.
Proof.
  destruct v; simpl; try done; intros Hv [= <-].
  - by apply f64_num_wf.
  - apply i_ok_spec in Hv. unfold is_i in Hv. simpl. lia.
  - apply i_ok_spec in Hv. unfold is_i in Hv. simpl. lia.
  - by apply f64_num_wf.
Qed.

Lemma payload_num v n :
  node_ok v = true -> bson_num v = Some n -> payload v = be_bytes 17 (num_rank n).
Proof.
  unfold payload. destruct v; simpl; try done; intros Hv [= <-].
  - by apply encode_f64_rank.
  - apply i_ok_spec in Hv. apply encode_i64_rank. unfold is_i in *. lia.
  - apply i_ok_spec in Hv. by apply encode_i64_rank.
  - by apply encode_f64_rank.
Qed.

Lemma payload_str v s : bson_str v = Some s -> payload v = encode_string_bytes s.
Proof. by destruct v; simpl; intros [= <-]. Qed.

Lemma ordered_num a b na nb :
  node_ok a = true -> node_ok b = true -> exact_node a = true -> exact_node b = true ->
  bson_num a = Some na -> bson_num b = Some nb ->
  ordered (payload a) (payload b) (num_cmp na nb).
Proof.
  intros Ha Hb Xa Xb Na Nb. unfold exact_node in *. rewrite Na in Xa. rewrite Nb in Xb.
  rewrite (payload_num a na), (payload_num b nb) by done.
  pose proof (bson_num_wf _ _ Ha Na). pose proof (bson_num_wf _ _ Hb Nb).
  rewrite <- num_rank_cmp by done. apply ordered_be; by apply num_rank_range.
Qed.

Lemma ordered_date x y :
  is_i64 x -> is_i64 y -> ordered (encode_signed_i64_be x) (encode_signed_i64_be y) (x ?= y).
Proof.
  intros Hx Hy. unfold encode_signed_i64_be.
  rewrite !flip_sign_bit by done. unfold is_i in *.
  replace (x ?= y) with (x + 2 ^ 63 ?= y + 2 ^ 63).
  - apply ordered_be; change (256 ^ Z.of_nat 8) with (2 ^ 64); lia.
  - destruct (Z.compare_spec (x + 2 ^ 63) (y + 2 ^ 63)), (Z.compare_spec x y); lia || done.
Qed.

Lemma ordered_binary s x s' x' :
  node_ok (Binary s x) = true -> node_ok (Binary s' x') = true ->
  ordered (encode_binary s x) (encode_binary s' x') (scalar_cmp (Binary s x) (Binary s' x')).
Proof.
  simpl. intros [[_ _]%andb_prop Hl%Z.ltb_lt]%andb_prop [[_ _]%andb_prop Hl'%Z.ltb_lt]%andb_prop.
  pose proof (len_nonneg x). pose proof (len_nonneg x').
  apply ordered_cons. intros _. rewrite !as_u_small by (unfold is_u; lia).
  destruct (Z.compare_spec (len x) (len x')) as [E|L|L].
  - rewrite E. apply (ordered_app _ _ Eq).
    + rewrite <- (Z.compare_refl (len x')). by apply ordered_be.
    + apply ordered_fixed. unfold len in E. lia.
  - intros a b. rewrite <- !app_assoc. rewrite (ordered_be 4 (len x) (len x')) by done.
    by rewrite (proj2 (Z.compare_lt_iff _ _) L).
  - intros a b. rewrite <- !app_assoc. rewrite (ordered_be 4 (len x) (len x')) by done.
    by rewrite (proj2 (Z.compare_gt_iff _ _) L).
Qed.

(** Containers, over an order-preserving encoder of the elements *)
Lemma ordered_document cmp enc d d' :
  Forall (fun kv => forall v', bson_forall (fun v => node_ok v && exact_node v) v' = true ->
    ordered (enc (snd kv)) (enc v') (cmp (snd kv) v')) d ->
  node_ok (Document d) = true -> key_ok (Document d') = true ->
  ordered (encode_document enc d) (encode_document enc d') (doc_cmp cmp d d').
Proof.
  unfold key_ok. cbn [bson_forall exact_node bson_num].
  intros Hd. revert d'. induction Hd as [|[k v] d Hv Hd IH]; intros [|[k' v'] d'];
    cbn [node_ok forallb encode_document doc_cmp fst snd];
    rewrite ?andb_true_r, ?andb_true_iff, ?bytes_okb_spec, ?negb_true_iff, ?bool_decide_eq_false.
  - done.
  - intros _ [[[Hk Hne] _] _] x y. destruct Hk as [|c k' Hc Hk]; [done|].
    unfold encode_string_bytes, is_u in *. simpl.
    destruct (Z.eqb_spec c 0), (Z.eqb_spec c 1); simpl; try done. destruct c; simpl; lia || done.
  - intros [[Hk Hne] _] _ x y. destruct Hk as [|c k Hc Hk]; [done|].
    unfold encode_string_bytes, is_u in *. simpl.
    destruct (Z.eqb_spec c 0), (Z.eqb_spec c 1); simpl; try done. destruct c; simpl; lia || done.
  - intros [[Hk Hne] Hn] [[[Hk' Hne'] Hn'] [Hv' Hd']].
    apply ordered_app; [by apply ordered_string|]. apply ordered_app; [by apply Hv|].
    apply IH; [done|]. by rewrite andb_true_r, andb_true_iff.
Qed.

Lemma type_rank_pos v : is_min_key v = false -> 0 < type_rank v.
Proof. by destruct v. Qed.

Lemma ordered_array cmp l l' :
  Forall (fun v => forall v', bson_forall (fun v => node_ok v && exact_node v) v' = true ->
    ordered (encode_into v) (encode_into v') (cmp v v')) l ->
  node_ok (Array l) = true -> key_ok (Array l') = true ->
  ordered (encode_array encode_into l) (encode_array encode_into l') (arr_cmp cmp l l').
Proof.
  unfold key_ok. cbn [bson_forall exact_node bson_num].
  intros Hl. revert l'. induction Hl as [|v l Hv Hl IH]; intros [|v' l'];
    cbn [node_ok forallb encode_array arr_cmp];
    rewrite ?andb_true_r, ?andb_true_iff, ?negb_true_iff.
  - done.
  - intros _ [[Hm _] _] x y. apply type_rank_pos in Hm. rewrite encode_into_cons. cbn [app lex_cmp].
    by rewrite (proj2 (Z.compare_lt_iff 0 _)).
  - intros [Hm _] _ x y. apply type_rank_pos in Hm. rewrite encode_into_cons. cbn [app lex_cmp].
    by rewrite (proj2 (Z.compare_gt_iff _ 0)).
  - intros [Hm Hn] [[Hm' Hn'] [Hv' Hl']].
    apply ordered_app; [by apply Hv|]. apply ordered_tag. apply IH; [done|].
    by rewrite andb_true_r, andb_true_iff.
Qed.

Lemma ordered_scalar a b :
  match a with Document _ | Array _ => False | _ => True end ->
  node_ok a && exact_node a = true -> node_ok b && exact_node b = true ->
  type_rank a = type_rank b ->
  ordered (payload a) (payload b) (scalar_cmp a b).
Proof.
  intros Hs [Ha Xa]%andb_prop [Hb Xb]%andb_prop Ht.
  destruct (bson_num a) as [na|] eqn:Na.
  { assert (exists nb, bson_num b = Some nb) as [nb Nb]
      by (destruct a; try done; destruct b; try done; simpl; eauto).
    replace (scalar_cmp a b) with (num_cmp na nb); [by apply ordered_num|].
    destruct a; try done; destruct b; try done; simpl in *; simplify_eq; by rewrite then_with_Eq_r. }
  destruct (bson_str a) as [sa|] eqn:Sa.
  { assert (exists sb, bson_str b = Some sb) as [sb Sb]
      by (destruct a; try done; destruct b; try done; simpl; eauto).
    replace (scalar_cmp a b) with (lex_cmp sa sb).
    - rewrite (payload_str a sa), (payload_str b sb) by done.
      apply ordered_string; apply bytes_okb_spec;
        [destruct a|destruct b]; try done; simpl in *; congruence.
    - destruct a; try done; destruct b; try done; simpl in *; congruence. }
  destruct a; try done; destruct b; try done; unfold payload;
    cbn [scalar_cmp bson_num bson_str opt_cmp then_with encode_into tail];
    try apply ordered_nil; try (by apply ordered_binary);
    cbn [node_ok] in *; rewrite ?andb_true_iff, ?bytes_okb_spec, ?i_ok_spec, ?u_ok_spec in *.
  - by repeat match goal with b : bool |- _ => destruct b end.
  - destruct_and!. apply ordered_app; by apply ordered_string.
  - destruct_and!. apply ordered_app; by apply ordered_be.
  - apply ordered_fixed. destruct Ha as [_ Ha%Z.eqb_eq], Hb as [_ Hb%Z.eqb_eq]. unfold len in *. lia.
  - by apply ordered_date.
Qed.

Lemma key_ok_node v : key_ok v = true -> node_ok v && exact_node v = true.
Proof. unfold key_ok. destruct v; cbn [bson_forall]; intros [? _]%andb_prop; done. Qed.

(** Encodings of admissible values are ordered as the values are, whatever
    bytes follow. *)
Lemma encode_ordered a b :
  key_ok a = true -> key_ok b = true -> ordered (encode_into a) (encode_into b) (bson_cmp a b).
Proof.
  revert b. induction a as [d IH|l IH|a Hs] using Bson_nested_ind; intros b Ha Hb;
    rewrite !encode_into_cons.
  - apply ordered_cons. intros Ht. destruct b; try done. unfold payload. cbn [encode_into tail].
    pose proof (key_ok_node _ Ha) as [Hn _]%andb_prop.
    apply ordered_document; [|done|done].
    unfold key_ok in Ha. cbn [bson_forall] in Ha. apply andb_prop in Ha as [_ Ha].
    rewrite forallb_forall, <- List.Forall_forall in Ha.
    eapply List.Forall_impl; [|exact (List.Forall_and IH Ha)].
    intros kv [Hv Hk] v' Hv'. by apply Hv.
  - apply ordered_cons. intros Ht. destruct b; try done. unfold payload. cbn [encode_into tail].
    pose proof (key_ok_node _ Ha) as [Hn _]%andb_prop.
    apply ordered_array; [|done|done].
    unfold key_ok in Ha. cbn [bson_forall] in Ha. apply andb_prop in Ha as [_ Ha].
    rewrite forallb_forall, <- List.Forall_forall in Ha.
    eapply List.Forall_impl; [|exact (List.Forall_and IH Ha)].
    intros v [Hv Hk] v' Hv'. by apply Hv.
  - replace (bson_cmp a b) with (then_with (type_rank a ?= type_rank b) (scalar_cmp a b))
      by (by destruct a).
    apply ordered_cons. intros Ht. apply ordered_scalar; try done; by apply key_ok_node.
Qed.


(** Numbers of all four types, without any restriction on their range or
    precision: equal values have identical encodings whatever their types, and
    a smaller value never encodes above a larger one. *)
Theorem encode_number_monotone a b na nb :
  node_ok a = true -> node_ok b = true -> bson_num a = Some na -> bson_num b = Some nb ->
  (num_cmp na nb = Eq -> encode_key a = encode_key b) /\
  (num_cmp na nb = Lt -> lex_cmp (encode_key a) (encode_key b) <> Gt).
Proof.
  intros Ha Hb Na Nb. unfold encode_key. rewrite !encode_into_cons.
  rewrite (payload_num a na), (payload_num b nb) by done.
  pose proof (bson_num_wf _ _ Ha Na) as Wa. pose proof (bson_num_wf _ _ Hb Nb) as Wb.
  assert (type_rank a = type_rank b) as -> by (destruct a; try done; by destruct b).
  split; intros Hc.
  - pose proof (num_rank_mono na nb Wa Wb ltac:(congruence)).
    pose proof (num_rank_mono nb na Wb Wa ltac:(rewrite num_cmp_antisym, Hc; done)).
    do 2 f_equal. lia.
  - pose proof (num_rank_mono na nb Wa Wb ltac:(congruence)). cbn [lex_cmp].
    rewrite Z.compare_refl, lex_cmp_be_bytes by (by apply num_rank_range). assumption.
Qed.

(** ** Compound keys *)

(** The reference order of compound keys: field by field, reversed for the
    descending ones *)
Definition dir_cmp (ascending : bool) (c : comparison) : comparison :=
  if ascending then c else CompOpp c.

Fixpoint fields_cmp (f g : list (Bson * bool)) : comparison :=
  match f, g with
  | (v, asc) :: f', (w, _) :: g' => then_with (dir_cmp asc (bson_cmp v w)) (fields_cmp f' g')
  | _, _ => Eq
  end.

Definition fields_ok (f : list (Bson * bool)) : bool := forallb (fun va => key_ok (fst va)) f.

Lemma directed_ordered v w asc :
  key_ok v = true -> key_ok w = true ->
  ordered (encode_directed (encode_into v) asc) (encode_directed (encode_into w) asc)
    (dir_cmp asc (bson_cmp v w)).
Proof.
  intros. destruct asc; simpl; [|apply ordered_inverted]; by apply encode_ordered.
Qed.

Lemma compound_tail_ordered f g :
  map snd f = map snd g -> fields_ok f = true -> fields_ok g = true ->
  ordered (encode_compound_tail f) (encode_compound_tail g) (fields_cmp f g).
Proof.
  revert g. induction f as [|[v asc] f IH]; intros [|[w asc'] g]; try done.
  intros [= <- Hd] [Hv Hf]%andb_prop [Hw Hg]%andb_prop.
  cbn [encode_compound_tail fields_cmp]. apply ordered_tag, ordered_app; [by apply directed_ordered|auto].
Qed.

Lemma compound_ordered f g :
  map snd f = map snd g -> fields_ok f = true -> fields_ok g = true ->
  ordered (encode_compound_key f) (encode_compound_key g) (fields_cmp f g).
Proof.
  destruct f as [|[v asc] f], g as [|[w asc'] g]; try done.
  intros [= <- Hd] [Hv Hf]%andb_prop [Hw Hg]%andb_prop.
  cbn [encode_compound_key fields_cmp].
  apply ordered_app; [by apply directed_ordered|by apply compound_tail_ordered].
Qed.


End EncodeOrder.
