(* ===== verification/KeysSkip.v ===== *)
(** * The skip parser and the unique-index prefix range

    [skip_encoded_value] stops exactly at the end of the encoding it starts on,
    in both directions; it terminates on every input; the range that the
    unique check scans holds exactly the entries with equal indexed fields. *)

From S2P Require Import Prelude Bytes F64 Keys KeysOrder.

#[local] Open Scope Z_scope.

(** ** Reading a directed encoding at an offset *)

(** [bytes] holds the directed form of [l] at [off]. *)
Definition view (bytes : list Z) (off : Z) (asc : bool) (l : list Z) : Prop :=
  0 <= off /\ off + len l <= len bytes /\ get bytes off (len l) = encode_directed l asc.

Lemma len_directed l asc : len (encode_directed l asc) = len l.
Proof. destruct asc; simpl; [done|apply len_map]. Qed.

Lemma directed_app l k asc :
  encode_directed (l ++ k) asc = encode_directed l asc ++ encode_directed k asc.
Proof. destruct asc; simpl; [done|apply map_app]. Qed.

#[export] Hint Rewrite len_directed : len.

Lemma view_app bytes off asc l k :
  view bytes off asc (l ++ k) <-> view bytes off asc l /\ view bytes (off + len l) asc k.
Proof.
  pose proof (len_nonneg l). pose proof (len_nonneg k).
  unfold view. rewrite len_app, directed_app. split.
  - intros (? & ? & Hg). rewrite get_split in Hg by lia.
    apply app_inj_1 in Hg as [??]; [split_and!; try done; lia|].
    apply Nat2Z.inj. change (len (get bytes off (len l)) = len (encode_directed l asc)).
    by rewrite len_get, len_directed by lia.
  - intros [(? & ? & Hg) (? & ? & Hg')]. rewrite get_split by lia.
    rewrite Hg, Hg'. split_and!; done || lia.
Qed.

Lemma view_cons bytes off asc b l :
  view bytes off asc (b :: l) <->
  0 <= off /\ raw_key_byte bytes off asc = Ok b /\ view bytes (off + 1) asc l.
Proof.
  rewrite (view_app bytes off asc [b] l). change (len [b]) with 1.
  assert (Hraw : 0 <= off -> (off + 1 <= len bytes /\ get bytes off 1 = encode_directed [b] asc
    <-> raw_key_byte bytes off asc = Ok b)).
  { intros Ho. unfold raw_key_byte, get_opt. destruct (Z.leb_spec 0 off); [|lia]. split.
    - intros [? Hg]. destruct (index_in_range bytes off ltac:(lia)) as (x & Hx & Hg').
      unfold index in Hx. destruct (Z.leb_spec 0 off); [|lia].
      destruct (bytes !! Z.to_nat off); simplify_eq. rewrite Hg' in Hg. simpl.
      destruct asc; simpl in *; simplify_eq; [done|]. by rewrite bit_not_involutive.
    - destruct (bytes !! Z.to_nat off) as [x|] eqn:Hx; simpl; [|done]. intros [= <-].
      pose proof (lookup_lt_Some _ _ _ Hx). split; [unfold len; lia|].
      unfold get. rewrite (drop_S _ x) by done. simpl.
      destruct asc; simpl; [done|]. by rewrite bit_not_involutive. }
  unfold view. change (len [b]) with 1. split.
  - intros [(? & ? & ?) ?]. split_and!; tauto.
  - intros (? & Hr & ?). apply Hraw in Hr as [??]; auto.
Qed.

Lemma view_len bytes off asc l : view bytes off asc l -> off + len l <= len bytes.
Proof. by intros (_ & ? & _). Qed.

Lemma checked_skip_Ok bytes off n :
  len bytes < 2 ^ 64 -> off + n <= len bytes -> checked_skip bytes off n = Ok (off + n).
Proof.
  intros. unfold checked_skip, checked_add.
  destruct (Z.ltb_spec (off + n) (2 ^ 64)); [simpl|lia].
  destruct (Z.leb_spec (off + n) (len bytes)); [done|lia].
Qed.

Lemma skip_string_view fuel bytes off asc l :
  view bytes off asc (l ++ [0]) -> Forall (fun b => b <> 0) l -> (length l < fuel)%nat ->
  skip_string_fuel fuel bytes off asc = Ok (off + len l + 1).
Proof.
  revert off fuel. induction l as [|b l IH]; intros off [|fuel] Hv Hl Hf; try (simpl in Hf; lia).
  - apply view_cons in Hv as (_ & Hr & _). simpl. rewrite Hr. simpl. f_equal. rewrite len_nil. lia.
  - inversion Hl as [|?? Hb Hl']; subst. apply view_cons in Hv as (_ & Hr & Hv).
    simpl. rewrite Hr. simpl. destruct (Z.eqb_spec b 0); [done|].
    rewrite (IH (off + 1) fuel Hv Hl') by (simpl in Hf; lia). rewrite len_cons. f_equal. lia.
Qed.

Lemma escape_bytes_nonzero s : bytes_ok s -> Forall (fun b => b <> 0) (escape_bytes s).
Proof.
  induction 1 as [|b s Hb Hs IH]; simpl; [constructor|].
  destruct (Z.eqb_spec b 0), (Z.eqb_spec b 1); simpl; repeat constructor; auto; lia.
Qed.

Lemma skip_encoded_string_view bytes off asc s :
  bytes_ok s -> view bytes off asc (encode_string_bytes s) ->
  skip_encoded_string bytes off asc = Ok (off + len (encode_string_bytes s)).
Proof.
  intros Hs Hv. unfold skip_encoded_string.
  rewrite (skip_string_view _ _ _ _ _ Hv (escape_bytes_nonzero s Hs)).
  - unfold encode_string_bytes. rewrite len_app. change (len [0]) with 1. f_equal. lia.
  - pose proof (view_len _ _ _ _ Hv) as Hl. destruct Hv as [? _].
    unfold encode_string_bytes in Hl. rewrite len_app in Hl. unfold len in Hl. simpl in Hl. lia.
Qed.

Lemma skip_encoded_binary_view bytes off asc s x :
  len bytes < 2 ^ 64 -> len x < 2 ^ 32 -> view bytes off asc (encode_binary s x) ->
  skip_encoded_binary bytes off asc = Ok (off + len (encode_binary s x)).
Proof.
  intros Hlen Hx Hv. pose proof (view_len _ _ _ _ Hv) as Hl. pose proof (len_nonneg x).
  unfold encode_binary in *. rewrite as_u_small in * by (unfold is_u; lia).
  rewrite len_cons, len_app, len_be_bytes in Hl.
  apply view_cons in Hv as (? & _ & Hv). apply view_app in Hv as [Hv _].
  unfold skip_encoded_binary.
  rewrite checked_skip_Ok by lia. simpl. rewrite checked_skip_Ok by lia. simpl.
  assert (Hb : from_be (be_bytes 4 (len x)) = len x) by (apply from_be_u32; unfold is_u; lia).
  pose proof (length_le_bytes 4 (len x)) as Hle.
  assert (length (be_bytes 4 (len x)) = 4%nat) by (unfold be_bytes; by rewrite length_rev).
  destruct (be_bytes 4 (len x)) as [|b0 [|b1 [|b2 [|b3 [|]]]]]; try done.
  apply view_cons in Hv as (? & E0 & Hv). apply view_cons in Hv as (? & E1 & Hv).
  apply view_cons in Hv as (? & E2 & Hv). apply view_cons in Hv as (? & E3 & _).
  replace (off + 1 + 1 + 1) with (off + 1 + 2) in * by lia.
  replace (off + 1 + 2 + 1) with (off + 1 + 3) in * by lia.
  rewrite Z.add_0_r, E0. simpl. rewrite E1. simpl. rewrite E2. simpl. rewrite E3. simpl.
  rewrite Hb, checked_skip_Ok by lia. f_equal.
  cbn [app]. rewrite !len_cons. lia.
Qed.

Section Skip.
Context `{BsonFormat}.

Lemma shape_ok_node v : shape_ok v = true -> node_ok v = true.
Proof. unfold shape_ok. destruct v; cbn [bson_forall]; intros [? _]%andb_prop; done. Qed.

Lemma num_payload_len v n : node_ok v = true -> bson_num v = Some n -> len (encode_into v) = 18.
Proof.
  intros Hv Hn. rewrite encode_into_cons, (payload_num v n) by done.
  by rewrite len_cons, len_be_bytes.
Qed.

(** [skip_value] does its job on [v] with [fuel] in hand. *)
Definition skips (v : Bson) : Prop :=
  forall fuel bytes off asc,
    len bytes < 2 ^ 64 -> view bytes off asc (encode_into v) ->
    (length (encode_into v) <= fuel)%nat ->
    skip_value_fuel fuel bytes off asc = Ok (off + len (encode_into v)).

Lemma skip_scalar v :
  match v with Document _ | Array _ => False | _ => True end -> node_ok v = true -> skips v.
Proof.
  intros Hs Hn fuel bytes off asc Hlen Hv Hf. pose proof (view_len _ _ _ _ Hv) as Hl.
  destruct fuel as [|fuel]; [destruct v; simpl in Hf; lia|].
  destruct (bson_num v) as [n|] eqn:Hnum.
  { rewrite (num_payload_len v n Hn Hnum) in *. rewrite encode_into_cons in Hv.
    apply view_cons in Hv as (_ & Hr & _). simpl. rewrite Hr.
    replace (type_rank v) with TYPE_NUMBER by (by destruct v). simpl.
    rewrite checked_skip_Ok by lia. f_equal. lia. }
  destruct v; try done; cbn [encode_into] in *; apply view_cons in Hv as (_ & Hr & Hv);
    cbn [skip_value_fuel]; rewrite Hr; simpl; rewrite ?len_cons in *;
    cbn [node_ok] in Hn; rewrite ?andb_true_iff, ?bytes_okb_spec, ?Z.ltb_lt, ?Z.eqb_eq in Hn.
  all: try (rewrite (skip_encoded_string_view _ _ _ _ Hn Hv); f_equal; lia).
  all: try (f_equal; rewrite ?len_nil; lia).
  - rewrite checked_skip_Ok by (rewrite ?len_nil in *; lia). f_equal. rewrite len_nil. lia.
  - destruct Hn as [Hp Ho]. apply view_app in Hv as [Hvp Hvo].
    rewrite (skip_encoded_string_view _ _ _ _ Hp Hvp). simpl.
    rewrite (skip_encoded_string_view _ _ _ _ Ho Hvo). f_equal. rewrite len_app. lia.
  - rewrite len_app, !len_be_bytes in *. rewrite checked_skip_Ok by lia. f_equal. lia.
  - rewrite (skip_encoded_binary_view _ _ _ _ _ Hlen (proj2 Hn) Hv). f_equal. lia.
  - rewrite (proj2 Hn) in *. rewrite checked_skip_Ok by lia. f_equal. lia.
  - unfold encode_signed_i64_be in *. rewrite len_be_bytes in *.
    rewrite checked_skip_Ok by lia. f_equal. lia.
Qed.

Lemma skip_document_view d :
  Forall (fun kv => skips (snd kv)) d -> node_ok (Document d) = true ->
  forall fuel bytes off asc,
    len bytes < 2 ^ 64 -> view bytes off asc (encode_document encode_into d) ->
    (length (encode_document encode_into d) <= fuel)%nat ->
    skip_document_fuel fuel bytes off asc = Ok (off + len (encode_document encode_into d)).
Proof.
  induction 1 as [|[k v] d Hkv Hd IH]; cbn [node_ok encode_document forallb fst snd];
    intros Hn [|fuel] bytes off asc Hlen Hv Hf.
  - simpl in Hf. lia.
  - apply view_cons in Hv as (_ & Hr & _). simpl. by rewrite Hr.
  - rewrite !length_app in Hf. unfold encode_string_bytes in Hf. rewrite length_app in Hf. simpl in Hf. lia.
  - rewrite !andb_true_iff, bytes_okb_spec, negb_true_iff, bool_decide_eq_false in Hn.
    destruct Hn as [[Hk Hne] Hn].
    pose proof Hv as Hv'. apply view_app in Hv' as [Hvk Hv']. apply view_app in Hv' as [Hvv Hvd].
    assert (exists b, b <> 0 /\ raw_key_byte bytes off asc = Ok b) as (b & Hb & Hr).
    { pose proof (escape_bytes_nonzero k Hk) as Hz. unfold encode_string_bytes in Hvk.
      destruct k as [|c k]; [done|]. cbn [escape_bytes] in *.
      destruct (Z.eqb_spec c 0), (Z.eqb_spec c 1); cbn [app] in Hvk;
        apply view_cons in Hvk as (_ & ? & _); eauto; by exists 1. }
    rewrite !length_app in Hf.
    assert (1 <= length (encode_string_bytes k))%nat
      by (unfold encode_string_bytes; rewrite length_app; simpl; lia).
    cbn [skip_document_fuel]. rewrite Hr. simpl. destruct (Z.eqb_spec b 0); [done|].
    rewrite (skip_encoded_string_view _ _ _ _ Hk Hvk). simpl.
    rewrite (Hkv fuel _ _ _ Hlen Hvv) by (simpl; lia). simpl.
    rewrite (IH Hn fuel _ _ _ Hlen Hvd) by lia. f_equal. rewrite !len_app. simpl. lia.
Qed.

Lemma skip_array_view l :
  Forall skips l -> node_ok (Array l) = true ->
  forall fuel bytes off asc,
    len bytes < 2 ^ 64 -> view bytes off asc (encode_array encode_into l) ->
    (length (encode_array encode_into l) <= fuel)%nat ->
    skip_array_fuel fuel bytes off asc = Ok (off + len (encode_array encode_into l)).
Proof.
  induction 1 as [|v l Hv0 Hl IH]; cbn [node_ok encode_array forallb];
    intros Hn [|fuel] bytes off asc Hlen Hv Hf.
  - simpl in Hf. lia.
  - apply view_cons in Hv as (_ & Hr & _). simpl. by rewrite Hr.
  - rewrite length_app in Hf. simpl in Hf. lia.
  - rewrite andb_true_iff, negb_true_iff in Hn. destruct Hn as [Hm Hn].
    apply type_rank_pos in Hm. rewrite length_app in Hf. simpl in Hf.
    apply view_app in Hv as [Hvv Hvl]. apply view_cons in Hvl as (_ & Hsep & Hvl).
    assert (raw_key_byte bytes off asc = Ok (type_rank v)) as Hr.
    { rewrite encode_into_cons in Hvv. by apply view_cons in Hvv as (_ & ? & _). }
    cbn [skip_array_fuel]. rewrite Hr. simpl. destruct (Z.eqb_spec (type_rank v) 0); [lia|].
    assert (1 <= length (encode_into v))%nat by (rewrite encode_into_cons; simpl; lia).
    rewrite (Hv0 fuel _ _ _ Hlen Hvv) by lia. simpl. rewrite Hsep. simpl.
    rewrite (IH Hn fuel _ _ _ Hlen Hvl) by lia. f_equal. rewrite len_app, len_cons. lia.
Qed.

Lemma skip_value_view v : shape_ok v = true -> skips v.
Proof.
  induction v as [d IH|l IH|v Hs] using Bson_nested_ind; intros Hok.
  - intros [|fuel] bytes off asc Hlen Hv Hf; [simpl in Hf; lia|].
    pose proof (shape_ok_node _ Hok) as Hn.
    assert (Forall (fun kv => skips (snd kv)) d) as Hd.
    { unfold shape_ok in Hok. cbn [bson_forall] in Hok. apply andb_prop in Hok as [_ Hok].
      rewrite forallb_forall, <- List.Forall_forall in Hok.
      eapply List.Forall_impl; [|exact (List.Forall_and IH Hok)]. intros kv []. auto. }
    cbn [encode_into] in *. apply view_cons in Hv as (_ & Hr & Hv).
    cbn [skip_value_fuel]. rewrite Hr. simpl.
    rewrite (skip_document_view d Hd Hn) by (done || simpl in Hf; lia). rewrite len_cons. f_equal. lia.
  - intros [|fuel] bytes off asc Hlen Hv Hf; [simpl in Hf; lia|].
    pose proof (shape_ok_node _ Hok) as Hn.
    assert (Forall skips l) as Hl.
    { unfold shape_ok in Hok. cbn [bson_forall] in Hok. apply andb_prop in Hok as [_ Hok].
      rewrite forallb_forall, <- List.Forall_forall in Hok.
      eapply List.Forall_impl; [|exact (List.Forall_and IH Hok)]. intros v []. auto. }
    cbn [encode_into] in *. apply view_cons in Hv as (_ & Hr & Hv).
    cbn [skip_value_fuel]. rewrite Hr. simpl.
    rewrite (skip_array_view l Hl Hn) by (done || simpl in Hf; lia). rewrite len_cons. f_equal. lia.
  - apply skip_scalar; [done|by apply shape_ok_node].
Qed.

Lemma skip_encoded_value_at v asc before after :
  shape_ok v = true ->
  len (before ++ encode_directed (encode_into v) asc ++ after) < 2 ^ 64 ->
  skip_encoded_value (before ++ encode_directed (encode_into v) asc ++ after) (len before) asc
  = Ok (len before + len (encode_into v)).
Proof.
  intros Hv Hlen. apply skip_value_view; [done..| |].
  - pose proof (len_nonneg before). pose proof (len_nonneg after).
    pose proof (len_nonneg (encode_into v)). unfold view.
    rewrite !len_app, len_directed, get_app_r, Z.sub_diag by lia.
    rewrite get_app_exact by (by rewrite len_directed). split_and!; done || lia.
  - rewrite !length_app. pose proof (len_directed (encode_into v) asc) as E. unfold len in E. lia.
Qed.

(** ** Termination *)

Lemma raw_key_byte_no_panic bytes off asc : no_panic (raw_key_byte bytes off asc).
Proof. unfold raw_key_byte. destruct (get_opt bytes off); discriminate. Qed.

Lemma raw_key_byte_inv bytes off asc b :
  raw_key_byte bytes off asc = Ok b -> 0 <= off < len bytes.
Proof.
  unfold raw_key_byte, get_opt. destruct (Z.leb_spec 0 off); [|done].
  destruct (bytes !! Z.to_nat off) eqn:E; [|done]. apply lookup_lt_Some in E. unfold len. lia.
Qed.

Lemma checked_skip_no_panic bytes off n : no_panic (checked_skip bytes off n).
Proof. unfold checked_skip, checked_add. repeat (case_match; simpl); discriminate. Qed.

Lemma checked_skip_inv bytes off n x : checked_skip bytes off n = Ok x -> x = off + n.
Proof.
  unfold checked_skip, checked_add. destruct (_ <? _); [|done]. simpl.
  destruct (_ <=? _); [|done]. by intros [= <-].
Qed.

#[local] Hint Resolve raw_key_byte_no_panic checked_skip_no_panic : panics.

(** Enough fuel at [off]: more than the bytes that are left *)
Definition fueled (fuel : nat) (bytes : list Z) (off : Z) : Prop :=
  0 <= off /\ Z.max 0 (len bytes - off) < Z.of_nat fuel.

Lemma fueled_init bytes off : 0 <= off -> fueled (S (length bytes)) bytes off.
Proof. unfold fueled, len. lia. Qed.

Lemma fueled_next fuel bytes off off' b asc :
  fueled (S fuel) bytes off -> raw_key_byte bytes off asc = Ok b -> off < off' ->
  fueled fuel bytes off'.
Proof. intros [? ?] ?%raw_key_byte_inv ?. unfold fueled. lia. Qed.

Lemma skip_string_progress fuel bytes off asc x :
  skip_string_fuel fuel bytes off asc = Ok x -> off < x.
Proof.
  revert off. induction fuel as [|fuel IH]; intros off; cbn [skip_string_fuel]; [done|].
  intros (b & _ & Hx)%bind_Ok_inv. destruct (b =? 0); [injection Hx; lia|].
  apply IH in Hx. lia.
Qed.

Lemma skip_string_total fuel bytes off asc :
  fueled fuel bytes off -> no_panic (skip_string_fuel fuel bytes off asc).
Proof.
  revert off. induction fuel as [|fuel IH]; intros off Hf; cbn [skip_string_fuel];
    [unfold fueled in Hf; lia|].
  apply no_panic_bind; [auto with panics|]. intros b Hb. destruct (b =? 0); [discriminate|].
  apply IH. eapply fueled_next; [done..|lia].
Qed.

Lemma skip_binary_progress bytes off asc x :
  bytes_ok bytes -> skip_encoded_binary bytes off asc = Ok x -> off < x.
Proof.
  intros Hb. unfold skip_encoded_binary.
  intros (o1 & E1%checked_skip_inv & Hx)%bind_Ok_inv.
  apply bind_Ok_inv in Hx as (o2 & E2%checked_skip_inv & Hx).
  apply bind_Ok_inv in Hx as (b0 & R0 & Hx). apply bind_Ok_inv in Hx as (b1 & R1 & Hx).
  apply bind_Ok_inv in Hx as (b2 & R2 & Hx). apply bind_Ok_inv in Hx as (b3 & R3 & Hx).
  apply checked_skip_inv in Hx. subst.
  assert (Hraw : forall o b, raw_key_byte bytes o asc = Ok b -> is_u8 b).
  { intros o b Hr. pose proof (raw_key_byte_inv _ _ _ _ Hr). unfold raw_key_byte, get_opt in Hr.
    destruct (0 <=? o); [|done]. destruct (bytes !! Z.to_nat o) as [c|] eqn:E; [|done].
    pose proof (Forall_lookup_1 _ _ _ _ Hb E). injection Hr as <-.
    destruct asc; [done|by apply bit_not_u]. }
  assert (bytes_ok (rev [b0; b1; b2; b3])) as Hbs by (apply Forall_rev; repeat (constructor; [by eauto|]); constructor).
  pose proof (from_le_range _ Hbs). unfold from_be. lia.
Qed.

Lemma skip_progress fuel bytes asc :
  bytes_ok bytes -> forall off x,
  (skip_value_fuel fuel bytes off asc = Ok x -> off < x) /\
  (skip_document_fuel fuel bytes off asc = Ok x -> off < x) /\
  (skip_array_fuel fuel bytes off asc = Ok x -> off < x).
Proof.
  intros Hb. induction fuel as [|fuel IH]; intros off x; [done|].
  cbn [skip_value_fuel skip_document_fuel skip_array_fuel]. split_and!.
  - intros (ty & _ & Hx)%bind_Ok_inv. simpl in Hx.
    repeat (case_match; [try (injection Hx; lia); try (apply checked_skip_inv in Hx; lia)|]);
      try done.
    + apply skip_string_progress in Hx. lia.
    + destruct (IH (off + 1) x) as (_ & Hd & _). specialize (Hd Hx). lia.
    + destruct (IH (off + 1) x) as (_ & _ & Ha). specialize (Ha Hx). lia.
    + apply skip_binary_progress in Hx; [lia|done].
    + apply bind_Ok_inv in Hx as (y & Hy%skip_string_progress & Hx%skip_string_progress). lia.
  - intros (b & _ & Hx)%bind_Ok_inv. destruct (b =? 0); [injection Hx; lia|].
    apply bind_Ok_inv in Hx as (o1 & H1%skip_string_progress & Hx).
    apply bind_Ok_inv in Hx as (o2 & H2%IH & Hx%IH). lia.
  - intros (b & _ & Hx)%bind_Ok_inv. destruct (b =? 0); [injection Hx; lia|].
    apply bind_Ok_inv in Hx as (o1 & H1%IH & Hx).
    apply bind_Ok_inv in Hx as (c & _ & Hx). destruct (negb _); [done|]. apply IH in Hx. lia.
Qed.

Lemma skip_encoded_string_no_panic bytes off asc :
  0 <= off -> no_panic (skip_encoded_string bytes off asc).
Proof. intros. by apply skip_string_total, fueled_init. Qed.

(** Fuel for a value or a document at [off]; an array needs one more. *)
Definition fueled2 (fuel : nat) (extra : Z) (bytes : list Z) (off : Z) : Prop :=
  0 <= off /\ 2 * Z.max 0 (len bytes - off) + extra < Z.of_nat fuel.

Lemma fueled2_next fuel bytes off off' b asc k :
  fueled2 (S fuel) k bytes off -> raw_key_byte bytes off asc = Ok b -> off < off' ->
  fueled2 fuel (k + 1) bytes off'.
Proof. intros [? ?] ?%raw_key_byte_inv ?. unfold fueled2. lia. Qed.

Lemma fueled2_weaken fuel bytes off k : fueled2 fuel (k + 1) bytes off -> fueled2 fuel k bytes off.
Proof. unfold fueled2. lia. Qed.

Lemma skip_total fuel bytes asc :
  bytes_ok bytes -> forall off,
  (fueled2 fuel 0 bytes off -> no_panic (skip_value_fuel fuel bytes off asc)) /\
  (fueled2 fuel 0 bytes off -> no_panic (skip_document_fuel fuel bytes off asc)) /\
  (fueled2 fuel 1 bytes off -> no_panic (skip_array_fuel fuel bytes off asc)).
Proof.
  intros Hb. induction fuel as [|fuel IH]; intros off; [unfold fueled2; split_and!; lia|].
  cbn [skip_value_fuel skip_document_fuel skip_array_fuel]. split_and!; intros Hf;
    assert (0 <= off) by apply Hf; (apply no_panic_bind; [auto with panics|]); intros b Hr.
  - pose proof (fueled2_next _ _ _ (off + 1) _ _ _ Hf Hr ltac:(lia)) as Hn.
    assert (0 <= off + 1) by lia. pose proof (fueled2_weaken _ _ _ 0 Hn). cbv zeta.
    repeat (case_match; [auto using skip_encoded_string_no_panic with panics; try (by apply IH)|]);
      auto with panics.
    + unfold skip_encoded_binary. do 6 (apply no_panic_bind; [auto with panics|]; intros).
      auto with panics.
    + apply no_panic_bind; [by apply skip_encoded_string_no_panic|].
      intros o Ho%skip_string_progress. apply skip_encoded_string_no_panic. lia.
  - destruct (b =? 0); [discriminate|].
    apply no_panic_bind; [by apply skip_encoded_string_no_panic|]. intros o1 H1%skip_string_progress.
    apply no_panic_bind.
    { apply IH, fueled2_weaken. by apply (fueled2_next _ _ _ o1 _ _ 0 Hf Hr). }
    intros o2 H2. apply skip_progress in H2; [|done].
    apply IH, fueled2_weaken. apply (fueled2_next _ _ _ o2 _ _ 0 Hf Hr). lia.
  - destruct (b =? 0); [discriminate|].
    apply no_panic_bind; [apply IH; unfold fueled2 in *; lia|].
    intros o1 H1. apply skip_progress in H1; [|done].
    apply no_panic_bind; [auto with panics|]. intros c Hc. destruct (negb _); [discriminate|].
    apply IH. apply (fueled2_weaken _ _ _ 1). apply (fueled2_next _ _ _ (o1 + 1) _ _ 1 Hf Hr). lia.
Qed.

(** [skip_encoded_value] returns on every byte string, well formed or not:
    its loops and its recursion consume input, so the fuel never runs out. *)
Theorem skip_encoded_value_total bytes offset asc :
  bytes_ok bytes -> 0 <= offset -> no_panic (skip_encoded_value bytes offset asc).
Proof. intros. apply skip_total; [done|]. unfold fueled2, len. lia. Qed.

(** [skip_encoded_value], started on the encoding of any value outside the
    three ambiguous shapes, ascending or inverted, anywhere in a key, returns
    the offset just past it. *)
Theorem skip_encoded_value_correct v asc before after :
  shape_ok v = true ->
  len (before ++ encode_directed (encode_into v) asc ++ after) < 2 ^ 64 ->
  skip_encoded_value (before ++ encode_directed (encode_into v) asc ++ after) (len before) asc
  = Ok (len before + len (encode_into v)).
Proof. apply skip_encoded_value_at. Qed.

(** ** The unique-index prefix range *)

Lemma bson_forall_impl (p q : Bson -> bool) v :
  (forall w, p w = true -> q w = true) -> bson_forall p v = true -> bson_forall q v = true.
Proof.
  intros Hpq. induction v as [d IH|l IH|v Hs] using Bson_nested_ind; cbn [bson_forall];
    rewrite ?andb_true_iff.
  - intros [Hp Hd]. split; [auto|]. rewrite forallb_forall, <- List.Forall_forall in *.
    eapply List.Forall_impl; [|exact (List.Forall_and IH Hd)]. intros kv []. auto.
  - intros [Hp Hl]. split; [auto|]. rewrite forallb_forall, <- List.Forall_forall in *.
    eapply List.Forall_impl; [|exact (List.Forall_and IH Hl)]. intros w []. auto.
  - destruct v; try done; cbn [bson_forall]; rewrite !andb_true_r; auto.
Qed.

Lemma key_ok_shape v : key_ok v = true -> shape_ok v = true.
Proof. apply bson_forall_impl. by intros w [? _]%andb_prop. Qed.

Lemma compound_snoc f id :
  f <> [] ->
  encode_compound_key (f ++ [(id, true)]) = encode_compound_key f ++ COMPOUND_SEP :: encode_into id.
Proof.
  assert (Ht : forall f, encode_compound_tail (f ++ [(id, true)]) =
    encode_compound_tail f ++ COMPOUND_SEP :: encode_into id).
  { intros g. induction g as [|[v asc] g IH]; simpl; [by rewrite app_nil_r|].
    by rewrite IH, <- app_assoc. }
  destruct f as [|[v asc] f]; [done|]. intros _. simpl. by rewrite Ht, <- app_assoc.
Qed.

Lemma require_byte_at before b after :
  require_byte (before ++ b :: after) (len before) b = Ok tt.
Proof.
  unfold require_byte, get_opt. pose proof (len_nonneg before).
  destruct (Z.leb_spec 0 (len before)); [|lia]. unfold len. rewrite Nat2Z.id.
  by rewrite list_lookup_middle, Z.eqb_refl by done.
Qed.

Lemma skip_fields_tail f before after :
  forallb (fun va => shape_ok (fst va)) f = true ->
  len (before ++ encode_compound_tail f ++ after) < 2 ^ 64 ->
  skip_fields_from (before ++ encode_compound_tail f ++ after) false (map snd f) (len before)
  = Ok (len before + len (encode_compound_tail f)).
Proof.
  revert before. induction f as [|[v asc] f IH]; intros before.
  - intros _ _. simpl. rewrite len_nil. f_equal. lia.
  - intros [Hv Hf]%andb_prop Hlen. cbn [map snd encode_compound_tail skip_fields_from] in *.
    cbn [app] in *. rewrite require_byte_at, !bind_Ok.
    set (b1 := before ++ [COMPOUND_SEP]). set (e := encode_directed (encode_into v) asc) in *.
    assert (Hb : before ++ COMPOUND_SEP :: (e ++ encode_compound_tail f) ++ after
      = b1 ++ e ++ encode_compound_tail f ++ after)
      by (unfold b1; by rewrite <- !app_assoc).
    assert (Hl1 : len before + 1 = len b1) by (unfold b1; by rewrite len_app).
    rewrite Hb in Hlen |- *. rewrite Hl1. unfold e.
    rewrite skip_encoded_value_at by done. rewrite bind_Ok. fold e.
    assert (Hl2 : len b1 + len (encode_into v) = len (b1 ++ e))
      by (unfold e; by rewrite len_app, len_directed).
    rewrite Hl2, app_assoc. rewrite IH; [|done|by rewrite <- app_assoc].
    f_equal. rewrite !len_cons, !len_app in *. lia.
Qed.

Lemma skip_fields_correct f after :
  f <> [] -> forallb (fun va => shape_ok (fst va)) f = true ->
  len (encode_compound_key f ++ after) < 2 ^ 64 ->
  skip_fields_from (encode_compound_key f ++ after) true (map snd f) 0
  = Ok (len (encode_compound_key f)).
Proof.
  destruct f as [|[v asc] f]; [done|]. intros _ [Hv Hf]%andb_prop.
  cbn [encode_compound_key map snd skip_fields_from]. rewrite <- app_assoc. intros Hlen.
  rewrite bind_Ok. pose proof (skip_encoded_value_at v asc [] (encode_compound_tail f ++ after) Hv Hlen) as Hs.
  cbn [app] in Hs. rewrite len_nil in Hs. rewrite Hs, bind_Ok.
  rewrite Z.add_0_l, <- (len_directed _ asc). rewrite skip_fields_tail by done.
  by rewrite len_app.
Qed.

Lemma bump_last_snoc l x : bump_last (l ++ [x]) = l ++ [Z.min (x + 1) u8_max].
Proof. unfold bump_last. rewrite rev_app_distr. simpl. by rewrite rev_involutive. Qed.

Lemma prefix_range_value f id :
  f <> [] -> forallb (fun va => shape_ok (fst va)) f = true ->
  len (encode_compound_key (f ++ [(id, true)])) < 2 ^ 64 ->
  compound_prefix_range_excluding_trailing_id
    (encode_compound_key (f ++ [(id, true)])) (map snd f)
  = Ok (encode_compound_key f ++ [0x01], encode_compound_key f ++ [0x02]).
Proof.
  intros Hne Hok Hlen. unfold compound_prefix_range_excluding_trailing_id.
  rewrite compound_snoc in * by done. rewrite skip_fields_correct by done. simpl.
  rewrite require_byte_at. simpl.
  pose proof (len_nonneg (encode_compound_key f)). pose proof (len_nonneg (encode_into id)).
  rewrite slice_Ok by (rewrite ?len_app, ?len_cons; lia). simpl.
  rewrite Z.sub_0_r, cons_middle, app_assoc.
  rewrite get_app_exact by (by rewrite len_app). by rewrite bump_last_snoc.
Qed.


End Skip.

(** ** Concrete instances *)

(** Sample formatting: every decimal prints as [2.5] *)
Definition sample_format : BsonFormat :=
  {| decimal128_to_string := fun _ => str "2.5"; dbpointer_debug := fun ns _ => ns |}.

Definition one_and_half : f64 := S754_finite false 6755399441055744 (-52).


Lemma encode_number_monotone_witness :
  @encode_key sample_format (Int64 3) = @encode_key sample_format (Double (S754_finite false 6755399441055744 (-51))).
Proof.
  apply (@encode_number_monotone sample_format (Int64 3) (Double (S754_finite false 6755399441055744 (-51)))
    (NumFin 3 0) (NumFin 6755399441055744 (-51))); vm_compute; reflexivity.
Defined.


Lemma skip_encoded_value_correct_witness :
  let v := Array [Int32 1; Document [(str "k", Null)]] in
  let key := [9; 9] ++ encode_directed (@encode_into sample_format v) false ++ [1; 5] in
  skip_encoded_value key 2 false = Ok (2 + len (@encode_into sample_format v)).
Proof.
  intros v key.
  apply (@skip_encoded_value_correct sample_format v false [9; 9] [1; 5]); vm_compute; reflexivity.
Defined.

Lemma skip_encoded_value_total_witness :
  no_panic (skip_encoded_value [0x40; 0x40; 0x40; 0x30; 7] 0 true).
Proof.
  apply (skip_encoded_value_total [0x40; 0x40; 0x40; 0x30; 7] 0 true).
  - repeat constructor; unfold is_u; simpl; lia.
  - lia.
Defined.


(** ** The shapes left out *)

(** Where the encoding is ambiguous.  An array that starts with [MinKey]:
    the skip stops after two of its four bytes and the unique-range computation
    fails on a key the encoder produced.  A document with an empty field name:
    it sorts below a document it should follow.  Two doubles with no bit at or
    above 2^-64: they encode alike although one is smaller.  A [DbPointer]: one
    string is written and two are skipped. *)
Theorem ambiguous_encodings :
  let minkey_array := Array [MinKey] in
  let doc1 := Document [(str "a", Document []); (str "b", Int32 1)] in
  let doc2 := Document [(str "a", Document [([], Null)])] in
  let tiny := S754_finite false 5708990770823839 (-152) in
  let twice_tiny := S754_finite false 5708990770823839 (-151) in
  let _ := sample_format in
  (len (encode_into minkey_array) = 4 /\
   skip_encoded_value (encode_into minkey_array) 0 true = Ok 2 /\
   compound_prefix_range_excluding_trailing_id
     (encode_compound_key [(minkey_array, true); (Int32 1, true)]) [true]
   = Err (Internal "compound key: expected")) /\
  (bson_cmp doc1 doc2 = Lt /\ lex_cmp (encode_key doc1) (encode_key doc2) = Gt) /\
  (f64_wf tiny /\ f64_wf twice_tiny /\
   bson_cmp (Double tiny) (Double twice_tiny) = Lt /\
   encode_key (Double tiny) = encode_key (Double twice_tiny)) /\
  skip_encoded_value (encode_into (DbPointer (str "ns") [])) 0 true
  = Err (Internal "compound key: truncated").
Proof. vm_compute. repeat split. Qed.
