(* ===== verification/Timestamp.v ===== *)
(** * Hybrid logical clock timestamps ([mvcc/timestamp.rs])

    [Ts] with its order and its two byte forms, the [TimestampOracle] as a
    state machine driven by arbitrary wall-clock readings, and the [AtomicTs]
    seqlock as an interleaving of one writer and one reader. *)

From S2P Require Import Prelude Bytes.
From Stdlib Require Import Sorted.

#[local] Open Scope Z_scope.

(** ** [Ts] *)

Record Ts : Set := mkTs { physical_ms : Z; logical : Z }.

#[export] Instance Ts_eq_dec : EqDecision Ts.
Proof. solve_decision. Defined.

Definition Ts_MAX : Ts := mkTs u64_max u32_max.
Definition Ts_default : Ts := mkTs 0 0.

Definition ts_wf (t : Ts) : Prop := is_u64 (physical_ms t) /\ is_u32 (logical t).

(** The derived [Ord]: fields in declaration order *)
Definition ts_cmp (a b : Ts) : comparison :=
  then_with (physical_ms a ?= physical_ms b) (logical a ?= logical b).

Definition ts_lt (a b : Ts) : Prop := ts_cmp a b = Lt.
Definition ts_le (a b : Ts) : Prop := ts_cmp a b <> Gt.
Definition ts_ltb (a b : Ts) : bool := match ts_cmp a b with Lt => true | _ => false end.
Definition ts_leb (a b : Ts) : bool := match ts_cmp a b with Gt => false | _ => true end.
(** [Ord::min] / [Ord::max] *)
Definition ts_min (a b : Ts) : Ts := if ts_leb a b then a else b.
Definition ts_max (a b : Ts) : Ts := if ts_leb a b then b else a.

Definition successor (t : Ts) : option Ts :=
  if logical t <? u32_max then Some (mkTs (physical_ms t) (logical t + 1))
  else if physical_ms t <? u64_max then Some (mkTs (physical_ms t + 1) 0)
  else None.

Definition ts_to_le_bytes (t : Ts) : list Z :=
  let out := zeros 12 in
  let out := put out 0 (le_bytes 8 (physical_ms t)) in
  put out 8 (le_bytes 4 (logical t)).

Definition ts_from_le_bytes (bytes : list Z) : Ts :=
  mkTs (from_le (get bytes 0 8)) (from_le (get bytes 8 4)).

Definition ts_to_be_bytes (t : Ts) : list Z :=
  let out := zeros 12 in
  let out := put out 0 (be_bytes 8 (physical_ms t)) in
  put out 8 (be_bytes 4 (logical t)).

Definition ts_from_be_bytes (bytes : list Z) : Ts :=
  mkTs (from_be (get bytes 0 8)) (from_be (get bytes 8 4)).

(** The order as arithmetic, for [lia] *)
Lemma ts_lt_iff a b :
  ts_lt a b <->
  physical_ms a < physical_ms b \/ (physical_ms a = physical_ms b /\ logical a < logical b).
Proof.
  unfold ts_lt, ts_cmp, then_with.
  destruct (Z.compare_spec (physical_ms a) (physical_ms b)),
    (Z.compare_spec (logical a) (logical b)); split; intros; done || lia.
Qed.

Lemma ts_le_iff a b :
  ts_le a b <->
  physical_ms a < physical_ms b \/ (physical_ms a = physical_ms b /\ logical a <= logical b).
Proof.
  unfold ts_le, ts_cmp, then_with.
  destruct (Z.compare_spec (physical_ms a) (physical_ms b)),
    (Z.compare_spec (logical a) (logical b)); split; intros; done || lia.
Qed.

Lemma ts_eq_iff a b : a = b <-> physical_ms a = physical_ms b /\ logical a = logical b.
Proof. destruct a, b; simpl. split; [by intros [= -> ->]|by intros [-> ->]]. Qed.

Lemma ts_leb_spec a b : ts_leb a b = true <-> ts_le a b.
Proof. unfold ts_leb, ts_le. destruct (ts_cmp a b); split; done. Qed.

Lemma ts_ltb_spec a b : ts_ltb a b = true <-> ts_lt a b.
Proof. unfold ts_ltb, ts_lt. destruct (ts_cmp a b); split; done. Qed.

Lemma ts_leb_false a b : ts_leb a b = false <-> ts_lt b a.
Proof.
  rewrite <- not_true_iff_false, ts_leb_spec, ts_le_iff, ts_lt_iff. lia.
Qed.

Lemma ts_ltb_false a b : ts_ltb a b = false <-> ts_le b a.
Proof.
  rewrite <- not_true_iff_false, ts_ltb_spec, ts_le_iff, ts_lt_iff. lia.
Qed.

(** Turns every timestamp comparison of the goal and the context into
    arithmetic and calls [lia]. *)
Ltac ts_lia :=
  repeat match goal with
  | H : context [ts_leb _ _ = true] |- _ => rewrite ts_leb_spec in H
  | H : context [ts_leb _ _ = false] |- _ => rewrite ts_leb_false in H
  | H : context [ts_ltb _ _ = true] |- _ => rewrite ts_ltb_spec in H
  | H : context [ts_ltb _ _ = false] |- _ => rewrite ts_ltb_false in H
  end;
  rewrite ?ts_leb_spec, ?ts_leb_false, ?ts_ltb_spec, ?ts_ltb_false in |- *;
  repeat match goal with
  | H : context [ts_lt _ _] |- _ => rewrite ts_lt_iff in H
  | H : context [ts_le _ _] |- _ => rewrite ts_le_iff in H
  | H : @eq Ts _ _ |- _ => rewrite ts_eq_iff in H
  | H : context [not (@eq Ts _ _)] |- _ => rewrite ts_eq_iff in H
  end;
  rewrite ?ts_lt_iff, ?ts_le_iff, ?ts_eq_iff in |- *;
  simpl in *; lia.

#[export] Instance ts_lt_dec : RelDecision ts_lt.
Proof. intros a b. unfold ts_lt. solve_decision. Defined.

#[export] Instance ts_le_dec : RelDecision ts_le.
Proof. intros a b. unfold ts_le. solve_decision. Defined.

#[export] Instance ts_lt_strict : StrictOrder ts_lt.
Proof. split; [intros a H; ts_lia|intros a b c H1 H2; ts_lia]. Qed.

#[export] Instance ts_le_total_order : PartialOrder ts_le.
Proof.
  split; [split|].
  - intros a. ts_lia.
  - intros a b c H1 H2. ts_lia.
  - intros a b H1 H2. apply ts_eq_iff. ts_lia.
Qed.

Lemma ts_le_lt_dec a b : {ts_le a b} + {ts_lt b a}.
Proof.
  destruct (ts_leb a b) eqn:E; [left|right]; [by apply ts_leb_spec|by apply ts_leb_false].
Defined.

Lemma ts_wf_range t :
  ts_wf t -> 0 <= physical_ms t < 2 ^ 64 /\ 0 <= logical t < 2 ^ 32.
Proof. done. Qed.

Lemma successor_Some t s :
  ts_wf t -> successor t = Some s ->
  ts_wf s /\ ts_lt t s /\ forall u, ts_wf u -> ts_lt t u -> ts_le s u.
Proof.
  intros Ht. unfold successor, ts_wf, is_u, u32_max, u64_max in *.
  destruct (Z.ltb_spec (logical t) (2 ^ 32 - 1)).
  - intros [= <-]. split_and!; simpl; try lia; [ts_lia|].
    intros u [? ?] ?. ts_lia.
  - destruct (Z.ltb_spec (physical_ms t) (2 ^ 64 - 1)); [|done].
    intros [= <-]. split_and!; simpl; try lia; [ts_lia|].
    intros u [? ?] ?. ts_lia.
Qed.

Lemma successor_None t : ts_wf t -> successor t = None -> t = Ts_MAX.
Proof.
  intros Ht. unfold successor, ts_wf, is_u, u32_max, u64_max in *.
  destruct (Z.ltb_spec (logical t) (2 ^ 32 - 1)); [done|].
  destruct (Z.ltb_spec (physical_ms t) (2 ^ 64 - 1)); [done|].
  intros _. apply ts_eq_iff. unfold Ts_MAX, u64_max, u32_max. simpl. lia.
Qed.

(** Both serializers are the concatenation of the two fields. *)
Lemma ts_to_le_bytes_app t :
  ts_to_le_bytes t = le_bytes 8 (physical_ms t) ++ le_bytes 4 (logical t).
Proof. reflexivity. Qed.

Lemma ts_to_be_bytes_app t :
  ts_to_be_bytes t = be_bytes 8 (physical_ms t) ++ be_bytes 4 (logical t).
Proof. reflexivity. Qed.

Lemma len_ts_to_le_bytes t : len (ts_to_le_bytes t) = 12.
Proof. reflexivity. Qed.

Lemma len_ts_to_be_bytes t : len (ts_to_be_bytes t) = 12.
Proof. reflexivity. Qed.

Lemma ts_to_le_bytes_ok t : bytes_ok (ts_to_le_bytes t).
Proof. rewrite ts_to_le_bytes_app. apply bytes_ok_app. auto with bytes. Qed.

Lemma ts_to_be_bytes_ok t : bytes_ok (ts_to_be_bytes t).
Proof. rewrite ts_to_be_bytes_app. apply bytes_ok_app. auto with bytes. Qed.

#[export] Hint Rewrite len_ts_to_le_bytes len_ts_to_be_bytes : len.
#[export] Hint Resolve ts_to_le_bytes_ok ts_to_be_bytes_ok : bytes.

Lemma ts_le_roundtrip t : ts_wf t -> ts_from_le_bytes (ts_to_le_bytes t) = t.
Proof.
  intros [Hp Hl]. destruct t as [p l]. unfold ts_from_le_bytes.
  rewrite ts_to_le_bytes_app. simpl physical_ms in *. simpl logical in *. f_equal.
  - by rewrite get_app_exact, from_le_u64 by (by rewrite ?len_le_bytes).
  - by rewrite get_app_r, get_all, from_le_u32 by (by rewrite ?len_le_bytes).
Qed.

Lemma ts_be_roundtrip t : ts_wf t -> ts_from_be_bytes (ts_to_be_bytes t) = t.
Proof.
  intros [Hp Hl]. destruct t as [p l]. unfold ts_from_be_bytes.
  rewrite ts_to_be_bytes_app. simpl physical_ms in *. simpl logical in *. f_equal.
  - by rewrite get_app_exact, from_be_u64 by (by rewrite ?len_be_bytes).
  - by rewrite get_app_r, get_all, from_be_u32 by (by rewrite ?len_be_bytes).
Qed.

Lemma ts_from_le_bytes_wf l : bytes_ok l -> len l = 12 -> ts_wf (ts_from_le_bytes l).
Proof.
  intros Hl Hn. split; apply from_le_bound; auto with bytes; by rewrite len_get by lia.
Qed.

Lemma ts_be_order a b x y :
  ts_wf a -> ts_wf b ->
  lex_cmp (ts_to_be_bytes a ++ x) (ts_to_be_bytes b ++ y) = then_with (ts_cmp a b) (lex_cmp x y).
Proof.
  intros [Hp Hl] [Hp' Hl']. rewrite !ts_to_be_bytes_app, <- !app_assoc.
  rewrite !lex_cmp_app_same_len, !lex_cmp_be_bytes by done.
  unfold ts_cmp. destruct (_ ?= _), (_ ?= _); done.
Qed.

(** ** [TimestampOracle]

    The state is the mutex-protected [HlcState]; every method is one critical
    section, so a concurrent execution is a sequence of calls.  The wall
    clock is read before the lock is taken: its value is an input of [commit]
    and may be any [u64], in any order. *)
Module TimestampOracle.

Definition HlcState : Set := Ts.
Definition with_clock : HlcState := Ts_default.

Definition commit (wall : Z) (st : HlcState) : Result Ts * HlcState :=
  if physical_ms st <? wall then
    let st := mkTs wall 0 in (Ok (mkTs (physical_ms st) (logical st)), st)
  else if logical st =? u32_max then (Err TimestampExhausted, st)
  else
    let st := mkTs (physical_ms st) (logical st + 1) in
    (Ok (mkTs (physical_ms st) (logical st)), st).

Definition advance (_received : Ts) (st : HlcState) : Result unit * HlcState := (Ok tt, st).

Definition now (st : HlcState) : Ts := mkTs (physical_ms st) (logical st).

Definition set_min (min : Ts) (st : HlcState) : HlcState :=
  let cur := mkTs (physical_ms st) (logical st) in
  if ts_ltb cur min then mkTs (physical_ms min) (logical min) else st.

Inductive call : Set :=
| Commit (wall : Z)
| Advance (received : Ts)
| Now
| SetMin (min : Ts).

(** What the caller gets back *)
Inductive reply : Set :=
| Issued (t : Ts)
| Observed (t : Ts)
| Exhausted
| Done.

Definition run_call (c : call) (st : HlcState) : reply * HlcState :=
  match c with
  | Commit wall =>
      match commit wall st with
      | (Ok t, st') => (Issued t, st')
      | (_, st') => (Exhausted, st')
      end
  | Advance r => (Done, snd (advance r st))
  | Now => (Observed (now st), st)
  | SetMin m => (Done, set_min m st)
  end.

Fixpoint run (cs : list call) (st : HlcState) : list reply * HlcState :=
  match cs with
  | [] => ([], st)
  | c :: cs' =>
      let '(r, st1) := run_call c st in
      let '(rs, st2) := run cs' st1 in (r :: rs, st2)
  end.

Definition issued (rs : list reply) : list Ts :=
  omap (fun r => match r with Issued t => Some t | _ => None end) rs.

Definition call_wf (c : call) : Prop :=
  match c with Commit wall => is_u64 wall | SetMin m => ts_wf m | _ => True end.

Lemma commit_Ok wall st t st' :
  commit wall st = (Ok t, st') -> t = st' /\ ts_lt st t.
Proof.
  unfold commit. destruct (Z.ltb_spec (physical_ms st) wall).
  - intros [= <- <-]. split; [done|]. ts_lia.
  - destruct (Z.eqb_spec (logical st) u32_max); [done|].
    intros [= <- <-]. split; [done|]. ts_lia.
Qed.

Lemma set_min_ge m st : ts_le m (set_min m st) /\ ts_le st (set_min m st).
Proof.
  unfold set_min. destruct (ts_ltb _ m) eqn:E; simpl; split; ts_lia.
Qed.

Lemma run_call_mono c st r st' : run_call c st = (r, st') -> ts_le st st'.
Proof.
  destruct c as [wall|u| |m]; simpl; try (intros [= <- <-]; ts_lia).
  - unfold commit. destruct (Z.ltb_spec (physical_ms st) wall); [intros [= <- <-]; ts_lia|].
    destruct (_ =? _); intros [= <- <-]; ts_lia.
  - intros [= <- <-]. apply set_min_ge.
Qed.

Lemma run_call_wf c st r st' :
  call_wf c -> ts_wf st -> run_call c st = (r, st') -> ts_wf st'.
Proof.
  intros Hc Hst. destruct c as [wall|u| |m]; simpl; try (by intros [= <- <-]).
  - simpl in Hc. unfold commit, ts_wf, is_u, u32_max in *.
    destruct (Z.ltb_spec (physical_ms st) wall); [intros [= <- <-]; simpl; lia|].
    destruct (Z.eqb_spec (logical st) (2 ^ 32 - 1)); intros [= <- <-]; simpl; lia.
  - intros [= <- <-]. unfold set_min. destruct (ts_ltb _ m); [|done]. by destruct m.
Qed.

Lemma run_issued_sorted cs st rs st' :
  run cs st = (rs, st') ->
  ts_le st st' /\ StronglySorted ts_lt (issued rs) /\
  Forall (fun t => ts_lt st t /\ ts_le t st') (issued rs).
Proof.
  revert st rs. induction cs as [|c cs IH]; intros st rs; simpl.
  - intros [= <- <-]. split_and!; [ts_lia|constructor..].
  - destruct (run_call c st) as [r st1] eqn:Ec, (run cs st1) as [rs1 st2] eqn:Er.
    intros [= <- <-]. destruct (IH _ _ Er) as (Hle & Hs & Hf).
    pose proof (run_call_mono _ _ _ _ Ec) as Hm.
    assert (Forall (fun t => ts_lt st t /\ ts_le t st2) (issued rs1)).
    { eapply Forall_impl; [exact Hf|]. intros t []. split; [ts_lia|done]. }
    destruct r as [t|t| |]; [|split_and!; [ts_lia|done..]|split_and!; [ts_lia|done..]|split_and!; [ts_lia|done..]].
    assert (t = st1 /\ ts_lt st t) as [-> Hlt].
    { destruct c as [wall|u| |m]; simpl in Ec; try done.
      destruct (commit wall st) as [[]] eqn:E; try done.
      injection Ec as <- <-. by eapply commit_Ok. }
    unfold issued in *. simpl. split_and!; [ts_lia| |].
    + constructor; [done|]. eapply Forall_impl; [exact Hf|]. by intros ? [].
    + constructor; [by split|done].
Qed.

Lemma run_app cs1 cs2 st :
  run (cs1 ++ cs2) st =
  let '(r1, st1) := run cs1 st in let '(r2, st2) := run cs2 st1 in (r1 ++ r2, st2).
Proof.
  revert st. induction cs1 as [|c cs1 IH]; intros st; simpl.
  - by destruct (run cs2 st).
  - destruct (run_call c st) as [r st1]. rewrite IH.
    destruct (run cs1 st1) as [? st2], (run cs2 st2). done.
Qed.

Lemma run_wf cs st rs st' :
  Forall call_wf cs -> ts_wf st -> run cs st = (rs, st') -> ts_wf st'.
Proof.
  intros Hcs. revert st rs. induction Hcs as [|c cs Hc _ IH]; intros st rs Hst; simpl.
  - by intros [= _ <-].
  - destruct (run_call c st) as [r st1] eqn:Ec, (run cs st1) as [rs1 st2] eqn:Er.
    intros [= <- <-]. eauto using run_call_wf.
Qed.

(** C28: every sequence of oracle calls, with wall-clock readings that may
    stall or regress and with [set_min] floors in between, issues strictly
    increasing (hence unique) timestamps; each timestamp issued after a
    [set_min m] is above [m] and above everything issued before it; and the
    clock stays representable in [u64]/[u32]. *)
Theorem oracle_strictly_monotone cs1 m cs2 rs1 st1 rs2 st2 :
  Forall call_wf (cs1 ++ SetMin m :: cs2) ->
  run cs1 with_clock = (rs1, st1) ->
  run (SetMin m :: cs2) st1 = (rs2, st2) ->
  StronglySorted ts_lt (issued rs1 ++ issued rs2) /\
  Forall (ts_lt m) (issued rs2) /\
  ts_wf st2.
Proof.
  intros Hwf H1 H2.
  assert (H12 : run (cs1 ++ SetMin m :: cs2) with_clock = (rs1 ++ rs2, st2))
    by (by rewrite run_app, H1, H2).
  split_and!.
  - unfold issued. rewrite <- omap_app. by eapply run_issued_sorted.
  - simpl in H2. destruct (run cs2 (set_min m st1)) as [rs st] eqn:E.
    injection H2 as <- <-. unfold issued. simpl.
    eapply Forall_impl; [by eapply run_issued_sorted|]. simpl.
    intros t [? _]. destruct (set_min_ge m st1). ts_lia.
  - eapply run_wf; [exact Hwf| |exact H12]. unfold ts_wf, is_u. simpl. lia.
Qed.

Lemma oracle_strictly_monotone_witness :
  StronglySorted ts_lt [mkTs 5 0; mkTs 5 1; mkTs 9 4; mkTs 10 0].
Proof.
  destruct (oracle_strictly_monotone
    [Commit 5; Commit 3] (mkTs 9 3) [Now; Commit 7; Commit 10]
    [Issued (mkTs 5 0); Issued (mkTs 5 1)] (mkTs 5 1)
    [Done; Observed (mkTs 9 3); Issued (mkTs 9 4); Issued (mkTs 10 0)] (mkTs 10 0))
    as (H & _ & _).
  - repeat constructor; simpl; unfold ts_wf, is_u; simpl; lia.
  - reflexivity.
  - reflexivity.
  - exact H.
Defined.

End TimestampOracle.

(** ** [AtomicTs]: the seqlock

    One step is one atomic access.  The single writer runs [store] calls one
    after another; a reader runs [load].  [seq] is a [u64] whose [fetch_add]
    wraps.  Two ghost fields serve the specification only: [stored], the
    values of all stores begun so far (the initial value first), and [done],
    the index in [stored] of the last completed one.  A reader remembers, as a
    ghost, the value of [done] when its [load] began. *)
Module AtomicTs.

(** The program points of [store] between its four accesses *)
Inductive writer : Set :=
| WIdle
| WSeqBumped (ts : Ts)
| WPhysStored (ts : Ts)
| WLogicalStored (ts : Ts).

(** The program points of [load]; [began] is ghost *)
Inductive reader : Set :=
| RIdle
| RLoopHead (began : nat)
| RGotSeq (began : nat) (s1 : Z)
| RGotPhys (began : nat) (s1 p : Z)
| RGotLogical (began : nat) (s1 p l : Z)
| RReturned (began : nat) (ts : Ts).

Record state : Set := mkState {
  seq : Z; phys : Z; logc : Z;
  wr : writer; rd : reader;
  stored : list Ts; done_ix : nat }.

Definition new (ts : Ts) : state :=
  mkState 0 (physical_ms ts) (logical ts) WIdle RIdle [ts] 0.

(** One access of [store]; [arg] is the argument of the next call *)
Definition store_step (arg : Ts) (s : state) : state :=
  match wr s with
  | WIdle =>
      mkState (as_u 64 (seq s + 1)) (phys s) (logc s) (WSeqBumped arg) (rd s)
        (stored s ++ [arg]) (done_ix s)
  | WSeqBumped ts =>
      mkState (seq s) (physical_ms ts) (logc s) (WPhysStored ts) (rd s) (stored s) (done_ix s)
  | WPhysStored ts =>
      mkState (seq s) (phys s) (logical ts) (WLogicalStored ts) (rd s) (stored s) (done_ix s)
  | WLogicalStored ts =>
      mkState (as_u 64 (seq s + 1)) (phys s) (logc s) WIdle (rd s) (stored s) (S (done_ix s))
  end.

(** One access of [load]; a returned reader starts its next call *)
Definition load_step (s : state) : reader :=
  match rd s with
  | RIdle | RReturned _ _ => RLoopHead (done_ix s)
  | RLoopHead b =>
      if negb (seq s mod 2 =? 0) then RLoopHead b else RGotSeq b (seq s)
  | RGotSeq b s1 => RGotPhys b s1 (phys s)
  | RGotPhys b s1 p => RGotLogical b s1 p (logc s)
  | RGotLogical b s1 p l => if s1 =? seq s then RReturned b (mkTs p l) else RLoopHead b
  end.

Definition set_rd (r : reader) (s : state) : state :=
  mkState (seq s) (phys s) (logc s) (wr s) r (stored s) (done_ix s).

Inductive step : state -> state -> Prop :=
| step_store arg s : step s (store_step arg s)
| step_load s : step s (set_rd (load_step s) s).

Definition reachable (init : Ts) : state -> Prop := rtc step (new init).

Definition busy (w : writer) : Z := match w with WIdle => 0 | _ => 1 end.

(** What the writer's program point says about memory and the history *)
Definition writer_inv (s : state) : Prop :=
  exists cur, stored s !! done_ix s = Some cur /\
  match wr s with
  | WIdle => length (stored s) = S (done_ix s) /\ phys s = physical_ms cur /\ logc s = logical cur
  | WSeqBumped ts =>
      length (stored s) = S (S (done_ix s)) /\ stored s !! S (done_ix s) = Some ts /\
      phys s = physical_ms cur /\ logc s = logical cur
  | WPhysStored ts =>
      length (stored s) = S (S (done_ix s)) /\ stored s !! S (done_ix s) = Some ts /\
      phys s = physical_ms ts
  | WLogicalStored ts =>
      length (stored s) = S (S (done_ix s)) /\ stored s !! S (done_ix s) = Some ts /\
      phys s = physical_ms ts /\ logc s = logical ts
  end.

(** The reader saw version [s1] when [n] stores had completed; as long as no
    store has begun since, what it has read belongs to store [n]. *)
Definition saw (s : state) (b : nat) (s1 : Z) (fields : Ts -> Prop) : Prop :=
  exists n, (b <= n <= done_ix s)%nat /\ s1 = as_u 64 (2 * Z.of_nat n) /\
  (n = done_ix s -> wr s = WIdle -> forall cur, stored s !! n = Some cur -> fields cur).

Definition reader_inv (s : state) : Prop :=
  match rd s with
  | RIdle => True
  | RLoopHead b => (b <= done_ix s)%nat
  | RGotSeq b s1 => saw s b s1 (fun _ => True)
  | RGotPhys b s1 p => saw s b s1 (fun cur => p = physical_ms cur)
  | RGotLogical b s1 p l => saw s b s1 (fun cur => p = physical_ms cur /\ l = logical cur)
  | RReturned b ts => exists n, (b <= n <= done_ix s)%nat /\ stored s !! n = Some ts
  end.

Definition inv (s : state) : Prop :=
  seq s = as_u 64 (2 * Z.of_nat (done_ix s) + busy (wr s)) /\ writer_inv s /\ reader_inv s.

(** Fewer than 2^63 completed stores: the version counter has not wrapped *)
Definition no_wrap (s : state) : Prop := 2 * Z.of_nat (done_ix s) + 1 < 2 ^ 64.

Lemma inv_new ts : inv (new ts).
Proof.
  split_and!; [reflexivity| |exact I]. exists ts. done.
Qed.

Lemma as_u_succ w z : 0 < w -> as_u w (as_u w z + 1) = as_u w (z + 1).
Proof.
  intros. unfold as_u. rewrite Zplus_mod_idemp_l. done.
Qed.

(** A store step moves [done] forward and never rewrites the history. *)
Lemma store_step_mono arg s :
  let s' := store_step arg s in
  (done_ix s <= done_ix s')%nat /\ rd s' = rd s /\
  (forall n x, stored s !! n = Some x -> stored s' !! n = Some x) /\
  (wr s' = WIdle -> (done_ix s < done_ix s')%nat).
Proof.
  unfold store_step. destruct (wr s); simpl; split_and!; try done; try lia.
  intros n x Hn. by apply lookup_app_l_Some.
Qed.

Lemma saw_store arg s b s1 P : saw s b s1 P -> saw (store_step arg s) b s1 P.
Proof.
  intros (n & Hn & Hs & _). destruct (store_step_mono arg s) as (Hd & _ & _ & Hw).
  exists n. split_and!; [lia..|done|]. intros -> Hi. specialize (Hw Hi). lia.
Qed.

Lemma inv_store arg s : inv s -> inv (store_step arg s).
Proof.
  intros (Hseq & (cur & Hcur & Hw) & Hr).
  destruct (store_step_mono arg s) as (Hd & Hrd & Hst & _). split_and!.
  - unfold store_step. rewrite Hseq. destruct (wr s); simpl; try done;
      rewrite as_u_succ by lia; f_equal; lia.
  - unfold writer_inv, store_step in *.
    destruct (wr s) as [|ts|ts|ts]; simpl; destruct_and!.
    + exists cur. rewrite length_app. simpl.
      split_and!; try done; [by apply lookup_app_l_Some|lia|].
      rewrite lookup_app_r by lia. by replace (_ - _)%nat with 0%nat by lia.
    + exists cur. done.
    + exists cur. done.
    + exists ts. done.
  - unfold reader_inv in *. rewrite Hrd.
    destruct (rd s); try done; try (by apply saw_store); [lia|].
    destruct Hr as (n & ? & ?). exists n. split; [lia|auto].
Qed.

Lemma version_even s : inv s -> seq s mod 2 = 0 -> wr s = WIdle.
Proof.
  intros (Hseq & _) He. rewrite Hseq in He. unfold as_u in He.
  destruct (wr s); [done|exfalso..]; simpl busy in He;
    Z.to_euclidean_division_equations; lia.
Qed.

Lemma version_same s n :
  inv s -> no_wrap s -> (n <= done_ix s)%nat ->
  as_u 64 (2 * Z.of_nat n) = seq s -> n = done_ix s /\ wr s = WIdle.
Proof.
  intros (Hseq & _) Hnw Hn. rewrite Hseq. unfold no_wrap in Hnw. unfold as_u.
  rewrite !Z.mod_small by (destruct (wr s); simpl; lia).
  destruct (wr s); simpl; intros; split; try done; lia.
Qed.

Lemma inv_load s : no_wrap s -> inv s -> inv (set_rd (load_step s) s).
Proof.
  intros Hnw Hinv. pose proof Hinv as (Hseq & Hw & Hr). split_and!; [done|done|].
  unfold reader_inv, load_step in *. simpl.
  destruct Hw as (cur & Hcur & Hw).
  destruct (rd s) as [|b|b s1|b s1 p|b s1 p l|b ts] eqn:E; simpl; [lia| | | | |lia].
  - destruct (Z.eqb_spec (seq s mod 2) 0) as [He|He]; simpl; [|done].
    exists (done_ix s). simpl. pose proof (version_even _ Hinv He) as Hi.
    rewrite Hseq, Hi. simpl. split_and!; try lia; try done. f_equal. lia.
  - destruct Hr as (n & Hn & Hs & _). exists n. split_and!; try done; simpl in *; try lia.
    intros -> Hi c Hc. rewrite Hi in Hw. simplify_eq. tauto.
  - destruct Hr as (n & Hn & Hs & Hf). exists n. split_and!; try done; simpl in *; try lia.
    intros -> Hi c Hc. rewrite Hi in Hw. simplify_eq. split; [by apply Hf|tauto].
  - destruct (Z.eqb_spec s1 (seq s)) as [Hs1|_]; simpl; destruct Hr as (n & Hn & Hs & Hf); [|lia].
    destruct (version_same s n Hinv Hnw) as [-> Hi]; [lia|congruence|].
    exists (done_ix s). simpl. split; [lia|]. destruct (Hf eq_refl Hi cur Hcur) as [-> ->].
    rewrite Hcur. by destruct cur.
Qed.

Lemma done_mono s s' : step s s' -> (done_ix s <= done_ix s')%nat.
Proof. destruct 1; simpl; [apply store_step_mono|lia]. Qed.

Lemma inv_reachable init s : reachable init s -> no_wrap s -> inv s.
Proof.
  unfold reachable. revert s.
  apply (rtc_ind_r (fun s => no_wrap s -> inv s)).
  - intros _. apply inv_new.
  - intros s s' _ Hst IH Hnw. pose proof (done_mono _ _ Hst).
    assert (no_wrap s) by (unfold no_wrap in *; lia).
    destruct Hst; [apply inv_store|apply inv_load]; auto.
Qed.

(** C31: seqlock loads are never torn and are linearizable.  In every
    interleaving of the single writer's stores with a load, before the version
    counter wraps, a returned [Ts] is one value that was stored as a whole: the
    value of the last store completed at some moment between the beginning of
    the load and now. *)
Theorem seqlock_no_torn_read init s b ts :
  reachable init s -> no_wrap s -> rd s = RReturned b ts ->
  exists n, (b <= n <= done_ix s)%nat /\ stored s !! n = Some ts.
Proof.
  intros Hr Hnw Hrd. destruct (inv_reachable _ _ Hr Hnw) as (_ & _ & Hi).
  unfold reader_inv in Hi. by rewrite Hrd in Hi.
Qed.

(** Runs a schedule: [Some arg] is a writer step, [None] a reader step. *)
Fixpoint run_schedule (sched : list (option Ts)) (s : state) : state :=
  match sched with
  | [] => s
  | Some arg :: t => run_schedule t (store_step arg s)
  | None :: t => run_schedule t (set_rd (load_step s) s)
  end.

Lemma run_schedule_reachable sched s : rtc step s (run_schedule sched s).
Proof.
  revert s. induction sched as [|[arg|] t IH]; intros s; simpl; [constructor| |];
    (eapply rtc_l; [|apply IH]); constructor.
Qed.

(** A load that meets a store in progress, retries and returns the new value *)
Lemma seqlock_no_torn_read_witness :
  let a := mkTs 1 1 in let b := mkTs 2 7 in
  let sched := [None; None; None; Some b; Some b; Some b; None; None; None; Some b; None; None; None; None] in
  let s := run_schedule sched (new a) in
  rd s = RReturned 0 b /\ exists n, (0 <= n <= done_ix s)%nat /\ stored s !! n = Some b.
Proof.
  intros a b sched s. split; [reflexivity|].
  apply (seqlock_no_torn_read a s 0 b); [apply run_schedule_reachable|reflexivity|reflexivity].
Defined.

End AtomicTs.
