(* ===== verification/Crc.v ===== *)
(** * CRC32C

    The [crc32c] crate as an interface: a 32-bit checksum of a byte string and
    its incremental form.  The laws are what the crate documents.  An instance
    computed bit by bit (the reflected Castagnoli polynomial) shows the laws
    can hold and makes the codecs executable. *)

From S2P Require Import Prelude Bytes.

#[local] Open Scope Z_scope.

Class Crc32c := {
  crc32c : list Z -> Z;
  crc32c_append : Z -> list Z -> Z;
  crc32c_u32 l : is_u32 (crc32c l);
  crc32c_append_app a b : crc32c_append (crc32c a) b = crc32c (a ++ b)
}.

#[export] Hint Resolve crc32c_u32 : bytes.

Module Bitwise.

Definition step (c : Z) : Z :=
  if Z.odd c then Z.lxor 0x82F63B78 (Z.shiftr c 1) else Z.shiftr c 1.

Definition update (c b : Z) : Z := Nat.iter 8 step (Z.lxor c (b mod 256)).

Definition extend (c : Z) (l : list Z) : Z :=
  bit_not 32 (foldl update (bit_not 32 c) l).

Lemma step_u32 c : is_u32 c -> is_u32 (step c).
Proof.
  intros Hc. assert (is_u32 (Z.shiftr c 1)).
  { rewrite Z.shiftr_div_pow2 by lia. unfold is_u in *.
    split; [apply Z.div_pos|apply Z.div_lt_upper_bound]; lia. }
  unfold step. destruct (Z.odd c); [|done]. apply lxor_u; [lia|unfold is_u; lia|done].
Qed.

Lemma update_u32 c b : is_u32 c -> is_u32 (update c b).
Proof.
  intros Hc. unfold update.
  assert (is_u32 (Z.lxor c (b mod 256))) as Hx.
  { apply lxor_u; [lia|done|]. pose proof (Z.mod_pos_bound b 256). unfold is_u. lia. }
  revert Hx. generalize (Z.lxor c (b mod 256)). intros x Hx. simpl.
  repeat (apply step_u32). done.
Qed.

Lemma foldl_update_u32 l c : is_u32 c -> is_u32 (foldl update c l).
Proof. revert c. induction l; intros; simpl; auto using update_u32. Qed.

Lemma extend_u32 c l : is_u32 c -> is_u32 (extend c l).
Proof. intros. by apply bit_not_u, foldl_update_u32, bit_not_u. Qed.

Lemma extend_app a b : extend (extend 0 a) b = extend 0 (a ++ b).
Proof. unfold extend. by rewrite bit_not_involutive, foldl_app. Qed.

Definition crc32c_bitwise : Crc32c := {|
  crc32c := extend 0;
  crc32c_append := extend;
  crc32c_u32 l := extend_u32 0 l (conj (Z.le_refl 0) eq_refl);
  crc32c_append_app := extend_app
|}.

(** The check value of the CRC-32C catalogue entry, over "123456789" *)
Example crc32c_check : extend 0 [49; 50; 51; 52; 53; 54; 55; 56; 57] = 0xE3069283.
Proof. vm_compute. reflexivity. Qed.

End Bitwise.
