(* ===== verification/Page.v ===== *)
(** * Page headers and checksums ([storage/page.rs])

    The three page kinds: their headers to and from bytes, their type checks
    and their CRC32C coverage. *)

From S2P Require Import Prelude Bytes Crc.

#[local] Open Scope Z_scope.

Definition PAGE_TYPE_INTERNAL := 0x01.
Definition PAGE_TYPE_LEAF := 0x02.
Definition PAGE_TYPE_OVERFLOW := 0x05.
Definition PAGE_SIZE_INTERNAL := 4096.
Definition PAGE_SIZE_LEAF := 32768.
Definition INTERNAL_HEADER_SIZE := 12.
Definition LEAF_HEADER_SIZE := 20.
Definition OVERFLOW_HEADER_SIZE := 20.
Definition LEAF_FLAG_HAS_OVERFLOW := 0x01.
Definition VALUE_TYPE_INLINE := 0x01.
Definition VALUE_TYPE_OVERFLOW := 0x02.

(** ** Internal pages *)

Record InternalPageHeader : Set := mkInternalPageHeader {
  ih_page_type : Z; ih_level : Z; ih_key_count : Z; ih_checksum : Z; ih_rightmost_child : Z }.

Definition internal_from_bytes (buf : list Z) : Result InternalPageHeader :=
  reject_if (len buf <? INTERNAL_HEADER_SIZE) (Internal "internal page buffer too short");;
  page_type ← index buf 0;
  level ← index buf 1;
  key_count ← read_le buf 2 2;
  checksum ← read_le buf 4 4;
  rightmost_child ← read_le buf 8 4;
  Ok (mkInternalPageHeader page_type level key_count checksum rightmost_child).

Definition internal_write_to (h : InternalPageHeader) (buf : list Z) : Result (list Z) :=
  buf ← write_at buf 0 [ih_page_type h];
  buf ← write_at buf 1 [ih_level h];
  buf ← write_at buf 2 (le_bytes 2 (ih_key_count h));
  buf ← write_at buf 4 (le_bytes 4 (ih_checksum h));
  write_at buf 8 (le_bytes 4 (ih_rightmost_child h)).

Definition internal_validate_type (h : InternalPageHeader) : Result unit :=
  reject_if (negb (ih_page_type h =? PAGE_TYPE_INTERNAL)) (Internal "expected internal page type").

(** ** Leaf pages *)

Record LeafPageHeader : Set := mkLeafPageHeader {
  lh_page_type : Z; lh_flags : Z; lh_entry_count : Z; lh_checksum : Z;
  lh_next_leaf_page : Z; lh_prev_leaf_page : Z;
  lh_free_space_offset : Z; lh_cell_ptr_offset : Z }.

Definition leaf_from_bytes (buf : list Z) : Result LeafPageHeader :=
  reject_if (len buf <? LEAF_HEADER_SIZE) (Internal "leaf page buffer too short");;
  page_type ← index buf 0;
  flags ← index buf 1;
  entry_count ← read_le buf 2 2;
  checksum ← read_le buf 4 4;
  next_leaf_page ← read_le buf 8 4;
  prev_leaf_page ← read_le buf 12 4;
  free_space_offset ← read_le buf 16 2;
  cell_ptr_offset ← read_le buf 18 2;
  Ok (mkLeafPageHeader page_type flags entry_count checksum next_leaf_page prev_leaf_page
        free_space_offset cell_ptr_offset).

Definition leaf_write_to (h : LeafPageHeader) (buf : list Z) : Result (list Z) :=
  buf ← write_at buf 0 [lh_page_type h];
  buf ← write_at buf 1 [lh_flags h];
  buf ← write_at buf 2 (le_bytes 2 (lh_entry_count h));
  buf ← write_at buf 4 (le_bytes 4 (lh_checksum h));
  buf ← write_at buf 8 (le_bytes 4 (lh_next_leaf_page h));
  buf ← write_at buf 12 (le_bytes 4 (lh_prev_leaf_page h));
  buf ← write_at buf 16 (le_bytes 2 (lh_free_space_offset h));
  write_at buf 18 (le_bytes 2 (lh_cell_ptr_offset h)).

Definition leaf_validate_type (h : LeafPageHeader) : Result unit :=
  reject_if (negb (lh_page_type h =? PAGE_TYPE_LEAF)) (Internal "expected leaf page type").

(** ** Overflow pages *)

Record OverflowPageHeader : Set := mkOverflowPageHeader {
  oh_page_type : Z; oh_refcount : Z; oh_checksum : Z;
  oh_next_overflow_page : Z; oh_data_length : Z }.

Definition overflow_from_bytes (buf : list Z) : Result OverflowPageHeader :=
  reject_if (len buf <? OVERFLOW_HEADER_SIZE) (Internal "overflow page buffer too short");;
  page_type ← index buf 0;
  refcount ← read_le buf 4 4;
  checksum ← read_le buf 8 4;
  next_overflow_page ← read_le buf 12 4;
  data_length ← read_le buf 16 4;
  Ok (mkOverflowPageHeader page_type refcount checksum next_overflow_page data_length).

Definition overflow_write_to (h : OverflowPageHeader) (buf : list Z) : Result (list Z) :=
  buf ← write_at buf 0 [oh_page_type h];
  buf ← write_at buf 1 (zeros 3);
  buf ← write_at buf 4 (le_bytes 4 (oh_refcount h));
  buf ← write_at buf 8 (le_bytes 4 (oh_checksum h));
  buf ← write_at buf 12 (le_bytes 4 (oh_next_overflow_page h));
  write_at buf 16 (le_bytes 4 (oh_data_length h)).

Definition overflow_validate_type (h : OverflowPageHeader) : Result unit :=
  reject_if (negb (oh_page_type h =? PAGE_TYPE_OVERFLOW)) (Internal "expected overflow page type").

(** ** Checksums *)

Section Checksum.
Context `{Crc32c}.

(** Bytes 0..4 and 8.. of the page *)
Definition internal_page_checksum (page : list Z) : Z :=
  let digest := crc32c (get page 0 4) in crc32c_append digest (get page 8 (len page - 8)).

Definition leaf_page_checksum (page : list Z) : Z :=
  let digest := crc32c (get page 0 4) in crc32c_append digest (get page 8 (len page - 8)).

(** Bytes 0..4 and 12.. of the page: neither the refcount nor the field itself *)
Definition overflow_page_checksum (page : list Z) : Z :=
  let digest := crc32c (get page 0 4) in crc32c_append digest (get page 12 (len page - 12)).

End Checksum.

(** ** Round trips *)

(** The header as one byte string *)
Definition internal_header_bytes (h : InternalPageHeader) : list Z :=
  ((([ih_page_type h] ++ [ih_level h]) ++ le_bytes 2 (ih_key_count h)) ++
    le_bytes 4 (ih_checksum h)) ++ le_bytes 4 (ih_rightmost_child h).

Definition leaf_header_bytes (h : LeafPageHeader) : list Z :=
  (((((([lh_page_type h] ++ [lh_flags h]) ++ le_bytes 2 (lh_entry_count h)) ++
    le_bytes 4 (lh_checksum h)) ++ le_bytes 4 (lh_next_leaf_page h)) ++
    le_bytes 4 (lh_prev_leaf_page h)) ++ le_bytes 2 (lh_free_space_offset h)) ++
    le_bytes 2 (lh_cell_ptr_offset h).

Definition overflow_header_bytes (h : OverflowPageHeader) : list Z :=
  (((([oh_page_type h] ++ zeros 3) ++ le_bytes 4 (oh_refcount h)) ++
    le_bytes 4 (oh_checksum h)) ++ le_bytes 4 (oh_next_overflow_page h)) ++
    le_bytes 4 (oh_data_length h).

Lemma internal_write_to_eq h buf :
  12 <= len buf -> internal_write_to h buf = Ok (put buf 0 (internal_header_bytes h)).
Proof. intros. unfold internal_write_to. by write_chain. Qed.

Lemma leaf_write_to_eq h buf :
  20 <= len buf -> leaf_write_to h buf = Ok (put buf 0 (leaf_header_bytes h)).
Proof. intros. unfold leaf_write_to. by write_chain. Qed.

Lemma len_zeros_3 : len (zeros 3) = 3.
Proof. reflexivity. Qed.
#[local] Hint Rewrite len_zeros_3 : len.

Lemma overflow_write_to_eq h buf :
  20 <= len buf -> overflow_write_to h buf = Ok (put buf 0 (overflow_header_bytes h)).
Proof. intros. unfold overflow_write_to. by write_chain. Qed.

Definition leaf_header_wf (h : LeafPageHeader) : Prop :=
  is_u8 (lh_page_type h) /\ is_u8 (lh_flags h) /\ is_u16 (lh_entry_count h) /\
  is_u32 (lh_checksum h) /\ is_u32 (lh_next_leaf_page h) /\ is_u32 (lh_prev_leaf_page h) /\
  is_u16 (lh_free_space_offset h) /\ is_u16 (lh_cell_ptr_offset h).

Definition internal_header_wf (h : InternalPageHeader) : Prop :=
  is_u8 (ih_page_type h) /\ is_u8 (ih_level h) /\ is_u16 (ih_key_count h) /\
  is_u32 (ih_checksum h) /\ is_u32 (ih_rightmost_child h).

Definition overflow_header_wf (h : OverflowPageHeader) : Prop :=
  is_u8 (oh_page_type h) /\ is_u32 (oh_refcount h) /\ is_u32 (oh_checksum h) /\
  is_u32 (oh_next_overflow_page h) /\ is_u32 (oh_data_length h).

Lemma leaf_from_bytes_holds buf h :
  leaf_header_wf h -> holds buf 0 (leaf_header_bytes h) -> leaf_from_bytes buf = Ok h.
Proof.
  intros (? & ? & ? & ? & ? & ? & ? & ?) Hb. pose proof Hb as (_ & Hl & _).
  change (len (leaf_header_bytes h)) with 20 in Hl.
  unfold leaf_from_bytes, LEAF_HEADER_SIZE.
  rewrite (proj2 (Z.ltb_ge (len buf) 20)), reject_if_false, bind_Ok by lia.
  rewrite !(index_holds _ _ _ _ Hb), !(read_le_holds _ _ _ _ _ Hb)
    by (change (len (leaf_header_bytes h)) with 20; lia).
  destruct h as [pt fl ec cs nx pv fs cp].
  transitivity (Ok (mkLeafPageHeader pt fl (from_le (le_bytes 2 ec)) (from_le (le_bytes 4 cs))
    (from_le (le_bytes 4 nx)) (from_le (le_bytes 4 pv)) (from_le (le_bytes 2 fs))
    (from_le (le_bytes 2 cp)))); [reflexivity|].
  by rewrite !from_le_u16, !from_le_u32.
Qed.

Lemma internal_from_bytes_holds buf h :
  internal_header_wf h -> holds buf 0 (internal_header_bytes h) -> internal_from_bytes buf = Ok h.
Proof.
  intros (? & ? & ? & ? & ?) Hb. pose proof Hb as (_ & Hl & _).
  change (len (internal_header_bytes h)) with 12 in Hl.
  unfold internal_from_bytes, INTERNAL_HEADER_SIZE.
  rewrite (proj2 (Z.ltb_ge (len buf) 12)), reject_if_false, bind_Ok by lia.
  rewrite !(index_holds _ _ _ _ Hb), !(read_le_holds _ _ _ _ _ Hb)
    by (change (len (internal_header_bytes h)) with 12; lia).
  destruct h as [pt lv kc cs rc].
  transitivity (Ok (mkInternalPageHeader pt lv (from_le (le_bytes 2 kc)) (from_le (le_bytes 4 cs))
    (from_le (le_bytes 4 rc)))); [reflexivity|].
  by rewrite !from_le_u16, !from_le_u32.
Qed.

Lemma overflow_from_bytes_holds buf h :
  overflow_header_wf h -> holds buf 0 (overflow_header_bytes h) -> overflow_from_bytes buf = Ok h.
Proof.
  intros (? & ? & ? & ? & ?) Hb. pose proof Hb as (_ & Hl & _).
  change (len (overflow_header_bytes h)) with 20 in Hl.
  unfold overflow_from_bytes, OVERFLOW_HEADER_SIZE.
  rewrite (proj2 (Z.ltb_ge (len buf) 20)), reject_if_false, bind_Ok by lia.
  rewrite !(index_holds _ _ _ _ Hb), !(read_le_holds _ _ _ _ _ Hb)
    by (change (len (overflow_header_bytes h)) with 20; lia).
  destruct h as [pt rf cs nx dl].
  transitivity (Ok (mkOverflowPageHeader pt (from_le (le_bytes 4 rf)) (from_le (le_bytes 4 cs))
    (from_le (le_bytes 4 nx)) (from_le (le_bytes 4 dl)))); [reflexivity|].
  by rewrite !from_le_u32.
Qed.

Section ChecksumLemmas.
Context `{Crc32c}.

(** What lies outside the coverage does not change the checksum. *)
Lemma leaf_checksum_put page cs :
  len page = PAGE_SIZE_LEAF -> len cs = 4 ->
  leaf_page_checksum (put page 4 cs) = leaf_page_checksum page.
Proof.
  unfold PAGE_SIZE_LEAF. intros Hl Hc. unfold leaf_page_checksum.
  rewrite len_put by lia. rewrite get_put_before, get_put_after by lia. done.
Qed.

Lemma overflow_checksum_put page refs :
  len page = PAGE_SIZE_LEAF -> len refs = 4 ->
  overflow_page_checksum (put page 4 refs) = overflow_page_checksum page.
Proof.
  unfold PAGE_SIZE_LEAF. intros Hl Hc. unfold overflow_page_checksum.
  rewrite len_put by lia. rewrite get_put_before, get_put_after by lia. done.
Qed.

End ChecksumLemmas.
