(* ===== verification/LeafNode.v ===== *)
(** * Leaf pages ([storage/btree/leaf_node.rs], [layout.rs], [classify.rs])

    The parsed leaf, its 32 KiB encoding (cells written backwards from the end
    of the page, a sorted pointer array after the header), the parser, and the
    point lookup by binary search over the raw page. *)

From S2P Require Import Prelude Bytes Crc Page.

#[local] Open Scope Z_scope.

(** ** Layout arithmetic ([layout.rs]) *)

Definition OVERFLOW_THRESHOLD := 30 * 1024.
Definition OVERFLOW_PAGE_DATA := PAGE_SIZE_LEAF - OVERFLOW_HEADER_SIZE.
Definition MIN_LEAF_CELLS := 4.
Definition MIN_LEAF_BYTES := PAGE_SIZE_LEAF / 2.

Definition leaf_cell_value_size (value_len : Z) : Z :=
  if OVERFLOW_THRESHOLD <? value_len then 8 else 4 + value_len.

Definition leaf_cell_encoded_size (key_len value_size : Z) : Z := 2 + key_len + 1 + value_size.

(** ** Cells and nodes *)

Inductive CellValue : Set :=
| Inline (v : list Z)
| Overflow (first_page total_length : Z).

#[export] Instance CellValue_eq_dec : EqDecision CellValue.
Proof. solve_decision. Defined.

Record LeafCell : Set := mkLeafCell { cell_key : list Z; cell_val : CellValue }.

Record LeafNode : Set := mkLeafNode {
  flags : Z; next_leaf_page : Z; prev_leaf_page : Z; cells : list LeafCell }.

Definition cell_encoded_size (c : LeafCell) : Z :=
  let value_size := match cell_val c with Inline v => 4 + len v | Overflow _ _ => 8 end in
  leaf_cell_encoded_size (len (cell_key c)) value_size.

Definition sum_sizes (cs : list LeafCell) : Z := foldr (fun c s => cell_encoded_size c + s) 0 cs.

Definition used_bytes_for_cells (cs : list LeafCell) : Z :=
  LEAF_HEADER_SIZE + len cs * 2 + sum_sizes cs.

Definition used_bytes (n : LeafNode) : Z := used_bytes_for_cells (cells n).
Definition free_bytes (n : LeafNode) : Z := PAGE_SIZE_LEAF - used_bytes n.
Definition can_insert (n : LeafNode) (cell_size : Z) : bool := cell_size + 2 <=? free_bytes n.
Definition needs_rebalance (n : LeafNode) : bool :=
  (len (cells n) <? MIN_LEAF_CELLS) || (used_bytes n <? MIN_LEAF_BYTES).

(** ** Parsing *)

Definition cell_value_at (data : list Z) (offset : Z) : Result CellValue :=
  reject_if (len data <? offset + 2) (Internal "leaf cell offset is out of bounds");;
  key_len ← read_le data offset 2;
  let pos := offset + 2 in
  reject_if (len data <? pos + key_len + 1) (Internal "leaf cell: key or value_type out of bounds");;
  value_type ← index data (pos + key_len);
  let value_pos := pos + key_len + 1 in
  if value_type =? VALUE_TYPE_INLINE then
    reject_if (len data <? value_pos + 4) (Internal "leaf cell: inline bson_len out of bounds");;
    bson_len ← read_le data value_pos 4;
    let data_start := value_pos + 4 in
    reject_if (len data <? data_start + bson_len) (Internal "leaf cell: inline bson data out of bounds");;
    v ← slice data data_start (data_start + bson_len);
    Ok (Inline v)
  else if value_type =? VALUE_TYPE_OVERFLOW then
    reject_if (len data <? value_pos + 8) (Internal "leaf cell: overflow pointer out of bounds");;
    first_page ← read_le data value_pos 4;
    total_length ← read_le data (value_pos + 4) 4;
    Ok (Overflow first_page total_length)
  else Err (Internal "unknown cell value type").

Definition parse_cell (data : list Z) (offset : Z) : Result LeafCell :=
  reject_if (len data <? offset + 2) (Internal "leaf cell offset is out of bounds");;
  key_len ← read_le data offset 2;
  let pos := offset + 2 in
  reject_if (len data <? pos + key_len + 1) (Internal "leaf cell: key or value_type out of bounds");;
  key ← slice data pos (pos + key_len);
  value ← cell_value_at data offset;
  Ok (mkLeafCell key value).

(** [for i in i..n]: [count] iterations from [i] *)
Fixpoint parse_cells (data : list Z) (i : Z) (count : nat) : Result (list LeafCell) :=
  match count with
  | O => Ok []
  | S count' =>
      let ptr_offset := LEAF_HEADER_SIZE + i * 2 in
      cell_offset ← read_le data ptr_offset 2;
      cell ← parse_cell data cell_offset;
      rest ← parse_cells data (i + 1) count';
      Ok (cell :: rest)
  end.

(** The release build, in which the assertion on the cells is compiled out *)
Definition parse (data : list Z) : Result LeafNode :=
  hdr ← leaf_from_bytes data;
  leaf_validate_type hdr;;
  let n := lh_entry_count hdr in
  reject_if (len data <? LEAF_HEADER_SIZE + n * 2)
    (Internal "leaf page: cell pointer array out of bounds");;
  cells ← parse_cells data 0 (Z.to_nat n);
  Ok (mkLeafNode (lh_flags hdr) (lh_next_leaf_page hdr) (lh_prev_leaf_page hdr) cells).

(** [cells.windows(2).all(|w| w[0].key <= w[1].key)] *)
Fixpoint keys_ascending (cs : list LeafCell) : bool :=
  match cs with
  | a :: ((b :: _) as rest) => lex_leb (cell_key a) (cell_key b) && keys_ascending rest
  | _ => true
  end.

(** The parser with its [debug_assert!] switched on or off *)
Definition parse_build (debug_assertions : bool) (data : list Z) : Result LeafNode :=
  node ← parse data;
  if debug_assertions && negb (keys_ascending (cells node)) then Panic else Ok node.

(** ** Point lookup on the raw page *)

Definition cell_offset_at (data : list Z) (index : Z) : Result Z :=
  let ptr_offset := LEAF_HEADER_SIZE + index * 2 in
  reject_if (len data <? ptr_offset + 2) (Internal "leaf page: cell pointer out of bounds");;
  read_le data ptr_offset 2.

Definition cell_key_at (data : list Z) (index : Z) : Result (list Z) :=
  offset ← cell_offset_at data index;
  reject_if (len data <? offset + 2) (Internal "leaf cell offset is out of bounds");;
  key_len ← read_le data offset 2;
  let pos := offset + 2 in
  reject_if (len data <? pos + key_len) (Internal "leaf cell: key out of bounds");;
  slice data pos (pos + key_len).

(** The [while left < right] loop; the interval shrinks, so [right - left]
    iterations are enough ([search_loop_page], [search_loop_no_panic]). *)
Fixpoint search_loop (fuel : nat) (data key : list Z) (left right : Z) : Result (option CellValue) :=
  if left <? right then
    match fuel with
    | O => Panic
    | S fuel' =>
        let mid := left + (right - left) / 2 in
        mid_key ← cell_key_at data mid;
        match lex_cmp mid_key key with
        | Lt => search_loop fuel' data key (mid + 1) right
        | Eq =>
            offset ← cell_offset_at data mid;
            v ← cell_value_at data offset;
            Ok (Some v)
        | Gt => search_loop fuel' data key left mid
        end
    end
  else Ok None.

Definition cell_value (data key : list Z) : Result (option CellValue) :=
  hdr ← leaf_from_bytes data;
  leaf_validate_type hdr;;
  let n := lh_entry_count hdr in
  reject_if (len data <? LEAF_HEADER_SIZE + n * 2)
    (Internal "leaf page: cell pointer array out of bounds");;
  search_loop (Z.to_nat n) data key 0 n.

(** ** Encoding *)

Definition is_overflow (c : LeafCell) : bool :=
  match cell_val c with Overflow _ _ => true | _ => false end.

(** The body of the cell loop, from cell [i] down from [write_pos] *)
Fixpoint encode_cells (cs : list LeafCell) (i write_pos : Z) (buf : list Z) : Result (list Z) :=
  match cs with
  | [] => Ok buf
  | cell :: rest =>
      let write_pos := write_pos - cell_encoded_size cell in
      let ptr_offset := LEAF_HEADER_SIZE + i * 2 in
      buf ← write_at buf ptr_offset (le_bytes 2 (as_u 16 write_pos));
      let key_len := len (cell_key cell) in
      buf ← write_at buf write_pos (le_bytes 2 (as_u 16 key_len));
      buf ← write_at buf (write_pos + 2) (cell_key cell);
      let vp := write_pos + 2 + key_len in
      buf ← match cell_val cell with
            | Inline bson =>
                buf ← write_at buf vp [VALUE_TYPE_INLINE];
                buf ← write_at buf (vp + 1) (le_bytes 4 (as_u 32 (len bson)));
                write_at buf (vp + 5) bson
            | Overflow first_page total_length =>
                buf ← write_at buf vp [VALUE_TYPE_OVERFLOW];
                buf ← write_at buf (vp + 1) (le_bytes 4 first_page);
                write_at buf (vp + 5) (le_bytes 4 total_length)
            end;
      encode_cells rest (i + 1) write_pos buf
  end.

Definition encoded_flags (n : LeafNode) : Z :=
  if existsb is_overflow (cells n) then Z.lor (flags n) LEAF_FLAG_HAS_OVERFLOW
  else Z.land (flags n) (bit_not 8 LEAF_FLAG_HAS_OVERFLOW).

Definition encode `{Crc32c} (n : LeafNode) : Result (list Z) :=
  reject_if (PAGE_SIZE_LEAF <? used_bytes n) (Internal "leaf node too large");;
  let count := len (cells n) in
  buf ← encode_cells (cells n) 0 PAGE_SIZE_LEAF (zeros PAGE_SIZE_LEAF);
  let free_space_offset := as_u 16 (LEAF_HEADER_SIZE + count * 2) in
  let hdr := mkLeafPageHeader PAGE_TYPE_LEAF (encoded_flags n) (as_u 16 count) 0
    (next_leaf_page n) (prev_leaf_page n) free_space_offset LEAF_HEADER_SIZE in
  buf ← leaf_write_to hdr buf;
  let cs := leaf_page_checksum buf in
  write_at buf 4 (le_bytes 4 cs).

(** ** Classifiers ([classify.rs]) *)

Definition leaf_can_insert_value (data : list Z) (key_len value_len : Z) : Result bool :=
  node ← parse data;
  Ok (can_insert node (leaf_cell_encoded_size key_len (leaf_cell_value_size value_len))).

(** [cells.binary_search_by(|c| c.key.cmp(key))] and [cells.remove(idx)], on
    cells sorted without duplicates *)
Definition remove_key (key : list Z) (cs : list LeafCell) : list LeafCell :=
  filter (fun c => cell_key c <> key) cs.

Definition leaf_needs_rebalance_after_delete (data key : list Z) : Result bool :=
  node ← parse data;
  Ok (needs_rebalance (mkLeafNode (flags node) (next_leaf_page node) (prev_leaf_page node)
        (remove_key key (cells node)))).

(** ** The encoder writes what the parser reads *)

Definition cell_bytes (c : LeafCell) : list Z :=
  (le_bytes 2 (len (cell_key c)) ++ cell_key c) ++
  match cell_val c with
  | Inline bson => ([VALUE_TYPE_INLINE] ++ le_bytes 4 (len bson)) ++ bson
  | Overflow fp tl => ([VALUE_TYPE_OVERFLOW] ++ le_bytes 4 fp) ++ le_bytes 4 tl
  end.

Definition cell_ok (c : LeafCell) : Prop :=
  match cell_val c with Inline _ => True | Overflow fp tl => is_u32 fp /\ is_u32 tl end.

Lemma cell_size_nonneg c : 3 <= cell_encoded_size c.
Proof.
  unfold cell_encoded_size, leaf_cell_encoded_size. pose proof (len_nonneg (cell_key c)).
  destruct (cell_val c) as [v|]; [pose proof (len_nonneg v)|]; lia.
Qed.

Lemma len_cell_bytes c : len (cell_bytes c) = cell_encoded_size c.
Proof.
  unfold cell_bytes, cell_encoded_size, leaf_cell_encoded_size.
  destruct (cell_val c); autorewrite with len; simpl Z.of_nat; lia.
Qed.

Lemma sum_sizes_nonneg cs : 0 <= sum_sizes cs.
Proof. induction cs as [|c cs IH]; simpl; [lia|]. pose proof (cell_size_nonneg c). lia. Qed.

(** One iteration of the cell loop *)
Lemma encode_cells_cons c cs i pos buf :
  let wp := pos - cell_encoded_size c in
  0 <= i -> 20 + (i + 1) * 2 <= wp -> pos <= len buf -> len buf = PAGE_SIZE_LEAF ->
  encode_cells (c :: cs) i pos buf =
  encode_cells cs (i + 1) wp
    (put (put buf (20 + i * 2) (le_bytes 2 wp)) wp (cell_bytes c)).
Proof.
  cbv zeta. intros Hi Hp Hb Hl. cbn [encode_cells]. unfold LEAF_HEADER_SIZE, PAGE_SIZE_LEAF in *.
  pose proof (cell_size_nonneg c).
  set (wp := pos - cell_encoded_size c) in *. assert (Hwp : wp + cell_encoded_size c = pos) by lia.
  unfold cell_encoded_size, leaf_cell_encoded_size in Hwp. pose proof (len_nonneg (cell_key c)).
  assert (Hw : as_u 16 wp = wp).
  { apply as_u_small. unfold is_u. lia. }
  rewrite Hw. rewrite write_at_Ok by (rewrite ?len_le_bytes; lia). rewrite bind_Ok.
  assert (Hl' : len (put buf (20 + i * 2) (le_bytes 2 wp)) = 32768)
    by (rewrite len_put; rewrite ?len_le_bytes; lia).
  revert Hl'. generalize (put buf (20 + i * 2) (le_bytes 2 wp)). intros b1 Hb1.
  unfold cell_bytes. destruct (cell_val c) as [v|fp tl].
  - pose proof (len_nonneg v). rewrite !as_u_small by (unfold is_u; lia).
    write_chain. rewrite <- !app_assoc. done.
  - rewrite !as_u_small by (unfold is_u; lia).
    write_chain. rewrite <- !app_assoc. done.
Qed.

(** The pointer of cell [k] and the cell it points to, on the page *)
Definition cell_at (buf : list Z) (k : Z) (c : LeafCell) : Prop :=
  exists off, is_u16 off /\ 20 <= off /\ holds buf (20 + k * 2) (le_bytes 2 off) /\ holds buf off (cell_bytes c).

Lemma encode_cells_spec cs : forall i pos buf,
  0 <= i -> 20 + (i + len cs) * 2 + sum_sizes cs <= pos -> pos <= len buf ->
  len buf = PAGE_SIZE_LEAF ->
  exists buf', encode_cells cs i pos buf = Ok buf' /\ len buf' = PAGE_SIZE_LEAF /\
    (forall base h, holds buf base h -> base + len h <= 20 + i * 2 \/ pos <= base -> holds buf' base h) /\
    (forall k c, cs !! k = Some c -> cell_at buf' (i + Z.of_nat k) c).
Proof.
  induction cs as [|c cs IH]; intros i pos buf Hi Hp Hb Hl.
  - exists buf. by split_and!.
  - rewrite len_cons in Hp. cbn [sum_sizes foldr] in Hp. fold (sum_sizes cs) in Hp.
    pose proof (len_nonneg cs). pose proof (sum_sizes_nonneg cs). pose proof (cell_size_nonneg c).
    rewrite encode_cells_cons by (done || lia).
    set (wp := pos - cell_encoded_size c).
    set (b1 := put buf (20 + i * 2) (le_bytes 2 wp)).
    assert (Hb1 : len b1 = PAGE_SIZE_LEAF) by (unfold b1; rewrite len_put; rewrite ?len_le_bytes; lia).
    assert (Hcell : wp + len (cell_bytes c) <= len b1) by (rewrite len_cell_bytes; lia).
    set (b2 := put b1 wp (cell_bytes c)).
    assert (Hb2 : len b2 = PAGE_SIZE_LEAF) by (unfold b2; rewrite len_put; lia).
    destruct (IH (i + 1) wp b2) as (buf' & He & Hlen & Hkeep & Hcells); try lia.
    exists buf'. split_and!; [done|done| |].
    + intros base h Hh Hout. apply Hkeep; [|lia]. pose proof (holds_bounds _ _ _ Hh).
      apply holds_put_other; [apply holds_put_other|..]; try lia; try done;
        rewrite ?len_le_bytes, ?len_cell_bytes; lia.
    + intros [|k] c' Hk; simpl in Hk.
      * simplify_eq. exists wp. replace (i + Z.of_nat 0) with i by lia. split_and!.
        -- unfold is_u, PAGE_SIZE_LEAF in *. lia.
        -- lia.
        -- apply Hkeep; [|rewrite len_le_bytes; lia]. apply holds_put_other; try done; try lia.
           ++ apply holds_put; rewrite ?len_le_bytes; lia.
           ++ rewrite len_le_bytes. lia.
        -- apply Hkeep; [|lia]. apply holds_put; [lia|done].
      * replace (i + Z.of_nat (S k)) with (i + 1 + Z.of_nat k) by lia. by apply Hcells.
Qed.

Lemma cell_value_at_holds data off c :
  cell_ok c -> holds data off (cell_bytes c) -> cell_encoded_size c <= PAGE_SIZE_LEAF ->
  cell_value_at data off = Ok (cell_val c).
Proof.
  intros Hc Hh Hsz. pose proof (holds_bounds _ _ _ Hh) as [? Hb]. rewrite len_cell_bytes in Hb.
  pose proof (len_nonneg (cell_key c)). unfold cell_value_at, cell_ok, PAGE_SIZE_LEAF in *.
  unfold cell_encoded_size, leaf_cell_encoded_size in *. unfold cell_bytes in Hh.
  rewrite !holds_app in Hh. destruct Hh as [[Hk Hkey] Hv]. rewrite len_app, len_le_bytes in *.
  change (Z.of_nat 2) with 2 in *.
  assert (0 <= match cell_val c with Inline v => 4 + len v | Overflow _ _ => 8 end)
    by (destruct (cell_val c) as [v|]; [pose proof (len_nonneg v)|]; lia).
  rewrite (proj2 (Z.ltb_ge (len data) (off + 2))), reject_if_false, bind_Ok by lia.
  rewrite (read_le_part _ _ 2 _ _ Hk) by (done || change (256 ^ Z.of_nat 2) with 65536; lia).
  rewrite bind_Ok. cbv zeta.
  rewrite (proj2 (Z.ltb_ge (len data) (off + 2 + len (cell_key c) + 1))), reject_if_false, bind_Ok by lia.
  rewrite Z.add_assoc in Hv. set (vp := off + 2 + len (cell_key c)) in *.
  destruct (cell_val c) as [v|fp tl].
  - pose proof (len_nonneg v). rewrite !holds_app in Hv. destruct Hv as [[Ht Hl] Hd].
    rewrite (index_part _ _ _ Ht), bind_Ok. change (VALUE_TYPE_INLINE =? VALUE_TYPE_INLINE) with true.
    cbv iota. rewrite (proj2 (Z.ltb_ge (len data) (vp + 1 + 4))), reject_if_false, bind_Ok by lia.
    change (len [VALUE_TYPE_INLINE]) with 1 in *.
    rewrite (read_le_part _ _ 4 _ _ Hl) by (done || change (256 ^ Z.of_nat 4) with (2 ^ 32); lia).
    rewrite bind_Ok. rewrite (proj2 (Z.ltb_ge (len data) (vp + 1 + 4 + len v))), reject_if_false, bind_Ok by lia.
    rewrite len_app, len_le_bytes in Hd. change (len [VALUE_TYPE_INLINE] + Z.of_nat 4) with 5 in Hd.
    replace (vp + 1 + 4) with (vp + 5) by lia. by rewrite (slice_part _ _ _ _ Hd).
  - rewrite !holds_app in Hv. destruct Hv as [[Ht Hl] Hd], Hc as [Hc1 Hc2].
    rewrite (index_part _ _ _ Ht), bind_Ok.
    change (VALUE_TYPE_OVERFLOW =? VALUE_TYPE_INLINE) with false.
    change (VALUE_TYPE_OVERFLOW =? VALUE_TYPE_OVERFLOW) with true. cbv iota.
    rewrite (proj2 (Z.ltb_ge (len data) (vp + 1 + 8))), reject_if_false, bind_Ok by lia.
    change (len [VALUE_TYPE_OVERFLOW]) with 1 in *.
    rewrite (read_le_part _ _ 4 _ _ Hl), bind_Ok by done.
    rewrite len_app, len_le_bytes in Hd. change (len [VALUE_TYPE_OVERFLOW] + Z.of_nat 4) with 5 in Hd.
    replace (vp + 1 + 4) with (vp + 5) by lia. by rewrite (read_le_part _ _ 4 _ _ Hd).
Qed.

(** A guard [if len < x { return Err }] that the context shows not taken *)
Ltac pass_guard :=
  match goal with
  | |- context [reject_if (?a <? ?b) _] =>
      rewrite (proj2 (Z.ltb_ge a b)) by (unfold LEAF_HEADER_SIZE in *; lia);
      rewrite reject_if_false, bind_Ok
  end.

Lemma parse_cell_holds data off c :
  cell_ok c -> holds data off (cell_bytes c) -> cell_encoded_size c <= PAGE_SIZE_LEAF ->
  parse_cell data off = Ok c.
Proof.
  intros Hc Hh Hsz. unfold parse_cell. pose proof (cell_value_at_holds _ _ _ Hc Hh Hsz) as Hval.
  pose proof (holds_bounds _ _ _ Hh) as [? Hb]. rewrite len_cell_bytes in Hb.
  pose proof (len_nonneg (cell_key c)). pose proof (cell_size_nonneg c).
  assert (3 + len (cell_key c) <= cell_encoded_size c).
  { unfold cell_encoded_size, leaf_cell_encoded_size.
    destruct (cell_val c) as [v|]; [pose proof (len_nonneg v)|]; lia. }
  unfold cell_bytes in Hh. rewrite !holds_app in Hh. destruct Hh as [[Hk Hkey] _].
  rewrite len_le_bytes in Hkey. change (Z.of_nat 2) with 2 in *. unfold PAGE_SIZE_LEAF in *.
  pass_guard.
  rewrite (read_le_part _ _ 2 _ _ Hk), bind_Ok by (done || change (256 ^ Z.of_nat 2) with 65536; lia).
  cbv zeta. pass_guard. rewrite (slice_part _ _ _ _ Hkey), bind_Ok by done.
  rewrite Hval, bind_Ok. by destruct c.
Qed.

(** The page [buf] carries exactly the cells [cs]. *)
Definition page_cells (buf : list Z) (cs : list LeafCell) : Prop :=
  len buf = PAGE_SIZE_LEAF /\ Forall cell_ok cs /\
  used_bytes_for_cells cs <= PAGE_SIZE_LEAF /\
  forall k c, cs !! k = Some c -> cell_at buf (Z.of_nat k) c.

Lemma cell_size_le cs k c : cs !! k = Some c -> cell_encoded_size c <= sum_sizes cs.
Proof.
  revert k. induction cs as [|d cs IH]; intros [|k] Hk; simpl in *; try done.
  - simplify_eq. pose proof (sum_sizes_nonneg cs). lia.
  - apply IH in Hk. pose proof (cell_size_nonneg d). lia.
Qed.

Lemma page_cells_size buf cs k c :
  page_cells buf cs -> cs !! k = Some c -> cell_ok c /\ cell_encoded_size c <= PAGE_SIZE_LEAF.
Proof.
  intros (_ & Hok & Hu & _) Hk. split; [by eapply Forall_lookup_1|].
  pose proof (cell_size_le _ _ _ Hk). unfold used_bytes_for_cells, LEAF_HEADER_SIZE in Hu.
  pose proof (len_nonneg cs). lia.
Qed.

Lemma parse_cells_page buf cs : page_cells buf cs ->
  forall i rest, drop i cs = rest ->
  parse_cells buf (Z.of_nat i) (length rest) = Ok rest.
Proof.
  intros Hp i rest. revert i. induction rest as [|c rest IH]; intros i Hd; [done|].
  assert (Hk : cs !! i = Some c).
  { rewrite <- (Nat.add_0_r i), <- lookup_drop, Hd. done. }
  assert (Hd' : drop (S i) cs = rest).
  { rewrite <- Nat.add_1_r, <- drop_drop, Hd. done. }
  destruct (page_cells_size _ _ _ _ Hp Hk) as [Hok Hsz].
  destruct Hp as (_ & _ & _ & Hat). destruct (Hat _ _ Hk) as (off & Ho & _ & Hptr & Hcell).
  cbn [length parse_cells]. unfold LEAF_HEADER_SIZE.
  rewrite (read_le_part _ _ 2 _ _ Hptr), bind_Ok by done.
  rewrite (parse_cell_holds _ _ _ Hok Hcell Hsz), bind_Ok.
  replace (Z.of_nat i + 1) with (Z.of_nat (S i)) by lia. by rewrite (IH _ Hd').
Qed.

Lemma cell_offset_at_page buf cs k c :
  page_cells buf cs -> cs !! k = Some c ->
  exists off, cell_offset_at buf (Z.of_nat k) = Ok off /\ holds buf off (cell_bytes c).
Proof.
  intros Hp Hk. pose proof Hp as (Hl & _ & Hu & Hat).
  destruct (Hat _ _ Hk) as (off & Ho & _ & Hptr & Hcell). exists off. split; [|done].
  pose proof (holds_bounds _ _ _ Hptr) as [? Hb]. rewrite len_le_bytes in Hb.
  change (Z.of_nat 2) with 2 in Hb. unfold cell_offset_at. cbv zeta. pass_guard.
  by rewrite (read_le_part _ _ 2 _ _ Hptr).
Qed.

Lemma cell_key_at_page buf cs k c :
  page_cells buf cs -> cs !! k = Some c -> cell_key_at buf (Z.of_nat k) = Ok (cell_key c).
Proof.
  intros Hp Hk. destruct (cell_offset_at_page _ _ _ _ Hp Hk) as (off & Ho & Hh).
  destruct (page_cells_size _ _ _ _ Hp Hk) as [_ Hsz].
  unfold cell_key_at. rewrite Ho, bind_Ok. unfold cell_bytes in Hh. rewrite !holds_app in Hh.
  destruct Hh as [[Hkl Hkey] _]. rewrite len_le_bytes in Hkey. change (Z.of_nat 2) with 2 in *.
  pose proof (holds_bounds _ _ _ Hkl) as [? ?]. pose proof (holds_bounds _ _ _ Hkey) as [? ?].
  pose proof (len_nonneg (cell_key c)).
  assert (len (cell_key c) < 65536).
  { unfold cell_encoded_size, leaf_cell_encoded_size, PAGE_SIZE_LEAF in Hsz.
    destruct (cell_val c) as [v|]; [pose proof (len_nonneg v)|]; lia. }
  pass_guard. rewrite (read_le_part _ _ 2 _ _ Hkl), bind_Ok by (done || lia).
  cbv zeta. pass_guard. by rewrite (slice_part _ _ _ _ Hkey).
Qed.

(** ** Binary search *)

Definition key_lt (c d : LeafCell) : Prop := lex_lt (cell_key c) (cell_key d).

(** Cells in strictly ascending key order *)
Definition sorted_cells (cs : list LeafCell) : Prop :=
  forall i j c d, (i < j)%nat -> cs !! i = Some c -> cs !! j = Some d -> key_lt c d.

(** The reference: the value of the cell with this key *)
Fixpoint find_cell (key : list Z) (cs : list LeafCell) : option CellValue :=
  match cs with
  | [] => None
  | c :: t => if decide (cell_key c = key) then Some (cell_val c) else find_cell key t
  end.

Lemma find_cell_None key cs :
  (forall k c, cs !! k = Some c -> cell_key c <> key) -> find_cell key cs = None.
Proof.
  induction cs as [|c cs IH]; intros Hn; simpl; [done|].
  rewrite decide_False by (by apply (Hn 0%nat)). apply IH. intros k d Hk. by apply (Hn (S k)).
Qed.

Lemma find_cell_Some key cs k c :
  sorted_cells cs -> cs !! k = Some c -> cell_key c = key -> find_cell key cs = Some (cell_val c).
Proof.
  revert k. induction cs as [|d cs IH]; intros k Hs Hk Hc; [done|]. simpl.
  destruct k as [|k]; simpl in Hk.
  - simplify_eq. by rewrite decide_True.
  - rewrite decide_False.
    + apply (IH k); try done. intros i j x y Hij Hx Hy. apply (Hs (S i) (S j)); try done; lia.
    + intros E. pose proof (Hs 0%nat (S k) d c ltac:(lia) eq_refl Hk) as Hlt.
      unfold key_lt in Hlt. rewrite E, Hc in Hlt. by apply lex_lt_irrefl in Hlt.
Qed.

Lemma search_loop_page buf cs key :
  page_cells buf cs -> sorted_cells cs ->
  forall fuel left right,
    0 <= left -> right <= len cs -> right - left <= Z.of_nat fuel ->
    (forall k c, cs !! k = Some c -> Z.of_nat k < left -> lex_lt (cell_key c) key) ->
    (forall k c, cs !! k = Some c -> right <= Z.of_nat k -> lex_lt key (cell_key c)) ->
    search_loop fuel buf key left right = Ok (find_cell key cs).
Proof.
  intros Hp Hs. induction fuel as [|fuel IH]; intros left right Hl Hr Hf Hlow Hhigh;
    cbn [search_loop].
  all: destruct (Z.ltb_spec left right) as [Hlt|Hge].
  2, 4: rewrite find_cell_None; [done|]; intros k c Hk E;
    destruct (Z.lt_ge_cases (Z.of_nat k) left) as [Hb|Ha];
    [pose proof (Hlow _ _ Hk Hb) as Hx|pose proof (Hhigh _ _ Hk ltac:(lia)) as Hx];
    rewrite E in Hx; by apply lex_lt_irrefl in Hx.
  { lia. }
  set (mid := left + (right - left) / 2).
  assert (Hmid : left <= mid < right).
  { unfold mid. pose proof (Z.div_pos (right - left) 2).
    pose proof (Z.div_lt (right - left) 2). lia. }
  destruct (lookup_lt_is_Some_2 cs (Z.to_nat mid)) as [c Hc]; [unfold len in Hr; lia|].
  assert (Hmz : Z.of_nat (Z.to_nat mid) = mid) by lia.
  pose proof (cell_key_at_page _ _ _ _ Hp Hc) as Hkey. rewrite Hmz in Hkey.
  rewrite Hkey, bind_Ok. destruct (lex_cmp (cell_key c) key) eqn:Hcmp.
  - apply lex_cmp_eq in Hcmp. destruct (cell_offset_at_page _ _ _ _ Hp Hc) as (off & Ho & Hh).
    rewrite Hmz in Ho. destruct (page_cells_size _ _ _ _ Hp Hc) as [Hok Hsz].
    rewrite Ho, bind_Ok, (cell_value_at_holds _ _ _ Hok Hh Hsz), bind_Ok.
    by rewrite (find_cell_Some key cs _ c Hs Hc Hcmp).
  - apply IH; try lia; [|done]. intros k d Hk Hb.
    destruct (decide (k = Z.to_nat mid)) as [->|Hne]; [by simplify_eq|].
    transitivity (cell_key c); [|done]. apply (Hs k (Z.to_nat mid)); try done. lia.
  - apply IH; try lia; [done|]. intros k d Hk Hb.
    assert (lex_lt key (cell_key c)) as Hkc
      by (unfold lex_lt; by rewrite lex_cmp_antisym, Hcmp).
    destruct (decide (k = Z.to_nat mid)) as [->|Hne]; [by simplify_eq|].
    transitivity (cell_key c); [done|]. apply (Hs (Z.to_nat mid) k); try done. lia.
Qed.

Section Encode.
Context `{Crc32c}.

Definition node_wf (n : LeafNode) : Prop :=
  is_u8 (flags n) /\ is_u32 (next_leaf_page n) /\ is_u32 (prev_leaf_page n) /\
  Forall cell_ok (cells n).

Lemma encoded_flags_u8 n : is_u8 (flags n) -> is_u8 (encoded_flags n).
Proof.
  unfold encoded_flags. intros Hf.
  destruct (existsb _ _); [apply lor_u|apply land_u]; try done; unfold is_u; simpl; lia.
Qed.

Definition encoded_header (n : LeafNode) (cs : Z) : LeafPageHeader :=
  mkLeafPageHeader PAGE_TYPE_LEAF (encoded_flags n) (len (cells n)) cs (next_leaf_page n)
    (prev_leaf_page n) (LEAF_HEADER_SIZE + len (cells n) * 2) LEAF_HEADER_SIZE.

Lemma encoded_header_wf n cs :
  node_wf n -> used_bytes n <= PAGE_SIZE_LEAF -> is_u32 cs -> leaf_header_wf (encoded_header n cs).
Proof.
  intros (Hf & Hn & Hp & _) Hu Hcs. pose proof (sum_sizes_nonneg (cells n)).
  pose proof (len_nonneg (cells n)).
  unfold used_bytes, used_bytes_for_cells, LEAF_HEADER_SIZE, PAGE_SIZE_LEAF in *.
  unfold leaf_header_wf, encoded_header.
  cbn [lh_page_type lh_flags lh_entry_count lh_checksum lh_next_leaf_page lh_prev_leaf_page
    lh_free_space_offset lh_cell_ptr_offset].
  split_and!; try done; try (by apply encoded_flags_u8);
    unfold is_u, PAGE_TYPE_LEAF, LEAF_HEADER_SIZE; lia.
Qed.

(** Storing the checksum replaces the zero of the header just written. *)
Lemma header_with_checksum n buf cs :
  len buf = PAGE_SIZE_LEAF ->
  put (put buf 0 (leaf_header_bytes (encoded_header n 0))) 4 (le_bytes 4 cs) =
  put buf 0 (leaf_header_bytes (encoded_header n cs)).
Proof.
  unfold PAGE_SIZE_LEAF. intros Hl.
  apply (put_put_inner buf 0 ([PAGE_TYPE_LEAF; encoded_flags n] ++ le_bytes 2 (len (cells n)))
    (le_bytes 4 0)
    (le_bytes 4 (next_leaf_page n) ++ le_bytes 4 (prev_leaf_page n) ++
     le_bytes 2 (LEAF_HEADER_SIZE + len (cells n) * 2) ++ le_bytes 2 LEAF_HEADER_SIZE));
    [lia|by rewrite Hl|done|done].
Qed.

Lemma encode_page n :
  node_wf n -> used_bytes n <= PAGE_SIZE_LEAF ->
  exists buf cs, encode n = Ok buf /\ is_u32 cs /\ cs = leaf_page_checksum buf /\
    page_cells buf (cells n) /\ holds buf 0 (leaf_header_bytes (encoded_header n cs)).
Proof.
  intros Hwf Hu. unfold encode. rewrite (proj2 (Z.ltb_ge _ _)), reject_if_false, bind_Ok by lia.
  pose proof (sum_sizes_nonneg (cells n)). pose proof (len_nonneg (cells n)).
  pose proof Hu as Hu0. unfold used_bytes, used_bytes_for_cells in Hu.
  destruct (encode_cells_spec (cells n) 0 PAGE_SIZE_LEAF (zeros PAGE_SIZE_LEAF))
    as (b1 & Hb1 & Hl1 & _ & Hcells); rewrite ?len_zeros; unfold LEAF_HEADER_SIZE, PAGE_SIZE_LEAF in *; try lia.
  rewrite Hb1, bind_Ok. rewrite !as_u_small by (unfold is_u; lia).
  change (mkLeafPageHeader _ _ _ _ _ _ _ _) with (encoded_header n 0).
  rewrite leaf_write_to_eq, bind_Ok by lia.
  set (h0 := put b1 0 (leaf_header_bytes (encoded_header n 0))).
  assert (Hlh : len h0 = 32768) by (unfold h0; rewrite len_put; [done|lia|by rewrite Hl1]).
  set (cs := leaf_page_checksum h0). exists (put h0 4 (le_bytes 4 cs)), cs.
  rewrite write_at_Ok by (rewrite ?len_le_bytes; lia). split; [done|].
  assert (is_u32 cs) as Hcs
    by (unfold cs, leaf_page_checksum; rewrite crc32c_append_app; apply crc32c_u32).
  split; [done|]. split; [by rewrite leaf_checksum_put|].
  unfold h0. rewrite header_with_checksum by done. split.
  - split_and!; [by rewrite len_put by (rewrite ?Hl1; done)|by destruct Hwf as (_ & _ & _ & ?)|done|].
    intros k c Hk. destruct (Hcells k c Hk) as (off & Ho & H20 & Hptr & Hc). exists off.
    split_and!; [done|done|..]; (apply holds_put_other; [done|lia|by rewrite Hl1|right]);
      change (len (leaf_header_bytes (encoded_header n cs))) with 20; lia.
  - apply holds_put; [lia|by rewrite Hl1].
Qed.

Lemma parse_page n buf cs :
  node_wf n -> used_bytes n <= PAGE_SIZE_LEAF -> is_u32 cs ->
  page_cells buf (cells n) -> holds buf 0 (leaf_header_bytes (encoded_header n cs)) ->
  parse buf = Ok (mkLeafNode (encoded_flags n) (next_leaf_page n) (prev_leaf_page n) (cells n)) /\
  (sorted_cells (cells n) -> forall key, cell_value buf key = Ok (find_cell key (cells n))).
Proof.
  intros Hwf Hu Hcs Hp Hh. pose proof (encoded_header_wf n cs Hwf Hu Hcs) as Hhw.
  pose proof Hp as (Hl & _ & Hu' & _). unfold used_bytes_for_cells, LEAF_HEADER_SIZE in Hu'.
  pose proof (sum_sizes_nonneg (cells n)). pose proof (len_nonneg (cells n)).
  split; [|intros Hs key]; unfold parse, cell_value;
    rewrite (leaf_from_bytes_holds _ _ Hhw Hh), bind_Ok;
    change (leaf_validate_type (encoded_header n cs)) with (Ok tt : Result unit); rewrite bind_Ok;
    cbv zeta; cbn [encoded_header lh_entry_count lh_flags lh_next_leaf_page lh_prev_leaf_page];
    pass_guard.
  - unfold len. rewrite Nat2Z.id. pose proof (parse_cells_page _ _ Hp 0 (cells n) eq_refl) as Hpc.
    change (Z.of_nat 0) with 0 in Hpc. by rewrite Hpc.
  - apply search_loop_page; try done; try lia.
    intros k c Hk Hb. apply lookup_lt_Some in Hk. unfold len in Hb. lia.
Qed.

(** What the encoder stores of a node *)
Definition encoded_node (n : LeafNode) : LeafNode :=
  mkLeafNode (encoded_flags n) (next_leaf_page n) (prev_leaf_page n) (cells n).

Lemma leaf_encoded n :
  node_wf n -> used_bytes n <= PAGE_SIZE_LEAF ->
  exists buf, encode n = Ok buf /\ len buf = PAGE_SIZE_LEAF /\
    read_le buf 4 4 = Ok (leaf_page_checksum buf) /\ parse buf = Ok (encoded_node n) /\
    (sorted_cells (cells n) -> forall key, cell_value buf key = Ok (find_cell key (cells n))).
Proof.
  intros Hwf Hu. destruct (encode_page n Hwf Hu) as (buf & cs & He & Hcs & Hsum & Hp & Hh).
  exists buf. split; [done|]. split; [apply Hp|]. split; [|by eapply parse_page].
  rewrite <- Hsum. rewrite (read_le_holds _ _ _ _ _ Hh) by (change (len (leaf_header_bytes (encoded_header n cs))) with 20; lia).
  f_equal. change (from_le (le_bytes 4 cs) = cs). by apply from_le_u32.
Qed.

(** C16: the leaf page round trip.  A node whose cells fit the page encodes to a
    32 KiB page that carries its own checksum; parsing the page gives the node
    back, with the overflow flag set exactly when a cell overflows; and the
    binary search over the raw bytes finds exactly the cells of a sorted node. *)
Theorem leaf_roundtrip n :
  node_wf n -> used_bytes n <= PAGE_SIZE_LEAF ->
  exists buf, encode n = Ok buf /\ len buf = PAGE_SIZE_LEAF /\
    read_le buf 4 4 = Ok (leaf_page_checksum buf) /\
    parse buf = Ok (mkLeafNode (encoded_flags n) (next_leaf_page n) (prev_leaf_page n) (cells n)) /\
    (sorted_cells (cells n) -> forall key, cell_value buf key = Ok (find_cell key (cells n))).
Proof. apply leaf_encoded. Qed.

(** The encoder rejects exactly the nodes that do not fit. *)
Lemma encode_too_large n :
  PAGE_SIZE_LEAF < used_bytes n -> encode n = Err (Internal "leaf node too large").
Proof. intros. unfold encode. by rewrite (proj2 (Z.ltb_lt _ _)). Qed.

Lemma encode_inv n buf : node_wf n -> encode n = Ok buf ->
  used_bytes n <= PAGE_SIZE_LEAF /\ len buf = PAGE_SIZE_LEAF /\ parse buf = Ok (encoded_node n) /\
  (sorted_cells (cells n) -> forall key, cell_value buf key = Ok (find_cell key (cells n))).
Proof.
  intros Hwf He. destruct (Z.le_gt_cases (used_bytes n) PAGE_SIZE_LEAF) as [Hs|Hs].
  - destruct (leaf_encoded n Hwf Hs) as (b & Hb & Hl & _ & Hp & Hc). rewrite He in Hb. injection Hb as <-. done.
  - by rewrite encode_too_large in He.
Qed.

End Encode.

(** ** Malformed pages *)

Lemma leaf_from_bytes_no_panic data : no_panic (leaf_from_bytes data).
Proof. unfold leaf_from_bytes, LEAF_HEADER_SIZE. panic_free. Qed.

Lemma leaf_from_bytes_inv data hdr :
  bytes_ok data -> leaf_from_bytes data = Ok hdr -> 0 <= lh_entry_count hdr.
Proof.
  intros Hb. unfold leaf_from_bytes. intros (_ & _ & Hx)%bind_Ok_inv.
  do 2 (apply bind_Ok_inv in Hx as (? & _ & Hx)).
  apply bind_Ok_inv in Hx as (ec & Hec & Hx).
  do 5 (apply bind_Ok_inv in Hx as (? & _ & Hx)). injection Hx as <-. simpl.
  apply (read_le_range _ _ _ _ Hb) in Hec. lia.
Qed.

Lemma cell_value_at_no_panic data off : bytes_ok data -> 0 <= off -> no_panic (cell_value_at data off).
Proof.
  intros Hb Ho. unfold cell_value_at. panic_free.
  case_match; [panic_free|]. case_match; panic_free.
Qed.

Lemma parse_cell_no_panic data off : bytes_ok data -> 0 <= off -> no_panic (parse_cell data off).
Proof.
  intros Hb Ho. unfold parse_cell. panic_free.
  apply no_panic_bind; [by apply cell_value_at_no_panic|]. discriminate.
Qed.

Lemma parse_cells_no_panic data count : bytes_ok data -> forall i,
  0 <= i -> LEAF_HEADER_SIZE + (i + Z.of_nat count) * 2 <= len data ->
  no_panic (parse_cells data i count).
Proof.
  unfold LEAF_HEADER_SIZE. intros Hb. induction count as [|count IH]; intros i Hi Hl; [discriminate|].
  cbn [parse_cells]. unfold LEAF_HEADER_SIZE. panic_free.
  apply no_panic_bind; [apply parse_cell_no_panic; [done|lia]|]. intros c _.
  apply no_panic_bind; [apply IH; lia|]. discriminate.
Qed.

Lemma cell_offset_at_no_panic data i : 0 <= i -> no_panic (cell_offset_at data i).
Proof. intros. unfold cell_offset_at, LEAF_HEADER_SIZE. panic_free. Qed.

Lemma cell_offset_at_nonneg data i off : bytes_ok data -> cell_offset_at data i = Ok off -> 0 <= off.
Proof.
  intros Hb. unfold cell_offset_at. intros (_ & _ & Hx)%bind_Ok_inv.
  apply (read_le_range _ _ _ _ Hb) in Hx. lia.
Qed.

Lemma cell_key_at_no_panic data i : bytes_ok data -> 0 <= i -> no_panic (cell_key_at data i).
Proof.
  intros Hb Hi. unfold cell_key_at. apply no_panic_bind; [by apply cell_offset_at_no_panic|].
  intros off Ho%cell_offset_at_nonneg; [|done]. panic_free. apply no_panic_slice; lia.
Qed.

Lemma search_loop_no_panic data key : bytes_ok data -> forall fuel left right,
  0 <= left -> right - left <= Z.of_nat fuel -> no_panic (search_loop fuel data key left right).
Proof.
  intros Hb. induction fuel as [|fuel IH]; intros left right Hl Hf; cbn [search_loop];
    destruct (Z.ltb_spec left right); try discriminate; [lia|].
  assert (left <= left + (right - left) / 2 < right).
  { pose proof (Z.div_pos (right - left) 2). pose proof (Z.div_lt (right - left) 2). lia. }
  apply no_panic_bind; [apply cell_key_at_no_panic; [done|lia]|]. intros mk _.
  destruct (lex_cmp mk key).
  - apply no_panic_bind; [apply cell_offset_at_no_panic; lia|].
    intros off Ho%cell_offset_at_nonneg; [|done].
    apply no_panic_bind; [by apply cell_value_at_no_panic|]. discriminate.
  - apply IH; lia.
  - apply IH; lia.
Qed.

Lemma parse_no_panic data : bytes_ok data -> no_panic (parse data).
Proof.
  intros Hb. unfold parse. apply no_panic_bind; [apply leaf_from_bytes_no_panic|].
  intros hdr Hh%leaf_from_bytes_inv; try done.
  apply no_panic_bind; [unfold leaf_validate_type; auto with panics|]. intros _ _.
  cbv zeta. apply no_panic_guard. intros Hg%Z.ltb_ge.
  apply no_panic_bind; [apply parse_cells_no_panic; [done|lia|]|discriminate].
  rewrite Z2Nat.id by lia. lia.
Qed.

(** C33: Reading a leaf page in a release build never panics: on any byte
    string whatsoever, truncated or corrupt, the parser and the point lookup
    return a value or an error.  In a build with debug assertions the parser
    panics exactly on the pages the release build accepts with cells out of
    ascending key order. *)
Theorem leaf_read_no_panic data key :
  bytes_ok data ->
  no_panic (parse_build false data) /\ no_panic (cell_value data key) /\
  (parse_build true data = Panic <->
   exists node, parse_build false data = Ok node /\ keys_ascending (cells node) = false).
Proof.
  intros Hb. pose proof (parse_no_panic data Hb) as Hp. unfold parse_build. split; [|split].
  - by apply no_panic_bind.
  - unfold cell_value. apply no_panic_bind; [apply leaf_from_bytes_no_panic|].
    intros hdr Hh%leaf_from_bytes_inv; try done.
    apply no_panic_bind; [unfold leaf_validate_type; auto with panics|]. intros _ _.
    cbv zeta. apply no_panic_guard. intros Hg%Z.ltb_ge.
    apply search_loop_no_panic; [done|lia|]. rewrite Z2Nat.id by lia. lia.
  - destruct (parse data) as [node|e|]; [|split; [done|by intros (? & ? & _)]|done]. simpl.
    destruct (keys_ascending (cells node)) eqn:E; simpl; (split; [|by intros (n & [= <-] & Hn); congruence]).
    + done.
    + intros _. by exists node.
Qed.

Lemma leaf_read_no_panic_witness :
  no_panic (parse_build false (2 :: replicate 40 255)) /\ no_panic (cell_value (2 :: replicate 40 255) [7]).
Proof.
  destruct (leaf_read_no_panic (2 :: replicate 40 255) [7]) as (Hp & Hc & _); [|by split].
  repeat constructor; unfold is_u; lia.
Defined.

Definition sample_leaf : LeafNode :=
  mkLeafNode 0 7 0 [mkLeafCell [1; 2] (Inline [9; 9; 9]); mkLeafCell [1; 3] (Overflow 4 70000)].

Lemma leaf_roundtrip_witness :
  let _ := Bitwise.crc32c_bitwise in
  exists buf, encode sample_leaf = Ok buf /\
    parse buf = Ok (mkLeafNode 1 7 0 (cells sample_leaf)) /\
    cell_value buf [1; 3] = Ok (Some (Overflow 4 70000)).
Proof.
  intros C. destruct (@leaf_roundtrip C sample_leaf) as (buf & He & _ & _ & Hp & Hs).
  - unfold node_wf, is_u. simpl. split_and!; try lia. repeat constructor; simpl; unfold is_u; lia.
  - unfold PAGE_SIZE_LEAF. vm_compute. discriminate.
  - exists buf. split_and!; [done|exact Hp|]. rewrite Hs; [reflexivity|].
    clear. intros [|[|i]] [|[|j]] c d Hij Hc Hd; simpl in Hc, Hd; try lia; try done. by simplify_eq.
Defined.
