(* ===== verification/InternalNode.v ===== *)
(** * Internal pages ([storage/btree/internal_node.rs])

    The parsed internal node, its 4 KiB encoding (header, then length-prefixed
    separators each followed by the child on its left), the parser and the
    choice of the child for a key. *)

From S2P Require Import Prelude Bytes Crc Page.

#[local] Open Scope Z_scope.

(** [in_entries]: separators, each with the page of the child to its left *)
Record InternalNode : Set := mkInternalNode {
  in_level : Z; in_entries : list (list Z * Z); in_rightmost_child : Z }.

(** ** Parsing *)

(** [for _ in 0..key_count] from [pos] *)
Fixpoint parse_entries (data : list Z) (pos : Z) (count : nat) : Result (list (list Z * Z)) :=
  match count with
  | O => Ok []
  | S count' =>
      reject_if (len data <? pos + 2) (Internal "internal page truncated reading key_len");;
      key_len ← read_le data pos 2;
      let pos := pos + 2 in
      reject_if (len data <? pos + key_len + 4) (Internal "internal page truncated reading key/child");;
      key ← slice data pos (pos + key_len);
      let pos := pos + key_len in
      child_page ← read_le data pos 4;
      rest ← parse_entries data (pos + 4) count';
      Ok ((key, child_page) :: rest)
  end.

Definition internal_parse (data : list Z) : Result InternalNode :=
  hdr ← internal_from_bytes data;
  internal_validate_type hdr;;
  entries ← parse_entries data INTERNAL_HEADER_SIZE (Z.to_nat (ih_key_count hdr));
  Ok (mkInternalNode (ih_level hdr) entries (ih_rightmost_child hdr)).

(** ** Encoding *)

Definition entry_size (e : list Z * Z) : Z := 2 + len (fst e) + 4.

Fixpoint encode_entries (entries : list (list Z * Z)) (pos : Z) (buf : list Z) : Result (list Z) :=
  match entries with
  | [] => Ok buf
  | (key, child_page) :: rest =>
      let key_len := len key in
      reject_if (PAGE_SIZE_INTERNAL <? pos + (2 + key_len + 4)) (Internal "internal node too large");;
      buf ← write_at buf pos (le_bytes 2 (as_u 16 key_len));
      let pos := pos + 2 in
      buf ← write_at buf pos key;
      let pos := pos + key_len in
      buf ← write_at buf pos (le_bytes 4 child_page);
      encode_entries rest (pos + 4) buf
  end.

Definition internal_encode `{Crc32c} (n : InternalNode) : Result (list Z) :=
  buf ← encode_entries (in_entries n) INTERNAL_HEADER_SIZE (zeros PAGE_SIZE_INTERNAL);
  let hdr := mkInternalPageHeader PAGE_TYPE_INTERNAL (in_level n) (as_u 16 (len (in_entries n))) 0 (in_rightmost_child n) in
  buf ← internal_write_to hdr buf;
  let cs := internal_page_checksum buf in
  write_at buf 4 (le_bytes 4 cs).

Definition entries_size (entries : list (list Z * Z)) : Z := foldr (fun e s => entry_size e + s) 0 entries.

Definition internal_encoded_size (n : InternalNode) : Z := INTERNAL_HEADER_SIZE + entries_size (in_entries n).

Definition internal_can_insert (n : InternalNode) (extra_key_len : Z) : bool :=
  internal_encoded_size n + (2 + extra_key_len + 4) <=? PAGE_SIZE_INTERNAL.

(** ** Navigation *)

Fixpoint find_child_from (entries : list (list Z * Z)) (rightmost_child : Z) (key : list Z) : Z :=
  match entries with
  | [] => rightmost_child
  | (k, child_page) :: rest => if lex_ltb key k then child_page else find_child_from rest rightmost_child key
  end.

Definition find_child (n : InternalNode) (key : list Z) : Z := find_child_from (in_entries n) (in_rightmost_child n) key.

Fixpoint find_idx_from (entries : list (list Z * Z)) (i : nat) (key : list Z) : nat :=
  match entries with
  | [] => i
  | (k, _) :: rest => if lex_ltb key k then i else find_idx_from rest (S i) key
  end.

Definition find_child_idx (n : InternalNode) (key : list Z) : nat := find_idx_from (in_entries n) 0 key.

Definition child_at (n : InternalNode) (idx : nat) : Z :=
  match in_entries n !! idx with Some (_, child) => child | None => in_rightmost_child n end.

(** ** The encoder writes what the parser reads *)

Definition entry_bytes (e : list Z * Z) : list Z := (le_bytes 2 (len (fst e)) ++ fst e) ++ le_bytes 4 (snd e).
Definition entries_bytes (es : list (list Z * Z)) : list Z := concat (map entry_bytes es).

Lemma len_entry_bytes e : len (entry_bytes e) = entry_size e.
Proof. unfold entry_bytes, entry_size. autorewrite with len. lia. Qed.

Lemma entry_size_pos e : 6 <= entry_size e.
Proof. unfold entry_size. pose proof (len_nonneg (fst e)). lia. Qed.

Lemma entries_size_app a b : entries_size (a ++ b) = entries_size a + entries_size b.
Proof. unfold entries_size. induction a as [|e a IH]; simpl; [lia|]. rewrite IH. lia. Qed.

Lemma entries_size_len es : 6 * len es <= entries_size es.
Proof.
  unfold entries_size. induction es as [|e es IH]; simpl; [done|]. rewrite len_cons. pose proof (entry_size_pos e). lia.
Qed.

Lemma len_entries_bytes es : len (entries_bytes es) = entries_size es.
Proof.
  unfold entries_bytes, entries_size. induction es as [|e es IH]; [done|]. cbn [map concat foldr]. by rewrite len_app, len_entry_bytes, IH.
Qed.

Lemma encode_entries_spec es : forall pos buf,
  0 <= pos -> pos + entries_size es <= PAGE_SIZE_INTERNAL -> len buf = PAGE_SIZE_INTERNAL ->
  encode_entries es pos buf = Ok (put buf pos (entries_bytes es)).
Proof.
  unfold PAGE_SIZE_INTERNAL. induction es as [|[k c] es IH]; intros pos buf Hp Hs Hl.
  - cbn [encode_entries entries_bytes map concat]. unfold put. cbn [app length]. by rewrite Nat.add_0_r, take_drop.
  - unfold entries_size in Hs. simpl in Hs. fold (entries_size es) in Hs. unfold entry_size in Hs. simpl in Hs.
    pose proof (len_nonneg k). pose proof (entries_size_len es). pose proof (len_nonneg es).
    cbn [encode_entries]. cbv zeta. rewrite reject_if_ge, bind_Ok by (unfold PAGE_SIZE_INTERNAL; lia).
    rewrite (as_u_small 16) by (unfold is_u; lia). write_chain.
    assert (Hl2 : len (put buf pos ((le_bytes 2 (len k) ++ k) ++ le_bytes 4 c)) = 4096)
      by (rewrite len_put; autorewrite with len; lia).
    rewrite IH by lia. f_equal. unfold entries_bytes. cbn [map concat]. fold (entries_bytes es).
    change (entry_bytes (k, c)) with ((le_bytes 2 (len k) ++ k) ++ le_bytes 4 c).
    apply put_put_app; autorewrite with len; rewrite ?len_entries_bytes; lia.
Qed.

Lemma encode_entries_too_large es : forall pos buf,
  0 <= pos <= PAGE_SIZE_INTERNAL -> PAGE_SIZE_INTERNAL < pos + entries_size es -> len buf = PAGE_SIZE_INTERNAL ->
  encode_entries es pos buf = Err (Internal "internal node too large").
Proof.
  unfold PAGE_SIZE_INTERNAL. induction es as [|[k c] es IH]; intros pos buf Hp Hs Hl.
  - unfold entries_size in Hs. simpl in Hs. lia.
  - unfold entries_size in Hs. simpl in Hs. fold (entries_size es) in Hs. unfold entry_size in Hs. simpl in Hs.
    pose proof (len_nonneg k). cbn [encode_entries]. cbv zeta. unfold PAGE_SIZE_INTERNAL.
    destruct (Z.ltb_spec 4096 (pos + (2 + len k + 4))); [done|]. rewrite reject_if_false, bind_Ok.
    write_chain. apply IH; [lia..|]. rewrite len_put; autorewrite with len; lia.
Qed.

Lemma parse_entries_holds data es : forall pos,
  Forall (fun e => is_u32 (snd e)) es -> entries_size es <= PAGE_SIZE_INTERNAL -> holds data pos (entries_bytes es) ->
  parse_entries data pos (length es) = Ok es.
Proof.
  unfold PAGE_SIZE_INTERNAL. induction es as [|[k c] es IH]; intros pos Hc Hs Hh; [done|].
  apply Forall_cons in Hc as [Hc Hes]. simpl in Hc. unfold entries_size in Hs. simpl in Hs. fold (entries_size es) in Hs.
  unfold entry_size in Hs. simpl in Hs. pose proof (len_nonneg k). pose proof (entries_size_len es). pose proof (len_nonneg es).
  unfold entries_bytes in Hh. cbn [map concat] in Hh. fold (entries_bytes es) in Hh. pose proof (holds_bounds _ _ _ Hh) as [? Hb].
  rewrite len_app, len_entry_bytes in Hb. unfold entry_size in Hb. cbn [fst] in Hb. pose proof (len_nonneg (entries_bytes es)).
  rewrite holds_app, len_entry_bytes in Hh. destruct Hh as [He Hrest]. unfold entry_size in Hrest. unfold entry_bytes in He.
  rewrite !holds_app in He. destruct He as [[Hk Hkey] Hcp]. cbn [fst snd] in *.
  cbn [length parse_entries]. cbv zeta. rewrite reject_if_ge, bind_Ok by lia.
  rewrite (read_le_part _ _ 2 _ _ Hk), bind_Ok by (done || change (256 ^ Z.of_nat 2) with 65536; lia).
  rewrite reject_if_ge, bind_Ok by lia. rewrite len_le_bytes in Hkey. change (Z.of_nat 2) with 2 in Hkey.
  rewrite (slice_part _ _ _ _ Hkey), bind_Ok by lia. rewrite len_app, len_le_bytes in Hcp. change (Z.of_nat 2) with 2 in Hcp.
  rewrite Z.add_assoc in Hcp. rewrite (read_le_part _ _ 4 _ _ Hcp), bind_Ok by done.
  rewrite IH; [done|done|lia|]. by replace (pos + 2 + len k + 4) with (pos + (2 + len k + 4)) by lia.
Qed.

Section Encode.
Context `{Crc32c}.

Definition internal_wf (n : InternalNode) : Prop :=
  is_u8 (in_level n) /\ is_u32 (in_rightmost_child n) /\ Forall (fun e => is_u32 (snd e)) (in_entries n).

Definition internal_header (n : InternalNode) (cs : Z) : InternalPageHeader :=
  mkInternalPageHeader PAGE_TYPE_INTERNAL (in_level n) (len (in_entries n)) cs (in_rightmost_child n).

Lemma internal_header_with_checksum n buf cs :
  len buf = PAGE_SIZE_INTERNAL ->
  put (put buf 0 (internal_header_bytes (internal_header n 0))) 4 (le_bytes 4 cs) =
  put buf 0 (internal_header_bytes (internal_header n cs)).
Proof.
  unfold PAGE_SIZE_INTERNAL. intros Hl.
  apply (put_put_inner buf 0 ([PAGE_TYPE_INTERNAL; in_level n] ++ le_bytes 2 (len (in_entries n))) (le_bytes 4 0)
    (le_bytes 4 (in_rightmost_child n))); [lia|by rewrite Hl|done|done].
Qed.

(** A node that fits its page encodes, and its page parses to it. *)
Lemma internal_encoded n :
  internal_wf n -> internal_encoded_size n <= PAGE_SIZE_INTERNAL ->
  exists buf, internal_encode n = Ok buf /\ len buf = PAGE_SIZE_INTERNAL /\ internal_parse buf = Ok n.
Proof.
  intros (Hlv & Hr & Hc) Hs. unfold internal_encoded_size, INTERNAL_HEADER_SIZE in Hs. unfold internal_encode.
  pose proof (entries_size_len (in_entries n)). pose proof (len_nonneg (in_entries n)). unfold PAGE_SIZE_INTERNAL in *.
  rewrite encode_entries_spec, bind_Ok by (rewrite ?len_zeros; unfold PAGE_SIZE_INTERNAL, INTERNAL_HEADER_SIZE; lia).
  unfold INTERNAL_HEADER_SIZE, PAGE_SIZE_INTERNAL. set (b1 := put (zeros 4096) 12 (entries_bytes (in_entries n))).
  assert (Hl1 : len b1 = 4096) by (unfold b1; rewrite len_put; rewrite ?len_entries_bytes, ?len_zeros; lia).
  rewrite as_u_small by (unfold is_u; lia). change (mkInternalPageHeader _ _ _ 0 _) with (internal_header n 0).
  rewrite internal_write_to_eq, bind_Ok by lia. cbv zeta.
  set (cs := internal_page_checksum _).
  assert (Hcs : is_u32 cs) by (unfold cs, internal_page_checksum; rewrite crc32c_append_app; apply crc32c_u32).
  assert (Hlh : len (put b1 0 (internal_header_bytes (internal_header n 0))) = 4096) by (rewrite len_put; [done|lia|by rewrite Hl1]).
  rewrite write_at_Ok by (rewrite ?Hlh, ?len_le_bytes; lia). eexists. split; [done|].
  rewrite internal_header_with_checksum by done.
  split; [rewrite len_put; [done|lia|by rewrite Hl1]|]. unfold internal_parse.
  rewrite (internal_from_bytes_holds _ (internal_header n cs)), bind_Ok.
  - change (internal_validate_type (internal_header n cs)) with (Ok tt : Result unit). rewrite bind_Ok. unfold INTERNAL_HEADER_SIZE.
    change (ih_key_count (internal_header n cs)) with (len (in_entries n)). rewrite to_nat_len.
    rewrite parse_entries_holds; [by destruct n|done|unfold PAGE_SIZE_INTERNAL; lia|].
    apply holds_put_other; [|lia|by rewrite Hl1|right; change (len (internal_header_bytes (internal_header n cs))) with 12; lia].
    apply holds_put; [lia|]. rewrite len_entries_bytes, len_zeros; lia.
  - unfold internal_header_wf, internal_header. cbn [ih_page_type ih_level ih_key_count ih_checksum ih_rightmost_child].
    split_and!; try done; unfold is_u, PAGE_TYPE_INTERNAL; lia.
  - apply holds_put; [lia|by rewrite Hl1].
Qed.

(** The encoder rejects exactly the nodes that do not fit. *)
Lemma internal_encode_too_large n :
  PAGE_SIZE_INTERNAL < internal_encoded_size n -> internal_encode n = Err (Internal "internal node too large").
Proof.
  intros Hs. unfold internal_encode. rewrite encode_entries_too_large; [done|done|exact Hs|by rewrite len_zeros].
Qed.

Lemma internal_encode_inv n buf : internal_wf n -> internal_encode n = Ok buf ->
  internal_encoded_size n <= PAGE_SIZE_INTERNAL /\ len buf = PAGE_SIZE_INTERNAL /\ internal_parse buf = Ok n.
Proof.
  intros Hwf He. destruct (Z.le_gt_cases (internal_encoded_size n) PAGE_SIZE_INTERNAL) as [Hs|Hs].
  - destruct (internal_encoded n Hwf Hs) as (b & Hb & Hl & Hp). rewrite He in Hb. injection Hb as <-. done.
  - by rewrite internal_encode_too_large in He.
Qed.
End Encode.
