(* ===== verification/BTreeMap.v ===== *)
(** * Ordered maps keyed by bytes

    [BTreeMap<Vec<u8>, V>] as an association list in ascending key order.  The
    lookup laws do not need the order; iteration and ranges do. *)

From S2P Require Import Prelude Bytes.
From Stdlib Require Import Sorted.

#[local] Open Scope Z_scope.

Abbreviation btmap V := (list (list Z * V)).

Lemma strongly_sorted_after {A} (R : A -> A -> Prop) a x b :
  StronglySorted R (a ++ x :: b) -> Forall (R x) b.
Proof. induction a as [|y a IH]; simpl; intros Hs; inv Hs; auto. Qed.

Section Map.
Context {V : Type}.

Implicit Types m : btmap V.

Fixpoint bt_get (k : list Z) m : option V :=
  match m with
  | [] => None
  | (k', v) :: t => if decide (k = k') then Some v else bt_get k t
  end.

Fixpoint bt_insert (k : list Z) (v : V) m : btmap V :=
  match m with
  | [] => [(k, v)]
  | (k', v') :: t =>
      match lex_cmp k k' with
      | Lt => (k, v) :: (k', v') :: t
      | Eq => (k, v) :: t
      | Gt => (k', v') :: bt_insert k v t
      end
  end.

Definition bt_remove (k : list Z) m : btmap V := filter (fun kv => fst kv <> k) m.

(** [map.range(lo..=hi)]: both ends included *)
Definition bt_range_incl (lo hi : list Z) m : btmap V :=
  filter (fun kv => lex_leb lo (fst kv) && lex_leb (fst kv) hi = true) m.

Definition bt_sorted m : Prop := StronglySorted (fun a b => lex_lt (fst a) (fst b)) m.

Lemma bt_get_insert_eq k v m : bt_get k (bt_insert k v m) = Some v.
Proof.
  induction m as [|[k' v'] t IH]; simpl; [by rewrite decide_True|].
  destruct (lex_cmp k k') eqn:E; simpl.
  - by rewrite decide_True.
  - by rewrite decide_True.
  - rewrite decide_False; [done|]. intros ->. by rewrite lex_cmp_refl in E.
Qed.

Lemma bt_get_insert_ne k k0 v m : k <> k0 -> bt_get k (bt_insert k0 v m) = bt_get k m.
Proof.
  intros Hne. induction m as [|[k' v'] t IH]; simpl; [by rewrite decide_False|].
  destruct (lex_cmp k0 k') eqn:E; simpl.
  - apply lex_cmp_eq in E. subst. by rewrite !decide_False.
  - by rewrite (decide_False (P := k = k0)).
  - by rewrite IH.
Qed.

Lemma bt_get_remove_eq k m : bt_get k (bt_remove k m) = None.
Proof.
  unfold bt_remove. induction m as [|[k' v'] t IH]; [done|].
  rewrite filter_cons. case_decide as Hd; simpl in *; [|done].
  rewrite decide_False by congruence. done.
Qed.

Lemma bt_get_remove_ne k k0 m : k <> k0 -> bt_get k (bt_remove k0 m) = bt_get k m.
Proof.
  intros Hne. unfold bt_remove. induction m as [|[k' v'] t IH]; [done|].
  rewrite filter_cons. case_decide as Hd; simpl in *; [by rewrite IH|].
  subst. by rewrite decide_False.
Qed.

Lemma bt_insert_In k v m x :
  In x (bt_insert k v m) -> x = (k, v) \/ In x m.
Proof.
  induction m as [|[k' v'] t IH]; simpl; [intuition|].
  destruct (lex_cmp k k'); simpl; intuition.
Qed.

Lemma bt_insert_sorted k v m : bt_sorted m -> bt_sorted (bt_insert k v m).
Proof.
  unfold bt_sorted. induction 1 as [|[k' v'] t Hs IH Hf]; simpl; [repeat constructor|].
  destruct (lex_cmp k k') eqn:E.
  - apply lex_cmp_eq in E. subst. by constructor.
  - constructor; [by constructor|]. constructor; [done|].
    eapply Forall_impl; [exact Hf|]. intros [k2 v2] Hk2. simpl in *. by transitivity k'.
  - constructor; [done|]. apply List.Forall_forall. intros x [->|Hx]%bt_insert_In.
    + simpl. unfold lex_lt. by rewrite lex_cmp_antisym, E.
    + rewrite List.Forall_forall in Hf. by apply Hf.
Qed.

Lemma bt_filter_sorted (P : list Z * V -> Prop) `{forall x, Decision (P x)} m :
  bt_sorted m -> bt_sorted (filter P m).
Proof.
  unfold bt_sorted. induction 1 as [|x t Hs IH Hf]; [constructor|].
  rewrite filter_cons. case_decide; [|done]. constructor; [done|].
  apply List.Forall_forall. intros y Hy. rewrite List.Forall_forall in Hf. apply Hf.
  apply list_elem_of_In. apply list_elem_of_In, list_elem_of_filter in Hy. tauto.
Qed.

Lemma bt_get_In k v m : bt_sorted m -> In (k, v) m <-> bt_get k m = Some v.
Proof.
  unfold bt_sorted. induction 1 as [|[k' v'] t Hs IH Hf]; simpl; [done|].
  destruct (decide (k = k')) as [->|Hne].
  - split; [|intros [= ->]; by left]. intros [[= ->]|Hin]; [done|].
    rewrite List.Forall_forall in Hf. specialize (Hf _ Hin). simpl in Hf.
    by apply lex_lt_irrefl in Hf.
  - rewrite <- IH. split; [intros [[= ? ?]|?]; [congruence|done]|by right].
Qed.

Lemma bt_keys_NoDup m : bt_sorted m -> NoDup (map fst m).
Proof.
  induction 1 as [|[k v] m _ IH Hlt]; simpl; constructor; [|done]. rewrite list_elem_of_In, in_map_iff.
  intros (x & Hx & Hin). rewrite List.Forall_forall in Hlt. specialize (Hlt x Hin).
  unfold lex_lt in Hlt. simpl in Hlt. by rewrite Hx, lex_cmp_refl in Hlt.
Qed.

End Map.

(** ** Maps keyed by [u64]

    [BTreeMap<u64, V>], in ascending key order *)
Section ZMap.
Context {V : Type}.
Implicit Types m : list (Z * V).

Fixpoint zm_get (k : Z) m : option V :=
  match m with [] => None | (k', v) :: t => if k =? k' then Some v else zm_get k t end.

Fixpoint zm_insert (k : Z) (v : V) m : list (Z * V) :=
  match m with
  | [] => [(k, v)]
  | (k', v') :: t =>
      if k <? k' then (k, v) :: m else if k =? k' then (k, v) :: t else (k', v') :: zm_insert k v t
  end.

Definition zm_remove (k : Z) m : list (Z * V) := List.filter (fun kv => negb (fst kv =? k)) m.

(** [get_mut] and an assignment through it *)
Definition zm_update (k : Z) (f : V -> V) m : list (Z * V) :=
  map (fun kv => if fst kv =? k then (fst kv, f (snd kv)) else kv) m.

Lemma zm_get_In k v m : zm_get k m = Some v -> In (k, v) m.
Proof.
  induction m as [|[k' v'] m IH]; simpl; [done|]. destruct (Z.eqb_spec k k') as [->|]; [|auto].
  intros [= ->]. by left.
Qed.

Lemma zm_insert_last k v m : Forall (fun e => fst e < k) m -> zm_insert k v m = m ++ [(k, v)].
Proof.
  induction 1 as [|[k' v'] m Hk _ IH]; simpl in *; [done|].
  destruct (Z.ltb_spec k k'); [lia|]. destruct (Z.eqb_spec k k'); [lia|]. by rewrite IH.
Qed.

Lemma zm_insert_In k v m x : In x (zm_insert k v m) -> x = (k, v) \/ In x m.
Proof.
  induction m as [|[k' v'] m IH]; simpl; [intuition congruence|].
  destruct (k <? k'); [|destruct (k =? k')]; simpl; intuition congruence.
Qed.

Lemma zm_insert_In_ne k v k0 v0 m : k0 <> k -> In (k0, v0) m -> In (k0, v0) (zm_insert k v m).
Proof.
  intros Hne. induction m as [|[k' v'] m IH]; simpl; [done|].
  destruct (Z.ltb_spec k k'); [|destruct (Z.eqb_spec k k') as [->|]]; simpl; intuition congruence.
Qed.

Lemma NoDup_fst_inj k v v' m : NoDup (map fst m) -> In (k, v) m -> In (k, v') m -> v = v'.
Proof.
  induction m as [|[k0 v0] m IH]; simpl; [done|]. intros [Hni Hnd]%NoDup_cons.
  assert (forall x, In (k0, x) m -> False) as Hk.
  { intros x Hin. apply Hni, list_elem_of_In, in_map_iff. by exists (k0, x). }
  intros [E1|H1] [E2|H2]; simplify_eq; [done|exfalso; by eauto..|by apply IH].
Qed.

Lemma zm_update_keys k f m : map fst (zm_update k f m) = map fst m.
Proof. unfold zm_update. rewrite map_map. apply map_ext. intros [k' v]; simpl. by destruct (_ =? _). Qed.

End ZMap.
