(* ===== verification/Version.v ===== *)
(** * Version chains

    [mvcc/version.rs] (entries), [mvcc/chain_snapshot.rs] (visibility) and
    [mvcc/registry.rs] (the reclaim horizon).

    A chain is a list, newest entry first.  Cloning and dropping overflow
    handles changes reference counts only, not what is read. *)

From S2P Require Import Prelude Bytes Timestamp BTreeMap.

#[local] Open Scope Z_scope.

(** ** Entries *)

Inductive VersionData : Set :=
| VInline (v : list Z)
| VOverflow (first_page total_length : Z).

Inductive VersionState : Set :=
| Pending (txn_id : Z)
| Committed
| Aborted.

Record VersionEntry : Set := mkEntry {
  start_ts : Ts;
  stop_ts : Ts;
  txn_id : Z;
  state : VersionState;
  data : VersionData;
  is_tombstone : bool }.

#[export] Instance VersionData_eq_dec : EqDecision VersionData.
Proof. solve_decision. Defined.
#[export] Instance VersionState_eq_dec : EqDecision VersionState.
Proof. solve_decision. Defined.
#[export] Instance VersionEntry_eq_dec : EqDecision VersionEntry.
Proof. solve_decision. Defined.

Abbreviation chain := (list VersionEntry).

Definition is_aborted (e : VersionEntry) : bool :=
  match state e with Aborted => true | _ => false end.
Definition is_committed (e : VersionEntry) : bool :=
  match state e with Committed => true | _ => false end.
Definition is_pending (e : VersionEntry) : bool :=
  match state e with Pending _ => true | _ => false end.

Definition is_live_head (e : VersionEntry) : bool :=
  bool_decide (stop_ts e = Ts_MAX) && negb (is_aborted e).

Definition live_head (c : chain) : option VersionEntry := find is_live_head c.

Definition with_stop (t : Ts) (e : VersionEntry) : VersionEntry :=
  mkEntry (start_ts e) t (txn_id e) (state e) (data e) (is_tombstone e).

(** ** Visibility ([chain_snapshot.rs]) *)

(** What a [ReadView] offers to the visibility test: the pinned snapshot
    timestamp ([visible_ts()], equal to [read_ts]), the transaction, and the
    sequencer frontier at the moment of the test *)
Record ReadView : Set := mkView { read_ts : Ts; view_txn : Z; frontier : Ts }.

Definition in_window (e : VersionEntry) (r : Ts) : bool :=
  ts_leb (start_ts e) r && ts_ltb r (stop_ts e).

Definition version_visible_to (e : VersionEntry) (v : ReadView) : bool :=
  match state e with
  | Pending id =>
      if id =? view_txn v then true
      else ts_leb (start_ts e) (read_ts v) && ts_ltb (read_ts v) (stop_ts e)
           && ts_leb (start_ts e) (frontier v)
  | Committed => ts_leb (start_ts e) (read_ts v) && ts_ltb (read_ts v) (stop_ts e)
  | Aborted => false
  end.

(** [ChainSnapshot::new]: the two reads of [poisoned], before and after the
    clone, are inputs. *)
Definition snapshot_new (source : btmap chain) (poisoned_before poisoned_after : bool) : btmap chain :=
  if poisoned_before then [] else if poisoned_after then [] else source.

Definition snapshot_new_for_key (source : btmap chain) (key : list Z)
  (poisoned_before poisoned_after : bool) : btmap chain :=
  if poisoned_before then []
  else
    let chains := match bt_get key source with Some c => bt_insert key c [] | None => [] end in
    if poisoned_after then [] else chains.

Definition visible_at (snap : btmap chain) (key : list Z) (v : ReadView) : option VersionEntry :=
  c ← bt_get key snap; find (fun e => version_visible_to e v) c.

(** The [Bound] pairs of a range *)
Inductive Bound : Set :=
| Included (k : list Z)
| Excluded (k : list Z)
| Unbounded.

Definition in_bounds (lo hi : Bound) (k : list Z) : bool :=
  match lo with Included l => lex_leb l k | Excluded l => lex_ltb l k | Unbounded => true end &&
  match hi with Included h => lex_leb k h | Excluded h => lex_ltb k h | Unbounded => true end.

Definition visible_range (snap : btmap chain) (lo hi : Bound) (v : ReadView)
  : list (list Z * VersionEntry) :=
  omap (fun kc =>
    if in_bounds lo hi (fst kc) then
      e ← find (fun e => version_visible_to e v) (snd kc); Some (fst kc, e)
    else None) snap.

Definition candidate_chain (c : chain) (r : Ts) : bool :=
  forallb (fun e => ts_ltb r (start_ts e) || is_pending e) c.

Definition history_is_candidate (snap : btmap chain) (key : list Z) (r : Ts) : bool :=
  match bt_get key snap with None => true | Some c => candidate_chain c r end.

Definition history_candidate_keys_without_visible_entry (snap : btmap chain) (lo hi : Bound)
  (v : ReadView) (r : Ts) : list (list Z) :=
  omap (fun kc =>
    if in_bounds lo hi (fst kc) then
      if existsb (fun e => version_visible_to e v) (snd kc) then None
      else if candidate_chain (snd kc) r then Some (fst kc) else None
    else None) snap.

(** ** The registry's horizon ([registry.rs])

    [inner]: transaction id to pinned [read_ts]; back-pointers only serve
    force-expiry. *)
Module Registry.

Definition registry : Type := list (Z * Ts).

Definition unregister (id : Z) (r : registry) : registry := filter (fun p => fst p <> id) r.

Definition register (id : Z) (t : Ts) (r : registry) : registry := (id, t) :: unregister id r.

(** [refine_read_ts] and [attach_view_and_refine]: no-op when absent *)
Definition refine_read_ts (id : Z) (t : Ts) (r : registry) : registry :=
  map (fun p => if fst p =? id then (fst p, t) else p) r.

Definition oldest_required_ts (r : registry) : Ts :=
  match map snd r with
  | [] => Ts_MAX
  | t :: ts => foldl ts_min t ts
  end.

Lemma foldl_min_le ts t : ts_le (foldl ts_min t ts) t /\ Forall (ts_le (foldl ts_min t ts)) ts.
Proof.
  revert t. induction ts as [|u ts IH]; intros t; simpl; [split; [ts_lia|constructor]|].
  destruct (IH (ts_min t u)) as [H1 H2]. unfold ts_min in *.
  destruct (ts_leb t u) eqn:E; split; try (constructor; [|done]); ts_lia.
Qed.

(** Every registered view lies at or above the horizon. *)
Lemma oldest_required_ts_le r id t : In (id, t) r -> ts_le (oldest_required_ts r) t.
Proof.
  unfold oldest_required_ts. intros Hin. apply (in_map snd) in Hin. simpl in Hin.
  destruct (map snd r) as [|u ts]; [done|]. destruct (foldl_min_le ts u) as [H1 H2].
  destruct Hin as [->|Hin]; [done|]. rewrite List.Forall_forall in H2. auto.
Qed.

End Registry.
