(* ===== verification/OverflowRefs.v ===== *)
(** * Overflow reference counts

    The refcount table of [storage/allocator/overflow.rs]: one counter per
    overflow chain, keyed by the chain's first page, and the handle operations
    of [mvcc/version.rs] that move it.  A table maps a page to its slot; a page
    without a slot was never referenced or has been freed. *)

From S2P Require Import Prelude Bytes Timestamp Version.

#[local] Open Scope Z_scope.

Abbreviation refcounts := (Z -> option Z).

Definition set_count (refs : refcounts) (first_page n : Z) : refcounts :=
  fun q => if q =? first_page then Some n else refs q.

Definition overflow_refcount (refs : refcounts) (first_page : Z) : Z := default 0 (refs first_page).

(** The CAS loop of [incref_overflow] as the step it commits: the new count
    and table, or a saturated counter left alone.  Taking the handle creates
    the slot. *)
Definition incref_overflow (refs : refcounts) (first_page : Z) : Result Z * refcounts :=
  let cur := overflow_refcount refs first_page in
  if cur =? u32_max then (Err RefcountOverflow, set_count refs first_page cur)
  else (Ok (cur + 1), set_count refs first_page (cur + 1)).

Definition try_incref_live_overflow (refs : refcounts) (first_page : Z) : Result (option Z) * refcounts :=
  match refs first_page with
  | None => (Ok None, refs)
  | Some cur =>
      if cur =? 0 then (Ok None, refs)
      else if cur =? u32_max then (Err RefcountOverflow, refs)
      else (Ok (Some (cur + 1)), set_count refs first_page (cur + 1))
  end.

(** [fetch_sub] wraps; the value returned does not. *)
Definition decref_overflow (refs : refcounts) (first_page : Z) : Z * refcounts :=
  match refs first_page with
  | None => (0, refs)
  | Some prev => (saturating_sub prev 1, set_count refs first_page (as_u 32 (prev - 1)))
  end.

(** [OverflowRef::new_owned] *)
Definition new_owned (refs : refcounts) (first_page total_length : Z) : Result VersionData * refcounts :=
  match incref_overflow refs first_page with
  | (Ok _, refs') => (Ok (VOverflow first_page total_length), refs')
  | (Err e, refs') => (Err e, refs')
  | (Panic, refs') => (Panic, refs')
  end.

(** [OverflowRef::try_clone] and [VersionEntry::try_clone]: [None] for a chain
    whose count is gone, zero or saturated *)
Definition try_clone (refs : refcounts) (e : VersionEntry) : option VersionEntry * refcounts :=
  match data e with
  | VInline _ => (Some e, refs)
  | VOverflow p _ =>
      match try_incref_live_overflow refs p with
      | (Ok (Some _), refs') => (Some e, refs')
      | (_, refs') => (None, refs')
      end
  end.

Lemma new_owned_result refs p n :
  overflow_refcount refs p <> u32_max -> fst (new_owned refs p n) = Ok (VOverflow p n).
Proof.
  intros H. unfold new_owned, incref_overflow.
  by destruct (Z.eqb_spec (overflow_refcount refs p) u32_max).
Qed.

Lemma new_owned_no_panic refs p n : no_panic (fst (new_owned refs p n)).
Proof. unfold new_owned, incref_overflow. by destruct (_ =? _). Qed.

Lemma try_clone_Some refs e e' refs' : try_clone refs e = (Some e', refs') -> e' = e.
Proof. unfold try_clone. repeat case_match; congruence. Qed.
