(* ===== verification/Chain.v ===== *)
(** * The operations that change a version chain

    [storage/paged_engine/pending_install.rs] (conflict classification,
    installing a pending head, the unique-prefix check),
    [storage/buffer_pool/latched_page.rs] (the commit/abort flip),
    [storage/buffer_pool/partition.rs] (pruning), [buffer_pool/chains.rs]
    (payload accounting) and [paged_engine/recovery_apply.rs] (replay), with
    the invariant they keep on a chain. *)

From S2P Require Import Prelude Bytes Timestamp BTreeMap Crc Page LeafNode Version.

#[local] Open Scope Z_scope.

(** ** Operations on a resident chain *)

Record ExpectedHead : Set := mkExpectedHead { eh_commit_ts : Ts; eh_txn_id : Z }.

#[export] Instance ExpectedHead_eq_dec : EqDecision ExpectedHead.
Proof. solve_decision. Defined.

Inductive InstallConflictScope : Set := Primary | Secondary.
Inductive ConflictClassification : Set := AlreadyInstalledBySelf | Proceed.

Definition KEY_PREVIEW_BYTES : Z := 32.
Definition key_preview (key : list Z) : list Z := get key 0 KEY_PREVIEW_BYTES.

Definition classify_delta_install (c : chain) (expected : option ExpectedHead)
  (scope : InstallConflictScope) (key : list Z) (txn : Z) : Result ConflictClassification :=
  match live_head c with
  | None => Ok Proceed
  | Some head =>
      if match state head with Pending id => id =? txn | _ => false end
      then Ok AlreadyInstalledBySelf
      else
        match expected with
        | Some ex =>
            if bool_decide (mkExpectedHead (start_ts head) (txn_id head) = ex) then
              if is_committed head && negb (is_tombstone head) then Ok Proceed
              else Err (WriteConflict StaleSnapshot)
            else Err (WriteConflict StaleSnapshot)
        | None =>
            match scope with
            | Primary =>
                if is_committed head && is_tombstone head then Ok Proceed
                else Err (WriteConflict (SameKeyConflict (key_preview key)))
            | Secondary => Ok Proceed
            end
        end
  end.

(** [iter_mut().find(p)] and a mutation of what it finds *)
Fixpoint update_first (p : VersionEntry -> bool) (f : VersionEntry -> VersionEntry) (c : chain) : chain :=
  match c with
  | [] => []
  | e :: t => if p e then f e :: t else e :: update_first p f t
  end.

(** Close the live head and push the new pending entry: the chain part of
    [install_pending_primary] and [install_pending_sec_index] *)
Definition push_pending (c : chain) (d : VersionData) (tomb : bool) (commit_ts : Ts) (txn : Z) : chain :=
  mkEntry commit_ts Ts_MAX txn (Pending txn) d tomb ::
    update_first is_live_head (with_stop commit_ts) c.

(** One iteration of the install loops; [unique] is what the unique-prefix
    check of a secondary insert returned ([Ok tt] where there is none). *)
Definition install_pending (c : chain) (expected : option ExpectedHead) (scope : InstallConflictScope)
  (unique : Result unit) (key : list Z) (d : VersionData) (tomb : bool) (commit_ts : Ts) (txn : Z)
  : Result chain :=
  cls ← classify_delta_install c expected scope key txn;
  match cls with
  | AlreadyInstalledBySelf => Ok c
  | Proceed => unique;; Ok (push_pending c d tomb commit_ts txn)
  end.

Definition restore_previous_head_after_abort (below : chain) (aborted_start : Ts) : chain :=
  update_first (fun e => negb (is_aborted e) && bool_decide (stop_ts e = aborted_start))
    (with_stop Ts_MAX) below.

Definition pending_by (txn : Z) (e : VersionEntry) : bool :=
  match state e with Pending id => id =? txn | _ => false end.

Definition flip_entry (commit_ts : option Ts) (e : VersionEntry) : VersionEntry :=
  match commit_ts with
  | Some t => mkEntry t (stop_ts e) (txn_id e) Committed (data e) (is_tombstone e)
  | None => mkEntry (start_ts e) (stop_ts e) (txn_id e) Aborted (data e) (is_tombstone e)
  end.

(** The loop [for idx in 0..chain.len()], with the number of entries flipped:
    [n] iterations are left; an abort repairs an entry further down, which the
    loop visits later. *)
Fixpoint flip_loop (n : nat) (c : chain) (txn : Z) (commit_ts : option Ts) : chain * Z :=
  match n, c with
  | S n', e :: t =>
      if pending_by txn e then
        let t := match commit_ts with
                 | Some _ => t
                 | None => restore_previous_head_after_abort t (start_ts e)
                 end in
        let (t, flipped) := flip_loop n' t txn commit_ts in
        (flip_entry commit_ts e :: t, flipped + 1)
      else
        let (t, flipped) := flip_loop n' t txn commit_ts in
        (e :: t, flipped)
  | _, _ => (c, 0)
  end.

Definition flip_pending_in_chain (c : chain) (txn : Z) (commit_ts : option Ts) : chain * Z :=
  flip_loop (length c) c txn commit_ts.

(** The [retain] of [reconcile_frame_at] *)
Definition prune_keep (ort : Ts) (e : VersionEntry) : bool :=
  negb (is_aborted e) && (bool_decide (stop_ts e = Ts_MAX) || ts_ltb ort (stop_ts e)).

Definition prune_chain (ort : Ts) (c : chain) : chain := List.filter (prune_keep ort) c.

Definition SLOT_POINTER_BYTES : Z := 2.
Definition CELL_KEY_LEN_BYTES : Z := 2.
Definition CELL_VALUE_TYPE_BYTES : Z := 1.
Definition CELL_INLINE_LEN_BYTES : Z := 4.
Definition CELL_OVERFLOW_REF_BYTES : Z := 8.

(** The bytes the live head of a chain takes in an encoded leaf *)
Definition chain_live_head_bytes (key : list Z) (c : chain) : Z :=
  match live_head c with
  | None => 0
  | Some e =>
      if is_tombstone e then 0
      else
        let value_bytes :=
          match data e with
          | VInline b => if OVERFLOW_THRESHOLD <? len b then CELL_OVERFLOW_REF_BYTES
                         else CELL_INLINE_LEN_BYTES + len b
          | VOverflow _ _ => CELL_OVERFLOW_REF_BYTES
          end in
        SLOT_POINTER_BYTES + CELL_KEY_LEN_BYTES + len key + CELL_VALUE_TYPE_BYTES + value_bytes
  end.

Definition frame_live_delta_payload_bytes (deltas : btmap chain) : Z :=
  foldr (fun kc n => chain_live_head_bytes (fst kc) (snd kc) + n) 0 deltas.

(** [reconcile_frame_at] on a frame's delta map: the pruned map (chains left
    empty are removed), the number of entries dropped and the new payload sum *)
Fixpoint reconcile_frame_at (ort : Ts) (deltas : btmap chain) : btmap chain * Z * Z :=
  match deltas with
  | [] => ([], 0, 0)
  | (key, c) :: rest =>
      let c' := prune_chain ort c in
      let '(rest', dropped, payload) := reconcile_frame_at ort rest in
      let dropped := len c - len c' + dropped in
      match c' with
      | [] => (rest', dropped, payload)
      | _ => ((key, c') :: rest', dropped, chain_live_head_bytes key c' + payload)
      end
  end.

(** [replay_chain_op]: recovery pushes a committed entry *)
Definition replay_chain_op (c : chain) (commit_ts : Ts) (op_ordinal : Z) (d : list Z) (tomb : bool) : chain :=
  let already_replayed :=
    match c with
    | e :: _ => bool_decide (start_ts e = commit_ts) && (txn_id e =? op_ordinal)
    | [] => false
    end in
  if already_replayed then c
  else
    mkEntry commit_ts Ts_MAX op_ordinal Committed (VInline d) tomb ::
      match c with [] => [] | prev :: t => with_stop commit_ts prev :: t end.

(** ** The chain invariant

    Aborted residue aside, each entry stops where the next newer one starts,
    the newest never stops, and only the newest may be pending. *)

Fixpoint linked (next : Ts) (c : chain) : Prop :=
  match c with
  | [] => True
  | e :: t =>
      if is_aborted e then linked next t
      else stop_ts e = next /\ ts_lt (start_ts e) next /\ linked (start_ts e) t
  end.

Fixpoint pending_on_top (c : chain) : Prop :=
  match c with
  | [] => True
  | e :: t =>
      if is_aborted e then pending_on_top t else Forall (fun x => is_pending x = false) t
  end.

Definition chain_wf (c : chain) : Prop := linked Ts_MAX c /\ pending_on_top c.

Lemma pending_none_on_top c : Forall (fun x => is_pending x = false) c -> pending_on_top c.
Proof. induction 1 as [|e t He Ht IH]; simpl; [done|]. by destruct (is_aborted e). Qed.

(** Entries lie below [next]; of two, the lower one stops before the upper
    one starts. *)
Lemma linked_below next c e :
  linked next c -> In e c -> is_aborted e = false ->
  ts_le (stop_ts e) next /\ ts_lt (start_ts e) (stop_ts e).
Proof.
  revert next. induction c as [|x t IH]; intros next Hl Hin Ha; [done|]. simpl in Hl.
  destruct Hin as [->|Hin].
  - rewrite Ha in Hl. destruct Hl as (-> & ? & _). split; [ts_lia|done].
  - destruct (is_aborted x); [by apply (IH next)|]. destruct Hl as (? & Hx & Hl).
    destruct (IH _ Hl Hin Ha). split; [ts_lia|done].
Qed.

Lemma linked_app next a e b :
  linked next (a ++ e :: b) -> is_aborted e = false ->
  linked (start_ts e) b /\ ts_lt (start_ts e) (stop_ts e) /\
  Forall (fun x => is_aborted x = false -> ts_le (stop_ts e) (start_ts x)) a.
Proof.
  revert next. induction a as [|x a IH]; intros next; simpl.
  - intros Hl Ha. rewrite Ha in Hl. destruct Hl as (-> & ? & ?). split_and!; done || constructor.
  - intros Hl Ha. destruct (is_aborted x) eqn:Hx.
    + destruct (IH _ Hl Ha) as (? & ? & ?). split_and!; try done. constructor; [congruence|done].
    + destruct Hl as (? & ? & Hl). destruct (IH _ Hl Ha) as (? & ? & ?).
      split_and!; try done. constructor; [|done]. intros _.
      apply (linked_below _ _ e Hl); [apply in_elt|done].
Qed.

(** *** The invariant gives the head *)

Lemma live_head_wf c :
  linked Ts_MAX c ->
  match live_head c with
  | None => Forall (fun e => is_aborted e = true) c
  | Some h => exists a b, c = a ++ h :: b /\ Forall (fun e => is_aborted e = true) a /\
      is_aborted h = false /\ stop_ts h = Ts_MAX /\ ts_lt (start_ts h) Ts_MAX /\
      linked (start_ts h) b
  end.
Proof.
  unfold live_head. induction c as [|e t IH]; simpl; [by constructor|].
  unfold is_live_head at 1. destruct (is_aborted e) eqn:Ha; intros Hl.
  - rewrite andb_false_r. specialize (IH Hl). destruct (find _ t) as [h|].
    + destruct IH as (a & b & -> & ? & ?). exists (e :: a), b. split; [done|]. split; [by constructor|done].
    + by constructor.
  - destruct Hl as (He & Hs & Hl). rewrite bool_decide_true by done. simpl.
    exists [], t. rewrite He. split_and!; done || constructor.
Qed.

Lemma linked_aborted_app next a b :
  Forall (fun e => is_aborted e = true) a -> linked next (a ++ b) <-> linked next b.
Proof. induction 1 as [|e a He _ IH]; simpl; [done|]. by rewrite He. Qed.

Lemma pending_on_top_aborted_app a b :
  Forall (fun e => is_aborted e = true) a -> pending_on_top (a ++ b) <-> pending_on_top b.
Proof. induction 1 as [|e a He _ IH]; simpl; [done|]. by rewrite He. Qed.

Lemma update_first_app_l p f a b :
  Forall (fun e => p e = false) a -> update_first p f (a ++ b) = a ++ update_first p f b.
Proof. induction 1 as [|e a He _ IH]; simpl; [done|]. by rewrite He, IH. Qed.

Lemma update_first_none p f c : Forall (fun e => p e = false) c -> update_first p f c = c.
Proof. induction 1 as [|e a He _ IH]; simpl; [done|]. by rewrite He, IH. Qed.

Lemma aborted_not_live e : is_aborted e = true -> is_live_head e = false.
Proof. unfold is_live_head. intros ->. apply andb_false_r. Qed.

Lemma aborted_not_pending_by txn e : is_aborted e = true -> pending_by txn e = false.
Proof. unfold is_aborted, pending_by. by destruct (state e). Qed.

Lemma not_pending_not_pending_by txn e : is_pending e = false -> pending_by txn e = false.
Proof. unfold is_pending, pending_by. by destruct (state e). Qed.

Definition no_pending (c : chain) : Prop := Forall (fun e => is_pending e = false) c.

Lemma close_head_no_pending c t :
  no_pending c -> no_pending (update_first is_live_head (with_stop t) c).
Proof.
  induction 1 as [|e c He Hc IH]; simpl; [constructor|]. destruct (is_live_head e); by constructor.
Qed.

Lemma push_pending_wf c d tomb t txn :
  chain_wf c -> no_pending c -> ts_lt t Ts_MAX ->
  (forall h, live_head c = Some h -> ts_lt (start_ts h) t) ->
  chain_wf (push_pending c d tomb t txn).
Proof.
  intros [Hl _] Hnp Ht Hlt. unfold push_pending.
  split; [|by apply close_head_no_pending]. simpl. split_and!; try done.
  pose proof (live_head_wf c Hl) as H.
  destruct (live_head c) as [h|] eqn:Hlive.
  - destruct H as (a & b & -> & Ha & Hh & Hs & Hm & Hb).
    rewrite update_first_app_l by (eapply List.Forall_impl; [|exact Ha]; apply aborted_not_live).
    simpl. unfold is_live_head at 1. rewrite Hh, bool_decide_true by done. simpl.
    apply linked_aborted_app; [done|]. simpl.
    change (is_aborted (with_stop t h)) with (is_aborted h). rewrite Hh.
    split_and!; try done. by apply Hlt.
  - rewrite update_first_none by (eapply List.Forall_impl; [|exact H]; apply aborted_not_live).
    rewrite <- (app_nil_r c). by apply linked_aborted_app.
Qed.

(** The commit flip and the abort flip on a chain in order *)

Lemma flip_loop_none n c txn ct :
  Forall (fun e => pending_by txn e = false) c -> flip_loop n c txn ct = (c, 0).
Proof.
  intros H. revert n. induction H as [|e c He _ IH]; intros [|n]; simpl; try done. by rewrite He, IH.
Qed.

Lemma flip_loop_app n a b txn ct :
  Forall (fun e => pending_by txn e = false) a ->
  flip_loop (length a + n) (a ++ b) txn ct =
    (a ++ fst (flip_loop n b txn ct), snd (flip_loop n b txn ct)).
Proof.
  induction 1 as [|e a He _ IH]; simpl; [by destruct (flip_loop n b txn ct)|]. by rewrite He, IH.
Qed.

Lemma restore_no_pending c t : no_pending c -> no_pending (restore_previous_head_after_abort c t).
Proof.
  unfold restore_previous_head_after_abort. induction 1 as [|e c He Hc IH]; simpl; [constructor|].
  destruct (_ && _); by constructor.
Qed.

Lemma restore_linked t c :
  linked t c -> ts_lt t Ts_MAX -> linked Ts_MAX (restore_previous_head_after_abort c t).
Proof.
  unfold restore_previous_head_after_abort. induction c as [|e c IH]; simpl; [done|].
  intros Hl Ht. destruct (is_aborted e) eqn:Ha; simpl.
  - rewrite Ha. by apply IH.
  - destruct Hl as (Hs & Hlt & Hl). rewrite bool_decide_true by done. simpl.
    change (is_aborted (with_stop Ts_MAX e)) with (is_aborted e). rewrite Ha.
    split_and!; try done. unfold with_stop; simpl. ts_lia.
Qed.

Lemma no_pending_by c txn : no_pending c -> Forall (fun e => pending_by txn e = false) c.
Proof. apply List.Forall_impl. intros. by apply not_pending_not_pending_by. Qed.

(** A chain in order is all residue, or residue above a head *)
Lemma chain_wf_split c :
  chain_wf c ->
  Forall (fun e => is_aborted e = true) c \/
  exists a h b, c = a ++ h :: b /\ Forall (fun e => is_aborted e = true) a /\
    is_aborted h = false /\ stop_ts h = Ts_MAX /\ ts_lt (start_ts h) Ts_MAX /\
    linked (start_ts h) b /\ no_pending b.
Proof.
  intros [Hl Hp]. pose proof (live_head_wf c Hl) as H. destruct (live_head c) as [h|]; [|by left].
  destruct H as (a & b & -> & Ha & Hh & Hs & Hm & Hb). right. exists a, h, b. split_and!; try done.
  apply pending_on_top_aborted_app in Hp; [|done]. simpl in Hp. by rewrite Hh in Hp.
Qed.

Lemma flip_shape a h b txn ct :
  Forall (fun e => is_aborted e = true) a -> no_pending b ->
  flip_pending_in_chain (a ++ h :: b) txn ct =
    if pending_by txn h then
      (a ++ flip_entry ct h ::
         match ct with Some _ => b | None => restore_previous_head_after_abort b (start_ts h) end, 1)
    else (a ++ h :: b, 0).
Proof.
  intros Ha Hb. unfold flip_pending_in_chain. rewrite length_app. simpl length.
  rewrite flip_loop_app by (eapply List.Forall_impl; [|exact Ha]; intros; by apply aborted_not_pending_by).
  simpl. destruct (pending_by txn h).
  - rewrite flip_loop_none; [done|]. apply no_pending_by. destruct ct; [done|]. by apply restore_no_pending.
  - by rewrite flip_loop_none by by apply no_pending_by.
Qed.

Lemma flip_wf c txn ct :
  chain_wf c ->
  (forall e t, In e c -> pending_by txn e = true -> ct = Some t -> start_ts e = t) ->
  chain_wf (fst (flip_pending_in_chain c txn ct)).
Proof.
  intros Hwf Hct. destruct (chain_wf_split c Hwf) as [H|(a & h & b & -> & Ha & Hh & Hs & Hm & Hl & Hb)].
  { unfold flip_pending_in_chain. rewrite flip_loop_none; [done|].
    eapply List.Forall_impl; [|exact H]; intros; by apply aborted_not_pending_by. }
  rewrite flip_shape by done. destruct (pending_by txn h) eqn:Hp; [|done]. simpl.
  split; [apply linked_aborted_app | apply pending_on_top_aborted_app]; try done.
  - destruct ct as [t|]; simpl.
    + rewrite <- (Hct h t (in_elt _ _ _) Hp eq_refl). by split_and!.
    + by apply restore_linked.
  - destruct ct as [t|]; simpl; [done|]. by apply pending_none_on_top, restore_no_pending.
Qed.

(** Pruning keeps the order: what it drops besides residue is a tail. *)

Lemma prune_dead next ort c :
  linked next c -> ts_le next ort -> ts_lt next Ts_MAX -> prune_chain ort c = [].
Proof.
  intros Hl Ho Hm. unfold prune_chain. revert next Hl Ho Hm.
  induction c as [|e c IH]; intros next Hl Ho Hm; simpl; [done|]. simpl in Hl.
  destruct (is_aborted e) eqn:Ha; unfold prune_keep at 1; rewrite Ha; simpl; [by apply (IH next)|].
  destruct Hl as (Hs & Hlt & Hl). rewrite bool_decide_false by (rewrite Hs; ts_lia).
  replace (ts_ltb ort (stop_ts e)) with false by (rewrite Hs; symmetry; ts_lia).
  simpl. apply (IH (start_ts e)); [done|ts_lia..].
Qed.

Lemma prune_linked next ort c :
  linked next c -> ts_le next Ts_MAX -> linked next (prune_chain ort c).
Proof.
  unfold prune_chain. revert next. induction c as [|e c IH]; intros next Hl Hm; simpl; [done|].
  simpl in Hl. destruct (is_aborted e) eqn:Ha; unfold prune_keep at 1; rewrite Ha; simpl; [by apply IH|].
  destruct Hl as (Hs & Hlt & Hl). destruct (bool_decide _ || _) eqn:Hk.
  - simpl. rewrite Ha. split_and!; try done. apply IH; [done|ts_lia].
  - apply orb_false_iff in Hk as [Hk1 Hk2]. apply bool_decide_eq_false in Hk1. rewrite Hs in *.
    assert (List.filter (prune_keep ort) c = []) as ->; [|done].
    apply (prune_dead (start_ts e)); [done|ts_lia..].
Qed.

Lemma prune_no_pending ort c : no_pending c -> no_pending (prune_chain ort c).
Proof.
  unfold no_pending, prune_chain. induction 1 as [|e c He Hc IH]; simpl; [constructor|].
  destruct (prune_keep ort e); by try constructor.
Qed.

Lemma prune_pending_on_top ort c : pending_on_top c -> pending_on_top (prune_chain ort c).
Proof.
  induction c as [|e c IH]; intros Hp; [done|]. simpl in Hp. unfold prune_chain in *. simpl.
  destruct (is_aborted e) eqn:Ha; unfold prune_keep at 1; rewrite Ha; simpl; [by apply IH|].
  destruct (bool_decide _ || _); [simpl; rewrite Ha; by apply prune_no_pending|].
  by apply pending_none_on_top, prune_no_pending.
Qed.

Lemma prune_wf ort c : chain_wf c -> chain_wf (prune_chain ort c).
Proof.
  intros [? ?]. split; [apply prune_linked; [done|ts_lia] | by apply prune_pending_on_top].
Qed.

(** Replay on a chain that recovery itself built *)
Lemma replay_wf c t ord d tomb :
  chain_wf c -> Forall (fun e => is_committed e = true) c -> ts_lt t Ts_MAX ->
  match c with [] => True | e :: _ => ts_lt (start_ts e) t \/ (start_ts e = t /\ txn_id e = ord) end ->
  chain_wf (replay_chain_op c t ord d tomb) /\
  Forall (fun e => is_committed e = true) (replay_chain_op c t ord d tomb).
Proof.
  intros [Hl _] Hc Ht Hord. unfold replay_chain_op.
  assert (forall e, is_committed e = true -> is_aborted e = false /\ is_pending e = false) as Hcs.
  { intros e. unfold is_committed, is_aborted, is_pending. by destruct (state e). }
  assert (forall l, Forall (fun e => is_committed e = true) l -> no_pending l) as Hnp.
  { intros l. apply List.Forall_impl. intros e He. by apply Hcs. }
  destruct c as [|e c]; simpl.
  { split; [|by repeat constructor]. split; simpl; [by split_and!|constructor]. }
  destruct (Hcs e) as [Ha _]; [by inv Hc|]. simpl in Hl. rewrite Ha in Hl. destruct Hl as (Hs & Hlt & Hl).
  case_bool_decide as Heq; simpl; [destruct (Z.eqb_spec (txn_id e) ord)|].
  - split; [|done]. split; simpl; rewrite Ha; [done|]. apply Hnp. by inv Hc.
  - exfalso. destruct Hord as [Hord|[_ ?]]; [|done]. rewrite Heq in Hord. ts_lia.
  - destruct Hord as [Hord|[? _]]; [|done]. inv Hc.
    split; [|by repeat constructor]. split; simpl.
    + change (is_aborted (with_stop t e)) with (is_aborted e). rewrite Ha. by split_and!.
    + constructor; [by apply Hcs|]. by apply Hnp.
Qed.

(** Only the head of a chain in order can be pending. *)
Lemma settled_no_pending c :
  chain_wf c -> (forall h, live_head c = Some h -> is_pending h = false) -> no_pending c.
Proof.
  intros Hwf Hset. assert (forall e, is_aborted e = true -> is_pending e = false) as Hab.
  { intros e. unfold is_aborted, is_pending. by destruct (state e). }
  pose proof (live_head_wf c (proj1 Hwf)) as H. destruct (live_head c) as [h|].
  - destruct H as (a & b & -> & Ha & Hh & _ & _ & _).
    destruct Hwf as [_ Hp]. apply pending_on_top_aborted_app in Hp; [|done]. simpl in Hp.
    rewrite Hh in Hp. apply List.Forall_app. split; [exact (List.Forall_impl _ Hab Ha)|].
    constructor; [by apply Hset|done].
  - exact (List.Forall_impl _ Hab H).
Qed.

(** Where the classifier lets a primary write proceed, nothing is pending. *)
Lemma classify_proceed_no_pending c expected key txn :
  chain_wf c -> classify_delta_install c expected Primary key txn = Ok Proceed -> no_pending c.
Proof.
  intros Hwf Hcl. apply settled_no_pending; [done|]. intros h Hh. unfold classify_delta_install in Hcl.
  rewrite Hh in Hcl. unfold is_committed, is_pending in *. destruct (state h); [|done..]. simpl in Hcl.
  repeat (case_match; simplify_eq/=).
Qed.

(** Reopening a closed head gives back the chain. *)
Lemma restore_closed_head c t :
  chain_wf c -> restore_previous_head_after_abort (update_first is_live_head (with_stop t) c) t = c.
Proof.
  intros Hwf. unfold restore_previous_head_after_abort.
  destruct (chain_wf_split c Hwf) as [H|(a & h & b & -> & Ha & Hh & Hs & _)].
  - rewrite (update_first_none is_live_head) by (eapply List.Forall_impl; [|exact H]; apply aborted_not_live).
    apply update_first_none. eapply List.Forall_impl; [|exact H]. by intros e ->.
  - rewrite update_first_app_l by (eapply List.Forall_impl; [|exact Ha]; apply aborted_not_live).
    rewrite update_first_app_l by (eapply List.Forall_impl; [|exact Ha]; by intros e ->).
    simpl. unfold is_live_head. rewrite Hh, bool_decide_true by done. simpl.
    change (is_aborted (with_stop t h)) with (is_aborted h). rewrite Hh, bool_decide_true by done. simpl.
    do 2 f_equal. destruct h; simpl in *. by subst.
Qed.

(** ** What an install does *)

Lemma install_pending_inv c expected scope unique key d tomb t txn c' :
  install_pending c expected scope unique key d tomb t txn = Ok c' ->
  c' = c \/
  (classify_delta_install c expected scope key txn = Ok Proceed /\ c' = push_pending c d tomb t txn).
Proof.
  unfold install_pending. destruct (classify_delta_install _ _ _ _ _) as [[|]| |]; simpl; try done.
  - intros [= <-]. by left.
  - destruct unique; simpl; intros; simplify_eq. by right.
Qed.

Lemma linked_one_window next c r i j e f :
  linked next c -> c !! i = Some e -> c !! j = Some f ->
  is_aborted e = false -> is_aborted f = false ->
  in_window e r = true -> in_window f r = true -> i = j.
Proof.
  assert (forall i j e f, (i < j)%nat -> linked next c -> c !! i = Some e -> c !! j = Some f ->
    is_aborted e = false -> is_aborted f = false -> in_window e r = true -> in_window f r = true -> False) as Hlt.
  { clear. intros i j e f Hij Hl Hi Hj Ha Hb He Hf.
    rewrite <- (take_drop_middle _ _ _ Hj) in Hl. apply linked_app in Hl as (_ & _ & Hall); [|done].
    rewrite List.Forall_forall in Hall.
    assert (ts_le (stop_ts f) (start_ts e)) as Hle.
    { apply Hall; [|done]. apply list_elem_of_In, list_elem_of_lookup_2 with i. by rewrite lookup_take_lt. }
    unfold in_window in *. apply andb_true_iff in He as [He _], Hf as [_ Hf]. ts_lia. }
  intros. destruct (lt_eq_lt_dec i j) as [[?| ->]|?]; [|done|]; exfalso; eapply Hlt; eauto.
Qed.

Lemma abort_flip_push c d tomb t txn :
  chain_wf c -> no_pending c ->
  flip_pending_in_chain (push_pending c d tomb t txn) txn None =
    (mkEntry t Ts_MAX txn Aborted d tomb :: c, 1).
Proof.
  intros Hwf Hnp. unfold push_pending.
  pose proof (flip_shape [] (mkEntry t Ts_MAX txn (Pending txn) d tomb)
    (update_first is_live_head (with_stop t) c) txn None (List.Forall_nil _)) as Hf. simpl in Hf.
  rewrite Hf by by apply close_head_no_pending.
  unfold pending_by; simpl. rewrite Z.eqb_refl. f_equal. f_equal. by apply restore_closed_head.
Qed.

Lemma commit_flip_push c d tomb t txn :
  no_pending c ->
  flip_pending_in_chain (push_pending c d tomb t txn) txn (Some t) =
    (mkEntry t Ts_MAX txn Committed d tomb :: update_first is_live_head (with_stop t) c, 1).
Proof.
  intros Hnp. unfold push_pending.
  pose proof (flip_shape [] (mkEntry t Ts_MAX txn (Pending txn) d tomb)
    (update_first is_live_head (with_stop t) c) txn (Some t) (List.Forall_nil _)) as Hf. simpl in Hf.
  rewrite Hf by by apply close_head_no_pending.
  unfold pending_by; simpl. by rewrite Z.eqb_refl.
Qed.

(** A primary install that changed a chain in order pushed over nothing
    pending. *)
Lemma install_changed c expected scope unique key d tomb t txn c' :
  chain_wf c -> scope = Primary \/ no_pending c ->
  install_pending c expected scope unique key d tomb t txn = Ok c' -> c' <> c ->
  no_pending c /\ c' = push_pending c d tomb t txn.
Proof.
  intros Hwf Hsc Hi Hne.
  destruct (install_pending_inv _ _ _ _ _ _ _ _ _ _ Hi) as [->|[Hcl ->]]; [done|].
  split; [|done]. destruct Hsc as [->|?]; [|done]. by eapply classify_proceed_no_pending.
Qed.

(** C21: Aborting undoes an install exactly: after a primary write (or a
    secondary one over a chain with nothing pending) installs its pending
    head, the abort flip changes one entry, leaves it as residue no reader
    sees, and the chain below it is the one before the install, the closed
    head reopened. *)
Theorem abort_undoes_install c expected scope unique key d tomb t txn c' :
  chain_wf c -> scope = Primary \/ no_pending c ->
  install_pending c expected scope unique key d tomb t txn = Ok c' -> c' <> c ->
  flip_pending_in_chain c' txn None = (mkEntry t Ts_MAX txn Aborted d tomb :: c, 1).
Proof.
  intros Hwf Hsc Hi Hne.
  destruct (install_changed _ _ _ _ _ _ _ _ _ _ Hwf Hsc Hi Hne) as [Hnp ->].
  by apply abort_flip_push.
Qed.

Lemma live_head_top e c : is_live_head e = true -> live_head (e :: c) = Some e.
Proof. unfold live_head. simpl. by intros ->. Qed.

(** C17: First committer wins.  Once transaction [a] has installed its pending
    head on a primary key, an install by another transaction [b] on that key is
    refused with a write conflict; after [a] commits, [b]'s write against any
    older head is refused as stale and, unless [a] deleted the key, [b]'s write
    that expects no head is refused as a same-key conflict; and after [a]
    aborts, [b] is classified exactly as if [a] had never written.  A secondary
    install is never refused, and a primary write that expects no head proceeds
    over a committed deletion. *)
Theorem first_committer_wins c ex1 ex2 u1 u2 key d1 d2 tomb1 tomb2 t1 t2 a b c1 :
  chain_wf c -> a <> b ->
  install_pending c ex1 Primary u1 key d1 tomb1 t1 a = Ok c1 -> c1 <> c ->
  ex2 <> Some (mkExpectedHead t1 a) ->
  (exists reason,
     install_pending c1 ex2 Primary u2 key d2 tomb2 t2 b = Err (WriteConflict reason)) /\
  (ex2 <> None ->
     install_pending (fst (flip_pending_in_chain c1 a (Some t1))) ex2 Primary u2 key d2 tomb2 t2 b
     = Err (WriteConflict StaleSnapshot)) /\
  (ex2 = None -> tomb1 = false ->
     install_pending (fst (flip_pending_in_chain c1 a (Some t1))) ex2 Primary u2 key d2 tomb2 t2 b
     = Err (WriteConflict (SameKeyConflict (key_preview key)))) /\
  classify_delta_install (fst (flip_pending_in_chain c1 a None)) ex2 Primary key b
  = classify_delta_install c ex2 Primary key b.
Proof.
  intros Hwf Hab Hi Hne Hex.
  destruct (install_changed _ _ _ _ _ _ _ _ _ _ Hwf (or_introl eq_refl) Hi Hne) as [Hnp ->].
  rewrite abort_flip_push, commit_flip_push by done. unfold install_pending, classify_delta_install.
  unfold push_pending. rewrite !live_head_top by done. simpl.
  destruct (Z.eqb_spec a b) as [?|_]; [done|]. split_and!; [| | |done].
  - destruct ex2 as [ex|]; [case_bool_decide; simpl; by eauto|by eauto].
  - intros Hs. destruct ex2 as [ex|]; [|done]. rewrite bool_decide_false by naive_solver. done.
  - by intros -> ->.
Qed.

(** *** The theorems at work on one key's history: an insert at 10, an update
    at 20 that aborts, an update at 30 that commits *)
Definition at_ts (ms : Z) : Ts := mkTs ms 0.
Definition sample_base : chain := [mkEntry (at_ts 10) Ts_MAX 1 Committed (VInline [7]) false].

Lemma sample_base_wf : chain_wf sample_base.
Proof. split; simpl; [by split_and!|constructor]. Qed.

Definition sample_updated : chain :=
  push_pending sample_base (VInline [8]) false (at_ts 20) 2.

Lemma abort_undoes_install_witness :
  flip_pending_in_chain sample_updated 2 None =
    (mkEntry (at_ts 20) Ts_MAX 2 Aborted (VInline [8]) false :: sample_base, 1).
Proof.
  apply (abort_undoes_install sample_base (Some (mkExpectedHead (at_ts 10) 1)) Primary (Ok tt) [5]);
    [apply sample_base_wf|by left|reflexivity|done].
Defined.

Lemma first_committer_wins_witness :
  install_pending (fst (flip_pending_in_chain sample_updated 2 (Some (at_ts 20))))
    (Some (mkExpectedHead (at_ts 10) 1)) Primary (Ok tt) [5] (VInline [9]) false (at_ts 30) 3
  = Err (WriteConflict StaleSnapshot).
Proof.
  apply (first_committer_wins sample_base (Some (mkExpectedHead (at_ts 10) 1))
    (Some (mkExpectedHead (at_ts 10) 1)) (Ok tt) (Ok tt) [5] (VInline [8]) (VInline [9]) false false
    (at_ts 20) (at_ts 30) 2 3 sample_updated);
    [apply sample_base_wf|done|reflexivity|done|done|done].
Defined.
