(* ===== verification/Writers.v ===== *)
(** * Concurrent transactions on one key

    The commit envelope ([storage/paged_engine/commit_envelope.rs]) seen from
    one key of one tree: a write body observes the key's head
    ([paged_engine/doc_ops.rs], [mvcc/transaction.rs]), the envelope then takes
    a commit timestamp, installs the pending heads
    ([paged_engine/pending_install.rs]) and flips them.  Nothing serialises
    these steps across transactions, so they interleave freely here.  Shown:
    the chain stays in order as long as no install without an expected head
    passes a later or pending head, and what happens when one does. *)

From S2P Require Import Prelude Bytes Timestamp BTreeMap Version Chain.

#[local] Open Scope Z_scope.

(** ** Staging a write *)

Definition expected_head_from_entry (e : VersionEntry) : ExpectedHead :=
  mkExpectedHead (start_ts e) (txn_id e).

(** The head an update or a delete of a selected document expects; [same_doc]
    decodes a version's document and compares it with the selected one. *)
Definition expected_head_for_selected_doc (same_doc : VersionData -> Result bool) (c : chain)
  : Result (option ExpectedHead) :=
  match live_head c with
  | None => Ok None
  | Some head =>
      if negb (is_committed head) || is_tombstone head then Err (WriteConflict StaleSnapshot)
      else
        same ← same_doc (data head);
        if (same : bool) then Ok (Some (expected_head_from_entry head))
        else Err (WriteConflict StaleSnapshot)
  end.

(** A transaction: its id, the expected heads of the writes it staged for the
    key, and its commit timestamp once it is registered *)
Record WriteTxn : Set := mkWriteTxn {
  wt_txn_id : Z;
  wt_staged : list (option ExpectedHead);
  wt_commit_ts : option Ts;
}.

(** One key: its chain, the last timestamp the oracle gave out, the
    transaction counter and the transactions under way *)
Record KeyState : Set := mkKeyState {
  ks_chain : chain;
  ks_clock : Ts;
  ks_txn_counter : Z;
  ks_writers : list WriteTxn;
}.

Definition key_opened (clock : Ts) : KeyState := mkKeyState [] clock 1 [].

Definition stage_write (ex : option ExpectedHead) (w : WriteTxn) : WriteTxn :=
  mkWriteTxn (wt_txn_id w) (ex :: wt_staged w) (wt_commit_ts w).

Definition set_commit_ts (t : Ts) (w : WriteTxn) : WriteTxn :=
  mkWriteTxn (wt_txn_id w) (wt_staged w) (Some t).

(** What the code does not check: an install that expects no head finds none,
    or one that is settled and older. *)
Definition not_overtaken (c : chain) (ex : option ExpectedHead) (commit_ts : Ts) : bool :=
  match ex, live_head c with
  | None, Some head => ts_ltb (start_ts head) commit_ts && negb (is_pending head)
  | _, _ => true
  end.

Definition unchecked (c : chain) (ex : option ExpectedHead) (commit_ts : Ts) : bool := true.

(** The steps of all transactions on the key, of pruning and, before any
    transaction runs, of recovery.  A registration takes the next timestamp of
    the oracle; recovery replays committed operations in timestamp order, one
    per transaction (the staging keeps a key once).  [allowed] restricts the
    installs. *)
Inductive key_step (scope : InstallConflictScope) (allowed : chain -> option ExpectedHead -> Ts -> bool)
  : KeyState -> KeyState -> Prop :=
| key_begin c clock n ws :
    key_step scope allowed (mkKeyState c clock n ws)
      (mkKeyState c clock (n + 1) (mkWriteTxn n [] None :: ws))
| key_stage_insert c clock n l w r :
    wt_commit_ts w = None ->
    key_step scope allowed (mkKeyState c clock n (l ++ w :: r))
      (mkKeyState c clock n (l ++ stage_write None w :: r))
| key_stage_selected c clock n l w r same_doc ex :
    wt_commit_ts w = None -> expected_head_for_selected_doc same_doc c = Ok ex ->
    key_step scope allowed (mkKeyState c clock n (l ++ w :: r))
      (mkKeyState c clock n (l ++ stage_write ex w :: r))
| key_register c clock n l w r t :
    wt_commit_ts w = None -> ts_lt clock t -> ts_lt t Ts_MAX ->
    key_step scope allowed (mkKeyState c clock n (l ++ w :: r))
      (mkKeyState c t n (l ++ set_commit_ts t w :: r))
| key_install c clock n l w r t ex unique key d tomb c' :
    wt_commit_ts w = Some t -> In ex (wt_staged w) -> allowed c ex t = true ->
    install_pending c ex scope unique key d tomb t (wt_txn_id w) = Ok c' ->
    key_step scope allowed (mkKeyState c clock n (l ++ w :: r))
      (mkKeyState c' clock n (l ++ w :: r))
| key_commit c clock n l w r t :
    wt_commit_ts w = Some t ->
    key_step scope allowed (mkKeyState c clock n (l ++ w :: r))
      (mkKeyState (fst (flip_pending_in_chain c (wt_txn_id w) (Some t))) clock n (l ++ r))
| key_abort c clock n l w r :
    key_step scope allowed (mkKeyState c clock n (l ++ w :: r))
      (mkKeyState (fst (flip_pending_in_chain c (wt_txn_id w) None)) clock n (l ++ r))
| key_prune c clock n ws ort :
    key_step scope allowed (mkKeyState c clock n ws) (mkKeyState (prune_chain ort c) clock n ws)
| key_replay c clock clock' n t ord d tomb :
    Forall (fun e => is_committed e = true) c -> ts_lt t Ts_MAX ->
    match c with [] => True | e :: _ => ts_lt (start_ts e) t \/ (start_ts e = t /\ txn_id e = ord) end ->
    ts_le clock clock' -> ts_le t clock' ->
    key_step scope allowed (mkKeyState c clock n [])
      (mkKeyState (replay_chain_op c t ord d tomb) clock' n []).

(** ** The invariant *)

Definition staged_before (clock : Ts) (w : WriteTxn) : Prop :=
  Forall (fun ex => match ex with
                    | Some x => match wt_commit_ts w with
                                | None => ts_le (eh_commit_ts x) clock
                                | Some t => ts_lt (eh_commit_ts x) t
                                end
                    | None => True
                    end) (wt_staged w).

Definition writer_ok (clock : Ts) (n : Z) (w : WriteTxn) : Prop :=
  wt_txn_id w < n /\ staged_before clock w /\
  match wt_commit_ts w with Some t => ts_le t clock /\ ts_lt t Ts_MAX | None => True end.

(** A pending entry belongs to a registered transaction. *)
Definition owned (ws : list WriteTxn) (e : VersionEntry) : Prop :=
  match state e with
  | Pending id => exists w, In w ws /\ wt_txn_id w = id /\ wt_commit_ts w = Some (start_ts e)
  | _ => True
  end.

Record key_inv (s : KeyState) : Prop := {
  inv_wf : chain_wf (ks_chain s);
  inv_clock : Forall (fun e => ts_le (start_ts e) (ks_clock s)) (ks_chain s);
  inv_owned : Forall (owned (ks_writers s)) (ks_chain s);
  inv_writers : Forall (writer_ok (ks_clock s) (ks_txn_counter s)) (ks_writers s);
  inv_ids : NoDup (map wt_txn_id (ks_writers s));
}.

(** *** What the operations do to every entry *)

Lemma update_first_Forall (P : VersionEntry -> Prop) p f c :
  (forall e, P e -> P (f e)) -> Forall P c -> Forall P (update_first p f c).
Proof.
  intros Hf. induction 1 as [|e c He Hc IH]; simpl; [constructor|]. destruct (p e); constructor; auto.
Qed.

Lemma update_first_length p f c : length (update_first p f c) = length c.
Proof. induction c as [|e c IH]; simpl; [done|]. destruct (p e); simpl; congruence. Qed.

Lemma flip_loop_Forall (P Q : VersionEntry -> Prop) n c txn ct :
  (forall e, P e -> P (with_stop Ts_MAX e)) ->
  (forall e, P e -> pending_by txn e = false -> Q e) ->
  (forall e, P e -> pending_by txn e = true -> Q (flip_entry ct e)) ->
  (length c <= n)%nat -> Forall P c -> Forall Q (fst (flip_loop n c txn ct)).
Proof.
  intros Hw Hn Hp. revert c. induction n as [|n IH]; intros [|e c] Hle Hc; simpl in *; try (done || lia).
  inv Hc. destruct (pending_by txn e) eqn:He.
  - set (t := match ct with Some _ => c | None => _ end).
    assert (Forall P t /\ (length t <= n)%nat) as [Ht Hlt].
    { subst t. destruct ct; [split; [done|lia]|]. unfold restore_previous_head_after_abort.
      rewrite update_first_length. split; [by apply update_first_Forall|lia]. }
    specialize (IH t Hlt Ht). destruct (flip_loop n t txn ct) as [t' k]. constructor; auto.
  - assert (length c <= n)%nat as Hlt by lia. specialize (IH c Hlt ltac:(done)).
    destruct (flip_loop n c txn ct) as [t' k]. constructor; auto.
Qed.

Lemma flip_Forall (P Q : VersionEntry -> Prop) c txn ct :
  (forall e, P e -> P (with_stop Ts_MAX e)) ->
  (forall e, P e -> pending_by txn e = false -> Q e) ->
  (forall e, P e -> pending_by txn e = true -> Q (flip_entry ct e)) ->
  Forall P c -> Forall Q (fst (flip_pending_in_chain c txn ct)).
Proof. intros. by apply (flip_loop_Forall P). Qed.

Lemma prune_Forall (P : VersionEntry -> Prop) ort c : Forall P c -> Forall P (prune_chain ort c).
Proof.
  unfold prune_chain. induction 1 as [|e c He Hc IH]; simpl; [constructor|].
  destruct (prune_keep ort e); by try constructor.
Qed.

Lemma replay_Forall (P : VersionEntry -> Prop) c t ord d tomb :
  (forall e, P e -> P (with_stop t e)) -> P (mkEntry t Ts_MAX ord Committed (VInline d) tomb) ->
  Forall P c -> Forall P (replay_chain_op c t ord d tomb).
Proof.
  intros Hw He Hc. unfold replay_chain_op. case_match; [done|]. constructor; [done|].
  destruct Hc; constructor; auto.
Qed.

(** *** The writers *)

Lemma owned_writers ws ws' e :
  (forall w, In w ws -> exists w', In w' ws' /\ wt_txn_id w' = wt_txn_id w /\
     (wt_commit_ts w <> None -> wt_commit_ts w' = wt_commit_ts w)) ->
  owned ws e -> owned ws' e.
Proof.
  intros Hw. unfold owned. destruct (state e) as [id| |]; try done. intros (w & Hin & Hid & Hc).
  destruct (Hw w Hin) as (w' & Hin' & Hid' & Hc'). exists w'. split; [done|]. split; [congruence|].
  rewrite Hc' by congruence. done.
Qed.

Lemma owned_replace l w w' r e :
  wt_txn_id w' = wt_txn_id w -> wt_commit_ts w = None -> owned (l ++ w :: r) e -> owned (l ++ w' :: r) e.
Proof.
  intros Hid Hc. apply owned_writers. intros x [Hin|[->|Hin]]%in_app_iff.
  - exists x. rewrite in_app_iff. auto.
  - exists w'. split; [apply in_elt|]. done.
  - exists x. rewrite in_app_iff. simpl. auto.
Qed.

(** A pending entry of a settled transaction has none left to own it, and no
    other entry loses its owner. *)
Lemma owned_remove l w r e :
  pending_by (wt_txn_id w) e = false -> owned (l ++ w :: r) e -> owned (l ++ r) e.
Proof.
  unfold owned, pending_by. destruct (state e) as [id| |]; try done. intros Hne (x & Hin & <- & Hc).
  apply in_app_iff in Hin as [Hin|[->|Hin]]; [|by rewrite Z.eqb_refl in Hne|]; exists x; by rewrite in_app_iff; auto.
Qed.

(** An entry a transaction has pending starts at its commit timestamp. *)
Lemma owned_start l w r e t :
  NoDup (map wt_txn_id (l ++ w :: r)) -> wt_commit_ts w = Some t ->
  owned (l ++ w :: r) e -> pending_by (wt_txn_id w) e = true -> start_ts e = t.
Proof.
  unfold owned, pending_by. intros Hnd Hw. destruct (state e) as [id| |]; try done.
  intros (x & Hin & Hid & Hc) Hx%Z.eqb_eq. rewrite Hx in Hid. enough (x = w) by congruence.
  rewrite map_app in Hnd. simpl in Hnd. apply NoDup_app in Hnd as (_ & Hl & Hr%NoDup_cons).
  apply in_app_iff in Hin as [Hin|[->|Hin]]; [|done|]; exfalso.
  - apply (Hl (wt_txn_id x)); [apply list_elem_of_In, in_map, Hin|]. rewrite Hid. apply list_elem_of_here.
  - apply (proj1 Hr). rewrite <- Hid. apply list_elem_of_In, in_map, Hin.
Qed.

Lemma writer_ok_later clock clock' n n' w :
  ts_le clock clock' -> n <= n' -> writer_ok clock n w -> writer_ok clock' n' w.
Proof.
  intros Ht Hn (Hid & Hst & Hc). split; [lia|]. unfold staged_before in *.
  destruct (wt_commit_ts w) as [t|]; [split; [done|split; [ts_lia|tauto]]|]. split; [|done].
  eapply List.Forall_impl; [|exact Hst]. intros [x|]; [ts_lia|done].
Qed.

Lemma Forall_replace {A} (P : A -> Prop) l x y r :
  Forall P (l ++ x :: r) -> P y -> Forall P (l ++ y :: r).
Proof. rewrite !Forall_app, !Forall_cons. tauto. Qed.

Lemma Forall_remove {A} (P : A -> Prop) l x r : Forall P (l ++ x :: r) -> P x /\ Forall P (l ++ r).
Proof. rewrite !Forall_app, !Forall_cons. tauto. Qed.

Lemma ids_replace l w w' r :
  wt_txn_id w' = wt_txn_id w -> map wt_txn_id (l ++ w' :: r) = map wt_txn_id (l ++ w :: r).
Proof. intros H. rewrite !map_app. simpl. by rewrite H. Qed.

Lemma ids_remove l w r : NoDup (map wt_txn_id (l ++ w :: r)) -> NoDup (map wt_txn_id (l ++ r)).
Proof. rewrite !map_app. simpl. rewrite !NoDup_app, NoDup_cons. set_solver. Qed.

(** An install that proceeds pushes over a settled and older head: the head it
    expected was committed before it took its timestamp. *)
Lemma install_in_order c ex scope key clock n w t :
  chain_wf c -> writer_ok clock n w -> wt_commit_ts w = Some t -> In ex (wt_staged w) ->
  not_overtaken c ex t = true -> classify_delta_install c ex scope key (wt_txn_id w) = Ok Proceed ->
  no_pending c /\ forall h, live_head c = Some h -> ts_lt (start_ts h) t.
Proof.
  intros Hwf (_ & Hst & _) Ht Hin Hno Hcl. unfold staged_before in Hst. rewrite Ht in Hst.
  rewrite List.Forall_forall in Hst. specialize (Hst ex Hin).
  assert (forall h, live_head c = Some h -> is_pending h = false /\ ts_lt (start_ts h) t) as Hh.
  { intros h Hh. unfold not_overtaken, classify_delta_install in *. rewrite Hh in *.
    destruct ex as [x|].
    - destruct (match state h with Pending _ => _ | _ => _ end); [done|].
      case_bool_decide as Hx; [|done]. rewrite <- Hx in Hst. split; [|exact Hst].
      unfold is_committed, is_pending in *. by destruct (state h).
    - apply andb_true_iff in Hno as [Hlt Hp%negb_true_iff]. split; [done|ts_lia]. }
  split; [|intros h H; by apply Hh]. apply settled_no_pending; [done|]. intros h H. by apply Hh.
Qed.

Lemma install_inv c clock n l w r t ex scope unique key d tomb c' :
  key_inv (mkKeyState c clock n (l ++ w :: r)) ->
  wt_commit_ts w = Some t -> In ex (wt_staged w) -> not_overtaken c ex t = true ->
  install_pending c ex scope unique key d tomb t (wt_txn_id w) = Ok c' ->
  key_inv (mkKeyState c' clock n (l ++ w :: r)).
Proof.
  intros [Hwf Hck Hown Hws Hids] Ht Hin Hno Hi; simpl in *.
  destruct (install_pending_inv _ _ _ _ _ _ _ _ _ _ Hi) as [->|[Hcl ->]]; [done|].
  destruct (Forall_remove _ _ _ _ Hws) as [Hw _].
  destruct (install_in_order _ _ _ _ _ _ _ _ Hwf Hw Ht Hin Hno Hcl) as [Hnp Hlt].
  destruct Hw as (_ & _ & Hw). rewrite Ht in Hw.
  split; simpl; try done.
  - apply push_pending_wf; [done|done|tauto|done].
  - constructor; [tauto|]. by apply update_first_Forall.
  - constructor; [|by apply update_first_Forall]. unfold owned; simpl. exists w. by split; [apply in_elt|].
Qed.

Lemma settle_inv c clock n l w r ct :
  key_inv (mkKeyState c clock n (l ++ w :: r)) ->
  match ct with Some t => wt_commit_ts w = Some t | None => True end ->
  key_inv (mkKeyState (fst (flip_pending_in_chain c (wt_txn_id w) ct)) clock n (l ++ r)).
Proof.
  intros [Hwf Hck Hown Hws Hids] Hct; simpl in *.
  destruct (Forall_remove _ _ _ _ Hws) as [(_ & _ & Hw) Hws'].
  split; simpl; [| | |done|by eapply ids_remove].
  - apply flip_wf; [done|]. intros e t Hin Hp ->. rewrite List.Forall_forall in Hown.
    by apply (owned_start l w r e t Hids Hct (Hown e Hin) Hp).
  - apply (flip_Forall (fun e => ts_le (start_ts e) clock)); try done.
    intros e He _. destruct ct as [t|]; [|done]. simpl. rewrite Hct in Hw. tauto.
  - apply (flip_Forall (owned (l ++ w :: r))); try done.
    + intros e He Hp. by eapply owned_remove.
    + intros e He _. by destruct ct.
Qed.

Lemma restage_inv c clock clock' n l w w' r :
  key_inv (mkKeyState c clock n (l ++ w :: r)) -> ts_le clock clock' ->
  wt_commit_ts w = None -> wt_txn_id w' = wt_txn_id w -> writer_ok clock' n w' ->
  key_inv (mkKeyState c clock' n (l ++ w' :: r)).
Proof.
  intros [Hwf Hck Hown Hws Hids] Hle Hc Hid Hw'; simpl in *. split; simpl; try done.
  - eapply List.Forall_impl; [|exact Hck]. intros e He. simpl in He. ts_lia.
  - eapply List.Forall_impl; [|exact Hown]. intros e. by apply owned_replace.
  - apply (Forall_replace _ l w); [|done]. eapply List.Forall_impl; [|exact Hws].
    intros x. apply writer_ok_later; [done|lia].
  - by rewrite (ids_replace l w).
Qed.

(** The head a selected document is matched against is committed, so older
    than any timestamp still to come. *)
Lemma expected_head_seen same_doc c clock x :
  Forall (fun e => ts_le (start_ts e) clock) c ->
  expected_head_for_selected_doc same_doc c = Ok (Some x) -> ts_le (eh_commit_ts x) clock.
Proof.
  intros Hck. unfold expected_head_for_selected_doc, live_head. destruct (find is_live_head c) as [h|] eqn:Hf; [|done].
  apply find_some in Hf as [Hin _]. rewrite List.Forall_forall in Hck. specialize (Hck h Hin).
  destruct (_ || _); [done|]. destruct (same_doc (data h)) as [[|]| |]; simpl; try done. by intros [= <-].
Qed.

Lemma key_step_inv scope s s' : key_step scope not_overtaken s s' -> key_inv s -> key_inv s'.
Proof.
  intros Hs Hinv. destruct Hs as [c clock n ws|c clock n l w r Hc|c clock n l w r same_doc ex Hc Hex
    |c clock n l w r t Hc Ht Hm|c clock n l w r t ex u key d tomb c' Ht Hin Hno Hi|c clock n l w r t Ht
    |c clock n l w r|c clock n ws ort|c clock clock' n t ord d tomb Hc Ht Hord Hle Hle'].
  - destruct Hinv as [Hwf Hck Hown Hws Hids]; simpl in *. split; simpl; try done.
    + eapply List.Forall_impl; [|exact Hown]. intros e. apply owned_writers. intros w Hw. exists w. simpl. auto.
    + constructor; [split; [simpl; lia|split; [constructor|done]]|]. eapply List.Forall_impl; [|exact Hws].
      intros w. apply writer_ok_later; [ts_lia|lia].
    + constructor; [|done]. rewrite list_elem_of_In, in_map_iff. intros (w & Hid & Hw).
      rewrite List.Forall_forall in Hws. destruct (Hws w Hw). lia.
  - destruct (Forall_remove _ _ _ _ (inv_writers _ Hinv)) as [(? & Hst & Hcw) _]. simpl in *.
    apply (restage_inv c clock clock n l w); [done|ts_lia|done|done|]. split; [done|]. split; [|done].
    by constructor.
  - destruct (Forall_remove _ _ _ _ (inv_writers _ Hinv)) as [(? & Hst & Hcw) _]. simpl in *.
    apply (restage_inv c clock clock n l w); [done|ts_lia|done|done|]. split; [done|]. split; [|done].
    constructor; [|done]. destruct ex as [x|]; [|done]. simpl. rewrite Hc.
    eapply expected_head_seen; [exact (inv_clock _ Hinv)|exact Hex].
  - destruct (Forall_remove _ _ _ _ (inv_writers _ Hinv)) as [(? & Hst & Hcw) _]. simpl in *.
    apply (restage_inv c clock t n l w); [done|ts_lia|done|done|]. split; [done|]. split; [|split; [ts_lia|done]].
    unfold staged_before in *. rewrite Hc in Hst. eapply List.Forall_impl; [|exact Hst]. intros [x|]; simpl; [ts_lia|done].
  - by apply (install_inv c clock n l w r t ex scope u key d tomb).
  - by apply (settle_inv c clock n l w r (Some t)).
  - by apply (settle_inv c clock n l w r None).
  - destruct Hinv as [Hwf Hck Hown Hws Hids]; simpl in *.
    split; simpl; try done; [by apply prune_wf|by apply prune_Forall..].
  - destruct Hinv as [Hwf Hck Hown Hws Hids]; simpl in *. split; simpl; try done.
    + by apply replay_wf.
    + apply replay_Forall; try done. eapply List.Forall_impl; [|exact Hck]. intros e He. simpl in He. ts_lia.
    + by apply replay_Forall.
Qed.

Lemma key_reachable_inv scope clock s :
  rtc (key_step scope not_overtaken) (key_opened clock) s -> key_inv s.
Proof.
  revert s. apply (rtc_ind_r key_inv); [split; simpl; constructor; done|].
  intros x y _ Hs Hx. by apply (key_step_inv scope x).
Qed.


(** ** What the missing check lets through *)

(** The steps of a transaction at the top of the list *)
Lemma key_run_install scope allowed c clock n txn staged t ex key d tomb c' ws s :
  In ex staged -> allowed c ex t = true ->
  install_pending c ex scope (Ok tt) key d tomb t txn = Ok c' ->
  rtc (key_step scope allowed) (mkKeyState c' clock n (mkWriteTxn txn staged (Some t) :: ws)) s ->
  rtc (key_step scope allowed) (mkKeyState c clock n (mkWriteTxn txn staged (Some t) :: ws)) s.
Proof.
  intros. eapply rtc_l; [|done].
  by apply (key_install _ _ c clock n [] (mkWriteTxn txn staged (Some t)) ws t ex (Ok tt) key d tomb c').
Qed.

Lemma key_run_commit scope allowed c clock n txn staged t ws s :
  rtc (key_step scope allowed) (mkKeyState (fst (flip_pending_in_chain c txn (Some t))) clock n ws) s ->
  rtc (key_step scope allowed) (mkKeyState c clock n (mkWriteTxn txn staged (Some t) :: ws)) s.
Proof.
  intros. eapply rtc_l; [|done]. by apply (key_commit _ _ c clock n [] (mkWriteTxn txn staged (Some t)) ws t).
Qed.

Lemma key_run_register scope allowed c clock n txn staged t ws s :
  ts_lt clock t -> ts_lt t Ts_MAX ->
  rtc (key_step scope allowed) (mkKeyState c t n (mkWriteTxn txn staged (Some t) :: ws)) s ->
  rtc (key_step scope allowed) (mkKeyState c clock n (mkWriteTxn txn staged None :: ws)) s.
Proof.
  intros. eapply rtc_l; [|done]. by apply (key_register _ _ c clock n [] (mkWriteTxn txn staged None) ws t).
Qed.

(** A new transaction stages one write: one that expects no head, or one of a
    document it selected. *)
Lemma key_run_insert scope allowed c clock n ws s :
  rtc (key_step scope allowed) (mkKeyState c clock (n + 1) (mkWriteTxn n [None] None :: ws)) s ->
  rtc (key_step scope allowed) (mkKeyState c clock n ws) s.
Proof.
  intros. eapply rtc_l; [apply key_begin|]. eapply rtc_l; [|done].
  by apply (key_stage_insert _ _ c clock _ [] (mkWriteTxn n [] None) ws).
Qed.

Lemma key_run_select scope allowed c clock n ws ex s :
  expected_head_for_selected_doc (fun _ => Ok true) c = Ok ex ->
  rtc (key_step scope allowed) (mkKeyState c clock (n + 1) (mkWriteTxn n [ex] None :: ws)) s ->
  rtc (key_step scope allowed) (mkKeyState c clock n ws) s.
Proof.
  intros. eapply rtc_l; [apply key_begin|]. eapply rtc_l; [|done].
  by apply (key_stage_selected _ _ c clock _ [] (mkWriteTxn n [] None) ws (fun _ => Ok true)).
Qed.

(** A whole transaction whose write meets no head *)
Lemma key_run_first scope allowed clock n t d tomb ws s :
  ts_lt clock t -> ts_lt t Ts_MAX -> allowed [] None t = true ->
  rtc (key_step scope allowed)
    (mkKeyState [mkEntry t Ts_MAX n Committed d tomb] t (n + 1) ws) s ->
  rtc (key_step scope allowed) (mkKeyState [] clock n ws) s.
Proof.
  intros Hc Hm Ha Hs. apply key_run_insert. apply (key_run_register _ _ _ _ _ _ _ t); [done|done|].
  eapply (key_run_install _ _ _ _ _ _ _ _ None [] d tomb); [by left|done|reflexivity|].
  apply key_run_commit. cbn. rewrite Z.eqb_refl. exact Hs.
Qed.

(** What a reader of the chain is shown *)
Definition read_chain (c : chain) (v : ReadView) : option VersionEntry :=
  find (fun e => version_visible_to e v) c.

Lemma read_chain_head e c v :
  state e = Committed -> ts_le (start_ts e) (read_ts v) -> stop_ts e = Ts_MAX ->
  ts_lt (read_ts v) Ts_MAX -> read_chain (e :: c) v = Some e.
Proof.
  intros Hst Hle Hs Hlt. unfold read_chain. simpl. unfold version_visible_to at 1. rewrite Hst, Hs.
  replace (ts_leb (start_ts e) (read_ts v)) with true by (symmetry; ts_lia).
  by replace (ts_ltb (read_ts v) Ts_MAX) with true by (symmetry; ts_lia).
Qed.

(** The chain recovery builds from a list of logged operations *)
Definition replayed (ops : list (Ts * Z * list Z * bool)) : chain :=
  fold_left (fun c '(t, ord, d, tomb) => replay_chain_op c t ord d tomb) ops [].

Lemma replayed_three t0 t1 t2 d0 d1 :
  ts_lt t0 t1 -> ts_lt t1 t2 ->
  replayed [(t0, 0, d0, false); (t1, 0, d1, false); (t2, 0, [], true)] =
    [mkEntry t2 Ts_MAX 0 Committed (VInline []) true; mkEntry t1 t2 0 Committed (VInline d1) false;
     mkEntry t0 t1 0 Committed (VInline d0) false].
Proof.
  intros H0 H1. unfold replayed, fold_left. unfold replay_chain_op at 3. cbn [start_ts txn_id].
  unfold replay_chain_op at 2. cbn [start_ts]. rewrite bool_decide_false by (intros ->; ts_lia).
  cbn [andb]. unfold replay_chain_op. cbn [start_ts]. rewrite bool_decide_false by (intros ->; ts_lia). done.
Qed.

Lemma insert_overtaking_run clock t0 t1 t2 d0 d1 :
  ts_lt clock t0 -> ts_lt t0 t1 -> ts_lt t1 t2 -> ts_lt t2 Ts_MAX ->
  rtc (key_step Primary unchecked) (key_opened clock)
    (mkKeyState [mkEntry t1 Ts_MAX 1 Committed (VInline d1) false;
                 mkEntry t2 t1 3 Committed (VInline []) true;
                 mkEntry t0 t2 2 Committed (VInline d0) false] t2 4 []).
Proof.
  intros H0 H1 H2 H3. unfold key_opened. apply key_run_insert.
  apply (key_run_first _ _ _ _ t0 (VInline d0) false); [done|ts_lia|done|].
  apply (key_run_register _ _ _ _ _ _ _ t1); [done|ts_lia|].
  apply (key_run_select _ _ _ _ _ _ (Some (mkExpectedHead t0 2))); [done|].
  apply (key_run_register _ _ _ _ _ _ _ t2); [done|done|].
  eapply (key_run_install _ _ _ _ _ _ _ _ (Some (mkExpectedHead t0 2)) [] (VInline []) true);
    [by left|done|unfold install_pending, classify_delta_install; simpl; by rewrite bool_decide_true|].
  apply key_run_commit.
  eapply (key_run_install _ _ _ _ _ _ _ _ None [] (VInline d1) false); [by left|done|reflexivity|].
  apply key_run_commit. apply rtc_refl.
Qed.

(** C40: An insert can overtake a later deletion.  The code lets an insert
    that expects no head proceed over any committed deletion, whatever its
    timestamp.  So there is an interleaving of three transactions that all
    commit, in which a key is inserted at [t0], a second insert takes [t1], a
    deletion takes [t2 > t1] and commits, and the second insert then installs
    over it: every reader at or after [t2] is shown the document inserted at
    [t1], although the deletion has the later timestamp; the chain is out of
    order; and recovery, which replays the three commits in timestamp order,
    shows the same readers the deletion. *)
Theorem insert_overtakes_delete clock t0 t1 t2 d0 d1 :
  ts_lt clock t0 -> ts_lt t0 t1 -> ts_lt t1 t2 -> ts_lt t2 Ts_MAX ->
  exists s,
    rtc (key_step Primary unchecked) (key_opened clock) s /\ ks_writers s = [] /\
    ~ chain_wf (ks_chain s) /\
    forall v, ts_le t2 (read_ts v) -> ts_lt (read_ts v) Ts_MAX ->
      (exists e, read_chain (ks_chain s) v = Some e /\ start_ts e = t1 /\ data e = VInline d1 /\
         is_tombstone e = false) /\
      (exists e, read_chain (replayed [(t0, 0, d0, false); (t1, 0, d1, false); (t2, 0, [], true)]) v = Some e /\
         start_ts e = t2 /\ is_tombstone e = true).
Proof.
  intros H0 H1 H2 H3. eexists. split; [by apply (insert_overtaking_run clock t0 t1 t2 d0 d1)|].
  split; [done|]. split.
  { intros [(_ & _ & _ & Hlt & _) _]. simpl in Hlt. ts_lia. }
  intros v Hv Hm. split; eexists.
  - split; [apply read_chain_head; [done|ts_lia|done|done]|]. by repeat split.
  - rewrite replayed_three by done. split; [by apply read_chain_head|]. by split.
Qed.

(** A secondary install proceeds over another transaction's pending head.  If
    the lower one then aborts, the version below it is reopened although the
    newer head has superseded it: after the commit two versions never stop,
    and no pruning removes the older one. *)
Lemma inner_abort_leaves_two_heads clock t0 t1 t2 d0 d2 :
  ts_lt clock t0 -> ts_lt t0 t1 -> ts_lt t1 t2 -> ts_lt t2 Ts_MAX ->
  let b := mkEntry t2 Ts_MAX 3 Committed d2 false in
  let c := mkEntry t0 Ts_MAX 1 Committed d0 false in
  exists s, rtc (key_step Secondary unchecked) (key_opened clock) s /\ ks_writers s = [] /\
    forall ort, prune_chain ort (ks_chain s) = [b; c].
Proof.
  intros H0 H1 H2 H3 b c.
  exists (mkKeyState [b; mkEntry t1 t2 2 Aborted (VInline []) false; c] t2 4 []). split; [|done].
  apply (key_run_first _ _ _ _ t0 d0 false); [done|ts_lia|done|].
  apply key_run_insert. apply (key_run_register _ _ _ _ _ _ _ t1); [done|ts_lia|].
  eapply (key_run_install _ _ _ _ _ _ _ _ None [] (VInline []) false); [by left|done|reflexivity|].
  apply key_run_insert. apply (key_run_register _ _ _ _ _ _ _ t2); [done|done|].
  eapply (key_run_install _ _ _ _ _ _ _ _ None [] d2 false); [by left|done|reflexivity|].
  eapply rtc_l; [by apply (key_abort _ _ _ _ _ [_] (mkWriteTxn _ _ _) [])|].
  apply key_run_commit. unfold flip_pending_in_chain. simpl.
  unfold restore_previous_head_after_abort. simpl. rewrite (bool_decide_true (t1 = t1)) by done. apply rtc_refl.
Qed.

(** An update of a document that is only in the base tree expects no head, so
    it proceeds over a deletion committed since it selected the document, and
    brings the document back. *)
Lemma base_update_revives_deleted clock t1 t2 d :
  ts_lt clock t1 -> ts_lt t1 t2 -> ts_lt t2 Ts_MAX ->
  rtc (key_step Primary not_overtaken) (key_opened clock)
    (mkKeyState [mkEntry t2 Ts_MAX 1 Committed d false;
                 mkEntry t1 t2 2 Committed (VInline []) true] t2 3 []).
Proof.
  intros H1 H2 H3. unfold key_opened.
  apply (key_run_select _ _ _ _ _ _ None); [done|].
  apply (key_run_first _ _ _ _ t1 (VInline []) true); [done|ts_lia|done|].
  apply (key_run_register _ _ _ _ _ _ _ t2); [done|done|].
  eapply (key_run_install _ _ _ _ _ _ _ _ None [] d false); [by left|simpl; rewrite andb_true_r; ts_lia|reflexivity|].
  apply key_run_commit. apply rtc_refl.
Qed.

(** *** The theorems at work *)


Lemma insert_overtakes_delete_witness :
  exists s, rtc (key_step Primary unchecked) (key_opened (at_ts 0)) s /\ ks_writers s = [] /\
    ~ chain_wf (ks_chain s).
Proof.
  destruct (insert_overtakes_delete (at_ts 0) (at_ts 5) (at_ts 10) (at_ts 11) [7] [8])
    as (s & Hs & Hw & Hn & _); [done..|]. by exists s.
Defined.
