(* ===== verification/HistoryCodec.v ===== *)
(** * History-store codecs ([storage/history_store/codec.rs])

    The key of a history row (tree identity, delimited user key, start
    timestamp, counter) and the value layout of a version entry. *)

From S2P Require Import Prelude Bytes Timestamp Version OverflowRefs.

#[local] Open Scope Z_scope.

(** ** Tree identity ([reconcile/driver.rs]) *)

Inductive TreeKind : Set :=
| PrimaryTree
| SecondaryTree (index_id : Z).

Record TreeIdent : Set := mkIdent { collection_id : Z; kind : TreeKind }.

#[export] Instance TreeKind_eq_dec : EqDecision TreeKind.
Proof. solve_decision. Defined.
#[export] Instance TreeIdent_eq_dec : EqDecision TreeIdent.
Proof. solve_decision. Defined.

Definition HISTORY_TREE_KIND_PRIMARY : Z := 0x00.
Definition HISTORY_TREE_KIND_SECONDARY : Z := 0x01.
Definition HISTORY_PRIMARY_INDEX_ID : Z := 0.
Definition HISTORY_KEY_FIXED_PREFIX_LEN : Z := 8 + 1 + 8 + 4.
Definition HISTORY_KEY_TS_LEN : Z := 12.
Definition HISTORY_KEY_COUNTER_LEN : Z := 4.

(** [i64::to_be_bytes] / [i64::from_be_bytes] *)
Definition i64_be (z : Z) : list Z := be_bytes 8 (as_u 64 z).
Definition i64_from_be (l : list Z) : Z := as_i 64 (from_be l).

Definition history_tree_parts (ident : TreeIdent) : Z * Z :=
  match kind ident with
  | PrimaryTree => (HISTORY_TREE_KIND_PRIMARY, HISTORY_PRIMARY_INDEX_ID)
  | SecondaryTree index_id => (HISTORY_TREE_KIND_SECONDARY, index_id)
  end.

Definition history_ident_from_parts (cid tree_kind index_id : Z) : option TreeIdent :=
  k ← (if (tree_kind =? HISTORY_TREE_KIND_PRIMARY) && (index_id =? HISTORY_PRIMARY_INDEX_ID)
       then Some PrimaryTree
       else if tree_kind =? HISTORY_TREE_KIND_SECONDARY then Some (SecondaryTree index_id)
       else None);
  Some (mkIdent cid k).

(** ** Keys *)

Definition probe_prefix (ident : TreeIdent) (key_bytes : list Z) : list Z :=
  let '(tree_kind, index_id) := history_tree_parts ident in
  i64_be (collection_id ident) ++ [tree_kind] ++ i64_be index_id ++
  be_bytes 4 (as_u 32 (len key_bytes)) ++ key_bytes.

Definition encode_history_key (ident : TreeIdent) (key_bytes : list Z) (start : Ts) (counter : Z) : list Z :=
  let '(tree_kind, index_id) := history_tree_parts ident in
  i64_be (collection_id ident) ++ [tree_kind] ++ i64_be index_id ++
  be_bytes 4 (as_u 32 (len key_bytes)) ++ key_bytes ++ ts_to_be_bytes start ++ be_bytes 4 counter.

(** The slice accesses are in range after the two length checks, so plain
    sub-lists stand for them; the additions cannot overflow [usize]. *)
Definition decode_history_key (bytes : list Z) : option (TreeIdent * list Z * Ts * Z) :=
  if len bytes <? HISTORY_KEY_FIXED_PREFIX_LEN + HISTORY_KEY_TS_LEN + HISTORY_KEY_COUNTER_LEN then None
  else
    let cid := i64_from_be (get bytes 0 8) in
    let tree_kind := from_be (get bytes 8 1) in
    let index_id := i64_from_be (get bytes 9 8) in
    let key_len := from_be (get bytes 17 4) in
    let key_start := HISTORY_KEY_FIXED_PREFIX_LEN in
    let key_end := key_start + key_len in
    let ts_end := key_end + HISTORY_KEY_TS_LEN in
    let counter_end := ts_end + HISTORY_KEY_COUNTER_LEN in
    if negb (len bytes =? counter_end) then None
    else
      ident ← history_ident_from_parts cid tree_kind index_id;
      Some (ident, get bytes key_start key_len, ts_from_be_bytes (get bytes key_end HISTORY_KEY_TS_LEN),
            from_be (get bytes ts_end HISTORY_KEY_COUNTER_LEN)).

(** ** Values *)

Definition DATA_KIND_INLINE : Z := 0.
Definition DATA_KIND_OVERFLOW : Z := 1.
Definition VALUE_HEADER_LEN : Z := 12 + 12 + 8 + 1 + 1.

Record ValueHeader : Set := mkValueHeader {
  vh_start_ts : Ts; vh_stop_ts : Ts; vh_txn_id : Z; vh_is_tombstone : bool; vh_data_kind : Z }.

Definition ts_from_le_slice (b : list Z) : Ts := ts_from_le_bytes b.

Definition decode_value_header (bytes : list Z) : Result ValueHeader :=
  reject_if (len bytes <? VALUE_HEADER_LEN)
    (Internal "history_store: value buffer truncated before fixed header");;
  start ← slice bytes 0 12;
  stop ← slice bytes 12 24;
  txn ← read_le bytes 24 8;
  tomb ← index bytes 32;
  data_kind ← index bytes 33;
  Ok (mkValueHeader (ts_from_le_slice start) (ts_from_le_slice stop) txn (negb (tomb =? 0)) data_kind).

Definition decode_overflow_payload (bytes : list Z) : Result (Z * Z) :=
  reject_if (len bytes <? VALUE_HEADER_LEN + 4 + 8) (Internal "history_store: overflow value truncated");;
  first_page ← read_le bytes 34 4;
  total_length ← read_le bytes 38 8;
  Ok (first_page, total_length).

Definition encode_version_entry_value (entry : VersionEntry) : list Z :=
  ts_to_le_bytes (start_ts entry) ++ ts_to_le_bytes (stop_ts entry) ++ le_bytes 8 (txn_id entry) ++
  [if is_tombstone entry then 1 else 0] ++
  match data entry with
  | VInline b => [DATA_KIND_INLINE] ++ le_bytes 4 (as_u 32 (len b)) ++ b
  | VOverflow first_page total_length =>
      [DATA_KIND_OVERFLOW] ++ le_bytes 4 first_page ++ le_bytes 8 total_length
  end.

(** [allocator] gives the reference counts at the time of the call, [None] is
    a probe without allocator.  The reference the decoded entry takes is
    released when the caller drops the entry, so the table is not threaded. *)
Definition decode_version_entry_value (bytes : list Z) (allocator : option refcounts) : Result VersionEntry :=
  header ← decode_value_header bytes;
  d ← (if vh_data_kind header =? DATA_KIND_INLINE then
         reject_if (len bytes <? 34 + 4) (Internal "history_store: inline value missing length prefix");;
         n ← read_le bytes 34 4;
         let start := 38 in
         fin ← ok_or (checked_add 64 start n) (Internal "history_store: inline length overflow");
         reject_if (len bytes <? fin) (Internal "history_store: inline payload truncated");;
         b ← slice bytes start fin;
         Ok (VInline b)
       else if vh_data_kind header =? DATA_KIND_OVERFLOW then
         payload ← decode_overflow_payload bytes;
         alloc ← ok_or allocator (Internal "history_store: overflow entry requires allocator handle");
         fst (new_owned alloc (fst payload) (snd payload))
       else Err (Internal "history_store: unknown data_kind"));
  Ok (mkEntry (vh_start_ts header) (vh_stop_ts header) (vh_txn_id header) Committed d
        (vh_is_tombstone header)).

(** ** Keys: identity and order *)

Definition ident_wf (i : TreeIdent) : Prop :=
  is_i64 (collection_id i) /\ match kind i with PrimaryTree => True | SecondaryTree x => is_i64 x end.

Definition key_wf (k : list Z) : Prop := len k < 2 ^ 32.

Lemma encode_history_key_app i k t c :
  encode_history_key i k t c = probe_prefix i k ++ ts_to_be_bytes t ++ be_bytes 4 c.
Proof.
  unfold encode_history_key, probe_prefix. destruct (history_tree_parts i). by rewrite <- !app_assoc.
Qed.

Lemma as_u_inj x y : is_i64 x -> is_i64 y -> as_u 64 x = as_u 64 y -> x = y.
Proof. intros Hx Hy E. by rewrite <- (as_i_as_u 64 x), <- (as_i_as_u 64 y), E by done. Qed.

Lemma be_bytes_inj n x y :
  0 <= x < 256 ^ Z.of_nat n -> 0 <= y < 256 ^ Z.of_nat n -> be_bytes n x = be_bytes n y -> x = y.
Proof. intros Hx Hy E. by rewrite <- (from_be_be_bytes n x), <- (from_be_be_bytes n y), E. Qed.

Lemma i64_be_inj x y : is_i64 x -> is_i64 y -> i64_be x = i64_be y -> x = y.
Proof.
  intros Hx Hy E. apply as_u_inj; [done..|]. apply (be_bytes_inj 8); [apply (as_u_range 64); lia..|done].
Qed.

Lemma app_inj_len {A} (a b c d : list A) : a ++ c = b ++ d -> length a = length b -> a = b /\ c = d.
Proof. intros E Hl. by apply app_inj_1. Qed.

Lemma history_tree_parts_inj i j :
  ident_wf i -> ident_wf j -> collection_id i = collection_id j ->
  history_tree_parts i = history_tree_parts j -> i = j.
Proof.
  destruct i as [ci [|x]], j as [cj [|y]]; unfold history_tree_parts; simpl; intros; simplify_eq/=; done.
Qed.

(** The prefix of a tree and key determines both, whatever follows it: the
    length field delimits the key. *)
Lemma probe_prefix_inj i j k l x y :
  ident_wf i -> ident_wf j -> key_wf k -> key_wf l ->
  probe_prefix i k ++ x = probe_prefix j l ++ y -> i = j /\ k = l /\ x = y.
Proof.
  intros Hi Hj Hk Hl. unfold probe_prefix.
  destruct (history_tree_parts i) as [ti xi] eqn:Ei, (history_tree_parts j) as [tj xj] eqn:Ej.
  rewrite <- !app_assoc. intros E.
  apply app_inj_len in E as [Ec E]; [|done]. 
  apply app_inj_len in E as [Et E]; [|done]. injection Et as ->.
  apply app_inj_len in E as [Ex E]; [|done].
  apply app_inj_len in E as [El E]; [|done].
  assert (is_i64 xi /\ is_i64 xj) as [Hxi Hxj].
  { destruct Hi as [_ Hi], Hj as [_ Hj]. unfold history_tree_parts in *.
    destruct (kind i), (kind j); simplify_eq; done. }
  apply i64_be_inj in Ec; [|apply Hi|apply Hj]. apply i64_be_inj in Ex; [|done..]. subst.
  apply be_bytes_inj in El; [|apply (as_u_range 32); lia..].
  pose proof (len_nonneg k). pose proof (len_nonneg l). unfold key_wf in *.
  rewrite !as_u_small in El by (unfold is_u; lia). unfold len in El.
  apply app_inj_len in E as [-> ->]; [|lia]. split; [|done].
  apply history_tree_parts_inj; [done..|congruence].
Qed.

(** Rows of one tree and key are ordered by start timestamp, then counter. *)
Lemma history_key_order i k a b c d :
  ts_wf a -> ts_wf b -> is_u32 c -> is_u32 d ->
  lex_cmp (encode_history_key i k a c) (encode_history_key i k b d) = then_with (ts_cmp a b) (c ?= d).
Proof.
  intros Ha Hb Hc Hd. rewrite !encode_history_key_app, lex_cmp_prefix, ts_be_order by done.
  by rewrite lex_cmp_be_bytes.
Qed.

Lemma len_probe_prefix i k : len (probe_prefix i k) = 21 + len k.
Proof.
  unfold probe_prefix, i64_be. destruct (history_tree_parts i).
  rewrite !len_app, !len_be_bytes, len_cons, len_nil. lia.
Qed.

Lemma len_encode_history_key i k t c : len (encode_history_key i k t c) = 37 + len k.
Proof.
  rewrite encode_history_key_app, !len_app, len_probe_prefix, len_ts_to_be_bytes, len_be_bytes. lia.
Qed.

(** ** Round trips *)

Definition data_wf (d : VersionData) : Prop :=
  match d with
  | VInline b => len b < 2 ^ 32
  | VOverflow first_page total_length => is_u32 first_page /\ is_u64 total_length
  end.

Definition entry_wf (e : VersionEntry) : Prop :=
  ts_wf (start_ts e) /\ ts_wf (stop_ts e) /\ is_u64 (txn_id e) /\ data_wf (data e).

(** What a reader gets back: rows hold committed versions only. *)
Definition as_committed (e : VersionEntry) : VersionEntry :=
  mkEntry (start_ts e) (stop_ts e) (txn_id e) Committed (data e) (is_tombstone e).

(** Cuts [holds l base (a ++ b ++ ...)] into its fields. *)
Ltac split_holds H :=
  repeat match type of H with
  | holds _ _ (_ ++ _) =>
      let H1 := fresh "Hf" in apply holds_app in H as [H1 H]
  end.

Lemma i64_from_be_be x : is_i64 x -> i64_from_be (i64_be x) = x.
Proof.
  intros Hx. unfold i64_from_be, i64_be.
  rewrite from_be_be_bytes by (apply (as_u_range 64); lia). by apply as_i_as_u.
Qed.

Lemma history_ident_from_parts_of i :
  history_ident_from_parts (collection_id i) (fst (history_tree_parts i)) (snd (history_tree_parts i)) = Some i.
Proof. by destruct i as [c [|x]]. Qed.

Lemma get_holds {A} (l : list A) base h n : holds l base h -> n = len h -> get l base n = h.
Proof. by intros (_ & _ & E) ->. Qed.

Lemma decode_encode_history_key i k t c :
  ident_wf i -> key_wf k -> ts_wf t -> is_u32 c ->
  decode_history_key (encode_history_key i k t c) = Some (i, k, t, c).
Proof.
  intros Hi Hk Ht Hc. pose proof (len_nonneg k). pose proof (len_encode_history_key i k t c) as Hlen.
  assert (is_i64 (snd (history_tree_parts i))) as Hx.
  { destruct Hi as [_ Hi]. unfold history_tree_parts. by destruct (kind i). }
  pose proof (holds_self (encode_history_key i k t c)) as Hh. unfold encode_history_key in Hh at 2.
  revert Hlen Hh. generalize (encode_history_key i k t c) as l. intros l Hlen Hh.
  pose proof (history_ident_from_parts_of i) as Hparts.
  destruct (history_tree_parts i) as [tk x]. simpl in Hx, Hparts.
  split_holds Hh. autorewrite with len in *. unfold i64_be in *. rewrite ?len_be_bytes in *.
  rewrite ?len_cons, ?len_nil in *. simpl Z.of_nat in *. simpl Z.add in *.
  unfold decode_history_key, HISTORY_KEY_FIXED_PREFIX_LEN, HISTORY_KEY_TS_LEN, HISTORY_KEY_COUNTER_LEN.
  destruct (Z.ltb_spec (len l) (8 + 1 + 8 + 4 + 12 + 4)); [lia|].
  rewrite (get_holds _ _ _ _ Hf) by done. rewrite (get_holds _ _ _ _ Hf0) by done.
  rewrite (get_holds _ _ _ _ Hf1) by done. rewrite (get_holds _ _ _ _ Hf2) by done.
  fold (i64_be (collection_id i)) (i64_be x). rewrite !i64_from_be_be by (done || apply Hi).
  rewrite from_be_be_bytes by (apply (as_u_range 32); lia).
  rewrite as_u_small by (unfold is_u, key_wf in *; lia). simpl Z.add.
  change (from_be [tk]) with (tk + 256 * 0). rewrite Z.add_0_r, Hparts. simpl.
  rewrite (get_holds _ _ _ _ Hf3), (get_holds _ _ _ _ Hf4) by done.
  rewrite (get_holds _ _ _ _ Hh) by done. rewrite ts_be_roundtrip, from_be_u32 by done.
  by rewrite (proj2 (Z.eqb_eq (len l) _)) by lia.
Qed.

Lemma len_encode_version_entry_value e :
  len (encode_version_entry_value e) =
    match data e with VInline b => 38 + len b | VOverflow _ _ => 46 end.
Proof.
  unfold encode_version_entry_value. destruct (data e); autorewrite with len; lia.
Qed.

Lemma decode_value_header_of e l d :
  holds l 0 (ts_to_le_bytes (start_ts e) ++ ts_to_le_bytes (stop_ts e) ++ le_bytes 8 (txn_id e) ++
    [if is_tombstone e then 1 else 0] ++ [d]) ->
  ts_wf (start_ts e) -> ts_wf (stop_ts e) -> is_u64 (txn_id e) ->
  decode_value_header l =
    Ok (mkValueHeader (start_ts e) (stop_ts e) (txn_id e) (is_tombstone e) d).
Proof.
  intros Hh Hs Hp Ht. pose proof (holds_bounds _ _ _ Hh) as [_ Hb].
  autorewrite with len in Hb.
  split_holds Hh. autorewrite with len in *.
  unfold decode_value_header, VALUE_HEADER_LEN.
  destruct (Z.ltb_spec (len l) (12 + 12 + 8 + 1 + 1)); [lia|]. simpl reject_if. rewrite bind_Ok.
  rewrite (slice_part _ _ _ _ Hf) by done. rewrite bind_Ok.
  rewrite (slice_part l 12 _ _ Hf0) by done. rewrite bind_Ok.
  rewrite (read_le_part l 24 _ _ _ Hf1) by done. rewrite bind_Ok.
  rewrite (index_part l 32 _ Hf2). rewrite bind_Ok. rewrite (index_part l 33 _ Hh). rewrite bind_Ok.
  unfold ts_from_le_slice. rewrite !ts_le_roundtrip by done. by destruct (is_tombstone e).
Qed.

Definition live_refs (allocator : option refcounts) (e : VersionEntry) : Prop :=
  match data e with
  | VInline _ => True
  | VOverflow p _ => exists refs, allocator = Some refs /\ overflow_refcount refs p <> u32_max
  end.

Lemma decode_encode_value e allocator :
  entry_wf e -> live_refs allocator e ->
  decode_version_entry_value (encode_version_entry_value e) allocator = Ok (as_committed e).
Proof.
  intros (Hs & Hp & Ht & Hd) Hr. pose proof (len_encode_version_entry_value e) as Hlen.
  pose proof (holds_self (encode_version_entry_value e)) as Hh.
  unfold encode_version_entry_value in Hh at 2. revert Hlen Hh.
  generalize (encode_version_entry_value e) as l. intros l Hlen Hh.
  unfold decode_version_entry_value, as_committed, live_refs, data_wf in *.
  destruct (data e) as [b|p n].
  - pose proof (len_nonneg b). rewrite as_u_small in Hh by (unfold is_u; lia).
    rewrite (decode_value_header_of e l DATA_KIND_INLINE) by
      (done || (rewrite !app_assoc in Hh; apply holds_app in Hh as [Hh _];
                apply holds_app in Hh as [Hh _]; by rewrite !app_assoc)).
    rewrite bind_Ok. simpl vh_data_kind. split_holds Hh.
    autorewrite with len in *. simpl Z.eqb. cbv iota.
    destruct (Z.ltb_spec (len l) (34 + 4)); [lia|]. simpl reject_if. rewrite bind_Ok.
    rewrite (read_le_part l 34 _ _ _ Hf4) by (done || (unfold is_u; lia)). rewrite bind_Ok.
    unfold checked_add. destruct (Z.ltb_spec (38 + len b) (2 ^ 64)); [|lia]. simpl ok_or. rewrite bind_Ok.
    destruct (Z.ltb_spec (len l) (38 + len b)); [lia|]. simpl reject_if. rewrite bind_Ok.
    by rewrite (slice_part l 38 _ _ Hh).
  - destruct Hd as [Hd1 Hd2]. destruct Hr as (refs & -> & Hr).
    rewrite (decode_value_header_of e l DATA_KIND_OVERFLOW) by
      (done || (rewrite !app_assoc in Hh; apply holds_app in Hh as [Hh _];
                apply holds_app in Hh as [Hh _]; by rewrite !app_assoc)).
    rewrite bind_Ok. simpl vh_data_kind. split_holds Hh.
    autorewrite with len in *. simpl Z.eqb. cbv iota.
    unfold decode_overflow_payload, VALUE_HEADER_LEN.
    destruct (Z.ltb_spec (len l) (12 + 12 + 8 + 1 + 1 + 4 + 8)); [lia|]. simpl reject_if. rewrite !bind_Ok.
    rewrite (read_le_part l 34 _ _ _ Hf4) by done. rewrite bind_Ok.
    rewrite (read_le_part l 38 _ _ _ Hh) by done. rewrite !bind_Ok. simpl.
    by rewrite new_owned_result.
Qed.

Lemma decode_value_header_no_panic l : no_panic (decode_value_header l).
Proof. unfold decode_value_header, VALUE_HEADER_LEN. panic_free. Qed.

Lemma decode_overflow_payload_no_panic l : no_panic (decode_overflow_payload l).
Proof. unfold decode_overflow_payload, VALUE_HEADER_LEN. panic_free. Qed.

Lemma decode_value_no_panic l allocator : bytes_ok l -> no_panic (decode_version_entry_value l allocator).
Proof.
  intros Hl. unfold decode_version_entry_value. apply no_panic_bind; [apply decode_value_header_no_panic|].
  intros h _. apply no_panic_bind; [|discriminate]. destruct (_ =? _).
  - apply no_panic_guard; intros ?%Z.ltb_ge. apply no_panic_bind; [apply no_panic_read_le; lia|].
    intros n Hn. apply read_le_range in Hn; [|done]. apply no_panic_bind; [apply no_panic_ok_or|].
    intros fin Hf. unfold checked_add in Hf. destruct (_ <? _); [|done]. injection Hf as <-. panic_free.
  - destruct (_ =? _); [|discriminate]. apply no_panic_bind; [apply decode_overflow_payload_no_panic|].
    intros [p n] _. apply no_panic_bind; [apply no_panic_ok_or|]. intros refs _.
    apply new_owned_no_panic.
Qed.

(** C34: A history row survives its encoding: the key decodes to the tree, the
    user key, the start timestamp and the counter it was built from, and the
    value to the version entry, which comes back committed; and no stored
    value, however corrupt, makes the decoder panic. *)
Theorem history_row_roundtrip i k c e allocator bytes :
  ident_wf i -> key_wf k -> is_u32 c -> entry_wf e -> live_refs allocator e -> bytes_ok bytes ->
  decode_history_key (encode_history_key i k (start_ts e) c) = Some (i, k, start_ts e, c) /\
  decode_version_entry_value (encode_version_entry_value e) allocator = Ok (as_committed e) /\
  no_panic (decode_version_entry_value bytes allocator).
Proof.
  intros Hi Hk Hc He Hr Hb. split_and!.
  - apply decode_encode_history_key; [done..|apply He|done].
  - by apply decode_encode_value.
  - by apply decode_value_no_panic.
Qed.

Lemma history_row_roundtrip_witness :
  let i := mkIdent (-3) (SecondaryTree 7) in
  let e := mkEntry (mkTs 10 1) (mkTs 20 0) 5 (Pending 5) (VOverflow 9 40000) false in
  decode_version_entry_value (encode_version_entry_value e) (Some (fun _ => Some 1)) = Ok (as_committed e) /\
  no_panic (decode_version_entry_value [1; 2; 3] (Some (fun _ => Some 1))).
Proof.
  intros i e. apply (history_row_roundtrip i [1; 2] 0 e (Some (fun _ => Some 1)) [1; 2; 3]).
  1-4: by vm_compute; intuition congruence.
  - exists (fun _ => Some 1). by split.
  - by repeat constructor.
Defined.
