(* ===== verification/KeyTree.v ===== *)
(** * The interface of the B+ tree towards its clients

    [storage/btree]: a tree of byte keys as the history store and the read
    path use it.  [tree_rows] is its contents; the laws say what [get],
    [insert], [delete] and [range_scan] of [btree/mod.rs], [insert.rs],
    [delete.rs] and [scan.rs] promise on a tree that can be read and written.
    Clients are proved against the interface; [mem_tree] is the ordered map. *)

From S2P Require Import Prelude Bytes BTreeMap Crc Page LeafNode.
From Stdlib Require Import Sorted.

#[local] Open Scope Z_scope.

Class KeyTree (T : Type) := {
  tree_wf : T -> Prop;
  tree_rows : T -> btmap (list Z);
  tree_get : list Z -> T -> Result (option (list Z));
  tree_insert : list Z -> list Z -> T -> Result T;
  tree_delete : list Z -> T -> Result (bool * T);
  tree_range_scan : option (list Z) -> option (list Z) -> T -> Result (list (list Z * CellValue)) }.

(** Inclusive at both ends, open where no bound is given *)
Definition in_scan (lo hi : option (list Z)) (k : list Z) : bool :=
  match lo with Some l => lex_leb l k | None => true end &&
  match hi with Some h => lex_leb k h | None => true end.

Definition scan_rows {V} (lo hi : option (list Z)) (m : btmap V) : btmap V :=
  filter (fun kv => in_scan lo hi (fst kv) = true) m.

(** A value above the threshold is stored out of line. *)
Definition stored_as (cv : CellValue) (v : list Z) : Prop :=
  if OVERFLOW_THRESHOLD <? len v then exists p, cv = Overflow p (len v) else cv = Inline v.

Class KeyTreeLaws (T : Type) `{KeyTree T} : Prop := {
  rows_sorted t : tree_wf t -> bt_sorted (tree_rows t);
  get_law k t : tree_wf t -> tree_get k t = Ok (bt_get k (tree_rows t));
  insert_law k v t t' : tree_wf t -> len v < 2 ^ 32 -> bt_get k (tree_rows t) = None -> tree_insert k v t = Ok t' ->
    tree_wf t' /\ tree_rows t' = bt_insert k v (tree_rows t);
  delete_law k t b t' : tree_wf t -> tree_delete k t = Ok (b, t') ->
    tree_wf t' /\ tree_rows t' = bt_remove k (tree_rows t) /\
    b = bool_decide (is_Some (bt_get k (tree_rows t)));
  scan_law lo hi t : tree_wf t -> exists out, tree_range_scan lo hi t = Ok out /\
    Forall2 (fun o r => fst o = fst r /\ stored_as (snd o) (snd r)) out (scan_rows lo hi (tree_rows t)) }.

Definition store_cell (v : list Z) : CellValue :=
  if OVERFLOW_THRESHOLD <? len v then Overflow 1 (len v) else Inline v.

#[export] Instance mem_tree : KeyTree (btmap (list Z)) := {
  tree_wf := bt_sorted;
  tree_rows m := m;
  tree_get k m := Ok (bt_get k m);
  tree_insert k v m := match bt_get k m with Some _ => Err DuplicateKey | None => Ok (bt_insert k v m) end;
  tree_delete k m := Ok (bool_decide (is_Some (bt_get k m)), bt_remove k m);
  tree_range_scan lo hi m := Ok (map (fun kv => (fst kv, store_cell (snd kv))) (scan_rows lo hi m)) }.

#[export] Instance mem_tree_laws : KeyTreeLaws (btmap (list Z)).
Proof.
  split; simpl.
  - done.
  - done.
  - intros k v t t' Hs _ -> [= <-]. split; [by apply bt_insert_sorted|done].
  - intros k t b t' Hs [= <- <-]. split; [by apply bt_filter_sorted|done].
  - intros lo hi t Hs. eexists. split; [done|]. induction (scan_rows lo hi t) as [|[k v] l IH]; simpl; constructor; [|done].
    split; [done|]. unfold stored_as, store_cell. simpl. destruct (_ <? _); eauto.
Qed.

Lemma scan_rows_In {V} lo hi (m : btmap V) x : In x (scan_rows lo hi m) <-> In x m /\ in_scan lo hi (fst x) = true.
Proof. unfold scan_rows. rewrite <- !list_elem_of_In, list_elem_of_filter. tauto. Qed.

Lemma scan_rows_all {V} (m : btmap V) : scan_rows None None m = m.
Proof.
  unfold scan_rows. induction m as [|x m IH]; [done|]. rewrite filter_cons, IH. by rewrite decide_True.
Qed.
