(* ===== verification/HistoryStore.v ===== *)
(** * The history store ([storage/history_store.rs])

    Aged versions in a B+ tree of their own: spilling, the visibility probe
    and garbage collection, over any tree that keeps the laws of [KeyTree]. *)

From S2P Require Import Prelude Bytes Timestamp BTreeMap Crc Page LeafNode Version OverflowRefs HistoryCodec KeyTree.
From Stdlib Require Import Sorted.

#[local] Open Scope Z_scope.

(** ** Staging *)

Record StagedHistorySpill : Set := mkStaged {
  sp_ident : TreeIdent; sp_key : list Z; sp_entry : VersionEntry; sp_counter : Z }.

Abbreviation HistorySpillTxn := (list StagedHistorySpill).

(** Staging clones the entry, which takes a reference on its overflow chain. *)
Definition stage (refs : refcounts) (txn : HistorySpillTxn) (ident : TreeIdent) (key_bytes : list Z)
  (entry : VersionEntry) (counter : Z) : Result HistorySpillTxn * refcounts :=
  match try_clone refs entry with
  | (Some e, refs') => (Ok (txn ++ [mkStaged ident key_bytes e counter]), refs')
  | (None, refs') => (Err (Internal "history_store: overflow ref dropped before history spill"), refs')
  end.

Definition spill_primary (refs : refcounts) (txn : HistorySpillTxn) (ident : TreeIdent)
  (key_bytes : list Z) (entry : VersionEntry) (counter : Z) : Result HistorySpillTxn * refcounts :=
  match kind ident with
  | PrimaryTree => stage refs txn ident key_bytes entry counter
  | SecondaryTree _ => (Err (Internal "history_store: primary spill requires primary tree identity"), refs)
  end.

Definition spill_sec_index (refs : refcounts) (txn : HistorySpillTxn) (ident : TreeIdent)
  (key_bytes : list Z) (entry : VersionEntry) (counter : Z) : Result HistorySpillTxn * refcounts :=
  match kind ident with
  | SecondaryTree _ => stage refs txn ident key_bytes entry counter
  | PrimaryTree => (Err (Internal "history_store: secondary spill requires secondary tree identity"), refs)
  end.

(** [cell_value_bytes] *)
Definition cell_value_bytes (value : CellValue) : Result (list Z) :=
  match value with
  | Inline b => Ok b
  | Overflow _ _ => Err (Internal "history_store: value spilled to overflow - not supported in v1")
  end.

Definition starts_with (k p : list Z) : bool := bool_decide (get k 0 (len p) = p).

Record GcResult : Set := mkGc { entries_deleted : Z; pages_freed : Z }.

Section Store.
Context {T : Type} `{KeyTree T}.
Implicit Types t : T.

Definition apply_spill t (ident : TreeIdent) (key_bytes : list Z) (entry : VersionEntry) (counter : Z)
  : Result (bool * T) :=
  let key := encode_history_key ident key_bytes (start_ts entry) counter in
  let value := encode_version_entry_value entry in
  existing ← tree_get key t;
  match existing with
  | Some v => if bool_decide (v = value) then Ok (false, t) else Err DuplicateKey
  | None => t' ← tree_insert key value t; Ok (true, t')
  end.

(** [commit_spill_txn]: the writes before a failing one stay applied *)
Fixpoint commit_spill_txn (txn : HistorySpillTxn) t : Result unit * T :=
  match txn with
  | [] => (Ok tt, t)
  | w :: rest =>
      match apply_spill t (sp_ident w) (sp_key w) (sp_entry w) (sp_counter w) with
      | Ok (_, t') => commit_spill_txn rest t'
      | Err e => (Err e, t)
      | Panic => (Panic, t)
      end
  end.

(** The loop over the rows, newest first *)
Fixpoint probe_loop (rows : list (list Z * CellValue)) (prefix : list Z) (allocator : option refcounts)
  (r : Ts) (skip_tombstones : bool) : Result (option VersionEntry) :=
  match rows with
  | [] => Ok None
  | (key, cell_value) :: rest =>
      if negb (starts_with key prefix) then probe_loop rest prefix allocator r skip_tombstones
      else
        value_bytes ← cell_value_bytes cell_value;
        entry ← decode_version_entry_value value_bytes allocator;
        if ts_ltb r (start_ts entry) || ts_leb (stop_ts entry) r
        then probe_loop rest prefix allocator r skip_tombstones
        else if skip_tombstones && is_tombstone entry then Ok None
        else Ok (Some entry)
  end.

Definition probe_upper (ident : TreeIdent) (key_bytes : list Z) (r : Ts) : list Z :=
  probe_prefix ident key_bytes ++ ts_to_be_bytes r ++ be_bytes 4 u32_max.

Definition probe_visible_entry t (allocator : option refcounts) (ident : TreeIdent) (key_bytes : list Z)
  (r : Ts) (skip_tombstones : bool) : Result (option VersionEntry) :=
  let prefix := probe_prefix ident key_bytes in
  rows ← tree_range_scan (Some prefix) (Some (probe_upper ident key_bytes r)) t;
  probe_loop (rev rows) prefix allocator r skip_tombstones.

Definition probe_primary t allocator (cid : Z) (doc_id : list Z) (r : Ts) : Result (option VersionEntry) :=
  probe_visible_entry t allocator (mkIdent cid PrimaryTree) doc_id r false.

Definition probe_sec_index t allocator (cid index_id : Z) (sec_key : list Z) (r : Ts)
  : Result (option VersionEntry) :=
  probe_visible_entry t allocator (mkIdent cid (SecondaryTree index_id)) sec_key r true.

(** The scan of [gc_pass]: keys to delete, with the overflow chain they own *)
Fixpoint gc_victims (rows : list (list Z * CellValue)) (ort : Ts)
  : Result (list (list Z * option (Z * Z))) :=
  match rows with
  | [] => Ok []
  | (key, cell_value) :: rest =>
      value_bytes ← cell_value_bytes cell_value;
      match decode_value_header value_bytes with
      | Ok header =>
          if bool_decide (vh_stop_ts header = Ts_MAX) || ts_ltb ort (vh_stop_ts header)
          then gc_victims rest ort
          else if vh_data_kind header =? DATA_KIND_OVERFLOW then
            match decode_overflow_payload value_bytes with
            | Ok payload => vs ← gc_victims rest ort; Ok ((key, Some payload) :: vs)
            | Err _ => gc_victims rest ort
            | Panic => Panic
            end
          else vs ← gc_victims rest ort; Ok ((key, None) :: vs)
      | Err _ => gc_victims rest ort
      | Panic => Panic
      end
  end.

Fixpoint gc_delete (victims : list (list Z * option (Z * Z))) (allocator : option refcounts) t (g : GcResult)
  : Result GcResult * T * option refcounts :=
  match victims with
  | [] => (Ok g, t, allocator)
  | (key, overflow) :: rest =>
      match tree_delete key t with
      | Ok (false, t') => gc_delete rest allocator t' g
      | Ok (true, t') =>
          let deleted := entries_deleted g + 1 in
          match overflow, allocator with
          | Some (first_page, _), Some refs =>
              let refs := snd (decref_overflow refs first_page) in
              let freed := if overflow_refcount refs first_page =? 0 then pages_freed g + 1 else pages_freed g in
              gc_delete rest (Some refs) t' (mkGc deleted freed)
          | _, _ => gc_delete rest allocator t' (mkGc deleted (pages_freed g))
          end
      | Err e => (Err e, t, allocator)
      | Panic => (Panic, t, allocator)
      end
  end.

Definition gc_pass t (allocator : option refcounts) (ort : Ts) : Result GcResult * T * option refcounts :=
  match (rows ← tree_range_scan None None t; gc_victims rows ort) with
  | Ok victims => gc_delete victims allocator t (mkGc 0 0)
  | Err e => (Err e, t, allocator)
  | Panic => (Panic, t, allocator)
  end.

End Store.

(** ** What a store holds *)

Definition row_key (s : StagedHistorySpill) : list Z :=
  encode_history_key (sp_ident s) (sp_key s) (start_ts (sp_entry s)) (sp_counter s).
Definition row_value (s : StagedHistorySpill) : list Z := encode_version_entry_value (sp_entry s).

Definition staged_wf (s : StagedHistorySpill) : Prop :=
  ident_wf (sp_ident s) /\ key_wf (sp_key s) /\ is_u32 (sp_counter s) /\ entry_wf (sp_entry s).

(** The row can be read back in place, not through an overflow chain. *)
Definition row_fits (s : StagedHistorySpill) : Prop := len (row_value s) <= OVERFLOW_THRESHOLD.

(** Values of the tree carry a 32-bit length. *)
Definition row_storable (s : StagedHistorySpill) : Prop := len (row_value s) < 2 ^ 32.

Lemma row_fits_storable s : row_fits s -> row_storable s.
Proof. unfold row_fits, row_storable, OVERFLOW_THRESHOLD. lia. Qed.

Definition holds_rows (m : btmap (list Z)) (recs : list StagedHistorySpill) : Prop :=
  forall k v, bt_get k m = Some v <-> exists s, In s recs /\ k = row_key s /\ v = row_value s.

Definition visible_row (ident : TreeIdent) (key : list Z) (r : Ts) (s : StagedHistorySpill) : Prop :=
  sp_ident s = ident /\ sp_key s = key /\ in_window (sp_entry s) r = true.

#[export] Instance visible_row_dec ident key r s : Decision (visible_row ident key r s).
Proof. unfold visible_row. solve_decision. Defined.

(** The newest of the rows a reader at [r] may see *)
Definition newest_row (recs : list StagedHistorySpill) ident key r (s : StagedHistorySpill) : Prop :=
  In s recs /\ visible_row ident key r s /\
  forall s', In s' recs -> visible_row ident key r s' -> lex_leb (row_key s') (row_key s) = true.

Lemma lex_leb_false a b : lex_leb a b = false -> lex_lt b a.
Proof. unfold lex_leb, lex_lt. rewrite (lex_cmp_antisym a b). by destruct (lex_cmp a b). Qed.

Lemma lex_leb_trans a b c : lex_leb a b = true -> lex_lt b c -> lex_leb a c = true.
Proof.
  unfold lex_leb, lex_lt. intros Hab Hbc. destruct (lex_cmp a b) eqn:E; [| |done].
  - apply lex_cmp_eq in E. subst. by rewrite Hbc.
  - by rewrite (lex_cmp_trans _ _ _ E Hbc).
Qed.

Lemma newest_row_exists recs ident key r :
  (forall s, In s recs -> ~ visible_row ident key r s) \/ exists s, newest_row recs ident key r s.
Proof.
  induction recs as [|x recs [Hn|(s & Hin & Hv & Hmax)]]; [left; by intros ? []|..].
  - destruct (decide (visible_row ident key r x)) as [Hx|Hx].
    + right. exists x. split_and!; [by left|done|]. intros s' [->|Hs'] Hv'.
      * unfold lex_leb. by rewrite lex_cmp_refl.
      * by destruct (Hn s').
    + left. intros s [->|Hs]; [done|by apply Hn].
  - right. destruct (decide (visible_row ident key r x)) as [Hx|Hx].
    + destruct (lex_leb (row_key x) (row_key s)) eqn:E.
      * exists s. split_and!; [by right|done|]. intros s' [->|?] ?; [done|by apply Hmax].
      * exists x. apply lex_leb_false in E. split_and!; [by left|done|]. intros s' [->|Hs'] Hv'.
        -- unfold lex_leb. by rewrite lex_cmp_refl.
        -- eapply lex_leb_trans; [by apply Hmax|done].
    + exists s. split_and!; [by right|done|]. intros s' [->|?] ?; [done|by apply Hmax].
Qed.

(** ** The probe *)

Lemma starts_with_spec k p : starts_with k p = true <-> exists x, k = p ++ x.
Proof.
  unfold starts_with. rewrite bool_decide_eq_true. split.
  - intros E. exists (drop (length p) k). rewrite <- E at 1. unfold get, len. simpl.
    by rewrite Nat2Z.id, take_drop.
  - intros (x & ->). by apply get_app_exact.
Qed.

Lemma starts_with_row s ident key :
  staged_wf s -> ident_wf ident -> key_wf key ->
  starts_with (row_key s) (probe_prefix ident key) = true <-> sp_ident s = ident /\ sp_key s = key.
Proof.
  intros (Hi & Hk & _) Hi' Hk'. rewrite starts_with_spec. unfold row_key. rewrite encode_history_key_app. split.
  - intros (x & E). by apply probe_prefix_inj in E as (? & ? & _).
  - intros [<- <-]. by eexists.
Qed.

Lemma row_in_probe_range s r :
  staged_wf s -> ts_wf r -> ts_le (start_ts (sp_entry s)) r ->
  in_scan (Some (probe_prefix (sp_ident s) (sp_key s))) (Some (probe_upper (sp_ident s) (sp_key s) r)) (row_key s) = true.
Proof.
  intros (_ & _ & Hc & (Hs & _)) Hr Hle. unfold in_scan, probe_upper, row_key.
  rewrite encode_history_key_app. apply andb_true_iff. split; unfold lex_leb.
  - rewrite <- (app_nil_r (probe_prefix _ _)) at 1. by rewrite lex_cmp_prefix.
  - rewrite lex_cmp_prefix, ts_be_order, lex_cmp_be_bytes by done. unfold ts_le, then_with in *.
    destruct (ts_cmp _ _); [|done..]. unfold is_u in Hc. destruct (Z.compare_spec (sp_counter s) u32_max); try done.
    unfold u32_max in *. lia.
Qed.

Definition inline_row (kv : list Z * list Z) : list Z * CellValue := (fst kv, Inline (snd kv)).

Lemma scan_inline out (l : btmap (list Z)) :
  Forall2 (fun o x => fst o = fst x /\ stored_as (snd o) (snd x)) out l ->
  Forall (fun x => len (snd x) <= OVERFLOW_THRESHOLD) l -> out = map inline_row l.
Proof.
  induction 1 as [|[k cv] [k' v] out l [Hk Hv] _ IH]; intros Hl; simpl in *; [done|].
  inv Hl. rewrite <- IH by done. unfold stored_as in Hv. simpl in *.
  destruct (Z.ltb_spec OVERFLOW_THRESHOLD (len v)); [lia|]. by subst.
Qed.

Section Probe.
Context (allocator : option refcounts) (ident : TreeIdent) (key : list Z) (r : Ts) (skip : bool).
Context (Hi : ident_wf ident) (Hk : key_wf key) (Hr : ts_wf r).

Lemma out_of_window e :
  (ts_ltb r (start_ts e) || ts_leb (stop_ts e) r) = negb (in_window e r).
Proof.
  unfold in_window. destruct (ts_ltb r (start_ts e)) eqn:E1, (ts_leb (start_ts e) r) eqn:E2,
    (ts_leb (stop_ts e) r) eqn:E3, (ts_ltb r (stop_ts e)) eqn:E4; try done; exfalso; ts_lia.
Qed.

Lemma probe_loop_row s rest :
  staged_wf s -> live_refs allocator (sp_entry s) ->
  probe_loop (inline_row (row_key s, row_value s) :: rest) (probe_prefix ident key) allocator r skip =
    if decide (visible_row ident key r s) then
      Ok (if skip && is_tombstone (sp_entry s) then None else Some (as_committed (sp_entry s)))
    else probe_loop rest (probe_prefix ident key) allocator r skip.
Proof.
  intros Hwf Hl. unfold inline_row. cbn [probe_loop fst snd cell_value_bytes].
  pose proof (starts_with_row s ident key Hwf Hi Hk) as Hsw.
  destruct (starts_with _ _); cbn [negb].
  - destruct Hsw as [Hsw _]. destruct (Hsw eq_refl) as [Ei Ek]. unfold row_value.
    rewrite bind_Ok, decode_encode_value, bind_Ok, out_of_window by (done || apply Hwf).
    change (in_window (as_committed (sp_entry s)) r) with (in_window (sp_entry s) r).
    destruct (in_window (sp_entry s) r) eqn:Hw; cbn [negb].
    + rewrite decide_True by done.
      change (is_tombstone (as_committed (sp_entry s))) with (is_tombstone (sp_entry s)).
      by destruct (skip && is_tombstone (sp_entry s)).
    + rewrite decide_False by (intros (_ & _ & ?); congruence). done.
  - rewrite decide_False; [done|]. intros (Ei & Ek & _). destruct Hsw as [_ Hsw]. by specialize (Hsw (conj Ei Ek)).
Qed.

Lemma probe_loop_skip rows rest :
  Forall (fun kv => exists s, kv = (row_key s, row_value s) /\ staged_wf s /\
    live_refs allocator (sp_entry s) /\ ~ visible_row ident key r s) rows ->
  probe_loop (map inline_row rows ++ rest) (probe_prefix ident key) allocator r skip =
  probe_loop rest (probe_prefix ident key) allocator r skip.
Proof.
  induction 1 as [|kv rows (s & -> & Hwf & Hl & Hv) _ IH]; [done|].
  rewrite map_cons, <- app_comm_cons, probe_loop_row by done. by rewrite decide_False.
Qed.

Context {T : Type} `{KeyTreeLaws T}.

(** Over a store of readable rows, the probe answers with the newest row in
    force at [r], and with nothing when there is none. *)
Lemma probe_spec (t : T) recs :
  tree_wf t -> holds_rows (tree_rows t) recs ->
  Forall (fun s => staged_wf s /\ row_fits s /\ live_refs allocator (sp_entry s)) recs ->
  ((forall s, In s recs -> ~ visible_row ident key r s) ->
    probe_visible_entry t allocator ident key r skip = Ok None) /\
  (forall s, newest_row recs ident key r s ->
    probe_visible_entry t allocator ident key r skip =
      Ok (if skip && is_tombstone (sp_entry s) then None else Some (as_committed (sp_entry s)))).
Proof.
  intros Ht Hrows Hall. rewrite List.Forall_forall in Hall.
  pose proof (rows_sorted t Ht) as Hsort. unfold probe_visible_entry.
  set (lo := Some (probe_prefix ident key)). set (hi := Some (probe_upper ident key r)).
  destruct (scan_law lo hi t Ht) as (out & -> & Hout). rewrite bind_Ok.
  set (L := scan_rows lo hi (tree_rows t)) in *.
  assert (forall kv, In kv L -> exists s, In s recs /\ kv = (row_key s, row_value s)) as HL.
  { intros [k v] [Hin _]%scan_rows_In. apply bt_get_In in Hin; [|done].
    apply Hrows in Hin as (s & ? & -> & ->). by exists s. }
  assert (bt_sorted L) as HsL by by apply bt_filter_sorted.
  apply scan_inline in Hout as ->.
  2: { apply List.Forall_forall. intros kv (s & Hs & ->)%HL. simpl. by apply Hall in Hs as (_ & ? & _). }
  rewrite <- map_rev. split.
  - intros Hn. rewrite <- (app_nil_r (map _ _)), probe_loop_skip; [done|].
    apply List.Forall_forall. intros kv (s & Hs & ->)%in_rev%HL. exists s.
    destruct (Hall s Hs) as (? & ? & ?). split_and!; try done. by apply Hn.
  - intros s (Hs & Hv & Hmax). destruct (Hall s Hs) as (Hwf & Hfit & Hlive).
    assert (In (row_key s, row_value s) L) as HinL.
    { apply scan_rows_In. split.
      - apply bt_get_In; [done|]. apply Hrows. by exists s.
      - unfold lo, hi. destruct Hv as (<- & <- & Hw). apply row_in_probe_range; [done..|].
        unfold in_window in Hw. apply andb_true_iff in Hw as [? _]. by apply ts_leb_spec. }
    apply in_split in HinL as (A & B & HAB). rewrite HAB in *.
    rewrite rev_app_distr. simpl. rewrite <- app_assoc, map_app, probe_loop_skip.
    + simpl app. rewrite map_cons, probe_loop_row by done. by rewrite decide_True.
    + apply List.Forall_forall. intros kv Hkv%in_rev.
      destruct (HL kv) as (s' & Hs' & ->); [apply in_or_app; by right; right|].
      destruct (Hall s' Hs') as (? & ? & ?). exists s'. split_and!; try done. intros Hv'.
      specialize (Hmax s' Hs' Hv'). apply strongly_sorted_after in HsL as HB.
      rewrite List.Forall_forall in HB. specialize (HB _ Hkv). cbn [fst] in HB.
      unfold lex_leb in Hmax. unfold lex_lt in HB. rewrite lex_cmp_antisym, HB in Hmax. done.
Qed.

End Probe.

(** ** Spilling and collecting *)

Section Changes.
Context {T : Type} `{KeyTreeLaws T}.

Lemma apply_spill_rows (t : T) recs s b t' :
  tree_wf t -> row_storable s -> holds_rows (tree_rows t) recs ->
  apply_spill t (sp_ident s) (sp_key s) (sp_entry s) (sp_counter s) = Ok (b, t') ->
  tree_wf t' /\ holds_rows (tree_rows t') (recs ++ [s]).
Proof.
  intros Ht Hst Hrows. unfold holds_rows in *. unfold apply_spill. rewrite get_law by done. rewrite bind_Ok.
  fold (row_key s) (row_value s). destruct (bt_get (row_key s) (tree_rows t)) as [v|] eqn:Eg.
  - case_bool_decide as Hv; [|done]. intros [= <- <-]. split; [done|]. intros k v'. rewrite Hrows. split.
    + intros (s' & ? & ? & ?). exists s'. split; [apply in_or_app; by left|done].
    + intros (s' & [Hs'|[<-|[]]]%in_app_or & -> & ->); [by exists s'|]. apply Hrows. by subst v.
  - intros (t1 & Hins & [= <- <-])%bind_Ok_inv.
    destruct (insert_law _ _ _ _ Ht Hst Eg Hins) as [Ht1 Hr1]. split; [done|]. rewrite Hr1. intros k v.
    destruct (decide (k = row_key s)) as [->|Hne].
    + rewrite bt_get_insert_eq. split.
      * intros [= <-]. exists s. split; [apply in_or_app; right; by left|done].
      * intros (s' & [Hs'|[<-|[]]]%in_app_or & Ek & ->); [|done]. exfalso.
        assert (bt_get (row_key s) (tree_rows t) = Some (row_value s')) by (apply Hrows; by exists s').
        congruence.
    + rewrite bt_get_insert_ne, Hrows by done. split.
      * intros (s' & ? & ? & ?). exists s'. split; [apply in_or_app; by left|done].
      * intros (s' & [Hs'|[<-|[]]]%in_app_or & -> & ->); [by exists s'|done].
Qed.

Lemma commit_spill_rows txn (t : T) recs t' :
  tree_wf t -> Forall row_storable txn -> holds_rows (tree_rows t) recs -> commit_spill_txn txn t = (Ok tt, t') ->
  tree_wf t' /\ holds_rows (tree_rows t') (recs ++ txn).
Proof.
  revert t recs. induction txn as [|s txn IH]; intros t recs Ht Hst Hrows; simpl.
  - intros [= <-]. by rewrite app_nil_r.
  - destruct (apply_spill _ _ _ _ _) as [[b t1]| |] eqn:Ea; [|done..]. intros Hc.
    apply Forall_cons in Hst as [Hs Hst]. destruct (apply_spill_rows t recs s b t1 Ht Hs Hrows Ea) as [Ht1 Hr1].
    destruct (IH t1 (recs ++ [s]) Ht1 Hst Hr1 Hc) as [? Hr']. by rewrite <- app_assoc in Hr'.
Qed.

(** What GC reads of a row *)
Definition kind_of (d : VersionData) : Z :=
  match d with VInline _ => DATA_KIND_INLINE | VOverflow _ _ => DATA_KIND_OVERFLOW end.

Lemma row_header s :
  staged_wf s ->
  decode_value_header (row_value s) =
    Ok (mkValueHeader (start_ts (sp_entry s)) (stop_ts (sp_entry s)) (txn_id (sp_entry s))
          (is_tombstone (sp_entry s)) (kind_of (data (sp_entry s)))).
Proof.
  intros (_ & _ & _ & (Hs & Hp & Ht & _)). apply decode_value_header_of; [|done..].
  pose proof (holds_self (row_value s)) as Hh. unfold row_value in Hh at 2.
  unfold encode_version_entry_value in Hh. destruct (data (sp_entry s)); simpl kind_of; rewrite !app_assoc in Hh;
    apply holds_app in Hh as [Hh _]; apply holds_app in Hh as [Hh _]; by rewrite !app_assoc.
Qed.

Lemma row_overflow_payload s :
  staged_wf s -> kind_of (data (sp_entry s)) = DATA_KIND_OVERFLOW ->
  exists p, decode_overflow_payload (row_value s) = Ok p.
Proof.
  intros _ Hk. pose proof (len_encode_version_entry_value (sp_entry s)) as Hlen.
  fold (row_value s) in Hlen. destruct (data (sp_entry s)); [done|].
  unfold decode_overflow_payload, VALUE_HEADER_LEN. rewrite Hlen. simpl reject_if. rewrite bind_Ok.
  rewrite !read_le_Ok by lia. eexists. reflexivity.
Qed.

Definition gc_keep (ort : Ts) (s : StagedHistorySpill) : bool :=
  bool_decide (stop_ts (sp_entry s) = Ts_MAX) || ts_ltb ort (stop_ts (sp_entry s)).

Lemma gc_victims_rows ort rows :
  Forall (fun kv => exists s, kv = (row_key s, row_value s) /\ staged_wf s) rows ->
  exists vs, gc_victims (map inline_row rows) ort = Ok vs /\
    forall k, In k (map fst vs) <-> exists s, In (row_key s, row_value s) rows /\ staged_wf s /\
      k = row_key s /\ gc_keep ort s = false.
Proof.
  induction 1 as [|kv rows (s & -> & Hwf) _ (vs & Hvs & HIn)].
  { exists []. split; [done|]. intros k. split; [done|by intros (s & [] & _)]. }
  rewrite map_cons. change (inline_row (row_key s, row_value s)) with (row_key s, Inline (row_value s)).
  cbn [gc_victims cell_value_bytes].
  rewrite bind_Ok, row_header, Hvs, bind_Ok by done. cbn [vh_stop_ts vh_data_kind].
  fold (gc_keep ort s). destruct (gc_keep ort s) eqn:Hkeep.
  - exists vs. split; [done|]. intros k. rewrite HIn. split.
    + intros (s' & ? & ?). exists s'. split; [by right|done].
    + intros (s' & [E|?] & Hwf' & -> & Hd); [exfalso|by exists s'].
      assert (Ev : row_value s = row_value s') by congruence.
      pose proof (row_header s Hwf) as H1. rewrite Ev, row_header in H1 by done.
      injection H1 as _ Estop _ _ _. unfold gc_keep in *. rewrite Estop in Hd. congruence.
  - destruct (Z.eqb_spec (kind_of (data (sp_entry s))) DATA_KIND_OVERFLOW) as [Hk|_];
      [destruct (row_overflow_payload s Hwf Hk) as (p & ->)|];
      (eexists; split; [reflexivity|]); intros k; cbn [map fst]; (split;
      [intros [<-|(s' & ? & ?)%HIn]; [exists s; split; [by left|done] | exists s'; split; [by right|done]]
      |intros (s' & [E|Hin] & Hwf' & -> & Hd); [left; congruence|right; apply HIn; by exists s']]).
Qed.

Lemma gc_delete_rows vs allocator (t : T) g g' t' allocator' :
  tree_wf t -> gc_delete vs allocator t g = (Ok g', t', allocator') ->
  tree_wf t' /\
  forall k, (In k (map fst vs) -> bt_get k (tree_rows t') = None) /\
            (~ In k (map fst vs) -> bt_get k (tree_rows t') = bt_get k (tree_rows t)).
Proof.
  revert t allocator g. induction vs as [|[k0 o] vs IH]; intros t allocator g Ht.
  { intros [= <- <- <-]. split; [done|]. intros k. split; [by intros []|done]. }
  cbn [gc_delete]. destruct (tree_delete k0 t) as [[b t1]| |] eqn:Hd; [|done..]. intros Hg.
  destruct (delete_law _ _ _ _ Ht Hd) as (Ht1 & Hr1 & _).
  assert (exists al g1, gc_delete vs al t1 g1 = (Ok g', t', allocator')) as (al & g1 & Hg1).
  { destruct b, o as [[p n]|], allocator; by eauto. }
  destruct (IH t1 al g1 Ht1 Hg1) as [Ht' Hk]. split; [done|]. intros k. destruct (Hk k) as [Hin Hout].
  rewrite Hr1 in Hout. cbn [map fst]. split.
  - intros [->|?]; [|by apply Hin]. destruct (in_dec (fun a b => decide (a = b)) k (map fst vs)) as [?|Hn]; [by apply Hin|].
    rewrite Hout by done. apply bt_get_remove_eq.
  - intros Hn. rewrite Hout by (intros ?; apply Hn; by right).
    apply bt_get_remove_ne. intros ->. apply Hn. by left.
Qed.

(** *** The references the rows hold

    A row whose version lies in an overflow chain owns one reference on the
    chain's first page; the counts may be higher, for handles in memory. *)
Definition row_page (value : list Z) : option Z :=
  match decode_value_header value with
  | Ok h =>
      if vh_data_kind h =? DATA_KIND_OVERFLOW then
        match decode_overflow_payload value with Ok p => Some (fst p) | _ => None end
      else None
  | _ => None
  end.

Definition row_charges (m : btmap (list Z)) (p : Z) : Z :=
  len (filter (fun kv => row_page (snd kv) = Some p) m).

Definition charged (allocator : option refcounts) (m : btmap (list Z)) : Prop :=
  match allocator with
  | Some refs => forall p, row_charges m p <= overflow_refcount refs p <= u32_max
  | None => True
  end.

(** No count has grown. *)
Definition counts_le (a' a : option refcounts) : Prop :=
  match a', a with
  | Some r', Some r => forall p, overflow_refcount r' p <= overflow_refcount r p
  | None, None => True
  | _, _ => False
  end.

Lemma counts_le_refl a : counts_le a a.
Proof. destruct a; simpl; [intros p; lia|done]. Qed.

Lemma counts_le_trans a b c : counts_le a b -> counts_le b c -> counts_le a c.
Proof.
  destruct a, b, c; simpl; try done. intros H1 H2 p. specialize (H1 p). specialize (H2 p). lia.
Qed.

Lemma row_charges_remove k v m p :
  bt_sorted m -> bt_get k m = Some v ->
  row_charges m p = row_charges (bt_remove k m) p + (if bool_decide (row_page v = Some p) then 1 else 0).
Proof.
  unfold row_charges, bt_remove. induction 1 as [|[k0 v0] m Hs IH Hlt]; [done|]. simpl bt_get.
  rewrite (filter_cons _ (k0, v0) m), (filter_cons (fun kv => fst kv <> k) (k0, v0) m). cbn [fst snd].
  destruct (decide (k = k0)) as [->|Hne].
  - intros [= ->]. rewrite (decide_False (P := k0 <> k0)) by tauto.
    assert (filter (fun kv : list Z * list Z => fst kv <> k0) m = m) as ->.
    { clear IH Hs. induction Hlt as [|x m Hx _ IH]; [done|]. rewrite filter_cons, decide_True, IH; [done|].
      intros Heq. unfold lex_lt in Hx. simpl in Hx. rewrite Heq, lex_cmp_refl in Hx. done. }
    destruct (decide (row_page v = Some p)); [rewrite bool_decide_true by done|rewrite bool_decide_false by done];
      autorewrite with len; lia.
  - intros Hg. rewrite (decide_True (P := k0 <> k)) by congruence. rewrite filter_cons. cbn [snd].
    specialize (IH Hg). destruct (decide (row_page v0 = Some p)); autorewrite with len; lia.
Qed.

Lemma row_charges_nonneg m p : 0 <= row_charges m p.
Proof. apply len_nonneg. Qed.

(** Dropping the reference of a deleted row *)
Lemma decref_charged refs k v m q :
  bt_sorted m -> bt_get k m = Some v -> row_page v = Some q -> charged (Some refs) m ->
  charged (Some (snd (decref_overflow refs q))) (bt_remove k m) /\
  counts_le (Some (snd (decref_overflow refs q))) (Some refs).
Proof.
  intros Hs Hg Hq Hch. assert (1 <= overflow_refcount refs q <= u32_max) as Hpos.
  { specialize (Hch q). rewrite (row_charges_remove k v m q Hs Hg), bool_decide_true in Hch by done.
    pose proof (row_charges_nonneg (bt_remove k m) q). lia. }
  assert (forall p, overflow_refcount (snd (decref_overflow refs q)) p =
    overflow_refcount refs p - (if bool_decide (row_page v = Some p) then 1 else 0)) as Hc.
  { intros p. unfold decref_overflow, overflow_refcount, set_count in *. rewrite Hq.
    destruct (refs q) as [n|] eqn:Hn; simpl in Hpos; [|lia]. simpl. destruct (Z.eqb_spec p q) as [->|Hne].
    - rewrite bool_decide_true, Hn by done. simpl. apply as_u_small. unfold is_u, u32_max in *. lia.
    - rewrite bool_decide_false by congruence. lia. }
  split; intros p; rewrite Hc.
  - specialize (Hch p). rewrite (row_charges_remove k v m p Hs Hg) in Hch. destruct (bool_decide _); lia.
  - destruct (bool_decide _); lia.
Qed.

Lemma charged_remove allocator k v m :
  bt_sorted m -> bt_get k m = Some v -> charged allocator m -> charged allocator (bt_remove k m).
Proof.
  intros Hs Hg. destruct allocator as [refs|]; [|done]. intros Hch p. specialize (Hch p).
  rewrite (row_charges_remove k v m p Hs Hg) in Hch. destruct (bool_decide _); lia.
Qed.

Lemma gc_victims_pages ort rows vs :
  gc_victims (map inline_row rows) ort = Ok vs ->
  map fst vs `sublist_of` map fst rows /\
  Forall (fun ko => exists v, In (fst ko, v) rows /\ option_map fst (snd ko) = row_page v) vs.
Proof.
  revert vs. induction rows as [|[k v] rows IH]; intros vs.
  { intros [= <-]. split; [apply sublist_nil|constructor]. }
  rewrite map_cons. change (inline_row (k, v)) with (k, Inline v). cbn [gc_victims cell_value_bytes map fst].
  rewrite bind_Ok.
  assert (forall vs', gc_victims (map inline_row rows) ort = Ok vs' ->
    map fst vs' `sublist_of` k :: map fst rows /\
    Forall (fun ko => exists v', In (fst ko, v') ((k, v) :: rows) /\ option_map fst (snd ko) = row_page v') vs') as Hskip.
  { intros vs' Hvs. destruct (IH vs' Hvs) as [Hsub Hall]. split; [by apply sublist_cons|].
    eapply List.Forall_impl; [|exact Hall]. intros ko (v' & Hin & Ho). exists v'. split; [by right|done]. }
  assert (forall o vs', option_map fst o = row_page v ->
    (vs ← gc_victims (map inline_row rows) ort; Ok ((k, o) :: vs)) = Ok vs' ->
    map fst vs' `sublist_of` k :: map fst rows /\
    Forall (fun ko => exists v', In (fst ko, v') ((k, v) :: rows) /\ option_map fst (snd ko) = row_page v') vs') as Htake.
  { intros o vs' Ho. destruct (gc_victims _ ort) as [vs1| |]; [|done..]. rewrite bind_Ok. intros [= <-].
    destruct (Hskip vs1 eq_refl) as [_ Hall]. destruct (IH vs1 eq_refl) as [Hsub _]. split.
    - cbn [map fst]. by apply sublist_skip.
    - constructor; [|done]. exists v. split; [by left|done]. }
  unfold row_page in Htake. destruct (decode_value_header v) as [h| |]; [|apply Hskip|done].
  destruct (_ || _); [apply Hskip|]. destruct (vh_data_kind h =? _); [|by apply Htake].
  destruct (decode_overflow_payload v) as [p| |]; [by apply Htake|apply Hskip|done].
Qed.

Lemma gc_delete_charged vs allocator (t : T) g g' t' allocator' :
  tree_wf t -> NoDup (map fst vs) ->
  Forall (fun ko => exists v, bt_get (fst ko) (tree_rows t) = Some v /\ option_map fst (snd ko) = row_page v) vs ->
  charged allocator (tree_rows t) -> gc_delete vs allocator t g = (Ok g', t', allocator') ->
  charged allocator' (tree_rows t') /\ counts_le allocator' allocator.
Proof.
  revert t allocator g. induction vs as [|[k o] vs IH]; intros t allocator g Ht Hnd Hvs Hch.
  { intros [= <- <- <-]. split; [done|apply counts_le_refl]. }
  inv Hvs. destruct H3 as (v & Hv & Ho). cbn [map fst snd] in *. apply NoDup_cons in Hnd as [Hni Hnd].
  cbn [gc_delete]. destruct (tree_delete k t) as [[b t1]| |] eqn:Hd; [|done..].
  pose proof (rows_sorted t Ht) as Hs. destruct (delete_law _ _ _ _ Ht Hd) as (Ht1 & Hr1 & Hb).
  rewrite Hv, bool_decide_true in Hb by by eexists. subst b.
  assert (Forall (fun ko => exists v, bt_get (fst ko) (tree_rows t1) = Some v /\
    option_map fst (snd ko) = row_page v) vs) as Hvs1.
  { rewrite Hr1. apply List.Forall_forall. intros [k' o'] Hin. rewrite List.Forall_forall in H4.
    destruct (H4 _ Hin) as (v' & Hv' & Ho'). exists v'. split; [|done]. cbn [fst] in *.
    rewrite bt_get_remove_ne; [done|]. intros ->. apply Hni, list_elem_of_In. by apply (in_map fst) in Hin. }
  destruct o as [[q n]|], allocator as [refs|]; cbn [option_map fst] in Ho; intros Hg;
    try (apply (IH _ _ _ Ht1 Hnd Hvs1) in Hg; [done|rewrite Hr1; by eapply charged_remove]).
  destruct (decref_charged refs k v _ q Hs Hv (eq_sym Ho) Hch) as [Hch1 Hle].
  rewrite <- Hr1 in Hch1. destruct (IH _ _ _ Ht1 Hnd Hvs1 Hch1 Hg) as [? ?].
  split; [done|by eapply counts_le_trans].
Qed.

Definition readable (allocator : option refcounts) (s : StagedHistorySpill) : Prop :=
  staged_wf s /\ row_fits s /\ live_refs allocator (sp_entry s).

Lemma readable_storable allocator recs : Forall (readable allocator) recs -> Forall row_storable recs.
Proof. intros Hr. eapply Forall_impl; [exact Hr|]. intros s (_ & Hf & _). by apply row_fits_storable. Qed.

Lemma gc_pass_rows (t : T) allocator ort recs g t' allocator' :
  tree_wf t -> holds_rows (tree_rows t) recs -> Forall (fun s => staged_wf s /\ row_fits s) recs ->
  gc_pass t allocator ort = (Ok g, t', allocator') ->
  tree_wf t' /\ holds_rows (tree_rows t') (List.filter (gc_keep ort) recs).
Proof.
  intros Ht Hrows Hall. rewrite List.Forall_forall in Hall. unfold gc_pass.
  destruct (scan_law None None t Ht) as (out & -> & Hout). rewrite bind_Ok.
  rewrite scan_rows_all in Hout.
  pose proof (rows_sorted t Ht) as Hsort.
  assert (forall kv, In kv (tree_rows t) -> exists s, In s recs /\ kv = (row_key s, row_value s)) as HL.
  { intros [k v] Hin. apply bt_get_In in Hin; [|done]. apply Hrows in Hin as (s & ? & -> & ->). by exists s. }
  apply scan_inline in Hout as ->.
  2: { apply List.Forall_forall. intros kv (s & Hs & ->)%HL. by apply Hall. }
  destruct (gc_victims_rows ort (tree_rows t)) as (vs & -> & HIn).
  { apply List.Forall_forall. intros kv (s & Hs & ->)%HL. exists s. split; [done|by apply Hall]. }
  intros Hg. destruct (gc_delete_rows _ _ _ _ _ _ _ Ht Hg) as [Ht' Hk]. split; [done|].
  intros k v. destruct (Hk k) as [Hin Hout].
  destruct (in_dec (fun a b => decide (a = b)) k (map fst vs)) as [Hv|Hv].
  - rewrite (Hin Hv). split; [done|]. intros (s & [Hs Hkeep]%filter_In & -> & ->).
    apply HIn in Hv as (s' & Hs' & Hwf' & Ek & Hd). exfalso.
    apply bt_get_In in Hs'; [|done]. rewrite <- Ek in Hs'.
    assert (bt_get (row_key s) (tree_rows t) = Some (row_value s)) as Hs2 by (apply Hrows; by exists s).
    assert (Ev : row_value s = row_value s') by congruence.
    pose proof (row_header s (proj1 (Hall s Hs))) as H1. rewrite Ev, row_header in H1 by done.
    injection H1 as _ Estop _ _ _. unfold gc_keep in *. rewrite Estop in Hd. congruence.
  - rewrite (Hout Hv), (Hrows k v). split; intros (s & Hs & -> & ->).
    + exists s. split; [|done]. apply filter_In. split; [done|]. apply not_false_iff_true. intros Hd.
      apply Hv, HIn. exists s. split_and!; [|by apply Hall|done..]. apply bt_get_In; [done|]. apply Hrows. by exists s.
    + apply filter_In in Hs as [Hs _]. by exists s.
Qed.

Lemma readable_all recs allocator :
  Forall (readable allocator) recs ->
  Forall (fun s => staged_wf s /\ row_fits s /\ live_refs allocator (sp_entry s)) recs.
Proof. apply List.Forall_impl. by intros s (? & ? & ?). Qed.

(** C15: Committing a spill batch makes its versions readable and loses none
    of the earlier ones.  Over rows that can be read back ([readable]: the
    encoded row is at most the inline threshold, and the counter of its
    overflow chain is not saturated), after a successful commit a probe at any
    snapshot answers over the rows held before and the batch together: nothing
    when no version of that tree and key is in force there, and otherwise the
    newest such version, except that a secondary probe ([skip]) answers
    nothing when that version is a tombstone. *)
Theorem spilled_versions_found (t : T) allocator recs txn t' ident key r skip :
  tree_wf t -> holds_rows (tree_rows t) recs -> Forall (readable allocator) (recs ++ txn) ->
  commit_spill_txn txn t = (Ok tt, t') ->
  ident_wf ident -> key_wf key -> ts_wf r ->
  ((forall s, In s (recs ++ txn) -> ~ visible_row ident key r s) ->
    probe_visible_entry t' allocator ident key r skip = Ok None) /\
  (forall s, newest_row (recs ++ txn) ident key r s ->
    probe_visible_entry t' allocator ident key r skip =
      Ok (if skip && is_tombstone (sp_entry s) then None else Some (as_committed (sp_entry s)))).
Proof.
  intros Ht Hrows Hread Hc Hi Hk Hr. pose proof (readable_all _ _ Hread) as Hall.
  apply readable_storable, Forall_app in Hread as [_ Hst]. destruct (commit_spill_rows _ _ _ _ Ht Hst Hrows Hc) as [Ht' Hr'].
  by apply (probe_spec allocator ident key r skip Hi Hk Hr t' (recs ++ txn)).
Qed.

Lemma newest_row_keep ort recs ident key r s :
  ts_le ort r -> newest_row recs ident key r s -> newest_row (List.filter (gc_keep ort) recs) ident key r s.
Proof.
  intros Hle (Hin & Hv & Hmax). split_and!; [|done|].
  - apply filter_In. split; [done|]. destruct Hv as (_ & _ & Hw). unfold in_window, gc_keep in *.
    apply andb_true_iff in Hw as [_ Hw]. apply orb_true_iff. right. ts_lia.
  - intros s' [Hs' _]%filter_In. by apply Hmax.
Qed.

Lemma gc_pass_charged (t : T) allocator ort recs g t' allocator' :
  tree_wf t -> holds_rows (tree_rows t) recs -> Forall (fun s => staged_wf s /\ row_fits s) recs ->
  charged allocator (tree_rows t) -> gc_pass t allocator ort = (Ok g, t', allocator') ->
  charged allocator' (tree_rows t') /\ counts_le allocator' allocator.
Proof.
  intros Ht Hrows Hall Hch. rewrite List.Forall_forall in Hall. unfold gc_pass.
  destruct (scan_law None None t Ht) as (out & -> & Hout). rewrite bind_Ok.
  pose proof (rows_sorted t Ht) as Hsort. rewrite scan_rows_all in Hout. apply scan_inline in Hout as ->.
  2: { apply List.Forall_forall. intros [k v] Hin. apply bt_get_In in Hin; [|done].
       apply Hrows in Hin as (s & Hs & -> & ->). by apply Hall. }
  destruct (gc_victims _ ort) as [vs| |] eqn:Hv; [|done..]. apply gc_victims_pages in Hv as [Hsub Hvs].
  apply (gc_delete_charged vs); [done| | |done].
  - exact (sublist_NoDup _ _ (bt_keys_NoDup _ Hsort) Hsub).
  - eapply List.Forall_impl; [|exact Hvs]. intros ko (v & Hin & Ho). exists v. split; [|done].
    by apply bt_get_In.
Qed.

Lemma live_refs_le a a' e : counts_le a' a -> live_refs a e ->
  (forall refs p, a = Some refs -> overflow_refcount refs p <= u32_max) -> live_refs a' e.
Proof.
  unfold live_refs. destruct (data e) as [|p n]; [done|]. intros Hle (refs & -> & Hne) Hm.
  destruct a' as [refs'|]; [|done]. exists refs'. split; [done|]. specialize (Hle p). specialize (Hm refs p eq_refl).
  simpl in Hle. lia.
Qed.

(** C26: Garbage collection is invisible to the readers it must respect.  Over
    rows that can be read back ([readable]) and counters that cover the
    references the rows own ([charged]), a pass at horizon [ort] that succeeds
    leaves exactly the rows that are still live or stop after [ort], drops one
    reference per removed row and no more, so that the counters still cover
    the rows left, and every probe at a snapshot [r >= ort], of any tree and
    key, answers with the counters after the pass as it did before it. *)
Theorem gc_keeps_reads (t : T) allocator ort recs g t' allocator' :
  tree_wf t -> holds_rows (tree_rows t) recs -> Forall (readable allocator) recs ->
  charged allocator (tree_rows t) -> gc_pass t allocator ort = (Ok g, t', allocator') ->
  holds_rows (tree_rows t') (List.filter (gc_keep ort) recs) /\
  charged allocator' (tree_rows t') /\
  forall ident key r skip, ident_wf ident -> key_wf key -> ts_wf r -> ts_le ort r ->
    probe_visible_entry t' allocator' ident key r skip = probe_visible_entry t allocator ident key r skip.
Proof.
  intros Ht Hrows Hall Hch Hg. apply readable_all in Hall as Hall'.
  assert (Forall (fun s => staged_wf s /\ row_fits s) recs) as Hfit.
  { eapply List.Forall_impl; [|exact Hall]. by intros s (? & ? & _). }
  destruct (gc_pass_rows t allocator ort recs g t' allocator' Ht Hrows Hfit Hg) as [Ht' Hr'].
  destruct (gc_pass_charged t allocator ort recs g t' allocator' Ht Hrows Hfit Hch Hg) as [Hch' Hle'].
  split; [done|]. split; [done|]. intros ident key r skip Hi Hk Hr Hle.
  assert (Forall (fun s => staged_wf s /\ row_fits s /\ live_refs allocator' (sp_entry s))
            (List.filter (gc_keep ort) recs)) as Hall2.
  { apply List.Forall_forall. intros s [Hs _]%filter_In. rewrite List.Forall_forall in Hall'.
    destruct (Hall' s Hs) as (? & ? & Hlive). split; [done|]. split; [done|].
    apply (live_refs_le allocator); [done|done|]. intros refs p ->. apply Hch. }
  destruct (probe_spec allocator ident key r skip Hi Hk Hr t recs Ht Hrows Hall') as [Hn Hs].
  destruct (probe_spec allocator' ident key r skip Hi Hk Hr t' _ Ht' Hr' Hall2) as [Hn' Hs'].
  destruct (newest_row_exists recs ident key r) as [Hnone|(s & Hnew)].
  - rewrite Hn, Hn'; [done| |done]. intros s [? _]%filter_In. by apply Hnone.
  - by rewrite (Hs s Hnew), (Hs' s (newest_row_keep _ _ _ _ _ _ Hle Hnew)).
Qed.

(** The store cannot read back what it accepts: a version whose encoded
    row exceeds the inline threshold (an inline document of more than 30682
    bytes) is spilled without an error, and afterwards both the probe that
    should find it and every garbage-collection pass fail. *)
Theorem oversized_spill_unreadable (t : T) allocator s t' r skip ort :
  tree_wf t -> tree_rows t = [] -> staged_wf s -> ts_wf r ->
  visible_row (sp_ident s) (sp_key s) r s ->
  OVERFLOW_THRESHOLD < len (row_value s) -> row_storable s ->
  commit_spill_txn [s] t = (Ok tt, t') ->
  (exists e, probe_visible_entry t' allocator (sp_ident s) (sp_key s) r skip = Err e) /\
  (exists e, gc_pass t' allocator ort = (Err e, t', allocator)).
Proof.
  intros Ht Hemp Hwf Hr Hv Hbig Hst1 Hc. assert (holds_rows (tree_rows t) []) as Hrows.
  { rewrite Hemp. intros k v. split; [done|by intros (? & [] & _)]. }
  assert (Forall row_storable [s]) as Hsts by by constructor.
  destruct (commit_spill_rows _ _ _ _ Ht Hsts Hrows Hc) as [Ht' Hr']. simpl app in Hr'.
  assert (Heq : tree_rows t' = [(row_key s, row_value s)]).
  { simpl in Hc. unfold apply_spill in Hc. rewrite get_law, bind_Ok, Hemp in Hc by done. simpl bt_get in Hc.
    fold (row_key s) (row_value s) in Hc. destruct (tree_insert _ _ t) as [t1| |] eqn:Hins; simplify_eq/=.
    assert (bt_get (row_key s) (tree_rows t) = None) as Hg by by rewrite Hemp.
    destruct (insert_law _ _ _ _ Ht Hst1 Hg Hins) as [_ ->]. by rewrite Hemp. }
  split.
  - unfold probe_visible_entry. destruct (scan_law (Some (probe_prefix (sp_ident s) (sp_key s)))
      (Some (probe_upper (sp_ident s) (sp_key s) r)) t' Ht') as (out & -> & Hout).
    rewrite Heq, bind_Ok in *. unfold scan_rows in Hout. rewrite filter_cons, decide_True in Hout.
    2: { cbn [fst]. apply row_in_probe_range; [done..|]. destruct Hv as (_ & _ & Hw).
         unfold in_window in Hw. apply andb_true_iff in Hw as [? _]. by apply ts_leb_spec. }
    rewrite filter_nil in Hout. apply Forall2_cons_inv_r in Hout as ([k cv] & l & [Hk Hst] & Hl & ->).
    apply Forall2_nil_inv_r in Hl as ->. cbn [fst snd] in Hk, Hst. subst k. unfold stored_as in Hst.
    rewrite (proj2 (Z.ltb_lt _ _) Hbig) in Hst. destruct Hst as (p & ->). cbn [rev app probe_loop].
    rewrite (proj2 (starts_with_row s (sp_ident s) (sp_key s) Hwf (proj1 Hwf) (proj1 (proj2 Hwf)))) by done.
    cbn [negb cell_value_bytes]. by eexists.
  - unfold gc_pass. destruct (scan_law None None t' Ht') as (out & -> & Hout).
    rewrite bind_Ok, scan_rows_all, Heq in *. apply Forall2_cons_inv_r in Hout as ([k cv] & l & [_ Hst] & Hl & ->).
    apply Forall2_nil_inv_r in Hl as ->. cbn [snd] in Hst. unfold stored_as in Hst.
    rewrite (proj2 (Z.ltb_lt _ _) Hbig) in Hst. destruct Hst as (p & ->). by eexists.
Qed.

End Changes.

(** *** The theorems at work: two versions of one key *)
Definition sample_row (start stop : Z) (v : list Z) : StagedHistorySpill :=
  mkStaged (mkIdent 4 PrimaryTree) [1; 2]
    (mkEntry (mkTs start 0) (mkTs stop 0) 9 Committed (VInline v) false) 0.

Lemma sample_row_readable start stop v :
  is_u64 start -> is_u64 stop -> len v <= 1000 -> readable None (sample_row start stop v).
Proof.
  intros Hs Hp Hv. unfold readable, staged_wf, row_fits, row_value, entry_wf, data_wf, live_refs, ident_wf, key_wf, ts_wf.
  rewrite len_encode_version_entry_value. unfold OVERFLOW_THRESHOLD, is_u, is_i, len in *. simpl in *.
  split_and!; try done; lia.
Qed.

Definition sample_store : btmap (list Z) :=
  snd (commit_spill_txn [sample_row 10 20 [7]; sample_row 20 30 [8]] ([] : btmap (list Z))).

Lemma sample_readable : Forall (readable None) [sample_row 10 20 [7]; sample_row 20 30 [8]].
Proof. repeat constructor; apply sample_row_readable; by vm_compute. Qed.

Lemma spilled_versions_found_witness :
  probe_visible_entry sample_store None (mkIdent 4 PrimaryTree) [1; 2] (mkTs 25 0) false =
    Ok (Some (sp_entry (sample_row 20 30 [8]))).
Proof.
  refine (proj2 (spilled_versions_found ([] : btmap (list Z)) None [] [sample_row 10 20 [7]; sample_row 20 30 [8]]
    sample_store (mkIdent 4 PrimaryTree) [1; 2] (mkTs 25 0) false _ _ _ _ _ _ _) (sample_row 20 30 [8]) _).
  - constructor.
  - intros k v. split; [done|by intros (? & [] & _)].
  - apply sample_readable.
  - by vm_compute.
  - by vm_compute.
  - by vm_compute.
  - by vm_compute.
  - split_and!; [right; by left|by vm_compute|]. intros s' [<-|[<-|[]]] Hv; [|by vm_compute].
    by destruct Hv as (_ & _ & Hv); vm_compute in Hv.
Defined.

(** Two versions of a key that share the overflow chain at page 6, and the
    counter that covers both *)
Definition overflow_row (start stop : Z) : StagedHistorySpill :=
  mkStaged (mkIdent 4 PrimaryTree) [1; 2]
    (mkEntry (mkTs start 0) (mkTs stop 0) 9 Committed (VOverflow 6 50000) false) 0.

Definition overflow_rows : list StagedHistorySpill := [overflow_row 10 20; overflow_row 20 30].
Definition overflow_store : btmap (list Z) := snd (commit_spill_txn overflow_rows ([] : btmap (list Z))).
Definition overflow_counts : option refcounts := Some (set_count (fun _ => None) 6 2).

Lemma overflow_readable : Forall (readable overflow_counts) overflow_rows.
Proof.
  assert (forall start stop, is_u64 start -> is_u64 stop -> readable overflow_counts (overflow_row start stop)) as H.
  { intros start stop Hs Hp. unfold readable, staged_wf, row_fits, row_value, entry_wf. rewrite len_encode_version_entry_value.
    unfold is_u in *. split_and!; try done; simpl in *; try lia. by eexists. }
  constructor; [by apply H|]. constructor; [by apply H|constructor].
Qed.

Lemma overflow_charged : charged overflow_counts overflow_store.
Proof.
  intros p. destruct (decide (p = 6)) as [->|Hne]; [by vm_compute|].
  assert (Forall (fun kv => row_page (snd kv) = Some 6) overflow_store) as Hall by (vm_compute; by repeat constructor).
  assert (row_charges overflow_store p = 0) as ->.
  { unfold row_charges. induction Hall as [|kv m Hkv _ IH]; [done|]. by rewrite filter_cons, decide_False by congruence. }
  unfold overflow_counts, overflow_refcount, set_count. destruct (Z.eqb_spec p 6); [done|]. by vm_compute.
Qed.

Lemma gc_keeps_reads_witness :
  overflow_refcount (default (fun _ => None) (snd (gc_pass overflow_store overflow_counts (mkTs 22 0)))) 6 = 1 /\
  probe_visible_entry (snd (fst (gc_pass overflow_store overflow_counts (mkTs 22 0))))
    (snd (gc_pass overflow_store overflow_counts (mkTs 22 0))) (mkIdent 4 PrimaryTree) [1; 2] (mkTs 25 0) false =
  probe_visible_entry overflow_store overflow_counts (mkIdent 4 PrimaryTree) [1; 2] (mkTs 25 0) false.
Proof.
  split; [by vm_compute|].
  refine (proj2 (proj2 (gc_keeps_reads overflow_store overflow_counts (mkTs 22 0) overflow_rows
    (mkGc 1 0) (snd (fst (gc_pass overflow_store overflow_counts (mkTs 22 0))))
    (snd (gc_pass overflow_store overflow_counts (mkTs 22 0))) _ _ _ _ _))
    (mkIdent 4 PrimaryTree) [1; 2] (mkTs 25 0) false _ _ _ _).
  - vm_compute. repeat constructor.
  - apply (commit_spill_rows overflow_rows ([] : btmap (list Z)) []);
      [constructor|by eapply readable_storable, overflow_readable| |by vm_compute]. intros k v. split; [done|by intros (? & [] & _)].
  - apply overflow_readable.
  - apply overflow_charged.
  - by vm_compute.
  - by vm_compute.
  - by vm_compute.
  - by vm_compute.
  - by vm_compute.
Defined.

Definition oversized_row : StagedHistorySpill := sample_row 10 20 (zeros 30683).

Lemma oversized_spill_unreadable_witness :
  let t' := [(row_key oversized_row, row_value oversized_row)] in
  exists e, gc_pass t' None (mkTs 5 0) = (Err e, t', None).
Proof.
  refine (proj2 (oversized_spill_unreadable ([] : btmap (list Z)) None oversized_row
    [(row_key oversized_row, row_value oversized_row)] (mkTs 15 0) false (mkTs 5 0) _ _ _ _ _ _ _ _)).
  - constructor.
  - done.
  - unfold staged_wf, entry_wf. split_and!; by vm_compute.
  - by vm_compute.
  - split_and!; by vm_compute.
  - unfold row_value. rewrite len_encode_version_entry_value. by vm_compute.
  - unfold row_storable, row_value. rewrite len_encode_version_entry_value. by vm_compute.
  - reflexivity.
Defined.
