(* ===== verification/Synth.v ===== *)
(** * Reading a key and folding a leaf at a checkpoint

    The MVCC point read of [storage/btree/scan.rs] (resident chain, then
    history, then the base cell), and the page synthesis of
    [storage/reconcile/synth.rs] with the helpers of
    [storage/btree/reconcile.rs] and the staging of [reconcile/driver.rs]. *)

From S2P Require Import Prelude Bytes Timestamp BTreeMap Crc Page LeafNode Version OverflowRefs Chain.
From S2P Require Import HistoryCodec KeyTree HistoryStore.
From Stdlib Require Import Sorted.

#[local] Open Scope Z_scope.

(** ** The point read *)

Section Read.
(** [read_overflow_chain] of the page store *)
Context (read_overflow_chain : Z -> Z -> Result (list Z)).

Definition resolve_cell_value (value : CellValue) : Result (list Z) :=
  match value with
  | Inline v => Ok v
  | Overflow first_page total_length => read_overflow_chain first_page total_length
  end.

Definition resolve_version_data (d : VersionData) : Result (list Z) :=
  match d with
  | VInline v => Ok v
  | VOverflow first_page total_length => read_overflow_chain first_page (as_u 32 total_length)
  end.

(** [get_mvcc] at the leaf the descent found: [buf] its image, [snap] its
    resident chains, [history] the probe *)
Definition get_mvcc (buf : list Z) (snap : option (btmap chain)) (key : list Z) (view : ReadView)
  (history : option (list Z -> Ts -> Result (option VersionEntry))) : Result (option (list Z)) :=
  match (s ← snap; visible_at s key view) with
  | Some entry =>
      if is_tombstone entry then Ok None
      else v ← resolve_version_data (data entry); Ok (Some v)
  | None =>
      let is_candidate := match snap with Some s => history_is_candidate s key (read_ts view) | None => true end in
      found ← match (if is_candidate then history else None) with
              | Some probe => probe key (read_ts view)
              | None => Ok None
              end;
      match found with
      | Some entry =>
          if is_tombstone entry then Ok None
          else v ← resolve_version_data (data entry); Ok (Some v)
      | None =>
          cell ← cell_value buf key;
          match cell with
          | Some value => v ← resolve_cell_value value; Ok (Some v)
          | None => Ok None
          end
      end
  end.

End Read.

(** ** Folding *)

Inductive NotInstallable : Set :=
| VisibleWinnerExceedsPageBudget
| FoldedLeafExceedsPageByteBudget.

(** [Result<A, NotInstallable>] *)
Inductive synth (A : Type) : Type :=
| Installable (a : A)
| Refused (r : NotInstallable).
Arguments Installable {A} _.
Arguments Refused {A} _.

#[export] Instance synth_bind : MBind synth := fun A B f r =>
  match r with Installable a => f a | Refused e => Refused e end.

Lemma synth_bind_inv {A B} (r : synth A) (f : A -> synth B) b :
  (r ≫= f) = Installable b -> exists a, r = Installable a /\ f a = Installable b.
Proof. destruct r; [|done]. intros. by eexists. Qed.

Definition LEAF_PAGE_BUDGET : Z := PAGE_SIZE_LEAF.

(** [max_by_key] keeps the last of several maxima. *)
Fixpoint max_start_from (best : nat * VersionEntry) (l : list (nat * VersionEntry)) : nat * VersionEntry :=
  match l with
  | [] => best
  | x :: t => max_start_from (if ts_leb (start_ts (snd best)) (start_ts (snd x)) then x else best) t
  end.

Fixpoint enumerate_from {A} (i : nat) (l : list A) : list (nat * A) :=
  match l with [] => [] | x :: t => (i, x) :: enumerate_from (S i) t end.

Definition is_winner_candidate (cp : Ts) (e : VersionEntry) : bool :=
  is_committed e && ts_leb (start_ts e) cp.

Definition checkpoint_winner_index (c : chain) (cp : Ts) : option nat :=
  match List.filter (fun x => is_winner_candidate cp (snd x)) (enumerate_from 0 c) with
  | [] => None
  | x :: t => Some (fst (max_start_from x t))
  end.

Definition stable_history_counter (c : chain) (index : nat) (start : Ts) : synth Z :=
  let n := len (List.filter (fun e => is_committed e && bool_decide (start_ts e = start)) (take index c)) in
  if n <? 2 ^ 32 then Installable n else Refused FoldedLeafExceedsPageByteBudget.

Definition folded_cell_from_entry (key : list Z) (e : VersionEntry) : synth LeafCell :=
  match data e with
  | VInline b => Installable (mkLeafCell key (Inline b))
  | VOverflow first_page total_length =>
      if total_length <? 2 ^ 32 then Installable (mkLeafCell key (Overflow first_page total_length))
      else Refused FoldedLeafExceedsPageByteBudget
  end.

(** The loop over one chain: retained entries and spills, in chain order *)
Fixpoint split_entries (ident : TreeIdent) (key : list Z) (full : chain) (winner : option nat)
  (cp ort : Ts) (i : nat) (c : chain) : synth (chain * list StagedHistorySpill) :=
  match c with
  | [] => Installable ([], [])
  | e :: t =>
      if bool_decide (Some i = winner) then split_entries ident key full winner cp ort (S i) t
      else
        match state e with
        | Committed =>
            if ts_ltb cp (start_ts e) then
              x ← split_entries ident key full winner cp ort (S i) t;
              Installable (e :: fst x, snd x)
            else if ts_leb (stop_ts e) ort then split_entries ident key full winner cp ort (S i) t
            else
              counter ← stable_history_counter full i (start_ts e);
              x ← split_entries ident key full winner cp ort (S i) t;
              Installable (fst x, mkStaged ident key e counter :: snd x)
        | Pending _ =>
            x ← split_entries ident key full winner cp ort (S i) t;
            Installable (e :: fst x, snd x)
        | Aborted => split_entries ident key full winner cp ort (S i) t
        end
  end.

(** What the loops over the chains update *)
Record FoldState : Set := mkFold {
  base_cells : btmap LeafCell;
  retained_chains : btmap chain;
  history_spill : list StagedHistorySpill }.

Definition fold_chain (cp ort : Ts) (ident : TreeIdent) (key : list Z) (c : chain) (st : FoldState)
  : synth FoldState :=
  let winner_index := checkpoint_winner_index c cp in
  base ← match winner_index with
         | Some i =>
             let base := bt_remove key (base_cells st) in
             match c !! i with
             | Some w =>
                 if is_tombstone w then Installable base
                 else cell ← folded_cell_from_entry key w; Installable (bt_insert key cell base)
             | None => Installable base
             end
         | None => Installable (base_cells st)
         end;
  x ← split_entries ident key c winner_index cp ort 0 c;
  Installable (mkFold base
    (match fst x with [] => retained_chains st | _ => bt_insert key (fst x) (retained_chains st) end)
    (history_spill st ++ snd x)).

Fixpoint fold_chains (cp ort : Ts) (ident : TreeIdent) (chains : btmap chain) (st : FoldState)
  : synth FoldState :=
  match chains with
  | [] => Installable st
  | (key, c) :: t => st' ← fold_chain cp ort ident key c st; fold_chains cp ort ident t st'
  end.

(** *** Folded images ([btree/reconcile.rs])

    A folded cell has the fields of a leaf cell. *)

Record FoldedLeafLinks : Set := mkLinks { fl_next : Z; fl_prev : Z }.

Definition decode_folded_leaf (image : list Z) : Result (list LeafCell * FoldedLeafLinks) :=
  node ← parse image;
  Ok (cells node, mkLinks (next_leaf_page node) (prev_leaf_page node)).

Definition encode_folded_leaf `{Crc32c} (winners : list LeafCell) (links : FoldedLeafLinks) : Result (list Z) :=
  encode (mkLeafNode 0 (fl_next links) (fl_prev links) winners).

Definition folded_encoded_size (c : LeafCell) : Z :=
  let value_bytes := match cell_val c with
                     | Inline b => CELL_INLINE_LEN_BYTES + len b
                     | Overflow _ _ => CELL_OVERFLOW_REF_BYTES
                     end in
  leaf_cell_encoded_size (len (cell_key c)) value_bytes.

Definition version_state_encoded_size (s : VersionState) : Z :=
  1 + match s with Pending _ => 8 | Committed | Aborted => 0 end.

Definition version_data_encoded_size (d : VersionData) : Z :=
  match d with VInline b => 4 + len b | VOverflow _ _ => 12 end.

Definition retained_version_entry_encoded_size (e : VersionEntry) : Z :=
  12 + 12 + 8 + version_state_encoded_size (state e) + 1 + 1 + version_data_encoded_size (data e).

Definition sum_map {A} (f : A -> Z) (l : list A) : Z := foldr (fun x s => f x + s) 0 l.

Definition retained_chains_encoded_size (chains : btmap chain) : Z :=
  sum_map (fun kc => 2 + len (fst kc) + 4 + sum_map retained_version_entry_encoded_size (snd kc)) chains.

Definition predict_encoded_leaf_size (winners : list LeafCell) (retained : btmap chain) : Z :=
  let leaf_bytes := LEAF_HEADER_SIZE + len winners * SLOT_POINTER_BYTES + sum_map folded_encoded_size winners in
  leaf_bytes + retained_chains_encoded_size retained.

(** [collect] into a [BTreeMap] keyed by the cell key *)
Definition collect_cells (cs : list LeafCell) : btmap LeafCell :=
  foldl (fun m c => bt_insert (cell_key c) c m) [] cs.

Record PageSynthesisResult : Set := mkSynth {
  new_base : list Z; ps_history_spill : list StagedHistorySpill; ps_retained_chains : btmap chain }.

Definition synthesize_page `{Crc32c} (base_image : list Z) (chains : btmap chain) (cp ort : Ts)
  (ident : TreeIdent) : synth PageSynthesisResult :=
  match decode_folded_leaf base_image with
  | Ok (cs, links) =>
      st ← fold_chains cp ort ident chains (mkFold (collect_cells cs) [] []);
      let folded_cells := map snd (base_cells st) in
      if LEAF_PAGE_BUDGET <? predict_encoded_leaf_size folded_cells [] then
        Refused VisibleWinnerExceedsPageBudget
      else if LEAF_PAGE_BUDGET <? predict_encoded_leaf_size folded_cells (retained_chains st) then
        Refused FoldedLeafExceedsPageByteBudget
      else
        match encode_folded_leaf folded_cells links with
        | Ok b => Installable (mkSynth b (history_spill st) (retained_chains st))
        | _ => Refused FoldedLeafExceedsPageByteBudget
        end
  | _ => Refused FoldedLeafExceedsPageByteBudget
  end.

(** [visible_winners_fit_individual_leaf_pages]: [count] winners seen so far *)
Fixpoint visible_winners_loop (chains : btmap chain) (cp : Ts) (count : Z) : synth bool :=
  match chains with
  | [] => Installable (1 <? count)
  | (key, c) :: rest =>
      match checkpoint_winner_index c cp with
      | None => Installable false
      | Some i =>
          match c with
          | [e] =>
              if is_tombstone e then visible_winners_loop rest cp count
              else
                cell ← match data e with
                       | VInline b =>
                           if OVERFLOW_THRESHOLD <? len b then
                             if len b <? 2 ^ 32 then Installable (mkLeafCell key (Overflow 0 (len b)))
                             else Refused FoldedLeafExceedsPageByteBudget
                           else folded_cell_from_entry key e
                       | _ => folded_cell_from_entry key e
                       end;
                if LEAF_PAGE_BUDGET <? predict_encoded_leaf_size [cell] [] then Installable false
                else visible_winners_loop rest cp (count + 1)
          | _ => Installable false
          end
      end
  end.

Definition visible_winners_fit_individual_leaf_pages (chains : btmap chain) (cp : Ts) : synth bool :=
  visible_winners_loop chains cp 0.

(** [stage_history_spills] of the driver *)
Fixpoint stage_history_spills (refs : refcounts) (txn : HistorySpillTxn) (spills : list StagedHistorySpill)
  : Result HistorySpillTxn * refcounts :=
  match spills with
  | [] => (Ok txn, refs)
  | s :: rest =>
      match (match kind (sp_ident s) with
             | PrimaryTree => spill_primary refs txn (sp_ident s) (sp_key s) (sp_entry s) (sp_counter s)
             | SecondaryTree _ => spill_sec_index refs txn (sp_ident s) (sp_key s) (sp_entry s) (sp_counter s)
             end) with
      | (Ok txn', refs') => stage_history_spills refs' txn' rest
      | (r, refs') => (r, refs')
      end
  end.
