(* ===== verification/Fold.v ===== *)
(** * A checkpoint fold does not change what readers see

    The proof about [Synth]: how the winner cuts a chain, what is retained and
    spilled, and the read of a key before and after; then the same for a whole
    page with its history store. *)

From S2P Require Import Prelude Bytes Timestamp BTreeMap Crc Page LeafNode Version OverflowRefs Chain.
From S2P Require Import HistoryCodec KeyTree HistoryStore Synth.
From Stdlib Require Import Sorted.

#[local] Open Scope Z_scope.

(** ** The winner *)

Lemma max_start_first x t :
  Forall (fun y => ts_lt (start_ts (snd y)) (start_ts (snd x))) t -> max_start_from x t = x.
Proof.
  induction 1 as [|y t Hy _ IH]; simpl; [done|].
  by replace (ts_leb (start_ts (snd x)) (start_ts (snd y))) with false by (symmetry; ts_lia).
Qed.

Lemma enumerate_In {A} (l : list A) i y : In y (enumerate_from i l) -> In (snd y) l.
Proof. revert i. induction l as [|x l IH]; intros i; simpl; [done|]. intros [<-|?]; [by left|right; eauto]. Qed.

Lemma winner_candidate_committed cp e :
  is_winner_candidate cp e = true -> is_aborted e = false /\ is_pending e = false /\ ts_le (start_ts e) cp.
Proof.
  unfold is_winner_candidate, is_committed, is_aborted, is_pending. intros [Hs Hl]%andb_true_iff.
  destruct (state e); try done. split_and!; [done..|by apply ts_leb_spec].
Qed.

Lemma winner_filter cp next c i :
  linked next c ->
  match List.filter (fun x => is_winner_candidate cp (snd x)) (enumerate_from i c) with
  | [] => Forall (fun e => is_winner_candidate cp e = false) c
  | x :: t => exists pre w post, c = pre ++ w :: post /\ x = ((i + length pre)%nat, w) /\
      is_winner_candidate cp w = true /\ Forall (fun e => is_winner_candidate cp e = false) pre /\
      Forall (fun y => ts_lt (start_ts (snd y)) (start_ts w)) t
  end.
Proof.
  revert next i. induction c as [|e c IH]; intros next i Hl; simpl; [constructor|].
  destruct (is_winner_candidate cp e) eqn:He.
  - exists [], e, c. split_and!; [done|by rewrite Nat.add_0_r|done|constructor|].
    destruct (winner_candidate_committed cp e He) as (Ha & _ & _). simpl in Hl. rewrite Ha in Hl.
    destruct Hl as (_ & _ & Hl). apply List.Forall_forall. intros y [Hy Hc]%filter_In.
    apply enumerate_In in Hy. apply winner_candidate_committed in Hc as (Hc & _ & _).
    destruct (linked_below _ _ _ Hl Hy Hc). ts_lia.
  - assert (exists next', linked next' c) as (next' & Hl').
    { simpl in Hl. destruct (is_aborted e); [by eauto|]. destruct Hl as (_ & _ & Hl). by eauto. }
    specialize (IH next' (S i) Hl'). destruct (List.filter _ _) as [|x t]; [by constructor|].
    destruct IH as (pre & w & post & -> & -> & Hw & Hpre & Ht). exists (e :: pre), w, post.
    split_and!; [done| |done|by constructor|done]. f_equal. simpl. lia.
Qed.

Lemma winner_index_spec cp c :
  linked Ts_MAX c ->
  match checkpoint_winner_index c cp with
  | None => Forall (fun e => is_winner_candidate cp e = false) c
  | Some i => exists pre w post, c = pre ++ w :: post /\ i = length pre /\
      is_winner_candidate cp w = true /\ Forall (fun e => is_winner_candidate cp e = false) pre
  end.
Proof.
  intros Hl. unfold checkpoint_winner_index. pose proof (winner_filter cp _ c 0 Hl) as H.
  destruct (List.filter _ _) as [|x t]; [done|].
  destruct H as (pre & w & post & -> & -> & Hw & Hpre & Ht). rewrite max_start_first by done.
  by exists pre, w, post.
Qed.

(** ** What is retained and what is spilled *)

Definition retain (cp : Ts) (e : VersionEntry) : bool :=
  match state e with Committed => ts_ltb cp (start_ts e) | Pending _ => true | Aborted => false end.

Definition spillable (cp ort : Ts) (e : VersionEntry) : bool :=
  is_committed e && negb (ts_ltb cp (start_ts e)) && negb (ts_leb (stop_ts e) ort).

Fixpoint drop_winner (winner : option nat) (i : nat) (c : chain) : chain :=
  match c with
  | [] => []
  | e :: t => if bool_decide (Some i = winner) then drop_winner winner (S i) t
              else e :: drop_winner winner (S i) t
  end.

Lemma drop_winner_none i c : drop_winner None i c = c.
Proof. revert i. induction c as [|e c IH]; intros i; simpl; [done|]. by rewrite IH. Qed.

Lemma drop_winner_past j i c : (j < i)%nat -> drop_winner (Some j) i c = c.
Proof.
  revert i. induction c as [|e c IH]; intros i Hi; simpl; [done|].
  rewrite bool_decide_false by (intros [= ?]; lia). rewrite IH by lia. done.
Qed.

Lemma drop_winner_at i pre w post :
  drop_winner (Some (i + length pre)%nat) i (pre ++ w :: post) = pre ++ post.
Proof.
  revert i. induction pre as [|e pre IH]; intros i; simpl.
  - rewrite bool_decide_true by (f_equal; lia). apply drop_winner_past. lia.
  - rewrite bool_decide_false by (intros [= ?]; lia). f_equal.
    replace (i + S (length pre))%nat with (S i + length pre)%nat by lia. apply IH.
Qed.

Lemma stable_history_counter_u32 c i t n : stable_history_counter c i t = Installable n -> is_u32 n.
Proof.
  unfold stable_history_counter. destruct (Z.ltb_spec (len (List.filter
    (fun e => is_committed e && bool_decide (start_ts e = t)) (take i c))) (2 ^ 32)); [|done].
  intros [= <-]. unfold is_u. pose proof (len_nonneg (List.filter
    (fun e => is_committed e && bool_decide (start_ts e = t)) (take i c))). lia.
Qed.

Lemma split_entries_spec ident key full winner cp ort i c ret sp :
  split_entries ident key full winner cp ort i c = Installable (ret, sp) ->
  ret = List.filter (retain cp) (drop_winner winner i c) /\
  map sp_entry sp = List.filter (spillable cp ort) (drop_winner winner i c) /\
  Forall (fun s => sp_ident s = ident /\ sp_key s = key /\ is_u32 (sp_counter s)) sp.
Proof.
  revert i ret sp. induction c as [|e c IH]; intros i ret sp.
  { intros [= <- <-]. split_and!; [done..|constructor]. }
  simpl. case_bool_decide; [apply IH|]. simpl. unfold retain at 1, spillable at 1, is_committed.
  destruct (state e); simpl.
  - intros ([r s] & Hr & [= <- <-])%synth_bind_inv. destruct (IH _ _ _ Hr) as (-> & ? & ?). done.
  - destruct (ts_ltb cp (start_ts e)); simpl.
    + intros ([r s] & Hr & [= <- <-])%synth_bind_inv. destruct (IH _ _ _ Hr) as (-> & ? & ?). done.
    + destruct (ts_leb (stop_ts e) ort); simpl; [apply IH|].
      intros (n & Hn%stable_history_counter_u32 & ([r s] & Hr & [= <- <-])%synth_bind_inv)%synth_bind_inv.
      destruct (IH _ _ _ Hr) as (-> & Hs & Hf). split_and!; [done|simpl; by rewrite Hs|by constructor].
  - apply IH.
Qed.

Definition live (e : VersionEntry) : bool := negb (is_aborted e).

Lemma no_pending_below pre w post :
  pending_on_top (pre ++ w :: post) -> is_aborted w = false -> no_pending post.
Proof.
  induction pre as [|e pre IH]; simpl; intros Hp Hw; [by rewrite Hw in Hp|].
  destruct (is_aborted e); [by apply IH|]. apply List.Forall_app in Hp as [_ Hp]. by inv Hp.
Qed.

Lemma entry_state e : is_aborted e = true \/ is_pending e = true \/ is_committed e = true.
Proof. unfold is_aborted, is_pending, is_committed. destruct (state e); tauto. Qed.

Lemma filter_none {A} (f : A -> bool) l : (forall x, In x l -> f x = false) -> List.filter f l = [].
Proof.
  induction l as [|x l IH]; intros Hf; simpl; [done|]. rewrite Hf by by left. apply IH. intros. apply Hf. by right.
Qed.

(** The cut: entries above the winner stay, those below are spilled if some
    reader may need them. *)
Lemma fold_split ident key cp ort c ret sp :
  chain_wf c ->
  split_entries ident key c (checkpoint_winner_index c cp) cp ort 0 c = Installable (ret, sp) ->
  (checkpoint_winner_index c cp = None /\ ret = List.filter live c /\ sp = []) \/
  exists pre w post, c = pre ++ w :: post /\ checkpoint_winner_index c cp = Some (length pre) /\
    is_winner_candidate cp w = true /\ ret = List.filter live pre /\
    map sp_entry sp = List.filter (fun e => is_committed e && ts_ltb ort (stop_ts e)) post /\
    no_pending post.
Proof.
  intros [Hl Hp] Hs. apply split_entries_spec in Hs as (-> & Hsp & _).
  pose proof (winner_index_spec cp c Hl) as Hw.
  assert (forall e, is_winner_candidate cp e = false -> retain cp e = live e /\ spillable cp ort e = false) as Hcut.
  { intros e. unfold is_winner_candidate, retain, live, spillable, is_committed, is_aborted.
    destruct (state e); simpl; try done. intros He. destruct (ts_ltb cp (start_ts e)) eqn:E; [done|].
    exfalso. ts_lia. }
  destruct (checkpoint_winner_index c cp) as [i|].
  - right. destruct Hw as (pre & w & post & -> & -> & Hw & Hpre). exists pre, w, post.
    pose proof (drop_winner_at 0 pre w post) as Hd. simpl in Hd. rewrite Hd in *.
    rewrite !List.filter_app in *.
    destruct (winner_candidate_committed _ _ Hw) as (Ha & _ & Hcp).
    pose proof (no_pending_below _ _ _ Hp Ha) as Hnp.
    destruct (linked_app _ _ _ _ Hl Ha) as (Hpost & _ & _). rewrite List.Forall_forall in Hpre.
    assert (forall e, In e post -> is_committed e = true -> ts_ltb cp (start_ts e) = false) as Hlow.
    { intros e He Hc. assert (is_aborted e = false) as Hae.
      { revert Hc. unfold is_committed, is_aborted. by destruct (state e). }
      destruct (linked_below _ _ _ Hpost He Hae). ts_lia. }
    split_and!; try done.
    + rewrite (filter_ext_in _ live pre) by (intros e He; by apply Hcut, Hpre).
      rewrite (filter_none (retain cp) post); [by rewrite app_nil_r|]. intros e He.
      unfold no_pending in Hnp. rewrite List.Forall_forall in Hnp. specialize (Hnp e He). specialize (Hlow e He).
      unfold retain, is_pending, is_committed in *. destruct (state e); auto.
    + rewrite Hsp, filter_none by (intros e He; by apply Hcut, Hpre). simpl. apply filter_ext_in.
      intros e He. specialize (Hlow e He). unfold spillable.
      destruct (is_committed e); simpl; [|done]. rewrite Hlow by done. simpl.
      destruct (ts_leb (stop_ts e) ort) eqn:E1, (ts_ltb ort (stop_ts e)) eqn:E2; try done; exfalso; ts_lia.
  - left. rewrite drop_winner_none in *. rewrite List.Forall_forall in Hw. split_and!; [done| |].
    + apply filter_ext_in. intros e He. by apply Hcut, Hw.
    + rewrite filter_none in Hsp by (intros e He; by apply Hcut, Hw). by destruct sp.
Qed.

(** ** Reading one key *)

Definition cell_data (c : CellValue) : VersionData :=
  match c with Inline b => VInline b | Overflow p n => VOverflow p n end.

Definition answer_of (e : VersionEntry) : option VersionData :=
  if is_tombstone e then None else Some (data e).

(** What [get_mvcc] answers with, before the payload is fetched *)
Definition read_answer (c : chain) (hist : option VersionEntry) (cell : option CellValue) (v : ReadView)
  : option VersionData :=
  match find (fun e => version_visible_to e v) c with
  | Some e => answer_of e
  | None =>
      match (if candidate_chain c (read_ts v) then hist else None) with
      | Some e => answer_of e
      | None => cell_data <$> cell
      end
  end.

(** What a probe of rows [recs] may answer *)
Definition history_answers (recs : list StagedHistorySpill) ident key r (skip : bool) (h : option VersionEntry) : Prop :=
  (h = None /\ forall s, In s recs -> ~ visible_row ident key r s) \/
  exists s, newest_row recs ident key r s /\
    h = if skip && is_tombstone (sp_entry s) then None else Some (as_committed (sp_entry s)).

Lemma aborted_invisible e v : is_aborted e = true -> version_visible_to e v = false.
Proof. unfold is_aborted, version_visible_to. by destruct (state e). Qed.

Lemma find_live v c :
  find (fun e => version_visible_to e v) (List.filter live c) = find (fun e => version_visible_to e v) c.
Proof.
  induction c as [|e c IH]; simpl; [done|]. unfold live at 1. destruct (is_aborted e) eqn:Ha; simpl.
  - by rewrite (aborted_invisible e v Ha).
  - by rewrite IH.
Qed.

Lemma window_visible e v :
  is_aborted e = false -> in_window e (read_ts v) = true -> ts_le (read_ts v) (frontier v) ->
  version_visible_to e v = true.
Proof.
  unfold is_aborted, version_visible_to, in_window. destruct (state e); try done.
  intros _ Hw Hf. destruct (_ =? _); [done|]. rewrite Hw. simpl.
  apply andb_true_iff in Hw as [Hw _]. ts_lia.
Qed.

Lemma visible_window e v :
  version_visible_to e v = true -> is_pending e = false -> is_aborted e = false /\ in_window e (read_ts v) = true.
Proof. unfold version_visible_to, is_pending, is_aborted, in_window. by destruct (state e). Qed.

Lemma linked_cover next c r :
  linked next c -> ts_lt r next ->
  (exists e, In e c /\ is_aborted e = false /\ ts_le (start_ts e) r) ->
  exists e, In e c /\ is_aborted e = false /\ in_window e r = true.
Proof.
  revert next. induction c as [|x c IH]; intros next Hl Hr (e & He & Ha & Hs); [done|]. simpl in Hl.
  destruct (is_aborted x) eqn:Hx.
  - destruct He as [->|He]; [congruence|]. destruct (IH next Hl Hr) as (y & ? & ?); [by eauto|].
    exists y. split; [by right|done].
  - destruct Hl as (Hst & Hlt & Hl). destruct (ts_le_lt_dec (start_ts x) r) as [Hle|Hgt].
    + exists x. split_and!; [by left|done|]. unfold in_window. rewrite Hst. apply andb_true_iff. split; ts_lia.
    + destruct He as [->|He]; [exfalso; ts_lia|]. destruct (IH _ Hl Hgt) as (y & ? & ?); [by eauto|].
      exists y. split; [by right|done].
Qed.

Lemma linked_window_unique next c r x y :
  linked next c -> In x c -> In y c -> is_aborted x = false -> is_aborted y = false ->
  in_window x r = true -> in_window y r = true -> x = y.
Proof.
  intros Hl [i Hi]%list_elem_of_In%list_elem_of_lookup_1 [j Hj]%list_elem_of_In%list_elem_of_lookup_1 Hx Hy Hwx Hwy.
  assert (i = j) as -> by exact (linked_one_window _ c r i j x y Hl Hi Hj Hx Hy Hwx Hwy). congruence.
Qed.

Lemma lex_leb_antisym a b : lex_leb a b = true -> lex_leb b a = true -> a = b.
Proof.
  unfold lex_leb. rewrite (lex_cmp_antisym a b). destruct (lex_cmp a b) eqn:E; [|done..].
  intros _ _. by apply lex_cmp_eq.
Qed.

Lemma as_committed_tombstone e : is_tombstone (as_committed e) = is_tombstone e.
Proof. done. Qed.

Lemma readable_row_entry allocator s s' :
  readable allocator s -> readable allocator s' -> row_value s = row_value s' ->
  as_committed (sp_entry s) = as_committed (sp_entry s').
Proof.
  intros (Hs & _ & Hl) (Hs' & _ & Hl') E. unfold row_value in E.
  pose proof (decode_encode_value (sp_entry s) allocator (proj2 (proj2 (proj2 Hs))) Hl) as H1.
  rewrite E, decode_encode_value in H1; [congruence|apply Hs'|done].
Qed.

(** Two record lists that agree on a tree and key give the same answer. *)
Lemma history_answers_same allocator m recs recs' ident key r skip h h' :
  holds_rows m recs' -> Forall (readable allocator) recs' ->
  (forall s, sp_ident s = ident -> sp_key s = key -> In s recs <-> In s recs') ->
  history_answers recs ident key r skip h -> history_answers recs' ident key r skip h' -> h = h'.
Proof.
  intros Hm Hr Hiff [[-> Hn]|(s & (Hs & Hv & Hmax) & ->)] [[-> Hn']|(s' & (Hs' & Hv' & Hmax') & ->)]; [done|..].
  - exfalso. apply (Hn s'); [|done]. by apply Hiff; [apply Hv'..|].
  - exfalso. apply (Hn' s); [|done]. by apply Hiff; [apply Hv..|].
  - apply Hiff in Hs; [|apply Hv..]. apply Hiff in Hs' as Hs2; [|apply Hv'..].
    assert (row_key s = row_key s') as Ek by (apply lex_leb_antisym; auto).
    assert (row_value s = row_value s') as Ev.
    { assert (bt_get (row_key s) m = Some (row_value s)) as H1 by (apply Hm; by exists s).
      assert (bt_get (row_key s) m = Some (row_value s')) as H2 by (apply Hm; by exists s'). congruence. }
    rewrite List.Forall_forall in Hr.
    pose proof (readable_row_entry _ _ _ (Hr s Hs) (Hr s' Hs') Ev) as Ee.
    rewrite <- (as_committed_tombstone (sp_entry s)), <- (as_committed_tombstone (sp_entry s')), Ee. done.
Qed.

Lemma candidate_above c r : (forall e, In e c -> ts_lt r (start_ts e)) -> candidate_chain c r = true.
Proof.
  intros Hc. unfold candidate_chain. apply forallb_forall. intros e He. apply orb_true_iff. left.
  apply ts_ltb_spec. by apply Hc.
Qed.

Lemma filter_live_In e c : In e (List.filter live c) <-> In e c /\ is_aborted e = false.
Proof. rewrite filter_In. unfold live. by rewrite negb_true_iff. Qed.

Lemma find_app {A} (f : A -> bool) a b :
  find f (a ++ b) = match find f a with Some x => Some x | None => find f b end.
Proof. induction a as [|x a IH]; simpl; [done|]. by destruct (f x). Qed.

Lemma in_window_bounds e r : in_window e r = true -> ts_le (start_ts e) r /\ ts_lt r (stop_ts e).
Proof. unfold in_window. intros [? ?]%andb_true_iff. split; ts_lia. Qed.

Section ReadKey.
Context (ident : TreeIdent) (key : list Z) (cp ort : Ts) (c ret : chain) (sp recs recs' : list StagedHistorySpill).
Context (v : ReadView) (skip : bool).
Context (Hwf : chain_wf c)
  (Hsplit : split_entries ident key c (checkpoint_winner_index c cp) cp ort 0 c = Installable (ret, sp))
  (Hort : ts_le ort (read_ts v)) (Hmax : ts_lt (read_ts v) Ts_MAX) (Hfr : ts_le (read_ts v) (frontier v))
  (Holder : forall s e, In s recs -> sp_ident s = ident -> sp_key s = key -> In e c ->
     ts_le (stop_ts (sp_entry s)) (start_ts e))
  (Hrecs : forall s, sp_ident s = ident -> sp_key s = key -> In s recs' <-> In s recs \/ In s sp).

(** No winner: the base cell stands, only residue leaves the chain. *)
Lemma read_without_winner allocator m hb ha cell :
  holds_rows m recs' -> Forall (readable allocator) recs' ->
  checkpoint_winner_index c cp = None ->
  history_answers recs ident key (read_ts v) skip hb -> history_answers recs' ident key (read_ts v) skip ha ->
  read_answer ret ha cell v = read_answer c hb cell v.
Proof.
  intros Hm Hread Hnone Hhb Hha.
  destruct (fold_split _ _ _ _ _ _ _ Hwf Hsplit) as [(_ & -> & Hsp)|(pre & w & post & _ & E & _)]; [|congruence].
  assert (hb = ha) as ->.
  { apply (history_answers_same allocator m recs recs' ident key (read_ts v) skip); try done.
    intros s Hi Hk. rewrite Hrecs by done. rewrite Hsp. simpl. tauto. }
  unfold read_answer. rewrite find_live. destruct (find _ c); [done|].
  destruct (candidate_chain c (read_ts v)) eqn:Hc.
  - replace (candidate_chain (List.filter live c) (read_ts v)) with true; [done|]. symmetry.
    unfold candidate_chain in *. rewrite forallb_forall in Hc |- *.
    intros e [He _]%filter_live_In. by apply Hc.
  - destruct (candidate_chain (List.filter live c) (read_ts v)); [|done].
    assert (exists e, In e c /\ ts_le (start_ts e) (read_ts v)) as (e & He & Hle).
    { destruct (existsb (fun e => ts_leb (start_ts e) (read_ts v)) c) eqn:Ex.
      - apply existsb_exists in Ex as (e & He & Hle). exists e. split; [done|ts_lia].
      - exfalso. rewrite candidate_above in Hc; [done|]. intros e He.
        destruct (ts_le_lt_dec (start_ts e) (read_ts v)) as [Hle|]; [|done]. exfalso.
        apply not_true_iff_false in Ex. apply Ex, existsb_exists. exists e. split; [done|ts_lia]. }
    destruct Hha as [[-> _]|(s & (Hs & (Hi & Hk & Hw) & _) & _)]; [done|]. exfalso.
    rewrite Hrecs, Hsp in Hs by done. destruct Hs as [Hs|[]]. pose proof (Holder s e Hs Hi Hk He).
    unfold in_window in Hw. apply andb_true_iff in Hw as [_ Hw]. ts_lia.
Qed.

(** The history is silent about a snapshot at which the chain's own [x] has
    started, unless a spilled version is in force. *)
Lemma history_silent x ha :
  In x c -> ts_le (start_ts x) (read_ts v) ->
  (forall s, In s sp -> in_window (sp_entry s) (read_ts v) = false) ->
  history_answers recs' ident key (read_ts v) skip ha -> ha = None.
Proof.
  intros Hx Hle Hsp [[-> _]|(s & (Hs & (Hi & Hk & Hin) & _) & _)]; [done|]. exfalso.
  rewrite Hrecs in Hs by done. destruct Hs as [Hs|Hs].
  - pose proof (Holder s x Hs Hi Hk Hx). destruct (in_window_bounds _ _ Hin). ts_lia.
  - specialize (Hsp s Hs). congruence.
Qed.

(** A spilled version in force is what the history answers. *)
Lemma history_finds sx ha :
  In sx sp -> In (sp_entry sx) c -> in_window (sp_entry sx) (read_ts v) = true ->
  (forall s, In s sp -> in_window (sp_entry s) (read_ts v) = true -> sp_entry s = sp_entry sx) ->
  history_answers recs' ident key (read_ts v) skip ha ->
  ha = if skip && is_tombstone (sp_entry sx) then None else Some (as_committed (sp_entry sx)).
Proof.
  intros Hsx Hx Hw Huniq Hha. destruct (in_window_bounds _ _ Hw) as [Hle _].
  apply split_entries_spec in Hsplit as (_ & _ & Hids). rewrite List.Forall_forall in Hids.
  destruct (Hids sx Hsx) as (Hi & Hk & _).
  destruct Hha as [[_ Hn]|(s & (Hs & (Hi' & Hk' & Hin) & _) & ->)].
  { exfalso. apply (Hn sx); [|done]. apply Hrecs; [done..|by right]. }
  rewrite Hrecs in Hs by done. destruct Hs as [Hs|Hs]; [|by rewrite (Huniq s)].
  exfalso. pose proof (Holder s _ Hs Hi' Hk' Hx). destruct (in_window_bounds _ _ Hin). ts_lia.
Qed.

(** A winner, and a version of the chain in force at the snapshot *)
Lemma read_with_winner pre w post ha hb cell cell' :
  c = pre ++ w :: post -> is_winner_candidate cp w = true -> ret = List.filter live pre ->
  map sp_entry sp = List.filter (fun e => is_committed e && ts_ltb ort (stop_ts e)) post ->
  no_pending post ->
  (exists e, In e c /\ is_aborted e = false /\ ts_le (start_ts e) (read_ts v)) ->
  (skip = true -> forall e, In e c -> in_window e (read_ts v) = true -> is_tombstone e = false) ->
  cell_data <$> cell' = answer_of w ->
  history_answers recs' ident key (read_ts v) skip ha ->
  read_answer ret ha cell' v = read_answer c hb cell v.
Proof.
  intros Ec Hw Hret Hsp Hnp Hcov Hskip Hcell Hha.
  destruct (winner_candidate_committed _ _ Hw) as (Haw & Hpw & _). pose proof (proj1 Hwf) as Hl.
  destruct (linked_cover _ _ _ Hl Hmax Hcov) as (e0 & He0 & Ha0 & Hw0).
  pose proof (window_visible e0 v Ha0 Hw0 Hfr) as Hv0. destruct (in_window_bounds _ _ Hw0) as [_ Hr0].
  rewrite Ec in Hl, He0. destruct (linked_app _ _ _ _ Hl Haw) as (Hpost & Hws & Hpre).
  rewrite List.Forall_forall in Hpre. unfold no_pending in Hnp. rewrite List.Forall_forall in Hnp.
  assert (forall s, In s sp -> In (sp_entry s) post /\ is_aborted (sp_entry s) = false) as HspIn.
  { intros s Hs%(in_map sp_entry). rewrite Hsp in Hs. apply filter_In in Hs as [? [Hc _]%andb_true_iff].
    split; [done|]. revert Hc. unfold is_committed, is_aborted. by destruct (state (sp_entry s)). }
  assert (forall l, find (fun e => version_visible_to e v) l = None -> In e0 l -> False) as Hno.
  { intros l Hf Hin. pose proof (find_none _ _ Hf e0 Hin) as Hn. simpl in Hn. congruence. }
  unfold read_answer. rewrite Hret, find_live, Ec, find_app.
  destruct (find (fun e => version_visible_to e v) pre) as [x|] eqn:Hfp; [done|]. simpl.
  assert (ts_lt (read_ts v) (stop_ts w)) as Hrw.
  { apply in_app_or in He0 as [He0|[->|He0]]; [by destruct (Hno pre)|done|].
    destruct (linked_below _ _ _ Hpost He0 Ha0). ts_lia. }
  rewrite candidate_above by (intros e [He Hae]%filter_live_In; specialize (Hpre e He Hae); ts_lia).
  destruct (version_visible_to w v) eqn:Hvw.
  - destruct (visible_window w v Hvw Hpw) as [_ [Hww _]%in_window_bounds].
    rewrite (history_silent w ha); [done|rewrite Ec; apply in_elt|done| |done].
    intros s Hs. destruct (HspIn s Hs) as [Hp Ha]. destruct (linked_below _ _ _ Hpost Hp Ha).
    apply not_true_iff_false. intros [_ ?]%in_window_bounds. ts_lia.
  - destruct (find (fun e => version_visible_to e v) post) as [x|] eqn:Hfx.
    2: { exfalso. apply in_app_or in He0 as [He0|[->|He0]]; [eauto|congruence|eauto]. }
    apply find_some in Hfx as [Hx Hvx]. destruct (visible_window x v Hvx (Hnp x Hx)) as [Hax Hwx].
    assert (In x (map sp_entry sp)) as (sx & <- & Hsx)%in_map_iff.
    { rewrite Hsp. apply filter_In. split; [done|]. specialize (Hnp x Hx).
      apply in_window_bounds in Hwx as [_ Hwx]. apply andb_true_iff. split; [|ts_lia].
      revert Hax Hnp. unfold is_aborted, is_pending, is_committed. by destruct (state x). }
    assert (In (sp_entry sx) c) as Hxc by (rewrite Ec; apply in_or_app; right; by right).
    rewrite (history_finds sx ha); try done.
    + destruct skip; [|done]. simpl. by rewrite (Hskip eq_refl _ Hxc Hwx).
    + intros s Hs Hin. destruct (HspIn s Hs) as [Hp Ha].
      by apply (linked_window_unique _ post (read_ts v) _ _ Hpost).
Qed.

End ReadKey.

(** ** The folded base *)

Definition base_inv (m : btmap LeafCell) : Prop :=
  bt_sorted m /\ Forall (fun kc => cell_key (snd kc) = fst kc /\ cell_ok (snd kc)) m.

Lemma sorted_cells_tail c cs : sorted_cells (c :: cs) -> sorted_cells cs.
Proof. intros Hs i j x y Hij Hi Hj. apply (Hs (S i) (S j)); [lia|done..]. Qed.

Lemma sorted_cells_head_fresh c cs : sorted_cells (c :: cs) -> find_cell (cell_key c) cs = None.
Proof.
  intros Hs. apply find_cell_None. intros k d Hd E.
  pose proof (Hs 0%nat (S k) c d ltac:(lia) eq_refl Hd) as Hlt. unfold key_lt in Hlt. rewrite E in Hlt.
  by apply lex_lt_irrefl in Hlt.
Qed.

Lemma collect_from_get key cs m :
  sorted_cells cs ->
  cell_val <$> bt_get key (foldl (fun m c => bt_insert (cell_key c) c m) m cs) =
    match find_cell key cs with Some v => Some v | None => cell_val <$> bt_get key m end.
Proof.
  revert m. induction cs as [|c cs IH]; intros m Hs; simpl; [done|].
  rewrite IH by by eapply sorted_cells_tail. destruct (decide (cell_key c = key)) as [<-|Hne].
  - by rewrite sorted_cells_head_fresh, bt_get_insert_eq.
  - by rewrite bt_get_insert_ne.
Qed.

Lemma base_inv_insert key c m :
  base_inv m -> cell_key c = key -> cell_ok c -> base_inv (bt_insert key c m).
Proof.
  intros [Hs Hf] Hk Hc. split; [by apply bt_insert_sorted|]. rewrite List.Forall_forall in Hf |- *.
  intros x [->|Hx]%bt_insert_In; [done|by apply Hf].
Qed.

Lemma base_inv_remove key m : base_inv m -> base_inv (bt_remove key m).
Proof.
  intros [Hs Hf]. split; [by apply bt_filter_sorted|]. rewrite List.Forall_forall in Hf |- *.
  intros x Hx%list_elem_of_In. unfold bt_remove in Hx. apply list_elem_of_filter in Hx as [_ Hx%list_elem_of_In]. by apply Hf.
Qed.

Lemma collect_cells_inv cs : Forall cell_ok cs -> base_inv (collect_cells cs).
Proof.
  intros Hc. unfold collect_cells. assert (base_inv ([] : btmap LeafCell)) as Hm by (split; constructor).
  revert Hm. generalize ([] : btmap LeafCell) as m. induction Hc as [|c cs Hc _ IH]; intros m Hm; simpl; [done|].
  apply IH. by apply base_inv_insert.
Qed.

Lemma base_inv_cells m :
  base_inv m ->
  sorted_cells (map snd m) /\ Forall cell_ok (map snd m) /\
  forall key, find_cell key (map snd m) = cell_val <$> bt_get key m.
Proof.
  intros [Hs Hf]. split_and!.
  - intros i j c d Hij Hi Hj. rewrite !list_lookup_fmap in Hi, Hj.
    destruct (m !! i) as [[k1 c1]|] eqn:E1; [|done]. destruct (m !! j) as [[k2 c2]|] eqn:E2; [|done].
    simplify_eq/=. rewrite List.Forall_forall in Hf. unfold key_lt.
    pose proof (proj1 (Hf _ (proj1 (list_elem_of_In _ _) (list_elem_of_lookup_2 _ _ _ E1)))) as H1.
    pose proof (proj1 (Hf _ (proj1 (list_elem_of_In _ _) (list_elem_of_lookup_2 _ _ _ E2)))) as H2.
    simpl in H1, H2. rewrite H1, H2. unfold bt_sorted in Hs. rewrite <- (take_drop_middle _ _ _ E1) in Hs.
    apply strongly_sorted_after in Hs. rewrite List.Forall_forall in Hs. apply (Hs (k2, d)).
    apply list_elem_of_In, (list_elem_of_lookup_2 _ (j - S i)). rewrite lookup_drop.
    by replace (S i + (j - S i))%nat with j by lia.
  - apply List.Forall_map. eapply List.Forall_impl; [|exact Hf]. by intros ? [_ ?].
  - intros key. clear Hs. induction Hf as [|[k c] m [Hk _] _ IH]; simpl in *; [done|]. rewrite Hk.
    destruct (decide (k = key)) as [->|]; [by rewrite decide_True|]. by rewrite decide_False.
Qed.

(** A leaf image stands for its cells. *)
Lemma encoded_lookup `{Crc32c} n buf :
  node_wf n -> encode n = Ok buf ->
  parse buf = Ok (mkLeafNode (encoded_flags n) (next_leaf_page n) (prev_leaf_page n) (cells n)) /\
  (sorted_cells (cells n) -> forall key, cell_value buf key = Ok (find_cell key (cells n))).
Proof.
  intros Hwf He. destruct (Z.le_gt_cases (used_bytes n) PAGE_SIZE_LEAF) as [Hu|Hu].
  - destruct (encode_page n Hwf Hu) as (b & cs & He' & Hcs & _ & Hp & Hh). rewrite He in He'.
    injection He' as <-. by eapply parse_page.
  - rewrite encode_too_large in He by lia. done.
Qed.

(** ** Folding chain by chain *)

Definition folded_cell (c : chain) (cp : Ts) (cell cell' : option CellValue) : Prop :=
  match checkpoint_winner_index c cp with
  | None => cell' = cell
  | Some i => forall w, c !! i = Some w -> cell_data <$> cell' = answer_of w
  end.

Definition chain_data_wf (c : chain) : Prop := Forall (fun e => data_wf (data e)) c.

Lemma folded_cell_from_entry_inv key e cell :
  folded_cell_from_entry key e = Installable cell -> data_wf (data e) ->
  cell_key cell = key /\ cell_ok cell /\ cell_data (cell_val cell) = data e.
Proof.
  unfold folded_cell_from_entry, cell_ok, data_wf, is_u. destruct (data e) as [b|p n].
  - by intros [= <-].
  - destruct (Z.ltb_spec n (2 ^ 32)); [|done]. intros [= <-] [Hp Hn]. simpl. split_and!; try done; lia.
Qed.

Lemma fold_chain_inv cp ort ident key c st st' :
  fold_chain cp ort ident key c st = Installable st' -> base_inv (base_cells st) -> chain_data_wf c ->
  exists ret sp,
    split_entries ident key c (checkpoint_winner_index c cp) cp ort 0 c = Installable (ret, sp) /\
    base_inv (base_cells st') /\
    folded_cell c cp (cell_val <$> bt_get key (base_cells st)) (cell_val <$> bt_get key (base_cells st')) /\
    (forall k, k <> key -> bt_get k (base_cells st') = bt_get k (base_cells st)) /\
    retained_chains st' = match ret with [] => retained_chains st | _ => bt_insert key ret (retained_chains st) end /\
    history_spill st' = history_spill st ++ sp.
Proof.
  intros Hf Hb Hd. unfold fold_chain in Hf.
  apply synth_bind_inv in Hf as (base & Hbase & ([ret sp] & Hs & [= <-])%synth_bind_inv).
  exists ret, sp. simpl. split; [done|]. unfold folded_cell.
  assert (base_inv base /\
    match checkpoint_winner_index c cp with
    | None => cell_val <$> bt_get key base = cell_val <$> bt_get key (base_cells st)
    | Some i => forall w, c !! i = Some w -> cell_data <$> (cell_val <$> bt_get key base) = answer_of w
    end /\ (forall k, k <> key -> bt_get k base = bt_get k (base_cells st))) as (? & ? & ?); [|by destruct ret].
  clear Hs. destruct (checkpoint_winner_index c cp) as [i|]; [|by injection Hbase as <-].
  destruct (c !! i) as [w|] eqn:Hi; [|injection Hbase as <-].
  2: { split_and!; [by apply base_inv_remove|done|]. intros. by apply bt_get_remove_ne. }
  destruct (is_tombstone w) eqn:Ht.
  - injection Hbase as <-. split_and!; [by apply base_inv_remove| |intros; by apply bt_get_remove_ne].
    intros w' [= <-]. unfold answer_of. by rewrite bt_get_remove_eq, Ht.
  - apply synth_bind_inv in Hbase as (cell & Hcell & [= <-]).
    assert (data_wf (data w)) as Hdw.
    { unfold chain_data_wf in Hd. rewrite List.Forall_forall in Hd.
      by apply Hd, list_elem_of_In, list_elem_of_lookup_2 with i. }
    destruct (folded_cell_from_entry_inv _ _ _ Hcell Hdw) as (Hk & Hok & Hdat).
    split_and!; [by apply base_inv_insert; [apply base_inv_remove|..]| |].
    + intros w' [= <-]. unfold answer_of. rewrite bt_get_insert_eq, Ht. simpl. by rewrite Hdat.
    + intros k Hne. by rewrite bt_get_insert_ne, bt_get_remove_ne.
Qed.

Definition chain_of (key : list Z) (m : btmap chain) : chain := default [] (bt_get key m).

(** What folding all chains of a leaf does to one key *)
Definition key_folded cp ort ident (chains : btmap chain) (st st' : FoldState)
  (extra : list StagedHistorySpill) (key : list Z) : Prop :=
  match bt_get key chains with
  | None => bt_get key (base_cells st') = bt_get key (base_cells st) /\
      bt_get key (retained_chains st') = bt_get key (retained_chains st) /\
      forall s, In s extra -> sp_key s <> key
  | Some c => exists ret sp,
      split_entries ident key c (checkpoint_winner_index c cp) cp ort 0 c = Installable (ret, sp) /\
      folded_cell c cp (cell_val <$> bt_get key (base_cells st)) (cell_val <$> bt_get key (base_cells st')) /\
      bt_get key (retained_chains st') =
        (match ret with [] => bt_get key (retained_chains st) | _ => Some ret end) /\
      forall s, sp_key s = key -> In s extra <-> In s sp
  end.

Lemma fold_chains_inv cp ort ident chains st st' :
  fold_chains cp ort ident chains st = Installable st' -> bt_sorted chains ->
  base_inv (base_cells st) -> Forall (fun kc => chain_data_wf (snd kc)) chains ->
  exists extra, history_spill st' = history_spill st ++ extra /\ base_inv (base_cells st') /\
    Forall (fun s => sp_ident s = ident) extra /\
    forall key, key_folded cp ort ident chains st st' extra key.
Proof.
  revert st. induction chains as [|[k c] chains IH]; intros st Hf Hsort Hb Hd; simpl in Hf.
  { injection Hf as <-. exists []. rewrite app_nil_r. split_and!; [done..|constructor|]. intros key. done. }
  apply synth_bind_inv in Hf as (st1 & Hf1 & Hf). inv Hd. inv Hsort.
  destruct (fold_chain_inv _ _ _ _ _ _ _ Hf1 Hb) as (ret & sp & Hs & Hb1 & Hc & Hother & Hret & Hsp); [done|].
  destruct (IH st1 Hf) as (extra & He & Hb' & Hid & Hkey); try done.
  pose proof (split_entries_spec _ _ _ _ _ _ _ _ _ _ Hs) as (_ & _ & Hids).
  rewrite List.Forall_forall in Hids.
  assert (bt_get k chains = None) as Hfresh.
  { destruct (bt_get k chains) as [c'|] eqn:E; [|done]. apply bt_get_In in E; [|done].
    rewrite List.Forall_forall in H4. specialize (H4 _ E). by apply lex_lt_irrefl in H4. }
  exists (sp ++ extra). rewrite He, Hsp, app_assoc. split_and!; try done.
  { apply List.Forall_app. split; [|done]. apply List.Forall_forall. intros s Hin. by apply Hids. }
  intros key. specialize (Hkey key). unfold key_folded in Hkey |- *. simpl.
  destruct (decide (key = k)) as [->|Hne].
  - rewrite Hfresh in Hkey. destruct Hkey as (Hkb & Hkr & Hks). exists ret, sp. rewrite Hkb, Hkr, Hret.
    split_and!; [done..|destruct ret; [done|by rewrite bt_get_insert_eq]|].
    intros s Ek. rewrite in_app_iff. split; [|tauto]. intros [?|Hin]; [done|]. by destruct (Hks s).
  - rewrite Hother in Hkey by done.
    assert (bt_get key (retained_chains st1) = bt_get key (retained_chains st)) as Er.
    { rewrite Hret. destruct ret; [done|]. by rewrite bt_get_insert_ne. }
    destruct (bt_get key chains) as [c'|].
    + destruct Hkey as (ret' & sp' & Hs' & Hc' & Hr' & Hin'). exists ret', sp'. rewrite Er in Hr'.
      split_and!; [done..|]. intros s Ek. rewrite in_app_iff, Hin' by done. split; [|tauto].
      intros [Hin|?]; [|done]. destruct (Hids s Hin) as (_ & ? & _). congruence.
    + destruct Hkey as (? & ? & Hks). split_and!; [done|congruence|].
      intros s [Hin|Hin]%in_app_iff; [|by apply Hks]. destruct (Hids s Hin) as (_ & -> & _). done.
Qed.

(** ** The whole page *)

Definition resolve_answer (read : Z -> Z -> Result (list Z)) (a : option VersionData) : Result (option (list Z)) :=
  match a with
  | None => Ok None
  | Some d => v ← resolve_version_data read d; Ok (Some v)
  end.

Definition cell_value_ok (c : CellValue) : Prop :=
  match c with Inline _ => True | Overflow _ n => is_u32 n end.

Lemma get_mvcc_answer read buf chains key v probe h cell :
  cell_value buf key = Ok cell -> (forall cv, cell = Some cv -> cell_value_ok cv) ->
  probe key (read_ts v) = Ok h ->
  get_mvcc read buf (Some chains) key v (Some probe) =
    resolve_answer read (read_answer (chain_of key chains) h cell v).
Proof.
  intros Hcell Hok Hp. unfold get_mvcc, read_answer, visible_at, history_is_candidate, chain_of. simpl.
  assert (forall e, (if is_tombstone e then Ok None
            else x ← resolve_version_data read (data e); Ok (Some x)) = resolve_answer read (answer_of e)) as Hans.
  { intros e. unfold answer_of. by destruct (is_tombstone e). }
  assert ((c0 ← cell_value buf key;
           match c0 with Some value => x ← resolve_cell_value read value; Ok (Some x) | None => Ok None end)
          = resolve_answer read (cell_data <$> cell)) as Hbase.
  { rewrite Hcell, bind_Ok. destruct cell as [[b|p n]|]; simpl; [done| |done].
    specialize (Hok _ eq_refl). simpl in Hok. by rewrite as_u_small. }
  destruct (bt_get key chains) as [c|]; simpl.
  - destruct (find _ c); [apply Hans|]. destruct (candidate_chain c (read_ts v)); simpl; [|done].
    rewrite Hp, bind_Ok. destruct h; [apply Hans|done].
  - rewrite Hp, bind_Ok. destruct h; [apply Hans|done].
Qed.

Lemma stage_app refs txn ident key e counter txn' refs' :
  stage refs txn ident key e counter = (Ok txn', refs') -> txn' = txn ++ [mkStaged ident key e counter].
Proof.
  unfold stage. destruct (try_clone refs e) as [[e'|] r] eqn:He; [|congruence].
  apply try_clone_Some in He as ->. congruence.
Qed.

Lemma stage_history_spills_app refs txn spills txn' refs' :
  stage_history_spills refs txn spills = (Ok txn', refs') -> txn' = txn ++ spills.
Proof.
  revert refs txn. induction spills as [|s spills IH]; intros refs txn; simpl.
  - intros [= <- <-]. by rewrite app_nil_r.
  - unfold spill_primary, spill_sec_index. destruct s as [i k e n]. simpl.
    destruct (kind i) eqn:Hi;
      (destruct (stage refs txn i k e n) as [[t1| |] r] eqn:Hst; [|congruence|congruence];
       apply stage_app in Hst as ->; intros Hrest%IH; by rewrite Hrest, <- app_assoc).
Qed.

Definition skips (ident : TreeIdent) : bool :=
  match kind ident with PrimaryTree => false | SecondaryTree _ => true end.

Lemma probe_answers {T} `{KeyTreeLaws T} (t : T) allocator recs ident key r :
  tree_wf t -> holds_rows (tree_rows t) recs -> Forall (readable allocator) recs ->
  ident_wf ident -> key_wf key -> ts_wf r ->
  exists h, probe_visible_entry t allocator ident key r (skips ident) = Ok h /\
    history_answers recs ident key r (skips ident) h.
Proof.
  intros Ht Hrows Hall Hi Hk Hr. apply readable_all in Hall.
  destruct (probe_spec allocator ident key r (skips ident) Hi Hk Hr t recs Ht Hrows Hall) as [Hn Hs].
  destruct (newest_row_exists recs ident key r) as [Hnone|(s & Hnew)].
  - exists None. split; [by apply Hn|by left].
  - eexists. split; [by apply Hs|]. right. by exists s.
Qed.

Lemma find_cell_ok key cs : Forall cell_ok cs -> forall cv, find_cell key cs = Some cv -> cell_value_ok cv.
Proof.
  induction 1 as [|c cs Hc _ IH]; intros cv; simpl; [done|]. case_decide; [|by apply IH].
  intros [= <-]. unfold cell_ok, cell_value_ok in *. destruct (cell_val c); [done|tauto].
Qed.

Lemma synthesize_page_inv `{Crc32c} n base chains cp ort ident res :
  node_wf n -> sorted_cells (cells n) -> encode n = Ok base ->
  bt_sorted chains -> Forall (fun kc => chain_data_wf (snd kc)) chains ->
  synthesize_page base chains cp ort ident = Installable res ->
  (forall key cell, find_cell key (cells n) = Some cell -> cell_value_ok cell) /\
  exists st', ps_retained_chains res = retained_chains st' /\ base_inv (base_cells st') /\
    Forall (fun s => sp_ident s = ident) (ps_history_spill res) /\
    (forall key, cell_value (new_base res) key = Ok (cell_val <$> bt_get key (base_cells st'))) /\
    forall key, key_folded cp ort ident chains (mkFold (collect_cells (cells n)) [] []) st' (ps_history_spill res) key.
Proof.
  intros Hwf Hsc He Hsort Hd Hsyn. destruct (encoded_lookup n base Hwf He) as [Hparse _].
  unfold synthesize_page, decode_folded_leaf in Hsyn. rewrite Hparse, bind_Ok in Hsyn.
  simpl next_leaf_page in Hsyn. simpl prev_leaf_page in Hsyn. simpl cells in Hsyn.
  apply synth_bind_inv in Hsyn as (st' & Hf & Hsyn). destruct Hwf as (_ & Hnx & Hpv & Hcs).
  destruct (fold_chains_inv _ _ _ _ _ _ Hf Hsort) as (extra & Hex & Hb & Hid & Hkey);
    [by apply collect_cells_inv|done|]. simpl in Hex.
  destruct (base_inv_cells _ Hb) as (Hsc' & Hok' & Hfind).
  destruct (_ <? _); [done|]. destruct (_ <? _); [done|].
  destruct (encode_folded_leaf _ _) as [b| |] eqn:Henc; [|done..]. injection Hsyn as <-. simpl. split.
  - intros key. by apply find_cell_ok.
  - exists st'. rewrite Hex. split_and!; try done. intros key. rewrite <- Hfind.
    refine (proj2 (encoded_lookup _ b _ Henc) Hsc' key). by split_and!.
Qed.

Section Checkpoint.
Context `{Crc32c} {T : Type} `{KeyTreeLaws T}.
Context (read : Z -> Z -> Result (list Z)) (allocator : option refcounts).

(** The leaf image is an encoded node, its resident chains are in order. *)
Definition leaf_ok (n : LeafNode) (base : list Z) (chains : btmap chain) : Prop :=
  node_wf n /\ sorted_cells (cells n) /\ encode n = Ok base /\ bt_sorted chains /\
  Forall (fun kc => chain_wf (snd kc) /\ chain_data_wf (snd kc)) chains.

(** The history rows of this tree are older than the resident versions. *)
Definition history_ok (t : T) (recs : list StagedHistorySpill) (ident : TreeIdent) (chains : btmap chain) : Prop :=
  tree_wf t /\ holds_rows (tree_rows t) recs /\
  forall s c e, In s recs -> sp_ident s = ident -> bt_get (sp_key s) chains = Some c -> In e c ->
    ts_le (stop_ts (sp_entry s)) (start_ts e).

(** A reader the checkpoint must respect *)
Definition reader_ok (ort : Ts) (v : ReadView) : Prop :=
  ts_wf (read_ts v) /\ ts_le ort (read_ts v) /\ ts_lt (read_ts v) Ts_MAX /\ ts_le (read_ts v) (frontier v).

(** Where a winner replaces the base cell, the chain already holds a version
    in force at the snapshot. *)
Definition reader_covered (chains : btmap chain) (key : list Z) (cp : Ts) (v : ReadView) : Prop :=
  forall c, bt_get key chains = Some c -> checkpoint_winner_index c cp <> None ->
    exists e, In e c /\ is_aborted e = false /\ ts_le (start_ts e) (read_ts v).

(** In a secondary tree, the version in force is not a deletion. *)
Definition no_secondary_tombstone (ident : TreeIdent) (chains : btmap chain) (key : list Z) (v : ReadView) : Prop :=
  skips ident = true -> forall c e, bt_get key chains = Some c -> In e c ->
    in_window e (read_ts v) = true -> is_tombstone e = false.

Definition read_at (t : T) (ident : TreeIdent) (image : list Z) (chains : btmap chain) (key : list Z) (v : ReadView)
  : Result (option (list Z)) :=
  get_mvcc read image (Some chains) key v
    (Some (fun k r => probe_visible_entry t allocator ident k r (skips ident))).

Lemma fold_read_key n chains cp ort ident st' extra recs recs' v key m hb ha :
  Forall (fun kc => chain_wf (snd kc) /\ chain_data_wf (snd kc)) chains -> bt_sorted chains ->
  sorted_cells (cells n) ->
  key_folded cp ort ident chains (mkFold (collect_cells (cells n)) [] []) st' extra key ->
  recs' = recs ++ extra -> Forall (fun s => sp_ident s = ident) extra ->
  holds_rows m recs' -> Forall (readable allocator) recs' ->
  (forall s c e, In s recs -> sp_ident s = ident -> bt_get (sp_key s) chains = Some c -> In e c ->
    ts_le (stop_ts (sp_entry s)) (start_ts e)) ->
  reader_ok ort v -> reader_covered chains key cp v -> no_secondary_tombstone ident chains key v ->
  history_answers recs ident key (read_ts v) (skips ident) hb ->
  history_answers recs' ident key (read_ts v) (skips ident) ha ->
  read_answer (chain_of key (retained_chains st')) ha (cell_val <$> bt_get key (base_cells st')) v =
  read_answer (chain_of key chains) hb (find_cell key (cells n)) v.
Proof.
  intros Hall Hsort Hsc Hkey -> Hext Hm Hread Holder (_ & Hort & Hmax & Hfr) Hcov Htomb Hhb Hha.
  unfold key_folded in Hkey. unfold chain_of. cbn [base_cells retained_chains] in Hkey.
  unfold collect_cells in Hkey. rewrite collect_from_get in Hkey by done. cbn [bt_get] in Hkey.
  replace (match find_cell key (cells n) with Some v => Some v | None => cell_val <$> None end)
    with (find_cell key (cells n)) in Hkey by by destruct (find_cell key (cells n)).
  destruct (bt_get key chains) as [c|] eqn:Hc.
  - destruct Hkey as (ret & sp & Hs & Hcell & Hret & Hsp). rewrite Hret.
    replace (default [] match ret with [] => None | _ => Some ret end) with ret by by destruct ret.
    assert (chain_wf c) as Hwf.
    { rewrite List.Forall_forall in Hall. apply (Hall (key, c)). by apply bt_get_In. }
    assert (forall s, sp_ident s = ident -> sp_key s = key -> In s (recs ++ extra) <-> In s recs \/ In s sp) as Hrecs.
    { intros s _ Hk. rewrite in_app_iff, (Hsp s Hk). done. }
    assert (forall s e, In s recs -> sp_ident s = ident -> sp_key s = key -> In e c ->
              ts_le (stop_ts (sp_entry s)) (start_ts e)) as Hold.
    { intros s e Hin Hi <- He. by apply (Holder s c e). }
    unfold folded_cell in Hcell.
    destruct (fold_split _ _ _ _ _ _ _ Hwf Hs) as [(Hnone & _ & _)|(pre & w & post & Ec & Hi & Hw & Hr & Hspe & Hnp)].
    + rewrite Hnone in Hcell. rewrite Hcell. by eapply (read_without_winner ident key cp ort c ret sp recs (recs ++ extra)).
    + rewrite Hi in Hcell. eapply (read_with_winner ident key cp ort c ret sp recs (recs ++ extra)); try done.
      * apply Hcov; [done|by rewrite Hi].
      * intros Hsk e He Hin. by apply (Htomb Hsk c e).
      * apply Hcell. rewrite Ec. by apply list_lookup_middle.
  - destruct Hkey as (Hb & -> & Hno). simpl.
    assert (ha = hb) as ->.
    { symmetry. apply (history_answers_same allocator m recs (recs ++ extra) ident key (read_ts v) (skips ident)); try done.
      intros s _ Hk. rewrite in_app_iff. split; [tauto|]. intros [?|Hin]; [done|]. by destruct (Hno s). }
    f_equal. rewrite Hb, collect_from_get by done. by destruct (find_cell key (cells n)).
Qed.

(** C1: A checkpoint fold does not change what these readers see.  A leaf whose
    chains are in order ([leaf_ok]) is synthesized at checkpoint timestamp [cp]
    and horizon [ort], its spills are staged and committed to the history store
    (every row readable, older rows of the key stopped before its chain), and
    the new image with the retained chains is installed.  Then a point read by
    a reader the horizon protects ([read_ts >= ort]) returns what it returned
    before, its own pending writes included, under two conditions: where the
    key's chain is folded, it already held a version in force at the snapshot
    ([reader_covered]); and in a secondary tree that version is not a deletion
    ([no_secondary_tombstone]).  Without either the read can change:
    [fold_loses_base_version], [secondary_tombstone_resurrects]. *)
Theorem checkpoint_fold_preserves_reads n base chains cp ort ident res (t t' : T) recs refs refs' txn v key :
  leaf_ok n base chains -> history_ok t recs ident chains ->
  synthesize_page base chains cp ort ident = Installable res ->
  stage_history_spills refs [] (ps_history_spill res) = (Ok txn, refs') ->
  commit_spill_txn txn t = (Ok tt, t') ->
  Forall (readable allocator) (recs ++ txn) ->
  ident_wf ident -> key_wf key -> reader_ok ort v ->
  reader_covered chains key cp v -> no_secondary_tombstone ident chains key v ->
  read_at t' ident (new_base res) (ps_retained_chains res) key v = read_at t ident base chains key v.
Proof.
  intros (Hwf & Hsc & He & Hsort & Hall) (Ht & Hrows & Holder) Hsyn Hst Hcm Hread Hi Hk Hrd Hcov Htomb.
  apply stage_history_spills_app in Hst. simpl in Hst. subst txn.
  destruct (synthesize_page_inv n base chains cp ort ident res Hwf Hsc He Hsort)
    as (Hcells & st' & Hret & Hb & Hid & Hlook & Hkey); [|done|].
  { eapply List.Forall_impl; [|exact Hall]. by intros ? [_ ?]. }
  pose proof (proj2 (proj1 (List.Forall_app _ _ _) (readable_storable _ _ Hread))) as Hst.
  destruct (commit_spill_rows _ _ _ _ Ht Hst Hrows Hcm) as [Ht' Hrows'].
  assert (Forall (readable allocator) recs) as Hread0 by by apply List.Forall_app in Hread as [? _].
  destruct (probe_answers t allocator recs ident key (read_ts v) Ht Hrows Hread0 Hi Hk (proj1 Hrd)) as (hb & Hpb & Hhb).
  destruct (probe_answers t' allocator _ ident key (read_ts v) Ht' Hrows' Hread Hi Hk (proj1 Hrd)) as (ha & Hpa & Hha).
  destruct (encoded_lookup n base Hwf He) as [_ Hfind]. unfold read_at.
  rewrite (get_mvcc_answer read base chains key v _ hb (find_cell key (cells n))); [|by apply Hfind|by apply Hcells|done].
  rewrite (get_mvcc_answer read _ _ key v _ ha (cell_val <$> bt_get key (base_cells st'))); [|done| |done].
  - f_equal. rewrite Hret.
    by apply (fold_read_key n chains cp ort ident st' (ps_history_spill res) recs
      (recs ++ ps_history_spill res) v key (tree_rows t')).
  - intros cv Hcv. destruct (bt_get key (base_cells st')) as [cell|] eqn:Eg; [|done]. injection Hcv as <-.
    apply bt_get_In in Eg; [|apply Hb]. destruct Hb as [_ Hb]. rewrite List.Forall_forall in Hb.
    destruct (Hb _ Eg) as [_ Hok]. unfold cell_ok, cell_value_ok in *. simpl in Hok. destruct (cell_val cell); [done|tauto].
Qed.

(** ** Pruning at eviction *)

Lemma prune_keep_visible ort v c e :
  chain_wf c -> In e c -> ts_le ort (read_ts v) -> version_visible_to e v = true -> prune_keep ort e = true.
Proof.
  intros Hwf He Hort Hv. unfold prune_keep. assert (is_aborted e = false) as Ha.
  { destruct (is_aborted e) eqn:Ha; [|done]. by rewrite aborted_invisible in Hv. }
  rewrite Ha. simpl. apply orb_true_iff. destruct (is_pending e) eqn:Hp.
  - left. apply bool_decide_eq_true.
    destruct (chain_wf_split c Hwf) as [Hall|(a & h & b & -> & Hab & _ & Hs & _ & _ & Hnp)].
    + rewrite List.Forall_forall in Hall. specialize (Hall e He). congruence.
    + apply in_app_or in He as [He|[->|He]]; [|done|].
      * rewrite List.Forall_forall in Hab. specialize (Hab e He). congruence.
      * unfold no_pending in Hnp. rewrite List.Forall_forall in Hnp. specialize (Hnp e He). congruence.
  - right. destruct (visible_window e v Hv Hp) as [_ [_ Hw]%in_window_bounds]. ts_lia.
Qed.

Lemma find_filter {A} (f keep : A -> bool) l :
  (forall x, In x l -> f x = true -> keep x = true) -> find f (List.filter keep l) = find f l.
Proof.
  induction l as [|x l IH]; intros Hk; simpl; [done|]. destruct (keep x) eqn:E; simpl.
  - destruct (f x); [done|]. apply IH. intros y Hy. apply Hk. by right.
  - destruct (f x) eqn:Ef; [|apply IH; intros y Hy; apply Hk; by right].
    specialize (Hk x (or_introl eq_refl) Ef). congruence.
Qed.

Lemma chain_of_reconciled ort deltas key :
  bt_sorted deltas -> chain_of key (fst (fst (reconcile_frame_at ort deltas))) = prune_chain ort (chain_of key deltas).
Proof.
  unfold chain_of. induction 1 as [|[k c] deltas Hs IH Hf]; simpl; [done|].
  destruct (reconcile_frame_at ort deltas) as [[rest d] p]. simpl in IH.
  assert (key = k -> bt_get key deltas = None) as Hfresh.
  { intros ->. destruct (bt_get k deltas) as [c'|] eqn:E; [|done]. apply bt_get_In in E; [|done].
    rewrite List.Forall_forall in Hf. specialize (Hf _ E). by apply lex_lt_irrefl in Hf. }
  destruct (prune_chain ort c) as [|e t] eqn:Ep; simpl; case_decide; subst; simpl; try done.
  rewrite Hfresh in IH by done. simpl in IH. by rewrite IH, Ep.
Qed.

(** An invisible entry that pruning drops and that has started is residue:
    for a live one, the version in force would be visible. *)
Lemma prune_read_answer ort c recs ident key h cell v :
  chain_wf c -> reader_ok ort v ->
  (forall s e, In s recs -> sp_ident s = ident -> sp_key s = key -> In e c ->
    ts_le (stop_ts (sp_entry s)) (start_ts e)) ->
  history_answers recs ident key (read_ts v) (skips ident) h ->
  read_answer (prune_chain ort c) h cell v = read_answer c h cell v.
Proof.
  intros Hwf (_ & Hort & Hmax & Hfr) Holder Hh. unfold read_answer, prune_chain.
  rewrite find_filter by (intros e He; by apply (prune_keep_visible ort v c)).
  destruct (find (fun e => version_visible_to e v) c) as [x|] eqn:Hf; [done|].
  destruct (candidate_chain c (read_ts v)) eqn:Hc.
  - replace (candidate_chain (List.filter (prune_keep ort) c) (read_ts v)) with true; [done|]. symmetry.
    unfold candidate_chain in *. rewrite forallb_forall in Hc |- *. intros e [He _]%filter_In. by apply Hc.
  - destruct (candidate_chain (List.filter (prune_keep ort) c) (read_ts v)); [|done].
    destruct Hh as [[-> _]|(s & (Hs & (Hi & Hk & Hw) & _) & _)]; [done|]. exfalso.
    rewrite candidate_above in Hc; [done|]. intros e He.
    destruct (ts_le_lt_dec (start_ts e) (read_ts v)) as [Hle|]; [|done]. exfalso.
    pose proof (Holder s e Hs Hi Hk He). destruct (in_window_bounds _ _ Hw). ts_lia.
Qed.

(** C20: Pruning the resident chains of a frame at horizon [ort] (what eviction
    does under memory pressure) changes no point read of a reader the horizon
    protects: superseded versions it drops are in force for none of them, and
    a key whose chain disappears is still answered from the history store or
    the base image as before. *)
Theorem eviction_prune_preserves_reads n base deltas ort ident (t : T) recs v key :
  leaf_ok n base deltas -> history_ok t recs ident deltas -> Forall (readable allocator) recs ->
  ident_wf ident -> key_wf key -> reader_ok ort v ->
  read_at t ident base (fst (fst (reconcile_frame_at ort deltas))) key v = read_at t ident base deltas key v.
Proof.
  intros (Hwf & Hsc & He & Hsort & Hall) (Ht & Hrows & Holder) Hread Hi Hk Hrd.
  destruct (probe_answers t allocator recs ident key (read_ts v) Ht Hrows Hread Hi Hk (proj1 Hrd)) as (h & Hp & Hh).
  destruct (encoded_lookup n base Hwf He) as [_ Hfind]. specialize (Hfind Hsc key).
  assert (forall cv, find_cell key (cells n) = Some cv -> cell_value_ok cv) as Hok.
  { destruct Hwf as (_ & _ & _ & Hcs). by apply find_cell_ok. }
  unfold read_at. rewrite !(get_mvcc_answer read base _ key v _ h (find_cell key (cells n))) by done.
  f_equal. rewrite chain_of_reconciled by done. unfold chain_of.
  destruct (bt_get key deltas) as [c|] eqn:Ec; [|done]. simpl.
  apply (prune_read_answer ort c recs ident key); try done.
  - rewrite List.Forall_forall in Hall. apply (Hall (key, c)). by apply bt_get_In.
  - intros s e Hs Hids <- He'. by apply (Holder s c e).
Qed.

End Checkpoint.
