(* ===== verification/FoldCases.v ===== *)
(** * Checkpoint folds on concrete leaves

    One key of a primary tree with three versions, at work in the theorems of
    [Fold]; and two leaves on which a fold changes what a protected reader
    sees, where the side conditions of [checkpoint_fold_preserves_reads]
    fail. *)

From S2P Require Import Prelude Bytes Timestamp BTreeMap Crc Page LeafNode Version OverflowRefs Chain.
From S2P Require Import HistoryCodec KeyTree HistoryStore Synth Fold.
From Stdlib Require Import Sorted.

#[local] Open Scope Z_scope.

#[local] Existing Instance Bitwise.crc32c_bitwise.

Definition no_overflow (p n : Z) : Result (list Z) := Err (Internal "no overflow chains").

Definition entry (start : Z) (stop : Ts) (v : list Z) (tomb : bool) : VersionEntry :=
  mkEntry (at_ts start) stop start Committed (VInline v) tomb.

Definition view (r : Z) : ReadView := mkView (at_ts r) 99 (at_ts r).

Definition image_of (n : LeafNode) : list Z := match encode n with Ok b => b | _ => [] end.

Definition folded (n : LeafNode) (chains : btmap chain) (cp ort : Z) (ident : TreeIdent) : PageSynthesisResult :=
  match synthesize_page (image_of n) chains (at_ts cp) (at_ts ort) ident with
  | Installable res => res
  | Refused _ => mkSynth [] [] []
  end.

Definition installable (n : LeafNode) (chains : btmap chain) (cp ort : Z) (ident : TreeIdent) : bool :=
  match synthesize_page (image_of n) chains (at_ts cp) (at_ts ort) ident with
  | Installable _ => true
  | Refused _ => false
  end.

Lemma folded_ok n chains cp ort ident :
  installable n chains cp ort ident = true ->
  synthesize_page (image_of n) chains (at_ts cp) (at_ts ort) ident = Installable (folded n chains cp ort ident).
Proof. unfold installable, folded. by destruct (synthesize_page _ _ _ _ _). Qed.

Definition store_after (spills : list StagedHistorySpill) : btmap (list Z) :=
  snd (commit_spill_txn spills ([] : btmap (list Z))).

Definition read_before (ident : TreeIdent) n chains key r : Result (option (list Z)) :=
  read_at no_overflow None ([] : btmap (list Z)) ident (image_of n) chains key (view r).

Definition read_after (ident : TreeIdent) n chains cp ort key r : Result (option (list Z)) :=
  let res := folded n chains cp ort ident in
  read_at no_overflow None (store_after (ps_history_spill res)) ident
    (new_base res) (ps_retained_chains res) key (view r).

Definition primary : TreeIdent := mkIdent 4 PrimaryTree.
Definition secondary : TreeIdent := mkIdent 4 (SecondaryTree 6).

(** *** A leaf with one base cell and a chain of three versions *)

Definition leaf_a : LeafNode := mkLeafNode 0 0 0 [mkLeafCell [1] (Inline [10]); mkLeafCell [2] (Inline [11])].
Definition chains_a : btmap chain :=
  [([1], [entry 50 Ts_MAX [13] false; entry 30 (at_ts 50) [12] false; entry 20 (at_ts 30) [11] false])].

Lemma single_chain_wf (k : list Z) (c : chain) :
  chain_wf c -> Forall (fun e => data_wf (data e)) c ->
  Forall (fun kc : list Z * chain => chain_wf (snd kc) /\ chain_data_wf (snd kc)) [(k, c)].
Proof. intros. constructor; [done|constructor]. Qed.

Lemma image_of_ok n : node_wf n -> used_bytes n <= PAGE_SIZE_LEAF -> encode n = Ok (image_of n).
Proof.
  intros Hwf Hu. destruct (encode_page n Hwf Hu) as (b & cs & He & _). unfold image_of. by rewrite He.
Qed.

Lemma leaf_ok_of n (chains : btmap chain) :
  node_wf n -> used_bytes n <= PAGE_SIZE_LEAF -> sorted_cells (cells n) -> bt_sorted chains ->
  Forall (fun kc => chain_wf (snd kc) /\ chain_data_wf (snd kc)) chains -> leaf_ok n (image_of n) chains.
Proof. intros. pose proof (image_of_ok n). unfold leaf_ok. tauto. Qed.

Lemma leaf_a_with (chains : btmap chain) :
  bt_sorted chains -> Forall (fun kc => chain_wf (snd kc) /\ chain_data_wf (snd kc)) chains ->
  leaf_ok leaf_a (image_of leaf_a) chains.
Proof.
  apply leaf_ok_of.
  - by repeat constructor.
  - by vm_compute.
  - intros [|[|i]] [|[|j]] c d Hij Hi Hj; simplify_eq/=; try lia. done.
Qed.

Lemma leaf_a_ok : leaf_ok leaf_a (image_of leaf_a) chains_a.
Proof.
  apply leaf_a_with; [by repeat constructor|].
  apply single_chain_wf; [|by repeat constructor]. split; [by vm_compute|by repeat constructor].
Qed.

Lemma empty_history_ok ident chains : history_ok ([] : btmap (list Z)) [] ident chains.
Proof.
  split_and!; [constructor| |by intros ? ? ? []]. intros k v. split; [done|by intros (? & [] & _)].
Qed.

Lemma view_ok ort r : is_u64 r -> r < u64_max -> ort <= r -> reader_ok (at_ts ort) (view r).
Proof.
  intros Hu Hm Ho. unfold reader_ok, ts_wf, at_ts, view. simpl. split_and!; [done|by unfold is_u; lia| | |]; ts_lia.
Qed.

Definition res_a : PageSynthesisResult := folded leaf_a chains_a 40 25 primary.

Lemma synth_a : synthesize_page (image_of leaf_a) chains_a (at_ts 40) (at_ts 25) primary = Installable res_a.
Proof. apply folded_ok. by vm_compute. Qed.

Lemma spills_a : ps_history_spill res_a = [mkStaged primary [1] (entry 20 (at_ts 30) [11] false) 0].
Proof. by vm_compute. Qed.

Lemma checkpoint_fold_preserves_reads_witness :
  read_at no_overflow None (store_after (ps_history_spill res_a)) primary (new_base res_a)
    (ps_retained_chains res_a) [1] (view 25) =
  read_at no_overflow None ([] : btmap (list Z)) primary (image_of leaf_a) chains_a [1] (view 25).
Proof.
  apply (checkpoint_fold_preserves_reads no_overflow None leaf_a (image_of leaf_a) chains_a
    (at_ts 40) (at_ts 25) primary res_a ([] : btmap (list Z)) (store_after (ps_history_spill res_a)) []
    (fun _ => None) (fun _ => None) (ps_history_spill res_a) (view 25) [1]).
  - apply leaf_a_ok.
  - apply empty_history_ok.
  - apply synth_a.
  - by rewrite spills_a.
  - rewrite spills_a. by vm_compute.
  - rewrite spills_a. repeat constructor; by vm_compute.
  - by vm_compute.
  - by vm_compute.
  - by apply view_ok.
  - intros c [= <-] _. exists (entry 20 (at_ts 30) [11] false). split_and!; [right; right; by left|done|done].
  - done.
Defined.

Lemma eviction_prune_preserves_reads_witness :
  read_at no_overflow None ([] : btmap (list Z)) primary (image_of leaf_a)
    (fst (fst (reconcile_frame_at (at_ts 35) chains_a))) [1] (view 40) =
  read_at no_overflow None ([] : btmap (list Z)) primary (image_of leaf_a) chains_a [1] (view 40).
Proof.
  apply (eviction_prune_preserves_reads no_overflow None leaf_a (image_of leaf_a) chains_a (at_ts 35) primary
    ([] : btmap (list Z)) [] (view 40) [1]).
  - apply leaf_a_ok.
  - apply empty_history_ok.
  - constructor.
  - by vm_compute.
  - by vm_compute.
  - by apply view_ok.
Defined.

(** *** The base version a winner replaces

    The cell of key [1] was folded at an earlier checkpoint; an update
    committed at 30 while a reader at 20 is registered. *)
Definition chains_b : btmap chain := [([1], [entry 30 Ts_MAX [20] false])].

Lemma leaf_b_ok : leaf_ok leaf_a (image_of leaf_a) chains_b.
Proof.
  apply leaf_a_with; [by repeat constructor|].
  apply single_chain_wf; [|by repeat constructor]. split; [by vm_compute|by repeat constructor].
Qed.

(** A fold loses the version a chain's first write superseded.  The base
    cell is overwritten by the winner and spilled nowhere, so a reader at 20
    that the horizon protects ([ort = 20]) reads the old document before the
    checkpoint and the one committed at 30 after it: its snapshot changes. *)
Theorem fold_loses_base_version :
  leaf_ok leaf_a (image_of leaf_a) chains_b /\ reader_ok (at_ts 20) (view 20) /\
  ps_history_spill (folded leaf_a chains_b 40 20 primary) = [] /\
  read_before primary leaf_a chains_b [1] 20 = Ok (Some [10]) /\
  read_after primary leaf_a chains_b 40 20 [1] 20 = Ok (Some [20]).
Proof.
  split; [apply leaf_b_ok|]. split; [by apply view_ok|]. split_and!; by vm_compute.
Qed.

(** *** A deletion in a secondary index

    The index entry was inserted at 10, deleted at 20 and inserted again at
    30; a reader at 25 is registered. *)
Definition chains_c : btmap chain :=
  [([1], [entry 30 Ts_MAX [3] false; entry 20 (at_ts 30) [] true; entry 10 (at_ts 20) [2] false])].
Definition leaf_c : LeafNode := mkLeafNode 0 0 0 [].

Lemma leaf_c_ok : leaf_ok leaf_c (image_of leaf_c) chains_c.
Proof.
  apply leaf_ok_of.
  - by repeat constructor.
  - by vm_compute.
  - by intros i j c d Hij Hi Hj.
  - by repeat constructor.
  - apply single_chain_wf; [|by repeat constructor]. split; [by vm_compute|by repeat constructor].
Qed.

(** A secondary-index deletion that reached the history store no longer
    hides the key.  The probe answers nothing for a tombstone and the read
    falls through to the base cell, so after the fold a protected reader at 25
    sees the entry that is only inserted at 30. *)
Theorem secondary_tombstone_resurrects :
  leaf_ok leaf_c (image_of leaf_c) chains_c /\ reader_ok (at_ts 25) (view 25) /\
  reader_covered chains_c [1] (at_ts 40) (view 25) /\
  read_before secondary leaf_c chains_c [1] 25 = Ok None /\
  read_after secondary leaf_c chains_c 40 25 [1] 25 = Ok (Some [3]).
Proof.
  split; [apply leaf_c_ok|]. split; [by apply view_ok|]. split; [|split; by vm_compute].
  intros c [= <-] _. exists (entry 20 (at_ts 30) [] true). split_and!; [right; by left|done|done].
Qed.
