(* ===== verification/PublishSequencer.v ===== *)
(** * The publish sequencer ([storage/paged_engine/publish_sequencer.rs])

    Every method is one critical section of the sequencer mutex (a waiting
    [mark_ready] is a first section and one section per wake-up), so a
    concurrent execution is a sequence of steps.  A publish closure is its
    outcome; on success it stores the new epoch.  [published] and [skipped] are
    ghost logs of the slots the window has passed. *)

From S2P Require Import Prelude Bytes Timestamp BTreeMap.
From Stdlib Require Import Sorted.

#[local] Open Scope Z_scope.

Inductive PublishSlotState : Set :=
| SlotPending
| SlotReady (outcome : option Error)
| SlotAborted.

Record PublishSlot : Set := mkSlot { slot_commit_ts : Ts; slot_state : PublishSlotState }.

(** [PublishSeqInner] and [published_frontier], with the epoch the closures
    store, the oracle's clock and the ghost logs *)
Record Sequencer : Set := mkSeq {
  next_seq : Z;
  last_published : Z;
  pending : list (Z * PublishSlot);
  poisoned : option EngineFatalReason;
  published_frontier : Ts;
  epoch : Ts;
  clock : TimestampOracle.HlcState;
  published : list (Z * Ts);
  skipped : list Z }.

Definition set_state (k : Z) (x : PublishSlotState) (m : list (Z * PublishSlot)) : list (Z * PublishSlot) :=
  zm_update k (fun s => mkSlot (slot_commit_ts s) x) m.

Definition new_inner (initial_frontier : Ts) (next : Z) (oracle : TimestampOracle.HlcState) : Sequencer :=
  mkSeq next (saturating_sub next 1) [] None initial_frontier initial_frontier oracle [] [].

Definition new_with_recovery_state := new_inner.
Definition new_with_published_frontier (frontier : Ts) := new_inner frontier 1.

Definition with_pending (p : list (Z * PublishSlot)) (st : Sequencer) : Sequencer :=
  mkSeq (next_seq st) (last_published st) p (poisoned st) (published_frontier st) (epoch st) (clock st)
    (published st) (skipped st).

Definition set_clock (c : TimestampOracle.HlcState) (st : Sequencer) : Sequencer :=
  mkSeq (next_seq st) (last_published st) (pending st) (poisoned st) (published_frontier st) (epoch st) c
    (published st) (skipped st).

(** [g.next_seq = next; g.pending.insert(seq, slot)] *)
Definition push_slot (next seq : Z) (slot : PublishSlot) (st : Sequencer) : Sequencer :=
  mkSeq next (last_published st) (zm_insert seq slot (pending st)) (poisoned st) (published_frontier st)
    (epoch st) (clock st) (published st) (skipped st).

(** Passing a slot: a ready one is published (the closure stores the epoch,
    then the frontier is stored), an aborted one is skipped. *)
Definition publish_slot (k : Z) (t : Ts) (st : Sequencer) : Sequencer :=
  mkSeq (next_seq st) k (pending st) (poisoned st) t t (clock st) (published st ++ [(k, t)]) (skipped st).

Definition skip_slot (k : Z) (st : Sequencer) : Sequencer :=
  mkSeq (next_seq st) k (pending st) (poisoned st) (published_frontier st) (epoch st) (clock st)
    (published st) (skipped st ++ [k]).

(** The loop of [advance_window_locked] over the slots [p] not yet taken *)
Fixpoint advance_loop (p : list (Z * PublishSlot)) (st : Sequencer) : Result unit * Sequencer :=
  match p with
  | [] => (Ok tt, with_pending [] st)
  | (first_key, slot) :: rest =>
      let next := saturating_add 64 (last_published st) 1 in
      if negb (first_key =? next) then (Ok tt, with_pending p st)
      else
        match slot_state slot with
        | SlotPending => (Ok tt, with_pending p st)
        | SlotReady outcome =>
            match outcome with
            | Some err => (Err err, with_pending rest st)
            | None => advance_loop rest (publish_slot next (slot_commit_ts slot) st)
            end
        | SlotAborted => advance_loop rest (skip_slot next st)
        end
  end.

Definition advance_window_locked (st : Sequencer) : Result unit * Sequencer :=
  match poisoned st with
  | Some reason => (Err (EngineFatal reason), st)
  | None => advance_loop (pending st) st
  end.

(** [register_with_oracle] at wall-clock reading [wall]; the guard is the
    sequence number and the commit timestamp *)
Definition register_with_oracle (wall : Z) (st : Sequencer) : Result (Z * Ts) * Sequencer :=
  match poisoned st with
  | Some reason => (Err (EngineFatal reason), st)
  | None =>
      let (r, clock') := TimestampOracle.commit wall (clock st) in
      let st := set_clock clock' st in
      match r with
      | Ok commit_ts =>
          let seq := next_seq st in
          match checked_add 64 seq 1 with
          | None => (Err (Internal "publish_sequencer next_seq overflowed u64"), st)
          | Some next => (Ok (seq, commit_ts), push_slot next seq (mkSlot commit_ts SlotPending) st)
          end
      | Err e => (Err e, st)
      | Panic => (Panic, st)
      end
  end.

(** The end of a section of [mark_ready]: [Ok true] returns to the caller,
    [Ok false] waits on the condition variable *)
Definition ready_or_wait (target : Z) (r : Result unit * Sequencer) : Result bool * Sequencer :=
  match r with
  | (Ok _, st) => (Ok (negb (last_published st <? target)), st)
  | (Err e, st) => (Err e, st)
  | (Panic, st) => (Panic, st)
  end.

Definition mark_ready (target : Z) (outcome : option Error) (st : Sequencer) : Result bool * Sequencer :=
  match poisoned st with
  | Some reason => (Err (EngineFatal reason), st)
  | None =>
      match zm_get target (pending st) with
      | None => (Err (Internal "publish slot missing on mark_ready"), snd (advance_window_locked st))
      | Some _ =>
          ready_or_wait target
            (advance_window_locked (with_pending (set_state target (SlotReady outcome) (pending st)) st))
      end
  end.

(** A waiter that was woken *)
Definition mark_ready_woken (target : Z) (st : Sequencer) : Result bool * Sequencer :=
  ready_or_wait target (advance_window_locked st).

(** [mark_aborted] and, from the guard's [Drop], [mark_aborted_from_drop] *)
Definition mark_aborted (seq : Z) (st : Sequencer) : Sequencer :=
  match poisoned st with
  | Some _ => st
  | None => snd (advance_window_locked (with_pending (set_state seq SlotAborted (pending st)) st))
  end.

Definition poison (reason : EngineFatalReason) (st : Sequencer) : Sequencer :=
  match poisoned st with
  | Some _ => st
  | None => mkSeq (next_seq st) (last_published st) (pending st) (Some reason) (published_frontier st)
              (epoch st) (clock st) (published st) (skipped st)
  end.

(** ** Executions *)

(** Guards are used once: only a pending slot is made ready or aborted (a
    guard dropped unused aborts it). *)
Inductive seq_step : Sequencer -> Sequencer -> Prop :=
| step_clock st c :
    ts_le (clock st) c -> seq_step st (set_clock c st)
| step_register st wall : seq_step st (snd (register_with_oracle wall st))
| step_ready st target t outcome :
    zm_get target (pending st) = Some (mkSlot t SlotPending) ->
    seq_step st (snd (mark_ready target outcome st))
| step_woken st target : seq_step st (snd (mark_ready_woken target st))
| step_abort st seq t :
    zm_get seq (pending st) = Some (mkSlot t SlotPending) ->
    seq_step st (mark_aborted seq st)
| step_poison st reason : seq_step st (poison reason st).

(** A whole call of [mark_ready]: a first section, then, while it has to wait,
    sections of other calls and its own sections when it is woken, until one
    of its sections returns *)
Inductive waiting (target : Z) (outcome : option Error) : Sequencer -> Sequencer -> Prop :=
| waiting_first st st' :
    mark_ready target outcome st = (Ok false, st') -> waiting target outcome st st'
| waiting_step st s s' :
    waiting target outcome st s -> seq_step s s' -> waiting target outcome st s'.

Inductive mark_ready_returns (target : Z) (outcome : option Error) (st : Sequencer)
  : Result bool -> Sequencer -> Prop :=
| returns_first r st' :
    mark_ready target outcome st = (r, st') -> r <> Ok false -> mark_ready_returns target outcome st r st'
| returns_woken s r st' :
    waiting target outcome st s -> mark_ready_woken target s = (r, st') -> r <> Ok false ->
    mark_ready_returns target outcome st r st'.

Definition initial (start : Z) (frontier : Ts) (oracle : TimestampOracle.HlcState) (st : Sequencer) : Prop :=
  1 <= start <= u64_max /\ ts_le frontier oracle /\ st = new_with_recovery_state frontier start oracle.

Abbreviation slot_ts e := (slot_commit_ts (snd e)).

Definition log_lt (a b : Z * Ts) : Prop := fst a < fst b /\ ts_lt (snd a) (snd b).

(** The window with the slots [p] still to pass, the first of them [base] *)
Record window (start base : Z) (p : list (Z * PublishSlot)) (st : Sequencer) : Prop := {
  w_bounds : start <= last_published st + 1 <= base /\ base <= next_seq st <= u64_max /\ 0 <= last_published st;
  w_dense : map fst p = seqZ base (next_seq st - base);
  w_sorted : StronglySorted (fun a b => ts_lt (slot_ts a) (slot_ts b)) p;
  w_above : Forall (fun e => ts_lt (published_frontier st) (slot_ts e) /\ ts_le (slot_ts e) (clock st)) p;
  w_clock : ts_le (published_frontier st) (clock st);
  w_epoch : epoch st = published_frontier st;
  w_log : StronglySorted log_lt (published st);
  w_log_below : Forall (fun e => fst e <= last_published st /\ ts_le (snd e) (published_frontier st)) (published st);
  w_passed : forall k, start <= k <= last_published st <-> In k (map fst (published st)) \/ In k (skipped st) }.

Definition head_pending (p : list (Z * PublishSlot)) : Prop :=
  match p with [] => True | (_, s) :: _ => slot_state s = SlotPending end.

(** [base] is the next slot, or the one after it when a closure has failed *)
Definition inv (start : Z) (st : Sequencer) : Prop :=
  (window start (last_published st + 1) (pending st) st /\ head_pending (pending st)) \/
  window start (last_published st + 2) (pending st) st.

Lemma strongly_sorted_snoc {A} (R : A -> A -> Prop) l x :
  StronglySorted R l -> Forall (fun y => R y x) l -> StronglySorted R (l ++ [x]).
Proof.
  induction 1 as [|y l Hs IH Hy]; simpl; intros Hx; [by repeat constructor|]. inv Hx.
  constructor; [by apply IH|]. apply List.Forall_app. split; [done|by constructor].
Qed.

Lemma window_skip start base k s rest st :
  window start base ((k, s) :: rest) st -> base = last_published st + 1 ->
  k = last_published st + 1 /\ saturating_add 64 (last_published st) 1 = last_published st + 1 /\
  window start (last_published st + 2) rest st.
Proof.
  intros [Hb Hd Hs Ha Hc He Hl Hlb Hp] ->. simpl in Hd.
  assert (0 < next_seq st - (last_published st + 1)) as Hn.
  { destruct (Z.lt_ge_cases 0 (next_seq st - (last_published st + 1))); [done|].
    rewrite seqZ_nil in Hd by lia. done. }
  rewrite seqZ_cons in Hd by lia. injection Hd as -> Hd. split_and!.
  - done.
  - unfold saturating_add. unfold u64_max in Hb. lia.
  - inv Hs. inv Ha. constructor; try done; [lia|]. rewrite Hd. f_equal; lia.
Qed.

Lemma passed_next (start last k : Z) (P : Prop) :
  start <= last + 1 -> (start <= k <= last <-> P) -> (start <= k <= last + 1 <-> P \/ k = last + 1).
Proof.
  intros Hs Hp. split.
  - intros Hk. destruct (Z.eq_dec k (last + 1)); [by right|]. left. apply Hp. lia.
  - intros [H%Hp| ->]; lia.
Qed.

(** Passing the first slot *)
Lemma window_publish start k s rest st :
  window start (last_published st + 1) ((k, s) :: rest) st ->
  window start (k + 1) rest (publish_slot k (slot_commit_ts s) st).
Proof.
  intros Hw. destruct (window_skip _ _ _ _ _ _ Hw eq_refl) as (-> & _ & Hr).
  destruct Hw as [Hb _ Hs Ha Hc He Hl Hlb Hp]. destruct Hr as [Hb' Hd' Hs' Ha' _ _ _ _ _].
  inv Hs. inv Ha. simpl in *. destruct H3 as [Hf Hck]. constructor; simpl; try done; try lia.
  - by replace (last_published st + 1 + 1) with (last_published st + 2) by lia.
  - apply List.Forall_forall. intros e He'. rewrite List.Forall_forall in H2, H4. split; [by apply H2|by apply H4].
  - apply strongly_sorted_snoc; [done|]. eapply List.Forall_impl; [|exact Hlb].
    intros a [? ?]. split; simpl; [lia|ts_lia].
  - apply List.Forall_app. split; [|by repeat constructor; simpl; [lia|ts_lia]].
    eapply List.Forall_impl; [|exact Hlb]. intros a [? ?]. split; [lia|ts_lia].
  - intros k. rewrite map_app, in_app_iff. simpl. rewrite (passed_next start (last_published st) k _ ltac:(lia) (Hp k)).
    intuition congruence.
Qed.

Lemma window_skipped start k s rest st :
  window start (last_published st + 1) ((k, s) :: rest) st ->
  window start (k + 1) rest (skip_slot k st).
Proof.
  intros Hw. destruct (window_skip _ _ _ _ _ _ Hw eq_refl) as (-> & _ & Hr).
  destruct Hw as [Hb _ Hs Ha Hc He Hl Hlb Hp]. destruct Hr as [Hb' Hd' Hs' Ha' _ _ _ _ _].
  constructor; simpl; try done; try lia.
  - by replace (last_published st + 1 + 1) with (last_published st + 2) by lia.
  - eapply List.Forall_impl; [|exact Hlb]. intros a [? ?]. split; [lia|done].
  - intros k. rewrite in_app_iff. simpl. rewrite (passed_next start (last_published st) k _ ltac:(lia) (Hp k)).
    intuition congruence.
Qed.

Lemma window_key_above start base p st k s : window start base p st -> In (k, s) p -> base <= k < next_seq st.
Proof.
  intros [_ Hd _ _ _ _ _ _ _] Hin. apply (in_map fst) in Hin. rewrite Hd in Hin.
  apply list_elem_of_In, elem_of_seqZ in Hin. simpl in Hin. lia.
Qed.

(** What one run of the loop does *)
Lemma advance_loop_inv start p st r st' :
  window start (last_published st + 1) p st -> advance_loop p st = (r, st') ->
  inv start st' /\ next_seq st' = next_seq st /\ clock st' = clock st /\ poisoned st' = poisoned st /\
  (exists more, published st' = published st ++ more) /\
  (forall k t, In (k, mkSlot t (SlotReady None)) p -> k <= last_published st' -> In (k, t) (published st')).
Proof.
  revert st. induction p as [|[k s] rest IH]; intros st Hw; simpl.
  { intros [= <- <-]. destruct Hw. split_and!; try done; [left; split; [by constructor|done]|exists []; by rewrite app_nil_r]. }
  destruct (window_skip _ _ _ _ _ _ Hw eq_refl) as (-> & -> & Hrest). rewrite Z.eqb_refl. simpl.
  destruct (slot_state s) as [|[err|]|] eqn:Es.
  - intros [= <- <-]. split_and!; try done; [|exists []; by rewrite app_nil_r|].
    + left. split; [by destruct Hw; constructor|done].
    + simpl. intros k' t [[= <- ->]|Hin] Hle; [lia|]. pose proof (window_key_above _ _ _ _ _ _ Hrest Hin). lia.
  - intros [= <- <-]. split_and!; try done; [right; destruct Hrest; by constructor|exists []; by rewrite app_nil_r|].
    simpl. intros k' t [[= <- ->]|Hin] Hle; [lia|]. pose proof (window_key_above _ _ _ _ _ _ Hrest Hin). lia.
  - intros Ha. destruct (IH (publish_slot _ _ st) (window_publish _ _ _ _ _ Hw) Ha) as (Hi & ? & ? & ? & (more & Hm) & Hlog). simpl in *.
    split_and!; try done; [eexists; by rewrite Hm, <- app_assoc|].
    intros k' t [[= <- ->]|Hin] Hle; [|by apply Hlog]. rewrite Hm. apply in_or_app. left.
    apply in_or_app. right. left. done.
  - intros Ha. destruct (IH (skip_slot _ st) (window_skipped _ _ _ _ _ Hw) Ha) as (Hi & ? & ? & ? & (more & Hm) & Hlog). simpl in *.
    split_and!; try done; [by eexists|]. intros k' t [[= <- ->]|Hin] Hle; [done|by apply Hlog].
Qed.

(** The same for a whole section, whether or not the window is stuck *)
Lemma advance_inv start base st r st' :
  window start base (pending st) st -> base = last_published st + 1 \/ base = last_published st + 2 ->
  advance_window_locked st = (r, st') ->
  inv start st' /\ next_seq st' = next_seq st /\ clock st' = clock st /\ poisoned st' = poisoned st /\
  (exists more, published st' = published st ++ more) /\
  (forall k t, In (k, mkSlot t (SlotReady None)) (pending st) -> k <= last_published st' -> In (k, t) (published st')) \/
  (poisoned st <> None /\ st' = st).
Proof.
  unfold advance_window_locked. intros Hw Hbase Ha. destruct (poisoned st) eqn:Ep.
  { injection Ha as <- <-. right. by split. }
  left. rewrite <- Ep. destruct Hbase as [->| ->]; [by eapply advance_loop_inv|].
  assert (st' = st) as ->.
  { revert Ha. destruct (pending st) as [|[k s] rest] eqn:Epd; simpl.
    - intros [= <- <-]. by destruct st; simpl in *; subst.
    - pose proof (window_key_above _ _ _ _ k s Hw (or_introl eq_refl)). destruct Hw as [Hb _ _ _ _ _ _ _ _].
      replace (saturating_add 64 (last_published st) 1) with (last_published st + 1)
        by (unfold saturating_add; unfold u64_max in Hb; lia).
      destruct (Z.eqb_spec k (last_published st + 1)); [lia|]. simpl. intros [= <- <-].
      by destruct st; simpl in *; subst. }
  split_and!; try done; [by right|exists []; by rewrite app_nil_r|].
  intros k t Hin Hle. pose proof (window_key_above _ _ _ _ _ _ Hw Hin). lia.
Qed.

Lemma inv_window start st :
  inv start st -> exists base, window start base (pending st) st /\
    (base = last_published st + 1 \/ base = last_published st + 2).
Proof. intros [[Hw _]|Hw]; eauto. Qed.

Lemma set_state_maps k x p :
  map fst (set_state k x p) = map fst p /\ map (fun e => slot_ts e) (set_state k x p) = map (fun e => slot_ts e) p.
Proof.
  unfold set_state. split; [apply zm_update_keys|]. unfold zm_update. rewrite map_map. apply map_ext.
  intros [k' s]; simpl. by destruct (_ =? _).
Qed.

Lemma Forall_slot_ts (P : Ts -> Prop) (p : list (Z * PublishSlot)) :
  Forall (fun e => P (slot_ts e)) p <-> Forall P (map (fun e => slot_ts e) p).
Proof. by rewrite List.Forall_map. Qed.

Lemma sorted_slot_ts (p : list (Z * PublishSlot)) :
  StronglySorted (fun a b => ts_lt (slot_ts a) (slot_ts b)) p <->
  StronglySorted ts_lt (map (fun e => slot_ts e) p).
Proof.
  induction p as [|e p IH]; simpl; [split; constructor|]. split; intros Hs; inv Hs; constructor; try tauto.
  - by apply (Forall_slot_ts (fun t => ts_lt (slot_ts e) t)).
  - by apply (Forall_slot_ts (fun t => ts_lt (slot_ts e) t)) in H2.
Qed.

Lemma window_set_state start base k x st :
  window start base (pending st) st ->
  window start base (set_state k x (pending st)) (with_pending (set_state k x (pending st)) st).
Proof.
  intros [Hb Hd Hs Ha Hc He Hl Hlb Hp]. destruct (set_state_maps k x (pending st)) as [Hf Ht].
  constructor; simpl; try done.
  - by rewrite Hf.
  - apply sorted_slot_ts. rewrite Ht. by apply sorted_slot_ts.
  - apply (Forall_slot_ts (fun t => ts_lt (published_frontier st) t /\ ts_le t (clock st))). rewrite Ht.
    by apply (Forall_slot_ts (fun t => ts_lt (published_frontier st) t /\ ts_le t (clock st))).
Qed.

Lemma window_clock start base st c :
  window start base (pending st) st -> ts_le (clock st) c -> window start base (pending st) (set_clock c st).
Proof.
  intros [Hb Hd Hs Ha Hc He Hl Hlb Hp] Hle. constructor; simpl; try done; [|ts_lia].
  eapply List.Forall_impl; [|exact Ha]. intros e [? ?]. split; [done|ts_lia].
Qed.

Lemma set_clock_inv start st c : inv start st -> ts_le (clock st) c -> inv start (set_clock c st).
Proof.
  intros [[Hw Hh]|Hw] Hle; [left; split; [|done]|right]; exact (window_clock _ _ _ _ Hw Hle).
Qed.

(** A new slot, at a timestamp above all others *)
Lemma window_push start base st :
  window start base (pending st) st -> next_seq st + 1 <= u64_max ->
  Forall (fun e => ts_lt (slot_ts e) (clock st)) (pending st) -> ts_lt (published_frontier st) (clock st) ->
  let st' := push_slot (next_seq st + 1) (next_seq st) (mkSlot (clock st) SlotPending) st in
  pending st' = pending st ++ [(next_seq st, mkSlot (clock st) SlotPending)] /\
  window start base (pending st') st'.
Proof.
  intros Hw Hn Hts Hfr st'. assert (pending st' = pending st ++ [(next_seq st, mkSlot (clock st) SlotPending)]) as E.
  { apply zm_insert_last. apply List.Forall_forall. intros [k s] Hin.
    pose proof (window_key_above _ _ _ _ _ _ Hw Hin). simpl. lia. }
  split; [done|]. rewrite E. destruct Hw as [Hb Hd Hs Ha Hc He Hl Hlb Hp].
  constructor; simpl; try done; [lia| | |].
  - rewrite map_app, Hd. simpl. replace (next_seq st + 1 - base) with ((next_seq st - base) + 1) by lia.
    rewrite seqZ_app by lia. f_equal. rewrite seqZ_cons, seqZ_nil by lia. f_equal. lia.
  - by apply strongly_sorted_snoc.
  - apply List.Forall_app. split; [done|]. constructor; [|constructor]. simpl. split; [done|ts_lia].
Qed.

Lemma register_inv start st wall : inv start st -> inv start (snd (register_with_oracle wall st)).
Proof.
  intros Hi. unfold register_with_oracle. destruct (poisoned st); [done|].
  destruct (TimestampOracle.commit wall (clock st)) as [r c'] eqn:Ec.
  assert (ts_le (clock st) c') as Hcl.
  { apply (TimestampOracle.run_call_mono (TimestampOracle.Commit wall) _
      (match r with Ok t => TimestampOracle.Issued t | _ => TimestampOracle.Exhausted end)).
    simpl. rewrite Ec. by destruct r. }
  pose proof (set_clock_inv start st c' Hi Hcl) as Hi'. destruct r as [t|e|]; [|done..].
  apply TimestampOracle.commit_Ok in Ec as [-> Hlt]. unfold checked_add. simpl.
  destruct (Z.ltb_spec (next_seq st + 1) (2 ^ 64)) as [Hn|]; [|done]. simpl.
  assert (forall base, window start base (pending st) st ->
    Forall (fun e => ts_lt (slot_ts e) c') (pending st) /\ ts_lt (published_frontier st) c') as Hab.
  { intros base [_ _ _ Ha Hc _ _ _ _]. split; [|ts_lia]. eapply List.Forall_impl; [|exact Ha].
    intros e [? ?]. simpl. ts_lia. }
  assert (next_seq st + 1 <= u64_max) as Hn' by (unfold u64_max; lia).
  destruct Hi as [[Hw Hh]|Hw]; destruct (Hab _ Hw) as [Hts Hfr];
    destruct (window_push start _ (set_clock c' st) (window_clock _ _ _ _ Hw Hcl) Hn' Hts Hfr) as [Hp Hw'].
  - left. split; [exact Hw'|]. cbn [pending set_clock] in Hp.
    change (head_pending (zm_insert (next_seq st) (mkSlot c' SlotPending) (pending st))).
    change (zm_insert (next_seq st) (mkSlot c' SlotPending) (pending st) =
      pending st ++ [(next_seq st, mkSlot c' SlotPending)]) in Hp.
    rewrite Hp. by destruct (pending st) as [|[k s] p].
  - right. exact Hw'.
Qed.

Lemma section_inv start st r st' :
  (exists base, window start base (pending st) st /\ (base = last_published st + 1 \/ base = last_published st + 2)) ->
  poisoned st = None -> advance_window_locked st = (r, st') -> inv start st'.
Proof.
  intros (base & Hw & Hb) Hp Ha. by destruct (advance_inv _ _ _ _ _ Hw Hb Ha) as [(? & _)|[? _]].
Qed.

Lemma set_state_window start k x st :
  inv start st ->
  let st1 := with_pending (set_state k x (pending st)) st in
  exists base, window start base (pending st1) st1 /\ (base = last_published st1 + 1 \/ base = last_published st1 + 2).
Proof. intros (base & Hw & Hb)%inv_window. exists base. split; [by apply window_set_state|done]. Qed.

Lemma seq_step_inv start st st' : seq_step st st' -> inv start st -> inv start st'.
Proof.
  intros [s c Hle|s wall|s target t outcome Hg|s target|s seq t Hg|s reason] Hi.
  - by apply set_clock_inv.
  - by apply register_inv.
  - unfold mark_ready. destruct (poisoned s) eqn:Ep; [done|]. rewrite Hg.
    destruct (advance_window_locked _) as [r st1] eqn:Ea.
    pose proof (section_inv _ _ _ _ (set_state_window start target _ s Hi) Ep Ea). by destruct r.
  - unfold mark_ready_woken. destruct (advance_window_locked s) as [r st1] eqn:Ea.
    destruct (inv_window _ _ Hi) as (base & Hw & Hb).
    destruct (advance_inv _ _ _ _ _ Hw Hb Ea) as [(? & _)|[_ ->]]; by destruct r.
  - unfold mark_aborted. destruct (poisoned s) eqn:Ep; [done|].
    destruct (advance_window_locked _) as [r st1] eqn:Ea.
    exact (section_inv _ _ _ _ (set_state_window start seq _ s Hi) Ep Ea).
  - unfold poison. destruct (poisoned s); [done|].
    destruct Hi as [[[] Hh]|[]]; [left; split; [by constructor|done]|right; by constructor].
Qed.

Lemma initial_inv start frontier oracle st : initial start frontier oracle st -> inv start st.
Proof.
  intros (Hs & Hf & ->). left. split; [|done]. unfold new_with_recovery_state, new_inner, saturating_sub.
  assert (Z.max 0 (start - 1) + 1 = start) as E by lia.
  constructor; simpl; rewrite ?E; try done; try constructor; try lia.
  by rewrite seqZ_nil by lia.
Qed.

Definition reached (start : Z) (frontier : Ts) (oracle : TimestampOracle.HlcState) (st : Sequencer) : Prop :=
  exists st0, initial start frontier oracle st0 /\ rtc seq_step st0 st.

Lemma reached_inv start frontier oracle st : reached start frontier oracle st -> inv start st.
Proof.
  intros (st0 & H0%initial_inv & Hr). revert st Hr.
  apply (rtc_ind_r (fun st => inv start st) st0); [done|]. intros x y _ Hs Hx. by eapply seq_step_inv.
Qed.

(** *** A failed closure

    The slot of a publish closure that fails is gone while the window still
    waits for it: nothing is published from then on. *)
Definition stuck (st : Sequencer) : Prop :=
  last_published st + 1 < next_seq st /\ ~ In (last_published st + 1) (map fst (pending st)).

Lemma window_stuck start st : window start (last_published st + 2) (pending st) st -> stuck st.
Proof.
  intros Hw. split; [destruct Hw; lia|]. intros ([k s] & E & Hin)%in_map_iff. simpl in E.
  pose proof (window_key_above _ _ _ _ _ _ Hw Hin). lia.
Qed.

Lemma inv_bounds start st : inv start st -> 0 <= last_published st /\ next_seq st <= u64_max.
Proof. intros (base & [Hb _ _ _ _ _ _ _ _] & _)%inv_window. lia. Qed.

Lemma advance_stuck st :
  0 <= last_published st /\ next_seq st <= u64_max -> stuck st -> snd (advance_window_locked st) = st.
Proof.
  intros Hb [Hlt Hni]. unfold advance_window_locked. destruct (poisoned st); [done|].
  destruct (pending st) as [|[k s] rest] eqn:Ep; simpl; [destruct st; simpl in *; by subst|].
  replace (saturating_add 64 (last_published st) 1) with (last_published st + 1)
    by (unfold saturating_add; unfold u64_max in *; lia).
  destruct (Z.eqb_spec k (last_published st + 1)) as [->|_]; [exfalso; apply Hni; by left|].
  simpl. rewrite <- Ep. by destruct st.
Qed.

Lemma advance_loop_err start p st e st' :
  window start (last_published st + 1) p st -> advance_loop p st = (Err e, st') -> stuck st'.
Proof.
  revert st. induction p as [|[k s] rest IH]; intros st Hw; simpl; [done|].
  destruct (window_skip _ _ _ _ _ _ Hw eq_refl) as (-> & -> & Hrest). rewrite Z.eqb_refl. simpl.
  destruct (slot_state s) as [|[err|]|].
  - done.
  - intros [= -> <-]. apply (window_stuck start). destruct Hrest; by constructor.
  - apply IH. exact (window_publish _ _ _ _ _ Hw).
  - apply IH. exact (window_skipped _ _ _ _ _ Hw).
Qed.

Lemma advance_loop_no_panic p st : no_panic (fst (advance_loop p st)).
Proof.
  revert st. induction p as [|[k s] rest IH]; intros st; simpl; [done|].
  destruct (negb _); [done|]. destruct (slot_state s) as [|[err|]|]; by try apply IH.
Qed.

Lemma set_state_stuck k x st : stuck st -> stuck (with_pending (set_state k x (pending st)) st).
Proof. intros [Hlt Hni]. split; [done|]. simpl. by rewrite (proj1 (set_state_maps k x (pending st))). Qed.

(** Once stuck, the window passes no slot any more. *)
Lemma stuck_step start st st' :
  inv start st -> stuck st -> seq_step st st' ->
  stuck st' /\ last_published st' = last_published st /\ published st' = published st.
Proof.
  intros Hi Hs Hstep. pose proof (inv_bounds _ _ Hi) as Hb.
  destruct Hstep as [s c Hle|s wall|s target t outcome Hg|s target|s seq t Hg|s reason].
  - done.
  - unfold register_with_oracle. destruct (poisoned s); [done|].
    destruct (TimestampOracle.commit wall (clock s)) as [[t|e|] c']; [|done..].
    unfold checked_add. simpl. destruct (Z.ltb_spec (next_seq s + 1) (2 ^ 64)) as [Hn|]; [|done]. simpl.
    destruct Hs as [Hlt Hni]. split; [|done]. split; [simpl; lia|]. simpl.
    intros ([k x] & E & Hin)%in_map_iff. simpl in E. apply zm_insert_In in Hin as [[= -> _]|Hin]; [lia|].
    apply Hni, in_map_iff. by exists (k, x).
  - unfold mark_ready. destruct (poisoned s) eqn:Ep; [done|]. rewrite Hg.
    set (s1 := with_pending _ s). assert (stuck s1) as Hs1 by by apply set_state_stuck.
    pose proof (advance_stuck s1 Hb Hs1) as Ha. destruct (advance_window_locked s1) as [r s2].
    simpl in Ha. subst s2. by destruct r.
  - unfold mark_ready_woken. pose proof (advance_stuck s Hb Hs) as Ha.
    destruct (advance_window_locked s) as [r s2]. simpl in Ha. subst s2. by destruct r.
  - unfold mark_aborted. destruct (poisoned s) eqn:Ep; [done|].
    set (s1 := with_pending _ s). assert (stuck s1) as Hs1 by by apply set_state_stuck.
    by rewrite (advance_stuck s1 Hb Hs1).
  - unfold poison. by destruct (poisoned s).
Qed.

Lemma stuck_forever start st st' :
  inv start st -> stuck st -> rtc seq_step st st' ->
  last_published st' = last_published st /\ published st' = published st.
Proof.
  intros Hi Hs. induction 1 as [|x y z Hxy _ IH]; [done|].
  destruct (stuck_step _ _ _ Hi Hs Hxy) as (Hsy & Hl & Hp).
  destruct (IH (seq_step_inv _ _ _ Hxy Hi) Hsy) as [-> ->]. done.
Qed.

(** *** Following one slot through an execution *)

Definition tracked (target : Z) (t : Ts) (outcome : option Error) (st : Sequencer) : Prop :=
  In (target, mkSlot t (SlotReady outcome)) (pending st) \/
  match outcome with
  | None => In (target, t) (published st)
  | Some _ => stuck st /\ last_published st < target
  end.

Lemma advance_loop_tracked start target t outcome p st r st' :
  window start (last_published st + 1) p st -> In (target, mkSlot t (SlotReady outcome)) p ->
  advance_loop p st = (r, st') -> tracked target t outcome st'.
Proof.
  revert st. induction p as [|[k s] rest IH]; intros st Hw Hin; simpl; [done|].
  destruct (window_skip _ _ _ _ _ _ Hw eq_refl) as (-> & -> & Hrest). rewrite Z.eqb_refl. simpl.
  destruct (slot_state s) as [|[err|]|] eqn:Es.
  - intros [= <- <-]. by left.
  - intros [= <- <-]. destruct Hin as [[= <- ->]|Hin]; [|by left]. simpl in Es. injection Es as ->. right.
    split; [|simpl; lia]. apply (window_stuck start). destruct Hrest; by constructor.
  - intros Ha. pose proof (window_publish _ _ _ _ _ Hw) as Hw'.
    destruct Hin as [[= <- ->]|Hin]; [|exact (IH (publish_slot _ _ st) Hw' Hin Ha)]. simpl in Es. injection Es as ->. right.
    destruct (advance_loop_inv _ _ (publish_slot _ _ st) _ _ Hw' Ha) as (_ & _ & _ & _ & (more & ->) & _). simpl.
    rewrite !in_app_iff. left. right. by left.
  - intros Ha. pose proof (window_skipped _ _ _ _ _ Hw) as Hw'.
    destruct Hin as [[= <- ->]|Hin]; [done|exact (IH (skip_slot _ st) Hw' Hin Ha)].
Qed.

Lemma advance_tracked start target t outcome st :
  (exists base, window start base (pending st) st /\ (base = last_published st + 1 \/ base = last_published st + 2)) ->
  tracked target t outcome st -> tracked target t outcome (snd (advance_window_locked st)).
Proof.
  intros (base & Hw & Hbase) Ht. assert (stuck st -> snd (advance_window_locked st) = st) as Hstuck.
  { apply advance_stuck. destruct Hw; lia. }
  destruct Hbase as [->| ->]; [|by rewrite Hstuck by by apply (window_stuck start)].
  destruct Ht as [Hin|Ht].
  - unfold advance_window_locked. destruct (poisoned st); [by left|].
    destruct (advance_loop _ st) as [r st'] eqn:Ea. by apply (advance_loop_tracked start _ _ _ (pending st) st r).
  - right. destruct outcome as [err|]; [by rewrite Hstuck by tauto|].
    destruct (advance_window_locked st) as [r st'] eqn:Ea. simpl.
    destruct (advance_inv _ _ _ _ _ Hw (or_introl eq_refl) Ea) as [(_ & _ & _ & _ & (more & ->) & _)|[_ ->]]; [|done].
    apply in_app_iff. by left.
Qed.

Lemma set_state_other k x st start target t outcome t' :
  inv start st -> zm_get k (pending st) = Some (mkSlot t' SlotPending) ->
  tracked target t outcome st -> tracked target t outcome (with_pending (set_state k x (pending st)) st).
Proof.
  intros Hi Hg%zm_get_In [Hin|Ht].
  - left. assert (k <> target) as Hne.
    { intros ->. destruct (inv_window _ _ Hi) as (base & [_ Hd _ _ _ _ _ _ _] & _).
      assert (NoDup (map fst (pending st))) as Hnd by (rewrite Hd; apply NoDup_seqZ).
      pose proof (NoDup_fst_inj _ _ _ _ Hnd Hg Hin). done. }
    simpl. unfold set_state, zm_update. apply in_map_iff. exists (target, mkSlot t (SlotReady outcome)).
    simpl. by destruct (Z.eqb_spec target k).
  - right. destruct outcome; [|done]. destruct Ht. split; [by apply set_state_stuck|done].
Qed.

Lemma tracked_step start target t outcome st st' :
  inv start st -> seq_step st st' -> tracked target t outcome st -> tracked target t outcome st'.
Proof.
  intros Hi Hstep Ht.
  destruct Hstep as [s c Hle|s wall|s k t' oc Hg|s k|s k t' Hg|s reason].
  - done.
  - destruct Ht as [Hin|Ht].
    + left. destruct (inv_window _ _ Hi) as (base & Hw & _). pose proof (window_key_above _ _ _ _ _ _ Hw Hin).
      unfold register_with_oracle. destruct (poisoned s); [done|].
      destruct (TimestampOracle.commit wall (clock s)) as [[u|e|] c']; [|done..].
      unfold checked_add. simpl. destruct (_ <? _); [|done]. simpl. apply zm_insert_In_ne; [lia|done].
    + right. destruct outcome as [err|].
      * destruct Ht as [Hs Hl]. destruct (stuck_step start s _ Hi Hs (step_register s wall)) as (? & -> & _). done.
      * unfold register_with_oracle. destruct (poisoned s); [done|].
        destruct (TimestampOracle.commit wall (clock s)) as [[u|e|] c']; [|done..].
        unfold checked_add. simpl. by destruct (_ <? _).
  - pose proof (advance_tracked _ _ _ _ _ (set_state_window start k (SlotReady oc) s Hi)
      (set_state_other _ _ _ _ _ _ _ _ Hi Hg Ht)) as Ha.
    unfold mark_ready. destruct (poisoned s); [done|]. rewrite Hg.
    destruct (advance_window_locked _) as [r s2]. by destruct r.
  - pose proof (advance_tracked _ _ _ _ _ (inv_window _ _ Hi) Ht) as Ha. unfold mark_ready_woken.
    destruct (advance_window_locked s) as [r s2]. by destruct r.
  - pose proof (advance_tracked _ _ _ _ _ (set_state_window start k SlotAborted s Hi)
      (set_state_other _ _ _ _ _ _ _ _ Hi Hg Ht)) as Ha.
    unfold mark_aborted. by destruct (poisoned s).
  - unfold poison. by destruct (poisoned s).
Qed.

(** C10: Commits become visible in commit-timestamp order.  In every execution
    the slots published so far have strictly increasing sequence numbers and
    commit timestamps, the frontier readers see is the epoch and bounds all of
    them, every sequence number up to the window's edge was published or
    skipped, and every slot not yet passed has a commit timestamp above the
    frontier (so a version with [start_ts <= frontier] is never one still being
    committed). *)
Theorem publish_order start frontier oracle st :
  reached start frontier oracle st ->
  StronglySorted log_lt (published st) /\
  Forall (fun e => ts_le (snd e) (published_frontier st)) (published st) /\
  epoch st = published_frontier st /\
  (forall k, start <= k <= last_published st <-> In k (map fst (published st)) \/ In k (skipped st)) /\
  Forall (fun e => last_published st < fst e /\ ts_lt (published_frontier st) (slot_ts e)) (pending st).
Proof.
  intros (base & Hw & Hb)%reached_inv%inv_window. pose proof Hw as [Hbd _ _ Ha _ He Hl Hlb Hp]. split_and!; try done.
  - eapply List.Forall_impl; [|exact Hlb]. by intros e [_ ?].
  - rewrite List.Forall_forall in Ha |- *. intros [k s] Hin. pose proof (window_key_above _ _ _ _ _ _ Hw Hin).
    split; [simpl; lia|]. by apply Ha.
Qed.

(** C30: No committed transaction waits without a reason.  In every execution,
    a slot that is ready but not yet published has an earlier slot whose writer
    has neither finished nor aborted; or else a publish closure has failed, the
    window is stuck at the slot the failure removed, and no later step ever
    publishes anything. *)
Theorem publish_progress start frontier oracle st k t outcome :
  reached start frontier oracle st -> In (k, mkSlot t (SlotReady outcome)) (pending st) ->
  (exists k' t', k' < k /\ In (k', mkSlot t' SlotPending) (pending st)) \/
  (stuck st /\ last_published st + 1 < k /\
   forall st', rtc seq_step st st' -> published st' = published st /\ last_published st' = last_published st).
Proof.
  intros Hr%reached_inv Hin. pose proof Hr as [[Hw Hh]|Hw].
  - left. destruct (pending st) as [|[k0 s0] p] eqn:Ep; [done|]. simpl in Hh.
    destruct Hin as [[= <- ->]|Hin]; [done|]. exists k0, (slot_commit_ts s0). split.
    + destruct (window_skip _ _ _ _ _ _ Hw eq_refl) as (-> & _ & Hrest).
      pose proof (window_key_above _ _ _ _ _ _ Hrest Hin). lia.
    + left. destruct s0; simpl in *. by subst.
  - right. pose proof (window_stuck _ _ Hw) as Hs. split; [done|]. split.
    + pose proof (window_key_above _ _ _ _ _ _ Hw Hin). lia.
    + intros st' Hrun. destruct (stuck_forever _ _ _ Hr Hs Hrun). done.
Qed.

Lemma set_state_In k x t y p : In (k, mkSlot t y) p -> In (k, mkSlot t x) (set_state k x p).
Proof.
  intros Hin. unfold set_state, zm_update. apply in_map_iff. exists (k, mkSlot t y). simpl. by rewrite Z.eqb_refl.
Qed.

(** A first section leaves its slot tracked, and so do the steps after it. *)
Lemma mark_ready_tracked start target outcome st t :
  inv start st -> zm_get target (pending st) = Some (mkSlot t SlotPending) -> poisoned st = None ->
  tracked target t outcome (snd (mark_ready target outcome st)).
Proof.
  intros Hi Hg Hp. unfold mark_ready. rewrite Hp, Hg.
  assert (tracked target t outcome (with_pending (set_state target (SlotReady outcome) (pending st)) st)) as Ht.
  { left. by eapply set_state_In, zm_get_In. }
  apply (advance_tracked start) in Ht; [|by apply set_state_window].
  destruct (advance_window_locked _) as [r st1]. by destruct r.
Qed.

Lemma waiting_tracked start target outcome st s t :
  inv start st -> zm_get target (pending st) = Some (mkSlot t SlotPending) ->
  waiting target outcome st s -> inv start s /\ tracked target t outcome s.
Proof.
  intros Hi Hg Hw. revert Hi Hg. induction Hw as [st s Hm|st s s' _ IH Hs]; intros Hi Hg.
  - assert (poisoned st = None) as Hp.
    { unfold mark_ready in Hm. by destruct (poisoned st). }
    pose proof (mark_ready_tracked start target outcome st t Hi Hg Hp) as Ht.
    pose proof (seq_step_inv start _ _ (step_ready st target t outcome Hg) Hi) as Hi'. by rewrite Hm in *.
  - destruct (IH Hi Hg) as [Hi1 Ht]. split; [by eapply seq_step_inv|by eapply tracked_step].
Qed.

(** What a section's answer says of the state it leaves *)
Lemma section_answer start target t outcome st r st' :
  (exists base, window start base (pending st) st /\ (base = last_published st + 1 \/ base = last_published st + 2)) ->
  tracked target t outcome st -> ready_or_wait target (advance_window_locked st) = (r, st') -> r <> Ok false ->
  match r with
  | Ok _ => outcome = None /\ In (target, t) (published st') /\ ts_le t (published_frontier st')
  | Err e => (exists reason, poisoned st' = Some reason /\ e = EngineFatal reason) \/ stuck st'
  | Panic => False
  end.
Proof.
  intros Hwin Ht Hr Hne. pose proof (advance_tracked _ _ _ _ _ Hwin Ht) as Ht'.
  destruct Hwin as (base & Hw & Hb). destruct (advance_window_locked st) as [u st1] eqn:Ea. simpl in Ht'.
  destruct u as [u|e|]; injection Hr as <- <-.
  - destruct (Z.ltb_spec (last_published st1) target) as [|Hle]; [done|].
    assert (inv start st1) as Hi1.
    { destruct (advance_inv _ _ _ _ _ Hw Hb Ea) as [(? & _)|[Hp _]]; [done|].
      unfold advance_window_locked in Ea. by destruct (poisoned st). }
    destruct (inv_window _ _ Hi1) as (base' & Hw' & Hb').
    destruct Ht' as [Hin|Ht']; [pose proof (window_key_above _ _ _ _ _ _ Hw' Hin); lia|].
    destruct outcome as [err|]; [destruct Ht'; lia|]. split; [done|]. split; [done|].
    destruct Hw' as [_ _ _ _ _ _ _ Hlb _]. rewrite List.Forall_forall in Hlb. by destruct (Hlb _ Ht').
  - unfold advance_window_locked in Ea. destruct (poisoned st) as [reason|] eqn:Ep.
    + injection Ea as <- <-. left. by exists reason.
    + right. destruct Hb as [->| ->]; [by eapply advance_loop_err|].
      pose proof (window_stuck _ _ Hw) as Hs. assert (snd (advance_window_locked st) = st) as Hst.
      { apply advance_stuck; [destruct Hw; lia|done]. }
      unfold advance_window_locked in Hst. rewrite Ep, Ea in Hst. simpl in Hst. by subst st1.
  - unfold advance_window_locked in Ea. destruct (poisoned st); [done|].
    pose proof (advance_loop_no_panic (pending st) st) as Hn. by rewrite Ea in Hn.
Qed.

(** C27: An acknowledged commit is visible.  Take a call of [mark_ready] on a
    pending slot, with any publish closure, and any interleaving with other
    calls while it waits.  If the call returns success, its closure succeeded,
    its own slot has been published at the commit timestamp it was registered
    with, and the frontier has reached it.  If it returns an error, the
    sequencer is poisoned and the error says so, or a publish closure failed
    and the window is stuck.  It never panics. *)
Theorem ready_means_published start frontier oracle st target t outcome r st' :
  reached start frontier oracle st -> zm_get target (pending st) = Some (mkSlot t SlotPending) ->
  mark_ready_returns target outcome st r st' ->
  match r with
  | Ok _ => outcome = None /\ In (target, t) (published st') /\ ts_le t (published_frontier st')
  | Err e => (exists reason, poisoned st' = Some reason /\ e = EngineFatal reason) \/ stuck st'
  | Panic => False
  end.
Proof.
  intros Hi%reached_inv Hg [r' s Hm Hne|s r' s' Hw Hm Hne].
  - unfold mark_ready in Hm. destruct (poisoned st) as [reason|] eqn:Hp; [injection Hm as <- <-; left; by exists reason|].
    rewrite Hg in Hm.
    apply (section_answer start target t outcome _ _ _ (set_state_window start target (SlotReady outcome) st Hi));
      [|done|done]. left. by eapply set_state_In, zm_get_In.
  - destruct (waiting_tracked start target outcome st s t Hi Hg Hw) as [Hi1 Ht].
    exact (section_answer start target t outcome s r' s' (inv_window _ _ Hi1) Ht Hm Hne).
Qed.

(** A poisoned sequencer is frozen: no later call registers, publishes,
    skips or aborts a slot, moves the frontier or replaces the first recorded
    reason; only the oracle's clock may still move. *)
Theorem poison_freezes st st' :
  poisoned st <> None -> seq_step st st' -> set_clock (clock st) st' = st.
Proof.
  intros Hp Hs. destruct (poisoned st) as [reason|] eqn:Ep; [|done]. clear Hp.
  destruct Hs as [s|s|s|s|s|s];
    unfold register_with_oracle, mark_ready, mark_ready_woken, mark_aborted, poison, advance_window_locked;
    rewrite ?Ep; simpl; by destruct s.
Qed.

(** *** Three writers: the second finishes first, the third aborts *)
Definition seq0 : Sequencer := new_with_recovery_state (mkTs 5 0) 1 (mkTs 5 0).
Definition seq3 : Sequencer :=
  snd (register_with_oracle 30 (snd (register_with_oracle 20 (snd (register_with_oracle 10 seq0))))).
Definition seq4 : Sequencer := mark_aborted 3 (snd (mark_ready 2 None seq3)).

Lemma seq3_reached : rtc seq_step seq0 seq3.
Proof. do 3 (eapply rtc_l; [apply step_register|]). apply rtc_refl. Qed.

Lemma seq4_reached : reached 1 (mkTs 5 0) (mkTs 5 0) seq4.
Proof.
  exists seq0. split; [by repeat split|]. transitivity seq3; [apply seq3_reached|].
  eapply rtc_l; [by eapply (step_ready _ 2 _ None)|]. eapply rtc_l; [by eapply (step_abort _ 3)|]. apply rtc_refl.
Qed.

Lemma publish_order_witness :
  StronglySorted log_lt (published (snd (mark_ready 1 None seq4))) /\
  published (snd (mark_ready 1 None seq4)) = [(1, mkTs 10 0); (2, mkTs 20 0)].
Proof.
  split; [|reflexivity]. apply (publish_order 1 (mkTs 5 0) (mkTs 5 0)).
  destruct seq4_reached as (st0 & Hi & Hr). exists st0. split; [done|].
  eapply rtc_r; [done|]. by eapply (step_ready _ 1 _ None).
Defined.

Lemma publish_progress_witness :
  (exists k' t', k' < 2 /\ In (k', mkSlot t' SlotPending) (pending seq4)) \/
  (stuck seq4 /\ last_published seq4 + 1 < 2 /\
   forall st', rtc seq_step seq4 st' -> published st' = published seq4 /\ last_published st' = last_published seq4).
Proof.
  apply (publish_progress 1 (mkTs 5 0) (mkTs 5 0) seq4 2 (mkTs 20 0) None);
    [apply seq4_reached|vm_compute; right; by left].
Defined.

(** The second writer waits for the first, which publishes both slots; the
    second is then woken and returns. *)
Definition seq5 : Sequencer := snd (mark_ready 1 None (snd (mark_ready 2 None seq3))).

Lemma ready_means_published_witness : In (2, mkTs 20 0) (published (snd (mark_ready_woken 2 seq5))).
Proof.
  refine (proj1 (proj2 (ready_means_published 1 (mkTs 5 0) (mkTs 5 0) seq3 2 (mkTs 20 0) None (Ok true)
    (snd (mark_ready_woken 2 seq5)) _ _ _))).
  - exists seq0. split; [by repeat split|apply seq3_reached].
  - by vm_compute.
  - apply (returns_woken _ _ _ seq5); [|by vm_compute|done].
    eapply waiting_step; [apply waiting_first; by vm_compute|]. by eapply (step_ready _ 1 _ None).
Defined.

(** A closure that fails leaves a ready slot behind that no step publishes. *)
Definition seq_failed : Sequencer :=
  snd (mark_ready 1 (Some (Internal "publish")) (snd (mark_ready 2 None seq3))).

Lemma failed_closure_strands_successor :
  stuck seq_failed /\ In (2, mkSlot (mkTs 20 0) (SlotReady None)) (pending seq_failed).
Proof. split; [split; [by vm_compute|]|]; vm_compute; [intuition congruence|by left]. Qed.

Lemma poison_freezes_witness :
  let st := poison PostDurablePendingFlipFailure seq4 in
  set_clock (clock st) (mark_aborted 1 st) = st.
Proof.
  apply (poison_freezes (poison PostDurablePendingFlipFailure seq4)); [by vm_compute|].
  apply (step_abort _ 1 (mkTs 10 0)). by vm_compute.
Defined.
