(* ===== verification/LogManager.v ===== *)
(** * The write-ahead log manager ([journal/log_manager.rs])

    Byte-LSN reservation, positioned writes, the contiguous ready frontier and
    the leader-elected group commit.  A method body is split where it releases
    the slots mutex or touches the file: each piece is one step, so an
    execution of many writers is a sequence of steps.  [issued], [complete] and
    [synced] are ghost: the ranges handed out, those whose positioned write has
    finished, and those among them at the last [sync_data]. *)

From S2P Require Import Prelude Bytes BTreeMap.

#[local] Open Scope Z_scope.

(** ** Positioned writes *)

(** One [write_at] call: an error, or the number of bytes taken *)
Inductive IoResult : Set :=
| IoError
| Wrote (n : Z).

(** The file as a map from offset to byte *)
Definition blit (off : Z) (data : list Z) (disk : Z -> Z) : Z -> Z :=
  fun i => if (off <=? i) && (i <? off + len data) then nth (Z.to_nat (i - off)) data 0 else disk i.

(** [write_all_at]: [io k data] is what the [k]-th call does on [data].  Every call but a
    failing one takes a byte, so [length data] iterations are enough. *)
Fixpoint write_all_at (fuel : nat) (io : nat -> list Z -> IoResult) (k : nat) (offset : Z) (data : list Z) (disk : Z -> Z)
  : Result unit * (Z -> Z) :=
  match data with
  | [] => (Ok tt, disk)
  | _ =>
      match fuel with
      | O => (Panic, disk)
      | S fuel' =>
          match io k data with
          | IoError => (Err (Io "write_at"), disk)
          | Wrote written =>
              if written =? 0 then (Err (Io "positioned log write made no progress"), disk)
              else
                let disk := blit offset (take (Z.to_nat written) data) disk in
                match checked_add 64 offset written with
                | None => (Err (Io "positioned log offset overflow"), disk)
                | Some offset' =>
                    if written <=? len data
                    then write_all_at fuel' io (S k) offset' (drop (Z.to_nat written) data) disk
                    else (Panic, disk)
                end
          end
      end
  end.

(** What [write_at] documents: it takes at most the bytes it is given. *)
Definition short_writes (io : nat -> list Z -> IoResult) : Prop :=
  forall k data n, io k data = Wrote n -> 0 <= n <= len data.

Lemma blit_in off data disk i :
  off <= i < off + len data -> blit off data disk i = nth (Z.to_nat (i - off)) data 0.
Proof. intros. unfold blit. by destruct (Z.leb_spec off i), (Z.ltb_spec i (off + len data)); try lia. Qed.

Lemma blit_out off data disk i : i < off \/ off + len data <= i -> blit off data disk i = disk i.
Proof. intros. unfold blit. by destruct (Z.leb_spec off i), (Z.ltb_spec i (off + len data)); try lia. Qed.

Lemma write_all_at_spec io fuel k offset data disk r disk' :
  short_writes io -> (length data <= fuel)%nat -> write_all_at fuel io k offset data disk = (r, disk') ->
  r <> Panic /\ (forall i, i < offset \/ offset + len data <= i -> disk' i = disk i)
  /\ (r = Ok tt -> forall i, offset <= i < offset + len data -> disk' i = nth (Z.to_nat (i - offset)) data 0).
Proof.
  intros Hio. revert k offset data disk. induction fuel as [|fuel IH]; intros k offset data disk Hf.
  - destruct data; simpl in Hf; [|lia]. intros [= <- <-]. split_and!; try done. intros _ i. unfold len; simpl; lia.
  - destruct data as [|b data']; [intros [= <- <-]; split_and!; try done; intros _ i; unfold len; simpl; lia|].
    cbn [write_all_at]. set (data := b :: data') in *. destruct (io k data) as [|n] eqn:Hk; [by intros [= <- <-]|].
    pose proof (Hio _ _ _ Hk) as Hn. destruct (Z.eqb_spec n 0); [by intros [= <- <-]|].
    assert (Hg : len (take (Z.to_nat n) data) = n) by (unfold len in *; rewrite length_take; lia).
    assert (Hd : len (drop (Z.to_nat n) data) = len data - n) by (unfold len in *; rewrite length_drop; lia).
    unfold checked_add. destruct (_ <? _).
    2: { intros [= <- <-]. split_and!; [done| |done]. intros i Hi. apply blit_out. lia. }
    destruct (Z.leb_spec n (len data)); [|lia]. intros Hw. apply IH in Hw as (Hp & Hout & Hin); [|unfold len in *; lia].
    rewrite Hd in Hout, Hin. split_and!; [done| |].
    + intros i Hi. rewrite Hout by lia. apply blit_out. lia.
    + intros -> i Hi. destruct (Z_lt_le_dec i (offset + n)).
      * rewrite Hout, blit_in by lia. rewrite nth_firstn. by destruct (Nat.ltb_spec (Z.to_nat (i - offset)) (Z.to_nat n)); [|lia].
      * rewrite Hin by (done || lia). rewrite nth_skipn. f_equal. lia.
Qed.

Lemma write_all_at_progress io fuel k offset data disk :
  short_writes io -> (forall k d, d <> [] -> exists n, io k d = Wrote n /\ 0 < n) ->
  offset + len data < 2 ^ 64 -> (length data <= fuel)%nat ->
  fst (write_all_at fuel io k offset data disk) = Ok tt.
Proof.
  intros Hio Hprog. revert k offset data disk. induction fuel as [|fuel IH]; intros k offset data disk Ho Hf.
  - by destruct data; simpl in Hf; [|lia].
  - destruct data as [|b data']; [done|]. cbn [write_all_at]. set (data := b :: data') in *.
    destruct (Hprog k data) as (n & Hk & Hn); [done|]. pose proof (Hio _ _ _ Hk). rewrite Hk.
    destruct (Z.eqb_spec n 0); [lia|]. unfold checked_add. destruct (Z.ltb_spec (offset + n) (2 ^ 64)); [|lia].
    destruct (Z.leb_spec n (len data)); [|lia]. apply IH; unfold len in *; rewrite length_drop; lia.
Qed.

(** ** Slots *)

Record LogSlot : Set := mkLogSlot { start_lsn : Z; end_lsn : Z; bytes_len : Z }.

Inductive LogSlotState : Set :=
| Reserved (e : Z)
| Writing (e : Z)
| WriteComplete (e : Z)
| Written (e : Z)
| Poisoned (e : Z).

Definition state_end (s : LogSlotState) : Z :=
  match s with Reserved e | Writing e | WriteComplete e | Written e | Poisoned e => e end.

(** Where a sync leader is *)
Inductive LeaderPhase : Set :=
| Elected
| Closed (sync_target : Z)
| Synced (sync_target : Z)
| Published.

Record LogManager : Set := mkLog {
  next_lsn : Z;
  ready_lsn : Z;
  durable_lsn : Z;
  slots : list (Z * LogSlotState);
  log_poisoned : option EngineFatalReason;
  sync_in_progress : bool;
  leaders : list LeaderPhase;
  issued : list (Z * Z);
  complete : list (Z * Z);
  synced : list (Z * Z) }.

Definition new_log (initial_lsn : Z) : LogManager :=
  mkLog initial_lsn initial_lsn initial_lsn [] None false [] [] [] [].

Definition set_slots (s : list (Z * LogSlotState)) (l : LogManager) : LogManager :=
  mkLog (next_lsn l) (ready_lsn l) (durable_lsn l) s (log_poisoned l) (sync_in_progress l) (leaders l)
    (issued l) (complete l) (synced l).

(** ** Methods *)

Definition check_poisoned (l : LogManager) : Result unit :=
  match log_poisoned l with Some reason => Err (EngineFatal reason) | None => Ok tt end.

Definition bad_slot_state : Error := Internal "log slot is not in the expected state".

(** [poison_locked] *)
Definition poison_locked (reason : EngineFatalReason) (slot : option LogSlot) (l : LogManager) : LogManager :=
  mkLog (next_lsn l) (ready_lsn l) (durable_lsn l)
    (match slot with
     | Some s => zm_insert (start_lsn s) (Poisoned (end_lsn s)) (slots l)
     | None => slots l
     end)
    (match log_poisoned l with Some r => Some r | None => Some reason end)
    false (leaders l) (issued l) (complete l) (synced l).

Definition poison_slot (slot : LogSlot) (l : LogManager) : Error * LogManager :=
  (EngineFatal PostReservationLogWriteFailure, poison_locked PostReservationLogWriteFailure (Some slot) l).

(** [slot_state_mut]: the state of a known slot *)
Definition slot_state (slot : LogSlot) (l : LogManager) : Result LogSlotState :=
  match zm_get (start_lsn slot) (slots l) with
  | None => Err bad_slot_state
  | Some s => if state_end s =? end_lsn slot then Ok s else Err bad_slot_state
  end.

Definition set_slot (slot : LogSlot) (s : LogSlotState) (l : LogManager) : LogManager :=
  set_slots (zm_update (start_lsn slot) (fun _ => s) (slots l)) l.

(** Run [k] on an unpoisoned manager and a slot it knows; other states of the
    slot poison the manager. *)
Definition with_slot {A} (slot : LogSlot) (l : LogManager) (k : LogSlotState -> option (Result A * LogManager))
  : Result A * LogManager :=
  match check_poisoned l with
  | Err e => (Err e, l)
  | Panic => (Panic, l)
  | Ok _ =>
      match slot_state slot l with
      | Ok s =>
          match k s with
          | Some r => r
          | None => let (e, l') := poison_slot slot l in (Err e, l')
          end
      | Err e => (Err e, l)
      | Panic => (Panic, l)
      end
  end.

Definition reserve (n : Z) (l : LogManager) : Result LogSlot * LogManager :=
  if n =? 0 then (Err (Internal "log reservation length must be non-zero"), l)
  else
    match check_poisoned l with
    | Ok _ =>
        let start := next_lsn l in
        match checked_add 64 start n with
        | None => (Err (Internal "log reservation LSN overflow"), l)
        | Some fin =>
            let slots' := zm_insert start (Reserved fin) (slots l) in
            match zm_get start (slots l) with
            | Some _ => (Err (Internal "duplicate log slot reservation"), set_slots slots' l)
            | None =>
                (Ok (mkLogSlot start fin n),
                 mkLog fin (ready_lsn l) (durable_lsn l) slots' (log_poisoned l) (sync_in_progress l) (leaders l)
                   (issued l ++ [(start, fin)]) (complete l) (synced l))
            end
        end
    | Err e => (Err e, l)
    | Panic => (Panic, l)
    end.

(** [write_reserved] up to the positioned write *)
Definition write_begin (slot : LogSlot) (bytes : list Z) (l : LogManager) : Result unit * LogManager :=
  if negb (len bytes =? bytes_len slot) then let (e, l') := poison_slot slot l in (Err e, l')
  else
    with_slot slot l (fun s =>
      match s with
      | Reserved _ => Some (Ok tt, set_slot slot (Writing (end_lsn slot)) l)
      | _ => None
      end).

(** [write_reserved] from the outcome of the positioned write on *)
Definition write_end (slot : LogSlot) (io : Result unit) (l : LogManager) : Result unit * LogManager :=
  match io with
  | Ok _ =>
      let l := mkLog (next_lsn l) (ready_lsn l) (durable_lsn l) (slots l) (log_poisoned l) (sync_in_progress l)
                 (leaders l) (issued l) ((start_lsn slot, end_lsn slot) :: complete l) (synced l) in
      with_slot slot l (fun s =>
        match s with
        | Writing _ => Some (Ok tt, set_slot slot (WriteComplete (end_lsn slot)) l)
        | Poisoned _ => Some (Err (EngineFatal PostReservationLogWriteFailure), l)
        | _ => None
        end)
  | _ => let (e, l') := poison_slot slot l in (Err e, l')
  end.

(** The forward walk of [mark_written]: consume [Written] slots at the frontier *)
Fixpoint ready_walk (fuel : nat) (ready : Z) (m : list (Z * LogSlotState)) : Z * list (Z * LogSlotState) :=
  match fuel with
  | O => (ready, m)
  | S fuel' =>
      match zm_get ready m with
      | Some (Written e) => ready_walk fuel' e (zm_remove ready m)
      | _ => (ready, m)
      end
  end.

(** [mark_written]: the receipt is the slot's end and the new frontier *)
Definition mark_written (slot : LogSlot) (l : LogManager) : Result (Z * Z) * LogManager :=
  with_slot slot l (fun s =>
    match s with
    | WriteComplete _ =>
        let l := set_slot slot (Written (end_lsn slot)) l in
        let (ready, slots') := ready_walk (length (slots l)) (ready_lsn l) (slots l) in
        Some (Ok (end_lsn slot, ready),
              mkLog (next_lsn l) ready (durable_lsn l) slots' (log_poisoned l) (sync_in_progress l) (leaders l)
                (issued l) (complete l) (synced l))
    | _ => None
    end).

(** [wait_ready] and [ensure_sync] return when these hold *)
Definition wait_ready_done (target : Z) (l : LogManager) : option (Result unit) :=
  match check_poisoned l with
  | Ok _ => if target <=? ready_lsn l then Some (Ok tt) else None
  | r => Some r
  end.

Definition ensure_sync_done (target : Z) (l : LogManager) : option (Result unit) :=
  if target <=? durable_lsn l then Some (Ok tt)
  else match check_poisoned l with Ok _ => None | r => Some r end.

(** One step of a sync leader in [ensure_sync] and
    [close_sync_target_after_wait]; [io_ok] is the outcome of [sync_data].
    [None] when the thread is no longer a leader. *)
Definition leader_step (io_ok : bool) (p : LeaderPhase) (l : LogManager) : option LeaderPhase * LogManager :=
  let release l :=
    mkLog (next_lsn l) (ready_lsn l) (durable_lsn l) (slots l) (log_poisoned l) false (leaders l)
      (issued l) (complete l) (synced l) in
  match p with
  | Elected =>
      match check_poisoned l with
      | Ok _ => (Some (Closed (ready_lsn l)), l)
      | _ => (None, release l)
      end
  | Closed t =>
      if io_ok
      then (Some (Synced t),
            mkLog (next_lsn l) (ready_lsn l) (durable_lsn l) (slots l) (log_poisoned l) (sync_in_progress l)
              (leaders l) (issued l) (complete l) (complete l))
      else (None, poison_locked PostDurablePublishFailure None l)
  | Synced t =>
      (Some Published,
       mkLog (next_lsn l) (ready_lsn l) (Z.min t (ready_lsn l)) (slots l) (log_poisoned l) (sync_in_progress l)
         (leaders l) (issued l) (complete l) (synced l))
  | Published => (None, release l)
  end.

Definition set_leaders (ls : list LeaderPhase) (in_progress : bool) (l : LogManager) : LogManager :=
  mkLog (next_lsn l) (ready_lsn l) (durable_lsn l) (slots l) (log_poisoned l) in_progress ls
    (issued l) (complete l) (synced l).

Definition run_leader (io_ok : bool) (before : list LeaderPhase) (p : LeaderPhase) (after : list LeaderPhase)
    (l : LogManager) : LogManager :=
  let (p', l') := leader_step io_ok p l in
  set_leaders (before ++ match p' with Some q => [q] | None => [] end ++ after) (sync_in_progress l') l'.

(** [reset_to] *)
Definition reset_to (lsn : Z) (l : LogManager) : LogManager :=
  mkLog lsn lsn lsn [] None (sync_in_progress l) (leaders l) [] [] [].

(** ** Executions: any interleaving of the threads' steps *)
Inductive log_step : LogManager -> LogManager -> Prop :=
| step_reserve n l : 0 <= n -> log_step l (snd (reserve n l))
| step_write_begin slot bytes l : log_step l (snd (write_begin slot bytes l))
| step_write_end slot io l : log_step l (snd (write_end slot io l))
| step_mark_written slot l : log_step l (snd (mark_written slot l))
| step_poison_slot slot l : log_step l (snd (poison_slot slot l))
| step_elect l : sync_in_progress l = false -> log_step l (set_leaders (Elected :: leaders l) true l)
| step_leader io_ok before p after l :
    leaders l = before ++ p :: after -> log_step l (run_leader io_ok before p after l).

(** ** Invariant *)

(** The ranges [l] follow each other from [a] to [b]. *)
Fixpoint tiles (a : Z) (l : list (Z * Z)) (b : Z) : Prop :=
  match l with
  | [] => a = b
  | (s, e) :: t => a = s /\ s < e /\ tiles e t b
  end.

Definition slot_range (x : Z * LogSlotState) : Z * Z := (fst x, state_end (snd x)).

Definition finished (s : LogSlotState) : bool :=
  match s with WriteComplete _ | Written _ => true | _ => false end.

(** A leader that has closed its target, with the target it may still publish *)
Definition open_target (p : LeaderPhase) : option Z :=
  match p with Closed t | Synced t => Some t | _ => None end.

Definition past_close (p : LeaderPhase) : bool :=
  match p with Elected => false | _ => true end.

(** The slot map of an unpoisoned manager: the unconsumed end of [issued] *)
Definition slots_inv (base : Z) (l : LogManager) : Prop :=
  exists consumed,
    issued l = consumed ++ map slot_range (slots l)
    /\ tiles base consumed (ready_lsn l)
    /\ Forall (fun x => finished (snd x) = true -> In (slot_range x) (complete l)) (slots l)
    /\ (forall e, zm_get (ready_lsn l) (slots l) <> Some (Written e)).

Definition log_inv (base : Z) (l : LogManager) : Prop :=
  (base <= durable_lsn l <= ready_lsn l /\ ready_lsn l <= next_lsn l)
  /\ tiles base (issued l) (next_lsn l)
  /\ (forall r, In r (issued l) -> snd r <= ready_lsn l -> In r (complete l))
  /\ (forall r, In r (issued l) -> snd r <= durable_lsn l -> In r (synced l))
  /\ (forall p t, In p (leaders l) -> open_target p = Some t -> durable_lsn l <= t <= ready_lsn l)
  /\ (forall t, In (Synced t) (leaders l) -> forall r, In r (issued l) -> snd r <= t -> In r (synced l))
  /\ (length (List.filter past_close (leaders l)) <= 1)%nat
  /\ (log_poisoned l = None ->
      slots_inv base l /\ length (leaders l) = if sync_in_progress l then 1%nat else 0%nat).

(** ** Tilings and the slot map *)

Lemma tiles_app a l1 l2 b : tiles a (l1 ++ l2) b <-> exists m, tiles a l1 m /\ tiles m l2 b.
Proof.
  revert a; induction l1 as [|[s e] l1 IH]; intros a; simpl.
  - split; [intros H; by exists a|intros (m & -> & H); done].
  - rewrite IH. naive_solver.
Qed.

Lemma tiles_fun a l b c : tiles a l b -> tiles a l c -> b = c.
Proof. revert a; induction l as [|[s e] l IH]; intros a; simpl; [congruence|]. intros (_ & _ & H) (_ & _ & H'). eauto. Qed.

Lemma tiles_le a l b : tiles a l b -> a <= b.
Proof. revert a; induction l as [|[s e] l IH]; intros a; simpl; [lia|]. intros (-> & ? & H%IH). lia. Qed.

Lemma tiles_bounds a l b r : tiles a l b -> In r l -> a <= fst r /\ fst r < snd r /\ snd r <= b.
Proof.
  revert a; induction l as [|[s e] l IH]; intros a; simpl; [done|].
  intros (-> & ? & H) [<-|Hr]; simpl.
  - apply tiles_le in H. lia.
  - apply (IH _ H) in Hr. lia.
Qed.

(** A tiled range leaves no byte out. *)
Lemma tiles_cover a l b i : tiles a l b -> a <= i < b -> exists r, In r l /\ fst r <= i < snd r.
Proof.
  revert a; induction l as [|[s e] l IH]; intros a; simpl; [lia|].
  intros (-> & ? & H) Hi. destruct (Z_lt_le_dec i e); [exists (s, e); simpl; auto with lia|].
  destruct (IH _ H) as (r & Hr & ?); [lia|]. exists r; auto.
Qed.

Lemma tiles_disjoint a l b r1 r2 :
  tiles a l b -> In r1 l -> In r2 l -> r1 = r2 \/ snd r1 <= fst r2 \/ snd r2 <= fst r1.
Proof.
  revert a; induction l as [|[s e] l IH]; intros a; simpl; [done|]. intros (-> & ? & H).
  assert (forall r, In r l -> e <= fst r) by (intros r Hr; apply (tiles_bounds _ _ _ _ H) in Hr; lia).
  intros [<-|Hr1] [<-|Hr2]; simpl; auto. eauto.
Qed.

Definition slot_tiles (a : Z) (m : list (Z * LogSlotState)) (b : Z) : Prop := tiles a (map slot_range m) b.

Lemma slot_tiles_keys a m b : slot_tiles a m b -> Forall (fun x => a <= fst x < b) m.
Proof.
  intros H. rewrite List.Forall_forall. intros x Hx.
  apply (in_map slot_range) in Hx. apply (tiles_bounds _ _ _ _ H) in Hx. simpl in Hx. lia.
Qed.

Lemma slot_tiles_cons a s st m b :
  slot_tiles a ((s, st) :: m) b -> a = s /\ s < state_end st /\ slot_tiles (state_end st) m b.
Proof. done. Qed.

Lemma zm_get_absent {V} k (m : list (Z * V)) : Forall (fun x => fst x <> k) m -> zm_get k m = None.
Proof.
  induction 1 as [|[k' v] m Hk _ IH]; simpl in *; [done|]. destruct (Z.eqb_spec k k'); [congruence|done].
Qed.

Lemma zm_get_app_last {V} k k' v (m : list (Z * V)) :
  zm_get k (m ++ [(k', v)]) = match zm_get k m with Some w => Some w | None => if k =? k' then Some v else None end.
Proof. induction m as [|[k2 w] m IH]; simpl; [done|]. destruct (k =? k2); auto. Qed.

Lemma zm_remove_absent {V} k (m : list (Z * V)) : Forall (fun x => fst x <> k) m -> zm_remove k m = m.
Proof.
  unfold zm_remove. induction 1 as [|[k' v] m Hk _ IH]; simpl in *; [done|].
  destruct (Z.eqb_spec k' k); simpl; [congruence|by rewrite IH].
Qed.

Lemma slot_tiles_above a m b k : slot_tiles a m b -> k < a -> Forall (fun x => fst x <> k) m.
Proof. intros H%slot_tiles_keys ?. eapply List.Forall_impl; [|done]. simpl. lia. Qed.

Lemma zm_get_update {V} k k' f (m : list (Z * V)) :
  zm_get k (zm_update k' f m) = if k =? k' then option_map f (zm_get k m) else zm_get k m.
Proof.
  induction m as [|[k2 v] m IH]; simpl; [by destruct (_ =? _)|].
  destruct (Z.eqb_spec k2 k'), (Z.eqb_spec k k'), (Z.eqb_spec k k2); simpl; subst; try lia;
    rewrite ?Z.eqb_refl; auto; destruct (Z.eqb_spec k k2); auto; lia.
Qed.

(** Updating a known slot to a state with the same end keeps the ranges. *)
Lemma update_slot_range a m b k old new :
  slot_tiles a m b -> zm_get k m = Some old -> state_end new = state_end old ->
  map slot_range (zm_update k (fun _ => new) m) = map slot_range m.
Proof.
  revert a; induction m as [|[s st] m IH]; intros a; [done|].
  intros (-> & Hlt & Ht)%slot_tiles_cons Hg He. cbn [zm_get] in Hg. cbn [zm_update map fst snd].
  destruct (Z.eqb_spec k s) as [->|].
  - injection Hg as ->. rewrite Z.eqb_refl. f_equal; [by unfold slot_range; simpl; rewrite He|].
    fold (zm_update s (fun _ => new) m). f_equal.
    unfold zm_update. rewrite <- (map_id m) at 2. apply map_ext_in. intros [s' v] Hin; simpl.
    apply slot_tiles_keys in Ht. rewrite List.Forall_forall in Ht. apply Ht in Hin. simpl in Hin.
    destruct (Z.eqb_spec s' s); [lia|done].
  - destruct (Z.eqb_spec s k); [lia|]. f_equal. eauto.
Qed.

Lemma ready_walk_spec fuel a m b :
  slot_tiles a m b -> (length m <= fuel)%nat ->
  exists pre r rest, ready_walk fuel a m = (r, rest) /\ m = pre ++ rest
    /\ tiles a (map slot_range pre) r /\ Forall (fun x => finished (snd x) = true) pre
    /\ (forall e, zm_get r rest <> Some (Written e)).
Proof.
  revert a m; induction fuel as [|fuel IH]; intros a [|[s st] m] Ht Hf; simpl in Hf; try lia.
  - by exists [], a, [].
  - by exists [], a, [].
  - apply slot_tiles_cons in Ht as (-> & Hlt & Ht). cbn [ready_walk zm_get]. rewrite Z.eqb_refl.
    destruct st; try (exists [], s, ((s, st) :: m)); try (eexists [], s, _; split_and!; [done..|]; simpl; by rewrite Z.eqb_refl).
    cbn [zm_remove List.filter fst negb]. rewrite Z.eqb_refl. cbn [negb].
    fold (zm_remove s m). rewrite zm_remove_absent by (eapply slot_tiles_above; [done|simpl in *; lia]).
    destruct (IH e m Ht ltac:(lia)) as (pre & r & rest & Hw & -> & Hp & Hfin & Hr).
    exists ((s, Written e) :: pre), r, rest. split_and!; [done..|by constructor|done].
Qed.

(** ** Every step preserves the invariant *)

Lemma slots_tiled base l : log_inv base l -> log_poisoned l = None -> slot_tiles (ready_lsn l) (slots l) (next_lsn l).
Proof.
  intros (_ & Ht & _ & _ & _ & _ & _ & H) Hp. destruct (H Hp) as ((c & Hi & Hc & _) & _).
  rewrite Hi in Ht. apply tiles_app in Ht as (m & Hm & Ht). by rewrite (tiles_fun _ _ _ _ Hc Hm).
Qed.

Lemma new_log_inv base : log_inv base (new_log base).
Proof.
  unfold log_inv, new_log; simpl. split_and!; try done; try lia.
  intros _. split; [|done]. by exists [].
Qed.

Lemma poison_locked_inv base reason slot l : log_inv base l -> log_inv base (poison_locked reason slot l).
Proof.
  intros (H1 & H2 & H3 & H4 & H5 & H6 & H7 & _). unfold log_inv; simpl. split_and!; try done; try lia.
  by destruct (log_poisoned l).
Qed.

Lemma set_slots_inv base m l :
  log_inv base l -> (log_poisoned l = None -> slots_inv base (set_slots m l)) -> log_inv base (set_slots m l).
Proof.
  intros (H1 & H2 & H3 & H4 & H5 & H6 & H7 & H8) Hs. unfold log_inv; simpl. split_and!; try done; try lia.
  intros Hp. split; [auto|]. by apply H8.
Qed.

Lemma with_slot_cases {A} slot l (k : LogSlotState -> option (Result A * LogManager)) (P : LogManager -> Prop) :
  P l -> P (poison_locked PostReservationLogWriteFailure (Some slot) l) ->
  (forall s r, log_poisoned l = None -> zm_get (start_lsn slot) (slots l) = Some s -> state_end s = end_lsn slot ->
     k s = Some r -> P (snd r)) ->
  P (snd (with_slot slot l k)).
Proof.
  intros Hl Hpl Hk. unfold with_slot, check_poisoned, slot_state. destruct (log_poisoned l) eqn:Hp; [done|].
  destruct (zm_get _ _) as [s|] eqn:Hg; [|done]. destruct (Z.eqb_spec (state_end s) (end_lsn slot)); [|done].
  destruct (k s) eqn:He; [by eapply Hk|done].
Qed.

Lemma with_slot_inv {A} base slot l (k : LogSlotState -> option (Result A * LogManager)) :
  log_inv base l ->
  (forall s r, log_poisoned l = None -> zm_get (start_lsn slot) (slots l) = Some s -> state_end s = end_lsn slot ->
     k s = Some r -> log_inv base (snd r)) ->
  log_inv base (snd (with_slot slot l k)).
Proof. intros Hinv Hk. by apply with_slot_cases; [|apply poison_locked_inv|]. Qed.

(** Moving a known slot to a state other than [Written] *)
Lemma set_slot_inv base slot old new l :
  log_inv base l -> log_poisoned l = None -> zm_get (start_lsn slot) (slots l) = Some old ->
  state_end old = end_lsn slot -> state_end new = end_lsn slot -> (forall e, new <> Written e) ->
  (finished new = true -> In (start_lsn slot, end_lsn slot) (complete l)) ->
  log_inv base (set_slot slot new l).
Proof.
  intros Hinv Hp Hg Ho Hn Hw Hc. pose proof (slots_tiled _ _ Hinv Hp) as Ht.
  apply set_slots_inv; [done|]. intros _. destruct Hinv as (_ & _ & _ & _ & _ & _ & _ & H).
  destruct (H Hp) as ((c & Hi & Hb & Hf & Hr) & _). exists c; simpl. split_and!; [|done| |].
  - rewrite (update_slot_range _ _ _ _ old) by (done || congruence). done.
  - unfold zm_update. apply List.Forall_map. eapply List.Forall_impl; [|exact Hf]. intros [k v]; simpl.
    destruct (Z.eqb_spec k (start_lsn slot)) as [->|]; [|done]. simpl. unfold slot_range; simpl. by rewrite Hn.
  - intros e. rewrite zm_get_update. destruct (Z.eqb_spec (ready_lsn l) (start_lsn slot)) as [->|]; [|done].
    rewrite Hg. intros [= He]. by eapply Hw.
Qed.

Lemma reserve_inv base n l : 0 <= n -> log_inv base l -> log_inv base (snd (reserve n l)).
Proof.
  intros Hn Hinv. unfold reserve. destruct (Z.eqb_spec n 0); [done|].
  unfold check_poisoned. destruct (log_poisoned l) eqn:Hp; [done|].
  destruct (checked_add 64 (next_lsn l) n) as [fin|] eqn:Hadd; [|done].
  unfold checked_add in Hadd. destruct (_ <? _); [|done]. injection Hadd as <-.
  pose proof (slots_tiled _ _ Hinv Hp) as Ht. pose proof (slot_tiles_keys _ _ _ Ht) as Hk.
  rewrite zm_get_absent by (eapply List.Forall_impl; [|exact Hk]; simpl; lia).
  destruct Hinv as (H1 & H2 & H3 & H4 & H5 & H6 & H7 & H8). simpl. destruct (H8 Hp) as ((c & Hi & Hb & Hf & Hr) & Hl).
  assert (forall t r, t <= ready_lsn l -> In r (issued l ++ [(next_lsn l, next_lsn l + n)]) -> snd r <= t -> In r (issued l))
    as Hnew by (intros t r ? [?|[<-|[]]]%in_app_or; simpl; [done|lia]).
  unfold log_inv; simpl. split_and!; try done; try lia; eauto using Z.le_refl.
  - apply tiles_app. exists (next_lsn l). simpl. split_and!; try done. lia.
  - intros r Hin Hle. apply H4; [|done]. eapply Hnew; [|done..]. lia.
  - intros t Hin r Hr' Hle. pose proof (H5 _ _ Hin eq_refl). eapply H6; [done| |done]. eapply Hnew; [|done..]. lia.
  - intros _. split; [|done]. exists c; simpl.
    rewrite zm_insert_last by (eapply List.Forall_impl; [|exact Hk]; simpl; lia).
    rewrite map_app, app_assoc, <- Hi. split_and!; try done.
    + apply Forall_app; split; [done|]. by constructor; [|constructor].
    + intros e. rewrite zm_get_app_last. destruct (zm_get _ _) eqn:Hg; [apply Hr|]. destruct (ready_lsn l =? next_lsn l); discriminate.
Qed.

Lemma add_complete_inv base r l :
  log_inv base l ->
  log_inv base (mkLog (next_lsn l) (ready_lsn l) (durable_lsn l) (slots l) (log_poisoned l) (sync_in_progress l)
                  (leaders l) (issued l) (r :: complete l) (synced l)).
Proof.
  intros (H1 & H2 & H3 & H4 & H5 & H6 & H7 & H8). unfold log_inv; simpl. split_and!; try done; try lia; auto.
  intros Hp. destruct (H8 Hp) as ((c & Hi & Hb & Hf & Hr) & Hl). split; [|done]. exists c; simpl. split_and!; try done.
  eapply List.Forall_impl; [|exact Hf]. simpl. auto.
Qed.

Lemma write_begin_inv base slot bytes l : log_inv base l -> log_inv base (snd (write_begin slot bytes l)).
Proof.
  intros Hinv. unfold write_begin. destruct (negb _); [by apply poison_locked_inv|].
  apply with_slot_inv; [done|]. intros s r Hp Hg He Hk. destruct s; simplify_eq. by eapply set_slot_inv.
Qed.

Lemma write_end_inv base slot io l : log_inv base l -> log_inv base (snd (write_end slot io l)).
Proof.
  intros Hinv. unfold write_end. destruct io; [|by apply poison_locked_inv..].
  apply (add_complete_inv _ (start_lsn slot, end_lsn slot)) in Hinv.
  apply with_slot_inv; [done|]. intros s r Hp Hg He Hk. destruct s; simplify_eq; [|done].
  eapply set_slot_inv; try done. simpl. auto.
Qed.

Lemma mark_written_inv base slot l : log_inv base l -> log_inv base (snd (mark_written slot l)).
Proof.
  intros Hinv. apply with_slot_inv; [done|]. intros s r Hp Hg He Hk. destruct s; simplify_eq. simpl in He.
  pose proof (slots_tiled _ _ Hinv Hp) as Ht.
  pose proof (update_slot_range _ _ _ _ _ (Written (end_lsn slot)) Ht Hg (eq_sym He)) as Hm.
  destruct Hinv as (H1 & H2 & H3 & H4 & H5 & H6 & H7 & H8). destruct (H8 Hp) as ((c & Hi & Hb & Hf & Hr) & Hl).
  cbn [slots set_slot set_slots ready_lsn] in Hk. set (m := zm_update _ _ _) in *.
  assert (Hfm : Forall (fun x => finished (snd x) = true -> In (slot_range x) (complete l)) m).
  { apply zm_get_In in Hg. rewrite List.Forall_forall in Hf. subst m. unfold zm_update. apply List.Forall_map.
    apply List.Forall_forall. intros [k v] Hin; simpl. destruct (Z.eqb_spec k (start_lsn slot)) as [->|]; [|by apply (Hf _ Hin)].
    intros _. rewrite <- He. by apply (Hf _ Hg). }
  unfold slot_tiles in Ht. rewrite <- Hm in Ht.
  destruct (ready_walk_spec (length m) _ m _ Ht (Nat.le_refl _)) as (pre & ready & rest & Hw & Hsp & Htp & Hfp & Hnw).
  rewrite Hw in Hk. injection Hk as <-. simpl.
  rewrite Hsp, map_app in Ht. apply tiles_app in Ht as (mid & Htp' & Htr).
  rewrite <- (tiles_fun _ _ _ _ Htp Htp') in Htr. pose proof (tiles_le _ _ _ Htp). pose proof (tiles_le _ _ _ Htr).
  rewrite Hsp in Hfm. apply Forall_app in Hfm as [Hfpre Hfrest].
  assert (Hi' : issued l = (c ++ map slot_range pre) ++ map slot_range rest)
    by (rewrite Hi, <- Hm, Hsp, map_app; apply app_assoc).
  unfold log_inv; simpl. split_and!; try done; try lia.
  - intros r Hin Hle. rewrite Hi' in Hin. apply in_app_or in Hin as [[Hin|Hin]%in_app_or|Hin].
    + apply H3; [rewrite Hi; by apply in_or_app; left|]. apply (tiles_bounds _ _ _ _ Hb) in Hin. lia.
    + apply in_map_iff in Hin as (x & <- & Hx). rewrite List.Forall_forall in Hfp, Hfpre. auto.
    + apply (tiles_bounds _ _ _ _ Htr) in Hin. lia.
  - intros p t Hp' Ho. specialize (H5 _ _ Hp' Ho). lia.
  - intros _. split; [|done]. exists (c ++ map slot_range pre); simpl. split_and!; try done.
    apply tiles_app. eauto.
Qed.

Lemma elect_inv base l :
  log_inv base l -> sync_in_progress l = false -> log_inv base (set_leaders (Elected :: leaders l) true l).
Proof.
  intros (H1 & H2 & H3 & H4 & H5 & H6 & H7 & H8) Hs. rewrite Hs in H8. unfold log_inv; simpl.
  split_and!; try done; try lia.
  - intros p t [<-|Hp]; [done|]. eauto.
  - intros t [Ht|Ht]; [done|]. eauto.
  - intros Hp. destruct (H8 Hp) as [Hsl Hl]. split; [done|]. by rewrite Hl.
Qed.

Lemma In_replace {A} (x q p : A) before after : In x (before ++ [q] ++ after) -> x = q \/ In x (before ++ p :: after).
Proof. rewrite !in_app_iff. simpl. naive_solver. Qed.

Lemma In_removed {A} (x p : A) before after : In x (before ++ after) -> In x (before ++ p :: after).
Proof. rewrite !in_app_iff. simpl. naive_solver. Qed.

(** Beside a leader past its close, no other leader has a target. *)
Lemma single_closed before p after q :
  (length (List.filter past_close (before ++ p :: after)) <= 1)%nat -> past_close p = true ->
  In q (before ++ after) -> past_close q = false.
Proof.
  rewrite List.filter_app, length_app. simpl. intros Hl Hp Hq. rewrite Hp in Hl. simpl in Hl.
  destruct (past_close q) eqn:Hc; [|done]. apply in_app_or in Hq.
  assert (forall l, In q l -> (1 <= length (List.filter past_close l))%nat).
  { intros l Hin. assert (Hf : In q (List.filter past_close l)) by by apply List.filter_In.
    destruct (List.filter past_close l); [done|simpl; lia]. }
  destruct Hq as [Hq|Hq]; apply H in Hq; lia.
Qed.

Lemma leaders_single {A} (p : A) before after : length (before ++ p :: after) = 1%nat -> before = [] /\ after = [].
Proof. rewrite length_app; simpl. destruct before, after; simpl; try done; lia. Qed.

Lemma closed_replaced before p q after :
  past_close p = true ->
  (length (List.filter past_close (before ++ p :: after)) <= 1)%nat ->
  (length (List.filter past_close (before ++ [q] ++ after)) <= 1)%nat.
Proof.
  rewrite !List.filter_app, !length_app. simpl. intros ->. simpl. destruct (past_close q); simpl; lia.
Qed.

Lemma closed_removed before p after :
  (length (List.filter past_close (before ++ p :: after)) <= 1)%nat ->
  (length (List.filter past_close (before ++ after)) <= 1)%nat.
Proof. rewrite !List.filter_app, !length_app. simpl. destruct (past_close p); simpl; lia. Qed.

Lemma remove_leader_inv base before p after l :
  log_inv base l -> leaders l = before ++ p :: after -> log_inv base (set_leaders (before ++ after) false l).
Proof.
  intros (H1 & H2 & H3 & H4 & H5 & H6 & H7 & H8) Hl. rewrite Hl in *. unfold log_inv; simpl.
  split_and!; try done; try lia; eauto using In_removed, closed_removed.
  intros Hp. destruct (H8 Hp) as [Hs Hn]. split; [done|].
  assert (before = [] /\ after = []) as [-> ->]; [|done].
  apply (leaders_single p). rewrite Hn. rewrite length_app in Hn. simpl in Hn. destruct (sync_in_progress l); lia.
Qed.

Lemma replace_leader_inv base before p q after l :
  log_inv base l -> leaders l = before ++ p :: after -> past_close p = true \/ log_poisoned l = None ->
  (forall t, open_target q = Some t -> durable_lsn l <= t <= ready_lsn l) ->
  (forall t, q = Synced t -> forall r, In r (issued l) -> snd r <= t -> In r (synced l)) ->
  log_inv base (set_leaders (before ++ [q] ++ after) (sync_in_progress l) l).
Proof.
  intros (H1 & H2 & H3 & H4 & H5 & H6 & H7 & H8) Hl Hp Hopen Hsync. rewrite Hl in *. unfold log_inv; cbn -[app].
  split_and!; try done; try lia.
  - intros x t [->|Hx]%(In_replace _ _ p) Ho; eauto.
  - intros t [Hx|Hx]%(In_replace _ _ p); eauto.
  - destruct Hp as [Hp|Hp]; [by apply (closed_replaced _ p)|].
    destruct (H8 Hp) as [_ Hn].
    assert (before = [] /\ after = []) as [-> ->].
    { apply (leaders_single p). rewrite Hn. rewrite length_app in Hn. simpl in Hn. destruct (sync_in_progress l); lia. }
    simpl. destruct (past_close q); simpl; lia.
  - intros Hp'. destruct (H8 Hp') as [Hs Hn]. split; [done|]. rewrite <- Hn, !length_app. simpl. lia.
Qed.

Lemma synced_now_inv base l :
  log_inv base l ->
  log_inv base (mkLog (next_lsn l) (ready_lsn l) (durable_lsn l) (slots l) (log_poisoned l) (sync_in_progress l)
                  (leaders l) (issued l) (complete l) (complete l)).
Proof.
  intros (H1 & H2 & H3 & H4 & H5 & H6 & H7 & H8). unfold log_inv; simpl. split_and!; try done; try lia.
  - intros r Hr Hle. apply H3; [done|lia].
  - intros t Ht r Hr Hle. apply H3; [done|]. specialize (H5 _ _ Ht eq_refl). lia.
Qed.

Lemma publish_durable_inv base before t after l :
  log_inv base l -> leaders l = before ++ Synced t :: after ->
  log_inv base (mkLog (next_lsn l) (ready_lsn l) (Z.min t (ready_lsn l)) (slots l) (log_poisoned l)
                  (sync_in_progress l) (leaders l) (issued l) (complete l) (synced l)).
Proof.
  intros (H1 & H2 & H3 & H4 & H5 & H6 & H7 & H8) Hl.
  assert (Hin : In (Synced t) (leaders l)) by (rewrite Hl; apply in_elt).
  pose proof (H5 _ _ Hin eq_refl). unfold log_inv; simpl. split_and!; try done; try lia.
  - intros r Hr Hle. eapply H6; [done..|lia].
  - intros p u Hp Ho. pose proof (H5 _ _ Hp Ho). rewrite Hl in Hp, H7.
    apply in_elt_inv in Hp as [Hp|Hp]; [subst p; injection Ho as ->; lia|].
    apply (single_closed _ _ _ _ H7 eq_refl) in Hp. by destruct p.
Qed.

Lemma run_leader_inv base io_ok before p after l :
  log_inv base l -> leaders l = before ++ p :: after -> log_inv base (run_leader io_ok before p after l).
Proof.
  intros Hinv Hl. unfold run_leader. destruct p as [|t|t|]; cbn [leader_step].
  - unfold check_poisoned. destruct (log_poisoned l) eqn:Hp.
    + pose proof (remove_leader_inv _ before Elected after l Hinv Hl) as Hr.
      unfold set_leaders in *. by rewrite Hp in Hr.
    + apply (replace_leader_inv _ _ Elected); try done; [by right|]. intros t [= <-].
      destruct Hinv as (H1 & _). lia.
  - destruct io_ok.
    + pose proof (synced_now_inv _ _ Hinv) as Hs. eapply (replace_leader_inv _ _ (Closed t)) in Hs; [exact Hs|done|by left|..].
      * intros u [= <-]. destruct Hinv as (_ & _ & _ & _ & H5 & _). eapply H5; [rewrite Hl; apply in_elt|done].
      * intros u [= <-] r Hr Hle. destruct Hinv as (_ & _ & H3 & _ & H5 & _). apply H3; [done|].
        simpl in *. unshelve epose proof (H5 (Closed t) t _ eq_refl); [rewrite Hl; apply in_elt|lia].
    + exact (remove_leader_inv _ before (Closed t) after _ (poison_locked_inv _ PostDurablePublishFailure None _ Hinv) Hl).
  - pose proof (publish_durable_inv _ _ _ _ _ Hinv Hl) as Hs.
    by eapply (replace_leader_inv _ _ (Synced t)) in Hs; [exact Hs|done|by left|..].
  - exact (remove_leader_inv _ before Published after l Hinv Hl).
Qed.

Lemma log_step_inv base l l' : log_step l l' -> log_inv base l -> log_inv base l'.
Proof.
  destruct 1; intros Hinv.
  - by apply reserve_inv.
  - by apply write_begin_inv.
  - by apply write_end_inv.
  - by apply mark_written_inv.
  - by apply poison_locked_inv.
  - by apply elect_inv.
  - by apply run_leader_inv.
Qed.

Lemma log_reachable_inv base l : rtc log_step (new_log base) l -> log_inv base l.
Proof.
  intros H. revert l H. apply (rtc_ind_r (fun l => log_inv base l) (new_log base)); [apply new_log_inv|].
  intros y z _ Hs Hi. by eapply log_step_inv.
Qed.

(** ** Theorems *)

Lemma mark_written_frontier base slot l :
  log_inv base l ->
  next_lsn (snd (mark_written slot l)) = next_lsn l /\ durable_lsn (snd (mark_written slot l)) = durable_lsn l
  /\ ready_lsn l <= ready_lsn (snd (mark_written slot l)).
Proof.
  intros Hinv. unfold mark_written.
  apply (with_slot_cases slot l _ (fun l' => next_lsn l' = next_lsn l /\ durable_lsn l' = durable_lsn l
    /\ ready_lsn l <= ready_lsn l')); [split_and!; simpl; done || lia..|].
  intros s r Hp Hg He Hk. destruct s; simplify_eq. pose proof (slots_tiled _ _ Hinv Hp) as Ht. unfold slot_tiles in Ht.
  rewrite <- (update_slot_range _ _ _ _ _ (Written (end_lsn slot)) Ht Hg (eq_sym He)) in Ht.
  cbn [slots set_slot set_slots ready_lsn] in Hk.
  edestruct (ready_walk_spec _ _ _ _ Ht (Nat.le_refl _)) as (pre & ready & rest & Hw & _ & Htp & _).
  rewrite Hw in Hk. injection Hk as <-. simpl. apply tiles_le in Htp. split_and!; done || lia.
Qed.

(** Steps that leave the frontiers alone, or poison *)
Definition frontiers (l : LogManager) : Z * Z * Z := (next_lsn l, ready_lsn l, durable_lsn l).

Lemma write_begin_frontiers slot bytes l : frontiers (snd (write_begin slot bytes l)) = frontiers l.
Proof.
  unfold write_begin. destruct (negb _); [done|].
  apply (with_slot_cases slot l _ (fun l' => frontiers l' = frontiers l)); [done..|].
  intros s r _ _ _ Hk. by destruct s; simplify_eq.
Qed.

Lemma write_end_frontiers slot io l : frontiers (snd (write_end slot io l)) = frontiers l.
Proof.
  unfold write_end. destruct io; [|done..].
  apply (with_slot_cases slot _ _ (fun l' => frontiers l' = frontiers l)); [done..|].
  intros s r _ _ _ Hk. by destruct s; simplify_eq.
Qed.

(** The three frontiers never move back: in an execution from a new log
    manager, every step of every thread (a reservation, a write, a mark, a
    failure, a leader's close, sync or publication) keeps
    [next_lsn], [ready_lsn] and [durable_lsn] at least where they were, and
    [durable_lsn <= ready_lsn <= next_lsn]. *)
Theorem log_frontiers_monotone base l l' :
  rtc log_step (new_log base) l -> log_step l l' ->
  next_lsn l <= next_lsn l' /\ ready_lsn l <= ready_lsn l' /\ durable_lsn l <= durable_lsn l'
  /\ durable_lsn l' <= ready_lsn l' <= next_lsn l'.
Proof.
  intros Hr Hs. pose proof (log_reachable_inv _ _ Hr) as Hinv. pose proof (log_step_inv _ _ _ Hs Hinv) as Hinv'.
  enough (next_lsn l <= next_lsn l' /\ ready_lsn l <= ready_lsn l' /\ durable_lsn l <= durable_lsn l')
    by (destruct Hinv' as (? & _); lia).
  clear Hr Hinv'. destruct Hs.
  - unfold reserve, checked_add. repeat (case_match; simpl); simplify_eq; simpl; lia.
  - pose proof (write_begin_frontiers slot bytes l) as [= -> -> ->]. lia.
  - pose proof (write_end_frontiers slot io l) as [= -> -> ->]. lia.
  - pose proof (mark_written_frontier _ slot _ Hinv). lia.
  - simpl. lia.
  - simpl. lia.
  - destruct Hinv as (? & _ & _ & _ & H5 & _). unfold run_leader, leader_step, check_poisoned.
    destruct p as [|t|t|]; [destruct (log_poisoned l)|destruct io_ok|..]; cbn -[app]; try lia.
    unshelve epose proof (H5 (Synced t) _ _ eq_refl); [rewrite H; apply in_elt|]. lia.
Qed.

(** A run with two records: the second is written first, the first is then
    written, and a leader syncs both. *)
Module Demo.
Definition slot1 : LogSlot := mkLogSlot 100 103 3.
Definition slot2 : LogSlot := mkLogSlot 103 108 5.
Definition two_reserved : LogManager := snd (reserve 5 (snd (reserve 3 (new_log 100)))).
Definition write (slot : LogSlot) (bytes : list Z) (l : LogManager) : LogManager :=
  snd (mark_written slot (snd (write_end slot (Ok tt) (snd (write_begin slot bytes l))))).
Definition second_written : LogManager := write slot2 [1; 2; 3; 4; 5] two_reserved.
Definition both_written : LogManager := write slot1 [7; 8; 9] second_written.
Definition elected : LogManager := set_leaders [Elected] true both_written.
Definition synced : LogManager := run_leader true [] (Closed 108) [] (run_leader true [] Elected [] elected).
Definition published : LogManager := run_leader true [] (Synced 108) [] synced.

Lemma write_reach l0 slot bytes l : rtc log_step l0 l -> rtc log_step l0 (write slot bytes l).
Proof.
  intros H. unfold write. eapply rtc_r; [|apply step_mark_written]. eapply rtc_r; [|apply step_write_end].
  eapply rtc_r; [done|apply step_write_begin].
Defined.

Lemma two_reserved_reach : rtc log_step (new_log 100) two_reserved.
Proof. unfold two_reserved. eapply rtc_r; [eapply rtc_r; [apply rtc_refl|]|]; by apply step_reserve. Defined.

Lemma both_written_reach : rtc log_step (new_log 100) both_written.
Proof. apply write_reach, write_reach, two_reserved_reach. Defined.

Lemma synced_reach : rtc log_step (new_log 100) synced.
Proof.
  eapply rtc_r; [|by apply step_leader]. eapply rtc_r; [|by apply step_leader].
  eapply rtc_r; [apply both_written_reach|]. by apply (step_elect both_written).
Defined.

Lemma publish_step : log_step synced published.
Proof. by apply step_leader. Defined.
End Demo.

Lemma log_frontiers_monotone_witness :
  next_lsn Demo.synced <= next_lsn Demo.published /\ ready_lsn Demo.synced <= ready_lsn Demo.published
  /\ durable_lsn Demo.synced <= durable_lsn Demo.published
  /\ durable_lsn Demo.published <= ready_lsn Demo.published <= next_lsn Demo.published.
Proof. exact (log_frontiers_monotone 100 _ _ Demo.synced_reach Demo.publish_step). Defined.

(** C7: Group commit is durable: reservations never overlap, and once
    [ensure_sync] may return [Ok] for the end of a reserved record, every byte
    of the log below that end belongs to a reserved record whose positioned
    write had finished when [sync_data] was issued. *)
Theorem ensure_sync_durable base l s e :
  rtc log_step (new_log base) l -> In (s, e) (issued l) ->
  (forall r1 r2, In r1 (issued l) -> In r2 (issued l) -> r1 = r2 \/ snd r1 <= fst r2 \/ snd r2 <= fst r1)
  /\ (ensure_sync_done e l = Some (Ok tt) ->
      forall i, base <= i < e -> exists r, In r (issued l) /\ In r (synced l) /\ fst r <= i < snd r).
Proof.
  intros Hr Hin. apply log_reachable_inv in Hr as (H1 & H2 & H3 & H4 & _).
  split; [intros; by eapply tiles_disjoint|]. unfold ensure_sync_done. intros Hd i Hi.
  destruct (Z.leb_spec e (durable_lsn l)) as [Hle|]; [|by unfold check_poisoned in Hd; case_match].
  pose proof (tiles_bounds _ _ _ _ H2 Hin) as Hb. simpl in Hb.
  destruct (tiles_cover _ _ _ i H2) as (r & Hri & Hr); [lia|]. exists r. split_and!; try done; try lia.
  apply H4; [done|]. destruct (tiles_disjoint _ _ _ _ _ H2 Hri Hin) as [->|[Hd'|Hd']]; simpl in *; lia.
Qed.

Lemma ensure_sync_durable_witness :
  exists r, In r (issued Demo.published) /\ In r (synced Demo.published) /\ fst r <= 101 < snd r.
Proof.
  refine (proj2 (ensure_sync_durable 100 Demo.published 103 108 _ _) _ 101 _).
  - eapply rtc_r; [apply Demo.synced_reach|apply Demo.publish_step].
  - vm_compute. auto.
  - by vm_compute.
  - lia.
Defined.

(** C29: The ready frontier is exact: it never covers a record whose write has
    not finished, and when no reserved record is left unmarked it has reached
    the reservation frontier, in whatever order the records were written. *)
Theorem ready_frontier_exact base l :
  rtc log_step (new_log base) l -> log_poisoned l = None ->
  (forall r, In r (issued l) -> snd r <= ready_lsn l -> In r (complete l))
  /\ (Forall (fun x => exists e, snd x = Written e) (slots l) -> ready_lsn l = next_lsn l).
Proof.
  intros Hr Hp. apply log_reachable_inv in Hr. pose proof (slots_tiled _ _ Hr Hp) as Ht.
  destruct Hr as (_ & _ & H3 & _ & _ & _ & _ & H8). split; [done|]. intros Hw.
  destruct (H8 Hp) as ((c & _ & _ & _ & Hn) & _). destruct (slots l) as [|[k st] m]; [done|].
  apply slot_tiles_cons in Ht as (Hk & _ & _). apply Forall_inv in Hw as [e ?]; simpl in *. subst st.
  exfalso. apply (Hn e). by rewrite Hk, Z.eqb_refl.
Qed.

Lemma ready_frontier_exact_witness : ready_lsn Demo.both_written = next_lsn Demo.both_written.
Proof.
  refine (proj2 (ready_frontier_exact 100 Demo.both_written Demo.both_written_reach _) _); [by vm_compute|].
  vm_compute. constructor.
Defined.

(** A post-reservation failure is final: after a poisoning, no step hands
    out another range or moves the ready frontier, and the first reason stays. *)
Theorem log_poison_final reason l l' :
  log_poisoned l = Some reason -> rtc log_step l l' ->
  log_poisoned l' = Some reason /\ next_lsn l' = next_lsn l /\ ready_lsn l' = ready_lsn l.
Proof.
  intros Hp Hs. induction Hs as [|x y z Hs _ IH]; [done|].
  enough (log_poisoned y = Some reason /\ next_lsn y = next_lsn x /\ ready_lsn y = ready_lsn x) as (Hy & <- & <-)
    by auto. clear IH. destruct Hs; unfold reserve, write_begin, write_end, mark_written, with_slot, run_leader,
    leader_step, check_poisoned; simpl; rewrite ?Hp; repeat (case_match; simpl); simplify_eq; simpl; rewrite ?Hp; done.
Qed.

Lemma log_poison_final_witness :
  log_poisoned (snd (mark_written Demo.slot2 (snd (poison_slot Demo.slot1 Demo.two_reserved))))
  = Some PostReservationLogWriteFailure.
Proof.
  refine (proj1 (log_poison_final PostReservationLogWriteFailure (snd (poison_slot Demo.slot1 Demo.two_reserved)) _ _ _));
    [by vm_compute|]. eapply rtc_l; [apply step_mark_written|apply rtc_refl].
Defined.

(** A positioned write of a whole record never panics, writes inside the
    record's range only, has put every byte of the record at its offset when
    it reports success, and does report success when every [write_at] takes at
    least one byte, however short the writes are. *)
Theorem write_all_at_complete io offset data disk r disk' :
  short_writes io -> write_all_at (length data) io 0 offset data disk = (r, disk') ->
  r <> Panic /\ (forall i, i < offset \/ offset + len data <= i -> disk' i = disk i)
  /\ (r = Ok tt -> forall i, offset <= i < offset + len data -> disk' i = nth (Z.to_nat (i - offset)) data 0)
  /\ ((forall k d, d <> [] -> exists n, io k d = Wrote n /\ 0 < n) -> offset + len data < 2 ^ 64 -> r = Ok tt).
Proof.
  intros Hio Hw. pose proof (write_all_at_spec _ _ _ _ _ _ _ _ Hio (Nat.le_refl _) Hw) as (H1 & H2 & H3).
  split_and!; try done. intros Hprog Hoff.
  pose proof (write_all_at_progress io (length data) 0 offset data disk Hio Hprog Hoff (Nat.le_refl _)). by rewrite Hw in *.
Qed.

(** A device that takes two bytes of a longer buffer at a time *)
Definition two_at_a_time (_ : nat) (d : list Z) : IoResult := Wrote (Z.min 2 (len d)).

Lemma write_all_at_complete_witness :
  fst (write_all_at 3 two_at_a_time 0 100 [7; 8; 9] (fun _ => 0)) = Ok tt
  /\ snd (write_all_at 3 two_at_a_time 0 100 [7; 8; 9] (fun _ => 0)) 102 = 9.
Proof.
  destruct (write_all_at 3 two_at_a_time 0 100 [7; 8; 9] (fun _ => 0)) as [r disk'] eqn:Hw.
  assert (Hio : short_writes two_at_a_time).
  { intros k d n [= <-]. pose proof (len_nonneg d). lia. }
  destruct (write_all_at_complete two_at_a_time 100 [7; 8; 9] (fun _ => 0) r disk' Hio Hw) as (_ & _ & H3 & H4).
  assert (Hok : r = Ok tt).
  { apply H4; [|done]. intros k d Hd. exists (Z.min 2 (len d)). split; [done|]. destruct d; [done|]. rewrite len_cons.
    pose proof (len_nonneg d). lia. }
  split; [done|]. apply (H3 Hok 102). unfold len; simpl; lia.
Defined.

(** ** The wait and notify protocol of [ensure_sync]

    One follower waiting for [target] and one leader that has synced through
    it, at the granularity of their accesses to the atomics, the slots mutex
    and the condition variable; nothing poisons the log, so [check_poisoned]
    passes. *)
Module GroupCommit.

(** The follower: the head of [ensure_sync]'s loop, the [compare_exchange],
    the lock, the [while] condition, the park, a won election, the end *)
Inductive FollowerPc : Set :=
| LoopHead
| TryLead
| WantLock
| CheckLocked
| Park
| Parked
| Leads
| Returned.

(** The leader after a successful [sync_data]: its two stores and the notify *)
Inductive LeaderPc : Set :=
| StoreDurable
| StoreInProgress
| NotifyAll
| LeaderDone.

Record System : Set := mkSystem {
  durable : Z;
  in_progress : bool;
  follower_locks : bool;
  follower : FollowerPc;
  leader : LeaderPc }.

Definition follower_step (target : Z) (s : System) : option System :=
  let go locked pc := Some (mkSystem (durable s) (in_progress s) locked pc (leader s)) in
  match follower s with
  | LoopHead => go false (if target <=? durable s then Returned else TryLead)
  | TryLead =>
      if in_progress s then go false WantLock
      else Some (mkSystem (durable s) true false Leads (leader s))
  | WantLock => go true CheckLocked
  | CheckLocked => if (durable s <? target) && in_progress s then go true Park else go false LoopHead
  | Park => go false Parked
  | Parked | Leads | Returned => None
  end.

Definition leader_store_step (sync_target : Z) (s : System) : option System :=
  match leader s with
  | StoreDurable => Some (mkSystem sync_target (in_progress s) (follower_locks s) (follower s) StoreInProgress)
  | StoreInProgress => Some (mkSystem (durable s) false (follower_locks s) (follower s) NotifyAll)
  | NotifyAll =>
      Some (match follower s with
            | Parked => mkSystem (durable s) (in_progress s) true CheckLocked LeaderDone
            | pc => mkSystem (durable s) (in_progress s) (follower_locks s) pc LeaderDone
            end)
  | LeaderDone => None
  end.

Inductive step (target sync_target : Z) : System -> System -> Prop :=
| follower_moves s s' : follower_step target s = Some s' -> step target sync_target s s'
| leader_moves s s' : leader_store_step sync_target s = Some s' -> step target sync_target s s'.

(** A leader is at its stores, the follower enters the loop. *)
Definition start : System := mkSystem 0 true false LoopHead StoreDurable.

Definition stuck : System := mkSystem 10 false false Parked LeaderDone.

End GroupCommit.

(** The group-commit notification can be lost: a follower that has found
    its target not yet durable and a sync in progress, and holds the slots
    mutex but has not parked, is not woken by a leader that stores
    [durable_lsn], clears [sync_in_progress] and notifies without that mutex.
    The follower then parks although its target is durable, and neither thread
    can move again: only some later activity on the log would wake it. *)
Theorem group_commit_lost_wakeup :
  rtc (GroupCommit.step 5 10) GroupCommit.start GroupCommit.stuck
  /\ GroupCommit.follower GroupCommit.stuck = GroupCommit.Parked /\ 5 <= GroupCommit.durable GroupCommit.stuck
  /\ (forall s, ~ GroupCommit.step 5 10 GroupCommit.stuck s).
Proof.
  split_and!; [|done..|].
  - do 4 (eapply rtc_l; [by apply GroupCommit.follower_moves|]).
    do 3 (eapply rtc_l; [by apply GroupCommit.leader_moves|]).
    eapply rtc_l; [by apply GroupCommit.follower_moves|]. apply rtc_refl.
  - intros s Hs. by inversion Hs.
Qed.
