(* ===== verification/DbHeader.v ===== *)
(** * The database file header ([storage/header.rs])

    Page 0 of the database file: its serialization, the order of its checks and
    the CRC32C coverage of its checksum. *)

From S2P Require Import Prelude Bytes Timestamp Crc Page.

#[local] Open Scope Z_scope.

Definition FILE_MAGIC : list Z := [77; 81; 76; 84].
Definition FORMAT_VERSION := 1.
Definition CHECKSUM_ALGO_CRC32C := 1.
Definition HEADER_PAGE_SIZE := PAGE_SIZE_INTERNAL.
Definition CHECKSUM_FIRST_RANGE_END := 64.
Definition CHECKSUM_SECOND_RANGE_START := 76.
Definition CHECKSUM_SECOND_RANGE_END := 110.
Definition CHECKSUM_OFFSET := 64.

Record FileHeader : Set := mkFileHeader {
  magic : list Z;
  format_version : Z;
  page_size_internal : Z;
  page_size_leaf : Z;
  created_at : Z;
  last_checkpoint_ts : Ts;
  catalog_root_page : Z;
  free_list_head_4k : Z;
  free_list_head_32k : Z;
  total_page_count : Z;
  free_page_count_4k : Z;
  free_page_count_32k : Z;
  checksum_algo : Z;
  wal_salt1 : Z;
  wal_salt2 : Z;
  catalog_root_backup : Z;
  catalog_root_level : Z;
  next_namespace_id : Z;
  next_index_id : Z;
  history_store_root_page : Z;
  history_store_root_level : Z;
  checkpoint_applied_lsn : Z }.

(** [FileHeader::new] *)
Definition new (created_at wal_salt1 wal_salt2 : Z) : FileHeader :=
  mkFileHeader FILE_MAGIC FORMAT_VERSION PAGE_SIZE_INTERNAL PAGE_SIZE_LEAF created_at (mkTs 0 0)
    0 0 0 1 0 0 CHECKSUM_ALGO_CRC32C wal_salt1 wal_salt2 0 0 1 1 0 0 0.

Section Codec.
Context `{Crc32c}.

Definition compute_checksum (buf : list Z) : Result Z :=
  first ← slice buf 0 CHECKSUM_FIRST_RANGE_END;
  second ← slice buf CHECKSUM_SECOND_RANGE_START CHECKSUM_SECOND_RANGE_END;
  Ok (crc32c (first ++ second)).

Definition to_bytes (h : FileHeader) : Result (list Z) :=
  let buf := zeros HEADER_PAGE_SIZE in
  buf ← write_at buf 0 (magic h);
  buf ← write_at buf 4 (le_bytes 4 (format_version h));
  buf ← write_at buf 8 (le_bytes 4 (page_size_internal h));
  buf ← write_at buf 12 (le_bytes 4 (page_size_leaf h));
  buf ← write_at buf 16 (le_bytes 8 (created_at h));
  buf ← write_at buf 24 (ts_to_le_bytes (last_checkpoint_ts h));
  buf ← write_at buf 36 (le_bytes 4 (catalog_root_page h));
  buf ← write_at buf 40 (le_bytes 4 (free_list_head_4k h));
  buf ← write_at buf 44 (le_bytes 4 (free_list_head_32k h));
  buf ← write_at buf 48 (le_bytes 4 (total_page_count h));
  buf ← write_at buf 52 (le_bytes 4 (free_page_count_4k h));
  buf ← write_at buf 56 (le_bytes 4 (free_page_count_32k h));
  buf ← write_at buf 60 (le_bytes 4 (checksum_algo h));
  buf ← write_at buf 68 (le_bytes 4 (wal_salt1 h));
  buf ← write_at buf 72 (le_bytes 4 (wal_salt2 h));
  buf ← write_at buf 76 (le_bytes 4 (catalog_root_backup h));
  buf ← write_at buf 80 [catalog_root_level h];
  buf ← write_at buf 81 (le_bytes 8 (next_namespace_id h));
  buf ← write_at buf 89 (le_bytes 8 (next_index_id h));
  buf ← write_at buf 97 (le_bytes 4 (history_store_root_page h));
  buf ← write_at buf 101 [history_store_root_level h];
  buf ← write_at buf 102 (le_bytes 8 (checkpoint_applied_lsn h));
  checksum ← compute_checksum buf;
  write_at buf CHECKSUM_OFFSET (le_bytes 4 checksum).

Definition from_bytes (buf : list Z) : Result FileHeader :=
  magic ← slice buf 0 4;
  reject_if (negb (bool_decide (magic = FILE_MAGIC))) (CorruptDatabase "invalid magic" false);;
  format_version ← read_le buf 4 4;
  reject_if (negb (format_version =? FORMAT_VERSION)) (CorruptDatabase "unsupported format version" false);;
  page_size_internal ← read_le buf 8 4;
  page_size_leaf ← read_le buf 12 4;
  reject_if (negb (page_size_internal =? PAGE_SIZE_INTERNAL)) (CorruptDatabase "unexpected internal page size" false);;
  reject_if (negb (page_size_leaf =? PAGE_SIZE_LEAF)) (CorruptDatabase "unexpected leaf page size" false);;
  computed ← compute_checksum buf;
  stored ← read_le buf CHECKSUM_OFFSET 4;
  reject_if (negb (stored =? computed)) (CorruptDatabase "header checksum mismatch" true);;
  ts ← slice buf 24 36;
  created_at ← read_le buf 16 8;
  catalog_root_page ← read_le buf 36 4;
  free_list_head_4k ← read_le buf 40 4;
  free_list_head_32k ← read_le buf 44 4;
  total_page_count ← read_le buf 48 4;
  free_page_count_4k ← read_le buf 52 4;
  free_page_count_32k ← read_le buf 56 4;
  checksum_algo ← read_le buf 60 4;
  wal_salt1 ← read_le buf 68 4;
  wal_salt2 ← read_le buf 72 4;
  catalog_root_backup ← read_le buf 76 4;
  catalog_root_level ← index buf 80;
  next_namespace_id ← read_le buf 81 8;
  next_index_id ← read_le buf 89 8;
  history_store_root_page ← read_le buf 97 4;
  history_store_root_level ← index buf 101;
  checkpoint_applied_lsn ← read_le buf 102 8;
  Ok (mkFileHeader magic format_version page_size_internal page_size_leaf created_at (ts_from_le_bytes ts)
        catalog_root_page free_list_head_4k free_list_head_32k total_page_count free_page_count_4k
        free_page_count_32k checksum_algo wal_salt1 wal_salt2 catalog_root_backup catalog_root_level
        next_namespace_id next_index_id history_store_root_page history_store_root_level checkpoint_applied_lsn).

End Codec.

Definition validate (h : FileHeader) : Result unit :=
  reject_if (negb (bool_decide (magic h = FILE_MAGIC))) (Internal "magic mismatch after parse");;
  reject_if (negb (checksum_algo h =? CHECKSUM_ALGO_CRC32C)) (CorruptDatabase "unknown checksum algorithm" false);;
  reject_if (total_page_count h =? 0) (CorruptDatabase "total_page_count is zero" false).

(** The fields fit their widths, and the constants are this build's. *)
Definition header_wf (h : FileHeader) : Prop :=
  magic h = FILE_MAGIC /\ format_version h = FORMAT_VERSION /\ page_size_internal h = PAGE_SIZE_INTERNAL /\
  page_size_leaf h = PAGE_SIZE_LEAF /\ is_u64 (created_at h) /\ ts_wf (last_checkpoint_ts h) /\
  Forall is_u32 [catalog_root_page h; free_list_head_4k h; free_list_head_32k h; total_page_count h;
    free_page_count_4k h; free_page_count_32k h; checksum_algo h; wal_salt1 h; wal_salt2 h;
    catalog_root_backup h; history_store_root_page h] /\
  is_u8 (catalog_root_level h) /\ is_u8 (history_store_root_level h) /\
  Forall is_u64 [next_namespace_id h; next_index_id h; checkpoint_applied_lsn h].

(** Bytes 0–63 and 68–109 of a serialized header *)
Definition first_part (h : FileHeader) : list Z :=
  ((((((((((((magic h ++ le_bytes 4 (format_version h)) ++ le_bytes 4 (page_size_internal h)) ++
    le_bytes 4 (page_size_leaf h)) ++ le_bytes 8 (created_at h)) ++ ts_to_le_bytes (last_checkpoint_ts h)) ++
    le_bytes 4 (catalog_root_page h)) ++ le_bytes 4 (free_list_head_4k h)) ++ le_bytes 4 (free_list_head_32k h)) ++
    le_bytes 4 (total_page_count h)) ++ le_bytes 4 (free_page_count_4k h)) ++ le_bytes 4 (free_page_count_32k h)) ++
    le_bytes 4 (checksum_algo h)).

Definition second_part (h : FileHeader) : list Z :=
  (((((((le_bytes 4 (wal_salt1 h) ++ le_bytes 4 (wal_salt2 h)) ++ le_bytes 4 (catalog_root_backup h)) ++
    [catalog_root_level h]) ++ le_bytes 8 (next_namespace_id h)) ++ le_bytes 8 (next_index_id h)) ++
    le_bytes 4 (history_store_root_page h)) ++ [history_store_root_level h]) ++ le_bytes 8 (checkpoint_applied_lsn h).

Lemma len_FILE_MAGIC : len FILE_MAGIC = 4.
Proof. reflexivity. Qed.
#[local] Hint Rewrite len_FILE_MAGIC : len.

Section Proofs.
Context `{Crc32c}.

Definition checksum_of (h : FileHeader) : Z := crc32c (first_part h ++ get (second_part h) 8 34).

Lemma len_first_part h : len (magic h) = 4 -> len (first_part h) = 64.
Proof. intros Hm. unfold first_part. autorewrite with len. rewrite Hm. simpl Z.of_nat. lia. Qed.

Lemma len_second_part h : len (second_part h) = 42.
Proof. unfold second_part. autorewrite with len. reflexivity. Qed.

Lemma compute_checksum_holds buf h :
  len (magic h) = 4 -> holds buf 0 (first_part h) -> holds buf 68 (second_part h) ->
  compute_checksum buf = Ok (checksum_of h).
Proof.
  intros Hm H1 H2. unfold compute_checksum, CHECKSUM_FIRST_RANGE_END, CHECKSUM_SECOND_RANGE_START, CHECKSUM_SECOND_RANGE_END.
  rewrite (slice_part _ _ _ _ H1), bind_Ok by (by rewrite len_first_part).
  by rewrite (slice_holds _ _ _ _ _ H2) by (rewrite ?len_second_part; lia).
Qed.

Lemma len_page : len (zeros HEADER_PAGE_SIZE) = 4096.
Proof. by rewrite len_zeros. Qed.

(** The writes before the checksum are two regions. *)
Lemma db_to_bytes_eq h :
  len (magic h) = 4 ->
  to_bytes h = Ok (put (put (put (zeros HEADER_PAGE_SIZE) 0 (first_part h)) 68 (second_part h)) 64
                     (le_bytes 4 (checksum_of h))).
Proof.
  intros Hm. unfold to_bytes. cbv zeta. pose proof len_page as Hp. revert Hp.
  generalize (zeros HEADER_PAGE_SIZE). intros page Hp.
  pose proof (len_first_part h Hm). pose proof (len_second_part h). pose proof (len_le_bytes 4 (checksum_of h)).
  set (b1 := put page 0 (first_part h)). assert (Hb1 : len b1 = 4096) by (unfold b1; rewrite len_put; lia).
  set (b2 := put b1 68 (second_part h)). assert (Hb2 : len b2 = 4096) by (unfold b2; rewrite len_put; lia).
  write_chain. change (compute_checksum _) with (compute_checksum b2).
  rewrite (compute_checksum_holds b2 h), bind_Ok; [|done|..].
  - change (write_at b2 64 (le_bytes 4 (checksum_of h)) = Ok (put b2 64 (le_bytes 4 (checksum_of h)))).
    by rewrite write_at_Ok by lia.
  - apply holds_put_other; [apply holds_put|..]; lia.
  - apply holds_put; lia.
Qed.

Lemma to_bytes_regions h :
  len (magic h) = 4 ->
  exists buf, to_bytes h = Ok buf /\ len buf = HEADER_PAGE_SIZE /\ holds buf 0 (first_part h) /\ holds buf 64 (le_bytes 4 (checksum_of h))
  /\ holds buf 68 (second_part h).
Proof.
  intros Hm. eexists; split; [by apply db_to_bytes_eq|]. pose proof len_page as Hp. revert Hp.
  change HEADER_PAGE_SIZE with 4096. generalize (zeros 4096). intros page Hp.
  pose proof (len_first_part h Hm). pose proof (len_second_part h).
  pose proof (len_le_bytes 4 (checksum_of h)) as Hc. change (Z.of_nat 4) with 4 in Hc.
  set (b1 := put page 0 (first_part h)). assert (Hb1 : len b1 = 4096) by (unfold b1; rewrite len_put; lia).
  set (b2 := put b1 68 (second_part h)). assert (Hb2 : len b2 = 4096) by (unfold b2; rewrite len_put; lia).
  split_and!; [rewrite len_put; lia|..].
  - apply holds_put_other; [apply holds_put_other; [apply holds_put|..]|..]; lia.
  - apply holds_put; lia.
  - apply holds_put_other; [apply holds_put|..]; lia.
Qed.

Lemma from_bytes_regions h buf :
  header_wf h -> holds buf 0 (first_part h) -> holds buf 64 (le_bytes 4 (checksum_of h)) ->
  holds buf 68 (second_part h) -> from_bytes buf = Ok h.
Proof.
  intros (Hm & Hv & Hpi & Hpl & Hca & Hts & Hu32 & Hu8 & Hu8' & Hu64) H1 Hc H2.
  assert (Hm4 : len (magic h) = 4) by (by rewrite Hm).
  unfold from_bytes. rewrite (compute_checksum_holds buf h) by done.
  rewrite (read_le_part _ _ _ _ _ Hc) by (done || apply crc32c_u32). clear Hc.
  unfold first_part in H1. unfold second_part in H2.
  destruct h as [mg fv pi pl ca ts cr f4 f32 tp c4 c32 al s1 s2 cb cl nn ni hr hl la].
  cbn [magic format_version page_size_internal page_size_leaf created_at last_checkpoint_ts catalog_root_page
    free_list_head_4k free_list_head_32k total_page_count free_page_count_4k free_page_count_32k checksum_algo
    wal_salt1 wal_salt2 catalog_root_backup catalog_root_level next_namespace_id next_index_id
    history_store_root_page history_store_root_level checkpoint_applied_lsn] in *. subst mg fv pi pl.
  repeat match goal with Hf : Forall _ (_ :: _) |- _ => apply Forall_cons in Hf as [? Hf] end.
  split_fields.
  assert (is_u32 FORMAT_VERSION /\ is_u32 PAGE_SIZE_INTERNAL /\ is_u32 PAGE_SIZE_LEAF) as (? & ? & ?) by done.
  repeat (read_field; rewrite ?bool_decide_eq_true_2 by done; rewrite ?Z.eqb_refl; simpl negb; rewrite ?reject_if_false, ?bind_Ok).
  by rewrite ts_le_roundtrip.
Qed.

Lemma no_panic_compute_checksum buf : len buf = HEADER_PAGE_SIZE -> no_panic (compute_checksum buf).
Proof.
  unfold compute_checksum, HEADER_PAGE_SIZE, PAGE_SIZE_INTERNAL, CHECKSUM_FIRST_RANGE_END,
    CHECKSUM_SECOND_RANGE_START, CHECKSUM_SECOND_RANGE_END. intros. panic_free.
Qed.

Lemma from_bytes_no_panic buf : len buf = HEADER_PAGE_SIZE -> no_panic (from_bytes buf).
Proof.
  intros Hl. pose proof (no_panic_compute_checksum _ Hl). unfold HEADER_PAGE_SIZE, PAGE_SIZE_INTERNAL in Hl.
  unfold from_bytes, CHECKSUM_OFFSET. repeat first [apply no_panic_bind; [done|intros ? _] | apply no_panic_reject; intros _ | progress panic_free].
Qed.

Lemma from_bytes_inv page h :
  from_bytes page = Ok h ->
  magic h = FILE_MAGIC /\ format_version h = FORMAT_VERSION
  /\ page_size_internal h = PAGE_SIZE_INTERNAL /\ page_size_leaf h = PAGE_SIZE_LEAF
  /\ from_le (get page 64 4) = crc32c (get page 0 64 ++ get page 76 34).
Proof.
  unfold from_bytes, compute_checksum. intros Hp.
  bind_inv Hp. injection Hp as <-. bind_inv Hx7. injection Hx7 as <-.
  repeat match goal with Hr : reject_if _ _ = Ok _ |- _ => apply reject_if_Ok, negb_false_iff in Hr end.
  apply bool_decide_eq_true_1 in Hx0. rewrite Z.eqb_eq in *.
  apply read_le_inv in Hx8 as (_ & _ & _ & ->). apply slice_inv in Hx28 as (_ & _ & _ & ->), Hx29 as (_ & _ & _ & ->).
  by split_and!.
Qed.

(** C35: The database header survives a write and a read: a header whose fields
    fit their widths serializes to one whole page that parses back to it, with
    the checksum it carries accepted.  On an arbitrary page 0, parsing returns
    a header or an error and never panics, and it accepts only a page with
    this build's magic, version and page sizes whose stored checksum is the
    CRC32C of bytes 0-63 and 76-109. *)
Theorem file_header_roundtrip h :
  header_wf h ->
  (exists buf, to_bytes h = Ok buf /\ len buf = HEADER_PAGE_SIZE /\ from_bytes buf = Ok h)
  /\ (forall page, len page = HEADER_PAGE_SIZE ->
        no_panic (from_bytes page)
        /\ forall h', from_bytes page = Ok h' ->
             magic h' = FILE_MAGIC /\ format_version h' = FORMAT_VERSION
             /\ page_size_internal h' = PAGE_SIZE_INTERNAL /\ page_size_leaf h' = PAGE_SIZE_LEAF
             /\ from_le (get page 64 4) = crc32c (get page 0 64 ++ get page 76 34)).
Proof.
  intros Hw. split.
  - destruct (to_bytes_regions h) as (buf & Hb & Hl & H1 & Hc & H2); [by rewrite (proj1 Hw)|].
    exists buf. split_and!; [done..|]. by apply from_bytes_regions.
  - intros page Hl. split; [by apply from_bytes_no_panic|]. intros h'. by apply from_bytes_inv.
Qed.

End Proofs.

Lemma file_header_roundtrip_witness :
  exists buf, @to_bytes Bitwise.crc32c_bitwise (new 1700000000000 17 23) = Ok buf /\ len buf = HEADER_PAGE_SIZE
    /\ @from_bytes Bitwise.crc32c_bitwise buf = Ok (new 1700000000000 17 23).
Proof.
  refine (proj1 (@file_header_roundtrip Bitwise.crc32c_bitwise (new 1700000000000 17 23) _)).
  split_and!; try done; repeat (apply List.Forall_cons; [done|]); apply List.Forall_nil.
Defined.
