(* ===== verification/Parser.v ===== *)
(** * Cursor parsers

    The decoders of the journal walk a buffer with an in/out cursor and return
    [Result<Option<T>>]: [Ok(None)] when the buffer ends early.  This file has
    the monad of such walks and two laws that compose: [parses] (a parser reads
    back what an encoder wrote, wherever it lies in a buffer) and [prints] (what
    a parser accepts is exactly the encoding of what it returns). *)

From S2P Require Import Prelude Bytes.

#[local] Open Scope Z_scope.

(** A parser takes the buffer and the cursor, and returns the value and the
    cursor behind it. *)
Definition parser (A : Type) : Type := list Z -> Z -> Result (option (A * Z)).

Definition pret {A} (a : A) : parser A := fun _ c => Ok (Some (a, c)).

Definition pbind {A B} (p : parser A) (k : A -> parser B) : parser B :=
  fun body c =>
    match p body c with
    | Ok (Some (a, c')) => k a body c'
    | Ok None => Ok None
    | Err e => Err e
    | Panic => Panic
    end.

(** [let Some(x) = p else { return Ok(None) }] *)
Declare Scope parser_scope.
Delimit Scope parser_scope with parser.
Notation "x <-- p ;; k" := (pbind p (fun x => k))
  (at level 100, p at next level, right associativity) : parser_scope.

(** The test for the early end of a buffer: fewer than [n] bytes remain *)
Definition remaining_lt (body : list Z) (cursor n : Z) : bool := saturating_sub (len body) cursor <? n.

(** ** Reading back *)

Definition parses {A} (p : parser A) (bytes : list Z) (a : A) : Prop :=
  forall body c, holds body c bytes -> p body c = Ok (Some (a, c + len bytes)).

Lemma parses_ret {A} (a : A) : parses (pret a) [] a.
Proof. intros body c _. unfold pret. by rewrite len_nil, Z.add_0_r. Qed.

Lemma parses_bind {A B} (p : parser A) (k : A -> parser B) b1 b2 a b :
  parses p b1 a -> parses (k a) b2 b -> parses (pbind p k) (b1 ++ b2) b.
Proof.
  intros Hp Hk body c [H1 H2]%holds_app. unfold pbind. rewrite (Hp _ _ H1), (Hk _ _ H2), len_app.
  do 3 f_equal. lia.
Qed.

Lemma parses_map {A B} (p : parser A) (f : A -> B) b a :
  parses p b a -> parses (pbind p (fun x => pret (f x))) b (f a).
Proof. intros Hp. rewrite <- (app_nil_r b). eapply parses_bind; [done|apply parses_ret]. Qed.

Lemma remaining_ge body c n bytes : holds body c bytes -> n <= len bytes -> remaining_lt body c n = false.
Proof. intros (? & ? & _) ?. unfold remaining_lt, saturating_sub. apply Z.ltb_ge. lia. Qed.

(** ** Accepting only encodings *)

(** What [p] consumes when it returns [a] is the encoding [enc a], and [a]
    satisfies [P]. *)
Definition prints {A} (p : parser A) (enc : A -> list Z) (P : A -> Prop) (body : list Z) : Prop :=
  forall c a c', 0 <= c <= len body -> p body c = Ok (Some (a, c')) ->
    c <= c' <= len body /\ get body c (c' - c) = enc a /\ P a.

Lemma pret_inv {A} (a : A) body c b c' : pret a body c = Ok (Some (b, c')) -> b = a /\ c' = c.
Proof. by intros [= <- <-]. Qed.

Lemma pbind_inv {A B} (p : parser A) (k : A -> parser B) body c b c' :
  pbind p k body c = Ok (Some (b, c')) ->
  exists a c1, p body c = Ok (Some (a, c1)) /\ k a body c1 = Ok (Some (b, c')).
Proof. unfold pbind. destruct (p body c) as [[[a c1]|]| |]; try done. intros H. by exists a, c1. Qed.

Lemma get_join {A} (l : list A) c c1 c2 :
  0 <= c <= c1 -> c1 <= c2 -> get l c (c1 - c) ++ get l c1 (c2 - c1) = get l c (c2 - c).
Proof.
  intros. replace (c2 - c) with ((c1 - c) + (c2 - c1)) by lia. rewrite get_split by lia.
  do 2 f_equal. lia.
Qed.

(** Opens a successful walk into its steps, with the bytes each consumed. *)
Ltac walk_inv H :=
  repeat match type of H with
  | pbind _ _ _ _ = Ok (Some _) =>
      let a := fresh "a" in let c := fresh "c" in let Hp := fresh "Hp" in
      apply pbind_inv in H as (a & c & Hp & H)
  | pret _ _ _ = Ok (Some _) => apply pret_inv in H as [? ?]
  end.

(** ** Panic freedom *)

(** Started inside the buffer, [p] does not panic, fails only with errors in
    [E] and leaves the cursor inside the buffer. *)
Definition parser_safe {A} (E : Error -> Prop) (p : parser A) (body : list Z) : Prop :=
  forall c, 0 <= c <= len body ->
    match p body c with
    | Ok (Some (_, c')) => c <= c' <= len body
    | Ok None => True
    | Err e => E e
    | Panic => False
    end.

Lemma parser_safe_ret {A} E (a : A) body : parser_safe E (pret a) body.
Proof. intros c Hc. simpl. lia. Qed.

Lemma parser_safe_bind {A B} E (p : parser A) (k : A -> parser B) body :
  parser_safe E p body -> (forall a, parser_safe E (k a) body) -> parser_safe E (pbind p k) body.
Proof.
  intros Hp Hk c Hc. unfold pbind. specialize (Hp c Hc). destruct (p body c) as [[[a c1]|]| |]; try done.
  specialize (Hk a c1 ltac:(lia)). destruct (k a body c1) as [[[b c2]|]| |]; try done. lia.
Qed.

Create HintDb parsers.
#[export] Hint Resolve parser_safe_ret parser_safe_bind : parsers.

(** ** Buffers cut short *)

Lemma holds_take {A} (l : list A) base h k : holds l base h -> base + len h <= Z.of_nat k -> holds (take k l) base h.
Proof.
  intros (Hb & Hl & Hg) Hk. pose proof (len_nonneg h). split_and!; [done| |].
  - unfold len in *. rewrite length_take. lia.
  - etransitivity; [|exact Hg]. unfold get. rewrite skipn_firstn_comm, take_take. f_equal. lia.
Qed.
