(* ===== verification/JournalHeader.v ===== *)
(** * The journal header ([journal/wire/header.rs])

    The 32-byte prefix of the journal file. *)

From S2P Require Import Prelude Bytes Crc Page.

#[local] Open Scope Z_scope.

Definition JOURNAL_MAGIC : list Z := [77; 81; 74; 76].
Definition JOURNAL_FORMAT_VERSION := 3.
Definition JOURNAL_HEADER_SIZE := 32.

Record JournalHeader : Set := mkJournalHeader {
  magic : list Z;
  format_version : Z;
  page_size_internal : Z;
  page_size_leaf : Z;
  salt1 : Z;
  salt2 : Z;
  checkpoint_seq : Z }.

Definition new (salt1 salt2 : Z) : JournalHeader :=
  mkJournalHeader JOURNAL_MAGIC JOURNAL_FORMAT_VERSION PAGE_SIZE_INTERNAL PAGE_SIZE_LEAF salt1 salt2 0.

Section Codec.
Context `{Crc32c}.

Definition to_bytes (h : JournalHeader) : Result (list Z) :=
  let buf := zeros JOURNAL_HEADER_SIZE in
  buf ← write_at buf 0 (magic h);
  buf ← write_at buf 4 (le_bytes 4 (format_version h));
  buf ← write_at buf 8 (le_bytes 4 (page_size_internal h));
  buf ← write_at buf 12 (le_bytes 4 (page_size_leaf h));
  buf ← write_at buf 16 (le_bytes 4 (salt1 h));
  buf ← write_at buf 20 (le_bytes 4 (salt2 h));
  buf ← write_at buf 24 (le_bytes 4 (checkpoint_seq h));
  covered ← slice buf 0 28;
  write_at buf 28 (le_bytes 4 (crc32c covered)).

Definition from_bytes (buf : list Z) : Result JournalHeader :=
  magic ← slice buf 0 4;
  reject_if (negb (bool_decide (magic = JOURNAL_MAGIC))) (UnsupportedJournalFormat magic);;
  format_version ← read_le buf 4 4;
  reject_if (negb (format_version =? JOURNAL_FORMAT_VERSION)) (UnsupportedJournalFormat magic);;
  stored_checksum ← read_le buf 28 4;
  covered ← slice buf 0 28;
  reject_if (negb (stored_checksum =? crc32c covered)) (CorruptDatabase "journal header checksum mismatch" true);;
  page_size_internal ← read_le buf 8 4;
  page_size_leaf ← read_le buf 12 4;
  salt1 ← read_le buf 16 4;
  salt2 ← read_le buf 20 4;
  checkpoint_seq ← read_le buf 24 4;
  Ok (mkJournalHeader magic format_version page_size_internal page_size_leaf salt1 salt2 checkpoint_seq).

Definition header_wf (h : JournalHeader) : Prop :=
  magic h = JOURNAL_MAGIC /\ format_version h = JOURNAL_FORMAT_VERSION /\
  Forall is_u32 [page_size_internal h; page_size_leaf h; salt1 h; salt2 h; checkpoint_seq h].

Definition covered (h : JournalHeader) : list Z :=
  ((((((magic h ++ le_bytes 4 (format_version h)) ++ le_bytes 4 (page_size_internal h)) ++
    le_bytes 4 (page_size_leaf h)) ++ le_bytes 4 (salt1 h)) ++ le_bytes 4 (salt2 h)) ++ le_bytes 4 (checkpoint_seq h)).

Lemma len_JOURNAL_MAGIC : len JOURNAL_MAGIC = 4.
Proof. reflexivity. Qed.
#[local] Hint Rewrite len_JOURNAL_MAGIC : len.

Lemma len_covered h : len (magic h) = 4 -> len (covered h) = 28.
Proof. intros Hm. unfold covered. autorewrite with len. rewrite Hm. reflexivity. Qed.

Lemma journal_to_bytes_eq h :
  len (magic h) = 4 -> to_bytes h = Ok (put (zeros JOURNAL_HEADER_SIZE) 0 (covered h ++ le_bytes 4 (crc32c (covered h)))).
Proof.
  intros Hm. unfold to_bytes. cbv zeta. assert (Hp : len (zeros JOURNAL_HEADER_SIZE) = 32) by done. revert Hp.
  generalize (zeros JOURNAL_HEADER_SIZE). intros page Hp. pose proof (len_covered h Hm) as Hc.
  write_chain. change (slice _ 0 28) with (slice (put page 0 (covered h)) 0 28).
  rewrite (slice_part _ 0 (covered h)), bind_Ok by (done || (apply holds_put; lia)).
  by rewrite write_at_next by (fold (covered h); rewrite ?len_le_bytes; lia).
Qed.

Lemma from_bytes_holds h buf :
  header_wf h -> holds buf 0 (covered h ++ le_bytes 4 (crc32c (covered h))) -> from_bytes buf = Ok h.
Proof.
  intros (Hm & Hv & Hu) Hh. assert (Hm4 : len (magic h) = 4) by (by rewrite Hm).
  pose proof (len_covered h Hm4) as Hc. pose proof (crc32c_u32 (covered h)) as Hcrc.
  apply holds_app in Hh as [H1 H2]. unfold from_bytes.
  rewrite (slice_field _ _ 0 28 _ H1) by lia. rewrite (read_le_field _ _ 28 _ _ 4 H2) by (done || lia).
  clear H2. destruct h as [mg fv pi pl s1 s2 sq].
  unfold covered in H1. cbn [magic format_version page_size_internal page_size_leaf salt1 salt2 checkpoint_seq] in *.
  subst mg fv. repeat match goal with Hf : Forall _ (_ :: _) |- _ => apply Forall_cons in Hf as [? Hf] end.
  split_fields. assert (is_u32 JOURNAL_FORMAT_VERSION) by done.
  repeat (read_field; rewrite ?bool_decide_eq_true_2 by done; rewrite ?Z.eqb_refl; simpl negb; rewrite ?reject_if_false, ?bind_Ok).
  done.
Qed.

Lemma from_bytes_canonical h buf :
  bytes_ok buf -> len buf = JOURNAL_HEADER_SIZE -> from_bytes buf = Ok h -> to_bytes h = Ok buf.
Proof.
  intros Hok Hl Hp. unfold from_bytes in Hp. bind_inv Hp. injection Hp as <-.
  repeat match goal with Hr : reject_if _ _ = Ok _ |- _ => apply reject_if_Ok, negb_false_iff in Hr end.
  apply bool_decide_eq_true_1 in Hx0. rewrite Z.eqb_eq in *.
  repeat match goal with
  | Hr : read_le _ _ _ = Ok _ |- _ => apply read_le_inv in Hr as (_ & _ & _ & Hr)
  | Hr : slice _ _ _ = Ok _ |- _ => apply slice_inv in Hr as (_ & _ & _ & Hr)
  end.
  unfold JOURNAL_HEADER_SIZE in Hl.
  assert (Hle : forall off, 0 <= off -> off + 4 <= 32 -> le_bytes 4 (from_le (get buf off 4)) = get buf off 4).
  { intros off ??. apply le_bytes_from_le; [by apply bytes_ok_get|]. pose proof (len_get buf off 4). unfold len in *. lia. }
  assert (Hcov : covered (mkJournalHeader x x1 x6 x7 x8 x9 x10) = get buf 0 28).
  { unfold covered; cbn [magic format_version page_size_internal page_size_leaf salt1 salt2 checkpoint_seq].
    rewrite Hx, Hx1, Hx6, Hx7, Hx8, Hx9, Hx10, !Hle by lia. change 28 with (4 + 4 + 4 + 4 + 4 + 4 + 4).
    by rewrite !get_split by lia. }
  rewrite journal_to_bytes_eq; [|simpl; rewrite Hx, len_get; lia]. rewrite Hcov. f_equal.
  change (28 - 0) with 28 in Hx4. rewrite <- Hx4, <- Hx5, Hx3, Hx4, Hle by lia.
  change (get buf 28 4) with (get buf (0 + 28) 4). rewrite <- (get_split buf 0 28 4) by lia.
  rewrite (get_all buf (28 + 4)) by lia.
  unfold put. rewrite drop_ge, app_nil_r; [done|]. unfold len in Hl. change (length (zeros JOURNAL_HEADER_SIZE)) with 32%nat. lia.
Qed.

(** The journal header codec is exact: serializing a header and parsing
    it returns the header, and a 32-byte prefix that parses is, byte for byte,
    the serialization of what it parses to.  Parsing never panics. *)
Theorem journal_header_roundtrip h :
  header_wf h ->
  (exists buf, to_bytes h = Ok buf /\ len buf = JOURNAL_HEADER_SIZE /\ from_bytes buf = Ok h)
  /\ (forall buf, bytes_ok buf -> len buf = JOURNAL_HEADER_SIZE ->
        no_panic (from_bytes buf) /\ forall h', from_bytes buf = Ok h' -> to_bytes h' = Ok buf).
Proof.
  intros Hw. assert (Hm : len (magic h) = 4) by (by rewrite (proj1 Hw)).
  pose proof (len_covered h Hm) as Hc. assert (Hp : len (zeros JOURNAL_HEADER_SIZE) = 32) by done. split.
  - eexists. split; [by apply journal_to_bytes_eq|].
    assert (Hl : len (covered h ++ le_bytes 4 (crc32c (covered h))) = 32) by (rewrite len_app, len_le_bytes; lia).
    split; [by rewrite len_put by lia|]. apply from_bytes_holds; [done|]. apply holds_put; lia.
  - intros buf Hok Hl. split; [|by intros; apply from_bytes_canonical].
    unfold JOURNAL_HEADER_SIZE in Hl. unfold from_bytes. panic_free.
Qed.
End Codec.

Lemma journal_header_roundtrip_witness :
  exists buf, @to_bytes Bitwise.crc32c_bitwise (new 17 23) = Ok buf /\ len buf = JOURNAL_HEADER_SIZE
    /\ @from_bytes Bitwise.crc32c_bitwise buf = Ok (new 17 23).
Proof.
  refine (proj1 (@journal_header_roundtrip Bitwise.crc32c_bitwise (new 17 23) _)).
  split_and!; try done; repeat (apply List.Forall_cons; [done|]); apply List.Forall_nil.
Defined.
