(* ===== verification/LogRecord.v ===== *)
(** * Log records ([journal/wire/record.rs], [journal/wire/mod.rs])

    The outer record of the redo log: kinds, flags and payloads, the draft whose
    length is known before its LSN range is reserved, its finalization to bytes,
    and the classified decoder that tells a torn tail from content corruption. *)

From S2P Require Import Prelude Bytes Timestamp Crc.

#[local] Open Scope Z_scope.

Definition LOG_RECORD_MAGIC := 0x384C514D.
Definition LOG_RECORD_FORMAT_VERSION := 1.
Definition LOG_RECORD_HEADER_LEN := 72.
Definition MAX_LOG_RECORD_BYTES := 64 * 1024 * 1024.
Definition LOG_RECORD_HEADER_CRC32C_OFFSET := 64.
Definition LOG_RECORD_KNOWN_FLAGS := 0x1F.

Definition invalid_log_record (detail : string) : Error := CorruptDatabase detail true.

Definition log_record_too_large (total_len : Z) : Error := JournalFrameTooLarge total_len MAX_LOG_RECORD_BYTES.

Definition len_to_u16 (n : Z) : Result Z :=
  if n <? 2 ^ 16 then Ok n else Err (invalid_log_record "Phase 8 LogRecord length exceeds u16").

Definition len_to_u32 (n : Z) : Result Z :=
  if n <? 2 ^ 32 then Ok n else Err (invalid_log_record "Phase 8 LogRecord length exceeds u32").

(** ** Kinds, flags and payloads *)

Inductive LogRecordKind : Set :=
| CrudCommit
| CatalogCommit
| CheckpointBoundary
| CheckpointPageFrame.

#[export] Instance LogRecordKind_eq_dec : EqDecision LogRecordKind.
Proof. solve_decision. Defined.

Definition from_wire (value : Z) : Result LogRecordKind :=
  if value =? 1 then Ok CrudCommit
  else if value =? 2 then Ok CatalogCommit
  else if value =? 3 then Ok CheckpointBoundary
  else if value =? 4 then Ok CheckpointPageFrame
  else Err (invalid_log_record "Phase 8 LogRecord unknown record_kind").

Definition wire_value (k : LogRecordKind) : Z :=
  match k with CrudCommit => 1 | CatalogCommit => 2 | CheckpointBoundary => 3 | CheckpointPageFrame => 4 end.

Definition required_flags (k : LogRecordKind) : Z :=
  match k with
  | CrudCommit => Z.lor 0x0001 0x0002
  | CatalogCommit => 0x0004
  | CheckpointBoundary => 0x0008
  | CheckpointPageFrame => 0x0010
  end.

Definition reject_unknown_bits (flags : Z) : Result unit :=
  reject_if (negb (Z.land flags (bit_not 16 LOG_RECORD_KNOWN_FLAGS) =? 0))
    (invalid_log_record "Phase 8 LogRecord unknown flag bits").

Definition from_bits (bits : Z) : Result Z := reject_unknown_bits bits;; Ok bits.

Definition validate_for_kind (flags : Z) (k : LogRecordKind) : Result unit :=
  reject_unknown_bits flags;;
  reject_if (negb (flags =? required_flags k)) (invalid_log_record "Phase 8 LogRecord invalid flags").

Inductive LogRecordPayload : Set :=
| PCrudCommit (logical_payload chain_payload : list Z)
| PCatalogCommit (payload : list Z)
| PCheckpointBoundary (payload : list Z)
| PCheckpointPageFrame (payload : list Z).

Definition payload_kind (p : LogRecordPayload) : LogRecordKind :=
  match p with
  | PCrudCommit _ _ => CrudCommit
  | PCatalogCommit _ => CatalogCommit
  | PCheckpointBoundary _ => CheckpointBoundary
  | PCheckpointPageFrame _ => CheckpointPageFrame
  end.

Definition payload_encoded_len (p : LogRecordPayload) : Result Z :=
  match p with
  | PCrudCommit l c =>
      n ← ok_or (checked_add 64 8 (len l)) (log_record_too_large u64_max);
      ok_or (checked_add 64 n (len c)) (log_record_too_large u64_max)
  | PCatalogCommit b | PCheckpointBoundary b | PCheckpointPageFrame b => Ok (len b)
  end.

Definition payload_encode_into (p : LogRecordPayload) (out : list Z) : Result (list Z) :=
  match p with
  | PCrudCommit l c =>
      ll ← len_to_u32 (len l);
      cl ← len_to_u32 (len c);
      Ok (out ++ le_bytes 4 ll ++ le_bytes 4 cl ++ l ++ c)
  | PCatalogCommit b | PCheckpointBoundary b | PCheckpointPageFrame b => Ok (out ++ b)
  end.

Definition payload_decode (k : LogRecordKind) (payload : list Z) : Result LogRecordPayload :=
  match k with
  | CrudCommit =>
      reject_if (len payload <? 8) (invalid_log_record "Phase 8 CrudCommit payload is shorter than split header");;
      logical_len ← read_le payload 0 4;
      chain_len ← read_le payload 4 4;
      logical_end ← ok_or (checked_add 64 8 logical_len) (invalid_log_record "Phase 8 CrudCommit logical length overflow");
      chain_end ← ok_or (checked_add 64 logical_end chain_len)
                    (invalid_log_record "Phase 8 CrudCommit chain length overflow");
      reject_if (negb (chain_end =? len payload))
        (invalid_log_record "Phase 8 CrudCommit payload split does not match payload_len");;
      l ← slice payload 8 logical_end;
      c ← slice payload logical_end chain_end;
      Ok (PCrudCommit l c)
  | CatalogCommit => Ok (PCatalogCommit payload)
  | CheckpointBoundary => Ok (PCheckpointBoundary payload)
  | CheckpointPageFrame => Ok (PCheckpointPageFrame payload)
  end.

(** ** Drafts *)

Record LogRecordDraft : Set := mkDraft {
  d_kind : LogRecordKind;
  d_flags : Z;
  d_txn_id : Z;
  d_publish_seq : Z;
  d_commit_ts : Ts;
  d_payload : LogRecordPayload }.

Definition from_payload (txn_id publish_seq : Z) (commit_ts : Ts) (p : LogRecordPayload) : LogRecordDraft :=
  mkDraft (payload_kind p) (required_flags (payload_kind p)) txn_id publish_seq commit_ts p.

Definition draft_crud (txn_id publish_seq : Z) (commit_ts : Ts) (l c : list Z) : LogRecordDraft :=
  from_payload txn_id publish_seq commit_ts (PCrudCommit l c).
Definition draft_catalog (txn_id publish_seq : Z) (commit_ts : Ts) (b : list Z) : LogRecordDraft :=
  from_payload txn_id publish_seq commit_ts (PCatalogCommit b).
Definition draft_checkpoint_boundary (txn_id : Z) (commit_ts : Ts) (b : list Z) : LogRecordDraft :=
  from_payload txn_id 0 commit_ts (PCheckpointBoundary b).
Definition draft_checkpoint_page_frame (commit_ts : Ts) (b : list Z) : LogRecordDraft :=
  from_payload 0 0 commit_ts (PCheckpointPageFrame b).

(** The rule that both the draft and the decoder apply *)
Definition publish_seq_rule (k : LogRecordKind) (publish_seq : Z) : Result unit :=
  match k with
  | CrudCommit | CatalogCommit =>
      reject_if (publish_seq =? 0)
        (invalid_log_record "Phase 8 LogRecord publish_seq 0 is reserved for CheckpointBoundary")
  | CheckpointBoundary | CheckpointPageFrame =>
      reject_if (negb (publish_seq =? 0)) (invalid_log_record "Phase 8 Checkpoint records must use publish_seq 0")
  end.

Definition validate_semantics (d : LogRecordDraft) : Result unit :=
  validate_for_kind (d_flags d) (d_kind d);;
  reject_if (negb (bool_decide (payload_kind (d_payload d) = d_kind d)))
    (invalid_log_record "Phase 8 LogRecord payload kind does not match record_kind");;
  publish_seq_rule (d_kind d) (d_publish_seq d).

Definition draft_encoded_len (d : LogRecordDraft) : Result Z :=
  validate_semantics d;;
  payload_len ← payload_encoded_len (d_payload d);
  total_len ← ok_or (checked_add 64 LOG_RECORD_HEADER_LEN payload_len) (log_record_too_large u64_max);
  reject_if (MAX_LOG_RECORD_BYTES <? total_len) (log_record_too_large total_len);;
  Ok total_len.

(** ** Finalization *)

Record LogRecordHeader : Set := mkHeader {
  h_kind : LogRecordKind;
  h_flags : Z;
  h_total_len : Z;
  h_start_lsn : Z;
  h_end_lsn : Z;
  h_txn_id : Z;
  h_publish_seq : Z;
  h_commit_ts : Ts;
  h_payload_len : Z;
  h_payload_crc32c : Z }.

Definition write_with_header_crc (h : LogRecordHeader) (header_crc32c : Z) (out : list Z) : Result (list Z) :=
  out ← write_at out 0 (le_bytes 4 LOG_RECORD_MAGIC);
  out ← write_at out 4 (le_bytes 2 LOG_RECORD_FORMAT_VERSION);
  header_len ← len_to_u16 LOG_RECORD_HEADER_LEN;
  out ← write_at out 6 (le_bytes 2 header_len);
  out ← write_at out 8 (le_bytes 2 (wire_value (h_kind h)));
  out ← write_at out 10 (le_bytes 2 (h_flags h));
  total_len ← len_to_u32 (h_total_len h);
  out ← write_at out 12 (le_bytes 4 total_len);
  out ← write_at out 16 (le_bytes 8 (h_start_lsn h));
  out ← write_at out 24 (le_bytes 8 (h_end_lsn h));
  out ← write_at out 32 (le_bytes 8 (h_txn_id h));
  out ← write_at out 40 (le_bytes 8 (h_publish_seq h));
  out ← write_at out 48 (le_bytes 8 (physical_ms (h_commit_ts h)));
  out ← write_at out 56 (le_bytes 4 (logical (h_commit_ts h)));
  payload_len ← len_to_u32 (h_payload_len h);
  out ← write_at out 60 (le_bytes 4 payload_len);
  out ← write_at out 64 (le_bytes 4 header_crc32c);
  write_at out 68 (le_bytes 4 (h_payload_crc32c h)).

Record FinalizedLogRecord : Set := mkFinalized { f_start_lsn : Z; f_end_lsn : Z; f_bytes : list Z }.

(** [l[off..].copy_from_slice(src)] *)
Definition copy_to_end (l : list Z) (off : Z) (src : list Z) : Result (list Z) :=
  if len src =? len l - off then write_at l off src else Panic.

Section Codec.
Context `{Crc32c}.

Definition finalize (d : LogRecordDraft) (start_lsn : Z) : Result FinalizedLogRecord :=
  total_len ← draft_encoded_len d;
  end_lsn ← ok_or (checked_add 64 start_lsn total_len) (invalid_log_record "Phase 8 LogRecord end_lsn overflow");
  let payload_len := total_len - LOG_RECORD_HEADER_LEN in
  payload ← payload_encode_into (d_payload d) [];
  let payload_crc32c := crc32c payload in
  let header := mkHeader (d_kind d) (d_flags d) total_len start_lsn end_lsn (d_txn_id d) (d_publish_seq d)
                  (d_commit_ts d) payload_len payload_crc32c in
  bytes ← write_with_header_crc header 0 (zeros total_len);
  head ← slice bytes 0 LOG_RECORD_HEADER_LEN;
  let header_crc32c := crc32c head in
  bytes ← write_at bytes LOG_RECORD_HEADER_CRC32C_OFFSET (le_bytes 4 header_crc32c);
  bytes ← copy_to_end bytes LOG_RECORD_HEADER_LEN payload;
  Ok (mkFinalized start_lsn end_lsn bytes).

(** ** Decoding *)

(** [LogRecord] *)
Record LogRecord : Set := mkLogRecord {
  r_start_lsn : Z;
  r_end_lsn : Z;
  r_txn_id : Z;
  r_publish_seq : Z;
  r_commit_ts : Ts;
  r_kind : LogRecordKind;
  r_flags : Z;
  r_payload_len : Z;
  r_total_len : Z;
  r_header_crc32c : Z;
  r_payload_crc32c : Z;
  r_payload : LogRecordPayload }.

(** What [decode_classified] returns: a record or one of the two classes of
    [LogRecordDecodeError] *)
Inductive Classified : Set :=
| Decoded (r : LogRecord)
| TornEligible (e : Error)
| PostCrcCorrupt (e : Error)
| DecodePanic.

(** The rows of [decode_classified] up to both CRC gates: the header fields and
    the payload bytes *)
Definition decode_gates (buf : list Z) : Result (LogRecordHeader * Z * list Z) :=
  reject_if (len buf <? LOG_RECORD_HEADER_LEN) (invalid_log_record "Phase 8 LogRecord truncated fixed header");;
  magic ← read_le buf 0 4;
  reject_if (negb (magic =? LOG_RECORD_MAGIC)) (invalid_log_record "Phase 8 LogRecord bad magic");;
  format_version ← read_le buf 4 2;
  reject_if (negb (format_version =? LOG_RECORD_FORMAT_VERSION))
    (invalid_log_record "Phase 8 LogRecord bad format_version");;
  header_len ← read_le buf 6 2;
  reject_if (negb (header_len =? LOG_RECORD_HEADER_LEN)) (invalid_log_record "Phase 8 LogRecord header_len");;
  kind_value ← read_le buf 8 2;
  kind ← from_wire kind_value;
  bits ← read_le buf 10 2;
  flags ← from_bits bits;
  validate_for_kind flags kind;;
  total_len ← read_le buf 12 4;
  reject_if (MAX_LOG_RECORD_BYTES <? total_len) (log_record_too_large total_len);;
  start_lsn ← read_le buf 16 8;
  end_lsn ← read_le buf 24 8;
  txn_id ← read_le buf 32 8;
  publish_seq ← read_le buf 40 8;
  ts_physical ← read_le buf 48 8;
  ts_logical ← read_le buf 56 4;
  payload_len ← read_le buf 60 4;
  header_crc32c ← read_le buf 64 4;
  payload_crc32c ← read_le buf 68 4;
  expected_total_len ← ok_or (checked_add 64 header_len payload_len)
                         (invalid_log_record "Phase 8 LogRecord total_len overflow");
  reject_if (negb (total_len =? expected_total_len)) (invalid_log_record "Phase 8 LogRecord total_len");;
  reject_if (len buf <? total_len) (invalid_log_record "Phase 8 LogRecord truncated payload");;
  expected_end_lsn ← ok_or (checked_add 64 start_lsn total_len)
                       (invalid_log_record "Phase 8 LogRecord end_lsn overflow");
  reject_if (negb (end_lsn =? expected_end_lsn)) (invalid_log_record "Phase 8 LogRecord end_lsn");;
  header_for_crc ← slice buf 0 LOG_RECORD_HEADER_LEN;
  header_for_crc ← write_at header_for_crc LOG_RECORD_HEADER_CRC32C_OFFSET (le_bytes 4 0);
  reject_if (negb (header_crc32c =? crc32c header_for_crc))
    (invalid_log_record "Phase 8 LogRecord header_crc32c mismatch");;
  payload_bytes ← slice buf LOG_RECORD_HEADER_LEN total_len;
  reject_if (negb (payload_crc32c =? crc32c payload_bytes))
    (invalid_log_record "Phase 8 LogRecord payload_crc32c mismatch");;
  Ok (mkHeader kind flags total_len start_lsn end_lsn txn_id publish_seq (mkTs ts_physical ts_logical)
        payload_len payload_crc32c, header_crc32c, payload_bytes).

(** The rows after both gates *)
Definition decode_semantics (g : LogRecordHeader * Z * list Z) : Result LogRecord :=
  let '(h, header_crc32c, payload_bytes) := g in
  publish_seq_rule (h_kind h) (h_publish_seq h);;
  payload ← payload_decode (h_kind h) payload_bytes;
  Ok (mkLogRecord (h_start_lsn h) (h_end_lsn h) (h_txn_id h) (h_publish_seq h) (h_commit_ts h) (h_kind h) (h_flags h)
        (h_payload_len h) (h_total_len h) header_crc32c (h_payload_crc32c h) payload).

Definition decode_classified (buf : list Z) : Classified :=
  match decode_gates buf with
  | Ok g =>
      match decode_semantics g with
      | Ok r => Decoded r
      | Err e => PostCrcCorrupt e
      | Panic => DecodePanic
      end
  | Err e => TornEligible e
  | Panic => DecodePanic
  end.

(** ** The record as one byte string *)

Definition header_prefix (h : LogRecordHeader) : list Z :=
  ((((((((((((le_bytes 4 LOG_RECORD_MAGIC ++ le_bytes 2 LOG_RECORD_FORMAT_VERSION) ++ le_bytes 2 LOG_RECORD_HEADER_LEN) ++
    le_bytes 2 (wire_value (h_kind h))) ++ le_bytes 2 (h_flags h)) ++ le_bytes 4 (h_total_len h)) ++
    le_bytes 8 (h_start_lsn h)) ++ le_bytes 8 (h_end_lsn h)) ++ le_bytes 8 (h_txn_id h)) ++
    le_bytes 8 (h_publish_seq h)) ++ le_bytes 8 (physical_ms (h_commit_ts h))) ++
    le_bytes 4 (logical (h_commit_ts h))) ++ le_bytes 4 (h_payload_len h)).

Definition header_bytes (h : LogRecordHeader) (header_crc32c : Z) : list Z :=
  header_prefix h ++ le_bytes 4 header_crc32c ++ le_bytes 4 (h_payload_crc32c h).

Definition header_crc (h : LogRecordHeader) : Z := crc32c (header_bytes h 0).

Lemma len_header_prefix h : len (header_prefix h) = 64.
Proof. unfold header_prefix. autorewrite with len. reflexivity. Qed.

Lemma len_header_bytes h c : len (header_bytes h c) = 72.
Proof. unfold header_bytes. rewrite !len_app, len_header_prefix, !len_le_bytes. reflexivity. Qed.

Lemma write_with_header_crc_eq h c out :
  72 <= len out -> 0 <= h_payload_len h -> h_total_len h < 2 ^ 32 -> h_payload_len h <= h_total_len h ->
  write_with_header_crc h c out = Ok (put out 0 (header_bytes h c)).
Proof.
  intros Hl Hp Ht Hpt. unfold write_with_header_crc, len_to_u16, len_to_u32.
  change (LOG_RECORD_HEADER_LEN <? 2 ^ 16) with true.
  destruct (Z.ltb_spec (h_total_len h) (2 ^ 32)); [|lia]. destruct (Z.ltb_spec (h_payload_len h) (2 ^ 32)); [|lia].
  write_chain. unfold header_bytes, header_prefix. by rewrite <- !app_assoc.
Qed.

(** Setting the header checksum of a zero-checksum header *)
Lemma put_header_crc l h c c' :
  72 <= len l -> put (put l 0 (header_bytes h c)) 64 (le_bytes 4 c') = put l 0 (header_bytes h c').
Proof.
  intros Hl. unfold header_bytes. apply put_put_inner; [lia|..].
  - rewrite !len_app, len_header_prefix, !len_le_bytes. simpl. lia.
  - by rewrite len_header_prefix.
  - by rewrite !len_le_bytes.
Qed.

(** The payload bytes of a draft *)
Definition payload_bytes (p : LogRecordPayload) : list Z :=
  match p with
  | PCrudCommit l c => le_bytes 4 (len l) ++ le_bytes 4 (len c) ++ l ++ c
  | PCatalogCommit b | PCheckpointBoundary b | PCheckpointPageFrame b => b
  end.

Definition payload_size (p : LogRecordPayload) : Z := len (payload_bytes p).

Lemma payload_size_crud l c : payload_size (PCrudCommit l c) = 8 + len l + len c.
Proof. unfold payload_size, payload_bytes. autorewrite with len. simpl Z.of_nat. lia. Qed.

Lemma payload_encode_ok p : payload_size p < 2 ^ 32 -> payload_encode_into p [] = Ok (payload_bytes p).
Proof.
  intros Hs. destruct p as [l c| | |]; [|done..]. rewrite payload_size_crud in Hs.
  pose proof (len_nonneg l). pose proof (len_nonneg c). simpl payload_encode_into. unfold len_to_u32.
  destruct (Z.ltb_spec (len l) (2 ^ 32)); [|lia]. destruct (Z.ltb_spec (len c) (2 ^ 32)); [|lia]. done.
Qed.

Lemma payload_len_ok p : payload_size p < 2 ^ 32 -> payload_encoded_len p = Ok (payload_size p).
Proof.
  intros Hs. destruct p as [l c| | |]; [|done..]. rewrite payload_size_crud in *.
  pose proof (len_nonneg l). pose proof (len_nonneg c). simpl. unfold checked_add.
  destruct (Z.ltb_spec (8 + len l) (2 ^ 64)); [|lia]. simpl. destruct (Z.ltb_spec (8 + len l + len c) (2 ^ 64)); [done|lia].
Qed.

Lemma payload_decode_bytes p : payload_size p < 2 ^ 32 -> payload_decode (payload_kind p) (payload_bytes p) = Ok p.
Proof.
  intros Hs. destruct p as [l c| | |]; [|done..]. rewrite payload_size_crud in Hs.
  pose proof (len_nonneg l). pose proof (len_nonneg c).
  assert (Hlen : len (payload_bytes (PCrudCommit l c)) = 8 + len l + len c) by apply payload_size_crud.
  assert (Hh : holds (payload_bytes (PCrudCommit l c)) 0 (payload_bytes (PCrudCommit l c)))
    by (split_and!; [lia|lia|by apply get_all]).
  revert Hlen Hh. generalize (payload_bytes (PCrudCommit l c)) at 1 2 4. intros buf Hlen Hh. cbn [payload_bytes] in Hh.
  unfold payload_decode, payload_kind. destruct (Z.ltb_spec (len buf) 8); [lia|]. rewrite reject_if_false, bind_Ok.
  split_fields. assert (is_u32 (len l) /\ is_u32 (len c)) as [? ?] by (unfold is_u; lia).
  do 2 read_field. unfold checked_add.
  destruct (Z.ltb_spec (8 + len l) (2 ^ 64)); [|lia]. simpl ok_or. rewrite bind_Ok.
  destruct (Z.ltb_spec (8 + len l + len c) (2 ^ 64)); [|lia]. simpl ok_or. rewrite bind_Ok.
  rewrite (proj2 (Z.eqb_eq (8 + len l + len c) (len buf))) by lia. simpl negb. rewrite reject_if_false, bind_Ok.
  by do 2 read_field.
Qed.

(** ** Finalize, then decode *)

(** The header [finalize] builds for a draft at [start] *)
Definition draft_header (d : LogRecordDraft) (start : Z) : LogRecordHeader :=
  let total := LOG_RECORD_HEADER_LEN + payload_size (d_payload d) in
  mkHeader (d_kind d) (d_flags d) total start (start + total) (d_txn_id d) (d_publish_seq d) (d_commit_ts d)
    (payload_size (d_payload d)) (crc32c (payload_bytes (d_payload d))).

Definition record_bytes (d : LogRecordDraft) (start : Z) : list Z :=
  header_bytes (draft_header d start) (header_crc (draft_header d start)) ++ payload_bytes (d_payload d).

(** The record a reader gets back *)
Definition draft_record (d : LogRecordDraft) (start : Z) : LogRecord :=
  let h := draft_header d start in
  mkLogRecord start (h_end_lsn h) (d_txn_id d) (d_publish_seq d) (d_commit_ts d) (d_kind d) (d_flags d)
    (h_payload_len h) (h_total_len h) (header_crc h) (h_payload_crc32c h) (d_payload d).

(** A draft made by one of its constructors, with fields in range, that obeys
    the size cap and the publish-sequence rule *)
Definition draft_wf (d : LogRecordDraft) : Prop :=
  d = from_payload (d_txn_id d) (d_publish_seq d) (d_commit_ts d) (d_payload d)
  /\ is_u64 (d_txn_id d) /\ is_u64 (d_publish_seq d) /\ ts_wf (d_commit_ts d)
  /\ publish_seq_rule (d_kind d) (d_publish_seq d) = Ok tt
  /\ LOG_RECORD_HEADER_LEN + payload_size (d_payload d) <= MAX_LOG_RECORD_BYTES.

Lemma validate_required k : validate_for_kind (required_flags k) k = Ok tt.
Proof. by destruct k. Qed.

Lemma draft_len_ok d : draft_wf d -> draft_encoded_len d = Ok (LOG_RECORD_HEADER_LEN + payload_size (d_payload d)).
Proof.
  intros (Hd & _ & _ & _ & Hrule & Hsz). pose proof (len_nonneg (payload_bytes (d_payload d))) as Hn.
  fold (payload_size (d_payload d)) in Hn. unfold LOG_RECORD_HEADER_LEN, MAX_LOG_RECORD_BYTES in *.
  unfold draft_encoded_len, validate_semantics. rewrite Hd at 1 2. cbn [d_flags d_kind from_payload d_payload].
  rewrite validate_required, bind_Ok, bool_decide_eq_true_2 by (by rewrite Hd).
  simpl negb. rewrite reject_if_false, bind_Ok, Hrule, bind_Ok, payload_len_ok, bind_Ok by lia.
  unfold checked_add, LOG_RECORD_HEADER_LEN. destruct (Z.ltb_spec (72 + payload_size (d_payload d)) (2 ^ 64)); [|lia].
  simpl ok_or. rewrite bind_Ok. unfold MAX_LOG_RECORD_BYTES.
  destruct (Z.ltb_spec (64 * 1024 * 1024) (72 + payload_size (d_payload d))); [lia|done].
Qed.

Lemma finalize_eq d start :
  draft_wf d -> 0 <= start -> start + (LOG_RECORD_HEADER_LEN + payload_size (d_payload d)) < 2 ^ 64 ->
  finalize d start =
  Ok (mkFinalized start (start + (LOG_RECORD_HEADER_LEN + payload_size (d_payload d))) (record_bytes d start)).
Proof.
  intros Hwf H0 Hend. pose proof (draft_len_ok d Hwf) as Hlen. pose proof Hwf as (_ & _ & _ & _ & _ & Hsz).
  pose proof (len_nonneg (payload_bytes (d_payload d))) as Hn. fold (payload_size (d_payload d)) in Hn.
  unfold LOG_RECORD_HEADER_LEN, MAX_LOG_RECORD_BYTES in *. set (n := payload_size (d_payload d)) in *.
  unfold finalize. rewrite Hlen, bind_Ok. unfold checked_add. destruct (Z.ltb_spec (start + (72 + n)) (2 ^ 64)); [|lia].
  simpl ok_or. rewrite bind_Ok. cbv zeta. rewrite payload_encode_ok, bind_Ok by (fold n; lia).
  unfold LOG_RECORD_HEADER_LEN. replace (72 + n - 72) with n by lia. fold (draft_header d start).
  change (mkHeader _ _ _ _ _ _ _ _ _ _) with (draft_header d start).
  assert (Hz : len (zeros (72 + n)) = 72 + n) by (apply len_zeros; lia). revert Hz. generalize (zeros (72 + n)).
  intros page Hp. pose proof (len_header_bytes (draft_header d start) 0).
  rewrite write_with_header_crc_eq, bind_Ok by (simpl; unfold LOG_RECORD_HEADER_LEN; fold n; lia).
  rewrite (slice_part _ 0 (header_bytes (draft_header d start) 0)), bind_Ok by (done || (apply holds_put; lia)).
  fold (header_crc (draft_header d start)). unfold LOG_RECORD_HEADER_CRC32C_OFFSET.
  pose proof (len_header_bytes (draft_header d start) (header_crc (draft_header d start))).
  rewrite write_at_Ok, bind_Ok, put_header_crc by (rewrite ?len_put, ?len_le_bytes; lia).
  unfold copy_to_end. rewrite len_put by lia. fold (payload_size (d_payload d)). fold n.
  rewrite (proj2 (Z.eqb_eq n (len page - 72))) by lia.
  rewrite write_at_next by (fold (payload_size (d_payload d)); fold n; lia). rewrite bind_Ok.
  rewrite put_whole; [done|]. rewrite len_app. fold (payload_size (d_payload d)). fold n. lia.
Qed.

Definition header_wf (h : LogRecordHeader) : Prop :=
  h_flags h = required_flags (h_kind h) /\ h_total_len h = LOG_RECORD_HEADER_LEN + h_payload_len h /\
  h_total_len h <= MAX_LOG_RECORD_BYTES /\ 0 <= h_payload_len h /\ 0 <= h_start_lsn h /\
  h_end_lsn h = h_start_lsn h + h_total_len h /\ is_u64 (h_end_lsn h) /\
  is_u64 (h_txn_id h) /\ is_u64 (h_publish_seq h) /\ ts_wf (h_commit_ts h).

Lemma from_wire_value k : from_wire (wire_value k) = Ok k.
Proof. by destruct k. Qed.

Lemma from_bits_required k : from_bits (required_flags k) = Ok (required_flags k).
Proof. by destruct k. Qed.

Lemma kind_u16 k : is_u16 (wire_value k) /\ is_u16 (required_flags k).
Proof. by destruct k. Qed.

(** The checksum field of a header is zeroed before its checksum is taken. *)
Lemma header_for_crc_eq h c : write_at (header_bytes h c) 64 (le_bytes 4 0) = Ok (header_bytes h 0).
Proof.
  rewrite write_at_Ok by (rewrite ?len_le_bytes, ?len_header_bytes; simpl; lia). reflexivity.
Qed.

(** The rows of [decode_gates] up to the length of the payload, on a buffer that
    starts with a well-formed header *)
Lemma decode_gates_header buf h :
  header_wf h -> is_u32 (h_payload_crc32c h) -> holds buf 0 (header_bytes h (header_crc h)) ->
  decode_gates buf =
  (reject_if (len buf <? h_total_len h) (invalid_log_record "Phase 8 LogRecord truncated payload");;
   payload_bytes ← slice buf LOG_RECORD_HEADER_LEN (h_total_len h);
   reject_if (negb (h_payload_crc32c h =? crc32c payload_bytes))
     (invalid_log_record "Phase 8 LogRecord payload_crc32c mismatch");;
   Ok (h, header_crc h, payload_bytes)).
Proof.
  intros (Hfl & Htot & Hmax & Hp0 & Hs0 & Hend & Hendu & Htx & Hps & [Hph Hlo]) Hpc Hhead.
  pose proof (holds_bounds _ _ _ Hhead) as [_ Hb]. rewrite len_header_bytes in Hb.
  unfold LOG_RECORD_HEADER_LEN, MAX_LOG_RECORD_BYTES in *.
  assert (is_u32 (h_total_len h) /\ is_u32 (h_payload_len h) /\ is_u64 (h_start_lsn h)) as (? & ? & ?)
    by (unfold is_u in *; lia).
  assert (is_u32 (header_crc h)) by apply crc32c_u32.
  destruct (kind_u16 (h_kind h)) as [? Hfu]. rewrite <- Hfl in Hfu.
  assert (is_u32 LOG_RECORD_MAGIC /\ is_u16 LOG_RECORD_FORMAT_VERSION /\ is_u16 LOG_RECORD_HEADER_LEN) as (? & ? & ?) by done.
  unfold decode_gates, LOG_RECORD_HEADER_CRC32C_OFFSET, MAX_LOG_RECORD_BYTES.
  rewrite (slice_field buf 0 0 LOG_RECORD_HEADER_LEN (header_bytes h (header_crc h)) Hhead)
    by (rewrite ?len_header_bytes; done).
  unfold header_bytes at 1, header_prefix in Hhead. split_fields. fold LOG_RECORD_HEADER_LEN in *.
  rewrite reject_if_ge, bind_Ok by (unfold LOG_RECORD_HEADER_LEN in *; lia).
  repeat (read_field; rewrite ?Z.eqb_refl; simpl negb;
    rewrite ?reject_if_false, ?bind_Ok, ?from_wire_value, ?bind_Ok, ?Hfl, ?from_bits_required, ?bind_Ok,
      ?validate_required, ?bind_Ok).
  rewrite (reject_if_ge (64 * 1024 * 1024)), bind_Ok by lia. unfold LOG_RECORD_HEADER_LEN in *.
  do 2 rewrite ok_or_checked_add, bind_Ok, reject_if_eq, bind_Ok by (unfold is_u in *; lia).
  destruct (len buf <? h_total_len h); [done|]. rewrite !reject_if_false, !bind_Ok.
  rewrite header_for_crc_eq, bind_Ok, reject_if_eq, bind_Ok by done.
  destruct h as [k fl tl sl el tx ps [ph lo] pl pc]. simpl in *. by rewrite Hfl.
Qed.

Lemma decode_gates_holds buf h payload :
  header_wf h -> len payload = h_payload_len h -> h_payload_crc32c h = crc32c payload ->
  holds buf 0 (header_bytes h (header_crc h) ++ payload) ->
  decode_gates buf = Ok (h, header_crc h, payload).
Proof.
  intros Hwf Hpl Hpc Hh. pose proof Hwf as (_ & Htot & _). pose proof (holds_bounds _ _ _ Hh) as [_ Hb].
  apply holds_app in Hh as [Hhead Hpay]. rewrite len_app, len_header_bytes in *. unfold LOG_RECORD_HEADER_LEN in Htot.
  rewrite (decode_gates_header _ h) by (done || (rewrite Hpc; apply crc32c_u32)).
  rewrite reject_if_ge, bind_Ok by lia. rewrite (slice_field _ _ _ _ _ Hpay), bind_Ok by (unfold LOG_RECORD_HEADER_LEN; lia).
  by rewrite reject_if_eq.
Qed.

Lemma draft_header_wf d start :
  draft_wf d -> 0 <= start -> start + (LOG_RECORD_HEADER_LEN + payload_size (d_payload d)) < 2 ^ 64 ->
  header_wf (draft_header d start).
Proof.
  intros (Hd & ? & ? & ? & _ & ?) ? ?. pose proof (len_nonneg (payload_bytes (d_payload d))) as Hn.
  fold (payload_size (d_payload d)) in Hn. unfold header_wf, draft_header; simpl. rewrite Hd at 1. simpl.
  split_and!; try done; unfold LOG_RECORD_HEADER_LEN, is_u in *; try lia. by rewrite Hd.
Qed.

Lemma decode_record d start tail :
  draft_wf d -> 0 <= start -> start + (LOG_RECORD_HEADER_LEN + payload_size (d_payload d)) < 2 ^ 64 ->
  decode_classified (record_bytes d start ++ tail) = Decoded (draft_record d start).
Proof.
  intros Hwf Hs He. unfold decode_classified, record_bytes.
  rewrite (decode_gates_holds _ (draft_header d start) (payload_bytes (d_payload d))); try done.
  - unfold decode_semantics, draft_header, draft_record; cbn [h_kind h_publish_seq h_start_lsn h_end_lsn h_txn_id
      h_commit_ts h_flags h_payload_len h_total_len h_payload_crc32c].
    destruct Hwf as (Hd & _ & _ & _ & -> & Hsz). rewrite bind_Ok, Hd at 1. simpl d_kind.
    rewrite payload_decode_bytes; [done|]. unfold LOG_RECORD_HEADER_LEN, MAX_LOG_RECORD_BYTES in *. lia.
  - by apply draft_header_wf.
  - pose proof (len_nonneg tail). split_and!; [lia|rewrite !len_app; lia|by apply get_app_exact].
Qed.

Lemma len_record_bytes d start : len (record_bytes d start) = LOG_RECORD_HEADER_LEN + payload_size (d_payload d).
Proof. unfold record_bytes. by rewrite len_app, len_header_bytes. Qed.

(** A record cut short *)
Lemma decode_torn d start k :
  draft_wf d -> 0 <= start -> start + (LOG_RECORD_HEADER_LEN + payload_size (d_payload d)) < 2 ^ 64 ->
  (k < length (record_bytes d start))%nat ->
  exists e, decode_classified (take k (record_bytes d start)) = TornEligible e.
Proof.
  intros Hwf Hs He Hk. pose proof (len_record_bytes d start) as Hl. unfold decode_classified.
  assert (Hlen : len (take k (record_bytes d start)) = Z.of_nat k) by (unfold len; rewrite length_take; lia).
  destruct (Z_lt_le_dec (Z.of_nat k) 72).
  - unfold decode_gates. rewrite Hlen. unfold LOG_RECORD_HEADER_LEN.
    destruct (Z.ltb_spec (Z.of_nat k) 72); [|lia]. simpl. eauto.
  - rewrite (decode_gates_header _ (draft_header d start)).
    + rewrite Hlen. simpl h_total_len. destruct (Z.ltb_spec (Z.of_nat k) (LOG_RECORD_HEADER_LEN + payload_size (d_payload d)));
        [simpl; eauto|unfold len in *; lia].
    + by apply draft_header_wf.
    + apply crc32c_u32.
    + unfold record_bytes in *. set (hb := header_bytes _ _) in *. assert (Hhb : len hb = 72) by apply len_header_bytes.
      rewrite take_app_ge by (unfold len in Hhb; lia).
      split_and!; [lia|rewrite len_app; pose proof (len_nonneg (take (k - length hb) (payload_bytes (d_payload d)))); lia|].
      by apply get_app_exact.
Qed.

(** C12: A log record survives the journal: a draft within the size cap
    finalizes at any LSN that does not overflow, to exactly the number of
    bytes reserved for it; decoding a journal that continues with anything
    returns the record with every field and payload unchanged; and a record
    cut anywhere short of its end is classified as a torn tail, never as a
    record and never as content corruption. *)
Theorem log_record_roundtrip d start :
  draft_wf d -> 0 <= start -> start + (LOG_RECORD_HEADER_LEN + payload_size (d_payload d)) < 2 ^ 64 ->
  exists r, finalize d start = Ok r
    /\ draft_encoded_len d = Ok (len (f_bytes r)) /\ f_end_lsn r = start + len (f_bytes r)
    /\ (forall tail, decode_classified (f_bytes r ++ tail) = Decoded (draft_record d start))
    /\ (forall k, (k < length (f_bytes r))%nat -> exists e, decode_classified (take k (f_bytes r)) = TornEligible e).
Proof.
  intros Hwf Hs He. eexists. split; [by apply finalize_eq|]. cbn [f_bytes f_end_lsn]. rewrite len_record_bytes.
  split_and!; [by apply draft_len_ok|done|..].
  - intros tail. by apply decode_record.
  - intros k Hk. by apply decode_torn.
Qed.

Lemma from_wire_no_panic v : no_panic (from_wire v).
Proof. unfold from_wire. repeat case_match; discriminate. Qed.

Lemma from_bits_no_panic v : no_panic (from_bits v).
Proof. unfold from_bits, reject_unknown_bits. panic_free. Qed.

Lemma validate_for_kind_no_panic f k : no_panic (validate_for_kind f k).
Proof. unfold validate_for_kind, reject_unknown_bits. apply no_panic_bind; auto with panics. Qed.

#[local] Hint Resolve from_wire_no_panic from_bits_no_panic validate_for_kind_no_panic : panics.

Lemma write_at_no_panic (l : list Z) off src : 0 <= off -> off + len src <= len l -> no_panic (write_at l off src).
Proof. intros. rewrite write_at_Ok by done. discriminate. Qed.

Lemma decode_gates_no_panic buf : bytes_ok buf -> no_panic (decode_gates buf).
Proof.
  intros Hb. unfold decode_gates, LOG_RECORD_HEADER_LEN, LOG_RECORD_HEADER_CRC32C_OFFSET. panic_free.
  guard_facts. apply no_panic_bind.
  { apply write_at_no_panic; [lia|]. rewrite len_le_bytes.
    match goal with Hs : slice _ _ _ = Ok _ |- _ => apply slice_inv in Hs as (_ & _ & _ & ->) end.
    rewrite len_get by lia. simpl. lia. }
  intros. panic_free.
Qed.

Lemma payload_decode_no_panic k payload : bytes_ok payload -> no_panic (payload_decode k payload).
Proof.
  intros Hb. destruct k; try discriminate. unfold payload_decode. panic_free. guard_facts. subst. panic_free.
Qed.

Lemma decode_gates_inv buf h c payload :
  bytes_ok buf -> decode_gates buf = Ok (h, c, payload) ->
  h_flags h = required_flags (h_kind h) /\ h_end_lsn h = h_start_lsn h + h_total_len h
  /\ LOG_RECORD_HEADER_LEN <= h_total_len h <= len buf
  /\ payload = get buf LOG_RECORD_HEADER_LEN (h_total_len h - LOG_RECORD_HEADER_LEN)
  /\ h_payload_crc32c h = crc32c payload.
Proof.
  intros Hb Hg. unfold decode_gates in Hg. bind_inv Hg. injection Hg as <- <- <-.
  unfold validate_for_kind in Hx10. bind_inv Hx10. pose proof (read_le_range _ _ _ _ Hb Hx19).
  apply slice_inv in Hx30 as (_ & ? & ? & Hpay). guard_facts. cbn [h_flags h_kind h_end_lsn h_start_lsn h_total_len h_payload_crc32c].
  unfold LOG_RECORD_HEADER_LEN in *. split_and!; try done; lia.
Qed.

Lemma payload_decode_kind k payload p : payload_decode k payload = Ok p -> payload_kind p = k.
Proof.
  destruct k; simpl; intros Hp; try by injection Hp as <-. bind_inv Hp. by injection Hp as <-.
Qed.

Lemma decode_classified_sound buf :
  bytes_ok buf ->
  decode_classified buf <> DecodePanic
  /\ forall r, decode_classified buf = Decoded r ->
       LOG_RECORD_HEADER_LEN <= r_total_len r <= len buf /\ r_end_lsn r = r_start_lsn r + r_total_len r
       /\ r_flags r = required_flags (r_kind r) /\ payload_kind (r_payload r) = r_kind r
       /\ r_payload_crc32c r = crc32c (get buf LOG_RECORD_HEADER_LEN (r_total_len r - LOG_RECORD_HEADER_LEN))
       /\ publish_seq_rule (r_kind r) (r_publish_seq r) = Ok tt.
Proof.
  intros Hb. pose proof (decode_gates_no_panic buf Hb) as Hnp. unfold decode_classified.
  destruct (decode_gates buf) as [[[h c] payload]|e|] eqn:Hg; [|done..].
  destruct (decode_gates_inv _ _ _ _ Hb Hg) as (Hf & He & Hl & Hpay & Hc). unfold decode_semantics.
  pose proof (payload_decode_no_panic (h_kind h) payload) as Hpd. rewrite Hpay in Hpd at 1. specialize (Hpd (bytes_ok_get _ _ _ Hb)).
  destruct (publish_seq_rule (h_kind h) (h_publish_seq h)) as [[]|e|] eqn:Hrule; simpl; [|done|].
  2: { unfold publish_seq_rule in Hrule. by destruct (h_kind h), (h_publish_seq h =? 0). }
  destruct (payload_decode (h_kind h) payload) as [p|e|] eqn:Hd; simpl; [|done|done].
  split; [done|]. intros r [= <-]. simpl. rewrite <- Hpay. split_and!; try done; try lia. by eapply payload_decode_kind.
Qed.

(** C23: Decoding arbitrary bytes never panics, and a record it returns is
    well framed: it starts the buffer, lies inside it, its end LSN is its start
    LSN plus its length, its flags and payload are those of its kind, its
    payload checksum is the CRC32C of its payload bytes, and it obeys the
    publish-sequence rule of its kind. *)
Theorem log_record_decode_sound buf :
  bytes_ok buf ->
  decode_classified buf <> DecodePanic
  /\ forall r, decode_classified buf = Decoded r ->
       LOG_RECORD_HEADER_LEN <= r_total_len r <= len buf /\ r_end_lsn r = r_start_lsn r + r_total_len r
       /\ r_flags r = required_flags (r_kind r) /\ payload_kind (r_payload r) = r_kind r
       /\ r_payload_crc32c r = crc32c (get buf LOG_RECORD_HEADER_LEN (r_total_len r - LOG_RECORD_HEADER_LEN))
       /\ publish_seq_rule (r_kind r) (r_publish_seq r) = Ok tt.
Proof. apply decode_classified_sound. Qed.

End Codec.

Lemma log_record_roundtrip_witness :
  exists r, @finalize Bitwise.crc32c_bitwise (draft_crud 7 3 (mkTs 1000 2) [1; 2; 3] [4; 5]) 32 = Ok r
    /\ forall tail, @decode_classified Bitwise.crc32c_bitwise (f_bytes r ++ tail)
         = Decoded (@draft_record Bitwise.crc32c_bitwise (draft_crud 7 3 (mkTs 1000 2) [1; 2; 3] [4; 5]) 32).
Proof.
  destruct (@log_record_roundtrip Bitwise.crc32c_bitwise (draft_crud 7 3 (mkTs 1000 2) [1; 2; 3] [4; 5]) 32)
    as (r & Hr & _ & _ & Hd & _); [by split_and!|done|done|].
  exists r. split; [exact Hr|exact Hd].
Defined.

Lemma log_record_decode_sound_witness :
  @decode_classified Bitwise.crc32c_bitwise [1; 2; 3] <> DecodePanic.
Proof.
  refine (proj1 (@log_record_decode_sound Bitwise.crc32c_bitwise [1; 2; 3] _)).
  repeat (apply List.Forall_cons; [done|]); apply List.Forall_nil.
Defined.
