(* ===== verification/Payloads.v ===== *)
(** * Log-record payloads ([journal/wire/payloads.rs])

    The codecs of what a log record carries: catalog commits, checkpoint
    boundaries, checkpoint page frames and chain-commit frames. *)

From S2P Require Import Prelude Bytes Timestamp Crc Page DbHeader LogRecord.

#[local] Open Scope Z_scope.

(** ** Page sizes ([journal/wire/mod.rs]) *)

Inductive JournalPageSize : Set :=
| Small4k
| Large32k.

#[export] Instance JournalPageSize_eq_dec : EqDecision JournalPageSize.
Proof. solve_decision. Defined.

Definition page_size_bytes (s : JournalPageSize) : Z :=
  match s with Small4k => PAGE_SIZE_INTERNAL | Large32k => PAGE_SIZE_LEAF end.

Definition page_size_from_u32 (v : Z) : Result JournalPageSize :=
  if v =? PAGE_SIZE_INTERNAL then Ok Small4k
  else if v =? PAGE_SIZE_LEAF then Ok Large32k
  else Err (CorruptDatabase "journal frame: unknown page_size field" false).

(** ** Catalog commits *)

Inductive CatalogCommitKind : Set :=
| NamespaceCreate
| NamespaceDrop
| IndexReserve
| IndexBuild
| IndexBuildCommit
| IndexCleanup
| IndexDrop.

Definition catalog_wire_value (k : CatalogCommitKind) : Z :=
  match k with
  | NamespaceCreate => 1
  | NamespaceDrop => 2
  | IndexReserve => 3
  | IndexBuild => 4
  | IndexBuildCommit => 5
  | IndexCleanup => 6
  | IndexDrop => 7
  end.

Definition catalog_from_wire (value : Z) : Result CatalogCommitKind :=
  if value =? 1 then Ok NamespaceCreate
  else if value =? 2 then Ok NamespaceDrop
  else if value =? 3 then Ok IndexReserve
  else if value =? 4 then Ok IndexBuild
  else if value =? 5 then Ok IndexBuildCommit
  else if value =? 6 then Ok IndexCleanup
  else if value =? 7 then Ok IndexDrop
  else Err (invalid_log_record "Phase 8 CatalogCommit unknown variant").

Record CatalogCommitPage : Set := mkCatalogPage {
  cp_page_number : Z; cp_page_size : JournalPageSize; cp_data : list Z }.

Record CatalogCommitPayload : Set := mkCatalogCommit {
  cc_kind : CatalogCommitKind;
  cc_generation_before : Z;
  cc_generation_after : Z;
  cc_header : DbHeader.FileHeader;
  cc_pages : list CatalogCommitPage }.

Definition CATALOG_COMMIT_PAYLOAD_MAGIC : list Z := [77; 81; 67; 67].
Definition CATALOG_COMMIT_PAYLOAD_VERSION := 1.

Fixpoint encode_pages (pages : list CatalogCommitPage) (out : list Z) : Result (list Z) :=
  match pages with
  | [] => Ok out
  | page :: rest =>
      reject_if (negb (len (cp_data page) =? page_size_bytes (cp_page_size page)))
        (invalid_log_record "Phase 8 CatalogCommit page has the wrong length");;
      n ← len_to_u32 (len (cp_data page));
      encode_pages rest
        (out ++ le_bytes 4 (cp_page_number page) ++ le_bytes 4 (page_size_bytes (cp_page_size page)) ++ le_bytes 4 n
           ++ cp_data page)
  end.

Fixpoint decode_pages (n : nat) (buf : list Z) (cursor : Z) : Result (list CatalogCommitPage * Z) :=
  match n with
  | O => Ok ([], cursor)
  | S n' =>
      reject_if (saturating_sub (len buf) cursor <? 12)
        (invalid_log_record "Phase 8 CatalogCommit payload truncated page header");;
      page_number ← read_le buf cursor 4;
      size_field ← read_le buf (cursor + 4) 4;
      page_size ← page_size_from_u32 size_field;
      data_len ← read_le buf (cursor + 8) 4;
      reject_if (negb (data_len =? page_size_bytes page_size))
        (invalid_log_record "Phase 8 CatalogCommit page data length does not match");;
      data_end ← ok_or (checked_add 64 (cursor + 12) data_len)
                   (invalid_log_record "Phase 8 CatalogCommit page data length overflow");
      reject_if (len buf <? data_end) (invalid_log_record "Phase 8 CatalogCommit payload truncated page data");;
      data ← slice buf (cursor + 12) data_end;
      rest ← decode_pages n' buf data_end;
      Ok (mkCatalogPage page_number page_size data :: fst rest, snd rest)
  end.

(** ** Checkpoint boundaries and page frames *)

Record CheckpointBoundaryPayload : Set := mkBoundary {
  cb_checkpoint_applied_lsn : Z; cb_batch_id : Z; cb_header : DbHeader.FileHeader }.

Definition CHECKPOINT_BOUNDARY_PAYLOAD_MAGIC : list Z := [77; 81; 67; 66].
Definition CHECKPOINT_BOUNDARY_PAYLOAD_VERSION := 1.

Inductive CheckpointPagePool : Set :=
| PoolMain
| PoolHistory.

Definition pool_wire_value (p : CheckpointPagePool) : Z :=
  match p with PoolMain => 0 | PoolHistory => 1 end.

Definition pool_from_wire (value : Z) : Result CheckpointPagePool :=
  if value =? 0 then Ok PoolMain
  else if value =? 1 then Ok PoolHistory
  else Err (invalid_log_record "Phase 8 CheckpointPageFrame unknown pool").

Record CheckpointPageFramePayload : Set := mkPageFrame {
  pf_batch_id : Z;
  pf_pool : CheckpointPagePool;
  pf_page_number : Z;
  pf_page_size : JournalPageSize;
  pf_data : list Z }.

Definition CHECKPOINT_PAGE_FRAME_PAYLOAD_MAGIC : list Z := [77; 81; 67; 80].
Definition CHECKPOINT_PAGE_FRAME_PAYLOAD_VERSION := 1.

Definition page_frame_encode (f : CheckpointPageFramePayload) : Result (list Z) :=
  reject_if (negb (len (pf_data f) =? page_size_bytes (pf_page_size f)))
    (invalid_log_record "Phase 8 CheckpointPageFrame page data length does not match");;
  n ← len_to_u32 (len (pf_data f));
  Ok (CHECKPOINT_PAGE_FRAME_PAYLOAD_MAGIC ++ le_bytes 2 CHECKPOINT_PAGE_FRAME_PAYLOAD_VERSION
        ++ [pool_wire_value (pf_pool f)] ++ [0] ++ le_bytes 8 (pf_batch_id f) ++ le_bytes 4 (pf_page_number f)
        ++ le_bytes 4 (page_size_bytes (pf_page_size f)) ++ le_bytes 4 n ++ pf_data f).

Definition page_frame_decode (buf : list Z) : Result CheckpointPageFramePayload :=
  let PREFIX_LEN := 24 in
  reject_if (len buf <? PREFIX_LEN) (invalid_log_record "Phase 8 CheckpointPageFrame payload truncated fixed header");;
  magic ← slice buf 0 4;
  reject_if (negb (bool_decide (magic = CHECKPOINT_PAGE_FRAME_PAYLOAD_MAGIC)))
    (invalid_log_record "Phase 8 CheckpointPageFrame bad magic");;
  version ← read_le buf 4 2;
  reject_if (negb (version =? CHECKPOINT_PAGE_FRAME_PAYLOAD_VERSION))
    (invalid_log_record "Phase 8 CheckpointPageFrame bad version");;
  pool_byte ← index buf 6;
  pool ← pool_from_wire pool_byte;
  reserved ← index buf 7;
  reject_if (negb (reserved =? 0)) (invalid_log_record "Phase 8 CheckpointPageFrame reserved byte must be zero");;
  batch_id ← read_le buf 8 8;
  page_number ← read_le buf 16 4;
  size_field ← read_le buf 20 4;
  page_size ← page_size_from_u32 size_field;
  data_len ← read_le buf PREFIX_LEN 4;
  let data_start := PREFIX_LEN + 4 in
  reject_if (negb (data_len =? page_size_bytes page_size))
    (invalid_log_record "Phase 8 CheckpointPageFrame page data length does not match");;
  reject_if (negb (len buf =? data_start + data_len))
    (invalid_log_record "Phase 8 CheckpointPageFrame payload has wrong trailing length");;
  data ← slice buf data_start (len buf);
  Ok (mkPageFrame batch_id pool page_number page_size data).

Section Codec.
Context `{Crc32c}.

Definition catalog_commit_encode (p : CatalogCommitPayload) : Result (list Z) :=
  header_len ← len_to_u32 DbHeader.HEADER_PAGE_SIZE;
  header ← DbHeader.to_bytes (cc_header p);
  n ← len_to_u32 (len (cc_pages p));
  encode_pages (cc_pages p)
    (CATALOG_COMMIT_PAYLOAD_MAGIC ++ le_bytes 2 CATALOG_COMMIT_PAYLOAD_VERSION ++ [catalog_wire_value (cc_kind p)] ++ [0]
       ++ le_bytes 8 (cc_generation_before p) ++ le_bytes 8 (cc_generation_after p) ++ le_bytes 4 header_len
       ++ header ++ le_bytes 4 n).

Definition catalog_commit_decode (buf : list Z) : Result CatalogCommitPayload :=
  let PREFIX_LEN := 28 in
  reject_if (len buf <? PREFIX_LEN) (invalid_log_record "Phase 8 CatalogCommit payload truncated fixed header");;
  magic ← slice buf 0 4;
  reject_if (negb (bool_decide (magic = CATALOG_COMMIT_PAYLOAD_MAGIC)))
    (invalid_log_record "Phase 8 CatalogCommit bad magic");;
  version ← read_le buf 4 2;
  reject_if (negb (version =? CATALOG_COMMIT_PAYLOAD_VERSION)) (invalid_log_record "Phase 8 CatalogCommit bad version");;
  kind_byte ← index buf 6;
  kind ← catalog_from_wire kind_byte;
  reserved ← index buf 7;
  reject_if (negb (reserved =? 0)) (invalid_log_record "Phase 8 CatalogCommit reserved byte must be zero");;
  generation_before ← read_le buf 8 8;
  generation_after ← read_le buf 16 8;
  header_len ← read_le buf 24 4;
  reject_if (negb (header_len =? DbHeader.HEADER_PAGE_SIZE))
    (invalid_log_record "Phase 8 CatalogCommit header length is invalid");;
  header_end ← ok_or (checked_add 64 PREFIX_LEN header_len)
                 (invalid_log_record "Phase 8 CatalogCommit header length overflow");
  reject_if (len buf <? header_end + 4) (invalid_log_record "Phase 8 CatalogCommit payload truncated header image");;
  header_bytes ← slice buf PREFIX_LEN header_end;
  header ← DbHeader.from_bytes header_bytes;
  page_count ← read_le buf header_end 4;
  pages ← decode_pages (Z.to_nat page_count) buf (header_end + 4);
  reject_if (negb (snd pages =? len buf)) (invalid_log_record "Phase 8 CatalogCommit payload has trailing bytes");;
  Ok (mkCatalogCommit kind generation_before generation_after header (fst pages)).

Definition boundary_encode (p : CheckpointBoundaryPayload) : Result (list Z) :=
  reject_if (negb (DbHeader.checkpoint_applied_lsn (cb_header p) =? cb_checkpoint_applied_lsn p))
    (invalid_log_record "Phase 8 CheckpointBoundary header checkpoint_applied_lsn mismatch");;
  header_len ← len_to_u32 DbHeader.HEADER_PAGE_SIZE;
  header ← DbHeader.to_bytes (cb_header p);
  Ok (CHECKPOINT_BOUNDARY_PAYLOAD_MAGIC ++ le_bytes 2 CHECKPOINT_BOUNDARY_PAYLOAD_VERSION ++ le_bytes 2 0
        ++ le_bytes 8 (cb_checkpoint_applied_lsn p) ++ le_bytes 8 (cb_batch_id p) ++ le_bytes 4 header_len ++ header).

Definition boundary_decode (buf : list Z) : Result CheckpointBoundaryPayload :=
  let PREFIX_LEN := 28 in
  reject_if (len buf <? PREFIX_LEN) (invalid_log_record "Phase 8 CheckpointBoundary payload truncated fixed header");;
  magic ← slice buf 0 4;
  reject_if (negb (bool_decide (magic = CHECKPOINT_BOUNDARY_PAYLOAD_MAGIC)))
    (invalid_log_record "Phase 8 CheckpointBoundary bad magic");;
  version ← read_le buf 4 2;
  reject_if (negb (version =? CHECKPOINT_BOUNDARY_PAYLOAD_VERSION))
    (invalid_log_record "Phase 8 CheckpointBoundary bad version");;
  reserved ← read_le buf 6 2;
  reject_if (negb (reserved =? 0)) (invalid_log_record "Phase 8 CheckpointBoundary reserved field must be zero");;
  applied_lsn ← read_le buf 8 8;
  batch_id ← read_le buf 16 8;
  header_len ← read_le buf 24 4;
  reject_if (negb (header_len =? DbHeader.HEADER_PAGE_SIZE))
    (invalid_log_record "Phase 8 CheckpointBoundary header length is invalid");;
  reject_if (negb (len buf =? PREFIX_LEN + DbHeader.HEADER_PAGE_SIZE))
    (invalid_log_record "Phase 8 CheckpointBoundary payload length mismatch");;
  header_bytes ← slice buf PREFIX_LEN (len buf);
  header ← DbHeader.from_bytes header_bytes;
  reject_if (negb (DbHeader.checkpoint_applied_lsn header =? applied_lsn))
    (invalid_log_record "Phase 8 CheckpointBoundary header checkpoint_applied_lsn mismatch");;
  Ok (mkBoundary applied_lsn batch_id header).

(** ** Chain-commit frames *)

Record ChainPageWrite : Set := mkPageWrite { pw_page : Z; pw_page_size : JournalPageSize; pw_data : list Z }.

Record ChainCommitFrame : Set := mkChainCommit {
  ch_salt1 : Z;
  ch_salt2 : Z;
  ch_commit_ts : Ts;
  ch_refcount_deltas : list (Z * Z);
  ch_page_writes : list ChainPageWrite }.

Definition FRAME_KIND_CHAIN_COMMIT := 0x02.
Definition CHAIN_COMMIT_FIXED_HEADER_LEN := 32.
Definition CHAIN_COMMIT_MAX_FRAME_SIZE := 64 * 1024 * 1024.

Definition page_write_encoded_len (w : ChainPageWrite) : Z := 8 + page_size_bytes (pw_page_size w).

Definition total_frame_bytes (f : ChainCommitFrame) : Z :=
  36 + 8 * len (ch_refcount_deltas f) + foldr (fun w n => page_write_encoded_len w + n) 0 (ch_page_writes f) + 4.

Definition page_size_marker (s : JournalPageSize) : Z := match s with Small4k => 0 | Large32k => 1 end.

Definition marker_page_size (marker : Z) : option JournalPageSize :=
  if marker =? 0 then Some Small4k else if marker =? 1 then Some Large32k else None.

(** The two loops that append the deltas and the page writes *)
Definition delta_bytes (d : Z * Z) : list Z := le_bytes 4 (fst d) ++ le_bytes 4 (as_u 32 (snd d)).
Definition page_write_bytes (w : ChainPageWrite) : list Z :=
  le_bytes 4 (pw_page w) ++ [page_size_marker (pw_page_size w)] ++ zeros 3 ++ pw_data w.

Definition chain_commit_encode (f : ChainCommitFrame) : Result (list Z) :=
  let total := total_frame_bytes f in
  reject_if (CHAIN_COMMIT_MAX_FRAME_SIZE <? total) (Internal "ChainCommit frame exceeds MAX_FRAME_SIZE");;
  reject_if (2 ^ 32 <=? total) (Internal "ChainCommit frame length overflows u32");;
  reject_if (2 ^ 32 <=? len (ch_refcount_deltas f)) (Internal "ChainCommit refcount_delta_count exceeds u32");;
  reject_if (2 ^ 32 <=? len (ch_page_writes f)) (Internal "ChainCommit page_write_count exceeds u32");;
  let buf := [FRAME_KIND_CHAIN_COMMIT] ++ zeros 3 ++ le_bytes 4 total ++ le_bytes 4 (ch_salt1 f) ++ le_bytes 4 (ch_salt2 f)
               ++ ts_to_le_bytes (ch_commit_ts f) ++ le_bytes 4 (len (ch_refcount_deltas f))
               ++ concat (map delta_bytes (ch_refcount_deltas f))
               ++ le_bytes 4 (len (ch_page_writes f)) ++ concat (map page_write_bytes (ch_page_writes f)) in
  Ok (buf ++ le_bytes 4 (crc32c buf)).

(** [Ok(None)] is "no such frame here". *)
Fixpoint decode_deltas (n : nat) (buf : list Z) (cursor body_end : Z) : Result (option (list (Z * Z) * Z)) :=
  match n with
  | O => Ok (Some ([], cursor))
  | S n' =>
      if body_end <? cursor + 8 then Ok None
      else
        page ← read_le buf cursor 4;
        delta ← read_le buf (cursor + 4) 4;
        rest ← decode_deltas n' buf (cursor + 8) body_end;
        Ok (match rest with Some (ds, c) => Some ((page, as_i 32 delta) :: ds, c) | None => None end)
  end.

Fixpoint decode_page_writes (n : nat) (buf : list Z) (cursor body_end : Z) : Result (option (list ChainPageWrite * Z)) :=
  match n with
  | O => Ok (Some ([], cursor))
  | S n' =>
      if body_end <? cursor + 8 then Ok None
      else
        page ← read_le buf cursor 4;
        marker ← index buf (cursor + 4);
        match marker_page_size marker with
        | None => Ok None
        | Some page_size =>
            let cursor := cursor + 8 in
            let data_len := page_size_bytes page_size in
            if body_end <? cursor + data_len then Ok None
            else
              data ← slice buf cursor (cursor + data_len);
              rest ← decode_page_writes n' buf (cursor + data_len) body_end;
              Ok (match rest with Some (ws, c) => Some (mkPageWrite page page_size data :: ws, c) | None => None end)
        end
  end.

Definition chain_commit_decode (buf : list Z) (expected_salt1 expected_salt2 : Z) : Result (option ChainCommitFrame) :=
  if len buf <? CHAIN_COMMIT_FIXED_HEADER_LEN then Ok None
  else
    kind ← index buf 0;
    if negb (kind =? FRAME_KIND_CHAIN_COMMIT) then Ok None
    else
      total ← read_le buf 4 4;
      if CHAIN_COMMIT_MAX_FRAME_SIZE <? total then Ok None
      else
        delta_count ← read_le buf 28 4;
        let min_required := saturating_add 64 (saturating_add 64 36 (Z.min (8 * delta_count) u64_max)) 4 in
        if total <? min_required then Ok None
        else if len buf <? total then Ok None
        else
          salt1 ← read_le buf 8 4;
          salt2 ← read_le buf 12 4;
          if negb (salt1 =? expected_salt1) || negb (salt2 =? expected_salt2) then Ok None
          else
            let body_end := total - 4 in
            stored_cs ← read_le buf body_end 4;
            body ← slice buf 0 body_end;
            if negb (stored_cs =? crc32c body) then Ok None
            else
              ts ← slice buf 16 28;
              deltas ← decode_deltas (Z.to_nat delta_count) buf 32 body_end;
              match deltas with
              | None => Ok None
              | Some (refcount_deltas, cursor) =>
                  if body_end <? cursor + 4 then Ok None
                  else
                    write_count ← read_le buf cursor 4;
                    let cursor := cursor + 4 in
                    let remaining := saturating_sub body_end cursor in
                    let min_page_write_bytes := 8 + page_size_bytes Small4k in
                    if remaining / min_page_write_bytes <? write_count then Ok None
                    else
                      writes ← decode_page_writes (Z.to_nat write_count) buf cursor body_end;
                      match writes with
                      | None => Ok None
                      | Some (page_writes, cursor) =>
                          if negb (cursor =? body_end) then Ok None
                          else Ok (Some (mkChainCommit salt1 salt2 (ts_from_le_bytes ts) refcount_deltas page_writes))
                      end
              end.

End Codec.

(** ** Page lists *)

Lemma page_size_from_bytes s : page_size_from_u32 (page_size_bytes s) = Ok s.
Proof. by destruct s. Qed.

Lemma page_size_u32 s : is_u32 (page_size_bytes s) /\ 4096 <= page_size_bytes s <= 32768.
Proof. by destruct s. Qed.

Definition catalog_page_ok (p : CatalogCommitPage) : Prop :=
  is_u32 (cp_page_number p) /\ len (cp_data p) = page_size_bytes (cp_page_size p).

Definition catalog_page_bytes (p : CatalogCommitPage) : list Z :=
  le_bytes 4 (cp_page_number p) ++ le_bytes 4 (page_size_bytes (cp_page_size p)) ++ le_bytes 4 (len (cp_data p)) ++ cp_data p.

Lemma encode_pages_eq pages out :
  Forall catalog_page_ok pages -> encode_pages pages out = Ok (out ++ concat (map catalog_page_bytes pages)).
Proof.
  intros Hok. revert out. induction Hok as [|p pages [Hn Hl] _ IH]; intros out; simpl; [by rewrite app_nil_r|].
  destruct (page_size_u32 (cp_page_size p)) as [_ Hs]. rewrite reject_if_eq, bind_Ok by done.
  unfold len_to_u32. destruct (Z.ltb_spec (len (cp_data p)) (2 ^ 32)); [|lia]. rewrite bind_Ok, IH.
  unfold catalog_page_bytes. by rewrite <- !app_assoc.
Qed.

Lemma decode_pages_holds pages : forall buf cursor,
  Forall catalog_page_ok pages -> holds buf cursor (concat (map catalog_page_bytes pages)) -> len buf < 2 ^ 63 ->
  decode_pages (length pages) buf cursor = Ok (pages, cursor + len (concat (map catalog_page_bytes pages))).
Proof.
  induction pages as [|p pages IH]; intros buf cursor Hok Hh Hb;
    cbn [length map concat decode_pages] in *; [by rewrite len_nil, Z.add_0_r|].
  inversion Hok as [|? ? [Hn Hl] Hok']; subst. destruct (page_size_u32 (cp_page_size p)) as [Hs32 Hs].
  pose proof (holds_bounds _ _ _ Hh) as [Hc Hbound]. rewrite len_app in Hbound.
  pose proof (len_nonneg (concat (map catalog_page_bytes pages))).
  apply holds_app in Hh as [Hp Hrest]. assert (Hlp : len (catalog_page_bytes p) = 12 + page_size_bytes (cp_page_size p))
    by (unfold catalog_page_bytes; autorewrite with len; rewrite Hl; simpl; lia).
  rewrite Hlp in Hbound, Hrest. unfold catalog_page_bytes in Hp. rewrite Hl in Hp. split_fields.
  unfold saturating_sub. rewrite (reject_if_ge _ 12), bind_Ok by lia.
  repeat (read_field; rewrite ?page_size_from_bytes, ?bind_Ok).
  rewrite reject_if_eq, bind_Ok by done. rewrite ok_or_checked_add, bind_Ok, reject_if_ge, bind_Ok by lia.
  read_field. replace (cursor + 12 + page_size_bytes (cp_page_size p)) with (cursor + (12 + page_size_bytes (cp_page_size p))) by lia.
  rewrite IH, bind_Ok by done. simpl. rewrite Hlp.
  destruct p as [n s d]; simpl. do 2 f_equal. lia.
Qed.

Section PayloadProofs.
Context `{Crc32c}.

Definition page_frame_wf (f : CheckpointPageFramePayload) : Prop :=
  is_u64 (pf_batch_id f) /\ is_u32 (pf_page_number f) /\ len (pf_data f) = page_size_bytes (pf_page_size f).

Lemma len_magics :
  len CATALOG_COMMIT_PAYLOAD_MAGIC = 4 /\ len CHECKPOINT_BOUNDARY_PAYLOAD_MAGIC = 4
  /\ len CHECKPOINT_PAGE_FRAME_PAYLOAD_MAGIC = 4.
Proof. done. Qed.

Lemma pool_from_wire_value p : pool_from_wire (pool_wire_value p) = Ok p.
Proof. by destruct p. Qed.

Lemma page_frame_roundtrip f :
  page_frame_wf f -> exists buf, page_frame_encode f = Ok buf /\ page_frame_decode buf = Ok f.
Proof.
  intros (Hb & Hn & Hl). destruct (page_size_u32 (pf_page_size f)) as [Hs32 Hs]. destruct len_magics as (_ & _ & Hm).
  unfold page_frame_encode. rewrite reject_if_eq, bind_Ok by done. unfold len_to_u32.
  destruct (Z.ltb_spec (len (pf_data f)) (2 ^ 32)); [|lia]. rewrite bind_Ok. eexists; split; [done|].
  match goal with |- page_frame_decode ?b = _ => pose proof (holds_self b) as Hh; set (buf := b) in * end.
  assert (Hlen : len buf = 28 + page_size_bytes (pf_page_size f)).
  { unfold buf. autorewrite with len. rewrite Hm, Hl. simpl. lia. }
  unfold buf in Hh at 2. clearbody buf. rewrite Hl in Hh. split_fields. rewrite Hm in *.
  unfold page_frame_decode. cbv zeta. rewrite (reject_if_ge _ 24), bind_Ok by lia.
  assert (is_u16 CHECKPOINT_PAGE_FRAME_PAYLOAD_VERSION) by done.
  repeat (read_field; rewrite ?bool_decide_eq_true_2 by done; rewrite ?Z.eqb_refl; simpl negb;
    rewrite ?reject_if_false, ?bind_Ok, ?pool_from_wire_value, ?bind_Ok, ?page_size_from_bytes, ?bind_Ok).
  rewrite reject_if_eq, bind_Ok by lia. by destruct f.
Qed.

Lemma catalog_from_wire_value k : catalog_from_wire (catalog_wire_value k) = Ok k.
Proof. by destruct k. Qed.

Definition catalog_commit_wf (p : CatalogCommitPayload) : Prop :=
  is_u64 (cc_generation_before p) /\ is_u64 (cc_generation_after p) /\ DbHeader.header_wf (cc_header p) /\
  Forall catalog_page_ok (cc_pages p) /\ len (concat (map catalog_page_bytes (cc_pages p))) < 2 ^ 32.

Lemma pages_count_le pages : Forall catalog_page_ok pages -> len pages <= len (concat (map catalog_page_bytes pages)).
Proof.
  induction 1 as [|p pages _ _ IH]; [done|]. cbn [map concat]. rewrite len_cons, len_app. unfold catalog_page_bytes at 1.
  autorewrite with len. pose proof (len_nonneg (cp_data p)). simpl Z.of_nat. lia.
Qed.

Lemma catalog_commit_roundtrip p :
  catalog_commit_wf p -> exists buf, catalog_commit_encode p = Ok buf /\ catalog_commit_decode buf = Ok p.
Proof.
  intros (Hg1 & Hg2 & Hh & Hp & Hsz). destruct len_magics as (Hm & _ & _). pose proof (pages_count_le _ Hp) as Hcnt.
  pose proof (len_nonneg (cc_pages p)).
  destruct (DbHeader.to_bytes_regions (cc_header p)) as (hb & Hhb & Hhl & R1 & R2 & R3); [by rewrite (proj1 Hh)|].
  unfold catalog_commit_encode, len_to_u32. rewrite Hhb. change (DbHeader.HEADER_PAGE_SIZE <? 2 ^ 32) with true.
  destruct (Z.ltb_spec (len (cc_pages p)) (2 ^ 32)); [|lia]. rewrite !bind_Ok, encode_pages_eq by done.
  eexists; split; [done|]. unfold DbHeader.HEADER_PAGE_SIZE, PAGE_SIZE_INTERNAL in Hhl.
  match goal with |- catalog_commit_decode ?b = _ => pose proof (holds_self b) as Hb; set (buf := b) in * end.
  assert (Hlen : len buf = 28 + 4096 + 4 + len (concat (map catalog_page_bytes (cc_pages p)))).
  { unfold buf. autorewrite with len. rewrite Hm, Hhl. simpl. lia. }
  unfold buf in Hb at 2. clearbody buf. split_fields. rewrite Hm, Hhl in *.
  unfold catalog_commit_decode. cbv zeta. rewrite (reject_if_ge _ 28), bind_Ok by lia.
  assert (is_u16 CATALOG_COMMIT_PAYLOAD_VERSION /\ is_u32 DbHeader.HEADER_PAGE_SIZE) as [? ?] by done.
  assert (is_u32 (len (cc_pages p))) by (unfold is_u; lia).
  repeat (read_field; rewrite ?bool_decide_eq_true_2 by done; rewrite ?Z.eqb_refl; simpl negb;
    rewrite ?reject_if_false, ?bind_Ok, ?catalog_from_wire_value, ?bind_Ok).
  rewrite ok_or_checked_add, bind_Ok by done. change (28 + DbHeader.HEADER_PAGE_SIZE) with 4124.
  rewrite reject_if_ge, bind_Ok by lia. rewrite (slice_field _ _ 28 4124 hb) by (eassumption || lia).
  rewrite bind_Ok, (DbHeader.from_bytes_regions (cc_header p)), bind_Ok by done.
  read_field. rewrite to_nat_len, (decode_pages_holds (cc_pages p)), bind_Ok.
  - simpl fst. simpl snd. rewrite reject_if_eq, bind_Ok by lia. by destruct p.
  - done.
  - eapply holds_at; [eassumption|lia].
  - lia.
Qed.

Definition boundary_wf (p : CheckpointBoundaryPayload) : Prop :=
  is_u64 (cb_batch_id p) /\ DbHeader.header_wf (cb_header p) /\
  cb_checkpoint_applied_lsn p = DbHeader.checkpoint_applied_lsn (cb_header p).

Lemma boundary_roundtrip p :
  boundary_wf p -> exists buf, boundary_encode p = Ok buf /\ boundary_decode buf = Ok p.
Proof.
  intros (Hb & Hh & Hlsn). destruct len_magics as (_ & Hm & _).
  assert (is_u64 (cb_checkpoint_applied_lsn p)).
  { rewrite Hlsn. destruct Hh as (_ & _ & _ & _ & _ & _ & _ & _ & _ & Hf). by do 2 apply Forall_inv_tail in Hf; apply Forall_inv in Hf. }
  destruct (DbHeader.to_bytes_regions (cb_header p)) as (hb & Hhb & Hhl & R1 & R2 & R3); [by rewrite (proj1 Hh)|].
  unfold boundary_encode, len_to_u32. rewrite reject_if_eq, bind_Ok, Hhb by done.
  change (DbHeader.HEADER_PAGE_SIZE <? 2 ^ 32) with true. cbv iota. rewrite !bind_Ok. eexists; split; [done|].
  unfold DbHeader.HEADER_PAGE_SIZE, PAGE_SIZE_INTERNAL in Hhl.
  match goal with |- boundary_decode ?b = _ => pose proof (holds_self b) as Hbuf; set (buf := b) in * end.
  assert (Hlen : len buf = 28 + 4096) by (unfold buf; autorewrite with len; rewrite Hm, Hhl; simpl; lia).
  unfold buf in Hbuf at 2. clearbody buf. split_fields. rewrite Hm in *.
  unfold boundary_decode. cbv zeta. rewrite (reject_if_ge _ 28), bind_Ok by lia.
  assert (is_u16 CHECKPOINT_BOUNDARY_PAYLOAD_VERSION /\ is_u32 DbHeader.HEADER_PAGE_SIZE /\ is_u16 0) as (? & ? & ?) by done.
  rewrite (slice_field _ _ 28 (len buf) hb) by (eassumption || lia).
  repeat (read_field; rewrite ?bool_decide_eq_true_2 by done; rewrite ?Z.eqb_refl; simpl negb;
    rewrite ?reject_if_false, ?bind_Ok).
  rewrite reject_if_eq, bind_Ok by (rewrite Hlen; reflexivity).
  rewrite (DbHeader.from_bytes_regions (cb_header p)), bind_Ok by done.
  rewrite reject_if_eq, bind_Ok by done. by destruct p.
Qed.

(** ** Chain-commit frames *)

Definition delta_ok (d : Z * Z) : Prop := is_u32 (fst d) /\ is_i32 (snd d).
Definition page_write_ok (w : ChainPageWrite) : Prop :=
  is_u32 (pw_page w) /\ len (pw_data w) = page_size_bytes (pw_page_size w).

Definition chain_commit_wf (f : ChainCommitFrame) : Prop :=
  is_u32 (ch_salt1 f) /\ is_u32 (ch_salt2 f) /\ ts_wf (ch_commit_ts f) /\
  Forall delta_ok (ch_refcount_deltas f) /\ Forall page_write_ok (ch_page_writes f) /\
  total_frame_bytes f <= CHAIN_COMMIT_MAX_FRAME_SIZE.

Lemma len_deltas ds : len (concat (map delta_bytes ds)) = 8 * len ds.
Proof.
  induction ds as [|d ds IH]; [done|]. cbn [map concat]. rewrite len_app, len_cons, IH. unfold delta_bytes.
  rewrite len_app, !len_le_bytes. simpl Z.of_nat. lia.
Qed.

Lemma len_page_write w : page_write_ok w -> len (page_write_bytes w) = page_write_encoded_len w.
Proof.
  intros [_ Hl]. unfold page_write_bytes, page_write_encoded_len. rewrite !len_app, len_le_bytes, Hl.
  change (len (zeros 3)) with 3. rewrite len_cons, len_nil. simpl Z.of_nat. lia.
Qed.

Lemma len_page_writes ws :
  Forall page_write_ok ws ->
  len (concat (map page_write_bytes ws)) = foldr (fun w n => page_write_encoded_len w + n) 0 ws.
Proof.
  induction 1 as [|w ws Hw _ IH]; [done|]. cbn [map concat foldr]. by rewrite len_app, IH, len_page_write.
Qed.

Lemma page_writes_ge ws :
  Forall page_write_ok ws -> (8 + 4096) * len ws <= len (concat (map page_write_bytes ws)).
Proof.
  induction 1 as [|w ws Hw _ IH]; [done|]. cbn [map concat]. rewrite len_cons, len_app, len_page_write by done.
  destruct (page_size_u32 (pw_page_size w)) as [_ ?]. unfold page_write_encoded_len. lia.
Qed.

Lemma decode_deltas_holds ds : forall buf cursor body_end,
  Forall delta_ok ds -> holds buf cursor (concat (map delta_bytes ds)) -> cursor + 8 * len ds <= body_end ->
  decode_deltas (length ds) buf cursor body_end = Ok (Some (ds, cursor + 8 * len ds)).
Proof.
  induction ds as [|[pg d] ds IH]; intros buf cursor body_end Hok Hh Hb.
  - change (len (@nil (Z * Z))) with 0. by rewrite Z.add_0_r.
  - inversion Hok as [|? ? [Hp Hd] Hok']; subst. cbn [length map concat decode_deltas fst snd] in *.
    rewrite len_cons in *. pose proof (len_nonneg ds).
    destruct (Z.ltb_spec body_end (cursor + 8)); [lia|]. unfold delta_bytes in Hh at 1. cbn [fst snd] in Hh.
    assert (is_u32 (as_u 32 d)) by (apply as_u_range; lia). split_fields. do 2 read_field.
    rewrite IH, bind_Ok; [|done|eapply holds_at; [eassumption|lia]|lia].
    rewrite as_i_as_u by (done || lia). do 3 f_equal. lia.
Qed.

Lemma decode_page_writes_holds ws : forall buf cursor body_end,
  Forall page_write_ok ws -> holds buf cursor (concat (map page_write_bytes ws)) ->
  cursor + len (concat (map page_write_bytes ws)) <= body_end ->
  decode_page_writes (length ws) buf cursor body_end = Ok (Some (ws, cursor + len (concat (map page_write_bytes ws)))).
Proof.
  induction ws as [|w ws IH]; intros buf cursor body_end Hok Hh Hb.
  - cbn [map concat]. by rewrite len_nil, Z.add_0_r.
  - inversion Hok as [|? ? Hw Hok']; subst. cbn [length map concat decode_page_writes] in *.
    pose proof (len_page_write w Hw) as Hlw. destruct Hw as [Hp Hl]. unfold page_write_encoded_len in Hlw.
    rewrite len_app, Hlw in *. pose proof (len_nonneg (concat (map page_write_bytes ws))).
    destruct (page_size_u32 (pw_page_size w)) as [_ Hs].
    apply holds_app in Hh as [Hw Hrest]. rewrite Hlw in Hrest. unfold page_write_bytes in Hw.
    assert (len (zeros 3) = 3) as Hz by done. destruct (Z.ltb_spec body_end (cursor + 8)); [lia|]. split_fields. rewrite Hz in *.
    do 2 read_field. replace (marker_page_size (page_size_marker (pw_page_size w))) with (Some (pw_page_size w))
      by (by destruct (pw_page_size w)).
    cbv zeta. destruct (Z.ltb_spec body_end (cursor + 8 + page_size_bytes (pw_page_size w))); [lia|]. read_field.
    rewrite IH, bind_Ok; [|done|eapply holds_at; [eassumption|lia]|lia].
    destruct w; simpl. do 3 f_equal. lia.
Qed.

Lemma chain_commit_roundtrip_aux f :
  chain_commit_wf f ->
  exists buf, chain_commit_encode f = Ok buf /\ chain_commit_decode buf (ch_salt1 f) (ch_salt2 f) = Ok (Some f).
Proof.
  intros (Hs1 & Hs2 & Hts & Hd & Hw & Hmax). unfold CHAIN_COMMIT_MAX_FRAME_SIZE in Hmax.
  pose proof (len_deltas (ch_refcount_deltas f)) as Hld. pose proof (len_page_writes _ Hw) as Hlw.
  pose proof (page_writes_ge _ Hw) as Hge. pose proof (len_nonneg (ch_refcount_deltas f)). pose proof (len_nonneg (ch_page_writes f)).
  assert (Htot : total_frame_bytes f = 36 + 8 * len (ch_refcount_deltas f)
    + len (concat (map page_write_bytes (ch_page_writes f))) + 4) by (unfold total_frame_bytes; rewrite Hlw; done).
  set (total := total_frame_bytes f) in *. unfold chain_commit_encode. fold total. cbv zeta.
  unfold CHAIN_COMMIT_MAX_FRAME_SIZE. rewrite (reject_if_ge (64 * 1024 * 1024)), bind_Ok by lia.
  rewrite !reject_if_leb, !bind_Ok by lia. eexists; split; [done|].
  match goal with |- chain_commit_decode (?b ++ _) _ _ = _ => set (body := b) in * end.
  set (buf := body ++ le_bytes 4 (crc32c body)).
  assert (Hbody : len body = total - 4).
  { unfold body. rewrite !len_app, Hld, !len_le_bytes, len_ts_to_le_bytes. change (len (zeros 3)) with 3. rewrite len_cons, len_nil.
    simpl Z.of_nat. lia. }
  assert (Hlen : len buf = total) by (unfold buf; rewrite len_app, len_le_bytes, Hbody; lia).
  pose proof (holds_self buf) as Hh. unfold buf in Hh at 2. clearbody buf.
  apply holds_app in Hh as [Hh Hcs]. pose proof Hh as Hb. unfold body in Hh.
  assert (len (zeros 3) = 3) as Hz by done. split_fields. rewrite Hz, Hld in *.
  clearbody body. assert (is_u32 (crc32c body)) by apply crc32c_u32.
  assert (is_u32 total /\ is_u32 (len (ch_refcount_deltas f)) /\ is_u32 (len (ch_page_writes f))) as (? & ? & ?)
    by (unfold is_u; lia).
  unfold chain_commit_decode, CHAIN_COMMIT_FIXED_HEADER_LEN, CHAIN_COMMIT_MAX_FRAME_SIZE. cbv zeta.
  rewrite (proj2 (Z.ltb_ge (len buf) 32)) by lia. repeat read_field. rewrite Z.eqb_refl. simpl negb. cbv iota.
  rewrite ?bind_Ok, (proj2 (Z.ltb_ge (64 * 1024 * 1024) total)) by lia. unfold saturating_add, u64_max.
  rewrite (proj2 (Z.ltb_ge total _)) by lia. rewrite (proj2 (Z.ltb_ge (len buf) total)) by lia.
  rewrite !Z.eqb_refl. simpl orb. cbv iota. repeat read_field. rewrite ?Z.eqb_refl. simpl negb. cbv iota.
  rewrite to_nat_len, (decode_deltas_holds (ch_refcount_deltas f)), bind_Ok;
    [|done|eapply holds_at; [eassumption|lia]|lia].
  rewrite (proj2 (Z.ltb_ge (total - 4) _)) by lia.
  rewrite (read_le_field buf _ (32 + 8 * len (ch_refcount_deltas f)) 4 (len (ch_page_writes f))) by (eassumption || lia).
  rewrite bind_Ok. unfold saturating_sub. change (8 + page_size_bytes Small4k) with 4104.
  rewrite (proj2 (Z.ltb_ge _ (len (ch_page_writes f)))) by (apply Z.div_le_lower_bound; lia).
  rewrite to_nat_len, (decode_page_writes_holds (ch_page_writes f)), bind_Ok;
    [|done|eapply holds_at; [eassumption|lia]|lia].
  rewrite (proj2 (Z.eqb_eq _ (total - 4))) by lia. simpl negb. cbv iota. rewrite ts_le_roundtrip by done. by destruct f.
Qed.

(** ** Panic freedom *)

Lemma decode_deltas_no_panic n : forall buf cursor body_end,
  0 <= cursor -> body_end <= len buf -> no_panic (decode_deltas n buf cursor body_end).
Proof.
  induction n as [|n IH]; intros buf cursor body_end Hc Hb; simpl; [discriminate|].
  destruct (Z.ltb_spec body_end (cursor + 8)); [discriminate|]. panic_free.
  apply no_panic_bind; [apply IH; lia|]. discriminate.
Qed.

Lemma decode_deltas_cursor n : forall buf cursor body_end ds c,
  decode_deltas n buf cursor body_end = Ok (Some (ds, c)) -> cursor <= c.
Proof.
  induction n as [|n IH]; intros buf cursor body_end ds c; simpl; [by intros [= <- <-]|].
  destruct (_ <? _); [done|]. intros Hd. bind_inv Hd. destruct x1 as [[ds' c']|]; [|done]. injection Hd as <- <-.
  apply IH in Hx1. lia.
Qed.

Lemma decode_page_writes_no_panic n : forall buf cursor body_end,
  0 <= cursor -> body_end <= len buf -> no_panic (decode_page_writes n buf cursor body_end).
Proof.
  induction n as [|n IH]; intros buf cursor body_end Hc Hb; simpl; [discriminate|].
  destruct (Z.ltb_spec body_end (cursor + 8)); [discriminate|]. panic_free.
  destruct (marker_page_size _) as [s|]; [|discriminate]. destruct (page_size_u32 s) as [_ ?].
  destruct (Z.ltb_spec body_end (cursor + 8 + page_size_bytes s)); [discriminate|]. panic_free.
  apply no_panic_bind; [apply IH; lia|]. discriminate.
Qed.

Lemma chain_commit_decode_no_panic buf s1 s2 : bytes_ok buf -> no_panic (chain_commit_decode buf s1 s2).
Proof.
  intros Hb. unfold chain_commit_decode, CHAIN_COMMIT_FIXED_HEADER_LEN, CHAIN_COMMIT_MAX_FRAME_SIZE, saturating_add.
  destruct (Z.ltb_spec (len buf) 32); [discriminate|]. panic_free. destruct (negb _); [discriminate|]. panic_free.
  destruct (_ <? a0); [discriminate|]. panic_free. match goal with |- context [a0 <? ?m] => destruct (Z.ltb_spec a0 m) as [|Hmin]; [discriminate|] end.
  destruct (Z.ltb_spec (len buf) a0); [discriminate|]. unfold u64_max in Hmin.
  assert (40 <= a0) by lia. panic_free. destruct (_ || _); [discriminate|]. panic_free.
  destruct (negb _); [discriminate|]. panic_free. apply no_panic_bind; [apply decode_deltas_no_panic; lia|].
  intros [[ds c]|] Hd; [|discriminate]. apply decode_deltas_cursor in Hd.
  destruct (Z.ltb_spec (a0 - 4) (c + 4)); [discriminate|]. panic_free. destruct (_ <? _); [discriminate|].
  apply no_panic_bind; [apply decode_page_writes_no_panic; lia|].
  intros [[ws c']|] Hw; [|discriminate]. destruct (negb _); discriminate.
Qed.

(** ** Theorems *)

(** C36: The typed payloads survive the journal: a catalog commit with its page
    images and header, a checkpoint boundary and a checkpoint page frame each
    encode, and decode back to exactly themselves. *)
Theorem payloads_roundtrip p b f :
  catalog_commit_wf p -> boundary_wf b -> page_frame_wf f ->
  (exists buf, catalog_commit_encode p = Ok buf /\ catalog_commit_decode buf = Ok p)
  /\ (exists buf, boundary_encode b = Ok buf /\ boundary_decode buf = Ok b)
  /\ (exists buf, page_frame_encode f = Ok buf /\ page_frame_decode buf = Ok f).
Proof. auto using catalog_commit_roundtrip, boundary_roundtrip, page_frame_roundtrip. Qed.

(** A chain-commit frame survives the journal: a frame within the size cap
    encodes, and with the salts it was written under decodes back to itself
    (signed refcount deltas and page images included).  Decoding arbitrary
    bytes under any salts never panics. *)
Theorem chain_commit_roundtrip f :
  chain_commit_wf f ->
  (exists buf, chain_commit_encode f = Ok buf /\ chain_commit_decode buf (ch_salt1 f) (ch_salt2 f) = Ok (Some f))
  /\ (forall buf s1 s2, bytes_ok buf -> no_panic (chain_commit_decode buf s1 s2)).
Proof. intros Hf. split; [by apply chain_commit_roundtrip_aux|]. intros. by apply chain_commit_decode_no_panic. Qed.
End PayloadProofs.

(** A page frame with one zeroed internal page *)
Definition demo_page_frame : CheckpointPageFramePayload := mkPageFrame 9 PoolMain 4 Small4k (zeros 4096).
Definition demo_header : DbHeader.FileHeader := DbHeader.new 1700000000000 17 23.
Definition demo_catalog_commit : CatalogCommitPayload :=
  mkCatalogCommit IndexBuild 1 2 demo_header [mkCatalogPage 4 Small4k (zeros 4096)].

Lemma demo_header_wf : DbHeader.header_wf demo_header.
Proof. split_and!; try done; repeat (apply List.Forall_cons; [done|]); apply List.Forall_nil. Qed.

Lemma payloads_roundtrip_witness :
  exists buf, @catalog_commit_encode Bitwise.crc32c_bitwise demo_catalog_commit = Ok buf
    /\ @catalog_commit_decode Bitwise.crc32c_bitwise buf = Ok demo_catalog_commit.
Proof.
  refine (proj1 (@payloads_roundtrip Bitwise.crc32c_bitwise demo_catalog_commit (mkBoundary 0 9 demo_header)
    demo_page_frame _ _ _)).
  - split; [done|]. split; [done|]. split; [apply demo_header_wf|]. split.
    + apply List.Forall_cons; [by split|apply List.Forall_nil].
    + by vm_compute.
  - split; [done|]. split; [apply demo_header_wf|done].
  - by split_and!.
Defined.

Lemma chain_commit_roundtrip_witness :
  exists buf, @chain_commit_encode Bitwise.crc32c_bitwise (mkChainCommit 17 23 (mkTs 5 1) [(4, -1); (6, 2)] []) = Ok buf
    /\ @chain_commit_decode Bitwise.crc32c_bitwise buf 17 23 = Ok (Some (mkChainCommit 17 23 (mkTs 5 1) [(4, -1); (6, 2)] [])).
Proof.
  refine (proj1 (@chain_commit_roundtrip Bitwise.crc32c_bitwise (mkChainCommit 17 23 (mkTs 5 1) [(4, -1); (6, 2)] []) _)).
  split_and!; try done; repeat (apply List.Forall_cons; [by split|]); apply List.Forall_nil.
Defined.

(** A truncated checkpoint page frame makes its decoder panic: a payload of
    24 to 27 bytes passes the length check, which stops at byte 24, and the
    read of the data length at bytes 24 to 27 then indexes past the end.  Every
    other length decodes or is refused with an error. *)
Theorem page_frame_decode_panics :
  page_frame_decode (CHECKPOINT_PAGE_FRAME_PAYLOAD_MAGIC ++ le_bytes 2 CHECKPOINT_PAGE_FRAME_PAYLOAD_VERSION
    ++ [0; 0] ++ le_bytes 8 9 ++ le_bytes 4 4 ++ le_bytes 4 4096) = Panic
  /\ forall buf, bytes_ok buf -> ~ (24 <= len buf < 28) -> no_panic (page_frame_decode buf).
Proof.
  split; [by vm_compute|]. intros buf Hb Hl. unfold page_frame_decode.
  assert (forall v, no_panic (pool_from_wire v)) by (intros v; unfold pool_from_wire; repeat case_match; discriminate).
  assert (forall v, no_panic (page_size_from_u32 v)) by (intros v; unfold page_size_from_u32; repeat case_match; discriminate).
  panic_free.
Qed.

Lemma page_frame_decode_panics_witness : no_panic (page_frame_decode []).
Proof. refine (proj2 page_frame_decode_panics [] _ _); [apply List.Forall_nil|by vm_compute; intros []]. Defined.
