(* ===== verification/LogicalFrame.v ===== *)
(** * Logical transaction frames

    [journal/wire/logical.rs]: the frame that carries the staged writes of a
    transaction inside a CRUD commit record, built from the staging buffers of
    [mvcc/transaction.rs]. *)

From S2P Require Import Prelude Bytes Timestamp Crc Chain Parser.

#[local] Open Scope Z_scope.
#[local] Open Scope parser_scope.

(** ** Staged writes ([mvcc/transaction.rs]) *)

Inductive SecIndexOp : Set := SecInsert (id_bytes : list Z) | SecDelete.

Record SecIndexWrite : Set := mkSecWrite {
  sw_index_id : Z;
  sw_index_root_page : Z;
  sw_index_root_level : Z;
  sw_unique_directions : option (list bool);
  sw_key : list Z;
  sw_expected_head : option ExpectedHead;
  sw_op : SecIndexOp }.

Inductive PrimaryOp : Set := PrimInsert (data : list Z) | PrimUpdate (data : list Z) | PrimDelete.

Record PrimaryWrite : Set := mkPrimWrite {
  pw_ns_id : Z;
  pw_ns : list Z;
  pw_root_page : Z;
  pw_root_level : Z;
  pw_key : list Z;
  pw_expected_head : option ExpectedHead;
  pw_op : PrimaryOp }.

(** ** Frames *)

Definition FRAME_KIND_LOGICAL_TXN := 0x03.
Definition LOGICAL_TXN_FIXED_HEADER_LEN := 48.
Definition LOGICAL_TXN_MAX_FRAME_SIZE := 64 * 1024 * 1024.
Definition LOGICAL_TXN_MIN_FRAME_SIZE := LOGICAL_TXN_FIXED_HEADER_LEN + 4.
Definition LOGICAL_TXN_MAX_OP_COUNT := 1000000.
Definition LOGICAL_TXN_MAX_KEY_BYTES := 16 * 1024.
Definition LOGICAL_TXN_MAX_VALUE_BYTES := 16 * 1024 * 1024.
Definition LOGICAL_TXN_FORMAT_VERSION := 1.
Definition OP_KIND_PRIMARY_INSERT := 0x01.
Definition OP_KIND_PRIMARY_UPDATE := 0x02.
Definition OP_KIND_PRIMARY_DELETE := 0x03.
Definition OP_KIND_SECONDARY_INSERT := 0x11.
Definition OP_KIND_SECONDARY_DELETE := 0x12.
Definition LOGICAL_OP_PREFIX_LEN := 8.
Definition OVERFLOW_REF_WIRE_LEN := 12.

Record OverflowRefWire : Set := mkOverflowRef { ow_first_page : Z; ow_total_len : Z }.

Inductive LogicalOpKind : Set :=
| PrimaryInsert (ns_id : Z) (key value : list Z) (overflow : option OverflowRefWire)
| PrimaryUpdate (ns_id : Z) (key value : list Z) (overflow : option OverflowRefWire)
| PrimaryDelete (ns_id : Z) (key : list Z)
| SecondaryInsert (index_id : Z) (key id_bytes : list Z)
| SecondaryDelete (index_id : Z) (key : list Z).

Definition opcode (k : LogicalOpKind) : Z :=
  match k with
  | PrimaryInsert _ _ _ _ => OP_KIND_PRIMARY_INSERT
  | PrimaryUpdate _ _ _ _ => OP_KIND_PRIMARY_UPDATE
  | PrimaryDelete _ _ => OP_KIND_PRIMARY_DELETE
  | SecondaryInsert _ _ _ => OP_KIND_SECONDARY_INSERT
  | SecondaryDelete _ _ => OP_KIND_SECONDARY_DELETE
  end.

Definition body_len (k : LogicalOpKind) : Z :=
  match k with
  | PrimaryInsert _ key value overflow | PrimaryUpdate _ key value overflow =>
      8 + 4 + len key + 4 + len value + 1 + (match overflow with Some _ => OVERFLOW_REF_WIRE_LEN | None => 0 end)
  | PrimaryDelete _ key => 8 + 4 + len key
  | SecondaryInsert _ key id_bytes => 8 + 4 + len key + 4 + len id_bytes
  | SecondaryDelete _ key => 8 + 4 + len key
  end.

(** [id.to_le_bytes()] of an [i64] *)
Definition i64_le (z : Z) : list Z := le_bytes 8 (as_u 64 z).
(** [(b.len() as u32).to_le_bytes()] followed by [b] *)
Definition prefixed (b : list Z) : list Z := le_bytes 4 (as_u 32 (len b)) ++ b.

Definition overflow_bytes (o : option OverflowRefWire) : list Z :=
  match o with
  | None => [0]
  | Some r => [1] ++ le_bytes 4 (ow_first_page r) ++ le_bytes 8 (ow_total_len r)
  end.

Definition encode_body (k : LogicalOpKind) : list Z :=
  match k with
  | PrimaryInsert ns_id key value overflow | PrimaryUpdate ns_id key value overflow =>
      i64_le ns_id ++ prefixed key ++ prefixed value ++ overflow_bytes overflow
  | PrimaryDelete ns_id key => i64_le ns_id ++ prefixed key
  | SecondaryInsert index_id key id_bytes => i64_le index_id ++ prefixed key ++ prefixed id_bytes
  | SecondaryDelete index_id key => i64_le index_id ++ prefixed key
  end.

Record LogicalOp : Set := mkOp { op_ordinal : Z; op_kind : LogicalOpKind }.

Definition op_encoded_len (o : LogicalOp) : Z := LOGICAL_OP_PREFIX_LEN + body_len (op_kind o).

Definition encode_op (o : LogicalOp) : list Z :=
  [opcode (op_kind o)] ++ zeros 3 ++ le_bytes 4 (op_ordinal o) ++ encode_body (op_kind o).

Record LogicalTxnFrame : Set := mkFrame {
  lf_salt1 : Z;
  lf_salt2 : Z;
  lf_commit_ts : Ts;
  lf_diagnostic_txn_id : Z;
  lf_format_version : Z;
  lf_flags : Z;
  lf_ops : list LogicalOp }.

(** ** Building a frame from the staging buffers *)

Definition sec_op_kind (sw : SecIndexWrite) : LogicalOpKind :=
  match sw_op sw with
  | SecInsert id_bytes => SecondaryInsert (sw_index_id sw) (sw_key sw) id_bytes
  | SecDelete => SecondaryDelete (sw_index_id sw) (sw_key sw)
  end.

Definition prim_op_kind (pw : PrimaryWrite) : LogicalOpKind :=
  match pw_op pw with
  | PrimInsert data => PrimaryInsert (pw_ns_id pw) (pw_key pw) data None
  | PrimUpdate data => PrimaryUpdate (pw_ns_id pw) (pw_key pw) data None
  | PrimDelete => PrimaryDelete (pw_ns_id pw) (pw_key pw)
  end.

(** The two loops push operations with one running, saturating ordinal. *)
Fixpoint number_ops (ordinal : Z) (kinds : list LogicalOpKind) : list LogicalOp * Z :=
  match kinds with
  | [] => ([], ordinal)
  | k :: rest =>
      let (ops, last) := number_ops (saturating_add 32 ordinal 1) rest in
      (mkOp ordinal k :: ops, last)
  end.

Definition build_logical_txn_frame (txn_id : Z) (commit_ts : Ts) (salt1 salt2 : Z)
  (primary_writes : list PrimaryWrite) (sec_writes : list SecIndexWrite) : LogicalTxnFrame :=
  let (sec_ops, ordinal) := number_ops 0 (map sec_op_kind sec_writes) in
  let (prim_ops, _) := number_ops ordinal (map prim_op_kind primary_writes) in
  mkFrame salt1 salt2 commit_ts txn_id LOGICAL_TXN_FORMAT_VERSION 0 (sec_ops ++ prim_ops).

(** ** Encoding *)

Definition validate_inline_len (n max : Z) : Result unit :=
  reject_if (max <? n) (JournalFrameTooLarge n max).

Definition validate_op (o : LogicalOp) : Result unit :=
  match op_kind o with
  | PrimaryInsert _ key value _ | PrimaryUpdate _ key value _ =>
      validate_inline_len (len key) LOGICAL_TXN_MAX_KEY_BYTES;;
      validate_inline_len (len value) LOGICAL_TXN_MAX_VALUE_BYTES
  | PrimaryDelete _ key | SecondaryDelete _ key =>
      validate_inline_len (len key) LOGICAL_TXN_MAX_KEY_BYTES
  | SecondaryInsert _ key id_bytes =>
      validate_inline_len (len key) LOGICAL_TXN_MAX_KEY_BYTES;;
      validate_inline_len (len id_bytes) LOGICAL_TXN_MAX_VALUE_BYTES
  end.

Fixpoint validate_ops (ops : list LogicalOp) : Result unit :=
  match ops with
  | [] => Ok tt
  | o :: rest => validate_op o;; validate_ops rest
  end.

Definition validate_encode_limits (f : LogicalTxnFrame) (total : Z) : Result unit :=
  reject_if (LOGICAL_TXN_MAX_OP_COUNT <? len (lf_ops f)) (JournalFrameTooLarge total LOGICAL_TXN_MAX_FRAME_SIZE);;
  validate_ops (lf_ops f).

Definition frame_total_bytes (f : LogicalTxnFrame) : Z :=
  LOGICAL_TXN_FIXED_HEADER_LEN + foldr (fun o n => op_encoded_len o + n) 0 (lf_ops f) + 4.

Section Codec.
Context `{Crc32c}.

(** The bytes before the trailing checksum *)
Definition frame_body (f : LogicalTxnFrame) : list Z :=
  [FRAME_KIND_LOGICAL_TXN] ++ zeros 3 ++ le_bytes 4 (as_u 32 (frame_total_bytes f)) ++ le_bytes 4 (lf_salt1 f)
    ++ le_bytes 4 (lf_salt2 f) ++ ts_to_le_bytes (lf_commit_ts f) ++ le_bytes 8 (lf_diagnostic_txn_id f)
    ++ le_bytes 2 (lf_format_version f) ++ le_bytes 2 (lf_flags f) ++ le_bytes 4 (as_u 32 (len (lf_ops f)))
    ++ le_bytes 4 0 ++ concat (map encode_op (lf_ops f)).

Definition logical_encode (f : LogicalTxnFrame) : Result (list Z) :=
  let total := frame_total_bytes f in
  reject_if (LOGICAL_TXN_MAX_FRAME_SIZE <? total) (JournalFrameTooLarge total LOGICAL_TXN_MAX_FRAME_SIZE);;
  validate_encode_limits f total;;
  let buf := frame_body f in
  Ok (buf ++ le_bytes 4 (crc32c buf)).

(** ** Decoding *)

Inductive DecodeCtx : Set := Scanning | MidStream (follower : bool).

(** A content failure: rewind while scanning, an error in mid-stream *)
Definition dispose {T} (ctx : DecodeCtx) (recoverable : bool) (detail : string) : Result (option T) :=
  match ctx with
  | Scanning => Ok None
  | MidStream _ => Err (CorruptDatabase detail recoverable)
  end.

Definition read_i64_le : parser Z := fun body cursor =>
  if remaining_lt body cursor 8 then Ok None
  else v ← read_le body cursor 8; Ok (Some (as_i 64 v, cursor + 8)).

Definition read_length_prefixed (max_len : Z) (ctx : DecodeCtx) (what : string) : parser (list Z) := fun body cursor =>
  if remaining_lt body cursor 4 then Ok None
  else
    n ← read_le body cursor 4;
    let cursor := cursor + 4 in
    if max_len <? n then dispose ctx true what
    else if remaining_lt body cursor n then Ok None
    else data ← slice body cursor (cursor + n); Ok (Some (data, cursor + n)).

Definition read_key (ctx : DecodeCtx) : parser (list Z) :=
  read_length_prefixed LOGICAL_TXN_MAX_KEY_BYTES ctx "LogicalTxnFrame key length exceeds max".

Definition parse_overflow (ctx : DecodeCtx) : parser (option OverflowRefWire) := fun body cursor =>
  if remaining_lt body cursor 1 then Ok None
  else
    present ← index body cursor;
    let cursor := cursor + 1 in
    if present =? 0 then Ok (Some (None, cursor))
    else if present =? 1 then
      if remaining_lt body cursor OVERFLOW_REF_WIRE_LEN then Ok None
      else
        first_page ← read_le body cursor 4;
        total_len ← read_le body (cursor + 4) 8;
        Ok (Some (Some (mkOverflowRef first_page total_len), cursor + OVERFLOW_REF_WIRE_LEN))
    else dispose ctx true "LogicalTxnFrame overflow_present byte not in {0, 1}".

Definition parse_primary_write_body (ctx : DecodeCtx) (is_insert : bool) : parser LogicalOpKind :=
  ns_id <-- read_i64_le;;
  key <-- read_key ctx;;
  value <-- read_length_prefixed LOGICAL_TXN_MAX_VALUE_BYTES ctx "LogicalTxnFrame value length exceeds max";;
  overflow <-- parse_overflow ctx;;
  pret (if is_insert then PrimaryInsert ns_id key value overflow else PrimaryUpdate ns_id key value overflow).

Definition parse_primary_delete_body (ctx : DecodeCtx) : parser LogicalOpKind :=
  ns_id <-- read_i64_le;; key <-- read_key ctx;; pret (PrimaryDelete ns_id key).

Definition parse_secondary_insert_body (ctx : DecodeCtx) : parser LogicalOpKind :=
  index_id <-- read_i64_le;;
  key <-- read_key ctx;;
  id_bytes <-- read_length_prefixed LOGICAL_TXN_MAX_VALUE_BYTES ctx "LogicalTxnFrame id_bytes length exceeds max";;
  pret (SecondaryInsert index_id key id_bytes).

Definition parse_secondary_delete_body (ctx : DecodeCtx) : parser LogicalOpKind :=
  index_id <-- read_i64_le;; key <-- read_key ctx;; pret (SecondaryDelete index_id key).

Definition parse_kind (ctx : DecodeCtx) (kind : Z) : parser LogicalOpKind :=
  if kind =? OP_KIND_PRIMARY_INSERT then parse_primary_write_body ctx true
  else if kind =? OP_KIND_PRIMARY_UPDATE then parse_primary_write_body ctx false
  else if kind =? OP_KIND_PRIMARY_DELETE then parse_primary_delete_body ctx
  else if kind =? OP_KIND_SECONDARY_INSERT then parse_secondary_insert_body ctx
  else if kind =? OP_KIND_SECONDARY_DELETE then parse_secondary_delete_body ctx
  else fun _ _ => dispose ctx true "LogicalTxnFrame unknown op_kind".

(** The 8-byte prefix of an operation: kind and ordinal, the ordinal in range
    and new *)
Definition parse_prefix (ctx : DecodeCtx) (op_count : Z) (seen : list bool) : parser (Z * Z) := fun body cursor =>
  if remaining_lt body cursor LOGICAL_OP_PREFIX_LEN then Ok None
  else
    kind ← index body cursor;
    r1 ← index body (cursor + 1);
    r2 ← index body (cursor + 2);
    r3 ← index body (cursor + 3);
    if negb (r1 =? 0) || negb (r2 =? 0) || negb (r3 =? 0)
    then dispose ctx true "LogicalTxnFrame op-prefix reserved bytes non-zero"
    else
      ordinal ← read_le body (cursor + 4) 4;
      if op_count <=? ordinal then dispose ctx true "LogicalTxnFrame op_ordinal >= op_count"
      else
        dup ← index seen ordinal;
        if negb dup then Ok (Some ((kind, ordinal), cursor + LOGICAL_OP_PREFIX_LEN))
        else dispose ctx true "LogicalTxnFrame non-dense op_ordinal duplicated".

(** The loop of [parse_ops]; [seen] is [seen_ordinals]. *)
Fixpoint parse_ops_loop (n : nat) (op_count : Z) (seen : list bool) (ctx : DecodeCtx) : parser (list LogicalOp) :=
  match n with
  | O => pret []
  | S n' =>
      prefix <-- parse_prefix ctx op_count seen;;
      kind <-- parse_kind ctx (fst prefix);;
      ops <-- parse_ops_loop n' op_count (<[Z.to_nat (snd prefix) := true]> seen) ctx;;
      pret (mkOp (snd prefix) kind :: ops)
  end.

Definition parse_ops (op_count : Z) (ctx : DecodeCtx) : parser (list LogicalOp) :=
  parse_ops_loop (Z.to_nat op_count) op_count (replicate (Z.to_nat op_count) false) ctx.

(** The rows of [decode] after the checksum: fixed fields, then the operations *)
Definition decode_content (buf : list Z) (salt1 salt2 body_end : Z) (ctx : DecodeCtx) : Result (option LogicalTxnFrame) :=
  ts ← slice buf 16 28;
  diagnostic_txn_id ← read_le buf 28 8;
  format_version ← read_le buf 36 2;
  flags ← read_le buf 38 2;
  op_count ← read_le buf 40 4;
  reserved_b ← read_le buf 44 4;
  if negb (format_version =? LOGICAL_TXN_FORMAT_VERSION)
  then dispose ctx false "LogicalTxnFrame unknown format_version"
  else if negb (flags =? 0) then dispose ctx true "LogicalTxnFrame flags non-zero"
  else if LOGICAL_TXN_MAX_OP_COUNT <? op_count
  then dispose ctx true "LogicalTxnFrame op_count exceeds LOGICAL_TXN_MAX_OP_COUNT"
  else if negb (reserved_b =? 0) then dispose ctx true "LogicalTxnFrame reserved_b non-zero"
  else
    body ← slice buf 0 body_end;
    parsed ← parse_ops op_count ctx body LOGICAL_TXN_FIXED_HEADER_LEN;
    match parsed with
    | None => Ok None
    | Some (ops, cursor) =>
        if negb (cursor =? body_end) then Ok None
        else Ok (Some (mkFrame salt1 salt2 (ts_from_le_bytes ts) diagnostic_txn_id format_version flags ops))
    end.

Definition logical_decode (buf : list Z) (expected_salt1 expected_salt2 : Z) (ctx : DecodeCtx)
  : Result (option LogicalTxnFrame) :=
  if len buf <? LOGICAL_TXN_FIXED_HEADER_LEN then Ok None
  else
    kind ← index buf 0;
    if negb (kind =? FRAME_KIND_LOGICAL_TXN) then Ok None
    else
      r1 ← index buf 1;
      r2 ← index buf 2;
      r3 ← index buf 3;
      if negb (r1 =? 0) || negb (r2 =? 0) || negb (r3 =? 0)
      then dispose ctx true "LogicalTxnFrame reserved_a non-zero"
      else
        total ← read_le buf 4 4;
        if (total <? LOGICAL_TXN_MIN_FRAME_SIZE) || (LOGICAL_TXN_MAX_FRAME_SIZE <? total)
        then dispose ctx true "LogicalTxnFrame total_frame_bytes out of range"
        else if len buf <? total then Ok None
        else
          salt1 ← read_le buf 8 4;
          salt2 ← read_le buf 12 4;
          if negb (salt1 =? expected_salt1) || negb (salt2 =? expected_salt2) then Ok None
          else
            let body_end := total - 4 in
            stored_cs ← read_le buf body_end 4;
            body ← slice buf 0 body_end;
            if negb (stored_cs =? crc32c body) then dispose ctx true "LogicalTxnFrame CRC32C mismatch"
            else decode_content buf salt1 salt2 body_end ctx.

(** ** Scanning a reader *)

Inductive LogicalScan : Set := NotLogical | Torn | Valid (n : Z) (f : LogicalTxnFrame).

(** [R: Read + Seek] over the bytes of a file, at a position; the second
    component is the position afterwards. *)
Definition try_skip_logical_txn_disposition (file : list Z) (start expected_salt1 expected_salt2 : Z)
  : Result LogicalScan * Z :=
  if len file <? start + LOGICAL_TXN_FIXED_HEADER_LEN then (Ok NotLogical, start)
  else
    let header := get file start LOGICAL_TXN_FIXED_HEADER_LEN in
    let kind_match := from_le (get header 0 1) =? FRAME_KIND_LOGICAL_TXN in
    let reserved_zero := bool_decide (get header 1 3 = zeros 3) in
    let total := from_le (get header 4 4) in
    let length_in_range := (LOGICAL_TXN_MIN_FRAME_SIZE <=? total) && (total <=? LOGICAL_TXN_MAX_FRAME_SIZE) in
    let salts_match :=
      (from_le (get header 8 4) =? expected_salt1) && (from_le (get header 12 4) =? expected_salt2) in
    if negb (kind_match && reserved_zero && length_in_range && salts_match) then (Ok NotLogical, start)
    else if len file <? start + total then (Ok Torn, start)
    else
      match logical_decode (get file start total) expected_salt1 expected_salt2 Scanning with
      | Ok (Some frame) => (Ok (Valid total frame), start + total)
      | Ok None => (Ok Torn, start)
      | Err e => (Err e, start + total)
      | Panic => (Panic, start + total)
      end.

Definition try_skip_logical_txn (file : list Z) (start expected_salt1 expected_salt2 : Z)
  : Result (option (Z * LogicalTxnFrame)) * Z :=
  match try_skip_logical_txn_disposition file start expected_salt1 expected_salt2 with
  | (Ok (Valid n frame), pos) => (Ok (Some (n, frame)), pos)
  | (Ok _, pos) => (Ok None, pos)
  | (Err e, pos) => (Err e, pos)
  | (Panic, pos) => (Panic, pos)
  end.

End Codec.

(** ** Well-formed frames *)

Definition overflow_ok (o : option OverflowRefWire) : Prop :=
  match o with None => True | Some r => is_u32 (ow_first_page r) /\ is_u64 (ow_total_len r) end.

(** Identifiers are [i64]; keys and values respect the caps of the format. *)
Definition kind_ok (k : LogicalOpKind) : Prop :=
  match k with
  | PrimaryInsert id key value overflow | PrimaryUpdate id key value overflow =>
      is_i64 id /\ len key <= LOGICAL_TXN_MAX_KEY_BYTES /\ len value <= LOGICAL_TXN_MAX_VALUE_BYTES /\ overflow_ok overflow
  | PrimaryDelete id key | SecondaryDelete id key => is_i64 id /\ len key <= LOGICAL_TXN_MAX_KEY_BYTES
  | SecondaryInsert id key id_bytes =>
      is_i64 id /\ len key <= LOGICAL_TXN_MAX_KEY_BYTES /\ len id_bytes <= LOGICAL_TXN_MAX_VALUE_BYTES
  end.

(** Ordinals are dense: each of [0, n) occurs exactly once. *)
Definition dense (ops : list LogicalOp) : Prop :=
  Permutation (map op_ordinal ops) (seqZ 0 (len ops)).

Definition frame_wf (f : LogicalTxnFrame) : Prop :=
  is_u32 (lf_salt1 f) /\ is_u32 (lf_salt2 f) /\ ts_wf (lf_commit_ts f) /\ is_u64 (lf_diagnostic_txn_id f)
  /\ lf_format_version f = LOGICAL_TXN_FORMAT_VERSION /\ lf_flags f = 0
  /\ len (lf_ops f) <= LOGICAL_TXN_MAX_OP_COUNT /\ Forall (fun o => kind_ok (op_kind o)) (lf_ops f)
  /\ dense (lf_ops f) /\ frame_total_bytes f <= LOGICAL_TXN_MAX_FRAME_SIZE.

(** ** Fields *)

Lemma len_i64_le z : len (i64_le z) = 8.
Proof. apply len_le_bytes. Qed.

Lemma len_prefixed b : len (prefixed b) = 4 + len b.
Proof. unfold prefixed. by rewrite len_app, len_le_bytes. Qed.

#[local] Hint Rewrite len_i64_le len_prefixed : len.

Lemma parses_i64 z : is_i64 z -> parses read_i64_le (i64_le z) z.
Proof.
  intros Hz body c Hh. unfold read_i64_le. rewrite (remaining_ge _ _ _ _ Hh) by (by rewrite len_i64_le).
  unfold i64_le in *. assert (is_u64 (as_u 64 z)) by (apply as_u_range; lia). read_field.
  by rewrite as_i_as_u, len_le_bytes by (done || lia).
Qed.

Lemma parses_prefixed max_len ctx what b :
  len b <= max_len -> max_len < 2 ^ 32 -> parses (read_length_prefixed max_len ctx what) (prefixed b) b.
Proof.
  intros Hb Hm body c Hh. pose proof (len_nonneg b). unfold read_length_prefixed.
  rewrite (remaining_ge _ _ _ _ Hh) by (rewrite len_prefixed; lia). unfold prefixed in *.
  rewrite as_u_small in * by (unfold is_u; lia). apply holds_app in Hh as [Hn Hd]. rewrite len_le_bytes in Hd.
  read_field. cbv zeta. rewrite (proj2 (Z.ltb_ge _ _)) by lia. rewrite (remaining_ge _ _ _ _ Hd) by lia.
  simpl Z.of_nat in *. read_field. rewrite len_app, len_le_bytes. do 3 f_equal. lia.
Qed.

Lemma parses_key ctx b : len b <= LOGICAL_TXN_MAX_KEY_BYTES -> parses (read_key ctx) (prefixed b) b.
Proof. intros. by apply parses_prefixed. Qed.

Lemma parses_overflow ctx o : overflow_ok o -> parses (parse_overflow ctx) (overflow_bytes o) o.
Proof.
  intros Ho body c Hh. unfold parse_overflow, OVERFLOW_REF_WIRE_LEN. unfold overflow_bytes in *.
  destruct o as [[p n]|]; cbn [ow_first_page ow_total_len] in *.
  - destruct Ho as [Hp Hn]. cbn [ow_first_page ow_total_len] in *.
    rewrite (remaining_ge _ _ _ _ Hh) by (autorewrite with len; simpl; lia).
    split_fields. read_field. cbv zeta. simpl Z.eqb. cbv iota.
    assert (remaining_lt body (c + 1) 12 = false) as ->.
    { match goal with H : holds body _ (le_bytes 8 n) |- _ => apply holds_bounds in H end.
      autorewrite with len in *. simpl Z.of_nat in *. unfold remaining_lt, saturating_sub. apply Z.ltb_ge. lia. }
    do 2 read_field. do 3 f_equal. autorewrite with len. simpl Z.of_nat. lia.
  - rewrite (remaining_ge _ _ _ _ Hh) by done. read_field. done.
Qed.

(** ** Operations *)

Lemma parses_kind ctx k : kind_ok k -> parses (parse_kind ctx (opcode k)) (encode_body k) k.
Proof.
  assert (Hv : LOGICAL_TXN_MAX_VALUE_BYTES < 2 ^ 32) by done.
  destruct k as [id key v o|id key v o|id key|id key v|id key]; intros Hk;
    [destruct Hk as (? & ? & ? & ?)|destruct Hk as (? & ? & ? & ?)|destruct Hk|destruct Hk as (? & ? & ?)|destruct Hk].
  - apply parses_bind with id; [by apply parses_i64|]. apply parses_bind with key; [by apply parses_key|].
    apply parses_bind with v; [by apply parses_prefixed|].
    apply (parses_map (parse_overflow ctx) (PrimaryInsert id key v)). by apply parses_overflow.
  - apply parses_bind with id; [by apply parses_i64|]. apply parses_bind with key; [by apply parses_key|].
    apply parses_bind with v; [by apply parses_prefixed|].
    apply (parses_map (parse_overflow ctx) (PrimaryUpdate id key v)). by apply parses_overflow.
  - apply parses_bind with id; [by apply parses_i64|].
    apply (parses_map (read_key ctx) (PrimaryDelete id)). by apply parses_key.
  - apply parses_bind with id; [by apply parses_i64|]. apply parses_bind with key; [by apply parses_key|].
    apply (parses_map (read_length_prefixed _ ctx _) (SecondaryInsert id key)). by apply parses_prefixed.
  - apply parses_bind with id; [by apply parses_i64|].
    apply (parses_map (read_key ctx) (SecondaryDelete id)). by apply parses_key.
Qed.

Lemma parses_prefix ctx op_count seen kind ordinal :
  is_u32 ordinal -> ordinal < op_count -> seen !! Z.to_nat ordinal = Some false ->
  parses (parse_prefix ctx op_count seen) ([kind] ++ zeros 3 ++ le_bytes 4 ordinal) (kind, ordinal).
Proof.
  intros Ho Hn Hs body c Hh. unfold parse_prefix, LOGICAL_OP_PREFIX_LEN.
  change (zeros 3) with ([0] ++ [0] ++ [0]) in *.
  rewrite (remaining_ge _ _ _ _ Hh) by (autorewrite with len; simpl; lia). split_fields.
  do 4 read_field. simpl negb. simpl orb. cbv iota. read_field.
  rewrite (proj2 (Z.leb_gt _ _)) by lia. unfold index. unfold is_u in Ho. rewrite (proj2 (Z.leb_le 0 ordinal)) by lia.
  rewrite Hs, bind_Ok. done.
Qed.

Lemma parses_op ctx op_count seen o :
  kind_ok (op_kind o) -> is_u32 (op_ordinal o) -> op_ordinal o < op_count ->
  seen !! Z.to_nat (op_ordinal o) = Some false ->
  parses (prefix <-- parse_prefix ctx op_count seen;; kind <-- parse_kind ctx (fst prefix);;
          pret (mkOp (snd prefix) kind)) (encode_op o) o.
Proof.
  destruct o as [ordinal k]. cbn [op_kind op_ordinal]. intros Hk Hu Hn Hs. unfold encode_op. cbn [op_kind op_ordinal].
  rewrite !app_assoc. rewrite <- (app_assoc [opcode k]). apply parses_bind with (opcode k, ordinal); [by apply parses_prefix|].
  apply (parses_map (parse_kind ctx (opcode k)) (mkOp ordinal)). by apply parses_kind.
Qed.

Lemma parses_ops_loop ctx op_count ops : forall seen,
  op_count < 2 ^ 32 -> Forall (fun o => kind_ok (op_kind o)) ops -> NoDup (map op_ordinal ops) ->
  Forall (fun o => 0 <= op_ordinal o < op_count /\ seen !! Z.to_nat (op_ordinal o) = Some false) ops ->
  parses (parse_ops_loop (length ops) op_count seen ctx) (concat (map encode_op ops)) ops.
Proof.
  induction ops as [|o ops IH]; intros seen Hc Hk Hd Hs; [apply parses_ret|].
  apply Forall_cons in Hk as [Hk Hks]. apply Forall_cons in Hs as [[Ho Hs] Hss].
  apply NoDup_cons in Hd as [Hnew Hd]. cbn [length map concat parse_ops_loop].
  intros body c [H1 H2]%holds_app.
  pose proof (parses_op ctx op_count seen o Hk ltac:(unfold is_u; lia) ltac:(lia) Hs body c H1) as Hop.
  unfold pbind in Hop |- *. destruct (parse_prefix ctx op_count seen body c) as [[[[kd od] c1]|]| |]; try done.
  cbn [fst snd] in *. destruct (parse_kind ctx kd body c1) as [[[k c2]|]| |]; try done.
  unfold pret in Hop. injection Hop as <- ->. cbn [op_ordinal] in *.
  rewrite IH with (body := body) (c := c + len (encode_op (mkOp od k))); [|done|done|done| |done].
  - unfold pret. rewrite len_app. do 3 f_equal. lia.
  - apply Forall_forall. intros o' Ho'. eapply Forall_forall in Hss as [? Hs']; [|done]. split; [done|].
    rewrite list_lookup_insert_ne; [done|]. intros E. apply Hnew. apply Z2Nat.inj in E; [|lia|lia]. rewrite E.
    by apply list_elem_of_fmap_2.
Qed.

Lemma dense_spec ops :
  dense ops -> NoDup (map op_ordinal ops) /\
  Forall (fun o => 0 <= op_ordinal o < len ops /\
            (replicate (length ops) false : list bool) !! Z.to_nat (op_ordinal o) = Some false) ops.
Proof.
  unfold dense. intros Hd. split.
  - rewrite Hd. apply NoDup_seqZ.
  - apply Forall_forall. intros o Ho.
    assert (Hin : op_ordinal o ∈ seqZ 0 (len ops)) by (rewrite <- Hd; by apply list_elem_of_fmap_2).
    apply elem_of_seqZ in Hin. split; [lia|]. apply lookup_replicate_2. unfold len in Hin. lia.
Qed.

Lemma parses_ops ctx ops :
  len ops <= LOGICAL_TXN_MAX_OP_COUNT -> Forall (fun o => kind_ok (op_kind o)) ops -> dense ops ->
  parses (parse_ops (len ops) ctx) (concat (map encode_op ops)) ops.
Proof.
  intros Hn Hk [Hd Ho]%dense_spec. unfold parse_ops. rewrite to_nat_len. apply parses_ops_loop; try done.
  unfold LOGICAL_TXN_MAX_OP_COUNT in Hn. lia.
Qed.

(** ** Lengths *)

Lemma len_encode_body k : len (encode_body k) = body_len k.
Proof.
  destruct k as [id key v [[p n]|]|id key v [[p n]|]|id key|id key v|id key]; unfold encode_body, body_len, overflow_bytes;
    autorewrite with len; unfold OVERFLOW_REF_WIRE_LEN; cbn [ow_first_page ow_total_len]; autorewrite with len; simpl Z.of_nat; lia.
Qed.

Lemma len_encode_op o : len (encode_op o) = op_encoded_len o.
Proof.
  unfold encode_op, op_encoded_len, LOGICAL_OP_PREFIX_LEN. change (zeros 3) with [0; 0; 0].
  rewrite !len_app, len_encode_body, len_le_bytes, !len_cons, len_nil. simpl Z.of_nat. lia.
Qed.

Lemma len_encode_ops ops : len (concat (map encode_op ops)) = foldr (fun o n => op_encoded_len o + n) 0 ops.
Proof.
  induction ops as [|o ops IH]; [done|]. cbn [map concat foldr]. by rewrite len_app, len_encode_op, IH.
Qed.

Lemma validate_op_ok o : kind_ok (op_kind o) -> validate_op o = Ok tt.
Proof.
  destruct o as [n k]. unfold validate_op, validate_inline_len. cbn [op_kind].
  destruct k; cbn [kind_ok]; intros Hk; destruct_and? Hk; rewrite !reject_if_ge by lia; done.
Qed.

Lemma validate_ops_ok ops : Forall (fun o => kind_ok (op_kind o)) ops -> validate_ops ops = Ok tt.
Proof. induction 1 as [|o ops Ho _ IH]; [done|]. cbn [validate_ops]. by rewrite validate_op_ok, bind_Ok. Qed.

Section Roundtrip.
Context `{Crc32c}.

Lemma len_frame_body f : len (frame_body f) = frame_total_bytes f - 4.
Proof.
  unfold frame_body, frame_total_bytes, LOGICAL_TXN_FIXED_HEADER_LEN. rewrite <- len_encode_ops.
  change (zeros 3) with [0; 0; 0].
  rewrite !len_app, !len_le_bytes, len_ts_to_le_bytes, !len_cons, len_nil. simpl Z.of_nat. lia.
Qed.

Lemma logical_encode_eq f :
  frame_wf f -> logical_encode f = Ok (frame_body f ++ le_bytes 4 (crc32c (frame_body f))).
Proof.
  intros (_ & _ & _ & _ & _ & _ & Hn & Hk & _ & Ht). unfold logical_encode, validate_encode_limits. cbv zeta.
  rewrite !reject_if_ge, !bind_Ok by lia. by rewrite validate_ops_ok, bind_Ok.
Qed.

Lemma frame_total_range f : 52 <= frame_total_bytes f.
Proof.
  unfold frame_total_bytes, LOGICAL_TXN_FIXED_HEADER_LEN. rewrite <- len_encode_ops.
  pose proof (len_nonneg (concat (map encode_op (lf_ops f)))). lia.
Qed.

Lemma frame_body_ops f : holds (frame_body f) 48 (concat (map encode_op (lf_ops f))).
Proof.
  pose proof (holds_self (frame_body f)) as Hf. unfold frame_body in Hf at 2.
  change (zeros 3) with ([0] ++ [0] ++ [0]) in Hf. split_fields. by eapply holds_at; [eassumption|].
Qed.

Lemma logical_decode_holds f tail ctx :
  frame_wf f ->
  logical_decode (frame_body f ++ le_bytes 4 (crc32c (frame_body f)) ++ tail) (lf_salt1 f) (lf_salt2 f) ctx = Ok (Some f).
Proof.
  intros (Hs1 & Hs2 & Hts & Hdi & Hv & Hfl & Hn & Hk & Hd & Ht). pose proof (frame_total_range f) as Hmin.
  pose proof (len_frame_body f) as Hbl. pose proof (frame_body_ops f) as Hops.
  assert (Htot : frame_total_bytes f = 48 + len (concat (map encode_op (lf_ops f))) + 4)
    by (unfold frame_total_bytes; by rewrite <- len_encode_ops).
  set (body := frame_body f) in *. set (total := frame_total_bytes f) in *.
  set (buf := body ++ _). assert (is_u32 (crc32c body)) by apply crc32c_u32. pose proof (len_nonneg tail).
  assert (Hlen : total <= len buf) by (unfold buf; rewrite !len_app, len_le_bytes, Hbl; lia).
  pose proof (holds_self buf) as Hh. unfold buf in Hh at 2. apply holds_app in Hh as [Hb Hh].
  apply holds_app in Hh as [Hcs _]. rewrite Hbl in Hcs. clearbody buf.
  pose proof Hb as Hf. unfold body, frame_body in Hf. fold total in Hf. unfold LOGICAL_TXN_MAX_FRAME_SIZE in Ht.
  unfold LOGICAL_TXN_MAX_OP_COUNT in Hn. pose proof (len_nonneg (lf_ops f)).
  rewrite (as_u_small 32 total), (as_u_small 32 (len (lf_ops f))) in Hf by (unfold is_u; lia).
  change (zeros 3) with ([0] ++ [0] ++ [0]) in Hf. clearbody body. split_fields.
  assert (is_u32 total /\ is_u32 (len (lf_ops f)) /\ is_u16 LOGICAL_TXN_FORMAT_VERSION /\ is_u16 0 /\ is_u32 0)
    as (? & ? & ? & ? & ?) by (unfold is_u; repeat split; done || lia).
  rewrite Hv, Hfl in *. unfold logical_decode, LOGICAL_TXN_MIN_FRAME_SIZE, LOGICAL_TXN_FIXED_HEADER_LEN, LOGICAL_TXN_MAX_FRAME_SIZE.
  rewrite (proj2 (Z.ltb_ge (len buf) 48)) by lia. cbv zeta. repeat (read_field; simpl negb; simpl orb; cbv iota).
  rewrite (proj2 (Z.ltb_ge total (48 + 4))), (proj2 (Z.ltb_ge (64 * 1024 * 1024) total)), (proj2 (Z.ltb_ge (len buf) total)) by lia.
  simpl orb. cbv iota. rewrite !Z.eqb_refl. simpl negb. simpl orb. cbv iota.
  unfold decode_content, LOGICAL_TXN_FIXED_HEADER_LEN, LOGICAL_TXN_MAX_OP_COUNT. repeat read_field.
  rewrite !Z.eqb_refl, (proj2 (Z.ltb_ge 1000000 (len (lf_ops f)))) by lia. simpl negb. cbv iota.
  rewrite (parses_ops ctx (lf_ops f)) by done. rewrite bind_Ok.
  rewrite (proj2 (Z.eqb_eq _ (total - 4))) by lia. simpl negb. cbv iota. rewrite ts_le_roundtrip by done.
  destruct f; simpl in *. by subst.
Qed.

Lemma logical_decode_prefix f k ctx :
  frame_wf f -> (k < length (frame_body f ++ le_bytes 4 (crc32c (frame_body f))))%nat ->
  logical_decode (take k (frame_body f ++ le_bytes 4 (crc32c (frame_body f)))) (lf_salt1 f) (lf_salt2 f) ctx = Ok None.
Proof.
  intros (_ & _ & _ & _ & _ & _ & _ & _ & _ & Ht) Hk. unfold LOGICAL_TXN_MAX_FRAME_SIZE in Ht.
  pose proof (frame_total_range f) as Hmin. pose proof (len_frame_body f) as Hbl.
  set (buf := frame_body f ++ _) in *. assert (Hlen : len (take k buf) = Z.of_nat k) by (unfold len; rewrite length_take; lia).
  assert (Hk' : Z.of_nat k < frame_total_bytes f).
  { replace (frame_total_bytes f) with (len buf) by (unfold buf; rewrite len_app, len_le_bytes; lia). unfold len. lia. }
  unfold logical_decode, LOGICAL_TXN_MIN_FRAME_SIZE, LOGICAL_TXN_FIXED_HEADER_LEN, LOGICAL_TXN_MAX_FRAME_SIZE. rewrite Hlen.
  destruct (Z.ltb_spec (Z.of_nat k) 48); [done|].
  pose proof (holds_self buf) as Hf. unfold buf in Hf at 2. unfold frame_body in Hf at 1.
  rewrite as_u_small in Hf by (unfold is_u; lia).
  change (zeros 3) with ([0] ++ [0] ++ [0]) in Hf. rewrite <- !app_assoc in Hf. clearbody buf.
  do 5 (let H' := fresh "Hb" in apply holds_app in Hf as [H' Hf];
    eapply (holds_take _ _ _ k) in H'; [|autorewrite with len; simpl Z.of_nat; lia]).
  autorewrite with len in *. assert (is_u32 (frame_total_bytes f)) by (unfold is_u; lia).
  repeat (read_field; simpl negb; simpl orb; cbv iota).
  rewrite (proj2 (Z.ltb_ge _ (48 + 4))), (proj2 (Z.ltb_ge (64 * 1024 * 1024) _)), (proj2 (Z.ltb_lt (Z.of_nat k) _)) by lia.
  done.
Qed.
End Roundtrip.

(** ** Only encodings are accepted *)

Lemma remaining_inv body c n : 0 <= c -> 0 < n -> remaining_lt body c n = false -> c + n <= len body.
Proof. unfold remaining_lt, saturating_sub. intros ? ? ?%Z.ltb_ge. lia. Qed.

Section Sound.
Context (body : list Z) (Hbytes : bytes_ok body).

Lemma prints_i64 : prints read_i64_le i64_le is_i64 body.
Proof.
  intros c a c' Hc. unfold read_i64_le. destruct (remaining_lt body c 8) eqn:Hr; [done|].
  apply remaining_inv in Hr; [|lia|lia]. intros (v & Hv & [= <- <-])%bind_Ok_inv.
  pose proof (read_le_range _ _ _ _ Hbytes Hv) as Hu. apply (read_le_bytes body c 8) in Hv; [|done].
  split; [lia|]. split; [|by apply as_i_u].
  unfold i64_le. rewrite as_u_as_i by done. rewrite Hv. f_equal. lia.
Qed.

Lemma prints_prefixed max_len ctx what :
  max_len < 2 ^ 32 ->
  prints (read_length_prefixed max_len ctx what) prefixed (fun b => len b <= max_len) body.
Proof.
  intros Hm c a c' Hc. unfold read_length_prefixed. destruct (remaining_lt body c 4) eqn:Hr; [done|].
  apply remaining_inv in Hr; [|lia|lia]. intros (n & Hn & Hd)%bind_Ok_inv. cbv zeta in Hd.
  pose proof (read_le_range _ _ _ _ Hbytes Hn) as Hu. apply (read_le_bytes body c 4) in Hn; [|done].
  destruct (Z.ltb_spec max_len n); [by destruct ctx|]. destruct (remaining_lt body (c + 4) n) eqn:Hr2; [done|].
  unfold remaining_lt, saturating_sub in Hr2. apply Z.ltb_ge in Hr2.
  apply bind_Ok_inv in Hd as (x & (_ & _ & ? & ->)%slice_inv & [= <- <-]).
  assert (Hl : len (get body (c + 4) (c + 4 + n - (c + 4))) = n) by (rewrite len_get; lia).
  split; [lia|]. split; [|lia]. unfold prefixed. rewrite Hl, as_u_small, Hn by (unfold is_u; lia).
  replace (c + 4 + n - c) with (4 + n) by lia. rewrite get_split by lia. do 2 f_equal. lia.
Qed.

Lemma prints_overflow ctx : prints (parse_overflow ctx) overflow_bytes overflow_ok body.
Proof.
  intros c a c' Hc. unfold parse_overflow, OVERFLOW_REF_WIRE_LEN. destruct (remaining_lt body c 1) eqn:Hr; [done|].
  apply remaining_inv in Hr; [|lia|lia]. intros (b & Hi & Hd)%bind_Ok_inv. cbv zeta in Hd.
  apply index_byte in Hi; [|lia].
  destruct (Z.eqb_spec b 0) as [->|?]; [|destruct (Z.eqb_spec b 1) as [->|?]; [|by destruct ctx]].
  - injection Hd as <- <-. split; [lia|]. split; [|done]. replace (c + 1 - c) with 1 by lia. done.
  - destruct (remaining_lt body (c + 1) 12) eqn:Hr2; [done|]. apply remaining_inv in Hr2; [|lia|lia].
    apply bind_Ok_inv in Hd as (p & Hp & Hd). apply bind_Ok_inv in Hd as (tl & Hn & [= <- <-]).
    pose proof (read_le_range _ _ _ _ Hbytes Hp). pose proof (read_le_range _ _ _ _ Hbytes Hn).
    apply (read_le_bytes body (c + 1) 4) in Hp; [|done]. apply (read_le_bytes body (c + 1 + 4) 8) in Hn; [|done].
    split; [lia|]. split; [|split; done]. unfold overflow_bytes. cbn [ow_first_page ow_total_len].
    rewrite Hp, Hn. replace (c + 1 + 12 - c) with (1 + (4 + 8)) by lia.
    rewrite (get_split _ _ 1 (4 + 8)), (get_split _ _ 4 8), Hi by lia. done.
Qed.

Lemma prints_kind ctx kd : prints (parse_kind ctx kd) encode_body (fun k => kind_ok k /\ opcode k = kd) body.
Proof.
  assert (Hv : LOGICAL_TXN_MAX_VALUE_BYTES < 2 ^ 32) by done.
  intros c a c' Hc. unfold parse_kind, parse_primary_write_body, parse_primary_delete_body,
    parse_secondary_insert_body, parse_secondary_delete_body, read_key.
  repeat (match goal with |- context [kd =? ?k] => destruct (Z.eqb_spec kd k) as [->|?] end);
    [..|by destruct ctx]; intros Hw; walk_inv Hw; subst;
    repeat match goal with
    | H : read_i64_le body _ = _ |- _ => apply prints_i64 in H as (? & ? & ?); [|lia]
    | H : read_length_prefixed _ _ _ body _ = _ |- _ => apply prints_prefixed in H as (? & ? & ?); [|done|lia]
    | H : parse_overflow _ body _ = _ |- _ => apply prints_overflow in H as (? & ? & ?); [|lia]
    end.
  all: cbn [encode_body kind_ok opcode]; split; [lia|]; split; [|by auto].
  all: repeat match goal with H : get body _ _ = _ |- _ => rewrite <- H; clear H end; by rewrite !get_join by lia.
Qed.

Lemma prints_prefix ctx op_count seen :
  prints (parse_prefix ctx op_count seen) (fun p => [fst p] ++ zeros 3 ++ le_bytes 4 (snd p))
    (fun p => 0 <= snd p < op_count /\ seen !! Z.to_nat (snd p) = Some false) body.
Proof.
  intros c [kd od] c' Hc. unfold parse_prefix, LOGICAL_OP_PREFIX_LEN.
  destruct (remaining_lt body c 8) eqn:Hr; [done|]. apply remaining_inv in Hr; [|lia|lia].
  intros (k & Hk & Hd)%bind_Ok_inv. apply bind_Ok_inv in Hd as (r1 & H1 & Hd).
  apply bind_Ok_inv in Hd as (r2 & H2 & Hd). apply bind_Ok_inv in Hd as (r3 & H3 & Hd).
  apply index_byte in Hk, H1, H2, H3; [|lia..].
  destruct (Z.eqb_spec r1 0) as [->|?]; [|by destruct ctx]. destruct (Z.eqb_spec r2 0) as [->|?]; [|by destruct ctx].
  destruct (Z.eqb_spec r3 0) as [->|?]; [|by destruct ctx]. simpl orb in Hd. cbv iota in Hd.
  apply bind_Ok_inv in Hd as (o & Ho & Hd). pose proof (read_le_range _ _ _ _ Hbytes Ho).
  apply (read_le_bytes body (c + 4) 4) in Ho; [|done].
  destruct (Z.leb_spec op_count o); [by destruct ctx|]. apply bind_Ok_inv in Hd as (dup & Hdup & Hd).
  destruct dup; [by destruct ctx|]. injection Hd as <- <- <-. cbn [fst snd]. split; [lia|]. split.
  - rewrite Ho. replace (c + 8 - c) with (1 + (1 + (1 + (1 + 4)))) by lia.
    rewrite !get_split, Hk, H1 by lia. replace (c + 1 + 1) with (c + 2) by lia. rewrite H2.
    replace (c + 2 + 1) with (c + 3) by lia. rewrite H3. simpl. do 5 f_equal. lia.
  - split; [lia|]. unfold index in Hdup. destruct (0 <=? o); [|done]. by destruct (seen !! Z.to_nat o) as [[]|].
Qed.

Lemma prints_ops_loop ctx op_count n : forall seen,
  prints (parse_ops_loop n op_count seen ctx) (fun ops => concat (map encode_op ops))
    (fun ops => length ops = n /\ Forall (fun o => kind_ok (op_kind o)) ops /\ NoDup (map op_ordinal ops) /\
       Forall (fun o => 0 <= op_ordinal o < op_count /\ seen !! Z.to_nat (op_ordinal o) = Some false) ops) body.
Proof.
  induction n as [|n IH]; intros seen c a c' Hc Hw; cbn [parse_ops_loop] in Hw; walk_inv Hw; subst.
  - split; [lia|]. split; [by rewrite Z.sub_diag, get_nil_n|]. split_and!; constructor.
  - apply prints_prefix in Hp as (? & G0 & Ho & Hs); [|lia]. apply prints_kind in Hp0 as (? & G1 & Hk & Hop); [|lia].
    apply IH in Hp1 as (? & G2 & Hl & Hks & Hnd & Hss); [|lia]. split; [lia|]. split.
    + cbn [map concat]. rewrite <- G2. unfold encode_op. cbn [op_kind op_ordinal]. rewrite Hop, <- G1.
      rewrite <- (get_join body c c0 c2), <- (get_join body c0 c1 c2), G0 by lia. cbv beta. by rewrite <- !app_assoc.
    + split; [simpl; lia|]. split; [by constructor|].
      rewrite Forall_forall in Hss. split.
      * cbn [map op_ordinal]. constructor; [|done]. intros (o & Ho1 & Ho2)%list_elem_of_fmap. apply Hss in Ho2 as [_ Hf].
        rewrite <- Ho1, list_lookup_insert_eq in Hf; [done|]. by eapply lookup_lt_Some.
      * constructor; [done|]. apply Forall_forall. intros o [? Hf]%Hss. split; [done|].
        apply list_lookup_insert_Some in Hf as [(_ & ? & _)|[_ ?]]; done.
Qed.

Lemma prints_ops ctx op_count :
  0 <= op_count ->
  prints (parse_ops op_count ctx) (fun ops => concat (map encode_op ops))
    (fun ops => len ops = op_count /\ Forall (fun o => kind_ok (op_kind o)) ops /\ dense ops) body.
Proof.
  intros Hn c a c' Hc Hw. apply prints_ops_loop in Hw as (? & ? & Hl & Hk & Hd & Hs); [|lia].
  split; [done|]. split; [done|]. assert (len a = op_count) as <- by (unfold len; lia). split; [done|]. split; [done|].
  apply NoDup_Permutation_bis; [by apply NoDup_ListNoDup| |].
  - rewrite length_seqZ, length_map. unfold len. lia.
  - intros x (o & <- & Ho)%in_map_iff. rewrite Forall_forall in Hs. apply list_elem_of_In in Ho. apply Hs in Ho as [? _].
    apply list_elem_of_In, elem_of_seqZ. lia.
Qed.
End Sound.

Lemma ts_le_bytes_back l : bytes_ok l -> len l = 12 -> ts_to_le_bytes (ts_from_le_bytes l) = l.
Proof.
  intros Hl Hn. rewrite ts_to_le_bytes_app. unfold ts_from_le_bytes. cbn [physical_ms logical].
  assert (Hg : forall off n, 0 <= off -> off + Z.of_nat n <= 12 -> le_bytes n (from_le (get l off (Z.of_nat n))) = get l off (Z.of_nat n)).
  { intros off n ? ?. apply le_bytes_from_le; [by apply bytes_ok_get|].
    pose proof (len_get l off (Z.of_nat n)). unfold len in *. lia. }
  pose proof (Hg 0 8%nat ltac:(lia) ltac:(lia)) as E1. pose proof (Hg 8 4%nat ltac:(lia) ltac:(lia)) as E2.
  change (Z.of_nat 8) with 8 in E1. change (Z.of_nat 4) with 4 in E2. rewrite E1, E2.
  etransitivity; [symmetry; exact (get_split l 0 8 4 ltac:(lia) ltac:(lia) ltac:(lia))|]. apply get_all. lia.
Qed.

Section SoundDecode.
Context `{Crc32c}.

Lemma decode_content_inv buf salt1 salt2 body_end ctx f :
  bytes_ok buf -> 48 <= body_end <= len buf ->
  decode_content buf salt1 salt2 body_end ctx = Ok (Some f) ->
  lf_salt1 f = salt1 /\ lf_salt2 f = salt2 /\ ts_wf (lf_commit_ts f) /\ is_u64 (lf_diagnostic_txn_id f)
  /\ lf_format_version f = LOGICAL_TXN_FORMAT_VERSION /\ lf_flags f = 0
  /\ len (lf_ops f) <= LOGICAL_TXN_MAX_OP_COUNT /\ Forall (fun o => kind_ok (op_kind o)) (lf_ops f) /\ dense (lf_ops f)
  /\ get buf 16 (body_end - 16) =
       ts_to_le_bytes (lf_commit_ts f) ++ le_bytes 8 (lf_diagnostic_txn_id f) ++ le_bytes 2 (lf_format_version f)
         ++ le_bytes 2 (lf_flags f) ++ le_bytes 4 (as_u 32 (len (lf_ops f))) ++ le_bytes 4 0 ++ concat (map encode_op (lf_ops f)).
Proof.
  intros Hok Hbe Hd. unfold decode_content, LOGICAL_TXN_FIXED_HEADER_LEN in Hd. bind_inv Hd.
  destruct (Z.eqb_spec x1 LOGICAL_TXN_FORMAT_VERSION) as [->|?]; [|by destruct ctx].
  destruct (Z.eqb_spec x2 0) as [->|?]; [|by destruct ctx]. destruct (Z.ltb_spec LOGICAL_TXN_MAX_OP_COUNT x3) as [?|Hcnt]; [by destruct ctx|].
  destruct (Z.eqb_spec x4 0) as [->|?]; [|by destruct ctx]. simpl negb in Hd. cbv iota in Hd. bind_inv Hd.
  destruct x2 as [[ops cursor]|]; [|done]. destruct (Z.eqb_spec cursor body_end) as [->|?]; [|done]. injection Hd as <-.
  pose proof (read_le_range _ _ _ _ Hok Hx0). pose proof (read_le_range _ _ _ _ Hok Hx3).
  apply slice_inv in Hx as (_ & _ & _ & ->), Hx5 as (_ & _ & _ & ->).
  apply prints_ops in Hx6 as (_ & Hg & Hn & Hk & Hdense); [|by apply bytes_ok_get|lia|rewrite len_get; lia].
  assert (bytes_ok (get buf 16 (28 - 16)) /\ len (get buf 16 (28 - 16)) = 12) as [? ?]
    by (split; [by apply bytes_ok_get|rewrite len_get; lia]).
  cbn [lf_salt1 lf_salt2 lf_commit_ts lf_diagnostic_txn_id lf_format_version lf_flags lf_ops].
  do 2 (split; [done|]). split; [by apply ts_from_le_bytes_wf|]. do 3 (split; [done|]). split; [lia|]. do 2 (split; [done|]).
  rewrite ts_le_bytes_back, Hn by done. rewrite as_u_small by done.
  apply (read_le_bytes buf 28 8) in Hx0; [|done]. apply (read_le_bytes buf 36 2) in Hx1; [|done].
  apply (read_le_bytes buf 38 2) in Hx2; [|done]. apply (read_le_bytes buf 40 4) in Hx3; [|done].
  apply (read_le_bytes buf 44 4) in Hx4; [|done]. rewrite Hx0, Hx1, Hx2, Hx3, Hx4, <- Hg.
  rewrite get_get by lia. replace (body_end - 16) with (12 + (8 + (2 + (2 + (4 + (4 + (body_end - 48))))))) by lia.
  rewrite !(get_split buf) by lia. reflexivity.
Qed.

Lemma logical_decode_exact buf s1 s2 ctx f :
  bytes_ok buf -> is_u32 s1 -> is_u32 s2 -> logical_decode buf s1 s2 ctx = Ok (Some f) ->
  frame_wf f /\ lf_salt1 f = s1 /\ lf_salt2 f = s2 /\
  exists bytes rest, buf = bytes ++ rest /\ logical_encode f = Ok bytes.
Proof.
  intros Hok Hs1 Hs2 Hd. unfold logical_decode, LOGICAL_TXN_MIN_FRAME_SIZE, LOGICAL_TXN_FIXED_HEADER_LEN in Hd.
  destruct (Z.ltb_spec (len buf) 48); [done|]. bind_inv Hd.
  destruct (Z.eqb_spec x FRAME_KIND_LOGICAL_TXN) as [->|?]; [|done]. simpl negb in Hd. cbv iota in Hd. bind_inv Hd.
  destruct (Z.eqb_spec x 0) as [->|?]; [|by destruct ctx]. destruct (Z.eqb_spec x0 0) as [->|?]; [|by destruct ctx].
  destruct (Z.eqb_spec x1 0) as [->|?]; [|by destruct ctx]. simpl orb in Hd. cbv iota in Hd. bind_inv Hd.
  destruct (Z.ltb_spec x (48 + 4)); [by destruct ctx|]. destruct (Z.ltb_spec LOGICAL_TXN_MAX_FRAME_SIZE x); [by destruct ctx|].
  simpl orb in Hd. cbv iota in Hd. destruct (Z.ltb_spec (len buf) x); [done|]. bind_inv Hd.
  destruct (Z.eqb_spec x0 s1) as [->|?]; [|done]. destruct (Z.eqb_spec x1 s2) as [->|?]; [|done].
  simpl orb in Hd. cbv iota in Hd. bind_inv Hd. destruct (Z.eqb_spec x0 (crc32c x1)) as [->|?]; [|by destruct ctx].
  apply decode_content_inv in Hd as (Hf1 & Hf2 & Hts & Hdi & Hv & Hfl & Hn & Hk & Hds & Hg); [|done|lia].
  assert (Htot : frame_total_bytes f = x).
  { apply (f_equal len) in Hg. rewrite len_get in Hg by lia. autorewrite with len in Hg. simpl Z.of_nat in Hg.
    unfold frame_total_bytes, LOGICAL_TXN_FIXED_HEADER_LEN. rewrite <- len_encode_ops. lia. }
  assert (Hwf : frame_wf f) by (unfold frame_wf; subst; split_and!; done).
  split; [done|]. split; [done|]. split; [done|]. rewrite logical_encode_eq by done.
  apply slice_inv in Hx7 as (_ & _ & _ & ->). apply index_byte in Hx, Hx0, Hx1, Hx2; [|lia..].
  apply (read_le_bytes buf 4 4) in Hx3; [|done]. apply (read_le_bytes buf 8 4) in Hx4; [|done].
  apply (read_le_bytes buf 12 4) in Hx5; [|done]. apply (read_le_bytes buf (x - 4) 4) in Hx6; [|done].
  assert (Hbody : frame_body f = get buf 0 (x - 4 - 0)).
  { unfold frame_body. unfold LOGICAL_TXN_MAX_FRAME_SIZE in *. rewrite Htot, as_u_small, Hf1, Hf2, <- Hg, Hx3, Hx4, Hx5 by (unfold is_u; lia).
    replace (x - 4 - 0) with (1 + (1 + (1 + (1 + (4 + (4 + (4 + (x - 4 - 16)))))))) by lia. rewrite !(get_split buf) by lia.
    change (get buf (0 + 1) 1) with (get buf 1 1). change (get buf (0 + 1 + 1) 1) with (get buf 2 1).
    change (get buf (0 + 1 + 1 + 1) 1) with (get buf 3 1). rewrite Hx, Hx0, Hx1, Hx2. reflexivity. }
  rewrite Hbody in *. exists (get buf 0 x), (drop (Z.to_nat x) buf). split.
  - unfold get. simpl. by rewrite take_drop.
  - f_equal. rewrite Hx6. change (Z.of_nat 4) with 4. replace (x - 4) with (0 + (x - 4 - 0)) at 2 by lia.
    rewrite <- get_split by lia. f_equal. lia.
Qed.

(** ** Failures *)

(** Errors come from content only, and only in mid-stream. *)
Definition content_error (ctx : DecodeCtx) (e : Error) : Prop :=
  ctx <> Scanning /\ exists detail recoverable, e = CorruptDatabase detail recoverable.

(** The outcome of a decoding step: no panic, and only such errors *)
Definition settled {A} (ctx : DecodeCtx) (r : Result A) : Prop :=
  no_panic r /\ forall e, r = Err e -> content_error ctx e.

Lemma settled_Ok {A} ctx (a : A) : settled ctx (Ok a).
Proof. by split. Qed.

Lemma settled_dispose {T} ctx recoverable detail : settled ctx (dispose (T := T) ctx recoverable detail).
Proof. destruct ctx; [by split|]. split; [done|]. intros e [= <-]. split; [done|eauto]. Qed.

Lemma settled_bind {A B} ctx (r : Result A) (k : A -> Result B) :
  no_panic r -> (forall e, r <> Err e) -> (forall a, r = Ok a -> settled ctx (k a)) -> settled ctx (r ≫= k).
Proof. intros Hn He Hk. destruct r; simpl; [by apply Hk|by edestruct He|done]. Qed.

Lemma settled_read {A} ctx l off n (k : Z -> Result A) :
  0 <= off -> 0 <= n -> off + n <= len l -> (forall z, read_le l off n = Ok z -> settled ctx (k z)) ->
  settled ctx (read_le l off n ≫= k).
Proof. intros. apply settled_bind; [by apply no_panic_read_le| |done]. intros. by rewrite read_le_Ok. Qed.

Lemma settled_slice {A B} ctx (l : list B) a b (k : list B -> Result A) :
  0 <= a -> a <= b -> b <= len l -> (forall x, slice l a b = Ok x -> settled ctx (k x)) -> settled ctx (slice l a b ≫= k).
Proof. intros. apply settled_bind; [by apply no_panic_slice| |done]. intros. by rewrite slice_Ok. Qed.

Lemma settled_index {A B} ctx (l : list B) i (k : B -> Result A) :
  0 <= i < len l -> (forall x, index l i = Ok x -> settled ctx (k x)) -> settled ctx (index l i ≫= k).
Proof.
  intros Hi. destruct (index_in_range l i Hi) as (y & Hy & _). rewrite Hy. intros Hk. by apply Hk.
Qed.

Create HintDb settled.
#[local] Hint Resolve settled_Ok settled_dispose : settled.

(** Walks reads whose ranges the context shows valid, and their tests. *)
Ltac settle :=
  repeat first
    [ solve [auto with settled]
    | apply settled_read; [lia|lia|lia|intros ? ?]
    | apply settled_slice; [lia|lia|lia|intros ? ?]
    | apply settled_index; [lia|intros ? ?]
    | progress cbv zeta
    | match goal with |- settled _ (if ?b then _ else _) => destruct b eqn:? end ].

Lemma parser_safe_settled {A} ctx (p : parser A) body :
  (forall c, 0 <= c <= len body -> settled ctx (p body c)) ->
  (forall c a c', 0 <= c <= len body -> p body c = Ok (Some (a, c')) -> c <= c' <= len body) ->
  parser_safe (content_error ctx) p body.
Proof.
  intros Hs Ha c Hc. destruct (Hs c Hc) as [Hn He]. destruct (p body c) as [[[a c']|]| |] eqn:E; try done; [|by apply He].
  by apply (Ha c a c').
Qed.

Section Safe.
Context (body : list Z) (Hbytes : bytes_ok body) (ctx : DecodeCtx).

Lemma safe_i64 : parser_safe (content_error ctx) read_i64_le body.
Proof.
  apply parser_safe_settled; [|intros c a c' Hc Hp; by apply prints_i64 in Hp as [? _]].
  intros c Hc. unfold read_i64_le. destruct (remaining_lt body c 8) eqn:Hr; [settle|].
  apply remaining_inv in Hr; [|lia|lia]. settle.
Qed.

Lemma safe_prefixed max_len what : max_len < 2 ^ 32 -> parser_safe (content_error ctx) (read_length_prefixed max_len ctx what) body.
Proof.
  intros Hm. apply parser_safe_settled; [|intros c a c' Hc Hp; by apply prints_prefixed in Hp as [? _]].
  intros c Hc. unfold read_length_prefixed. destruct (remaining_lt body c 4) eqn:Hr; [settle|].
  apply remaining_inv in Hr; [|lia|lia]. apply settled_read; [lia..|]. intros n Hn. pose proof (read_le_range _ _ _ _ Hbytes Hn).
  cbv zeta. destruct (_ <? _); [settle|]. destruct (remaining_lt body (c + 4) n) eqn:Hr2; [settle|].
  unfold remaining_lt, saturating_sub in Hr2. apply Z.ltb_ge in Hr2. settle.
Qed.

Lemma safe_overflow : parser_safe (content_error ctx) (parse_overflow ctx) body.
Proof.
  apply parser_safe_settled; [|intros c a c' Hc Hp; by apply prints_overflow in Hp as [? _]].
  intros c Hc. unfold parse_overflow, OVERFLOW_REF_WIRE_LEN. destruct (remaining_lt body c 1) eqn:Hr; [settle|].
  apply remaining_inv in Hr; [|lia|lia]. apply settled_index; [lia|]. intros b _. cbv zeta. destruct (_ =? _); [settle|].
  destruct (_ =? _); [|settle]. destruct (remaining_lt body (c + 1) 12) eqn:Hr2; [settle|].
  apply remaining_inv in Hr2; [|lia|lia]. settle.
Qed.

Lemma safe_dispose {T} r d : parser_safe (A := T) (content_error ctx) (fun _ _ => dispose ctx r d) body.
Proof.
  apply parser_safe_settled; [intros; apply settled_dispose|]. by destruct ctx.
Qed.

Lemma safe_kind kd : parser_safe (content_error ctx) (parse_kind ctx kd) body.
Proof.
  assert (LOGICAL_TXN_MAX_KEY_BYTES < 2 ^ 32 /\ LOGICAL_TXN_MAX_VALUE_BYTES < 2 ^ 32) as [? ?] by done.
  unfold parse_kind, parse_primary_write_body, parse_primary_delete_body, parse_secondary_insert_body,
    parse_secondary_delete_body, read_key.
  repeat case_match; auto 12 using safe_i64, safe_prefixed, safe_overflow, safe_dispose with parsers.
Qed.

Lemma safe_prefix op_count seen :
  len seen = op_count -> parser_safe (content_error ctx) (parse_prefix ctx op_count seen) body.
Proof.
  intros Hs. apply parser_safe_settled; [|intros c a c' Hc Hp; by apply prints_prefix in Hp as [? _]].
  intros c Hc. unfold parse_prefix, LOGICAL_OP_PREFIX_LEN. destruct (remaining_lt body c 8) eqn:Hr; [settle|].
  apply remaining_inv in Hr; [|lia|lia]. do 4 (apply settled_index; [lia|intros ? ?]). destruct (_ || _); [settle|].
  apply settled_read; [lia..|]. intros o Ho. pose proof (read_le_range _ _ _ _ Hbytes Ho).
  destruct (Z.leb_spec op_count o); [settle|]. apply settled_index; [lia|]. intros d _. destruct (negb d); settle.
Qed.

Lemma safe_ops_loop op_count n : forall seen,
  len seen = op_count -> parser_safe (content_error ctx) (parse_ops_loop n op_count seen ctx) body.
Proof.
  induction n as [|n IH]; intros seen Hs; cbn [parse_ops_loop]; [auto with parsers|].
  apply parser_safe_bind; [by apply safe_prefix|]. intros p. apply parser_safe_bind; [apply safe_kind|]. intros k.
  apply parser_safe_bind; [|auto with parsers]. apply IH. unfold len in *. by rewrite length_insert.
Qed.

Lemma settled_ops op_count c : 0 <= op_count -> 0 <= c <= len body -> settled ctx (parse_ops op_count ctx body c).
Proof.
  intros Hn Hc. assert (Hs : len (replicate (Z.to_nat op_count) false) = op_count) by (unfold len; rewrite length_replicate; lia).
  pose proof (safe_ops_loop op_count (Z.to_nat op_count) _ Hs c Hc) as Hp. unfold parse_ops.
  destruct (parse_ops_loop _ _ _ _ body c) as [o|e|]; [by split| |done]. split; [done|]. by intros ? [= <-].
Qed.
End Safe.

Lemma logical_decode_settled buf s1 s2 ctx : bytes_ok buf -> settled ctx (logical_decode buf s1 s2 ctx).
Proof.
  intros Hok. unfold logical_decode, LOGICAL_TXN_MIN_FRAME_SIZE, LOGICAL_TXN_FIXED_HEADER_LEN.
  destruct (Z.ltb_spec (len buf) 48); [settle|]. apply settled_index; [lia|intros kd _]. destruct (negb _); [settle|].
  do 3 (apply settled_index; [lia|intros ? _]). destruct (_ || _); [settle|]. apply settled_read; [lia..|intros total _].
  destruct ((total <? _) || _) eqn:Hr; [settle|]. apply orb_false_iff in Hr as [Hlo%Z.ltb_ge _].
  destruct (Z.ltb_spec (len buf) total); [settle|]. do 2 (apply settled_read; [lia..|intros ? _]). destruct (_ || _); [settle|].
  cbv zeta. apply settled_read; [lia..|intros ? _]. apply settled_slice; [lia..|intros ? _]. destruct (negb _); [settle|].
  unfold decode_content, LOGICAL_TXN_FIXED_HEADER_LEN. apply settled_slice; [lia..|intros ? _].
  do 3 (apply settled_read; [lia..|intros ? _]). apply settled_read; [lia..|intros cnt Hcnt].
  pose proof (read_le_range _ _ _ _ Hok Hcnt). apply settled_read; [lia..|intros ? _].
  do 4 (match goal with |- settled _ (if ?b then _ else _) => destruct b end; [settle|]).
  apply settled_slice; [lia..|]. intros body (_ & _ & _ & ->)%slice_inv.
  destruct (settled_ops (get buf 0 (total - 4 - 0)) (bytes_ok_get _ _ _ Hok) ctx cnt 48) as [Hn He]; [lia|rewrite len_get; lia|].
  destruct (parse_ops cnt ctx (get buf 0 (total - 4 - 0)) 48) as [[[ops c]|]|e|]; [|by apply settled_Ok| |done].
  - simpl. destruct (negb _); settle.
  - split; [done|]. intros e2 [= <-]. by apply He.
Qed.
End SoundDecode.

(** ** Frames of a commit *)

(** What the types of the staging buffers guarantee of an operation *)
Definition kind_typed (k : LogicalOpKind) : Prop :=
  match k with
  | PrimaryInsert id _ _ overflow | PrimaryUpdate id _ _ overflow => is_i64 id /\ overflow_ok overflow
  | PrimaryDelete id _ | SecondaryInsert id _ _ | SecondaryDelete id _ => is_i64 id
  end.

Lemma reject_if_inv b e : reject_if b e = Ok tt -> b = false.
Proof. by destruct b. Qed.

Lemma validate_op_inv o : kind_typed (op_kind o) -> validate_op o = Ok tt -> kind_ok (op_kind o).
Proof.
  destruct o as [n k]. unfold validate_op, validate_inline_len. cbn [op_kind].
  destruct k; cbn [kind_typed kind_ok]; intros Hk Hv; try bind_inv Hv; repeat match goal with
    | Hr : reject_if _ _ = Ok _ |- _ => apply reject_if_inv, Z.ltb_ge in Hr
    | u : unit |- _ => destruct u
    end; intuition.
Qed.

Lemma validate_ops_inv ops :
  Forall (fun o => kind_typed (op_kind o)) ops -> validate_ops ops = Ok tt -> Forall (fun o => kind_ok (op_kind o)) ops.
Proof.
  induction 1 as [|o ops Ho _ IH]; [done|]. cbn [validate_ops]. intros Hv. bind_inv Hv. destruct x.
  constructor; [by apply validate_op_inv|by apply IH].
Qed.

Lemma number_ops_spec kinds : forall o, 0 <= o -> o + len kinds < 2 ^ 32 ->
  map op_kind (number_ops o kinds).1 = kinds /\ map op_ordinal (number_ops o kinds).1 = seqZ o (len kinds)
  /\ (number_ops o kinds).2 = o + len kinds.
Proof.
  induction kinds as [|k kinds IH]; intros o Ho Hb.
  { cbn [number_ops fst snd map]. rewrite len_nil, seqZ_nil by lia. split_and!; [done..|lia]. }
  rewrite len_cons in *. pose proof (len_nonneg kinds). cbn [number_ops]. unfold saturating_add.
  rewrite Z.min_l by lia. specialize (IH (o + 1)). destruct (number_ops (o + 1) kinds) as [ops last]. simpl fst in *. simpl snd in *.
  destruct IH as (E1 & E2 & E3); [lia..|]. cbn [map op_kind op_ordinal]. rewrite E1, E2, E3.
  rewrite (seqZ_cons o) by lia. split_and!; [done| |lia]. do 2 f_equal; lia.
Qed.

Lemma number_ops_kinds kinds : forall o, map op_kind (number_ops o kinds).1 = kinds.
Proof.
  induction kinds as [|k kinds IH]; intros o; [done|]. cbn [number_ops]. specialize (IH (saturating_add 32 o 1)).
  destruct (number_ops _ kinds) as [ops last]. simpl fst in *. cbn [map op_kind]. by rewrite IH.
Qed.

Section Commit.
Context `{Crc32c} (txn_id : Z) (commit_ts : Ts) (salt1 salt2 : Z) (prims : list PrimaryWrite) (secs : list SecIndexWrite).

Lemma built_kinds :
  map op_kind (lf_ops (build_logical_txn_frame txn_id commit_ts salt1 salt2 prims secs))
  = map sec_op_kind secs ++ map prim_op_kind prims.
Proof.
  unfold build_logical_txn_frame. pose proof (number_ops_kinds (map sec_op_kind secs) 0) as E1.
  destruct (number_ops 0 _) as [ops1 o1]. pose proof (number_ops_kinds (map prim_op_kind prims) o1) as E2.
  destruct (number_ops o1 _) as [ops2 o2]. cbn [lf_ops fst] in *. by rewrite map_app, E1, E2.
Qed.

Lemma built_dense :
  len (lf_ops (build_logical_txn_frame txn_id commit_ts salt1 salt2 prims secs)) < 2 ^ 32 ->
  dense (lf_ops (build_logical_txn_frame txn_id commit_ts salt1 salt2 prims secs)).
Proof.
  assert (Hl : len (lf_ops (build_logical_txn_frame txn_id commit_ts salt1 salt2 prims secs)) = len (map sec_op_kind secs) + len (map prim_op_kind prims)).
  { rewrite <- len_app, <- built_kinds. unfold len. by rewrite length_map. }
  intros Hn. unfold dense. rewrite Hl in *. unfold build_logical_txn_frame.
  pose proof (len_nonneg (map sec_op_kind secs)). pose proof (len_nonneg (map prim_op_kind prims)).
  destruct (number_ops_spec (map sec_op_kind secs) 0) as (_ & E1 & E2); [lia..|].
  destruct (number_ops 0 _) as [ops1 o1]. simpl fst in *. simpl snd in *. subst o1.
  destruct (number_ops_spec (map prim_op_kind prims) (0 + len (map sec_op_kind secs))) as (_ & E3 & _); [lia..|].
  destruct (number_ops (0 + _) _) as [ops2 o2]. cbn [lf_ops fst] in *. rewrite map_app, E1, E3, <- seqZ_app by lia. done.
Qed.

Lemma encode_accepts_wf f buf :
  is_u32 (lf_salt1 f) -> is_u32 (lf_salt2 f) -> ts_wf (lf_commit_ts f) -> is_u64 (lf_diagnostic_txn_id f) ->
  lf_format_version f = LOGICAL_TXN_FORMAT_VERSION -> lf_flags f = 0 ->
  Forall (fun o => kind_typed (op_kind o)) (lf_ops f) -> (len (lf_ops f) < 2 ^ 32 -> dense (lf_ops f)) ->
  logical_encode f = Ok buf -> frame_wf f.
Proof.
  intros ? ? ? ? ? ? Hk Hd He. unfold logical_encode, validate_encode_limits in He. cbv zeta in He. bind_inv He.
  bind_inv Hx0. repeat match goal with
    | u : unit |- _ => destruct u
    | Hr : reject_if _ _ = Ok _ |- _ => apply reject_if_inv, Z.ltb_ge in Hr
    end.
  unfold frame_wf. split_and!; try done; [by apply validate_ops_inv|]. apply Hd. unfold LOGICAL_TXN_MAX_OP_COUNT in *. lia.
Qed.

Lemma encode_outcome f :
  match logical_encode f with
  | Ok _ => True
  | Err e => exists size limit, e = JournalFrameTooLarge size limit
  | Panic => False
  end.
Proof.
  unfold logical_encode, validate_encode_limits. cbv zeta. unfold reject_if.
  assert (Hv : match validate_ops (lf_ops f) with
    Err e => exists size limit, e = JournalFrameTooLarge size limit | Panic => False | Ok _ => True end).
  { induction (lf_ops f) as [|o ops IH]; [done|]. cbn [validate_ops]. unfold validate_op, validate_inline_len, reject_if.
    destruct (op_kind o); repeat match goal with |- context [if ?b then _ else _] => destruct b end; simpl; eauto. }
  destruct (_ <? frame_total_bytes f); simpl; [eauto|]. destruct (_ <? len _); simpl; [eauto|].
  by destruct (validate_ops (lf_ops f)).
Qed.

Lemma built_wf buf :
  is_u64 txn_id -> ts_wf commit_ts -> is_u32 salt1 -> is_u32 salt2 ->
  Forall (fun w => is_i64 (pw_ns_id w)) prims -> Forall (fun w => is_i64 (sw_index_id w)) secs ->
  logical_encode (build_logical_txn_frame txn_id commit_ts salt1 salt2 prims secs) = Ok buf -> frame_wf (build_logical_txn_frame txn_id commit_ts salt1 salt2 prims secs).
Proof.
  intros ? ? ? ? Hp Hs He. apply encode_accepts_wf with buf; try done; try apply built_dense;
    try (unfold build_logical_txn_frame; repeat case_match; done).
  apply (Forall_map op_kind kind_typed). rewrite built_kinds. apply Forall_app. split; apply Forall_map;
    (eapply Forall_impl; [eassumption|]); intros w Hw; unfold sec_op_kind, prim_op_kind; by destruct (_ w).
Qed.
End Commit.

(** C14: the frame a commit builds from its staging buffers carries every
    secondary write, then every primary write, in staging order. Encoding
    either fails with [JournalFrameTooLarge] or gives a buffer of the announced
    length that decodes to the same frame, whatever follows it and in every
    context, while every strict prefix of it decodes to no frame. *)
Theorem logical_frame_roundtrip `{Crc32c} txn_id commit_ts salt1 salt2 prims secs :
  is_u64 txn_id -> ts_wf commit_ts -> is_u32 salt1 -> is_u32 salt2 ->
  Forall (fun w => is_i64 (pw_ns_id w)) prims -> Forall (fun w => is_i64 (sw_index_id w)) secs ->
  let f := build_logical_txn_frame txn_id commit_ts salt1 salt2 prims secs in
  map op_kind (lf_ops f) = map sec_op_kind secs ++ map prim_op_kind prims /\
  match logical_encode f with
  | Ok buf =>
      len buf = frame_total_bytes f
      /\ (forall tail ctx, logical_decode (buf ++ tail) salt1 salt2 ctx = Ok (Some f))
      /\ (forall k ctx, (k < length buf)%nat -> logical_decode (take k buf) salt1 salt2 ctx = Ok None)
  | Err e => exists size limit, e = JournalFrameTooLarge size limit
  | Panic => False
  end.
Proof.
  intros ? ? ? ? ? ? f. split; [apply built_kinds|]. pose proof (encode_outcome f) as Ho.
  destruct (logical_encode f) as [buf| |] eqn:He; [clear Ho|done..].
  assert (Hwf : frame_wf f) by by apply built_wf with buf. rewrite logical_encode_eq in He by done.
  assert (buf = frame_body f ++ le_bytes 4 (crc32c (frame_body f))) as -> by congruence. clear He.
  assert (lf_salt1 f = salt1 /\ lf_salt2 f = salt2) as [E1 E2]
    by (subst f; unfold build_logical_txn_frame; by repeat case_match).
  split_and!.
  - rewrite len_app, len_frame_body, len_le_bytes. lia.
  - intros tail ctx. rewrite <- app_assoc. pose proof (logical_decode_holds f tail ctx Hwf) as Hd. by rewrite E1, E2 in Hd.
  - intros k ctx Hk. pose proof (logical_decode_prefix f k ctx Hwf Hk) as Hd. by rewrite E1, E2 in Hd.
Qed.

Definition frame_example : LogicalTxnFrame :=
  build_logical_txn_frame 9 (mkTs 1000 2) 7 8
    [mkPrimWrite 5 [97] 3 0 [1; 2] None (PrimInsert [10; 11]); mkPrimWrite 5 [97] 3 0 [1; 3] None PrimDelete]
    [mkSecWrite 6 4 0 None [2; 2] None (SecInsert [1; 2])].

Lemma logical_frame_roundtrip_witness :
  exists buf, @logical_encode Bitwise.crc32c_bitwise frame_example = Ok buf
    /\ forall tail, @logical_decode Bitwise.crc32c_bitwise (buf ++ tail) 7 8 Scanning = Ok (Some frame_example).
Proof.
  destruct (@logical_frame_roundtrip Bitwise.crc32c_bitwise 9 (mkTs 1000 2) 7 8
    [mkPrimWrite 5 [97] 3 0 [1; 2] None (PrimInsert [10; 11]); mkPrimWrite 5 [97] 3 0 [1; 3] None PrimDelete]
    [mkSecWrite 6 4 0 None [2; 2] None (SecInsert [1; 2])]) as [_ Hr];
    [done|done|done|done|by repeat constructor|by repeat constructor|].
  fold frame_example in Hr. destruct (@logical_encode _ frame_example) as [buf|e|] eqn:He; [|by vm_compute in He|done].
  exists buf. split; [done|]. intros tail. apply Hr.
Defined.

(** C24: on arbitrary bytes, decoding a logical frame never panics, never fails
    while scanning, and in mid-stream fails only with [CorruptDatabase]. A frame
    it accepts is well formed, has the expected salts and dense ordinals, and
    the bytes read are exactly its encoding: the format is canonical. *)
Theorem logical_frame_decode_exact `{Crc32c} buf salt1 salt2 ctx :
  bytes_ok buf -> is_u32 salt1 -> is_u32 salt2 ->
  match logical_decode buf salt1 salt2 ctx with
  | Ok None => True
  | Ok (Some f) =>
      frame_wf f /\ lf_salt1 f = salt1 /\ lf_salt2 f = salt2
      /\ exists bytes rest, buf = bytes ++ rest /\ logical_encode f = Ok bytes
  | Err e => ctx <> Scanning /\ exists detail recoverable, e = CorruptDatabase detail recoverable
  | Panic => False
  end.
Proof.
  intros Hb H1 H2. destruct (logical_decode_settled buf salt1 salt2 ctx Hb) as [Hn He].
  destruct (logical_decode buf salt1 salt2 ctx) as [[f|]|e|] eqn:Hd; [by eapply logical_decode_exact|done|by apply He|done].
Qed.

Lemma logical_frame_decode_exact_witness :
  @logical_decode Bitwise.crc32c_bitwise (replicate 60 3) 7 8 (MidStream false) <> Panic.
Proof.
  pose proof (@logical_frame_decode_exact Bitwise.crc32c_bitwise (replicate 60 3) 7 8 (MidStream false)) as Hd.
  intros Hp. rewrite Hp in Hd. apply Hd; [|done|done]. apply Forall_replicate. done.
Defined.
