(* ===== verification/Recovery.v ===== *)
(** * Journal recovery

    [journal/recovery.rs], with [open_or_create] and [write_page_to_main] of
    [journal/mod.rs]: the scan of an existing journal for its contiguous prefix
    of valid records, the passes that replay them into the main file, and the
    truncation of the tail.

    The two files are byte lists. Operations on them succeed: a failing system
    call ends recovery with [Error::Io] and is not modelled. *)

From S2P Require Import Prelude Effects Bytes Timestamp BTreeMap Crc Page DbHeader JournalHeader LogRecord.
From S2P Require Import Payloads Chain Parser LogicalFrame LogManager.
From stdpp Require Import gmap.

#[local] Open Scope Z_scope.

(** ** The files and the effects on them *)

(** [World]: the journal ([None] once it is deleted) and the main file *)
Record World : Set := mkWorld { w_journal : option (list Z); w_main : list Z }.

Abbreviation io := (st World).

#[local] Open Scope st_scope.

Definition write_page_to_main (page_number : Z) (page_data : list Z) : io unit := fun w =>
  (Ok tt, mkWorld (w_journal w) (file_write (w_main w) (page_number * PAGE_SIZE_LEAF) page_data)).

(** ** Records *)

Record ParsedLogicalFrames : Set := mkParsed {
  pl_frames : list (Z * LogicalTxnFrame);
  pl_seen_commit_ts : list Ts }.

Record RecoveredLogRecord : Set := mkRecovered { rr_record : LogRecord; rr_logical_frame : option LogicalTxnFrame }.

Definition inner_frame_salts_differ (payload : list Z) (expected_salt1 expected_salt2 : Z) : Result bool :=
  if len payload <? 16 then Ok false
  else
    salt1 ← read_le payload 8 4;
    salt2 ← read_le payload 12 4;
    Ok (negb (salt1 =? expected_salt1) || negb (salt2 =? expected_salt2)).

Definition log_record_recovery_corruption (detail : string) : Error := CorruptDatabase detail false.

Definition with_journal_recovery_context (e : Error) : Error :=
  match e with CorruptDatabase detail _ => log_record_recovery_corruption detail | other => other end.

(** [r.map_err(f)] *)
Definition map_err {A} (f : Error -> Error) (r : Result A) : Result A :=
  match r with Err e => Err (f e) | r => r end.

Section Recovery.
Context `{Crc32c}.

Definition decode_log_record_recovery_payload (record : LogRecord) (salt1 salt2 : Z) : Result (option RecoveredLogRecord) :=
  match r_payload record with
  | PCrudCommit logical_payload chain_payload =>
      d1 ← inner_frame_salts_differ logical_payload salt1 salt2;
      d2 ← inner_frame_salts_differ chain_payload salt1 salt2;
      if d1 || d2 then Ok None
      else
        logical ← map_err with_journal_recovery_context (logical_decode logical_payload salt1 salt2 (MidStream true));
        logical_frame ← ok_or logical (log_record_recovery_corruption
                          "Phase 8 CrudCommit logical frame failed to decode inside a dual-CRC-valid outer record");
        chain ← map_err with_journal_recovery_context (chain_commit_decode chain_payload salt1 salt2);
        chain_frame ← ok_or chain (log_record_recovery_corruption
                        "Phase 8 CrudCommit chain frame failed to decode inside a dual-CRC-valid outer record");
        reject_if (negb (bool_decide (lf_commit_ts logical_frame = r_commit_ts record))
                   || negb (bool_decide (ch_commit_ts chain_frame = r_commit_ts record)))
          (log_record_recovery_corruption "Phase 8 CrudCommit inner-frame commit_ts mismatch");;
        Ok (Some (mkRecovered record (Some logical_frame)))
  | PCatalogCommit _ => Ok (Some (mkRecovered record None))
  | PCheckpointBoundary payload =>
      checkpoint ← map_err (fun _ => log_record_recovery_corruption
                     "invalid CheckpointBoundary payload inside a dual-CRC-valid record") (boundary_decode payload);
      reject_if (r_end_lsn record <? cb_checkpoint_applied_lsn checkpoint)
        (log_record_recovery_corruption "CheckpointBoundary checkpoint_applied_lsn beyond its own record end_lsn");;
      Ok (Some (mkRecovered record None))
  | PCheckpointPageFrame payload =>
      map_err (fun _ => log_record_recovery_corruption
        "invalid CheckpointPageFrame payload inside a dual-CRC-valid record") (page_frame_decode payload);;
      Ok (Some (mkRecovered record None))
  end.

Definition read_log_record_at (journal : list Z) (cursor salt1 salt2 : Z) : Result (option RecoveredLogRecord) :=
  let journal_len := len journal in
  if saturating_sub journal_len cursor <? LOG_RECORD_HEADER_LEN then Ok None
  else
    header ← slice journal cursor (cursor + LOG_RECORD_HEADER_LEN);
    total_len ← read_le header 12 4;
    if negb ((LOG_RECORD_HEADER_LEN <=? total_len) && (total_len <=? MAX_LOG_RECORD_BYTES)) then Ok None
    else
      match checked_add 64 cursor total_len with
      | None => Ok None
      | Some record_end_lsn =>
          if journal_len <? record_end_lsn then Ok None
          else
            rest ← slice journal (cursor + LOG_RECORD_HEADER_LEN) (cursor + total_len);
            match decode_classified (header ++ rest) with
            | TornEligible _ => Ok None
            | PostCrcCorrupt e => Err (with_journal_recovery_context e)
            | DecodePanic => Panic
            | Decoded record =>
                if negb (r_start_lsn record =? cursor) then Ok None
                else decode_log_record_recovery_payload record salt1 salt2
            end
      end.

(** ** Pass 1: the contiguous prefix of valid records

    Every accepted record is at least a header long, so the length of the
    journal bounds the iterations. *)
Fixpoint read_accepted_loop (fuel : nat) (journal : list Z) (cursor salt1 salt2 : Z)
  : Result (list RecoveredLogRecord * Z) :=
  match fuel with
  | O => Ok ([], cursor)
  | S fuel' =>
      if cursor <? len journal then
        found ← read_log_record_at journal cursor salt1 salt2;
        match found with
        | None => Ok ([], cursor)
        | Some record =>
            more ← read_accepted_loop fuel' journal (r_end_lsn (rr_record record)) salt1 salt2;
            Ok (record :: fst more, snd more)
        end
      else Ok ([], cursor)
  end.

Definition read_accepted_records (journal : list Z) (salt1 salt2 : Z) : Result (list RecoveredLogRecord * Z) :=
  read_accepted_loop (length journal) journal JOURNAL_HEADER_SIZE salt1 salt2.

(** ** Pass 2: the checkpoint boundaries *)

Record CheckpointBoundaryIndex : Set := mkBoundaryIndex {
  bi_max_boundary_batch_id : option Z;
  bi_boundary_batch_ids : gmap Z Z;
  bi_highest_boundary_ts : option Ts;
  bi_latest_boundary_header : option DbHeader.FileHeader }.

(** [prev.map_or(x, |prev| prev.max(x))] *)
Definition max_or {A} (max : A -> A -> A) (prev : option A) (x : A) : A :=
  match prev with Some p => max p x | None => x end.

Definition note_boundary (checkpoint_applied_lsn : Z) (record : RecoveredLogRecord) (index : CheckpointBoundaryIndex)
  : Result CheckpointBoundaryIndex :=
  match r_payload (rr_record record) with
  | PCheckpointBoundary payload =>
      boundary ← map_err (fun _ => log_record_recovery_corruption "invalid CheckpointBoundary payload")
                   (boundary_decode payload);
      let ts := DbHeader.last_checkpoint_ts (cb_header boundary) in
      reject_if (match bi_highest_boundary_ts index with Some prev => ts_ltb ts prev | None => false end)
        (log_record_recovery_corruption "page-0 checkpoint boundary last_checkpoint_ts regressed");;
      Ok (mkBoundaryIndex
            (Some (max_or Z.max (bi_max_boundary_batch_id index) (cb_batch_id boundary)))
            (<[r_start_lsn (rr_record record) := cb_batch_id boundary]> (bi_boundary_batch_ids index))
            (Some (max_or ts_max (bi_highest_boundary_ts index) ts))
            (if checkpoint_applied_lsn <? r_end_lsn (rr_record record) then Some (cb_header boundary)
             else bi_latest_boundary_header index))
  | _ => Ok index
  end.

(** [for record in list { state = step(record, state)?; }] *)
Fixpoint try_fold {A S} (step : A -> S -> Result S) (l : list A) (s : S) : Result S :=
  match l with
  | [] => Ok s
  | a :: rest => s' ← step a s; try_fold step rest s'
  end.

Definition collect_checkpoint_boundaries (accepted : list RecoveredLogRecord) (checkpoint_applied_lsn : Z)
  : Result CheckpointBoundaryIndex :=
  try_fold (note_boundary checkpoint_applied_lsn) accepted (mkBoundaryIndex None ∅ None None).

(** ** Pass 3: the page frames, by batch *)

Record CheckpointPageFramePartition : Set := mkPartition {
  pp_pending_pages_by_batch : gmap Z (list CheckpointPageFramePayload);
  pp_orphan_truncate_lsn : option Z }.

Definition partition_page_frame (known_batch_ids : list Z) (checkpoint_applied_lsn : Z) (record : RecoveredLogRecord)
  (partition : CheckpointPageFramePartition) : Result CheckpointPageFramePartition :=
  if r_end_lsn (rr_record record) <=? checkpoint_applied_lsn then Ok partition
  else
    match r_payload (rr_record record) with
    | PCheckpointPageFrame payload =>
        frame ← map_err (fun _ => log_record_recovery_corruption "invalid CheckpointPageFrame payload")
                  (page_frame_decode payload);
        if negb (bool_decide (pf_batch_id frame ∈ known_batch_ids)) then
          Ok (mkPartition (pp_pending_pages_by_batch partition)
                (Some (max_or Z.min (pp_orphan_truncate_lsn partition) (r_start_lsn (rr_record record)))))
        else
          let pages := default [] (pp_pending_pages_by_batch partition !! pf_batch_id frame) in
          Ok (mkPartition (<[pf_batch_id frame := pages ++ [frame]]> (pp_pending_pages_by_batch partition))
                (pp_orphan_truncate_lsn partition))
    | _ => Ok partition
    end.

Definition partition_checkpoint_page_frames (accepted : list RecoveredLogRecord) (boundaries : CheckpointBoundaryIndex)
  (checkpoint_applied_lsn : Z) : Result CheckpointPageFramePartition :=
  let known_batch_ids := map snd (map_to_list (bi_boundary_batch_ids boundaries)) in
  try_fold (partition_page_frame known_batch_ids checkpoint_applied_lsn) accepted (mkPartition ∅ None).

(** ** Passes 4 to 6: replay *)

Record ScanState : Set := mkScan {
  ss_parsed_logical : ParsedLogicalFrames;
  ss_recovered_max_commit_ts : option Ts;
  ss_recovered_max_publish_seq : option Z;
  ss_applied_catalog_commit : bool;
  ss_recovered_header : DbHeader.FileHeader;
  ss_max_kept_record_end_lsn : Z }.

Definition scan_state_new (main_header : DbHeader.FileHeader) (highest_boundary_ts : option Ts) : ScanState :=
  let main_ts := DbHeader.last_checkpoint_ts main_header in
  let from_main := if bool_decide (main_ts = mkTs 0 0) then None else Some main_ts in
  let max_ts := match highest_boundary_ts with
                | Some boundary_ts => Some (max_or ts_max from_main boundary_ts)
                | None => from_main
                end in
  mkScan (mkParsed [] []) max_ts None false main_header JOURNAL_HEADER_SIZE.

Definition note_kept_record_end (end_lsn : Z) (st : ScanState) : ScanState :=
  mkScan (ss_parsed_logical st) (ss_recovered_max_commit_ts st) (ss_recovered_max_publish_seq st)
    (ss_applied_catalog_commit st) (ss_recovered_header st) (Z.max (ss_max_kept_record_end_lsn st) end_lsn).

Definition set_replayed (header : DbHeader.FileHeader) (st : ScanState) : ScanState :=
  mkScan (ss_parsed_logical st) (ss_recovered_max_commit_ts st) (ss_recovered_max_publish_seq st)
    true header (ss_max_kept_record_end_lsn st).

(** A stable sort by [publish_seq] *)
Fixpoint insert_by_seq (r : RecoveredLogRecord) (l : list RecoveredLogRecord) : list RecoveredLogRecord :=
  match l with
  | [] => [r]
  | x :: rest =>
      if r_publish_seq (rr_record r) <=? r_publish_seq (rr_record x) then r :: l else x :: insert_by_seq r rest
  end.
Definition sort_by_publish_seq (l : list RecoveredLogRecord) : list RecoveredLogRecord := foldr insert_by_seq [] l.

Definition is_checkpoint_kind (k : LogRecordKind) : bool :=
  match k with CheckpointBoundary | CheckpointPageFrame => true | _ => false end.

(** [commit_ts] and [lsn] of a header raised to those already recovered *)
Definition raise_header (lsn : Z) (header recovered : DbHeader.FileHeader) : DbHeader.FileHeader :=
  let h := header in
  DbHeader.mkFileHeader (DbHeader.magic h) (DbHeader.format_version h) (DbHeader.page_size_internal h)
    (DbHeader.page_size_leaf h) (DbHeader.created_at h)
    (ts_max (DbHeader.last_checkpoint_ts h) (DbHeader.last_checkpoint_ts recovered))
    (DbHeader.catalog_root_page h) (DbHeader.free_list_head_4k h) (DbHeader.free_list_head_32k h)
    (DbHeader.total_page_count h) (DbHeader.free_page_count_4k h) (DbHeader.free_page_count_32k h)
    (DbHeader.checksum_algo h) (DbHeader.wal_salt1 h) (DbHeader.wal_salt2 h) (DbHeader.catalog_root_backup h)
    (DbHeader.catalog_root_level h) (DbHeader.next_namespace_id h) (DbHeader.next_index_id h)
    (DbHeader.history_store_root_page h) (DbHeader.history_store_root_level h) lsn.

(** Writes [header] to page 0 and reads it back *)
Definition write_header (header : DbHeader.FileHeader) : io DbHeader.FileHeader :=
  bytes <~ st_lift (DbHeader.to_bytes header) ;;
  _ <~ write_page_to_main 0 bytes ;;
  st_lift (DbHeader.from_bytes bytes).

Fixpoint write_pages (pages : list (Z * list Z)) : io unit :=
  match pages with
  | [] => st_ret tt
  | (n, data) :: rest => _ <~ write_page_to_main n data ;; write_pages rest
  end.

Definition apply_record (record : RecoveredLogRecord) (st : ScanState) : io ScanState :=
  let r := rr_record record in
  let st :=
    note_kept_record_end (r_end_lsn r)
      (mkScan (ss_parsed_logical st)
         (Some (max_or ts_max (ss_recovered_max_commit_ts st) (r_commit_ts r)))
         (Some (max_or Z.max (ss_recovered_max_publish_seq st) (r_publish_seq r)))
         (ss_applied_catalog_commit st) (ss_recovered_header st) (ss_max_kept_record_end_lsn st)) in
  match r_payload r with
  | PCrudCommit _ _ =>
      match rr_logical_frame record with
      | Some frame =>
          let p := ss_parsed_logical st in
          if bool_decide (lf_commit_ts frame ∈ pl_seen_commit_ts p) then st_ret st
          else
            st_ret (mkScan (mkParsed (pl_frames p ++ [(r_start_lsn r, frame)]) (lf_commit_ts frame :: pl_seen_commit_ts p))
                      (ss_recovered_max_commit_ts st) (ss_recovered_max_publish_seq st)
                      (ss_applied_catalog_commit st) (ss_recovered_header st) (ss_max_kept_record_end_lsn st))
      | None => st_ret st
      end
  | PCatalogCommit payload =>
      catalog <~ st_lift (map_err (fun _ => log_record_recovery_corruption "invalid Phase 8 CatalogCommit payload")
                   (catalog_commit_decode payload)) ;;
      _ <~ write_pages (map (fun p => (cp_page_number p, cp_data p)) (cc_pages catalog)) ;;
      let recovered := ss_recovered_header st in
      let lsn := Z.max (DbHeader.checkpoint_applied_lsn (cc_header catalog)) (DbHeader.checkpoint_applied_lsn recovered) in
      header <~ write_header (raise_header lsn (cc_header catalog) recovered) ;;
      st_ret (set_replayed header st)
  | PCheckpointBoundary _ | PCheckpointPageFrame _ => st_ret st
  end.

Fixpoint apply_loop (apply_set : list RecoveredLogRecord) (seen_publish_seq : list Z) (st : ScanState) : io ScanState :=
  match apply_set with
  | [] => st_ret st
  | record :: rest =>
      let seq := r_publish_seq (rr_record record) in
      if bool_decide (seq ∈ seen_publish_seq)
      then st_lift (Err (log_record_recovery_corruption "duplicate Phase 8 LogRecord publish_seq"))
      else st' <~ apply_record record st ;; apply_loop rest (seq :: seen_publish_seq) st'
  end.

Definition above (checkpoint_applied_lsn : Z) (record : RecoveredLogRecord) : bool :=
  checkpoint_applied_lsn <? r_end_lsn (rr_record record).

Definition apply_commit_records (accepted : list RecoveredLogRecord) (checkpoint_applied_lsn : Z) (st : ScanState)
  : io ScanState :=
  let apply_set :=
    List.filter (fun record => negb (is_checkpoint_kind (r_kind (rr_record record))))
      (List.filter (above checkpoint_applied_lsn) accepted) in
  apply_loop (sort_by_publish_seq apply_set) [] st.

Definition drain_boundary (boundaries : CheckpointBoundaryIndex) (record : RecoveredLogRecord)
  (acc : CheckpointPageFramePartition * ScanState) : io (CheckpointPageFramePartition * ScanState) :=
  let (partition, st) := acc in
  match bi_boundary_batch_ids boundaries !! r_start_lsn (rr_record record) with
  | None => st_ret (partition, st)
  | Some batch_id =>
      let st := note_kept_record_end (r_end_lsn (rr_record record)) st in
      match pp_pending_pages_by_batch partition !! batch_id with
      | None => st_ret (partition, st)
      | Some pages =>
          let partition := mkPartition (delete batch_id (pp_pending_pages_by_batch partition)) (pp_orphan_truncate_lsn partition) in
          _ <~ write_pages (map (fun p => (pf_page_number p, pf_data p)) pages) ;;
          st_ret (partition, match pages with [] => st | _ => set_replayed (ss_recovered_header st) st end)
      end
  end.

Fixpoint drain_loop (boundaries : CheckpointBoundaryIndex) (records : list RecoveredLogRecord)
  (acc : CheckpointPageFramePartition * ScanState) : io (CheckpointPageFramePartition * ScanState) :=
  match records with
  | [] => st_ret acc
  | record :: rest => acc' <~ drain_boundary boundaries record acc ;; drain_loop boundaries rest acc'
  end.

Definition is_boundary (record : RecoveredLogRecord) : bool :=
  bool_decide (r_kind (rr_record record) = CheckpointBoundary).

Definition drain_checkpoint_batches (accepted : list RecoveredLogRecord) (boundaries : CheckpointBoundaryIndex)
  (checkpoint_applied_lsn : Z) (partition : CheckpointPageFramePartition) (st : ScanState)
  : io (CheckpointPageFramePartition * ScanState) :=
  drain_loop boundaries (List.filter is_boundary (List.filter (above checkpoint_applied_lsn) accepted)) (partition, st).

Definition truncatable_kind (record : RecoveredLogRecord) : bool :=
  match r_kind (rr_record record) with CheckpointBoundary | CheckpointPageFrame | CatalogCommit => true | CrudCommit => false end.

Definition finalize_recovered_header (accepted : list RecoveredLogRecord) (boundaries : CheckpointBoundaryIndex)
  (st : ScanState) : io (bool * ScanState) :=
  match bi_latest_boundary_header boundaries with
  | None => st_ret (false, st)
  | Some header =>
      let journal_truncatable := forallb truncatable_kind accepted in
      let recovered := ss_recovered_header st in
      let lsn := if journal_truncatable then JOURNAL_HEADER_SIZE
                 else Z.max (DbHeader.checkpoint_applied_lsn header) (DbHeader.checkpoint_applied_lsn recovered) in
      written <~ write_header (raise_header lsn header recovered) ;;
      st_ret (journal_truncatable, set_replayed written st)
  end.

(** ** The scan *)

Record LogRecordRecoveryScan : Set := mkScanResult {
  sr_valid_end_lsn : Z;
  sr_parsed_logical : ParsedLogicalFrames;
  sr_recovered_max_commit_ts : option Ts;
  sr_recovered_max_publish_seq : option Z;
  sr_applied_catalog_commit : bool;
  sr_max_boundary_batch_id : option Z;
  sr_recovered_db_page_count : option Z;
  sr_journal_truncatable : bool }.

Definition scan_log_records (journal : list Z) (main_header : DbHeader.FileHeader) (salt1 salt2 : Z)
  : io LogRecordRecoveryScan :=
  read <~ st_lift (read_accepted_records journal salt1 salt2) ;;
  let (accepted, cursor) := read in
  let checkpoint_applied_lsn := DbHeader.checkpoint_applied_lsn main_header in
  boundaries <~ st_lift (collect_checkpoint_boundaries accepted checkpoint_applied_lsn) ;;
  partition <~ st_lift (partition_checkpoint_page_frames accepted boundaries checkpoint_applied_lsn) ;;
  st <~ apply_commit_records accepted checkpoint_applied_lsn
          (scan_state_new main_header (bi_highest_boundary_ts boundaries)) ;;
  drained <~ drain_checkpoint_batches accepted boundaries checkpoint_applied_lsn partition st ;;
  let (partition, st) := drained in
  finalized <~ finalize_recovered_header accepted boundaries st ;;
  let (journal_truncatable, st) := finalized in
  let valid_end_lsn :=
    match pp_orphan_truncate_lsn partition with
    | Some orphan => Z.max (Z.min orphan cursor) (ss_max_kept_record_end_lsn st)
    | None => cursor
    end in
  st_ret (mkScanResult valid_end_lsn (ss_parsed_logical st) (ss_recovered_max_commit_ts st)
            (ss_recovered_max_publish_seq st) (ss_applied_catalog_commit st) (bi_max_boundary_batch_id boundaries)
            (option_map DbHeader.total_page_count (bi_latest_boundary_header boundaries)) journal_truncatable).

(** ** Opening *)

(** The fields of [JournalManager] that recovery sets *)
Record JournalManager : Set := mkManager {
  jm_salt1 : Z;
  jm_salt2 : Z;
  jm_checkpoint_seq : Z;
  jm_log_manager : LogManager;
  jm_last_committed_db_page_count : option Z;
  jm_recovered_max_commit_ts : option Ts;
  jm_recovered_max_publish_seq : option Z;
  jm_parsed_logical_frames : ParsedLogicalFrames;
  jm_checkpoint_batch_active : option (Z * Z);
  jm_next_checkpoint_batch_id : Z }.

Definition set_journal (j : option (list Z)) : io unit := fun w => (Ok tt, mkWorld j (w_main w)).

Definition truncate_tail_to_valid_end_lsn (journal : list Z) (valid_end_lsn : Z) : io unit :=
  if valid_end_lsn <? len journal then set_journal (Some (take (Z.to_nat valid_end_lsn) journal)) else st_ret tt.

(** The header rewritten at offset 0 and the file cut behind it *)
Definition reset_journal (journal : list Z) (salt1 salt2 checkpoint_seq : Z) : io unit :=
  let h := JournalHeader.new salt1 salt2 in
  let h := JournalHeader.mkJournalHeader (JournalHeader.magic h) (JournalHeader.format_version h)
             (JournalHeader.page_size_internal h) (JournalHeader.page_size_leaf h) salt1 salt2 checkpoint_seq in
  bytes <~ st_lift (JournalHeader.to_bytes h) ;;
  set_journal (Some (take (Z.to_nat JOURNAL_HEADER_SIZE) (file_write journal 0 bytes))).

Definition recover_log_record_journal (journal : list Z) (main_header : DbHeader.FileHeader) (salt1 salt2 checkpoint_seq : Z)
  : io (option JournalManager) :=
  scan <~ scan_log_records journal main_header salt1 salt2 ;;
  let reset := sr_journal_truncatable scan in
  let checkpoint_seq := if reset then as_u 32 (checkpoint_seq + 1) else checkpoint_seq in
  _ <~ (if reset then reset_journal journal salt1 salt2 checkpoint_seq
        else truncate_tail_to_valid_end_lsn journal (sr_valid_end_lsn scan)) ;;
  let resume_lsn := if reset then JOURNAL_HEADER_SIZE else sr_valid_end_lsn scan in
  let next_batch := match sr_max_boundary_batch_id scan with Some max => saturating_add 64 max 1 | None => 1 end in
  st_ret (Some (mkManager salt1 salt2 checkpoint_seq (new_log resume_lsn) (sr_recovered_db_page_count scan)
                  (sr_recovered_max_commit_ts scan) (sr_recovered_max_publish_seq scan) (sr_parsed_logical scan)
                  None next_batch)).

Definition log_records_present (journal : list Z) : Result bool :=
  if len journal <=? JOURNAL_HEADER_SIZE then Ok true
  else if len journal - JOURNAL_HEADER_SIZE <? 4 then Ok true
  else
    magic ← read_le journal JOURNAL_HEADER_SIZE 4;
    Ok (magic =? LOG_RECORD_MAGIC).

Definition RETIRED_PRE_RELEASE_JOURNAL_FORMAT_VERSIONS : list Z := [1; 2].

(** [drop(journal_file); remove_file(journal_path); return Ok(None)] *)
Definition discard_journal : io (option JournalManager) := _ <~ set_journal None ;; st_ret None.

Definition recover_existing (main_header : DbHeader.FileHeader) (journal : list Z) : io (option JournalManager) :=
  let salt1 := DbHeader.wal_salt1 main_header in
  let salt2 := DbHeader.wal_salt2 main_header in
  if len journal <? JOURNAL_HEADER_SIZE then discard_journal
  else
    let header_buf := get journal 0 JOURNAL_HEADER_SIZE in
    match JournalHeader.from_bytes header_buf with
    | Panic => st_lift Panic
    | Err err =>
        magic <~ st_lift (slice header_buf 0 4) ;;
        format_version <~ st_lift (read_le header_buf 4 4) ;;
        let has_magic := bool_decide (magic = JOURNAL_MAGIC) in
        if has_magic && bool_decide (format_version ∈ RETIRED_PRE_RELEASE_JOURNAL_FORMAT_VERSIONS) then discard_journal
        else if has_magic && negb (format_version =? JOURNAL_FORMAT_VERSION) then st_lift (Err err)
        else discard_journal
    | Ok journal_header =>
        if negb (JournalHeader.salt1 journal_header =? salt1) || negb (JournalHeader.salt2 journal_header =? salt2)
        then discard_journal
        else
          present <~ st_lift (log_records_present journal) ;;
          if negb present then discard_journal
          else recover_log_record_journal journal main_header salt1 salt2 (JournalHeader.checkpoint_seq journal_header)
    end.

Definition open_or_create (main_header : DbHeader.FileHeader) : io JournalManager := fun w =>
  let create : io JournalManager :=
    let salt1 := DbHeader.wal_salt1 main_header in
    let salt2 := DbHeader.wal_salt2 main_header in
    bytes <~ st_lift (JournalHeader.to_bytes (JournalHeader.new salt1 salt2)) ;;
    _ <~ set_journal (Some bytes) ;;
    st_ret (mkManager salt1 salt2 0 (new_log JOURNAL_HEADER_SIZE) None None None (mkParsed [] []) None 1) in
  match w_journal w with
  | None => create w
  | Some journal =>
      st_bind (recover_existing main_header journal)
        (fun recovered => match recovered with Some mgr => st_ret mgr | None => create end) w
  end.
End Recovery.

(** ** Reading one record *)

Section Scan.
Context `{Crc32c}.

Lemma header_total_len h c : is_u32 (h_total_len h) -> read_le (header_bytes h c) 12 4 = Ok (h_total_len h).
Proof.
  intros Ht. pose proof (holds_self (header_bytes h c)) as Hh. unfold header_bytes at 2, header_prefix in Hh.
  split_fields. by eapply read_le_field.
Qed.

Lemma read_at_record journal cursor d salt1 salt2 :
  draft_wf d -> holds journal cursor (record_bytes d cursor) -> len journal < 2 ^ 64 ->
  read_log_record_at journal cursor salt1 salt2 = decode_log_record_recovery_payload (draft_record d cursor) salt1 salt2.
Proof.
  intros Hwf Hh Hj. pose proof (holds_bounds _ _ _ Hh) as [H0 Hend]. pose proof (len_record_bytes d cursor) as Hlen.
  assert (Hsz : LOG_RECORD_HEADER_LEN + payload_size (d_payload d) <= MAX_LOG_RECORD_BYTES) by apply Hwf.
  pose proof (len_nonneg (payload_bytes (d_payload d))) as Hn. fold (payload_size (d_payload d)) in Hn.
  pose proof (decode_record d cursor [] Hwf H0) as Hdec. rewrite app_nil_r in Hdec. unfold record_bytes in Hh, Hdec.
  apply holds_app in Hh as [Hhead Hpay]. rewrite len_header_bytes in Hpay.
  set (h := draft_header d cursor) in *. assert (Htot : h_total_len h = LOG_RECORD_HEADER_LEN + payload_size (d_payload d)) by done.
  unfold MAX_LOG_RECORD_BYTES, LOG_RECORD_HEADER_LEN in *. unfold read_log_record_at, LOG_RECORD_HEADER_LEN, MAX_LOG_RECORD_BYTES.
  cbv zeta. unfold saturating_sub. rewrite (proj2 (Z.ltb_ge _ _)) by lia.
  rewrite (slice_field _ _ _ _ _ Hhead), bind_Ok by (rewrite ?len_header_bytes; lia).
  rewrite header_total_len, bind_Ok by (unfold is_u; lia).
  rewrite (proj2 (Z.leb_le _ _)), (proj2 (Z.leb_le (h_total_len h) _)) by lia. simpl negb. cbv iota.
  unfold checked_add. rewrite (proj2 (Z.ltb_lt _ _)) by lia. rewrite (proj2 (Z.ltb_ge _ _)) by lia.
  rewrite (slice_field _ _ _ _ _ Hpay), bind_Ok by (fold (payload_size (d_payload d)); lia).
  rewrite Hdec by lia. cbn [draft_record r_start_lsn]. by rewrite Z.eqb_refl.
Qed.

Lemma len_take_le {A} (l : list A) k : (k <= length l)%nat -> len (take k l) = Z.of_nat k.
Proof. intros. unfold len. rewrite length_take. lia. Qed.

(** The three shapes of an unfinished tail: a record cut short, a reserved range
    that was never written, and both behind the end of the file *)
Definition torn_tail (cursor : Z) (tail : list Z) : Prop :=
  (exists d k, draft_wf d /\ (k < length (record_bytes d cursor))%nat /\ tail = take k (record_bytes d cursor))
  \/ (exists n rest, tail = zeros n ++ rest /\ (16 <= n \/ rest = [])).

Lemma read_at_short journal cursor salt1 salt2 :
  len journal - cursor < LOG_RECORD_HEADER_LEN -> read_log_record_at journal cursor salt1 salt2 = Ok None.
Proof.
  intros Hs. unfold read_log_record_at, saturating_sub, LOG_RECORD_HEADER_LEN in *. cbv zeta.
  by rewrite (proj2 (Z.ltb_lt _ _)) by lia.
Qed.

Lemma read_at_total journal cursor total salt1 salt2 :
  0 <= cursor -> cursor + LOG_RECORD_HEADER_LEN <= len journal -> is_u32 total -> holds journal (cursor + 12) (le_bytes 4 total) ->
  (total < LOG_RECORD_HEADER_LEN \/ len journal < cursor + total) ->
  read_log_record_at journal cursor salt1 salt2 = Ok None.
Proof.
  intros H0 Hb Ht Hh Hout. unfold LOG_RECORD_HEADER_LEN in *. unfold read_log_record_at, LOG_RECORD_HEADER_LEN, saturating_sub. cbv zeta.
  destruct (_ <? 72) eqn:?; [done|]. rewrite slice_Ok, bind_Ok by lia. replace (cursor + 72 - cursor) with 72 by lia.
  assert (Hr : read_le (get journal cursor 72) 12 4 = Ok total).
  { apply (read_le_field _ 12 12 4 total 4); [|done..]. destruct Hh as (_ & _ & Hg). split_and!; [lia| |].
    - rewrite len_get, len_le_bytes by lia. simpl. lia.
    - rewrite get_get by (rewrite ?len_le_bytes; simpl; lia). done. }
  rewrite Hr, bind_Ok. destruct (Z.leb_spec 72 total); [|done]. destruct (total <=? _); [|done]. simpl negb. cbv iota.
  unfold checked_add. destruct (_ <? 2 ^ 64); [|done]. by rewrite (proj2 (Z.ltb_lt _ _)) by lia.
Qed.

Lemma torn_tail_stops pre tail salt1 salt2 :
  torn_tail (len pre) tail -> len (pre ++ tail) < 2 ^ 64 ->
  read_log_record_at (pre ++ tail) (len pre) salt1 salt2 = Ok None.
Proof.
  intros Htorn Hj. pose proof (len_nonneg pre). rewrite len_app in Hj.
  destruct (Z_lt_le_dec (len tail) LOG_RECORD_HEADER_LEN) as [|Hlong].
  { apply read_at_short. rewrite len_app. lia. }
  assert (Hat : forall b, holds tail 12 b -> holds (pre ++ tail) (len pre + 12) b).
  { intros b (_ & Hl & Hg). split_and!; [lia|rewrite len_app; lia|]. rewrite get_app_r by lia. replace (len pre + 12 - len pre) with 12 by lia. done. }
  destruct Htorn as [(d & k & Hwf & Hk & ->)|(n & rest & -> & Hz)].
  - pose proof (len_record_bytes d (len pre)) as Hlen.
    assert (Hsz : LOG_RECORD_HEADER_LEN + payload_size (d_payload d) <= MAX_LOG_RECORD_BYTES) by apply Hwf.
    pose proof (len_nonneg (payload_bytes (d_payload d))) as Hn. fold (payload_size (d_payload d)) in Hn.
    unfold MAX_LOG_RECORD_BYTES, LOG_RECORD_HEADER_LEN in *.
    assert (Htk : len (take k (record_bytes d (len pre))) = Z.of_nat k) by (apply len_take_le; lia).
    assert (Z.of_nat k < len (record_bytes d (len pre))) by (unfold len at 1; lia).
    apply read_at_total with (72 + payload_size (d_payload d)); unfold LOG_RECORD_HEADER_LEN; rewrite ?len_app; try lia; [unfold is_u; lia|].
    apply Hat. apply holds_take; [|rewrite len_le_bytes; simpl; lia].
    pose proof (holds_self (record_bytes d (len pre))) as Hh.
    unfold record_bytes at 2, header_bytes, header_prefix in Hh.
    split_fields. by eapply holds_at; [eassumption|].
  - unfold LOG_RECORD_HEADER_LEN in *. destruct (Z_lt_le_dec n 16) as [|Hn].
    { destruct Hz as [?|Hz]; [lia|]. subst rest. rewrite app_nil_r in Hlong. exfalso. revert Hlong. unfold zeros, len. rewrite length_replicate. lia. }
    apply read_at_total with 0; unfold LOG_RECORD_HEADER_LEN; rewrite ?len_app in *; [lia|lia|done| |lia]. apply Hat.
    assert (Hlz : len (zeros n) = n) by (apply len_zeros; lia).
    split_and!; [lia|rewrite len_app, len_le_bytes; simpl; pose proof (len_nonneg rest); lia|].
    rewrite get_app_l by (rewrite ?len_le_bytes, ?Hlz; simpl; lia). unfold get, zeros.
    rewrite drop_replicate, take_replicate. rewrite Nat.min_l by (rewrite len_le_bytes; simpl; lia). done.
Qed.
End Scan.

(** ** What the engine writes *)

(** A record of the journal, before encoding: a CRUD commit
    ([commit_envelope.rs]), a catalog commit ([ns_ddl.rs]), a checkpoint
    boundary and a checkpoint page frame *)
Inductive Entry : Set :=
| ECrud (txn_id publish_seq : Z) (logical_frame : LogicalTxnFrame) (chain_frame : ChainCommitFrame)
| ECatalog (publish_seq : Z) (commit_ts : Ts) (payload : CatalogCommitPayload)
| EBoundary (checkpoint_ts : Ts) (payload : CheckpointBoundaryPayload)
| EPageFrame (payload : CheckpointPageFramePayload).

Section Written.
Context `{Crc32c}.

Definition entry_draft (e : Entry) : Result LogRecordDraft :=
  match e with
  | ECrud txn_id publish_seq f c =>
      logical_payload ← logical_encode f;
      chain_payload ← chain_commit_encode c;
      Ok (draft_crud txn_id publish_seq (lf_commit_ts f) logical_payload chain_payload)
  | ECatalog publish_seq ts p => payload ← catalog_commit_encode p; Ok (draft_catalog 0 publish_seq ts payload)
  | EBoundary ts b => payload ← boundary_encode b; Ok (draft_checkpoint_boundary 0 ts payload)
  | EPageFrame p => payload ← page_frame_encode p; Ok (draft_checkpoint_page_frame (mkTs 0 0) payload)
  end.

(** The contents a reader with the same salts accepts; a boundary's frontier
    does not lie behind its own record *)
Definition entry_wf (salt1 salt2 start : Z) (e : Entry) : Prop :=
  match e with
  | ECrud _ _ f c =>
      frame_wf f /\ chain_commit_wf c /\ lf_salt1 f = salt1 /\ lf_salt2 f = salt2
      /\ ch_salt1 c = salt1 /\ ch_salt2 c = salt2 /\ ch_commit_ts c = lf_commit_ts f
  | ECatalog _ _ p => catalog_commit_wf p
  | EBoundary _ b => boundary_wf b /\ cb_checkpoint_applied_lsn b <= start
  | EPageFrame p => page_frame_wf p
  end.

Definition entry_frame (e : Entry) : option LogicalTxnFrame :=
  match e with ECrud _ _ f _ => Some f | _ => None end.

Lemma salts_agree payload salt1 salt2 :
  is_u32 salt1 -> is_u32 salt2 -> holds payload 8 (le_bytes 4 salt1) -> holds payload 12 (le_bytes 4 salt2) ->
  inner_frame_salts_differ payload salt1 salt2 = Ok false.
Proof.
  intros Hs1 Hs2 H1 H2. pose proof (holds_bounds _ _ _ H2) as [_ Hb]. rewrite len_le_bytes in Hb. simpl in Hb.
  unfold inner_frame_salts_differ. rewrite (proj2 (Z.ltb_ge _ _)) by lia.
  do 2 read_field. by rewrite !Z.eqb_refl.
Qed.

Lemma logical_salts_agree f buf :
  frame_wf f -> logical_encode f = Ok buf -> inner_frame_salts_differ buf (lf_salt1 f) (lf_salt2 f) = Ok false.
Proof.
  intros Hwf He. rewrite logical_encode_eq in He by done.
  assert (buf = frame_body f ++ le_bytes 4 (crc32c (frame_body f))) as -> by congruence.
  pose proof (holds_self (frame_body f ++ le_bytes 4 (crc32c (frame_body f)))) as Hh.
  unfold frame_body in Hh at 3. change (zeros 3) with ([0] ++ [0] ++ [0]) in Hh. split_fields.
  apply salts_agree; [apply Hwf|apply Hwf|by eapply holds_at..].
Qed.

Lemma chain_salts_agree c buf :
  is_u32 (ch_salt1 c) -> is_u32 (ch_salt2 c) -> chain_commit_encode c = Ok buf ->
  inner_frame_salts_differ buf (ch_salt1 c) (ch_salt2 c) = Ok false.
Proof.
  intros H1 H2 He. unfold chain_commit_encode in He. cbv zeta in He. bind_inv He.
  match type of He with Ok ?b = Ok _ => assert (buf = b) as -> by congruence end.
  match goal with |- inner_frame_salts_differ ?b _ _ = _ => pose proof (holds_self b) as Hh; revert Hh; generalize b at 1 3 end.
  intros b Hh. change (zeros 3) with ([0] ++ [0] ++ [0]) in Hh. rewrite <- !app_assoc in Hh. split_fields.
  apply salts_agree; [done..|by eapply holds_at|by eapply holds_at].
Qed.

Lemma draft_record_end d start : r_end_lsn (draft_record d start) = start + len (record_bytes d start).
Proof. by rewrite len_record_bytes. Qed.

Lemma recovered_entry e d start salt1 salt2 :
  entry_draft e = Ok d -> entry_wf salt1 salt2 start e ->
  decode_log_record_recovery_payload (draft_record d start) salt1 salt2
    = Ok (Some (mkRecovered (draft_record d start) (entry_frame e))).
Proof.
  intros Hd Hwf. unfold decode_log_record_recovery_payload. destruct e as [t q f c|q ts p|ts b|p]; cbn [entry_draft entry_wf] in Hd, Hwf; bind_inv Hd;
    injection Hd as <-; cbn [r_payload draft_record draft_crud draft_catalog draft_checkpoint_boundary
      draft_checkpoint_page_frame from_payload d_payload entry_frame].
  - destruct Hwf as (Hf & Hc & <- & <- & Hs1 & Hs2 & Hts). destruct (chain_commit_roundtrip_aux c Hc) as (cb & He & Hdec).
    assert (x0 = cb) as -> by congruence. pose proof (chain_salts_agree c cb (proj1 Hc) (proj1 (proj2 Hc)) He) as Hsa.
    rewrite Hs1, Hs2 in *. rewrite (logical_salts_agree f x) by done. rewrite bind_Ok, Hsa, bind_Ok. simpl orb. cbv iota.
    pose proof (logical_decode_holds f [] (MidStream true) Hf) as Hl. rewrite app_nil_r in Hl.
    rewrite logical_encode_eq in Hx by done. assert (x = frame_body f ++ le_bytes 4 (crc32c (frame_body f))) as -> by congruence.
    rewrite Hl. simpl. rewrite Hdec. simpl. by rewrite Hts, !bool_decide_eq_true_2.
  - done.
  - destruct Hwf as [Hb Hle]. destruct (boundary_roundtrip b Hb) as (bb & He & Hdec). assert (x = bb) as -> by congruence.
    rewrite Hdec. simpl map_err. rewrite bind_Ok. rewrite draft_record_end.
    rewrite reject_if_ge; [done|]. pose proof (len_nonneg (record_bytes (draft_checkpoint_boundary 0 ts bb) start)). lia.
  - destruct (page_frame_roundtrip p Hwf) as (pb & He & Hdec). assert (x = pb) as -> by congruence. by rewrite Hdec.
Qed.

(** The records of entries, one after the other from LSN [start] *)
Fixpoint journal_records (start : Z) (ds : list LogRecordDraft) : list Z :=
  match ds with
  | [] => []
  | d :: rest => record_bytes d start ++ journal_records (start + len (record_bytes d start)) rest
  end.

(** Entries that were appended from LSN [start] *)
Inductive appended (salt1 salt2 : Z) : Z -> list (Entry * LogRecordDraft) -> Prop :=
| appended_nil start : appended salt1 salt2 start []
| appended_cons start e d rest :
    entry_draft e = Ok d -> draft_wf d -> entry_wf salt1 salt2 start e ->
    appended salt1 salt2 (start + len (record_bytes d start)) rest ->
    appended salt1 salt2 start ((e, d) :: rest).

(** What a reader recovers of them *)
Fixpoint recovered_records (start : Z) (l : list (Entry * LogRecordDraft)) : list RecoveredLogRecord :=
  match l with
  | [] => []
  | (e, d) :: rest =>
      mkRecovered (draft_record d start) (entry_frame e) :: recovered_records (start + len (record_bytes d start)) rest
  end.

Lemma read_accepted_appended salt1 salt2 start l : appended salt1 salt2 start l -> forall pre tail fuel,
  len pre = start -> let journal := pre ++ journal_records start (map snd l) ++ tail in
  len journal < 2 ^ 64 -> (length l < fuel)%nat ->
  torn_tail (len (pre ++ journal_records start (map snd l))) tail ->
  read_accepted_loop fuel journal start salt1 salt2
    = Ok (recovered_records start l, len (pre ++ journal_records start (map snd l))).
Proof.
  induction 1 as [start|start e d rest He Hd Hwf _ IH]; intros pre tail [|fuel] Hpre journal Hj Hf Htorn; try (simpl in Hf; lia);
    cbn [read_accepted_loop].
  - subst journal. simpl in *. rewrite app_nil_r in *. rewrite <- Hpre. destruct (_ <? _); [|done].
    by rewrite torn_tail_stops.
  - subst journal. cbn [map snd journal_records recovered_records] in *. set (rb := record_bytes d start) in *.
    pose proof (len_nonneg rb). pose proof (len_nonneg tail). pose proof (len_record_bytes d start) as Hlen. fold rb in Hlen.
    set (more := journal_records _ _) in *. pose proof (len_nonneg more).
    pose proof (len_nonneg (payload_bytes (d_payload d))) as Hn. fold (payload_size (d_payload d)) in Hn. unfold LOG_RECORD_HEADER_LEN in Hlen.
    rewrite <- app_assoc in *.
    assert (Hh : holds (pre ++ rb ++ more ++ tail) start rb).
    { pose proof (len_nonneg pre). split_and!; [lia|rewrite !len_app; lia|]. rewrite get_app_r, Hpre, Z.sub_diag by lia. by apply get_app_exact. }
    rewrite (proj2 (Z.ltb_lt _ _)) by (rewrite !len_app; lia).
    rewrite (read_at_record _ _ d), (recovered_entry e), bind_Ok by done. cbn [rr_record]. rewrite draft_record_end. fold rb.
    specialize (IH (pre ++ rb) tail fuel). rewrite <- !app_assoc, len_app, Hpre in IH. fold more in IH.
    rewrite IH; [by rewrite bind_Ok| |done|simpl in Hf; lia|done]. done.
Qed.

Lemma len_record_pos d start : 72 <= len (record_bytes d start).
Proof. rewrite len_record_bytes. pose proof (len_nonneg (payload_bytes (d_payload d))). unfold payload_size, LOG_RECORD_HEADER_LEN. lia. Qed.

Lemma len_journal_records ds : forall start, 72 * len ds <= len (journal_records start ds).
Proof.
  induction ds as [|d ds IH]; intros start; [done|]. cbn [journal_records]. rewrite len_cons, len_app.
  pose proof (len_record_pos d start). specialize (IH (start + len (record_bytes d start))). lia.
Qed.

Lemma read_accepted_written salt1 salt2 header l tail :
  len header = JOURNAL_HEADER_SIZE -> appended salt1 salt2 JOURNAL_HEADER_SIZE l ->
  let written := header ++ journal_records JOURNAL_HEADER_SIZE (map snd l) in
  len (written ++ tail) < 2 ^ 64 -> torn_tail (len written) tail ->
  read_accepted_records (written ++ tail) salt1 salt2 = Ok (recovered_records JOURNAL_HEADER_SIZE l, len written).
Proof.
  intros Hh Ha written Hj Ht. unfold read_accepted_records. subst written. rewrite <- app_assoc in *.
  apply read_accepted_appended; try done. pose proof (len_journal_records (map snd l) JOURNAL_HEADER_SIZE) as Hl.
  apply Nat2Z.inj_lt. fold (len l). fold (len (header ++ journal_records JOURNAL_HEADER_SIZE (map snd l) ++ tail)).
  rewrite !len_app, Hh. assert (len (map snd l) = len l) as E by (unfold len; by rewrite length_map). rewrite E in Hl.
  pose proof (len_nonneg tail). pose proof (len_nonneg l). unfold JOURNAL_HEADER_SIZE in *. lia.
Qed.
(** C13: a crash leaves the records that were written in full, followed by a
    record cut short or a reserved range that was never written. Whatever the
    kinds of the records, the scan of such a journal accepts exactly the full
    records, each with the logical frame it was committed with, and stops at
    their end. *)
Theorem scan_accepts_written salt1 salt2 header l tail :
  len header = JOURNAL_HEADER_SIZE -> appended salt1 salt2 JOURNAL_HEADER_SIZE l ->
  let written := header ++ journal_records JOURNAL_HEADER_SIZE (map snd l) in
  len (written ++ tail) < 2 ^ 64 -> torn_tail (len written) tail ->
  read_accepted_records (written ++ tail) salt1 salt2 = Ok (recovered_records JOURNAL_HEADER_SIZE l, len written).
Proof. apply read_accepted_written. Qed.
End Written.

(** ** Scanning arbitrary bytes *)

(** The records tile the journal from [start] to [stop]. *)
Fixpoint contiguous (start : Z) (l : list RecoveredLogRecord) (stop : Z) : Prop :=
  match l with
  | [] => stop = start
  | r :: rest =>
      r_start_lsn (rr_record r) = start /\ start + LOG_RECORD_HEADER_LEN <= r_end_lsn (rr_record r)
      /\ contiguous (r_end_lsn (rr_record r)) rest stop
  end.

(** What the scan guarantees of a record it accepts *)
Definition record_ok (r : RecoveredLogRecord) : Prop :=
  payload_kind (r_payload (rr_record r)) = r_kind (rr_record r)
  /\ publish_seq_rule (r_kind (rr_record r)) (r_publish_seq (rr_record r)) = Ok tt
  /\ (r_kind (rr_record r) = CrudCommit ->
      exists f, rr_logical_frame r = Some f /\ lf_commit_ts f = r_commit_ts (rr_record r)).

Section Arbitrary.
Context `{Crc32c}.

Lemma map_err_Ok {A} f (r : Result A) a : map_err f r = Ok a -> r = Ok a.
Proof. by destruct r. Qed.

Lemma recovery_payload_inv record salt1 salt2 r :
  decode_log_record_recovery_payload record salt1 salt2 = Ok (Some r) ->
  rr_record r = record
  /\ (payload_kind (r_payload record) = CrudCommit ->
      exists f, rr_logical_frame r = Some f /\ lf_commit_ts f = r_commit_ts record).
Proof.
  unfold decode_log_record_recovery_payload. destruct (r_payload record) as [l c| | |] eqn:Hp; intros Hd; bind_inv Hd;
    try (injection Hd as <-; done).
  destruct (_ || _) eqn:?; [done|]. bind_inv Hd. injection Hd as <-. split; [done|]. intros _. eexists. split; [done|].
  match goal with Hr : reject_if _ _ = Ok _ |- _ => revert Hr; unfold reject_if; case_match; [done|]; intros _ end.
  match goal with Hb : _ || _ = false |- _ => apply orb_false_iff in Hb as [Hb _] end. by case_bool_decide.
Qed.

Lemma read_at_inv journal cursor salt1 salt2 r :
  bytes_ok journal -> 0 <= cursor -> read_log_record_at journal cursor salt1 salt2 = Ok (Some r) ->
  r_start_lsn (rr_record r) = cursor /\ cursor + LOG_RECORD_HEADER_LEN <= r_end_lsn (rr_record r) <= len journal /\ record_ok r.
Proof.
  intros Hok H0 Hr. unfold read_log_record_at, saturating_sub in Hr. cbv zeta in Hr.
  destruct (_ <? LOG_RECORD_HEADER_LEN) eqn:?; [done|]. bind_inv Hr.
  destruct (negb _) eqn:Hb; [done|]. apply negb_false_iff, andb_true_iff in Hb as [Hlo%Z.leb_le _].
  unfold checked_add in Hr. destruct (_ <? 2 ^ 64); [|done]. destruct (Z.ltb_spec (len journal) (cursor + x0)) as [|Hin]; [done|].
  bind_inv Hr. apply slice_inv in Hx as (? & ? & ? & ->), Hx1 as (? & ? & ? & ->).
  match goal with Hd : context [decode_classified ?b] |- _ => assert (Hbok : bytes_ok b) end.
  { apply Forall_app. split; by apply bytes_ok_get. }
  apply decode_classified_sound in Hbok as [_ Hs]. destruct (decode_classified _) as [record| | |] eqn:Hd; try done.
  destruct (Hs record eq_refl) as (Hlen & Hend & _ & Hkind & _ & Hrule).
  destruct (Z.eqb_spec (r_start_lsn record) cursor) as [Hst|]; [|done]. apply recovery_payload_inv in Hr as [Hrec Hcrud].
  unfold record_ok. rewrite Hrec. rewrite len_app, !len_get in Hlen by lia. unfold LOG_RECORD_HEADER_LEN in *.
  split_and!; try done; try lia. intros Hk. apply Hcrud. congruence.
Qed.

Lemma read_accepted_chain journal salt1 salt2 : bytes_ok journal -> forall fuel cursor l stop,
  0 <= cursor -> read_accepted_loop fuel journal cursor salt1 salt2 = Ok (l, stop) ->
  contiguous cursor l stop /\ (l = [] \/ stop <= len journal) /\ Forall record_ok l
  /\ (len journal - cursor < Z.of_nat fuel -> len journal <= stop \/ read_log_record_at journal stop salt1 salt2 = Ok None).
Proof.
  intros Hok. induction fuel as [|fuel IH]; intros cursor l stop H0 Hl; cbn [read_accepted_loop] in Hl.
  { injection Hl as <- <-. split_and!; [done|by left|done|]. left. lia. }
  destruct (Z.ltb_spec cursor (len journal)) as [Hlt|Hge].
  2: { injection Hl as <- <-. split_and!; [done|by left|done|by left]. }
  bind_inv Hl. destruct x as [r|].
  2: { injection Hl as <- <-. split_and!; [done|by left|done|by right]. }
  bind_inv Hl. destruct x as [l' stop']. injection Hl as <- <-. apply read_at_inv in Hx as (Hst & [Hlo Hhi] & Hrok); [|done..].
  unfold LOG_RECORD_HEADER_LEN in *. apply IH in Hx0 as (Hc & Hstop & Hall & Hmax); [|lia].
  split_and!; [by split_and!| |by constructor|intros; apply Hmax; lia].
  right. destruct Hstop as [->|]; [|done]. simpl in Hc. lia.
Qed.

Lemma scan_facts journal salt1 salt2 l stop :
  bytes_ok journal -> read_accepted_records journal salt1 salt2 = Ok (l, stop) ->
  contiguous JOURNAL_HEADER_SIZE l stop /\ (l = [] \/ stop <= len journal) /\ Forall record_ok l.
Proof.
  intros Hok Hr. unfold read_accepted_records in Hr. apply read_accepted_chain in Hr as (? & ? & ? & _); [|done|unfold JOURNAL_HEADER_SIZE; lia].
  split_and!; assumption.
Qed.

(** C19: on an arbitrary journal, the records the scan accepts tile it from the
    end of the header without gap or overlap, lie inside the file, carry a
    payload of their kind, and a CRUD record carries the logical frame of its
    own commit timestamp. The scan terminates at the end of the file or where
    no record is readable: the accepted prefix is maximal. *)
Theorem scan_contiguous journal salt1 salt2 l stop :
  bytes_ok journal -> read_accepted_records journal salt1 salt2 = Ok (l, stop) ->
  contiguous JOURNAL_HEADER_SIZE l stop /\ (l = [] \/ stop <= len journal) /\ Forall record_ok l
  /\ (len journal <= stop \/ read_log_record_at journal stop salt1 salt2 = Ok None).
Proof.
  intros Hok Hr. unfold read_accepted_records in Hr. apply read_accepted_chain in Hr as (? & ? & ? & Hmax); [|done..].
  split_and!; try done. apply Hmax. fold (len journal). unfold JOURNAL_HEADER_SIZE. lia.
Qed.
End Arbitrary.

(** ** Instances *)

Definition example_crud (publish_seq : Z) (ts : Ts) : Entry :=
  ECrud 9 publish_seq
    (build_logical_txn_frame 9 ts 7 8 [mkPrimWrite 5 [97] 3 0 [1; 2] None (PrimInsert [10; 11])]
       [mkSecWrite 6 4 0 None [2; 2] None (SecInsert [1; 2])])
    (mkChainCommit 7 8 ts [(3, -1)] []).

Definition example_draft (e : Entry) : LogRecordDraft :=
  match @entry_draft Bitwise.crc32c_bitwise e with Ok d => d | _ => draft_crud 0 0 (mkTs 0 0) [] [] end.

Lemma example_wf publish_seq ts start :
  ts_wf ts -> @entry_draft Bitwise.crc32c_bitwise (example_crud publish_seq ts) <> Panic ->
  (forall e, @entry_draft Bitwise.crc32c_bitwise (example_crud publish_seq ts) <> Err e) -> entry_wf 7 8 start (example_crud publish_seq ts).
Proof.
  intros Hts Hp Hd. unfold entry_wf, example_crud. split_and!; try done.
  - unfold entry_draft, example_crud in Hp, Hd. destruct (@logical_encode _ _) as [buf|e|] eqn:He; [|by destruct (Hd e)|done].
    refine (@built_wf Bitwise.crc32c_bitwise _ _ _ _ _ _ buf _ Hts _ _ _ _ He); [done..|by repeat constructor|by repeat constructor].
  - split_and!; [done|done|exact Hts|by repeat constructor|constructor|done].
Qed.

Definition example_log : list (Entry * LogRecordDraft) :=
  [(example_crud 2 (mkTs 1000 2), example_draft (example_crud 2 (mkTs 1000 2)));
   (example_crud 1 (mkTs 999 0), example_draft (example_crud 1 (mkTs 999 0)))].

Lemma example_appended : @appended Bitwise.crc32c_bitwise 7 8 32 example_log.
Proof.
  repeat apply appended_cons; [..|apply appended_nil].
  - by vm_compute.
  - split_and!; by vm_compute.
  - apply example_wf; by vm_compute.
  - by vm_compute.
  - split_and!; by vm_compute.
  - apply example_wf; by vm_compute.
Qed.

Lemma scan_accepts_written_witness :
  exists l, @read_accepted_records Bitwise.crc32c_bitwise
      ((zeros 32 ++ @journal_records Bitwise.crc32c_bitwise 32 (map snd example_log)) ++ zeros 40) 7 8
    = Ok (l, len (zeros 32 ++ @journal_records Bitwise.crc32c_bitwise 32 (map snd example_log))) /\ length l = 2%nat.
Proof.
  exists (@recovered_records Bitwise.crc32c_bitwise 32 example_log). split; [|done].
  apply (@scan_accepts_written Bitwise.crc32c_bitwise 7 8 (zeros 32) example_log (zeros 40)).
  - done.
  - apply example_appended.
  - by vm_compute.
  - right. exists 40, []. rewrite app_nil_r. split; [done|by right].
Defined.

Lemma bytes_ok_check l : forallb (fun b => (0 <=? b) && (b <? 256)) l = true -> bytes_ok l.
Proof.
  intros Hb. apply List.Forall_forall. intros b Hin. rewrite forallb_forall in Hb. specialize (Hb b Hin). unfold is_u. lia.
Qed.

Lemma scan_contiguous_witness :
  exists l stop, @read_accepted_records Bitwise.crc32c_bitwise
      ((zeros 32 ++ @journal_records Bitwise.crc32c_bitwise 32 (map snd example_log)) ++ zeros 40) 7 8 = Ok (l, stop)
    /\ length l = 2%nat /\ contiguous 32 l stop.
Proof.
  eexists _, _. split; [vm_compute; reflexivity|]. split; [done|].
  refine (proj1 (@scan_contiguous Bitwise.crc32c_bitwise _ 7 8 _ _ _ _)).
  2: { instantiate (1 := (zeros 32 ++ @journal_records Bitwise.crc32c_bitwise 32 (map snd example_log)) ++ zeros 40).
       vm_compute. reflexivity. }
  apply bytes_ok_check. vm_compute. reflexivity.
Defined.
