(* ===== verification/RecoveryReplay.v ===== *)
(** * Replay

    Theorems about the passes of [journal/recovery.rs] behind the scan: what a
    recovered journal keeps, which commits reach the engine after a crash, and
    in which order. *)

From S2P Require Import Prelude Effects Bytes Timestamp BTreeMap Crc Page DbHeader JournalHeader LogRecord.
From S2P Require Import Payloads Chain Parser LogicalFrame LogManager Recovery.
From stdpp Require Import gmap.
From Stdlib Require Import Sorted.

#[local] Open Scope Z_scope.
#[local] Open Scope st_scope.

(** ** Effects *)

(** An action that leaves the journal alone *)
Definition journal_untouched {A} (m : io A) : Prop := forall w, w_journal (snd (m w)) = w_journal w.

Create HintDb untouched.

Lemma untouched_ret {A} (a : A) : journal_untouched (st_ret a).
Proof. done. Qed.
Lemma untouched_lift {A} (r : Result A) : journal_untouched (st_lift r).
Proof. done. Qed.
Lemma untouched_write n data : journal_untouched (write_page_to_main n data).
Proof. done. Qed.
Lemma untouched_bind {A B} (m : io A) (k : A -> io B) :
  journal_untouched m -> (forall a, journal_untouched (k a)) -> journal_untouched (st_bind m k).
Proof.
  intros Hm Hk w. unfold st_bind. specialize (Hm w). destruct (m w) as [[a|e|] w1]; simpl in *; [|done..].
  by rewrite Hk.
Qed.
#[local] Hint Resolve untouched_ret untouched_lift untouched_write untouched_bind : untouched.

Lemma untouched_pages pages : journal_untouched (write_pages pages).
Proof. induction pages as [|[n d] pages IH]; simpl; auto with untouched. Qed.

Section Replay.
Context `{Crc32c}.

Lemma untouched_header h : journal_untouched (write_header h).
Proof. unfold write_header. auto with untouched. Qed.
#[local] Hint Resolve untouched_pages untouched_header : untouched.

Lemma untouched_apply_record r st : journal_untouched (apply_record r st).
Proof. unfold apply_record. cbv zeta. repeat case_match; auto 6 with untouched. Qed.

Lemma untouched_apply_loop l : forall seen st, journal_untouched (apply_loop l seen st).
Proof.
  induction l as [|r l IH]; intros seen st; simpl; [auto with untouched|]. case_match; auto using untouched_apply_record with untouched.
Qed.

Lemma untouched_drain b r acc : journal_untouched (drain_boundary b r acc).
Proof. unfold drain_boundary. repeat case_match; auto with untouched. Qed.

Lemma untouched_drain_loop b l : forall acc, journal_untouched (drain_loop b l acc).
Proof. induction l as [|r l IH]; intros acc; simpl; auto using untouched_drain with untouched. Qed.

Lemma untouched_finalize l b st : journal_untouched (finalize_recovered_header l b st).
Proof. unfold finalize_recovered_header. case_match; auto with untouched. Qed.
#[local] Hint Resolve untouched_apply_loop untouched_drain_loop untouched_finalize : untouched.

Lemma untouched_scan journal mh salt1 salt2 : journal_untouched (scan_log_records journal mh salt1 salt2).
Proof.
  unfold scan_log_records, apply_commit_records, drain_checkpoint_batches.
  repeat (apply untouched_bind; [auto with untouched|intros ?]; try case_match); auto with untouched.
Qed.

(** ** Kept records *)

Lemma apply_record_kept r st w st' w' :
  apply_record r st w = (Ok st', w') ->
  ss_max_kept_record_end_lsn st' = Z.max (ss_max_kept_record_end_lsn st) (r_end_lsn (rr_record r)).
Proof.
  unfold apply_record. cbv zeta. intros Ha. repeat case_match; st_inv Ha; try done.
Qed.

(** [b] is at least [a] and every end of [l], and at most their maximum. *)
Definition raised (a : Z) (l : list RecoveredLogRecord) (b : Z) : Prop :=
  a <= b /\ Forall (fun r => r_end_lsn (rr_record r) <= b) l
  /\ forall bound, a <= bound -> Forall (fun r => r_end_lsn (rr_record r) <= bound) l -> b <= bound.

Lemma raised_nil a : raised a [] a.
Proof. split_and!; [lia|constructor|auto]. Qed.

Lemma raised_cons a r l b : raised (Z.max a (r_end_lsn (rr_record r))) l b -> raised a (r :: l) b.
Proof.
  intros (H1 & H2 & H3). split_and!; [lia|constructor; [lia|done]|]. intros bound Ha [Hr Hl]%Forall_cons. apply H3; [lia|done].
Qed.

Lemma apply_loop_kept l : forall seen st w st' w',
  apply_loop l seen st w = (Ok st', w') -> raised (ss_max_kept_record_end_lsn st) l (ss_max_kept_record_end_lsn st').
Proof.
  induction l as [|r l IH]; intros seen st w st' w' Ha; cbn [apply_loop] in Ha; [st_inv Ha; apply raised_nil|].
  case_match; [done|]. st_inv Ha. apply raised_cons. rewrite <- (apply_record_kept r st w a w0 Ha0). by eapply IH.
Qed.

Lemma insert_by_seq_perm r l : insert_by_seq r l ≡ₚ r :: l.
Proof. induction l as [|x l IH]; simpl; [done|]. case_match; [done|]. rewrite IH. apply Permutation_swap. Qed.

Lemma sort_perm l : sort_by_publish_seq l ≡ₚ l.
Proof. induction l as [|r l IH]; simpl; [done|]. unfold sort_by_publish_seq in IH. by rewrite insert_by_seq_perm, IH. Qed.

Lemma raised_perm a l l' b : l ≡ₚ l' -> raised a l b -> raised a l' b.
Proof. intros Hp (H1 & H2 & H3). unfold raised. split_and!; [done|by rewrite <- Hp|]. intros bound. rewrite <- Hp. apply H3. Qed.

Lemma drain_kept b l : forall acc w partition' st' w',
  Forall (fun r => is_Some (bi_boundary_batch_ids b !! r_start_lsn (rr_record r))) l ->
  drain_loop b l acc w = (Ok (partition', st'), w') ->
  raised (ss_max_kept_record_end_lsn (snd acc)) l (ss_max_kept_record_end_lsn st')
  /\ pp_orphan_truncate_lsn partition' = pp_orphan_truncate_lsn (fst acc).
Proof.
  induction l as [|r l IH]; intros [partition st] w partition' st' w' Hb Ha; cbn [drain_loop] in Ha.
  { st_inv Ha. simpl. split; [apply raised_nil|done]. }
  apply Forall_cons in Hb as [[batch Hr] Hb]. st_inv Ha.
  apply IH in Ha as [Hk Ho]; [|done]. unfold drain_boundary in Ha0. rewrite Hr in Ha0. cbv zeta in Ha0.
  cbn [fst snd]. case_match; st_inv Ha0; simpl in Hk, Ho; (split; [|done]); apply raised_cons; [|done].
  by case_match.
Qed.

Lemma collect_covers frontier l : forall idx idx',
  try_fold (note_boundary frontier) l idx = Ok idx' ->
  (forall k, is_Some (bi_boundary_batch_ids idx !! k) -> is_Some (bi_boundary_batch_ids idx' !! k))
  /\ Forall (fun r => payload_kind (r_payload (rr_record r)) = CheckpointBoundary ->
       is_Some (bi_boundary_batch_ids idx' !! r_start_lsn (rr_record r))) l.
Proof.
  induction l as [|r l IH]; intros idx idx' Hf; cbn [try_fold] in Hf; [injection Hf as <-; done|].
  bind_inv Hf. apply IH in Hf as [Hmono Hall].
  assert (Hx' : (forall k, is_Some (bi_boundary_batch_ids idx !! k) -> is_Some (bi_boundary_batch_ids x !! k))
    /\ (payload_kind (r_payload (rr_record r)) = CheckpointBoundary -> is_Some (bi_boundary_batch_ids x !! r_start_lsn (rr_record r)))).
  { unfold note_boundary in Hx. destruct (r_payload (rr_record r)); try (injection Hx as <-; done). bind_inv Hx. injection Hx as <-.
    cbn [bi_boundary_batch_ids]. split; [|intros _; rewrite lookup_insert_eq; eauto].
    intros k. rewrite lookup_insert_is_Some'. auto. }
  destruct Hx' as [Hm Hr]. split; [auto|]. constructor; auto.
Qed.

(** ** The end of the recovered journal *)

Lemma contiguous_ends start l stop :
  contiguous start l stop -> start <= stop /\ Forall (fun r => r_end_lsn (rr_record r) <= stop) l.
Proof.
  revert start. induction l as [|r l IH]; intros start; simpl; [intros ->; split; [lia|done]|].
  intros (_ & Hr & Hc). apply IH in Hc as [? Hl]. unfold LOG_RECORD_HEADER_LEN in Hr. split; [lia|constructor; [lia|done]].
Qed.

(** A record above the frontier that replay applies, or the boundary of a
    drained batch *)
Definition kept (frontier : Z) (r : RecoveredLogRecord) : Prop :=
  frontier < r_end_lsn (rr_record r) /\ r_kind (rr_record r) <> CheckpointPageFrame.

Lemma kept_split frontier l r : r ∈ l -> kept frontier r ->
  r ∈ List.filter (fun r => negb (is_checkpoint_kind (r_kind (rr_record r)))) (List.filter (above frontier) l)
  \/ r ∈ List.filter is_boundary (List.filter (above frontier) l).
Proof.
  intros Hin [Hf Hk]. rewrite !list_elem_of_In, !filter_In in *. unfold above, is_boundary.
  rewrite (proj2 (Z.ltb_lt _ _)) by lia. destruct (r_kind (rr_record r)); try done; [left|left|right]; by rewrite ?bool_decide_eq_true_2.
Qed.

Lemma finalize_inv l b st w truncatable st' w' :
  finalize_recovered_header l b st w = (Ok (truncatable, st'), w') ->
  ss_max_kept_record_end_lsn st' = ss_max_kept_record_end_lsn st
  /\ (truncatable = true -> Forall (fun r => r_kind (rr_record r) <> CrudCommit) l).
Proof.
  unfold finalize_recovered_header. intros Hf. case_match; st_inv Hf; [|done]. split; [done|]. intros Ht.
  apply List.Forall_forall. intros r Hr. rewrite forallb_forall in Ht. specialize (Ht r Hr). unfold truncatable_kind in Ht.
  by destruct (r_kind (rr_record r)).
Qed.

(** The high-water mark covers every kept record and lies in the accepted prefix. *)
Lemma replay_kept accepted cursor frontier b st w st1 w1 partition partition' st2 w2 :
  contiguous JOURNAL_HEADER_SIZE accepted cursor -> Forall record_ok accepted ->
  collect_checkpoint_boundaries accepted frontier = Ok b ->
  ss_max_kept_record_end_lsn st = JOURNAL_HEADER_SIZE ->
  apply_commit_records accepted frontier st w = (Ok st1, w1) ->
  drain_checkpoint_batches accepted b frontier partition st1 w1 = (Ok (partition', st2), w2) ->
  JOURNAL_HEADER_SIZE <= ss_max_kept_record_end_lsn st2 <= cursor
  /\ Forall (fun r => kept frontier r -> r_end_lsn (rr_record r) <= ss_max_kept_record_end_lsn st2) accepted.
Proof.
  intros Hc Hrok Hb Hst Ha Hd. apply contiguous_ends in Hc as [Hlo Hends].
  apply apply_loop_kept, (raised_perm _ _ _ _ (sort_perm _)) in Ha as (A1 & A2 & A3). apply drain_kept in Hd as [(D1 & D2 & D3) _].
  2: { apply collect_covers in Hb as [_ Hb]. apply List.Forall_forall. intros r Hr. apply filter_In in Hr as [Hr Hk].
       apply filter_In in Hr as [Hr _]. unfold is_boundary in Hk. rewrite bool_decide_eq_true in Hk.
       rewrite List.Forall_forall in Hb, Hrok. apply (Hb r Hr). by rewrite (proj1 (Hrok r Hr)). }
  cbn [snd] in *.
  assert (Hsub : forall f g, Forall (fun r => r_end_lsn (rr_record r) <= cursor) (List.filter f (List.filter g accepted))).
  { intros f g. apply List.Forall_forall. intros r Hr. apply filter_In in Hr as [Hr _]. apply filter_In in Hr as [Hr _].
    rewrite List.Forall_forall in Hends. auto. }
  split; [split; [lia|apply D3; [apply A3; [lia|]|]; apply Hsub]|].
  apply Forall_forall. intros r Hr Hk. rewrite Forall_forall in A2, D2.
  destruct (kept_split frontier accepted r Hr Hk) as [Hin|Hin]; [specialize (A2 _ Hin); lia|by apply D2].
Qed.

Lemma scan_result journal mh salt1 salt2 w scan w' :
  bytes_ok journal -> scan_log_records journal mh salt1 salt2 w = (Ok scan, w') ->
  exists accepted cursor, read_accepted_records journal salt1 salt2 = Ok (accepted, cursor)
    /\ contiguous JOURNAL_HEADER_SIZE accepted cursor /\ (accepted = [] \/ cursor <= len journal) /\ Forall record_ok accepted
    /\ JOURNAL_HEADER_SIZE <= sr_valid_end_lsn scan <= cursor
    /\ Forall (fun r => kept (DbHeader.checkpoint_applied_lsn mh) r -> r_end_lsn (rr_record r) <= sr_valid_end_lsn scan) accepted
    /\ (sr_journal_truncatable scan = true -> Forall (fun r => r_kind (rr_record r) <> CrudCommit) accepted).
Proof.
  intros Hok Hs. unfold scan_log_records in Hs. cbv zeta in Hs. st_inv Hs.
  apply st_lift_inv in Ha as [Hread ->], Ha0 as [Hcol ->], Ha1 as [_ ->].
  destruct (scan_facts _ _ _ _ _ Hok Hread) as (Hc & Hin & Hrok).
  apply finalize_inv in Ha4 as [Hk Ht]. 
  destruct (replay_kept l z (DbHeader.checkpoint_applied_lsn mh) a (scan_state_new mh (bi_highest_boundary_ts a)) w a1 w3 a0 c s w4)
    as [Hb Hkept]; try assumption; [done|].
  destruct (contiguous_ends _ _ _ Hc) as [Hlo Hends]. rewrite <- Hk in *. exists l, z. do 4 (split; [done|]).
  cbn [sr_valid_end_lsn sr_journal_truncatable]. split; [case_match; lia|]. split; [|done].
  eapply Forall_impl; [apply Forall_and; split; [exact Hkept|exact Hends]|].
  intros r [H1 H2] Hkr. specialize (H1 Hkr). case_match; [lia|done].
Qed.

(** ** Recovery as a whole *)

Lemma recover_existing_inv mh journal w mgr w' :
  recover_existing mh journal w = (Ok (Some mgr), w') ->
  JOURNAL_HEADER_SIZE <= len journal
  /\ exists seq, recover_log_record_journal journal mh (DbHeader.wal_salt1 mh) (DbHeader.wal_salt2 mh) seq w = (Ok (Some mgr), w').
Proof.
  unfold recover_existing, discard_journal. cbv zeta. destruct (Z.ltb_spec (len journal) JOURNAL_HEADER_SIZE) as [|Hl]; [done|].
  intros Hr. split; [done|]. destruct (JournalHeader.from_bytes _) as [h| |]; [|st_inv Hr; by repeat case_match|done].
  case_match; [done|]. st_inv Hr. apply st_lift_inv in Ha as [_ ->]. case_match; [done|]. eauto.
Qed.

Lemma len_reset journal salt1 salt2 seq w u w' :
  JOURNAL_HEADER_SIZE <= len journal -> reset_journal journal salt1 salt2 seq w = (Ok u, w') ->
  exists j, w_journal w' = Some j /\ len j = JOURNAL_HEADER_SIZE.
Proof.
  unfold reset_journal. cbv zeta. intros Hl Hr. st_inv Hr. injection Hr as _ <-. eexists. split; [done|].
  pose proof (len_file_write journal 0 a ltac:(lia)) as Hf. pose proof (len_nonneg a). unfold len, JOURNAL_HEADER_SIZE in *.
  rewrite length_take. lia.
Qed.

Lemma recover_log_inv journal mh salt1 salt2 seq w mgr w' :
  bytes_ok journal -> w_journal w = Some journal -> JOURNAL_HEADER_SIZE <= len journal ->
  recover_log_record_journal journal mh salt1 salt2 seq w = (Ok (Some mgr), w') ->
  exists accepted cursor j, read_accepted_records journal salt1 salt2 = Ok (accepted, cursor)
    /\ w_journal w' = Some j /\ next_lsn (jm_log_manager mgr) = len j
    /\ (len j = JOURNAL_HEADER_SIZE /\ Forall (fun r => r_kind (rr_record r) <> CrudCommit) accepted
        \/ j = take (length j) journal
           /\ Forall (fun r => kept (DbHeader.checkpoint_applied_lsn mh) r -> r_end_lsn (rr_record r) <= len j) accepted).
Proof.
  intros Hok Hw Hl Hr. unfold recover_log_record_journal in Hr. cbv zeta in Hr. st_inv Hr.
  pose proof (untouched_scan journal mh salt1 salt2 w) as Hu. rewrite Ha in Hu. simpl in Hu.
  apply scan_result in Ha as (accepted & cursor & Hread & Hc & Hin & _ & Hve & Hkept & Htr); [|done].
  exists accepted, cursor. assert (cursor <= len journal) by (destruct Hin as [->|]; [simpl in Hc; lia|done]).
  cbn [jm_log_manager new_log next_lsn]. destruct (sr_journal_truncatable a) eqn:Ht.
  - apply len_reset in Ha0 as (j & Hj & Hlj); [|done]. exists j. split_and!; [done..|]. left. auto.
  - unfold truncate_tail_to_valid_end_lsn in Ha0. unfold JOURNAL_HEADER_SIZE in *.
    destruct (Z.ltb_spec (sr_valid_end_lsn a) (len journal)).
    + injection Ha0 as _ <-. exists (take (Z.to_nat (sr_valid_end_lsn a)) journal).
      assert (Hlt : length (take (Z.to_nat (sr_valid_end_lsn a)) journal) = Z.to_nat (sr_valid_end_lsn a))
        by (rewrite length_take; unfold len in *; lia).
      assert (Hlz : len (take (Z.to_nat (sr_valid_end_lsn a)) journal) = sr_valid_end_lsn a) by (unfold len; lia).
      rewrite Hlz, Hlt. split_and!; [done..|]. right. done.
    + st_inv Ha0. exists journal. assert (Hse : sr_valid_end_lsn a = len journal) by lia. split_and!; [done|congruence|done|].
      right. rewrite <- Hse. split; [by rewrite firstn_all|done].
Qed.

(** C9: whatever the bytes of a journal, when recovery succeeds the log manager
    resumes exactly at the end of the journal it leaves, and no commit is lost:
    either that journal is a prefix of the old one that still contains every
    replayed record and every boundary above the checkpoint frontier, also those
    behind an orphan page frame, or it was reset to its header and held no CRUD
    commit. *)
Theorem recovery_keeps_commits mh journal w mgr w' :
  bytes_ok journal -> w_journal w = Some journal -> recover_existing mh journal w = (Ok (Some mgr), w') ->
  exists accepted cursor j,
    read_accepted_records journal (DbHeader.wal_salt1 mh) (DbHeader.wal_salt2 mh) = Ok (accepted, cursor)
    /\ w_journal w' = Some j /\ next_lsn (jm_log_manager mgr) = len j
    /\ (len j = JOURNAL_HEADER_SIZE /\ Forall (fun r => r_kind (rr_record r) <> CrudCommit) accepted
        \/ j = take (length j) journal
           /\ Forall (fun r => kept (DbHeader.checkpoint_applied_lsn mh) r -> r_end_lsn (rr_record r) <= len j) accepted).
Proof.
  intros Hok Hw Hr. apply recover_existing_inv in Hr as [Hl [seq Hr]]. by eapply recover_log_inv.
Qed.

(** ** Recovery after a crash *)

(** What replay reads of a recovered CRUD commit *)
Definition crud_record (r : RecoveredLogRecord) : Prop :=
  r_kind (rr_record r) = CrudCommit
  /\ (exists l c, r_payload (rr_record r) = PCrudCommit l c)
  /\ exists f, rr_logical_frame r = Some f /\ lf_commit_ts f = r_commit_ts (rr_record r).

Definition is_crud (e : Entry) : bool := match e with ECrud _ _ _ _ => true | _ => false end.

Lemma recovered_crud salt1 salt2 start l :
  appended salt1 salt2 start l -> Forall (fun x => is_crud (fst x) = true) l -> Forall crud_record (recovered_records start l).
Proof.
  induction 1 as [start|start e d rest He Hd Hwf _ IH]; intros Hc; [constructor|].
  apply Forall_cons in Hc as [Hc Hrest]. cbn [recovered_records]. constructor; [|by apply IH].
  destruct e as [t q f c| | |]; try done. cbn [entry_draft] in He. bind_inv He. injection He as <-.
  split; [done|]. split; [eexists _, _; done|]. eexists. split; done.
Qed.

Definition replayed_frame (r : RecoveredLogRecord) : option (Z * LogicalTxnFrame) :=
  (fun f => (r_start_lsn (rr_record r), f)) <$> rr_logical_frame r.

(** Every record is covered by the recovered clocks. *)
Definition clocks_cover (st_ts : option Ts) (st_seq : option Z) (r : RecoveredLogRecord) : Prop :=
  (exists m, st_ts = Some m /\ ts_le (r_commit_ts (rr_record r)) m)
  /\ (exists m, st_seq = Some m /\ r_publish_seq (rr_record r) <= m).

Definition clocks_le (st st' : ScanState) : Prop :=
  (forall m, ss_recovered_max_commit_ts st = Some m -> exists m', ss_recovered_max_commit_ts st' = Some m' /\ ts_le m m')
  /\ (forall m, ss_recovered_max_publish_seq st = Some m -> exists m', ss_recovered_max_publish_seq st' = Some m' /\ m <= m').

Lemma max_or_ts prev t : ts_le t (max_or ts_max prev t) /\ forall p, prev = Some p -> ts_le p (max_or ts_max prev t).
Proof.
  unfold max_or, ts_max. destruct prev as [p|]; [|split; [|done]; ts_lia].
  split; [|intros ? [= <-]]; destruct (ts_leb p t) eqn:E; ts_lia.
Qed.

Lemma clocks_le_trans st1 st2 st3 : clocks_le st1 st2 -> clocks_le st2 st3 -> clocks_le st1 st3.
Proof.
  intros [A1 A2] [B1 B2]. split; intros m Hm.
  - apply A1 in Hm as (m1 & Hm1 & ?). apply B1 in Hm1 as (m2 & Hm2 & ?). eexists. split; [done|ts_lia].
  - apply A2 in Hm as (m1 & Hm1 & ?). apply B2 in Hm1 as (m2 & Hm2 & ?). eexists. split; [done|lia].
Qed.

Lemma clocks_cover_le st st' r :
  clocks_le st st' -> clocks_cover (ss_recovered_max_commit_ts st) (ss_recovered_max_publish_seq st) r ->
  clocks_cover (ss_recovered_max_commit_ts st') (ss_recovered_max_publish_seq st') r.
Proof.
  intros [H1 H2] [(m & Hm & Ht) (n & Hn & Hs)]. apply H1 in Hm as (m' & -> & ?). apply H2 in Hn as (n' & -> & ?).
  split; eexists; (split; [done|]); [ts_lia|lia].
Qed.

Lemma apply_record_crud r st w :
  crud_record r -> r_commit_ts (rr_record r) ∉ pl_seen_commit_ts (ss_parsed_logical st) ->
  exists st', apply_record r st w = (Ok st', w)
    /\ pl_frames (ss_parsed_logical st') = pl_frames (ss_parsed_logical st) ++ omap replayed_frame [r]
    /\ pl_seen_commit_ts (ss_parsed_logical st') = r_commit_ts (rr_record r) :: pl_seen_commit_ts (ss_parsed_logical st)
    /\ clocks_le st st' /\ clocks_cover (ss_recovered_max_commit_ts st') (ss_recovered_max_publish_seq st') r.
Proof.
  intros (_ & (l & c & Hp) & f & Hf & Hts) Hn. unfold apply_record. cbv zeta. rewrite Hp, Hf. rewrite Hts.
  cbn [note_kept_record_end ss_parsed_logical]. rewrite bool_decide_eq_false_2 by done. eexists. split; [done|].
  cbn [ss_parsed_logical pl_frames pl_seen_commit_ts omap list_omap]. unfold replayed_frame. rewrite Hf.
  split; [done|]. split; [done|]. unfold clocks_le, clocks_cover, note_kept_record_end. cbn [ss_recovered_max_commit_ts ss_recovered_max_publish_seq].
  destruct (max_or_ts (ss_recovered_max_commit_ts st) (r_commit_ts (rr_record r))) as [M1 M2].
  split; (split; [eauto|]).
  - intros m ->. eexists. split; [done|]. simpl. lia.
  - eexists. split; [done|]. destruct (ss_recovered_max_publish_seq st); simpl; lia.
Qed.

Lemma fresh_in_map {A B} (f : A -> B) l k x : k ∉ map f l -> x ∈ l -> f x <> k.
Proof. intros Hk Hx <-. apply Hk. by apply list_elem_of_In, in_map, list_elem_of_In. Qed.

Lemma apply_loop_crud l : forall seen st w,
  Forall crud_record l -> NoDup (map (fun r => r_publish_seq (rr_record r)) l) ->
  NoDup (map (fun r => r_commit_ts (rr_record r)) l) ->
  Forall (fun r => r_publish_seq (rr_record r) ∉ seen) l ->
  Forall (fun r => r_commit_ts (rr_record r) ∉ pl_seen_commit_ts (ss_parsed_logical st)) l ->
  exists st', apply_loop l seen st w = (Ok st', w)
    /\ pl_frames (ss_parsed_logical st') = pl_frames (ss_parsed_logical st) ++ omap replayed_frame l
    /\ clocks_le st st'
    /\ Forall (clocks_cover (ss_recovered_max_commit_ts st') (ss_recovered_max_publish_seq st')) l.
Proof.
  induction l as [|r l IH]; intros seen st w Hc Hs Ht Hseen Hts; cbn [apply_loop].
  { exists st. cbn [omap list_omap]. rewrite app_nil_r. split_and!; [done..| |constructor].
    split; intros m ->; eexists; (split; [done|]); [ts_lia|lia]. }
  cbn [map] in Hs, Ht. apply Forall_cons in Hc as [Hcr Hc], Hseen as [Hsr Hseen], Hts as [Htr Hts].
  apply NoDup_cons in Hs as [Hsn Hs], Ht as [Htn Ht]. rewrite bool_decide_eq_false_2 by done.
  destruct (apply_record_crud r st w Hcr Htr) as (st1 & Ha & Hf & Hsn1 & Hle1 & Hcov1).
  destruct (IH (r_publish_seq (rr_record r) :: seen) st1 w) as (st2 & Hl & Hf2 & Hle2 & Hcov2); try done.
  - apply Forall_forall. intros x Hx. rewrite elem_of_cons. intros [E|E]; [|rewrite Forall_forall in Hseen; by apply (Hseen x)].
    by apply (fresh_in_map _ _ _ x Hsn).
  - apply Forall_forall. intros x Hx. rewrite Hsn1, elem_of_cons. intros [E|E]; [|rewrite Forall_forall in Hts; by apply (Hts x)].
    by apply (fresh_in_map _ _ _ x Htn).
  - exists st2. unfold st_bind. rewrite Ha. split_and!; [done| | |].
    + rewrite Hf2, Hf, <- app_assoc. f_equal. cbn [omap list_omap]. by destruct (replayed_frame r).
    + by eapply clocks_le_trans.
    + constructor; [by eapply clocks_cover_le|done].
Qed.

Lemma collect_crud frontier l : Forall crud_record l -> forall idx, try_fold (note_boundary frontier) l idx = Ok idx.
Proof.
  induction 1 as [|r l (_ & (p & c & Hp) & _) _ IH]; intros idx; cbn [try_fold]; [done|].
  assert (note_boundary frontier r idx = Ok idx) as -> by (unfold note_boundary; by rewrite Hp). by rewrite bind_Ok.
Qed.

Lemma partition_crud known frontier l : Forall crud_record l -> forall p, try_fold (partition_page_frame known frontier) l p = Ok p.
Proof.
  induction 1 as [|r l (_ & (b & c & Hp) & _) _ IH]; intros p; cbn [try_fold]; [done|].
  assert (partition_page_frame known frontier r p = Ok p) as -> by (unfold partition_page_frame; rewrite Hp; by case_match).
  by rewrite bind_Ok.
Qed.

Lemma filter_crud l : Forall crud_record l ->
  List.filter (fun r => negb (is_checkpoint_kind (r_kind (rr_record r)))) l = l /\ List.filter is_boundary l = [].
Proof.
  induction 1 as [|r l (Hk & _) _ [IH1 IH2]]; [done|]. cbn [List.filter]. unfold is_boundary at 1. rewrite Hk. simpl. by rewrite IH1, IH2.
Qed.

Lemma Forall_filter {A} (P : A -> Prop) f l : Forall P l -> Forall P (List.filter f l).
Proof. induction 1; simpl; [constructor|]. case_match; [by constructor|done]. Qed.

Lemma NoDup_map_filter {A B} (g : A -> B) f l : NoDup (map g l) -> NoDup (map g (List.filter f l)).
Proof.
  induction l as [|x l IH]; simpl; [done|]. intros [Hx Hl]%NoDup_cons. case_match; [|by apply IH]. simpl. constructor; [|by apply IH].
  intros Hin. apply Hx. apply list_elem_of_In, in_map_iff in Hin as (y & <- & Hy). apply filter_In in Hy as [Hy _].
  by apply list_elem_of_In, in_map.
Qed.

Lemma scan_crud journal mh salt1 salt2 l cursor w :
  read_accepted_records journal salt1 salt2 = Ok (l, cursor) -> Forall crud_record l ->
  NoDup (map (fun r => r_publish_seq (rr_record r)) l) -> NoDup (map (fun r => r_commit_ts (rr_record r)) l) ->
  let replayed := sort_by_publish_seq (List.filter (above (DbHeader.checkpoint_applied_lsn mh)) l) in
  exists scan, scan_log_records journal mh salt1 salt2 w = (Ok scan, w)
    /\ sr_valid_end_lsn scan = cursor /\ sr_journal_truncatable scan = false
    /\ pl_frames (sr_parsed_logical scan) = omap replayed_frame replayed
    /\ Forall (clocks_cover (sr_recovered_max_commit_ts scan) (sr_recovered_max_publish_seq scan)) replayed.
Proof.
  intros Hread Hc Hs Ht replayed. set (frontier := DbHeader.checkpoint_applied_lsn mh) in *.
  set (st0 := scan_state_new mh None).
  assert (Hperm : replayed ≡ₚ List.filter (above frontier) l) by apply sort_perm.
  assert (Hcf : Forall crud_record (List.filter (above frontier) l)) by by apply Forall_filter.
  destruct (apply_loop_crud replayed [] st0 w) as (st & Ha & Hf & _ & Hcov).
  { by rewrite Hperm. }
  { rewrite Hperm. by apply NoDup_map_filter. }
  { rewrite Hperm. by apply NoDup_map_filter. }
  { apply Forall_forall. intros x _. apply not_elem_of_nil. }
  { apply Forall_forall. intros x _. apply not_elem_of_nil. }
  unfold scan_log_records, st_lift. unfold st_bind at 1. rewrite Hread. cbv zeta. fold frontier.
  unfold st_bind at 1, collect_checkpoint_boundaries. rewrite collect_crud by done.
  unfold st_bind at 1, partition_checkpoint_page_frames. cbv zeta. rewrite partition_crud by done.
  cbn [bi_highest_boundary_ts]. fold st0. unfold st_bind at 1, apply_commit_records. cbv zeta.
  rewrite (proj1 (filter_crud _ Hcf)). fold replayed. rewrite Ha.
  unfold st_bind at 1, drain_checkpoint_batches. rewrite (proj2 (filter_crud _ Hcf)). cbn [drain_loop].
  eexists. split; [reflexivity|]. by cbn.
Qed.

Definition seq_le (a b : RecoveredLogRecord) : Prop := r_publish_seq (rr_record a) <= r_publish_seq (rr_record b).

Lemma insert_by_seq_sorted r l : StronglySorted seq_le l -> StronglySorted seq_le (insert_by_seq r l).
Proof.
  induction 1 as [|x l Hl IH Hx]; simpl; [by repeat constructor|].
  destruct (Z.leb_spec (r_publish_seq (rr_record r)) (r_publish_seq (rr_record x))) as [Hle|Hgt].
  - constructor; [by constructor|]. constructor; [done|]. eapply Forall_impl; [exact Hx|]. unfold seq_le. lia.
  - constructor; [done|]. rewrite insert_by_seq_perm. constructor; [unfold seq_le; lia|done].
Qed.

Lemma sort_sorted l : StronglySorted seq_le (sort_by_publish_seq l).
Proof. induction l as [|r l IH]; simpl; [constructor|]. by apply insert_by_seq_sorted. Qed.

Lemma recovered_fields l : forall start,
  map (fun r => r_publish_seq (rr_record r)) (recovered_records start l) = map (fun x => d_publish_seq (snd x)) l
  /\ map (fun r => r_commit_ts (rr_record r)) (recovered_records start l) = map (fun x => d_commit_ts (snd x)) l.
Proof.
  induction l as [|[e d] l IH]; intros start; [done|]. cbn [recovered_records map].
  destruct (IH (start + len (record_bytes d start))) as [-> ->]. done.
Qed.

Lemma journal_header_read jh hb rest :
  JournalHeader.header_wf jh -> JournalHeader.to_bytes jh = Ok hb ->
  len hb = JOURNAL_HEADER_SIZE /\ JournalHeader.from_bytes (get (hb ++ rest) 0 JOURNAL_HEADER_SIZE) = Ok jh.
Proof.
  intros Hwf Hb. assert (Hm : len (JournalHeader.magic jh) = 4) by (by rewrite (proj1 Hwf)).
  pose proof (JournalHeader.len_covered jh Hm) as Hc. rewrite JournalHeader.journal_to_bytes_eq in Hb by done.
  set (c := JournalHeader.covered jh ++ le_bytes 4 (crc32c (JournalHeader.covered jh))) in *.
  assert (Hlc : len c = 32) by (unfold c; rewrite len_app, len_le_bytes; lia).
  assert (Hz : len (zeros JOURNAL_HEADER_SIZE) = 32) by done.
  assert (hb = put (zeros JOURNAL_HEADER_SIZE) 0 c) as -> by congruence. unfold JOURNAL_HEADER_SIZE in *.
  assert (Hl : len (put (zeros 32) 0 c) = 32) by (rewrite len_put; lia). split; [done|].
  rewrite get_app_exact by done. apply JournalHeader.from_bytes_holds; [done|]. fold c. apply holds_put; lia.
Qed.

Lemma records_present hb d ds tail :
  len hb = JOURNAL_HEADER_SIZE -> log_records_present (hb ++ journal_records JOURNAL_HEADER_SIZE (d :: ds) ++ tail) = Ok true.
Proof.
  intros Hh. unfold log_records_present. unfold JOURNAL_HEADER_SIZE in *. cbn [journal_records].
  set (more := journal_records _ ds). rewrite <- app_assoc. pose proof (len_record_pos d 32). pose proof (len_nonneg (more ++ tail)).
  assert (Hlen : len (hb ++ record_bytes d 32 ++ more ++ tail) = 32 + len (record_bytes d 32) + len (more ++ tail))
    by (rewrite len_app, (len_app (record_bytes d 32)); lia).
  rewrite (proj2 (Z.leb_gt _ _)) by lia. rewrite (proj2 (Z.ltb_ge _ _)) by lia.
  assert (Hr : holds (hb ++ record_bytes d 32 ++ more ++ tail) 32 (record_bytes d 32)).
  { split_and!; [lia|lia|]. rewrite get_app_r, Hh by lia. by apply get_app_exact. }
  revert Hr. clear Hlen. generalize (hb ++ record_bytes d 32 ++ more ++ tail). intros j Hr.
  unfold record_bytes, header_bytes, header_prefix in Hr. split_fields. assert (is_u32 LOG_RECORD_MAGIC) by done. by read_field.
Qed.

(** C5: crash recovery returns exactly the commits that were written in full.
    On a journal of CRUD commits that ends in a torn tail, opening succeeds,
    cuts the tail and nothing else, does not touch the main file, resumes the
    log at the end of the last commit, and hands the engine the logical frames
    of all commits above the checkpoint frontier in the order of their publish
    sequence; the recovered clocks are at least every commit timestamp and
    publish sequence replayed. *)
Theorem crash_recovery_commits mh jh hb main l tail :
  JournalHeader.header_wf jh -> JournalHeader.to_bytes jh = Ok hb ->
  JournalHeader.salt1 jh = DbHeader.wal_salt1 mh -> JournalHeader.salt2 jh = DbHeader.wal_salt2 mh ->
  l <> [] -> appended (DbHeader.wal_salt1 mh) (DbHeader.wal_salt2 mh) JOURNAL_HEADER_SIZE l ->
  Forall (fun x => is_crud (fst x) = true) l ->
  NoDup (map (fun x => d_publish_seq (snd x)) l) -> NoDup (map (fun x => d_commit_ts (snd x)) l) ->
  let written := hb ++ journal_records JOURNAL_HEADER_SIZE (map snd l) in
  len (written ++ tail) < 2 ^ 64 -> torn_tail (len written) tail ->
  exists mgr replayed,
    open_or_create mh (mkWorld (Some (written ++ tail)) main) = (Ok mgr, mkWorld (Some written) main)
    /\ next_lsn (jm_log_manager mgr) = len written
    /\ replayed ≡ₚ List.filter (above (DbHeader.checkpoint_applied_lsn mh)) (recovered_records JOURNAL_HEADER_SIZE l)
    /\ StronglySorted seq_le replayed
    /\ pl_frames (jm_parsed_logical_frames mgr) = omap replayed_frame replayed
    /\ Forall (clocks_cover (jm_recovered_max_commit_ts mgr) (jm_recovered_max_publish_seq mgr)) replayed.
Proof.
  intros Hjw Hjb Hs1 Hs2 Hne Happ Hcrud Hseq Hts written Hj Htorn. destruct (journal_header_read jh hb (journal_records JOURNAL_HEADER_SIZE (map snd l) ++ tail) Hjw Hjb) as [Hlh Hfrom].
  assert (Hlw : JOURNAL_HEADER_SIZE <= len written).
  { subst written. rewrite len_app, Hlh. pose proof (len_nonneg (journal_records JOURNAL_HEADER_SIZE (map snd l))). lia. }
  pose proof (read_accepted_written _ _ hb l tail Hlh Happ Hj Htorn) as Hread. fold written in Hread.
  destruct (recovered_fields l JOURNAL_HEADER_SIZE) as [Es Et].
  destruct (scan_crud (written ++ tail) mh _ _ _ _ (mkWorld (Some (written ++ tail)) main) Hread) as (scan & Hscan & Hve & Htr & Hfr & Hcov).
  { by eapply recovered_crud. }
  { by rewrite Es. }
  { by rewrite Et. }
  pose proof (len_nonneg tail).
  assert (Hassoc : written ++ tail = hb ++ journal_records JOURNAL_HEADER_SIZE (map snd l) ++ tail) by (subst written; by rewrite <- app_assoc).
  rewrite <- Hassoc in Hfrom.
  assert (Hp : log_records_present (written ++ tail) = Ok true).
  { rewrite Hassoc. destruct l as [|[e d] l]; [done|]. by apply records_present. }
  assert (Hcut : truncate_tail_to_valid_end_lsn (written ++ tail) (len written) (mkWorld (Some (written ++ tail)) main)
    = (Ok tt, mkWorld (Some written) main)).
  { unfold truncate_tail_to_valid_end_lsn, set_journal. rewrite len_app. destruct (Z.ltb_spec (len written) (len written + len tail)).
    - do 3 f_equal. unfold len at 1. rewrite Nat2Z.id. by rewrite take_app_length.
    - assert (tail = []) as -> by (destruct tail; [done|]; rewrite len_cons in *; pose proof (len_nonneg tail); lia). by rewrite app_nil_r. }
  eassert (Hrec : recover_existing mh (written ++ tail) (mkWorld (Some (written ++ tail)) main) = (Ok (Some _), mkWorld (Some written) main)).
  { unfold recover_existing. cbv zeta. rewrite (proj2 (Z.ltb_ge _ _)) by (rewrite len_app; lia).
    rewrite Hfrom, Hs1, Hs2, !Z.eqb_refl. cbn [negb orb]. rewrite Hp, (st_bind_Ok (st_lift (Ok true)) _ _ true _ eq_refl).
    cbn [negb]. unfold recover_log_record_journal. rewrite (st_bind_Ok _ _ _ _ _ Hscan). cbv zeta.
    rewrite Htr, Hve, (st_bind_Ok _ _ _ _ _ Hcut). reflexivity. }
  unfold open_or_create. cbn [w_journal]. rewrite (st_bind_Ok _ _ _ _ _ Hrec). eexists _, _. split; [reflexivity|].
  cbn. split; [done|]. split; [apply sort_perm|]. split; [apply sort_sorted|]. by split.
Qed.
End Replay.

(** ** Instances *)

Definition example_main_header : DbHeader.FileHeader := DbHeader.new 1700000000000 7 8.
Definition example_journal_header : JournalHeader.JournalHeader := JournalHeader.new 7 8.
Definition example_header_bytes : list Z :=
  match @JournalHeader.to_bytes Bitwise.crc32c_bitwise example_journal_header with Ok b => b | _ => [] end.

Lemma crash_recovery_commits_witness :
  exists mgr, @open_or_create Bitwise.crc32c_bitwise example_main_header
      (mkWorld (Some ((example_header_bytes ++ @journal_records Bitwise.crc32c_bitwise 32 (map snd example_log)) ++ zeros 40)) [])
    = (Ok mgr, mkWorld (Some (example_header_bytes ++ @journal_records Bitwise.crc32c_bitwise 32 (map snd example_log))) []).
Proof.
  destruct (@crash_recovery_commits Bitwise.crc32c_bitwise example_main_header example_journal_header example_header_bytes []
    example_log (zeros 40)) as (mgr & replayed & Hr & _).
  - by split_and!; [..|repeat constructor].
  - by vm_compute.
  - done.
  - done.
  - done.
  - apply example_appended.
  - by repeat constructor.
  - apply (bool_decide_unpack _). by vm_compute.
  - apply (bool_decide_unpack _). by vm_compute.
  - by vm_compute.
  - right. exists 40, []. rewrite app_nil_r. split; [done|by right].
  - exists mgr. exact Hr.
Defined.

Lemma recovery_keeps_commits_witness :
  exists mgr w' j, @recover_existing Bitwise.crc32c_bitwise example_main_header
      ((example_header_bytes ++ @journal_records Bitwise.crc32c_bitwise 32 (map snd example_log)) ++ zeros 40)
      (mkWorld (Some ((example_header_bytes ++ @journal_records Bitwise.crc32c_bitwise 32 (map snd example_log)) ++ zeros 40)) [])
    = (Ok (Some mgr), w') /\ w_journal w' = Some j /\ next_lsn (jm_log_manager mgr) = len j.
Proof.
  set (j := (example_header_bytes ++ @journal_records Bitwise.crc32c_bitwise 32 (map snd example_log)) ++ zeros 40).
  destruct (@recover_existing Bitwise.crc32c_bitwise example_main_header j (mkWorld (Some j) [])) as [r w'] eqn:Hr.
  destruct r as [[mgr|]| |]; [|by vm_compute in Hr..].
  destruct (@recovery_keeps_commits Bitwise.crc32c_bitwise example_main_header j (mkWorld (Some j) []) mgr w')
    as (accepted & cursor & j2 & _ & Hj & Hn & _); [|reflexivity|exact Hr|exists mgr, w', j2; split; [reflexivity|split; [exact Hj|exact Hn]]].
  apply bytes_ok_check. by vm_compute.
Defined.

(** A checkpoint boundary followed by a catalog commit: the boundary's header
    is that of the checkpoint, with catalog root 1 and two pages; the commit
    moved the root to page 5 of six. *)
Definition with_catalog_root (page lsn : Z) : DbHeader.FileHeader :=
  let h := example_main_header in
  DbHeader.mkFileHeader (DbHeader.magic h) (DbHeader.format_version h) (DbHeader.page_size_internal h)
    (DbHeader.page_size_leaf h) (DbHeader.created_at h) (mkTs 1000 0) page 0 0 (page + 1) 0 0 (DbHeader.checksum_algo h) 7 8 0 0 1 1 0 0 lsn.

Definition ddl_after_checkpoint : list Entry :=
  [EBoundary (mkTs 1000 0) (mkBoundary 32 1 (with_catalog_root 1 32));
   ECatalog 1 (mkTs 1001 0) (mkCatalogCommit NamespaceCreate 0 1 (with_catalog_root 5 32) [])].

Definition ddl_journal : list Z :=
  example_header_bytes ++ @journal_records Bitwise.crc32c_bitwise 32 (map example_draft ddl_after_checkpoint).

(** After a crash, the header of the boundary overwrites the header of the later
    catalog commit on page 0, and the journal that held the commit is reset:
    the new catalog root and the pages allocated for it are lost. *)
Theorem boundary_overwrites_later_catalog_commit :
  let (r, w) := @open_or_create Bitwise.crc32c_bitwise (with_catalog_root 1 32) (mkWorld (Some ddl_journal) []) in
  jm_recovered_max_publish_seq <$> r = Ok (Some 1)
  /\ (fun h => (DbHeader.catalog_root_page h, DbHeader.total_page_count h))
       <$> @DbHeader.from_bytes Bitwise.crc32c_bitwise (get (w_main w) 0 4096) = Ok (1, 2)
  /\ len <$> w_journal w = Some JOURNAL_HEADER_SIZE.
Proof. vm_compute. split_and!; reflexivity. Qed.
