(* ===== verification/PageSource.v ===== *)
(** * Page sources

    The [PageSource] trait of [storage/buffer_pool/mod.rs], as the interface the
    allocator works against, and its implementation over the database file
    ([storage/file_io.rs]): every page lives in a 32 KiB slot. *)

From S2P Require Import Prelude Bytes Crc Page.

#[local] Open Scope Z_scope.

Inductive PageSize : Set := Small4k | Large32k.

#[export] Instance PageSize_eq_dec : EqDecision PageSize.
Proof. solve_decision. Defined.

Definition page_bytes (s : PageSize) : Z := match s with Small4k => PAGE_SIZE_INTERNAL | Large32k => PAGE_SIZE_LEAF end.

(** A source with devices of type [D]; a read fills a buffer of the size of the
    page *)
Class PageSource (D : Type) : Type := {
  read_page : D -> Z -> PageSize -> Result (list Z);
  write_page : D -> Z -> PageSize -> list Z -> Result unit * D }.

(** What a client relies on: a page that was written reads back until it is
    written again, whatever happens to the other pages, also when a write to one
    of them fails. [stored d p s buf] is that state of a page. *)
Class PageSourceLaws (D : Type) `{PageSource D} : Type := {
  stored : D -> Z -> PageSize -> list Z -> Prop;
  stored_read d p s buf : stored d p s buf -> read_page d p s = Ok buf;
  write_stored d p s buf d' :
    0 <= p -> len buf = page_bytes s -> write_page d p s buf = (Ok tt, d') -> stored d' p s buf;
  write_other d p s buf r d' q t other :
    0 <= p -> p <> q -> len buf = page_bytes s -> stored d q t other -> write_page d p s buf = (r, d') ->
    stored d' q t other }.

(** ** The database file *)

Module File.

Definition file_offset (page_number : Z) : Z := page_number * PAGE_SIZE_LEAF.

(** [read_exact_at]; a page that is not wholly inside the file reads as zeros *)
Definition read_page (file : list Z) (page_number : Z) (s : PageSize) : Result (list Z) :=
  let offset := file_offset page_number in
  if offset + page_bytes s <=? len file then Ok (get file offset (page_bytes s)) else Ok (zeros (page_bytes s)).

Definition write_page (file : list Z) (page_number : Z) (s : PageSize) (buf : list Z) : Result unit * list Z :=
  (Ok tt, file_write file (file_offset page_number) buf).

#[export] Instance file_source : PageSource (list Z) := {
  PageSource.read_page := read_page;
  PageSource.write_page := write_page }.

Lemma page_bytes_range s : 4096 <= page_bytes s <= 32768.
Proof. by destruct s. Qed.

#[export] Instance file_source_laws : PageSourceLaws (list Z).
Proof.
  refine {| stored d p s buf := 0 <= p /\ len buf = page_bytes s /\ holds d (file_offset p) buf |}.
  - intros d p s buf (Hp & Hl & Hh). simpl. unfold read_page. pose proof (holds_bounds _ _ _ Hh) as [_ Hb].
    rewrite (proj2 (Z.leb_le _ _)) by lia. rewrite <- Hl. by destruct Hh as (_ & _ & ->).
  - intros d p s buf d' Hp Hl [= <-]. split_and!; [done..|]. apply holds_file_write. unfold file_offset, PAGE_SIZE_LEAF. lia.
  - intros d p s buf r d' q t other Hp Hpq Hl (Hq & Hlo & Hh) [= _ <-]. split_and!; [done..|].
    pose proof (page_bytes_range s). pose proof (page_bytes_range t).
    apply holds_file_write_other; [|done|]; unfold file_offset, PAGE_SIZE_LEAF; lia.
Defined.

End File.

#[export] Existing Instances File.file_source File.file_source_laws.
