(* ===== verification/PageStore.v ===== *)
(** * The page store of the B+ tree ([storage/btree/store.rs])

    The trait [BTreePageStore] as the interface the tree works against: pages
    are read, written, allocated and freed, and every leaf frame owns the
    version chains of its keys.  The laws speak of the pages in use.  Guards and
    latches are not part of the interface: the tree holds the exclusive path of
    the structural-mutation contract, so no other thread changes its pages. *)

From S2P Require Import Prelude Effects Bytes Timestamp BTreeMap Version Crc Page.
From stdpp Require Import gmap.

#[local] Open Scope Z_scope.

Class BTreePageStore (S : Type) : Type := {
  read_internal : S -> Z -> Result (list Z);
  read_leaf : S -> Z -> Result (list Z * option (btmap chain));
  write_internal : Z -> list Z -> st S unit;
  write_leaf_structural : Z -> list Z -> st S unit;
  alloc_internal : st S Z;
  alloc_leaf : st S Z;
  free_internal : Z -> st S unit;
  free_leaf : Z -> st S unit;
  chains_empty : S -> Z -> Result bool;
  with_chain_under_latch : forall {R}, Z -> list Z -> (option chain -> R * option chain) -> st S R;
  with_all_chains_under_latch : forall {R}, Z -> (btmap chain -> R * btmap chain) -> st S R }.

(** A page in use: an internal page, or a leaf or overflow page with the chains
    of its frame *)
Inductive PageImage : Set :=
| InternalImage (buf : list Z)
| LeafImage (buf : list Z) (chains : btmap chain).

(** The slot of a key after a closure ran on it *)
Definition put_slot (key : list Z) (slot : option chain) (m : btmap chain) : btmap chain :=
  match slot with Some c => bt_insert key c m | None => bt_remove key m end.

(** What the tree relies on.  Nothing is promised after a failure: the callers
    abandon the structural batch then. *)
Class BTreePageStoreLaws (S : Type) `{BTreePageStore S} : Type := {
  pages_of : S -> gmap Z PageImage;
  read_internal_law s p b : pages_of s !! p = Some (InternalImage b) -> read_internal s p = Ok b;
  read_leaf_law s p b ch : pages_of s !! p = Some (LeafImage b ch) -> exists snap, read_leaf s p = Ok (b, snap);
  write_internal_law s p b0 b s' :
    pages_of s !! p = Some (InternalImage b0) -> len b = PAGE_SIZE_INTERNAL -> write_internal p b s = (Ok tt, s') ->
    pages_of s' = <[p := InternalImage b]> (pages_of s);
  write_leaf_law s p b0 ch b s' :
    pages_of s !! p = Some (LeafImage b0 ch) -> len b = PAGE_SIZE_LEAF -> write_leaf_structural p b s = (Ok tt, s') ->
    pages_of s' = <[p := LeafImage b ch]> (pages_of s);
  alloc_internal_law s p s' : alloc_internal s = (Ok p, s') ->
    0 < p < 2 ^ 32 /\ pages_of s !! p = None /\ exists b, pages_of s' = <[p := InternalImage b]> (pages_of s);
  alloc_leaf_law s p s' : alloc_leaf s = (Ok p, s') ->
    0 < p < 2 ^ 32 /\ pages_of s !! p = None /\ exists b, pages_of s' = <[p := LeafImage b []]> (pages_of s);
  free_internal_law s p b s' :
    pages_of s !! p = Some (InternalImage b) -> free_internal p s = (Ok tt, s') -> pages_of s' = delete p (pages_of s);
  free_leaf_law s p b ch s' :
    pages_of s !! p = Some (LeafImage b ch) -> free_leaf p s = (Ok tt, s') -> pages_of s' = delete p (pages_of s);
  chains_empty_law s p b ch : pages_of s !! p = Some (LeafImage b ch) -> chains_empty s p = Ok (bool_decide (ch = []));
  with_chain_law R s p b ch key (f : option chain -> R * option chain) r s' :
    pages_of s !! p = Some (LeafImage b ch) -> with_chain_under_latch p key f s = (Ok r, s') ->
    r = fst (f (bt_get key ch))
    /\ pages_of s' = <[p := LeafImage b (put_slot key (snd (f (bt_get key ch))) ch)]> (pages_of s);
  with_all_chains_law R s p b ch (f : btmap chain -> R * btmap chain) r s' :
    pages_of s !! p = Some (LeafImage b ch) -> with_all_chains_under_latch p f s = (Ok r, s') ->
    r = fst (f ch) /\ pages_of s' = <[p := LeafImage b (snd (f ch))]> (pages_of s) }.

(** ** A store in memory: the pages in use, and nothing else *)

Module Mem.

Definition next_page (m : gmap Z PageImage) : Z := 1 + map_fold (fun p _ n => Z.max p n) 0 m.

Definition alloc (img : PageImage) : st (gmap Z PageImage) Z := fun m =>
  if next_page m <? 2 ^ 32 then (Ok (next_page m), <[next_page m := img]> m) else (Err (DiskFull 4096), m).

Definition update {A} (p : Z) (f : list Z -> btmap chain -> A * PageImage) : st (gmap Z PageImage) A := fun m =>
  match m !! p with
  | Some (LeafImage b ch) => let (a, img) := f b ch in (Ok a, <[p := img]> m)
  | _ => (Err (Internal "no such leaf page"), m)
  end.

#[export] Instance mem_store : BTreePageStore (gmap Z PageImage) := {
  read_internal m p := match m !! p with Some (InternalImage b) => Ok b | _ => Ok (zeros PAGE_SIZE_INTERNAL) end;
  read_leaf m p := match m !! p with Some (LeafImage b ch) => Ok (b, Some ch) | _ => Ok (zeros PAGE_SIZE_LEAF, None) end;
  write_internal p b m := (Ok tt, <[p := InternalImage b]> m);
  write_leaf_structural p b m := (Ok tt, <[p := LeafImage b (match m !! p with Some (LeafImage _ ch) => ch | _ => [] end)]> m);
  alloc_internal := alloc (InternalImage []);
  alloc_leaf := alloc (LeafImage [] []);
  free_internal p m := (Ok tt, delete p m);
  free_leaf p m := (Ok tt, delete p m);
  chains_empty m p := Ok (match m !! p with Some (LeafImage _ ch) => bool_decide (ch = []) | _ => true end);
  with_chain_under_latch R p key f := update p (fun b ch => let (r, slot) := f (bt_get key ch) in (r, LeafImage b (put_slot key slot ch)));
  with_all_chains_under_latch R p f := update p (fun b ch => let (r, ch') := f ch in (r, LeafImage b ch')) }.

Lemma next_page_above (m : gmap Z PageImage) p img : m !! p = Some img -> p < next_page m.
Proof.
  unfold next_page. revert p img. apply (map_fold_weak_ind (fun n m => forall p img, m !! p = Some img -> p < 1 + n)).
  - intros p img. by rewrite lookup_empty.
  - intros q x m' n Hq IH p img. destruct (decide (p = q)) as [->|Hne]; [lia|]. rewrite lookup_insert_ne by done.
    intros Hp. apply IH in Hp. lia.
Qed.

Lemma next_page_pos (m : gmap Z PageImage) : 0 < next_page m.
Proof. unfold next_page. apply (map_fold_weak_ind (fun n _ => 0 < 1 + n)); intros; lia. Qed.

Lemma alloc_spec img m p m' : alloc img m = (Ok p, m') -> 0 < p < 2 ^ 32 /\ m !! p = None /\ m' = <[p := img]> m.
Proof.
  unfold alloc. destruct (Z.ltb_spec (next_page m) (2 ^ 32)); intros [= <- <-]. pose proof (next_page_pos m). split_and!; [lia..| |done].
  destruct (m !! next_page m) eqn:E; [|done]. apply next_page_above in E. lia.
Qed.

Lemma update_spec {A} p (f : list Z -> btmap chain -> A * PageImage) m b ch a m' :
  m !! p = Some (LeafImage b ch) -> update p f m = (Ok a, m') -> a = fst (f b ch) /\ m' = <[p := snd (f b ch)]> m.
Proof. unfold update. intros ->. destruct (f b ch). by intros [= <- <-]. Qed.

#[export] Instance mem_store_laws : BTreePageStoreLaws (gmap Z PageImage).
Proof.
  refine {| pages_of m := m |}; simpl.
  - by intros s p b ->.
  - intros s p b ch ->. eauto.
  - by intros s p b0 b s' _ _ [= <-].
  - by intros s p b0 ch b s' -> _ [= <-].
  - intros s p s' (? & ? & ?)%alloc_spec. eauto.
  - intros s p s' (? & ? & ?)%alloc_spec. eauto.
  - by intros s p b s' _ [= <-].
  - by intros s p b ch s' _ [= <-].
  - by intros s p b ch ->.
  - intros R s p b ch key f r s' Hp Hu. apply (update_spec _ _ _ _ _ _ _ Hp) in Hu. cbv beta in Hu. destruct (f (bt_get key ch)). exact Hu.
  - intros R s p b ch f r s' Hp Hu. apply (update_spec _ _ _ _ _ _ _ Hp) in Hu. cbv beta in Hu. destruct (f ch). exact Hu.
Defined.

End Mem.

#[export] Existing Instances Mem.mem_store Mem.mem_store_laws.
