(* ===== verification/OverflowChain.v ===== *)
(** * Overflow chains ([storage/btree/overflow.rs])

    Values above the inline threshold live in a linked list of overflow pages;
    the leaf cell holds the first page and the length.  Reading, writing,
    freeing and collecting a chain, over any page store. *)

From S2P Require Import Prelude Effects Bytes BTreeMap Version Crc Page LeafNode PageSource PageStore.
From stdpp Require Import gmap.

#[local] Open Scope Z_scope.
#[local] Open Scope st_scope.

Definition MAX_OVERFLOW_CHAIN_PAGES : Z := u32_max / OVERFLOW_PAGE_DATA + 2.

(** The counter after one more page *)
Definition guard_chain_progress (visited : Z) : Result Z :=
  let visited := visited + 1 in
  reject_if (MAX_OVERFLOW_CHAIN_PAGES <? visited) (Internal "overflow chain exceeded MAX_OVERFLOW_CHAIN_PAGES pages");;
  Ok visited.

(** The guard stops a walk before this fuel does. *)
Definition walk_fuel : nat := Z.to_nat (MAX_OVERFLOW_CHAIN_PAGES + 1).

Section Store.
Context {S : Type} `{BTreePageStore S}.

(** ** Read *)

Fixpoint read_chain_loop (fuel : nat) (store : S) (cur visited : Z) : Result (list Z) :=
  if cur =? 0 then Ok []
  else
    match fuel with
    | O => Panic
    | Datatypes.S fuel' =>
        visited ← guard_chain_progress visited;
        leaf ← read_leaf store cur;
        let buf := fst leaf in
        hdr ← overflow_from_bytes buf;
        overflow_validate_type hdr;;
        let data_len := oh_data_length hdr in
        reject_if (PAGE_SIZE_LEAF <? OVERFLOW_HEADER_SIZE + data_len) (Internal "overflow page: data_length exceeds page size");;
        data ← slice buf OVERFLOW_HEADER_SIZE (OVERFLOW_HEADER_SIZE + data_len);
        rest ← read_chain_loop fuel' store (oh_next_overflow_page hdr) visited;
        Ok (data ++ rest)
    end.

Definition read_overflow_chain (store : S) (first_page total_length : Z) : Result (list Z) :=
  result ← read_chain_loop walk_fuel store first_page 0;
  Ok (take (Z.to_nat total_length) result).

(** ** Write *)

Fixpoint alloc_leaves (n : nat) : st S (list Z) :=
  match n with
  | O => st_ret []
  | Datatypes.S n' => page <~ alloc_leaf ;; rest <~ alloc_leaves n' ;; st_ret (page :: rest)
  end.

(** [data.chunks(OVERFLOW_PAGE_DATA)], [n] pieces *)
Fixpoint chunks (n : nat) (data : list Z) : list (list Z) :=
  match n with
  | O => []
  | Datatypes.S n' =>
      take (Z.to_nat OVERFLOW_PAGE_DATA) data :: chunks n' (drop (Z.to_nat OVERFLOW_PAGE_DATA) data)
  end.

(** Page, successor and piece of each position *)
Fixpoint chain_plan (pages : list Z) (pieces : list (list Z)) : list (Z * Z * list Z) :=
  match pages, pieces with
  | page :: pages', chunk :: pieces' => (page, default 0 (head pages'), chunk) :: chain_plan pages' pieces'
  | _, _ => []
  end.

Definition overflow_page `{Crc32c} (next : Z) (chunk : list Z) : Result (list Z) :=
  let hdr := mkOverflowPageHeader PAGE_TYPE_OVERFLOW 0 0 next (as_u 32 (len chunk)) in
  buf ← overflow_write_to hdr (zeros PAGE_SIZE_LEAF);
  buf ← write_at buf OVERFLOW_HEADER_SIZE chunk;
  write_at buf 8 (le_bytes 4 (overflow_page_checksum buf)).

Fixpoint write_pages_of_chain `{Crc32c} (plan : list (Z * Z * list Z)) : st S unit :=
  match plan with
  | [] => st_ret tt
  | (page, next, chunk) :: rest =>
      buf <~ st_lift (overflow_page next chunk) ;;
      _ <~ write_leaf_structural page buf ;;
      write_pages_of_chain rest
  end.

Definition write_overflow_chain `{Crc32c} (data : list Z) : st S Z :=
  if len data =? 0 then st_lift (Err (Internal "write_overflow_chain: empty data"))
  else
    let n := Z.to_nat ((len data - 1) / OVERFLOW_PAGE_DATA + 1) in
    pages <~ alloc_leaves n ;;
    _ <~ write_pages_of_chain (rev (chain_plan pages (chunks n data))) ;;
    st_lift (index pages 0).

(** ** Free and collect *)

Fixpoint free_chain_loop (fuel : nat) (cur visited : Z) : st S unit :=
  if cur =? 0 then st_ret tt
  else
    match fuel with
    | O => st_lift Panic
    | Datatypes.S fuel' =>
        visited <~ st_lift (guard_chain_progress visited) ;;
        leaf <~ st_read (fun s => read_leaf s cur) ;;
        hdr <~ st_lift (overflow_from_bytes (fst leaf)) ;;
        _ <~ st_lift (overflow_validate_type hdr) ;;
        let next := oh_next_overflow_page hdr in
        _ <~ with_all_chains_under_latch cur (fun _ => (tt, [])) ;;
        _ <~ free_leaf cur ;;
        free_chain_loop fuel' next visited
    end.

Definition free_overflow_chain (first_page : Z) : st S unit := free_chain_loop walk_fuel first_page 0.

Fixpoint collect_chain_loop (fuel : nat) (store : S) (cur visited : Z) : Result (list (Z * PageSize)) :=
  if cur =? 0 then Ok []
  else
    match fuel with
    | O => Panic
    | Datatypes.S fuel' =>
        visited ← guard_chain_progress visited;
        leaf ← read_leaf store cur;
        hdr ← overflow_from_bytes (fst leaf);
        overflow_validate_type hdr;;
        rest ← collect_chain_loop fuel' store (oh_next_overflow_page hdr) visited;
        Ok ((cur, Large32k) :: rest)
    end.

Definition collect_overflow_pages (store : S) (first_page : Z) : Result (list (Z * PageSize)) :=
  collect_chain_loop walk_fuel store first_page 0.

End Store.

(** ** Chains on the pages of a store *)

(** [p] is an overflow page with payload [d] and successor [next]. *)
Definition overflow_page_at (m : gmap Z PageImage) (p next : Z) (d : list Z) : Prop :=
  exists b ch hdr, m !! p = Some (LeafImage b ch) /\ overflow_from_bytes b = Ok hdr
    /\ oh_page_type hdr = PAGE_TYPE_OVERFLOW /\ oh_next_overflow_page hdr = next
    /\ OVERFLOW_HEADER_SIZE + oh_data_length hdr <= PAGE_SIZE_LEAF
    /\ slice b OVERFLOW_HEADER_SIZE (OVERFLOW_HEADER_SIZE + oh_data_length hdr) = Ok d.

Fixpoint chain_at (m : gmap Z PageImage) (pages : list Z) (cur : Z) (data : list Z) : Prop :=
  match pages with
  | [] => cur = 0 /\ data = []
  | p :: rest =>
      cur = p /\ p <> 0
      /\ exists next d tail, overflow_page_at m p next d /\ chain_at m rest next tail /\ data = d ++ tail
  end.

Lemma overflow_page_at_same m m' p next d : m' !! p = m !! p -> overflow_page_at m p next d -> overflow_page_at m' p next d.
Proof. unfold overflow_page_at. by intros ->. Qed.

Lemma chain_at_same m m' pages cur data :
  (forall p, p ∈ pages -> m' !! p = m !! p) -> chain_at m pages cur data -> chain_at m' pages cur data.
Proof.
  revert cur data. induction pages as [|p pages IH]; intros cur data Hs; [done|].
  intros (-> & Hp & next & d & tail & Hpg & Hc & ->). split_and!; [done..|]. exists next, d, tail. split_and!; [|apply IH; set_solver|done].
  eapply overflow_page_at_same; [|done]. apply Hs. set_solver.
Qed.

Lemma guard_chain_progress_Ok v : v < MAX_OVERFLOW_CHAIN_PAGES -> guard_chain_progress v = Ok (v + 1).
Proof. intros Hv. unfold guard_chain_progress. cbv zeta. by rewrite reject_if_ge by lia. Qed.

Section Chains.
Context {S : Type} `{BTreePageStoreLaws S}.

Lemma read_chain s pages : forall cur data fuel visited,
  chain_at (pages_of s) pages cur data -> (length pages <= fuel)%nat -> visited + len pages <= MAX_OVERFLOW_CHAIN_PAGES ->
  read_chain_loop fuel s cur visited = Ok data.
Proof.
  induction pages as [|p pages IH]; intros cur data fuel visited Hc Hf Hv; simpl in Hc.
  - destruct Hc as [-> ->]. by destruct fuel.
  - destruct Hc as (-> & Hp & next & d & tail & (b & ch & hdr & Hm & Hh & Ht & <- & Hl & Hs) & Hc & ->). rewrite len_cons in Hv.
    pose proof (len_nonneg pages). destruct fuel as [|fuel]; [simpl in Hf; lia|]. cbn [read_chain_loop].
    rewrite (proj2 (Z.eqb_neq p 0)), guard_chain_progress_Ok, bind_Ok by (done || lia).
    destruct (read_leaf_law _ _ _ _ Hm) as [snap ->]. rewrite bind_Ok. cbv zeta. cbn [fst]. rewrite Hh, bind_Ok.
    unfold overflow_validate_type. rewrite reject_if_eq, bind_Ok by done. rewrite reject_if_ge, bind_Ok by lia.
    rewrite Hs, bind_Ok. rewrite (IH _ tail); [done|done|simpl in Hf; lia|lia].
Qed.

Lemma read_overflow_chain_spec s pages cur data :
  chain_at (pages_of s) pages cur data -> len pages <= MAX_OVERFLOW_CHAIN_PAGES ->
  read_overflow_chain s cur (len data) = Ok data.
Proof.
  intros Hc Hl. unfold read_overflow_chain. rewrite (read_chain s pages cur data); [|done| |lia].
  - cbn. by rewrite to_nat_len, firstn_all.
  - unfold walk_fuel, len in *. lia.
Qed.

Lemma free_chain_loop_spec pages : forall s cur data fuel visited s',
  chain_at (pages_of s) pages cur data -> NoDup pages -> free_chain_loop fuel cur visited s = (Ok tt, s') ->
  forall q, pages_of s' !! q = if decide (q ∈ pages) then None else pages_of s !! q.
Proof.
  induction pages as [|p pages IH]; intros s cur data fuel visited s' Hc Hnd Hf q; simpl in Hc.
  - destruct Hc as [-> ->]. rewrite decide_False by set_solver. destruct fuel; cbn in Hf; by injection Hf as <-.
  - destruct Hc as (-> & Hp & next & d & tail & (b & ch & hdr & Hm & Hh & Ht & <- & Hl & Hs) & Hc & ->).
    apply NoDup_cons in Hnd as [Hni Hnd]. destruct fuel as [|fuel]; cbn [free_chain_loop] in Hf;
      rewrite (proj2 (Z.eqb_neq p 0)) in Hf by done; [done|]. st_inv Hf.
    apply st_lift_inv in Ha as [_ ->]. apply st_read_inv in Ha0 as [Hr ->]. destruct (read_leaf_law _ _ _ _ Hm) as [snap Hr'].
    rewrite Hr' in Hr. injection Hr as <-. apply st_lift_inv in Ha1 as [Ho ->]. cbn [fst] in Ho. rewrite Hh in Ho. injection Ho as <-.
    apply st_lift_inv in Ha2 as [_ ->]. apply (with_all_chains_law _ _ _ _ _ _ _ _ Hm) in Ha3 as [_ Hw].
    destruct a4. apply (free_leaf_law _ _ b []) in Ha4; [|rewrite Hw; by rewrite lookup_insert_eq].
    rewrite Hw in Ha4. rewrite delete_insert_eq in Ha4.
    assert (Hc' : chain_at (pages_of w4) pages (oh_next_overflow_page hdr) tail).
    { eapply chain_at_same; [|exact Hc]. intros p0 Hp0. rewrite Ha4, lookup_delete_ne; [done|]. by intros ->. }
    rewrite (IH _ _ _ _ _ _ Hc' Hnd Hf q), Ha4.
    destruct (decide (q ∈ pages)) as [Hq|Hq]; [by rewrite decide_True by set_solver|].
    destruct (decide (q = p)) as [->|Hne]; [rewrite lookup_delete_eq; by rewrite decide_True by set_solver|].
    rewrite lookup_delete_ne by done. by rewrite decide_False by set_solver.
Qed.

Lemma collect_chain s pages : forall cur data fuel visited,
  chain_at (pages_of s) pages cur data -> (length pages <= fuel)%nat -> visited + len pages <= MAX_OVERFLOW_CHAIN_PAGES ->
  collect_chain_loop fuel s cur visited = Ok (map (fun p => (p, Large32k)) pages).
Proof.
  induction pages as [|p pages IH]; intros cur data fuel visited Hc Hf Hv; simpl in Hc.
  - destruct Hc as [-> ->]. by destruct fuel.
  - destruct Hc as (-> & Hp & next & d & tail & (b & ch & hdr & Hm & Hh & Ht & <- & Hl & Hs) & Hc & ->). rewrite len_cons in Hv.
    pose proof (len_nonneg pages). destruct fuel as [|fuel]; [simpl in Hf; lia|]. cbn [collect_chain_loop].
    rewrite (proj2 (Z.eqb_neq p 0)), guard_chain_progress_Ok, bind_Ok by (done || lia).
    destruct (read_leaf_law _ _ _ _ Hm) as [snap ->]. rewrite bind_Ok. cbn [fst]. rewrite Hh, bind_Ok.
    unfold overflow_validate_type. rewrite reject_if_eq, bind_Ok by done. by rewrite (IH _ tail) by (done || simpl in Hf; lia).
Qed.
End Chains.

(** ** Writing a chain *)

Section Write.
Context {S : Type} `{BTreePageStoreLaws S} `{Crc32c}.

Lemma alloc_leaves_spec n : forall s pages s',
  alloc_leaves n s = (Ok pages, s') ->
  length pages = n /\ NoDup pages /\ Forall (fun p => 0 < p < 2 ^ 32 /\ pages_of s !! p = None) pages
  /\ (forall p, p ∈ pages -> exists b, pages_of s' !! p = Some (LeafImage b []))
  /\ (forall q, q ∉ pages -> pages_of s' !! q = pages_of s !! q).
Proof.
  induction n as [|n IH]; intros s pages s' Ha; cbn [alloc_leaves] in Ha; st_inv Ha.
  - split_and!; [done|constructor|constructor|set_solver|done].
  - apply alloc_leaf_law in Ha0 as (Hr & Hf & b & Hw). destruct (IH _ _ _ Ha1) as (Hl & Hnd & Hall & Hin & Hout).
    assert (Hni : a ∉ a0).
    { intros Hin'. rewrite Forall_forall in Hall. destruct (Hall _ Hin') as [_ Hn]. by rewrite Hw, lookup_insert_eq in Hn. }
    split_and!; [simpl; lia|by constructor| | |].
    + constructor; [done|]. eapply Forall_impl; [exact Hall|]. intros p [Hp Hn]. split; [done|]. rewrite Hw in Hn.
      by apply lookup_insert_None in Hn as [? _].
    + intros p [->|Hp]%elem_of_cons; [|by apply Hin]. exists b. by rewrite Hout, Hw, lookup_insert_eq.
    + intros q [Hqp Hq]%not_elem_of_cons. by rewrite Hout, Hw, lookup_insert_ne.
Qed.

(** The bytes of an overflow page *)
Lemma overflow_page_spec next chunk :
  is_u32 next -> len chunk <= OVERFLOW_PAGE_DATA ->
  exists buf hdr, overflow_page next chunk = Ok buf /\ len buf = PAGE_SIZE_LEAF /\ overflow_from_bytes buf = Ok hdr
    /\ oh_page_type hdr = PAGE_TYPE_OVERFLOW /\ oh_next_overflow_page hdr = next
    /\ OVERFLOW_HEADER_SIZE + oh_data_length hdr <= PAGE_SIZE_LEAF
    /\ slice buf OVERFLOW_HEADER_SIZE (OVERFLOW_HEADER_SIZE + oh_data_length hdr) = Ok chunk.
Proof.
  unfold OVERFLOW_PAGE_DATA, PAGE_SIZE_LEAF, OVERFLOW_HEADER_SIZE. intros Hn Hc. pose proof (len_nonneg chunk).
  unfold overflow_page, OVERFLOW_HEADER_SIZE, PAGE_SIZE_LEAF. cbv zeta. rewrite as_u_small by (unfold is_u; lia).
  set (h cs := mkOverflowPageHeader PAGE_TYPE_OVERFLOW 0 cs next (len chunk)). change (mkOverflowPageHeader _ _ _ _ _) with (h 0).
  rewrite overflow_write_to_eq, bind_Ok by (rewrite len_zeros; lia).
  assert (Hlh : forall cs, len (overflow_header_bytes (h cs)) = 20) by done.
  set (b0 := put (zeros 32768) 0 (overflow_header_bytes (h 0))).
  assert (Hl0 : len b0 = 32768) by (unfold b0; rewrite len_put; rewrite ?len_zeros, ?Hlh; lia).
  rewrite write_at_Ok, bind_Ok by lia. set (b1 := put b0 20 chunk). assert (Hl1 : len b1 = 32768) by (unfold b1; rewrite len_put; lia).
  set (cs := overflow_page_checksum b1). rewrite write_at_Ok by (rewrite ?len_le_bytes; lia).
  assert (Hcs : is_u32 cs) by (unfold cs, overflow_page_checksum; rewrite crc32c_append_app; apply crc32c_u32).
  assert (Hhold : holds (put b1 8 (le_bytes 4 cs)) 0 (overflow_header_bytes (h cs))).
  { assert (Hb1 : holds b1 0 (overflow_header_bytes (h 0)))
      by (apply holds_put_other; [apply holds_put; rewrite ?len_zeros, ?Hlh; lia|lia|lia|rewrite Hlh; lia]).
    replace (put b1 8 (le_bytes 4 cs)) with (put b1 0 (overflow_header_bytes (h cs))); [apply holds_put; rewrite ?Hlh; lia|].
    symmetry. transitivity (put (put b1 0 (overflow_header_bytes (h 0))) 8 (le_bytes 4 cs)).
    - destruct Hb1 as (_ & _ & Hg). rewrite <- Hg at 1. by rewrite put_get_id by (rewrite ?Hlh; lia).
    - apply (put_put_inner b1 0 ([PAGE_TYPE_OVERFLOW; 0; 0; 0] ++ le_bytes 4 0) (le_bytes 4 0) (le_bytes 4 next ++ le_bytes 4 (len chunk)) (le_bytes 4 cs) 8);
        [lia|by rewrite Hl1|done|done]. }
  exists (put b1 8 (le_bytes 4 cs)), (h cs). split_and!.
  - done.
  - rewrite len_put; rewrite ?len_le_bytes; lia.
  - apply overflow_from_bytes_holds; [|done]. unfold overflow_header_wf, h.
    cbn [oh_page_type oh_refcount oh_checksum oh_next_overflow_page oh_data_length].
    split_and!; [unfold is_u, PAGE_TYPE_OVERFLOW; lia|unfold is_u; lia|exact Hcs|exact Hn|unfold is_u; lia].
  - done.
  - done.
  - cbn. lia.
  - cbn [h oh_data_length]. apply slice_part; [|lia]. apply holds_put_other; [apply holds_put|..]; rewrite ?len_le_bytes; lia.
Qed.

Lemma write_pages_cons page next chunk rest s u s' :
  write_pages_of_chain ((page, next, chunk) :: rest) s = (Ok u, s') ->
  exists buf s1, overflow_page next chunk = Ok buf /\ write_leaf_structural page buf s = (Ok tt, s1)
    /\ write_pages_of_chain rest s1 = (Ok u, s').
Proof.
  cbn [write_pages_of_chain]. intros Hw. st_inv Hw. apply st_lift_inv in Ha as [Ho ->]. destruct a0. eauto.
Qed.

Lemma write_pages_spec plan : forall s s',
  write_pages_of_chain plan s = (Ok tt, s') -> NoDup (map (fun x => fst (fst x)) plan) ->
  Forall (fun x => is_u32 (snd (fst x)) /\ len (snd x) <= OVERFLOW_PAGE_DATA
    /\ exists b ch, pages_of s !! fst (fst x) = Some (LeafImage b ch)) plan ->
  Forall (fun x => overflow_page_at (pages_of s') (fst (fst x)) (snd (fst x)) (snd x)) plan
  /\ (forall q, q ∉ map (fun x => fst (fst x)) plan -> pages_of s' !! q = pages_of s !! q).
Proof.
  induction plan as [|[[p next] chunk] plan IH]; intros s s' Hw Hnd Hall.
  - injection Hw as <-. by split.
  - cbn [map fst snd] in *. apply NoDup_cons in Hnd as [Hni Hnd]. apply Forall_cons in Hall as [(Hn & Hc & b & ch & Hp) Hall].
    cbn [fst snd] in *. apply write_pages_cons in Hw as (a & w0 & Ho & Ha0 & Hw). destruct (overflow_page_spec next chunk Hn Hc) as (buf & hdr & Ho' & Hl & Hh).
    assert (a = buf) as -> by congruence. apply (write_leaf_law _ _ _ _ _ _ Hp Hl) in Ha0.
    destruct (IH w0 s' Hw Hnd) as [Hx1 Hx2].
    { rewrite Forall_forall in Hall |- *. intros x Hx. destruct (Hall x Hx) as (Hu & Hlx & b' & ch' & Hx'). split; [exact Hu|]. split; [exact Hlx|].
      exists b', ch'. rewrite Ha0, lookup_insert_ne; [done|]. intros ->. apply Hni, list_elem_of_fmap. eauto. }
    split.
    + constructor; [|done]. cbn [fst snd]. exists buf, ch, hdr. split; [|exact Hh]. by rewrite Hx2, Ha0, lookup_insert_eq.
    + intros q [Hqp Hq]%not_elem_of_cons. by rewrite Hx2, Ha0, lookup_insert_ne.
Qed.

Lemma chain_plan_at m pages : forall pieces,
  length pages = length pieces -> Forall (fun p => 0 < p) pages ->
  Forall (fun x => overflow_page_at m (fst (fst x)) (snd (fst x)) (snd x)) (chain_plan pages pieces) ->
  chain_at m pages (default 0 (head pages)) (concat pieces).
Proof.
  induction pages as [|p pages IH]; intros [|c pieces] Hl Hp Hall; try done.
  cbn [chain_plan] in Hall. apply Forall_cons in Hall as [Hc Hall]. apply Forall_cons in Hp as [Hp Hps]. cbn [fst snd] in Hc.
  split_and!; [done|lia|]. eexists _, _, _. split_and!; [exact Hc|apply IH; [by injection Hl|done..]|done].
Qed.

Lemma concat_chunks n : forall data, len data <= Z.of_nat n * OVERFLOW_PAGE_DATA -> concat (chunks n data) = data.
Proof.
  unfold OVERFLOW_PAGE_DATA, PAGE_SIZE_LEAF, OVERFLOW_HEADER_SIZE. induction n as [|n IH]; intros data Hl; cbn [chunks concat].
  - pose proof (len_nonneg data). symmetry. apply nil_length_inv. unfold len in *. lia.
  - rewrite IH; [apply take_drop|]. unfold OVERFLOW_PAGE_DATA, PAGE_SIZE_LEAF, OVERFLOW_HEADER_SIZE, len in *. rewrite length_drop. lia.
Qed.

Lemma chunks_plan n : forall data pages, length pages = n ->
  length (chunks n data) = n /\ map (fun x => fst (fst x)) (chain_plan pages (chunks n data)) = pages
  /\ (Forall is_u32 pages -> Forall (fun x => is_u32 (snd (fst x)) /\ len (snd x) <= OVERFLOW_PAGE_DATA) (chain_plan pages (chunks n data))).
Proof.
  induction n as [|n IH]; intros data [|p pages] Hl; try done.
  injection Hl as Hl. destruct (IH (drop (Z.to_nat OVERFLOW_PAGE_DATA) data) pages Hl) as (Hc1 & Hc2 & Hc3). cbn [chunks length chain_plan map fst].
  split_and!; [by f_equal|by f_equal|]. intros [Hp Hps]%Forall_cons. constructor; [|by apply Hc3]. cbn [fst snd]. split.
  - destruct pages as [|q pages]; simpl; [done|]. by apply Forall_cons in Hps as [? _].
  - unfold len. rewrite length_take. unfold OVERFLOW_PAGE_DATA, PAGE_SIZE_LEAF, OVERFLOW_HEADER_SIZE. lia.
Qed.

(** A chain that was written: its pages were not in use, and nothing else
    changed. *)
Lemma write_overflow_chain_spec data s first s' :
  write_overflow_chain data s = (Ok first, s') -> len data < 2 ^ 32 ->
  exists pages, chain_at (pages_of s') pages first data /\ NoDup pages /\ is_u32 first
    /\ len pages <= MAX_OVERFLOW_CHAIN_PAGES
    /\ Forall (fun p => 0 < p < 2 ^ 32 /\ pages_of s !! p = None) pages
    /\ (forall q, q ∉ pages -> pages_of s' !! q = pages_of s !! q).
Proof.
  unfold write_overflow_chain. intros Hw Hd. destruct (Z.eqb_spec (len data) 0) as [|Hne]; [done|]. cbv zeta in Hw. st_inv Hw.
  pose proof (len_nonneg data). set (k := (len data - 1) / OVERFLOW_PAGE_DATA + 1) in *.
  assert (Hk : 1 <= k /\ len data <= k * OVERFLOW_PAGE_DATA /\ k <= MAX_OVERFLOW_CHAIN_PAGES).
  { unfold k, MAX_OVERFLOW_CHAIN_PAGES, OVERFLOW_PAGE_DATA, PAGE_SIZE_LEAF, OVERFLOW_HEADER_SIZE, u32_max.
    change (32768 - 20) with 32748. change ((2 ^ 32 - 1) / 32748) with 131152.
    pose proof (Z.div_pos (len data - 1) 32748). pose proof (Z_div_mod_eq_full (len data - 1) 32748).
    pose proof (Z.mod_pos_bound (len data - 1) 32748). split_and!; [lia|lia|]. assert ((len data - 1) / 32748 < 131153); [|lia].
    apply Z.div_lt_upper_bound; lia. }
  apply alloc_leaves_spec in Ha as (Hl & Hnd & Hall & Hin & Hout). set (n := Z.to_nat k) in *.
  destruct (chunks_plan n data a Hl) as (Hlc & Hmap & Hplan).
  assert (Hu : Forall is_u32 a) by (eapply Forall_impl; [exact Hall|]; intros x [? _]; unfold is_u; lia).
  destruct a0. apply write_pages_spec in Ha0 as [Hat Hframe].
  2: { by rewrite map_rev, <- Permutation_rev, Hmap. }
  2: { rewrite <- Permutation_rev. specialize (Hplan Hu). rewrite Forall_forall in Hplan |- *. intros x Hx.
    destruct (Hplan x Hx) as [Hx1 Hx2]. split; [exact Hx1|]. split; [exact Hx2|]. destruct (Hin (fst (fst x))) as [b Hb]; [|eauto]. rewrite <- Hmap. apply list_elem_of_fmap. eauto. }
  rewrite <- Permutation_rev in Hat. rewrite map_rev in Hframe.
  apply st_lift_inv in Hw as [Hf ->]. destruct a as [|p0 a]; [simpl in Hl; lia|]. injection Hf as <-.
  exists (p0 :: a). split_and!.
  - assert (Hcc : concat (chunks n data) = data) by (apply concat_chunks; unfold n; rewrite Z2Nat.id by lia; apply Hk).
    rewrite <- Hcc at 1. apply (chain_plan_at _ (p0 :: a)); [by rewrite Hlc| |exact Hat].
    eapply Forall_impl; [exact Hall|]. intros x [? _]. lia.
  - done.
  - by apply Forall_cons in Hu as [? _].
  - unfold len. rewrite Hl. lia.
  - done.
  - intros q Hq. rewrite Hframe by (rewrite <- Permutation_rev, Hmap; done). by apply Hout.
Qed.
End Write.

Section Roundtrip.
Context {S : Type} `{BTreePageStoreLaws S} `{Crc32c}.

(** C39: a value written to an overflow chain reads back exactly, whatever its
    length below 4 GiB; its pages were not in use before and no other page
    changes; the collect walk returns exactly those pages, and the free walk
    gives exactly those pages back. *)
Theorem overflow_chain_roundtrip data s first s' :
  write_overflow_chain data s = (Ok first, s') -> len data < 2 ^ 32 ->
  read_overflow_chain s' first (len data) = Ok data
  /\ exists pages, NoDup pages /\ Forall (fun p => 0 < p < 2 ^ 32 /\ pages_of s !! p = None) pages
     /\ (forall q, q ∉ pages -> pages_of s' !! q = pages_of s !! q)
     /\ collect_overflow_pages s' first = Ok (map (fun p => (p, Large32k)) pages)
     /\ (forall s2, free_overflow_chain first s' = (Ok tt, s2) -> forall q, pages_of s2 !! q = pages_of s !! q).
Proof.
  intros Hw Hd. destruct (write_overflow_chain_spec _ _ _ _ Hw Hd) as (pages & Hc & Hnd & _ & Hl & Hf & Ho).
  split; [by eapply read_overflow_chain_spec|]. exists pages. split_and!; [done..| |].
  - eapply collect_chain; [done| |lia]. unfold walk_fuel, len in *. lia.
  - intros s2 Hs q. rewrite (free_chain_loop_spec _ _ _ _ _ _ _ Hc Hnd Hs q). case_decide as Hq; [|by apply Ho].
    rewrite Forall_forall in Hf. by destruct (Hf q Hq) as [_ ->].
Qed.
End Roundtrip.

(** *** Instance: 40,000 bytes on two pages of an empty store *)

Definition two_page_value : list Z := replicate (Z.to_nat 40000) 7.

Lemma overflow_chain_roundtrip_witness :
  match @write_overflow_chain _ _ Bitwise.crc32c_bitwise two_page_value (∅ : gmap Z PageImage) with
  | (Ok first, s') => first = 1 /\ read_overflow_chain s' first (len two_page_value) = Ok two_page_value
  | _ => False
  end.
Proof.
  destruct (@write_overflow_chain _ _ Bitwise.crc32c_bitwise two_page_value (∅ : gmap Z PageImage)) as [r s'] eqn:E.
  assert (Hr : r = Ok 1).
  { transitivity (fst (@write_overflow_chain _ _ Bitwise.crc32c_bitwise two_page_value (∅ : gmap Z PageImage))); [by rewrite E|].
    clear. by vm_compute. }
  rewrite Hr in E |- *. split; [reflexivity|].
  pose proof (@overflow_chain_roundtrip _ _ _ Bitwise.crc32c_bitwise two_page_value _ _ _ E) as Hx.
  apply Hx. by vm_compute.
Defined.
