(* ===== verification/BTree.v ===== *)
(** * The B+ tree ([storage/btree/])

    Search, insert with splits, delete with merges and redistribution, chain
    migration, range scan, and the walks over a whole tree, as the code of
    [mod.rs], [insert.rs], [delete.rs], [scan.rs], [chain.rs] and
    [chain_migration.rs] performs them on a page store. *)

From stdpp Require Import gmap.
From S2P Require Import Prelude Effects Bytes BTreeMap Version Crc Page LeafNode InternalNode.
From S2P Require Import OverflowRefs Chain HistoryCodec KeyTree HistoryStore Synth PageSource PageStore OverflowChain.

#[local] Open Scope Z_scope.
#[local] Open Scope st_scope.

(** ** Vectors *)

(** [binary_search_by] on cells in ascending key order *)
Inductive SearchResult : Set := Found (i : nat) | Missing (i : nat).

Fixpoint binary_search_from (cs : list LeafCell) (i : nat) (key : list Z) : SearchResult :=
  match cs with
  | [] => Missing i
  | c :: rest =>
      match lex_cmp (cell_key c) key with
      | Lt => binary_search_from rest (S i) key
      | Eq => Found i
      | Gt => Missing i
      end
  end.

Definition binary_search (n : LeafNode) (key : list Z) : SearchResult := binary_search_from (cells n) 0 key.

(** [partition_point] on a partitioned vector: the length of the prefix *)
Fixpoint partition_point {A} (test : A -> bool) (l : list A) : nat :=
  match l with
  | [] => O
  | x :: rest => if test x then S (partition_point test rest) else O
  end.

Definition insert_at {A} (i : nat) (x : A) (l : list A) : list A := take i l ++ x :: drop i l.

(** [Vec::remove] *)
Definition remove_at {A} (i : nat) (l : list A) : Result (A * list A) :=
  match l !! i with Some x => Ok (x, take i l ++ drop (S i) l) | None => Panic end.

(** [v[i]] *)
Definition nth_page (l : list Z) (i : nat) : Result Z := match l !! i with Some p => Ok p | None => Panic end.

Definition set_cells (cs : list LeafCell) (n : LeafNode) : LeafNode := mkLeafNode (flags n) (next_leaf_page n) (prev_leaf_page n) cs.
Definition set_next (p : Z) (n : LeafNode) : LeafNode := mkLeafNode (flags n) p (prev_leaf_page n) (cells n).
Definition set_prev (p : Z) (n : LeafNode) : LeafNode := mkLeafNode (flags n) (next_leaf_page n) p (cells n).
Definition set_entries (es : list (list Z * Z)) (n : InternalNode) : InternalNode := mkInternalNode (in_level n) es (in_rightmost_child n).
Definition set_rightmost (p : Z) (n : InternalNode) : InternalNode := mkInternalNode (in_level n) (in_entries n) p.

Record SplitResult : Set := mkSplit { promoted_key : list Z; right_page : Z }.

(** ** Split points *)

Fixpoint prefix_sums (acc : Z) (cs : list LeafCell) : list Z :=
  acc :: match cs with [] => [] | c :: rest => prefix_sums (acc + cell_encoded_size c) rest end.

Definition abs_diff (a b : Z) : Z := Z.abs (a - b).

(** [(usize, usize, usize)] with its derived order *)
Definition score_le (a b : Z * Z * Z) : bool :=
  let '(a1, a2, a3) := a in let '(b1, b2, b3) := b in
  (a1 <? b1) || ((a1 =? b1) && ((a2 <? b2) || ((a2 =? b2) && (a3 <=? b3)))).

Definition score_cut (n total_cell_bytes original_left_len : Z) (best : option ((Z * Z * Z) * nat)) (cut : nat * Z)
  : option ((Z * Z * Z) * nat) :=
  let '(split_at, left_cell_bytes) := cut in
  let left_used := LEAF_HEADER_SIZE + Z.of_nat split_at * 2 + left_cell_bytes in
  let right_used := LEAF_HEADER_SIZE + (n - Z.of_nat split_at) * 2 + (total_cell_bytes - left_cell_bytes) in
  if (PAGE_SIZE_LEAF <? left_used) || (PAGE_SIZE_LEAF <? right_used) then best
  else
    let deficit := saturating_sub MIN_LEAF_BYTES left_used + saturating_sub MIN_LEAF_BYTES right_used in
    let imbalance := abs_diff left_used right_used in
    let movement := abs_diff (Z.of_nat split_at) original_left_len in
    let score := (deficit, imbalance, movement) in
    match best with
    | Some (best_score, _) => if score_le best_score score then best else Some (score, split_at)
    | None => Some (score, split_at)
    end.

Definition choose_leaf_redistribution_split (cs : list LeafCell) (original_left_len : Z) : option nat :=
  let prefix := prefix_sums 0 cs in
  let total_cell_bytes := default 0 (prefix !! length cs) in
  let cuts := drop 1 (take (length cs) (imap (fun i b => (i, b)) prefix)) in
  snd <$> foldl (score_cut (len cs) total_cell_bytes original_left_len) None cuts.

(** The loop of [pack_cells_multiway] with its three accumulators *)
Fixpoint pack_loop (cs : list LeafCell) (groups : list (list LeafCell)) (current : list LeafCell) (current_used : Z)
  : Result (list (list LeafCell)) :=
  match cs with
  | [] => Ok (if bool_decide (current = []) then groups else groups ++ [current])
  | cell :: rest =>
      let footprint := cell_encoded_size cell + 2 in
      let flush := negb (bool_decide (current = [])) && (PAGE_SIZE_LEAF <? current_used + footprint) in
      let groups := if flush then groups ++ [current] else groups in
      let current_used := if flush then LEAF_HEADER_SIZE else current_used in
      let current := if flush then [] else current in
      if PAGE_SIZE_LEAF <? current_used + footprint
      then Err (Internal "leaf split: a single cell exceeds the leaf page size")
      else pack_loop rest groups (current ++ [cell]) (current_used + footprint)
  end.

Definition pack_cells_multiway (cs : list LeafCell) : Result (list (list LeafCell)) := pack_loop cs [] [] LEAF_HEADER_SIZE.

Definition split_groups (cs : list LeafCell) : Result (list (list LeafCell)) :=
  match choose_leaf_redistribution_split cs (len cs / 2) with
  | Some split_at => Ok [take split_at cs; drop split_at cs]
  | None => pack_cells_multiway cs
  end.

(** [g[0].key] of each group *)
Fixpoint first_keys (groups : list (list LeafCell)) : Result (list (list Z)) :=
  match groups with
  | [] => Ok []
  | (c :: _) :: rest => ks ← first_keys rest; Ok (cell_key c :: ks)
  | [] :: _ => Panic
  end.

Definition can_merge_leaves (left right : LeafNode) : bool :=
  used_bytes left + used_bytes right - LEAF_HEADER_SIZE <=? PAGE_SIZE_LEAF.

Section Tree.
Context {S : Type} `{BTreePageStore S} `{Crc32c}.

(** ** Nodes of the store *)

Definition read_leaf_node (s : S) (page : Z) : Result LeafNode := leaf ← read_leaf s page; parse (fst leaf).
Definition read_internal_node (s : S) (page : Z) : Result InternalNode := buf ← read_internal s page; internal_parse buf.

Definition write_leaf_node (page : Z) (n : LeafNode) : st S unit :=
  enc <~ st_lift (encode n) ;; write_leaf_structural page enc.
Definition write_internal_node (page : Z) (n : InternalNode) : st S unit :=
  enc <~ st_lift (internal_encode n) ;; write_internal page enc.

(** ** Chain migration ([chain_migration.rs]) *)

Definition drain_chains (page : Z) : st S (btmap chain) := with_all_chains_under_latch page (fun chains => (chains, [])).

Definition set_chain (page : Z) (key : list Z) (c : chain) : st S unit :=
  with_chain_under_latch page key (fun _ => (tt, Some c)).

(** [route] gives the page of a key *)
Fixpoint rehome (route : list Z -> Result Z) (chains : btmap chain) : st S unit :=
  match chains with
  | [] => st_ret tt
  | (key, c) :: rest => page <~ st_lift (route key) ;; _ <~ set_chain page key c ;; rehome route rest
  end.

Definition partition_chains_for_split (left_page : Z) (pages : list Z) (separators : list (list Z)) : st S unit :=
  all_chains <~ drain_chains left_page ;;
  rehome (fun key => nth_page pages (partition_point (fun sep => lex_leb sep key) separators)) all_chains.

Definition move_all_leaf_chains (from_page to_page : Z) : st S unit :=
  drained <~ drain_chains from_page ;; rehome (fun _ => Ok to_page) drained.

Definition redistribute_leaf_chains (left_page right_page : Z) (separator_key : list Z) : st S unit :=
  left <~ drain_chains left_page ;;
  right <~ drain_chains right_page ;;
  rehome (fun key => Ok (if lex_ltb key separator_key then left_page else right_page)) (left ++ right).

(** ** Insert ([insert.rs]) *)

(** The new right siblings, the sibling chain threaded through them *)
Fixpoint write_right_groups (groups : list (list LeafCell)) (prev : Z) (pages : list Z) (old_next : Z) : st S unit :=
  match groups, pages with
  | cs :: groups', page :: pages' =>
      _ <~ write_leaf_node page (mkLeafNode 0 (default old_next (head pages')) prev cs) ;;
      write_right_groups groups' page pages' old_next
  | _, _ => st_ret tt
  end.

Definition relink_prev (page last_page : Z) : st S unit :=
  if page =? 0 then st_ret tt
  else
    node <~ st_read (fun s => read_leaf_node s page) ;;
    write_leaf_node page (set_prev last_page node).

Definition split_leaf (left_page : Z) (left_node : LeafNode) (insert_pos : nat) (new_cell : LeafCell) : st S (list SplitResult) :=
  let cs := insert_at insert_pos new_cell (cells left_node) in
  groups <~ st_lift (split_groups cs) ;;
  match groups with
  | [] => st_lift Panic
  | group0 :: right_groups =>
      right_pages <~ alloc_leaves (length right_groups) ;;
      separators <~ st_lift (first_keys right_groups) ;;
      _ <~ partition_chains_for_split left_page (left_page :: right_pages) separators ;;
      let old_next := next_leaf_page left_node in
      _ <~ relink_prev old_next (default left_page (last right_pages)) ;;
      next <~ st_lift (nth_page right_pages 0) ;;
      _ <~ write_leaf_node left_page (set_next next (set_cells group0 left_node)) ;;
      _ <~ write_right_groups right_groups left_page right_pages old_next ;;
      st_ret (zip_with mkSplit separators right_pages)
  end.

Definition insert_leaf (page : Z) (key : list Z) (value : CellValue) : st S (list SplitResult) :=
  node <~ st_read (fun s => read_leaf_node s page) ;;
  let new_cell := mkLeafCell key value in
  match binary_search node key with
  | Found _ => st_lift (Err DuplicateKey)
  | Missing insert_pos =>
      if can_insert node (cell_encoded_size new_cell)
      then
        _ <~ write_leaf_node page (set_cells (insert_at insert_pos new_cell (cells node)) node) ;;
        st_ret []
      else split_leaf page node insert_pos new_cell
  end.

Definition split_internal (left_page : Z) (left_node : InternalNode) (new_key : list Z) (new_left_child : Z)
  : st S (option SplitResult) :=
  let pos := partition_point (fun e => lex_leb (fst e) new_key) (in_entries left_node) in
  let entries := insert_at pos (new_key, new_left_child) (in_entries left_node) in
  let m := (length entries / 2)%nat in
  removed <~ st_lift (remove_at m entries) ;;
  let '((promoted, promoted_left_child), entries) := removed in
  let right_entries := drop m entries in
  let old_rightmost := in_rightmost_child left_node in
  right_page <~ alloc_internal ;;
  left_enc <~ st_lift (internal_encode (mkInternalNode (in_level left_node) (take m entries) promoted_left_child)) ;;
  right_enc <~ st_lift (internal_encode (mkInternalNode (in_level left_node) right_entries old_rightmost)) ;;
  _ <~ write_internal left_page left_enc ;;
  _ <~ write_internal right_page right_enc ;;
  st_ret (Some (mkSplit promoted right_page)).

(** The child at [p] becomes [right_child]; returns the child it was. *)
Definition replace_child (p : nat) (right_child : Z) (node : InternalNode) : Z * InternalNode :=
  match in_entries node !! p with
  | Some (k, old) => (old, set_entries (<[p := (k, right_child)]> (in_entries node)) node)
  | None => (in_rightmost_child node, set_rightmost right_child node)
  end.

Definition insert_into_internal (page : Z) (promoted : list Z) (right_child : Z) : st S (option SplitResult) :=
  node <~ st_read (fun s => read_internal_node s page) ;;
  let p := partition_point (fun e => lex_leb (fst e) promoted) (in_entries node) in
  let (left_child, node) := replace_child p right_child node in
  if internal_can_insert node (len promoted)
  then
    _ <~ write_internal_node page (set_entries (insert_at p (promoted, left_child) (in_entries node)) node) ;;
    st_ret None
  else split_internal page node promoted left_child.

(** The loop of [insert_promotions_into_internal] with the splits so far *)
Fixpoint insert_promotions_loop (page : Z) (promotions out : list SplitResult) : st S (list SplitResult) :=
  match promotions with
  | [] => st_ret out
  | sr :: rest =>
      let idx := partition_point (fun s => lex_leb (promoted_key s) (promoted_key sr)) out in
      target <~ st_lift (match idx with
                         | O => Ok page
                         | Datatypes.S i => match out !! i with Some s => Ok (right_page s) | None => Panic end
                         end) ;;
      split <~ insert_into_internal target (promoted_key sr) (right_page sr) ;;
      insert_promotions_loop page rest (match split with Some s => insert_at idx s out | None => out end)
  end.

Definition insert_promotions_into_internal (page : Z) (promotions : list SplitResult) : st S (list SplitResult) :=
  insert_promotions_loop page promotions [].

Fixpoint insert_subtree (level : nat) (page : Z) (key : list Z) (value : CellValue) : st S (list SplitResult) :=
  match level with
  | O => insert_leaf page key value
  | Datatypes.S level' =>
      node <~ st_read (fun s => read_internal_node s page) ;;
      child_splits <~ insert_subtree level' (child_at node (find_child_idx node key)) key value ;;
      match child_splits with
      | [] => st_ret []
      | _ => insert_promotions_into_internal page child_splits
      end
  end.

Definition cell_value_for (value : list Z) : st S CellValue :=
  if OVERFLOW_THRESHOLD <? len value then
    first_page <~ write_overflow_chain value ;; st_ret (Overflow first_page (as_u 32 (len value)))
  else st_ret (Inline value).

End Tree.

(** ** The tree: its store and its root *)

Record BTree (S : Type) : Type := mkBTree { bt_store : S; root_page : Z; root_level : nat }.
Arguments mkBTree {S} _ _ _.
Arguments bt_store {S} _.
Arguments root_page {S} _.
Arguments root_level {S} _.

(** An action on [self.store] *)
Definition on_store {S A} (m : st S A) : st (BTree S) A := fun t =>
  let (r, s) := m (bt_store t) in (r, mkBTree s (root_page t) (root_level t)).

Definition set_root {S} (page : Z) (level : nat) : st (BTree S) unit := fun t => (Ok tt, mkBTree (bt_store t) page level).

(** One page on a root-to-leaf path *)
Record BTreePathStep : Set := mkStep { page_id : Z; parent_page : option Z; child_slot : option nat; step_level : nat }.

#[export] Instance BTreePathStep_eq_dec : EqDecision BTreePathStep.
Proof. solve_decision. Defined.

Section Operations.
Context {S : Type} `{BTreePageStore S} `{Crc32c}.

(** ** Construction ([mod.rs]) *)

Definition empty_leaf_page_bytes : Result (list Z) := encode (mkLeafNode 0 0 0 []).
Definition empty_internal_page_bytes : Result (list Z) := internal_encode (mkInternalNode 0 [] 0).

Definition create_at (root : Z) : st S (BTree S) := fun s =>
  match (buf <~ st_lift empty_leaf_page_bytes ;; write_leaf_structural root buf) s with
  | (Ok _, s') => (Ok (mkBTree s' root 0), s')
  | (Err e, s') => (Err e, s')
  | (Panic, s') => (Panic, s')
  end.

Definition create : st S (BTree S) := root <~ alloc_leaf ;; create_at root.

Definition open (s : S) (root : Z) (level : nat) : BTree S := mkBTree s root level.

(** ** Insert, at the root *)

(** [while !splits.is_empty()]: every turn consumes a promotion, so the number
    of promotions is enough fuel. *)
Fixpoint grow_root (fuel : nat) (splits : list SplitResult) : st (BTree S) unit :=
  match splits with
  | [] => st_ret tt
  | first :: rest =>
      match fuel with
      | O => st_lift Panic
      | Datatypes.S fuel' =>
          new_root <~ on_store alloc_internal ;;
          level <~ st_read (fun t => if Z.of_nat (root_level t) <? u8_max then Ok (root_level t) else Panic) ;;
          old_root <~ st_read (fun t => Ok (root_page t)) ;;
          let new_level := Datatypes.S level in
          let new_node := mkInternalNode (Z.of_nat new_level) [(promoted_key first, old_root)] (right_page first) in
          _ <~ on_store (write_internal_node new_root new_node) ;;
          _ <~ set_root new_root new_level ;;
          splits <~ on_store (insert_promotions_into_internal new_root rest) ;;
          grow_root fuel' splits
      end
  end.

Definition insert (key value : list Z) : st (BTree S) unit :=
  cell_value <~ on_store (cell_value_for value) ;;
  root <~ st_read (fun t => Ok (root_page t)) ;;
  level <~ st_read (fun t => Ok (root_level t)) ;;
  splits <~ on_store (insert_subtree level root key cell_value) ;;
  grow_root (length splits) splits.

(** ** Descent ([scan.rs]) *)

Fixpoint find_leaf_from (s : S) (level : nat) (page : Z) (key : list Z) : Result Z :=
  match level with
  | O => Ok page
  | Datatypes.S level' => node ← read_internal_node s page; find_leaf_from s level' (find_child node key) key
  end.

Definition find_leaf (t : BTree S) (key : list Z) : Result Z := find_leaf_from (bt_store t) (root_level t) (root_page t) key.

Definition leftmost_child (node : InternalNode) : Z :=
  match in_entries node with [] => in_rightmost_child node | (_, child) :: _ => child end.

Fixpoint leftmost_leaf_from (s : S) (level : nat) (page : Z) : Result Z :=
  match level with
  | O => Ok page
  | Datatypes.S level' => node ← read_internal_node s page; leftmost_leaf_from s level' (leftmost_child node)
  end.

Definition leftmost_leaf (t : BTree S) : Result Z := leftmost_leaf_from (bt_store t) (root_level t) (root_page t).

Fixpoint path_from (s : S) (level : nat) (page : Z) (key : list Z) (parent_page : option Z) (child_slot : option nat)
  : Result (list BTreePathStep) :=
  let step := mkStep page parent_page child_slot level in
  match level with
  | O => Ok [step]
  | Datatypes.S level' =>
      node ← read_internal_node s page;
      let idx := find_child_idx node key in
      rest ← path_from s level' (child_at node idx) key (Some page) (Some idx);
      Ok (step :: rest)
  end.

Definition path_to_leaf (t : BTree S) (key : list Z) : Result (list BTreePathStep) :=
  path_from (bt_store t) (root_level t) (root_page t) key None None.

Definition revalidate_path (t : BTree S) (key : list Z) (expected : list BTreePathStep) : Result bool :=
  path ← path_to_leaf t key; Ok (bool_decide (path = expected)).

(** ** Point reads *)

Definition search (t : BTree S) (key : list Z) : Result (option CellValue) :=
  page ← find_leaf t key;
  leaf ← read_leaf (bt_store t) page;
  cell_value (fst leaf) key.

Definition get_value (t : BTree S) (key : list Z) : Result (option (list Z)) :=
  found ← search t key;
  match found with
  | None => Ok None
  | Some value => v ← resolve_cell_value (read_overflow_chain (bt_store t)) value; Ok (Some v)
  end.

(** ** Replace ([insert.rs]) *)

Definition replace_existing (key value : list Z) : st (BTree S) bool :=
  leaf_page <~ st_read (fun t => find_leaf t key) ;;
  node <~ st_read (fun t => read_leaf_node (bt_store t) leaf_page) ;;
  match binary_search node key with
  | Missing _ => st_ret false
  | Found idx =>
      cell_value <~ on_store (cell_value_for value) ;;
      old <~ st_lift (match cells node !! idx with Some c => Ok c | None => Panic end) ;;
      _ <~ match cell_val old with
           | Overflow first_page _ => on_store (free_overflow_chain first_page)
           | Inline _ => st_ret tt
           end ;;
      _ <~ on_store (write_leaf_node leaf_page (set_cells (<[idx := mkLeafCell (cell_key old) cell_value]> (cells node)) node)) ;;
      st_ret true
  end.

(** ** Delete ([delete.rs]) *)

Definition redistribute_leaf_pair (left_page : Z) (left_node : LeafNode) (right_page : Z) (right_node : LeafNode)
  (parent_page : Z) (separator_idx : nat) : st S unit :=
  let combined := cells left_node ++ cells right_node in
  split_at <~ st_lift (ok_or (choose_leaf_redistribution_split combined (len (cells left_node)))
                         (Internal "leaf redistribution could not find a valid split")) ;;
  let right_cells := drop split_at combined in
  separator_key <~ st_lift (match right_cells with c :: _ => Ok (cell_key c) | [] => Panic end) ;;
  let left_node := set_next right_page (set_cells (take split_at combined) left_node) in
  let right_node := set_prev left_page (set_cells right_cells right_node) in
  _ <~ redistribute_leaf_chains left_page right_page separator_key ;;
  left_enc <~ st_lift (encode left_node) ;;
  right_enc <~ st_lift (encode right_node) ;;
  parent <~ st_read (fun s => read_internal_node s parent_page) ;;
  old <~ st_lift (match in_entries parent !! separator_idx with Some e => Ok e | None => Panic end) ;;
  parent_enc <~ st_lift (internal_encode (set_entries (<[separator_idx := (separator_key, snd old)]> (in_entries parent)) parent)) ;;
  _ <~ write_leaf_structural left_page left_enc ;;
  _ <~ write_leaf_structural right_page right_enc ;;
  write_internal parent_page parent_enc.

Definition redirect_parent_child_pointer (parent_page : Z) (child_idx : nat) (new_child : Z) : st S unit :=
  parent <~ st_read (fun s => read_internal_node s parent_page) ;;
  write_internal_node parent_page (snd (replace_child child_idx new_child parent)).

Definition remove_from_parent (parent_page : Z) (separator_idx : nat) : st (BTree S) unit :=
  parent <~ st_read (fun t => read_internal_node (bt_store t) parent_page) ;;
  removed <~ st_lift (remove_at separator_idx (in_entries parent)) ;;
  let parent := set_entries (snd removed) parent in
  root <~ st_read (fun t => Ok (root_page t)) ;;
  if bool_decide (in_entries parent = []) && (parent_page =? root)
  then
    level <~ st_read (fun t => Ok (root_level t)) ;;
    _ <~ set_root (in_rightmost_child parent) (level - 1) ;;
    on_store (free_internal parent_page)
  else on_store (write_internal_node parent_page parent).

Definition free_drained_leaf (page : Z) : st S unit :=
  empty <~ st_read (fun s => chains_empty s page) ;;
  _ <~ st_lift (reject_if (negb empty) (Internal "free_leaf called with non-empty version chain")) ;;
  free_leaf page.

Definition relink_next (page next : Z) : st S unit :=
  if page =? 0 then st_ret tt
  else
    node <~ st_read (fun s => read_leaf_node s page) ;;
    write_leaf_node page (set_next next node).

Definition merge_leaf_into_left (parent_page : Z) (child_idx : nat) (left_page : Z) (left_node : LeafNode) (page : Z) (node : LeafNode)
  : st (BTree S) unit :=
  _ <~ on_store (move_all_leaf_chains page left_page) ;;
  let left_node := set_next (next_leaf_page node) (set_cells (cells left_node ++ cells node) left_node) in
  _ <~ on_store (relink_prev (next_leaf_page node) left_page) ;;
  _ <~ on_store (write_leaf_node left_page left_node) ;;
  _ <~ on_store (free_drained_leaf page) ;;
  _ <~ on_store (redirect_parent_child_pointer parent_page child_idx left_page) ;;
  remove_from_parent parent_page (child_idx - 1).

Definition merge_leaf_into_right (parent_page page : Z) (node : LeafNode) (right_page : Z) (right_node : LeafNode) : st (BTree S) unit :=
  _ <~ on_store (move_all_leaf_chains page right_page) ;;
  let right_node := set_prev (prev_leaf_page node) (set_cells (cells node ++ cells right_node) right_node) in
  _ <~ on_store (relink_next (prev_leaf_page node) right_page) ;;
  _ <~ on_store (write_leaf_node right_page right_node) ;;
  _ <~ on_store (free_drained_leaf page) ;;
  remove_from_parent parent_page 0.

Definition handle_leaf_underflow (page : Z) (node : LeafNode) (path : list (Z * nat)) : st (BTree S) unit :=
  match last path with
  | None => st_lift (Err (Internal "btree delete: empty path in rebalance"))
  | Some (parent_page, child_idx) =>
      parent <~ st_read (fun t => read_internal_node (bt_store t) parent_page) ;;
      if (0 <? child_idx)%nat then
        let left_sibling_idx := (child_idx - 1)%nat in
        let left_page := child_at parent left_sibling_idx in
        left_node <~ st_read (fun t => read_leaf_node (bt_store t) left_page) ;;
        if can_merge_leaves left_node node
        then merge_leaf_into_left parent_page child_idx left_page left_node page node
        else on_store (redistribute_leaf_pair left_page left_node page node parent_page left_sibling_idx)
      else if (child_idx <? length (in_entries parent))%nat then
        let right_page := child_at parent (child_idx + 1) in
        right_node <~ st_read (fun t => read_leaf_node (bt_store t) right_page) ;;
        if can_merge_leaves node right_node
        then merge_leaf_into_right parent_page page node right_page right_node
        else on_store (redistribute_leaf_pair page node right_page right_node parent_page child_idx)
      else st_lift (Err (Internal "leaf underflow reached a parent with no siblings"))
  end.

Definition delete_from_leaf (page : Z) (key : list Z) (path : list (Z * nat)) : st (BTree S) bool :=
  node <~ st_read (fun t => read_leaf_node (bt_store t) page) ;;
  match binary_search node key with
  | Missing _ => st_ret false
  | Found idx =>
      removed <~ st_lift (remove_at idx (cells node)) ;;
      _ <~ match cell_val (fst removed) with
           | Overflow first_page _ => on_store (free_overflow_chain first_page)
           | Inline _ => st_ret tt
           end ;;
      let node := set_cells (snd removed) node in
      _ <~ on_store (write_leaf_node page node) ;;
      _ <~ (if needs_rebalance node && negb (bool_decide (path = [])) then handle_leaf_underflow page node path else st_ret tt) ;;
      st_ret true
  end.

Fixpoint delete_subtree (level : nat) (page : Z) (key : list Z) (path : list (Z * nat)) : st (BTree S) bool :=
  match level with
  | O => delete_from_leaf page key path
  | Datatypes.S level' =>
      node <~ st_read (fun t => read_internal_node (bt_store t) page) ;;
      let child_idx := find_child_idx node key in
      delete_subtree level' (child_at node child_idx) key (path ++ [(page, child_idx)])
  end.

Definition delete_key (key : list Z) : st (BTree S) bool :=
  root <~ st_read (fun t => Ok (root_page t)) ;;
  level <~ st_read (fun t => Ok (root_level t)) ;;
  delete_subtree level root key [].

(** ** Range scan ([scan.rs]) *)

(** The cells of a leaf up to the end bound; [true]: a cell was above it *)
Fixpoint scan_cells (end_key : option (list Z)) (cs : list LeafCell) : list (list Z * CellValue) * bool :=
  match cs with
  | [] => ([], false)
  | cell :: rest =>
      if match end_key with Some ek => lex_ltb ek (cell_key cell) | None => false end then ([], true)
      else let (out, stop) := scan_cells end_key rest in ((cell_key cell, cell_val cell) :: out, stop)
  end.

Definition search_index (r : SearchResult) : nat := match r with Found i | Missing i => i end.

(** One turn of the loop: the image of the leaf, and the results so far *)
Definition range_scan_body (s : S) (start_key end_key : option (list Z)) (x : list Z * list (list Z * CellValue))
  : step (list Z * list (list Z * CellValue)) (Result (list (list Z * CellValue))) :=
  let (buf, results) := x in
  match parse buf with
  | Ok node =>
      let start_idx := match start_key with Some k => search_index (binary_search node k) | None => O end in
      let (out, stop) := scan_cells end_key (drop start_idx (cells node)) in
      let results := results ++ out in
      if stop then Done (Ok results)
      else if next_leaf_page node =? 0 then Done (Ok results)
      else
        match read_leaf s (next_leaf_page node) with
        | Ok leaf => Continue (fst leaf, results)
        | Err e => Done (Err e)
        | Panic => Done Panic
        end
  | Err e => Done (Err e)
  | Panic => Done Panic
  end.

(** Page numbers are 32 bits wide: a sibling list that ends has fewer than
    [2 ^ 32] leaves. *)
Definition range_scan (t : BTree S) (start_key end_key : option (list Z)) : Result (list (list Z * CellValue)) :=
  page ← match start_key with Some k => find_leaf t k | None => leftmost_leaf t end;
  leaf ← read_leaf (bt_store t) page;
  match iterate 32 (range_scan_body (bt_store t) start_key end_key) (fst leaf, []) with
  | Done r => r
  | Continue _ => Panic
  end.

(** ** Walks over a whole tree ([chain.rs]) *)

Fixpoint collect_overflows (s : S) (cs : list LeafCell) : Result (list (Z * PageSize)) :=
  match cs with
  | [] => Ok []
  | c :: rest =>
      ps ← match cell_val c with Overflow first_page _ => collect_overflow_pages s first_page | Inline _ => Ok [] end;
      more ← collect_overflows s rest;
      Ok (ps ++ more)
  end.

Definition collect_each (collect : Z -> Result (list (Z * PageSize))) : list Z -> Result (list (Z * PageSize)) :=
  fix go children :=
    match children with
    | [] => Ok []
    | c :: rest => ps ← collect c; more ← go rest; Ok (ps ++ more)
    end.

Fixpoint collect_subtree_pages (s : S) (level : nat) (page : Z) : Result (list (Z * PageSize)) :=
  match level with
  | O =>
      node ← read_leaf_node s page;
      pages ← collect_overflows s (cells node);
      Ok (pages ++ [(page, Large32k)])
  | Datatypes.S level' =>
      node ← read_internal_node s page;
      pages ← collect_each (collect_subtree_pages s level') (map snd (in_entries node));
      last ← collect_subtree_pages s level' (in_rightmost_child node);
      Ok (pages ++ last ++ [(page, Small4k)])
  end.

Definition collect_pages_by_size (t : BTree S) : Result (list (Z * PageSize)) :=
  collect_subtree_pages (bt_store t) (root_level t) (root_page t).

Fixpoint free_overflows (cs : list LeafCell) : st S unit :=
  match cs with
  | [] => st_ret tt
  | c :: rest =>
      _ <~ match cell_val c with Overflow first_page _ => free_overflow_chain first_page | Inline _ => st_ret tt end ;;
      free_overflows rest
  end.

Definition free_each (free : Z -> st S unit) : list Z -> st S unit :=
  fix go children :=
    match children with
    | [] => st_ret tt
    | c :: rest => _ <~ free c ;; go rest
    end.

Fixpoint free_subtree (level : nat) (page : Z) : st S unit :=
  match level with
  | O =>
      node <~ st_read (fun s => read_leaf_node s page) ;;
      _ <~ free_overflows (cells node) ;;
      free_leaf page
  | Datatypes.S level' =>
      node <~ st_read (fun s => read_internal_node s page) ;;
      _ <~ free_each (free_subtree level') (map snd (in_entries node)) ;;
      _ <~ free_subtree level' (in_rightmost_child node) ;;
      free_internal page
  end.

Definition free_all_pages (t : BTree S) : Result unit * S := free_subtree (root_level t) (root_page t) (bt_store t).

End Operations.

(** ** Leaf-range inspectors ([mod.rs]) *)

Fixpoint any_other_below (end_key exclude_key : list Z) (cs : list LeafCell) : bool :=
  match cs with
  | [] => false
  | c :: rest =>
      if lex_leb end_key (cell_key c) then false
      else if bool_decide (cell_key c <> exclude_key) then true
      else any_other_below end_key exclude_key rest
  end.

Definition leaf_contains_key_in_range (data start_key end_key exclude_key : list Z) : Result bool :=
  node ← parse data;
  Ok (any_other_below end_key exclude_key (drop (search_index (binary_search node start_key)) (cells node))).

Definition leaf_unique_prefix_sibling_pages (data start_key end_key : list Z) : Result (list Z) :=
  node ← parse data;
  let before := match head (cells node) with
                | Some first => negb (prev_leaf_page node =? 0) && lex_leb start_key (cell_key first)
                | None => negb (prev_leaf_page node =? 0)
                end in
  let after := match last (cells node) with
               | Some last => negb (next_leaf_page node =? 0) && lex_ltb (cell_key last) end_key
               | None => negb (next_leaf_page node =? 0)
               end in
  Ok ((if before then [prev_leaf_page node] else []) ++ (if after then [next_leaf_page node] else [])).
