(* ===== verification/BTreeLists.v ===== *)
(** * Lists in key order

    The order of keys as a proposition with its automation; lists sorted by a
    key; what [partition_point], [binary_search], insertion at an index and the
    cut of a vector do on them. *)

From stdpp Require Import gmap.
From S2P Require Import Prelude Effects Bytes BTreeMap Version Crc Page LeafNode InternalNode.
From S2P Require Import OverflowRefs Chain HistoryCodec KeyTree HistoryStore Synth PageSource PageStore OverflowChain BTree.
From Stdlib Require Import Sorted.

#[local] Open Scope Z_scope.

(** ** The order of keys *)

Definition lex_le (a b : list Z) : Prop := ~ lex_lt b a.

Lemma lex_leb_le a b : lex_leb a b = true <-> lex_le a b.
Proof.
  unfold lex_leb, lex_le, lex_lt. rewrite (lex_cmp_antisym a b). by destruct (lex_cmp a b).
Qed.

Lemma lex_ltb_lt a b : lex_ltb a b = true <-> lex_lt a b.
Proof. unfold lex_ltb, lex_lt. by destruct (lex_cmp a b). Qed.

Lemma lex_leb_nle a b : lex_leb a b = false <-> lex_lt b a.
Proof. unfold lex_leb, lex_lt. rewrite (lex_cmp_antisym a b). by destruct (lex_cmp a b). Qed.

Lemma lex_ltb_nlt a b : lex_ltb a b = false <-> lex_le b a.
Proof. unfold lex_ltb, lex_le, lex_lt. by destruct (lex_cmp a b). Qed.

Lemma lex_cmp_gt a b : lex_cmp a b = Gt <-> lex_lt b a.
Proof. unfold lex_lt. rewrite (lex_cmp_antisym a b). by destruct (lex_cmp a b). Qed.

Lemma lex_lt_le a b : lex_lt a b -> lex_le a b.
Proof. intros Hab Hba. apply (lex_lt_irrefl a). by transitivity b. Qed.

Lemma lex_le_refl a : lex_le a a.
Proof. apply lex_lt_irrefl. Qed.

Lemma lex_le_cases a b : lex_le a b -> a = b \/ lex_lt a b.
Proof.
  unfold lex_le, lex_lt. rewrite (lex_cmp_antisym a b). destruct (lex_cmp a b) eqn:E; [left; by apply lex_cmp_eq|by right|done].
Qed.

Lemma lex_le_lt_trans a b c : lex_le a b -> lex_lt b c -> lex_lt a c.
Proof. intros [->|Hab]%lex_le_cases Hbc; [done|by transitivity b]. Qed.

Lemma lex_lt_le_trans a b c : lex_lt a b -> lex_le b c -> lex_lt a c.
Proof. intros Hab [->|Hbc]%lex_le_cases; [done|by transitivity b]. Qed.

Lemma lex_le_trans a b c : lex_le a b -> lex_le b c -> lex_le a c.
Proof. intros [->|Hab]%lex_le_cases [->|Hbc]%lex_le_cases; [by apply lex_le_refl|by apply lex_lt_le..|]. apply lex_lt_le. by transitivity b. Qed.

Lemma lex_lt_trans a b c : lex_lt a b -> lex_lt b c -> lex_lt a c.
Proof. by transitivity b. Qed.

Lemma lex_lt_ne a b : lex_lt a b -> a <> b.
Proof. intros Hab ->. by apply lex_lt_irrefl in Hab. Qed.

Lemma lex_total a b : lex_lt a b \/ a = b \/ lex_lt b a.
Proof. destruct (lex_leb a b) eqn:E; [apply lex_leb_le, lex_le_cases in E; tauto|apply lex_leb_nle in E; tauto]. Qed.

Create HintDb lex.
#[export] Hint Resolve lex_lt_le lex_le_refl lex_lt_trans lex_le_lt_trans lex_lt_le_trans lex_le_trans : lex.

(** ** Bounds *)

(** [lo] included, [hi] excluded, open where there is none *)
Definition above (lo : option (list Z)) (k : list Z) : Prop := match lo with Some l => lex_le l k | None => True end.
Definition strictly_above (lo : option (list Z)) (k : list Z) : Prop := match lo with Some l => lex_lt l k | None => True end.
Definition below (hi : option (list Z)) (k : list Z) : Prop := match hi with Some h => lex_lt k h | None => True end.
Definition within (lo hi : option (list Z)) (k : list Z) : Prop := above lo k /\ below hi k.

Lemma above_lt lo k k' : above lo k -> lex_lt k k' -> strictly_above lo k'.
Proof. destruct lo; simpl; [|done]. eauto with lex. Qed.

Lemma above_le lo k k' : above lo k -> lex_le k k' -> above lo k'.
Proof. destruct lo; simpl; [|done]. eauto with lex. Qed.

Lemma strictly_above_above lo k : strictly_above lo k -> above lo k.
Proof. destruct lo; simpl; [|done]. eauto with lex. Qed.

Lemma strictly_above_lt lo k k' : strictly_above lo k -> lex_le k k' -> strictly_above lo k'.
Proof. destruct lo; simpl; [|done]. eauto with lex. Qed.

Lemma below_le hi k k' : below hi k' -> lex_le k k' -> below hi k.
Proof. destruct hi; simpl; [|done]. eauto with lex. Qed.

#[export] Hint Resolve above_lt above_le strictly_above_above strictly_above_lt below_le : lex.

(** ** Lists sorted by a key *)

Section Keyed.
Context {A : Type} (f : A -> list Z).

Definition ksorted (l : list A) : Prop := StronglySorted (fun a b => lex_lt (f a) (f b)) l.

Definition all_below (k : list Z) (l : list A) : Prop := Forall (fun x => lex_lt (f x) k) l.
Definition all_above (k : list Z) (l : list A) : Prop := Forall (fun x => lex_lt k (f x)) l.

Lemma ksorted_app a b : ksorted (a ++ b) <-> ksorted a /\ ksorted b /\ Forall (fun x => all_above (f x) b) a.
Proof.
  unfold ksorted. induction a as [|x a IH]; simpl.
  - split; [intros Hb; split_and!; [constructor|done|constructor]|tauto].
  - split.
    + intros Hs. inv Hs. apply IH in H1 as (Ha & Hb & Hab). apply Forall_app in H2 as [Hx1 Hx2].
      split_and!; [by constructor|done|by constructor].
    + intros (Ha & Hb & Hab). inv Ha. apply Forall_cons in Hab as [Hx Hab]. constructor; [by apply IH|by apply Forall_app].
Qed.

Lemma ksorted_cons x l : ksorted (x :: l) <-> ksorted l /\ all_above (f x) l.
Proof. split; [intros Hs; by inv Hs|intros [Hs Hf]; by constructor]. Qed.

Lemma ksorted_nil : ksorted [].
Proof. constructor. Qed.

Lemma ksorted_mid a x b : ksorted (a ++ x :: b) <-> ksorted (a ++ b) /\ all_below (f x) a /\ all_above (f x) b.
Proof.
  rewrite !ksorted_app, ksorted_cons. unfold all_below, all_above. split.
  - intros (Ha & (Hb & Hx) & Hab). split_and!; [done|done| | |done].
    + eapply Forall_impl; [exact Hab|]. by intros y [_ ?]%Forall_cons.
    + eapply Forall_impl; [exact Hab|]. by intros y [? _]%Forall_cons.
  - intros ((Ha & Hb & Hab) & Hax & Hxb). split_and!; [done..|]. rewrite Forall_forall in *. intros y Hy. apply Forall_cons. split; [by apply Hax|by apply Hab].
Qed.

Lemma all_below_le k k' l : all_below k l -> lex_le k k' -> all_below k' l.
Proof. intros Hl Hk. eapply Forall_impl; [exact Hl|]. simpl. eauto with lex. Qed.

Lemma all_above_le k k' l : all_above k' l -> lex_le k k' -> all_above k l.
Proof. intros Hl Hk. eapply Forall_impl; [exact Hl|]. simpl. eauto with lex. Qed.

(** *** Insertion *)

Definition kins (x : A) (l : list A) : list A := insert_at (partition_point (fun y => lex_leb (f y) (f x)) l) x l.

Lemma partition_point_mid test (a b : list A) :
  Forall (fun x => test x = true) a -> Forall (fun x => test x = false) b -> partition_point test (a ++ b) = length a.
Proof.
  intros Ha Hb. induction Ha as [|x a Hx Ha IH]; simpl; [|by rewrite Hx, IH]. destruct Hb as [|x b Hx _]; simpl; [done|by rewrite Hx].
Qed.

Lemma insert_at_length (a b : list A) x : insert_at (length a) x (a ++ b) = a ++ x :: b.
Proof. unfold insert_at. by rewrite take_app_length, drop_app_length. Qed.

Lemma kins_mid x a b : Forall (fun y => lex_le (f y) (f x)) a -> all_above (f x) b -> kins x (a ++ b) = a ++ x :: b.
Proof.
  intros Ha Hb. unfold kins. rewrite (partition_point_mid _ a b); [apply insert_at_length| |].
  - eapply Forall_impl; [exact Ha|]. intros y. apply lex_leb_le.
  - eapply Forall_impl; [exact Hb|]. intros y. apply lex_leb_nle.
Qed.

Lemma kins_below x a b : all_below (f x) a -> all_above (f x) b -> kins x (a ++ b) = a ++ x :: b.
Proof. intros Ha. apply kins_mid. eapply Forall_impl; [exact Ha|]. simpl. eauto with lex. Qed.

Lemma kins_app x a m b :
  Forall (fun y => lex_le (f y) (f x)) a -> all_above (f x) b -> kins x (a ++ m ++ b) = a ++ kins x m ++ b.
Proof.
  intros Ha Hb. unfold kins. set (t := fun y => lex_leb (f y) (f x)).
  assert (Hm : partition_point t (m ++ b) = partition_point t m /\ (partition_point t m <= length m)%nat).
  { induction m as [|y m IH]; simpl; [destruct Hb as [|y b Hy _]; simpl; [done|]; unfold t; by rewrite (proj2 (lex_leb_nle _ _) Hy)|].
    destruct (t y); [|split; [done|lia]]. split; [f_equal; apply IH|]. destruct IH. lia. }
  destruct Hm as [Hm Hle]. assert (Hp : partition_point t (a ++ m ++ b) = (length a + partition_point t m)%nat).
  { induction Ha as [|y a Hy Ha IH]; simpl; [done|]. unfold t at 1. rewrite (proj2 (lex_leb_le _ _) Hy). by rewrite IH. }
  rewrite Hp. unfold insert_at. rewrite take_app_add, drop_app_add, take_app_le, drop_app_le by done. by rewrite <- !app_assoc.
Qed.

(** Where a key that is not there would go *)
Lemma ksorted_cut k l : ksorted l -> Forall (fun x => f x <> k) l -> exists a b, l = a ++ b /\ all_below k a /\ all_above k b.
Proof.
  induction l as [|x l IH]; intros Hs Hk; [exists [], []; split_and!; [done|constructor|constructor]|]. apply ksorted_cons in Hs as [Hs Hx]. apply Forall_cons in Hk as [Hxk Hk].
  destruct (lex_total (f x) k) as [Hlt|[?|Hgt]]; [|done|].
  - destruct (IH Hs Hk) as (a & b & -> & Ha & Hb). exists (x :: a), b. split_and!; [done|by constructor|done].
  - exists [], (x :: l). split_and!; [done|constructor|]. constructor; [done|]. eapply all_above_le; [exact Hx|eauto with lex].
Qed.

(** *** Removal *)

Definition krem (k : list Z) (l : list A) : list A := filter (fun x => f x <> k) l.

Lemma krem_none k l : Forall (fun x => f x <> k) l -> krem k l = l.
Proof. unfold krem. intros Hl. induction Hl as [|x l Hx Hl IH]; [done|]. rewrite filter_cons, IH. by rewrite decide_True. Qed.

Lemma krem_app k a b : krem k (a ++ b) = krem k a ++ krem k b.
Proof. apply filter_app. Qed.

Lemma all_below_ne k l : all_below k l -> Forall (fun x => f x <> k) l.
Proof. intros Hl. eapply Forall_impl; [exact Hl|]. simpl. intros x. apply lex_lt_ne. Qed.

Lemma all_above_ne k l : all_above k l -> Forall (fun x => f x <> k) l.
Proof. intros Hl. eapply Forall_impl; [exact Hl|]. simpl. intros x Hx E. rewrite E in Hx. by apply lex_lt_irrefl in Hx. Qed.

Lemma krem_mid x a b : ksorted (a ++ x :: b) -> krem (f x) (a ++ x :: b) = a ++ b.
Proof.
  intros (_ & Ha & Hb)%ksorted_mid. rewrite krem_app. unfold krem at 2. rewrite filter_cons, decide_False by (intros ?; done).
  fold (krem (f x) b). rewrite !krem_none; [done|by apply all_above_ne|by apply all_below_ne].
Qed.
End Keyed.


(** ** Cells of a leaf *)

Lemma binary_search_cases cs key : ksorted cell_key cs -> forall i,
  match binary_search_from cs i key with
  | Found j => exists a c b, cs = a ++ c :: b /\ j = (i + length a)%nat /\ cell_key c = key
  | Missing j => exists a b, cs = a ++ b /\ j = (i + length a)%nat /\ all_below cell_key key a /\ all_above cell_key key b
  end.
Proof.
  induction cs as [|c cs IH]; intros Hs i; simpl.
  - exists [], []. split_and!; [done|simpl; lia|constructor|constructor].
  - apply ksorted_cons in Hs as [Hs Hc]. destruct (lex_cmp (cell_key c) key) eqn:E.
    + exists [], c, cs. apply lex_cmp_eq in E. split_and!; [done|simpl; lia|done].
    + specialize (IH Hs (S i)). destruct (binary_search_from cs (S i) key).
      * destruct IH as (a & d & b & -> & -> & Hd). exists (c :: a), d, b. split_and!; [done|simpl; lia|done].
      * destruct IH as (a & b & -> & -> & Ha & Hb). exists (c :: a), b. split_and!; [done|simpl; lia|by constructor|done].
    + apply lex_cmp_gt in E. exists [], (c :: cs). split_and!; [done|simpl; lia|constructor|]. constructor; [done|].
      eapply all_above_le; [exact Hc|eauto with lex].
Qed.

Lemma ksorted_sorted_cells cs : ksorted cell_key cs -> sorted_cells cs.
Proof.
  induction 1 as [|c cs Hs IH Hc]; intros i j x y Hij Hx Hy; [by rewrite lookup_nil in Hx|].
  destruct j as [|j]; [lia|]. destruct i as [|i]; simpl in *.
  - injection Hx as ->. unfold key_lt. rewrite Forall_forall in Hc. apply Hc. by eapply list_elem_of_lookup_2.
  - apply (IH i j); (done || lia).
Qed.

Lemma find_cell_mid a c b key : ksorted cell_key (a ++ c :: b) -> cell_key c = key -> find_cell key (a ++ c :: b) = Some (cell_val c).
Proof.
  intros Hs Hk. eapply find_cell_Some; [by apply ksorted_sorted_cells| |exact Hk]. apply list_lookup_middle. done.
Qed.

Lemma find_cell_missing key cs : Forall (fun c => cell_key c <> key) cs -> find_cell key cs = None.
Proof. intros Hc. apply find_cell_None. intros k c Hk. rewrite Forall_forall in Hc. apply Hc. by eapply list_elem_of_lookup_2. Qed.

(** ** Ordered maps *)

Section Maps.
Context {V : Type}.
Implicit Types m : btmap V.

Lemma bt_insert_mid k (v : V) a b :
  all_below fst k a -> all_above fst k b -> bt_insert k v (a ++ b) = a ++ (k, v) :: b.
Proof.
  intros Ha Hb. induction Ha as [|[k' v'] a Hk Ha IH]; simpl in *.
  - destruct Hb as [|[k' v'] b Hk _]; simpl in *; [done|]. by rewrite Hk.
  - rewrite (proj2 (lex_cmp_gt k k') Hk). by rewrite IH.
Qed.

Lemma bt_get_mid k (v : V) a b : all_below fst k a -> bt_get k (a ++ (k, v) :: b) = Some v.
Proof.
  induction 1 as [|[k' v'] a Hk Ha IH]; simpl in *; [by rewrite decide_True|]. rewrite decide_False; [done|]. intros ->. by apply lex_lt_irrefl in Hk.
Qed.

Lemma bt_get_missing k m : Forall (fun kv => fst kv <> k) m -> bt_get k m = None.
Proof. induction 1 as [|[k' v'] m Hk Hm IH]; simpl in *; [done|]. by rewrite decide_False by congruence. Qed.

(** Inserting a sorted list, element by element, above or below a map *)
Definition bt_insert_all (l m : btmap V) : btmap V := foldl (fun m kv => bt_insert (fst kv) (snd kv) m) m l.

Lemma bt_insert_all_above l : forall m,
  bt_sorted (m ++ l) -> bt_insert_all l m = m ++ l.
Proof.
  unfold bt_insert_all. induction l as [|[k v] l IH]; intros m Hs; simpl; [by rewrite app_nil_r|].
  pose proof Hs as (_ & Hm & Hl)%(ksorted_mid fst). rewrite <- (app_nil_r m) at 1. rewrite bt_insert_mid by (done || constructor).
  rewrite IH; rewrite <- app_assoc; done.
Qed.

Lemma bt_insert_all_below l : forall a b,
  bt_sorted (a ++ l ++ b) -> bt_insert_all l (a ++ b) = a ++ l ++ b.
Proof.
  unfold bt_insert_all. induction l as [|[k v] l IH]; intros a b Hs; simpl; [done|].
  pose proof Hs as (_ & Ha & Hlb)%(ksorted_mid fst). apply Forall_app in Hlb as [Hl Hb]. rewrite bt_insert_mid by done.
  rewrite (cons_middle _ a b), app_assoc, IH; rewrite <- !app_assoc; done.
Qed.
End Maps.

(** ** Filters that take a prefix *)

Lemma filter_all {A} (test : A -> bool) l : Forall (fun x => test x = true) l -> List.filter test l = l.
Proof. induction 1 as [|x l Hx Hl IH]; simpl; [done|]. by rewrite Hx, IH. Qed.

Lemma filter_never {A} (test : A -> bool) l : Forall (fun x => test x = false) l -> List.filter test l = [].
Proof. induction 1 as [|x l Hx Hl IH]; simpl; [done|]. by rewrite Hx. Qed.

Lemma filter_filter_and {A} (p q : A -> bool) l : List.filter p (List.filter q l) = List.filter (fun x => q x && p x) l.
Proof. induction l as [|x l IH]; simpl; [done|]. destruct (q x); simpl; [|done]. destruct (p x); by rewrite IH. Qed.

Lemma ksorted_bound {A} (f : A -> list Z) k l : ksorted f l ->
  exists a b, l = a ++ b /\ all_below f k a /\ Forall (fun x => lex_le k (f x)) b.
Proof.
  induction l as [|x l IH]; intros Hs; [exists [], []; split_and!; [done|constructor|constructor]|].
  apply ksorted_cons in Hs as [Hs Hx]. destruct (lex_ltb (f x) k) eqn:E.
  - apply lex_ltb_lt in E. destruct (IH Hs) as (a & b & -> & Ha & Hb). exists (x :: a), b. split_and!; [done|by constructor|done].
  - apply lex_ltb_nlt in E. exists [], (x :: l). split_and!; [done|constructor|]. constructor; [done|]. eapply Forall_impl; [exact Hx|]. simpl. eauto with lex.
Qed.

Lemma Forall_list_filter {A} (P : A -> Prop) (test : A -> bool) l : Forall P l -> Forall P (List.filter test l).
Proof. induction 1 as [|x l Hx Hl IH]; simpl; [constructor|]. destruct (test x); [by constructor|done]. Qed.

Lemma ksorted_filter {A} (f : A -> list Z) test l : ksorted f l -> ksorted f (List.filter test l).
Proof.
  induction 1 as [|x l Hs IH Hx]; simpl; [constructor|]. destruct (test x); [|done]. apply ksorted_cons. split; [done|]. by apply Forall_list_filter.
Qed.

Lemma elem_of_concat_map {A B} (f : A -> list B) l y : y ∈ concat (map f l) <-> exists x, x ∈ l /\ y ∈ f x.
Proof.
  induction l as [|x l IH]; simpl; [split; [by intros ?%not_elem_of_nil|intros (? & ?%not_elem_of_nil & _); done]|].
  rewrite elem_of_app, IH. setoid_rewrite elem_of_cons. naive_solver.
Qed.
