(* ===== verification/BTreeShape.v ===== *)
(** * The shape of a B+ tree

    What it means that pages of a store hold a tree: leaves with their cells,
    values and version chains, internal nodes with their children between
    separators, the sibling list.  Every page appears once; a key is found where
    the separators send it. *)

From stdpp Require Import gmap.
From S2P Require Import Prelude Effects Bytes BTreeMap Version Crc Page LeafNode InternalNode.
From S2P Require Import OverflowRefs Chain HistoryCodec KeyTree HistoryStore Synth PageSource PageStore OverflowChain BTree BTreeLists.
From Stdlib Require Import Sorted.

#[local] Open Scope Z_scope.

Abbreviation page_map := (gmap Z PageImage).

Definition page_number (p : Z) : Prop := 0 < p < 2 ^ 32.

Lemma page_number_u32 p : page_number p -> is_u32 p.
Proof. unfold page_number, is_u. lia. Qed.
#[export] Hint Resolve page_number_u32 : core.

(** ** Leaves *)

(** A cell with its value and the overflow pages that hold it *)
Record gcell : Set := mkGCell { gc_cell : LeafCell; gc_value : list Z; gc_pages : list Z }.

Definition gc_key (c : gcell) : list Z := cell_key (gc_cell c).

(** A leaf: its page, its cells, and the chains of its frame *)
Record gleaf : Set := mkGLeaf { g_page : Z; g_cells : list gcell; g_chains : btmap chain }.

Definition gcell_at (m : page_map) (c : gcell) : Prop :=
  match cell_val (gc_cell c) with
  | Inline v => v = gc_value c /\ gc_pages c = [] /\ len v <= OVERFLOW_THRESHOLD
  | Overflow first_page total_length =>
      chain_at m (gc_pages c) first_page (gc_value c) /\ len (gc_pages c) <= MAX_OVERFLOW_CHAIN_PAGES
      /\ total_length = len (gc_value c) /\ OVERFLOW_THRESHOLD < len (gc_value c)
      /\ is_u32 first_page /\ is_u32 total_length
  end.

(** The bytes of a leaf page and the node they encode *)
Record leaf_img (b : list Z) (n : LeafNode) : Prop := {
  img_wf : node_wf n;
  img_fits : used_bytes n <= PAGE_SIZE_LEAF;
  img_parse : parse b = Ok n;
  img_lookup : sorted_cells (cells n) -> forall key, cell_value b key = Ok (find_cell key (cells n)) }.

Definition leaf_at (m : page_map) (L : gleaf) : Prop :=
  page_number (g_page L)
  /\ (exists b n, m !! g_page L = Some (LeafImage b (g_chains L)) /\ leaf_img b n /\ cells n = map gc_cell (g_cells L))
  /\ Forall (gcell_at m) (g_cells L).

(** Cells and chains of a leaf lie between its bounds, in key order. *)
Definition leaf_within (lo hi : option (list Z)) (L : gleaf) : Prop :=
  ksorted gc_key (g_cells L) /\ Forall (fun c => within lo hi (gc_key c)) (g_cells L)
  /\ bt_sorted (g_chains L) /\ Forall (fun kc => within lo hi (fst kc)) (g_chains L).

Definition cells_of (ls : list gleaf) : list gcell := concat (map g_cells ls).
Definition chains_of (ls : list gleaf) : btmap chain := concat (map g_chains ls).
Definition rows_of (ls : list gleaf) : btmap (list Z) := map (fun c => (gc_key c, gc_value c)) (cells_of ls).
Definition overflow_of (cs : list gcell) : list Z := concat (map gc_pages cs).

(** ** Internal nodes *)

(** Entries and rightmost child of a node, from its first child and the
    separators with the child to their right *)
Fixpoint to_entries (c0 : Z) (es : list (list Z * Z)) : list (list Z * Z) * Z :=
  match es with
  | [] => ([], c0)
  | (k, c) :: rest => let (entries, rightmost) := to_entries c rest in ((k, c0) :: entries, rightmost)
  end.

Definition node_of (level : nat) (c0 : Z) (es : list (list Z * Z)) : InternalNode :=
  mkInternalNode (Z.of_nat level) (fst (to_entries c0 es)) (snd (to_entries c0 es)).

Definition internal_at (m : page_map) (level : nat) (p c0 : Z) (es : list (list Z * Z)) : Prop :=
  page_number p /\ Z.of_nat level <= u8_max /\ page_number c0 /\ Forall (fun e => page_number (snd e)) es
  /\ exists b, m !! p = Some (InternalImage b) /\ internal_parse b = Ok (node_of level c0 es).

(** ** Subtrees

    [siblings T p es lo hi ls ps]: the pages [p] and those of [es], in order,
    are subtrees in the sense of [T] over the key range from [lo] to [hi], cut
    at the separators of [es]; [ls] are their leaves and [ps] their internal
    pages. *)

Inductive siblings (T : Z -> option (list Z) -> option (list Z) -> list gleaf -> list Z -> Prop)
  : Z -> list (list Z * Z) -> option (list Z) -> option (list Z) -> list gleaf -> list Z -> Prop :=
| sib_last p lo hi ls ps : T p lo hi ls ps -> siblings T p [] lo hi ls ps
| sib_cons p k p' es lo hi ls ps ls' ps' :
    T p lo (Some k) ls ps -> strictly_above lo k -> below hi k -> siblings T p' es (Some k) hi ls' ps' ->
    siblings T p ((k, p') :: es) lo hi (ls ++ ls') (ps ++ ps').

Fixpoint subtree (m : page_map) (level : nat) (p : Z) (lo hi : option (list Z)) (ls : list gleaf) (ps : list Z) : Prop :=
  match level with
  | O => exists L, ls = [L] /\ ps = [] /\ g_page L = p /\ leaf_at m L /\ leaf_within lo hi L
  | S level' => exists c0 es ps', ps = p :: ps' /\ internal_at m level p c0 es /\ siblings (subtree m level') c0 es lo hi ls ps'
  end.

(** Pages of nodes, and all pages *)
Definition nodes (ls : list gleaf) (ps : list Z) : list Z := ps ++ map g_page ls.
Definition footprint (ls : list gleaf) (ps : list Z) : list Z := nodes ls ps ++ overflow_of (cells_of ls).

(** ** The sibling list *)

Definition leaf_links (m : page_map) (p prev next : Z) : Prop :=
  page_number p /\ exists b ch n, m !! p = Some (LeafImage b ch) /\ leaf_img b n
    /\ prev_leaf_page n = prev /\ next_leaf_page n = next.

Fixpoint linked (m : page_map) (prev : Z) (pages : list Z) (next : Z) : Prop :=
  match pages with
  | [] => True
  | p :: rest => leaf_links m p prev (default next (head rest)) /\ linked m p rest next
  end.

(** ** Frames *)

(** A page is as it was, or a leaf whose links alone changed. *)
Definition same_content (m m' : page_map) (p : Z) : Prop :=
  m' !! p = m !! p
  \/ exists b b' ch n n', m !! p = Some (LeafImage b ch) /\ m' !! p = Some (LeafImage b' ch)
       /\ leaf_img b n /\ leaf_img b' n' /\ cells n' = cells n.

(** Pages outside [own] keep their content, and are as they were unless they
    are among the leaves [around]. *)
Definition frame (m m' : page_map) (own around : list Z) : Prop :=
  forall q, q ∉ own -> same_content m m' q /\ (q ∉ around -> m' !! q = m !! q).

(** ** Siblings *)

Definition child_of (c0 : Z) (es : list (list Z * Z)) : Z := match last es with Some e => snd e | None => c0 end.
Definition lo_of (lo : option (list Z)) (es : list (list Z * Z)) : option (list Z) :=
  match last es with Some e => Some (fst e) | None => lo end.
Definition hi_of (hi : option (list Z)) (es : list (list Z * Z)) : option (list Z) :=
  match es with e :: _ => Some (fst e) | [] => hi end.

Lemma child_of_cons c0 k c es : child_of c0 ((k, c) :: es) = child_of c es.
Proof. unfold child_of. rewrite last_cons. by destruct (last es). Qed.

Lemma lo_of_cons lo k c es : lo_of lo ((k, c) :: es) = lo_of (Some k) es.
Proof. unfold lo_of. rewrite last_cons. by destruct (last es). Qed.

Lemma nodes_app ls ps ls' ps' : nodes (ls ++ ls') (ps ++ ps') ≡ₚ nodes ls ps ++ nodes ls' ps'.
Proof. unfold nodes. rewrite map_app. solve_Permutation. Qed.

Lemma cells_of_app a b : cells_of (a ++ b) = cells_of a ++ cells_of b.
Proof. unfold cells_of. by rewrite map_app, concat_app. Qed.

Lemma chains_of_app a b : chains_of (a ++ b) = chains_of a ++ chains_of b.
Proof. unfold chains_of. by rewrite map_app, concat_app. Qed.

Lemma overflow_of_app a b : overflow_of (a ++ b) = overflow_of a ++ overflow_of b.
Proof. unfold overflow_of. by rewrite map_app, concat_app. Qed.

Lemma footprint_app ls ps ls' ps' : footprint (ls ++ ls') (ps ++ ps') ≡ₚ footprint ls ps ++ footprint ls' ps'.
Proof. unfold footprint. rewrite nodes_app, cells_of_app, overflow_of_app. solve_Permutation. Qed.

Section Siblings.
Implicit Types T : Z -> option (list Z) -> option (list Z) -> list gleaf -> list Z -> Prop.

Lemma siblings_one T p lo hi ls ps : siblings T p [] lo hi ls ps <-> T p lo hi ls ps.
Proof. split; [by inversion 1|by constructor]. Qed.

Lemma siblings_cons_inv T p k q es lo hi ls ps : siblings T p ((k, q) :: es) lo hi ls ps ->
  exists ls1 ps1 ls2 ps2, ls = ls1 ++ ls2 /\ ps = ps1 ++ ps2 /\ T p lo (Some k) ls1 ps1
    /\ strictly_above lo k /\ below hi k /\ siblings T q es (Some k) hi ls2 ps2.
Proof. inversion 1; subst. eexists _, _, _, _. split_and!; done. Qed.

Lemma siblings_cut T p a k q b lo hi ls ps : siblings T p (a ++ (k, q) :: b) lo hi ls ps <->
  exists ls1 ps1 ls2 ps2, ls = ls1 ++ ls2 /\ ps = ps1 ++ ps2 /\ siblings T p a lo (Some k) ls1 ps1
    /\ strictly_above lo k /\ below hi k /\ siblings T q b (Some k) hi ls2 ps2.
Proof.
  revert p lo ls ps. induction a as [|[k' p'] a IH]; intros p lo ls ps; simpl; split.
  - intros (ls1 & ps1 & ls2 & ps2 & -> & -> & Ht & Ha & Hb & Hs)%siblings_cons_inv.
    exists ls1, ps1, ls2, ps2. split_and!; try done. by apply siblings_one.
  - intros (ls1 & ps1 & ls2 & ps2 & -> & -> & Ht%siblings_one & Ha & Hb & Hs). by constructor.
  - intros (ls1 & ps1 & ls2 & ps2 & -> & -> & Ht & Ha & Hb & Hs)%siblings_cons_inv.
    apply IH in Hs as (ls3 & ps3 & ls4 & ps4 & -> & -> & Hs & Hk & Hb' & Hr). simpl in Hk.
    exists (ls1 ++ ls3), (ps1 ++ ps3), ls4, ps4. rewrite !app_assoc. split_and!; try done; [by constructor|eauto with lex].
  - intros (ls1 & ps1 & ls2 & ps2 & -> & -> & Hs & Ha & Hb & Hr).
    apply siblings_cons_inv in Hs as (ls3 & ps3 & ls4 & ps4 & -> & -> & Ht & Ha' & Hb' & Hs). simpl in Hb'. rewrite <- !app_assoc.
    constructor; [done|done|eauto with lex|]. apply IH. eexists _, _, _, _. split_and!; done.
Qed.

Lemma siblings_keys T p es lo hi ls ps : siblings T p es lo hi ls ps ->
  ksorted fst es /\ Forall (fun e => strictly_above lo (fst e) /\ below hi (fst e)) es.
Proof.
  induction 1 as [|p k q es lo hi ls ps ls' ps' Ht Ha Hb Hs [IH1 IH2]]; [split; constructor|]. split.
  - apply ksorted_cons. split; [done|]. eapply Forall_impl; [exact IH2|]. by intros e [He _].
  - constructor; [done|]. eapply Forall_impl; [exact IH2|]. intros e [He ?]. split; [|done]. eapply strictly_above_lt; [done|]. simpl in *. eauto with lex.
Qed.

Lemma siblings_impl T T' p es lo hi ls ps : siblings T p es lo hi ls ps ->
  (forall p lo hi ls' ps', T p lo hi ls' ps' -> footprint ls' ps' ⊆ footprint ls ps -> T' p lo hi ls' ps') ->
  siblings T' p es lo hi ls ps.
Proof.
  induction 1 as [|p k q es lo hi ls ps ls' ps' Ht Ha Hb Hs IH]; intros Hi.
  - apply siblings_one. by apply Hi.
  - constructor; [|done|done|].
    + apply Hi; [done|]. rewrite footprint_app. set_solver.
    + apply IH. intros p1 lo1 hi1 ls1 ps1 H1 Hsub. apply Hi; [done|]. rewrite footprint_app. set_solver.
Qed.

Lemma within_of lo hi es1 es2 k :
  within lo hi k -> Forall (fun e => lex_le (fst e) k) es1 -> Forall (fun e => lex_lt k (fst e)) es2 ->
  within (lo_of lo es1) (hi_of hi es2) k.
Proof.
  intros [Hlo Hhi] H1 H2. split.
  - unfold lo_of. destruct (last es1) eqn:E; [|done]. rewrite Forall_forall in H1. apply H1. by apply last_Some_elem_of.
  - destruct H2; done.
Qed.
End Siblings.

(** ** What a change of other pages leaves *)

Lemma same_content_refl m p : same_content m m p.
Proof. by left. Qed.

Lemma same_content_eq m m' p : m' !! p = m !! p -> same_content m m' p.
Proof. by left. Qed.

Lemma same_content_trans m1 m2 m3 p : same_content m1 m2 p -> same_content m2 m3 p -> same_content m1 m3 p.
Proof.
  intros [H12|(b & b' & ch & n & n' & H1 & H2 & Hi & Hi' & Hc)] [H23|(b2 & b2' & ch2 & n2 & n2' & H3 & H4 & Hi2 & Hi2' & Hc2)].
  - left. congruence.
  - right. exists b2, b2', ch2, n2, n2'. rewrite <- H12. done.
  - right. exists b, b', ch, n, n'. rewrite H23. done.
  - rewrite H2 in H3. injection H3 as <- <-. right. exists b, b2', ch, n, n2'. split_and!; try done.
    assert (n2 = n') as -> by (pose proof (img_parse _ _ Hi'); pose proof (img_parse _ _ Hi2); congruence). congruence.
Qed.

(** An overflow page is no leaf page. *)
Lemma leaf_img_not_overflow b n hdr : leaf_img b n -> overflow_from_bytes b = Ok hdr -> oh_page_type hdr <> PAGE_TYPE_OVERFLOW.
Proof.
  intros [_ _ Hp _] Ho Ht. unfold parse in Hp. apply bind_Ok_inv in Hp as (h & Hh & Hp). apply bind_Ok_inv in Hp as (u & Hv & _).
  unfold leaf_validate_type in Hv. apply reject_neq_Ok in Hv. unfold leaf_from_bytes in Hh. unfold overflow_from_bytes in Ho.
  do 9 (apply bind_Ok_inv in Hh as (? & ? & Hh)). do 6 (apply bind_Ok_inv in Ho as (? & ? & Ho)). injection Hh as <-. injection Ho as <-.
  cbn [lh_page_type oh_page_type] in *. assert (PAGE_TYPE_LEAF = PAGE_TYPE_OVERFLOW) by congruence. done.
Qed.

Lemma overflow_page_at_content m m' p next d : same_content m m' p -> overflow_page_at m p next d -> overflow_page_at m' p next d.
Proof.
  intros [He|(b & b' & ch & n & n' & H1 & _ & Hi & _)]; [by apply overflow_page_at_same|].
  intros (b2 & ch2 & hdr & Hm & Ho & Ht & _). rewrite H1 in Hm. injection Hm as <- <-. by destruct (leaf_img_not_overflow _ _ _ Hi Ho).
Qed.

Lemma chain_at_content m m' pages cur data :
  (forall p, p ∈ pages -> same_content m m' p) -> chain_at m pages cur data -> chain_at m' pages cur data.
Proof.
  revert cur data. induction pages as [|p pages IH]; intros cur data Hs; [done|].
  intros (-> & Hp & next & d & tail & Hpg & Hc & ->). split_and!; [done..|]. exists next, d, tail.
  split_and!; [eapply overflow_page_at_content; [|done]; apply Hs; set_solver|apply IH; [set_solver|done]|done].
Qed.

Lemma gcell_at_content m m' c : (forall p, p ∈ gc_pages c -> same_content m m' p) -> gcell_at m c -> gcell_at m' c.
Proof.
  unfold gcell_at. intros Hs. destruct (cell_val (gc_cell c)); [done|]. intros (Hc & Hr). split; [|done]. by eapply chain_at_content.
Qed.

Lemma gcells_at_content m m' cs :
  (forall p, p ∈ overflow_of cs -> same_content m m' p) -> Forall (gcell_at m) cs -> Forall (gcell_at m') cs.
Proof.
  intros Hs Hf. induction Hf as [|c cs Hc Hf IH]; constructor.
  - eapply gcell_at_content; [|done]. intros p Hp. apply Hs. unfold overflow_of. simpl. set_solver.
  - apply IH. intros p Hp. apply Hs. unfold overflow_of in *. simpl. set_solver.
Qed.

Lemma leaf_at_content m m' L :
  (forall p, p ∈ g_page L :: overflow_of (g_cells L) -> same_content m m' p) -> leaf_at m L -> leaf_at m' L.
Proof.
  intros Hs (Hp & (b & n & Hm & Hi & Hc) & Hf). split_and!; [done| |eapply gcells_at_content; [|done]; intros q Hq; apply Hs; set_solver].
  destruct (Hs (g_page L)) as [He|(b1 & b1' & ch & n1 & n1' & H1 & H2 & Hi1 & Hi1' & Hcc)]; [set_solver|exists b, n; by rewrite He|].
  rewrite Hm in H1. injection H1 as <- <-. exists b1', n1'. split_and!; [done..|].
  assert (n1 = n) as -> by (pose proof (img_parse _ _ Hi1); pose proof (img_parse _ _ Hi); congruence). congruence.
Qed.

Lemma internal_at_content m m' l p c0 es : same_content m m' p -> internal_at m l p c0 es -> internal_at m' l p c0 es.
Proof.
  intros Hs (Hp & Hl & Hc & He & b & Hm & Hb). split_and!; [done..|]. exists b. split; [|done].
  destruct Hs as [->|(b1 & ? & ch & ? & ? & H1 & _)]; [done|]. rewrite Hm in H1. done.
Qed.

Lemma subtree_content m m' l : forall p lo hi ls ps,
  (forall q, q ∈ footprint ls ps -> same_content m m' q) -> subtree m l p lo hi ls ps -> subtree m' l p lo hi ls ps.
Proof.
  induction l as [|l IH]; intros p lo hi ls ps Hs; simpl.
  - intros (L & -> & -> & Hp & Ha & Hw). exists L. split_and!; try done. eapply leaf_at_content; [|done].
    intros q Hq. apply Hs. unfold footprint, nodes, cells_of. simpl. rewrite app_nil_r. set_solver.
  - intros (c0 & es & ps' & -> & Hi & Hsib). exists c0, es, ps'. split_and!; [done| |].
    + eapply internal_at_content; [|done]. apply Hs. unfold footprint, nodes. set_solver.
    + eapply siblings_impl; [exact Hsib|]. intros p1 lo1 hi1 ls1 ps1 H1 Hsub. eapply IH; [|done]. intros q Hq. apply Hs.
      apply Hsub in Hq. unfold footprint, nodes in *. set_solver.
Qed.

Lemma siblings_content m m' l p es lo hi ls ps :
  (forall q, q ∈ footprint ls ps -> same_content m m' q) ->
  siblings (subtree m l) p es lo hi ls ps -> siblings (subtree m' l) p es lo hi ls ps.
Proof. intros Hs Hsib. eapply siblings_impl; [done|]. intros p1 lo1 hi1 ls1 ps1 H1 Hsub. eapply subtree_content; [|done]. set_solver. Qed.

(** ** The sibling list *)

Lemma links_app m X Y : forall a z,
  linked m a (X ++ Y) z <-> linked m a X (default z (head Y)) /\ linked m (default a (last X)) Y z.
Proof.
  induction X as [|p X IH]; intros a z; simpl; [tauto|]. rewrite IH, last_cons. destruct X as [|q X]; simpl; [tauto|].
  destruct (last (q :: X)); simpl; tauto.
Qed.

Lemma leaf_links_eq m m' p prev next : m' !! p = m !! p -> leaf_links m p prev next -> leaf_links m' p prev next.
Proof. unfold leaf_links. by intros ->. Qed.

Lemma linked_eq m m' pages : forall a z, (forall p, p ∈ pages -> m' !! p = m !! p) -> linked m a pages z -> linked m' a pages z.
Proof.
  induction pages as [|p pages IH]; intros a z Hs; simpl; [done|]. intros [Hp Hr].
  split; [eapply leaf_links_eq; [|done]; apply Hs; set_solver|apply IH; [set_solver|done]].
Qed.

Lemma linked_leaf_page m pages p : forall a z, linked m a pages z -> p ∈ pages -> exists b ch n, m !! p = Some (LeafImage b ch) /\ leaf_img b n /\ page_number p.
Proof.
  induction pages as [|q pages IH]; intros a z Hl Hp; [set_solver|]. destruct Hl as [(Hq & b & ch & n & Hm & Hi & _) Hl].
  apply elem_of_cons in Hp as [->|Hp]; [eauto 7|by eapply IH].
Qed.

(** ** Order of a subtree *)

(** Cells and chains of all leaves, in order and between the bounds *)
Definition contents_within (lo hi : option (list Z)) (ls : list gleaf) : Prop :=
  ksorted gc_key (cells_of ls) /\ Forall (fun c => within lo hi (gc_key c)) (cells_of ls)
  /\ bt_sorted (chains_of ls) /\ Forall (fun kc => within lo hi (fst kc)) (chains_of ls).

Lemma within_hi lo hi k k' : within lo (Some k) k' -> below hi k -> within lo hi k'.
Proof. intros [? ?] ?. split; [done|]. simpl in *. eauto with lex. Qed.

Lemma within_lo lo hi k k' : within (Some k) hi k' -> strictly_above lo k -> within lo hi k'.
Proof. intros [? ?] ?. split; [|done]. simpl in *. eauto with lex. Qed.

(** Two parts on either side of a separator *)
Lemma ksorted_join {A} (f : A -> list Z) lo hi k a b :
  strictly_above lo k -> below hi k ->
  ksorted f a -> Forall (fun x => within lo (Some k) (f x)) a -> ksorted f b -> Forall (fun x => within (Some k) hi (f x)) b ->
  ksorted f (a ++ b) /\ Forall (fun x => within lo hi (f x)) (a ++ b).
Proof.
  intros Hlo Hhi Hsa Ha Hsb Hb. split.
  - apply ksorted_app. split_and!; [done..|]. eapply Forall_impl; [exact Ha|]. intros x [_ Hx]. eapply Forall_impl; [exact Hb|].
    intros y [Hy _]. simpl in *. eauto with lex.
  - apply Forall_app. split; [eapply Forall_impl; [exact Ha|]|eapply Forall_impl; [exact Hb|]]; intros x Hx; [exact (within_hi _ _ _ _ Hx Hhi)|exact (within_lo _ _ _ _ Hx Hlo)].
Qed.

Lemma contents_join lo hi k a b : strictly_above lo k -> below hi k ->
  contents_within lo (Some k) a -> contents_within (Some k) hi b -> contents_within lo hi (a ++ b).
Proof.
  intros Hlo Hhi (Ha1 & Ha2 & Ha3 & Ha4) (Hb1 & Hb2 & Hb3 & Hb4). unfold contents_within. rewrite cells_of_app, chains_of_app.
  destruct (ksorted_join gc_key lo hi k _ _ Hlo Hhi Ha1 Ha2 Hb1 Hb2). destruct (ksorted_join fst lo hi k _ _ Hlo Hhi Ha3 Ha4 Hb3 Hb4). done.
Qed.

Lemma siblings_contents T p es lo hi ls ps : siblings T p es lo hi ls ps ->
  (forall p lo hi ls ps, T p lo hi ls ps -> contents_within lo hi ls) -> contents_within lo hi ls.
Proof. intros Hs Ht. induction Hs as [|p k q es lo hi ls ps ls' ps' H Ha Hb Hs IH]; [eauto|]. eapply contents_join; eauto. Qed.

Lemma subtree_contents m l : forall p lo hi ls ps, subtree m l p lo hi ls ps -> contents_within lo hi ls.
Proof.
  induction l as [|l IH]; intros p lo hi ls ps; simpl.
  - intros (L & -> & _ & _ & _ & Hw). unfold contents_within, cells_of, chains_of. simpl. rewrite !app_nil_r. exact Hw.
  - intros (c0 & es & ps' & _ & _ & Hs). by eapply siblings_contents.
Qed.

(** ** Part of the siblings

    Leaves left of a lower bound, and from an upper bound on; there are none
    where there is no bound. *)

Definition under (b : option (list Z)) (k : list Z) : Prop := match b with Some l => lex_lt k l | None => False end.
Definition over (b : option (list Z)) (k : list Z) : Prop := match b with Some h => lex_le h k | None => False end.

Definition leaves_all (P : list Z -> Prop) (ls : list gleaf) : Prop :=
  Forall (fun c => P (gc_key c)) (cells_of ls) /\ Forall (fun kc => P (fst kc)) (chains_of ls).

Lemma leaves_all_nil P : leaves_all P [].
Proof. split; constructor. Qed.

Lemma leaves_all_app P a b : leaves_all P (a ++ b) <-> leaves_all P a /\ leaves_all P b.
Proof. unfold leaves_all. rewrite cells_of_app, chains_of_app, !Forall_app. tauto. Qed.

Lemma leaves_all_impl (P Q : list Z -> Prop) ls : leaves_all P ls -> (forall k, P k -> Q k) -> leaves_all Q ls.
Proof. intros [H1 H2] Hi. split; (eapply Forall_impl; [eassumption|]); intros x; apply Hi. Qed.

Lemma contents_all lo hi ls : contents_within lo hi ls -> leaves_all (within lo hi) ls.
Proof. intros (_ & ? & _ & ?). done. Qed.

Lemma under_lt b k key : under b k -> above b key -> lex_lt k key.
Proof. destruct b; simpl; [|done]. eauto with lex. Qed.

Lemma over_gt b k key : over b k -> below b key -> lex_lt key k.
Proof. destruct b; simpl; [|done]. eauto with lex. Qed.

Lemma lo_of_last k es : Forall (fun e => lex_lt k (fst e)) es -> exists k', lo_of (Some k) es = Some k' /\ lex_le k k'.
Proof.
  intros Hf. unfold lo_of. destruct (last es) as [e|] eqn:E; [|eauto with lex]. exists (fst e). split; [done|].
  rewrite Forall_forall in Hf. apply lex_lt_le, Hf. by apply last_Some_elem_of.
Qed.

(** The siblings between two separators, and what replaces them *)
Lemma siblings_focus T c0 es1 mid es2 lo hi ls ps : siblings T c0 (es1 ++ mid ++ es2) lo hi ls ps ->
  (forall p lo hi ls ps, T p lo hi ls ps -> contents_within lo hi ls) ->
  exists lsL psL lsM psM lsR psR, ls = lsL ++ lsM ++ lsR /\ ps = psL ++ psM ++ psR
    /\ siblings T (child_of c0 es1) mid (lo_of lo es1) (hi_of hi es2) lsM psM
    /\ leaves_all (under (lo_of lo es1)) lsL /\ leaves_all (over (hi_of hi es2)) lsR
    /\ forall T' mid' lsM' psM',
         (forall p lo hi ls' ps', T p lo hi ls' ps' -> footprint ls' ps' ⊆ footprint (lsL ++ lsR) (psL ++ psR) -> T' p lo hi ls' ps') ->
         siblings T' (child_of c0 es1) mid' (lo_of lo es1) (hi_of hi es2) lsM' psM' ->
         siblings T' c0 (es1 ++ mid' ++ es2) lo hi (lsL ++ lsM' ++ lsR) (psL ++ psM' ++ psR).
Proof.
  intros Hs Hcont. revert c0 lo ls ps Hs. induction es1 as [|[k c1] es1 IH]; intros c0 lo ls ps Hs; simpl in Hs |- *.
  - destruct es2 as [|[k c] es2]; simpl.
    + rewrite app_nil_r in Hs. exists [], [], ls, ps, [], []. rewrite !app_nil_r. split_and!; try done; try apply leaves_all_nil.
      intros T' mid' ls' ps' _. by rewrite !app_nil_r.
    + apply siblings_cut in Hs as (ls1 & ps1 & ls2 & ps2 & -> & -> & Hs & Ha & Hb & Hr).
      exists [], [], ls1, ps1, ls2, ps2. split_and!; try done; try apply leaves_all_nil.
      * eapply leaves_all_impl; [eapply contents_all, siblings_contents; [exact Hr|exact Hcont]|]. by intros k' [? _].
      * intros T' mid' ls' ps' Hi Hm. apply siblings_cut. exists ls', ps', ls2, ps2. split_and!; try done. by eapply siblings_impl.
  - apply siblings_cons_inv in Hs as (ls1 & ps1 & ls2 & ps2 & -> & -> & Ht & Ha & Hb & Hs). rewrite child_of_cons, lo_of_cons.
    pose proof (siblings_keys _ _ _ _ _ _ _ Hs) as [_ Hek].
    apply IH in Hs as (lsL & psL & lsM & psM & lsR & psR & -> & -> & Hm & HL & HR & Hc).
    exists (ls1 ++ lsL), (ps1 ++ psL), lsM, psM, lsR, psR. rewrite <- !app_assoc. split_and!; [done..| |done|].
    + apply leaves_all_app. split; [|done]. apply Forall_app in Hek as [Hek _].
      destruct (lo_of_last k es1) as (k' & -> & Hkk); [eapply Forall_impl; [exact Hek|]; by intros e [He _]|].
      eapply leaves_all_impl; [eapply contents_all, Hcont; exact Ht|]. intros x [_ Hx]. simpl in *. eauto with lex.
    + intros T' mid' ls' ps' Hi Hm'. rewrite <- !app_assoc. constructor; [|done|done|].
      * apply Hi; [done|]. rewrite footprint_app. set_solver.
      * apply Hc; [|done]. intros p lo1 hi1 ls3 ps3 H3 Hsub. apply Hi; [done|]. rewrite (footprint_app ls1 ps1). set_solver.
Qed.

(** ** Pages of a subtree *)

Definition node_page (m : page_map) (p : Z) : Prop := page_number p /\ is_Some (m !! p).

Lemma siblings_forall T (P : Z -> Prop) p es lo hi ls ps : siblings T p es lo hi ls ps ->
  (forall p lo hi ls ps, T p lo hi ls ps -> Forall P (nodes ls ps)) -> Forall P (nodes ls ps).
Proof.
  intros Hs Ht. induction Hs as [|p k q es lo hi ls ps ls' ps' H Ha Hb Hs IH]; [eauto|]. rewrite nodes_app. apply Forall_app. eauto.
Qed.

Lemma subtree_nodes m l : forall p lo hi ls ps, subtree m l p lo hi ls ps -> Forall (node_page m) (nodes ls ps).
Proof.
  induction l as [|l IH]; intros p lo hi ls ps; simpl.
  - intros (L & -> & -> & <- & (Hp & (b & n & Hm & _) & _) & _). constructor; [|constructor]. split; [done|]. simpl in *. by rewrite Hm.
  - intros (c0 & es & ps' & -> & (Hp & _ & _ & _ & b & Hm & _) & Hs). constructor; [split; [done|by rewrite Hm]|].
    by eapply siblings_forall.
Qed.

Lemma subtree_root m l p lo hi ls ps : subtree m l p lo hi ls ps -> p ∈ nodes ls ps.
Proof.
  destruct l as [|l]; simpl.
  - intros (L & -> & -> & <- & _). unfold nodes. set_solver.
  - intros (c0 & es & ps' & -> & _). unfold nodes. set_solver.
Qed.

Lemma siblings_roots T p es lo hi ls ps : siblings T p es lo hi ls ps ->
  (forall p lo hi ls ps, T p lo hi ls ps -> p ∈ nodes ls ps) -> p :: map snd es ⊆ nodes ls ps.
Proof.
  intros Hs Ht. induction Hs as [|p k q es lo hi ls ps ls' ps' H Ha Hb Hs IH].
  - apply Ht in H. set_solver.
  - rewrite nodes_app. apply Ht in H. simpl. set_solver.
Qed.

Lemma siblings_children m l p es lo hi ls ps : siblings (subtree m l) p es lo hi ls ps ->
  page_number p /\ Forall (fun e => page_number (snd e)) es.
Proof.
  intros Hs. pose proof (siblings_roots _ _ _ _ _ _ _ Hs (subtree_root m l)) as Hr.
  pose proof (siblings_forall _ _ _ _ _ _ _ _ Hs (subtree_nodes m l)) as Hn. rewrite Forall_forall in Hn. split.
  - apply Hn, Hr. set_solver.
  - apply Forall_forall. intros e He. apply Hn, Hr. apply elem_of_cons. right. apply list_elem_of_fmap. eauto.
Qed.

(** ** Routing *)

Lemma to_entries_length c0 es : length (fst (to_entries c0 es)) = length es.
Proof. revert c0. induction es as [|[k c] es IH]; intros c0; simpl; [done|]. specialize (IH c). destruct (to_entries c es). simpl in *. lia. Qed.

Lemma to_entries_app c0 a b :
  to_entries c0 (a ++ b) = (fst (to_entries c0 a) ++ fst (to_entries (child_of c0 a) b), snd (to_entries (child_of c0 a) b)).
Proof.
  revert c0. induction a as [|[k c] a IH]; intros c0; simpl; [change (child_of c0 []) with c0; by destruct (to_entries c0 b)|].
  rewrite IH, child_of_cons. destruct (to_entries c a) as [x y]. done.
Qed.

Lemma to_entries_snd c0 es : snd (to_entries c0 es) = child_of c0 es.
Proof.
  revert c0. induction es as [|[k c] es IH]; intros c0; simpl; [done|]. rewrite child_of_cons, <- IH. by destruct (to_entries c es).
Qed.

Lemma to_entries_keys c0 es : map fst (fst (to_entries c0 es)) = map fst es.
Proof. revert c0. induction es as [|[k c] es IH]; intros c0; simpl; [done|]. rewrite <- (IH c). by destruct (to_entries c es). Qed.

(** Where a key goes *)
Lemma find_idx_split level c0 es1 es2 key :
  Forall (fun e => lex_le (fst e) key) es1 -> Forall (fun e => lex_lt key (fst e)) es2 ->
  find_child_idx (node_of level c0 (es1 ++ es2)) key = length es1
  /\ find_child (node_of level c0 (es1 ++ es2)) key = child_of c0 es1.
Proof.
  intros H1 H2. unfold find_child_idx, find_child, node_of. cbn [in_entries in_rightmost_child].
  assert (Hg : forall i, find_idx_from (fst (to_entries c0 (es1 ++ es2))) i key = (i + length es1)%nat
    /\ find_child_from (fst (to_entries c0 (es1 ++ es2))) (snd (to_entries c0 (es1 ++ es2))) key = child_of c0 es1); [|exact (Hg O)].
  revert c0. induction H1 as [|[k c] es1 Hk H1 IH]; intros c0 i; simpl in *.
  - destruct H2 as [|[k c] es2 Hk _]; simpl; [split; [lia|done]|]. destruct (to_entries c es2). simpl in *.
    rewrite (proj2 (lex_ltb_lt _ _) Hk). split; [lia|done].
  - rewrite child_of_cons. specialize (IH c (S i)). destruct (to_entries c (es1 ++ es2)). simpl in *.
    rewrite (proj2 (lex_ltb_nlt _ _) Hk). destruct IH as [-> ->]. split; [lia|done].
Qed.

Lemma child_at_split level c0 es1 es2 : child_at (node_of level c0 (es1 ++ es2)) (length es1) = child_of c0 es1.
Proof.
  unfold child_at, node_of. cbn [in_entries in_rightmost_child]. rewrite to_entries_app. cbn [fst snd].
  rewrite <- (to_entries_length c0 es1) at 1. rewrite lookup_app_r, Nat.sub_diag by done.
  destruct es2 as [|[k c] es2]; simpl; [done|]. by destruct (to_entries c es2).
Qed.

Lemma route_split (es : list (list Z * Z)) key : ksorted fst es ->
  exists es1 es2, es = es1 ++ es2 /\ Forall (fun e => lex_le (fst e) key) es1 /\ Forall (fun e => lex_lt key (fst e)) es2.
Proof.
  induction es as [|e es IH]; intros Hs; [exists [], []; split_and!; [done|constructor|constructor]|]. apply ksorted_cons in Hs as [Hs He].
  destruct (lex_leb (fst e) key) eqn:E.
  - apply lex_leb_le in E. destruct (IH Hs) as (es1 & es2 & -> & H1 & H2). exists (e :: es1), es2. split_and!; [done|by constructor|done].
  - apply lex_leb_nle in E. exists [], (e :: es). split_and!; [done|constructor|]. constructor; [done|]. eapply Forall_impl; [exact He|]. simpl. eauto with lex.
Qed.
