(* ===== verification/BTreeNodes.v ===== *)
(** * Nodes on the pages of a store

    What reading, writing and re-homing of chains do to the pages, for the
    operations of the tree. *)

From stdpp Require Import gmap.
From S2P Require Import Prelude Effects Bytes BTreeMap Version Crc Page LeafNode InternalNode.
From S2P Require Import OverflowRefs Chain HistoryCodec KeyTree HistoryStore Synth PageSource PageStore OverflowChain BTree BTreeLists BTreeShape.
From Stdlib Require Import Sorted.

#[local] Open Scope Z_scope.

(** ** Well-formed nodes *)

Lemma gcell_ok m c : gcell_at m c -> cell_ok (gc_cell c).
Proof. unfold gcell_at, cell_ok. destruct (cell_val (gc_cell c)); [done|]. tauto. Qed.

Lemma gcells_ok m cs : Forall (gcell_at m) cs -> Forall cell_ok (map gc_cell cs).
Proof. intros Hf. apply Forall_fmap. eapply Forall_impl; [exact Hf|]. intros c. apply gcell_ok. Qed.

Lemma node_wf_mk fl nx pv cs : is_u8 fl -> is_u32 nx -> is_u32 pv -> Forall cell_ok cs -> node_wf (mkLeafNode fl nx pv cs).
Proof. done. Qed.

Lemma node_of_wf level c0 es :
  Z.of_nat level <= u8_max -> page_number c0 -> Forall (fun e => page_number (snd e)) es -> internal_wf (node_of level c0 es).
Proof.
  intros Hl Hc He. unfold internal_wf, node_of. cbn [in_level in_entries in_rightmost_child]. split; [unfold is_u, u8_max in *; lia|].
  revert c0 Hc. induction He as [|[k c] es Hk He IH]; intros c0 Hc; simpl; [split; [by apply page_number_u32|constructor]|].
  specialize (IH c Hk). destruct (to_entries c es). simpl in *. destruct IH as [? ?]. split; [done|]. constructor; [by apply page_number_u32|done].
Qed.

Lemma ksorted_map {A B} (g : A -> B) (f : B -> list Z) l : ksorted f (map g l) <-> ksorted (fun x => f (g x)) l.
Proof.
  induction l as [|x l IH]; simpl; [split; constructor|]. rewrite !ksorted_cons, IH. unfold all_above. by rewrite Forall_fmap.
Qed.

Lemma ksorted_gcells cs : ksorted gc_key cs <-> ksorted cell_key (map gc_cell cs).
Proof. by rewrite ksorted_map. Qed.

(** ** Reads and writes *)

Section Store.
Context {S : Type} `{BTreePageStoreLaws S} `{Crc32c}.

Lemma read_leaf_node_at s p b ch n : pages_of s !! p = Some (LeafImage b ch) -> leaf_img b n -> read_leaf_node s p = Ok n.
Proof.
  intros Hp Hi. unfold read_leaf_node. destruct (read_leaf_law _ _ _ _ Hp) as [snap ->]. rewrite bind_Ok. apply (img_parse _ _ Hi).
Qed.

Lemma read_internal_node_at s l p c0 es : internal_at (pages_of s) l p c0 es -> read_internal_node s p = Ok (node_of l c0 es).
Proof. intros (_ & _ & _ & _ & b & Hm & Hb). unfold read_internal_node. by rewrite (read_internal_law _ _ _ Hm), bind_Ok. Qed.

Lemma encode_img n b : node_wf n -> encode n = Ok b -> leaf_img b (encoded_node n) /\ len b = PAGE_SIZE_LEAF.
Proof.
  intros Hwf He. destruct (encode_inv n b Hwf He) as (Hu & Hl & Hp & Hc). split; [|exact Hl]. split.
  - destruct Hwf as (? & ? & ? & ?). split_and!; try done. by apply encoded_flags_u8.
  - exact Hu.
  - exact Hp.
  - exact Hc.
Qed.

Lemma write_leaf_node_spec s p b ch n u s' :
  pages_of s !! p = Some (LeafImage b ch) -> node_wf n -> write_leaf_node p n s = (Ok u, s') ->
  exists b', pages_of s' = <[p := LeafImage b' ch]> (pages_of s) /\ leaf_img b' (encoded_node n).
Proof.
  unfold write_leaf_node. intros Hp Hwf Hw. st_inv Hw. apply st_lift_inv in Ha as [He ->]. destruct u.
  destruct (encode_img _ _ Hwf He) as [Hi Hl]. exists a. split; [|done]. by eapply write_leaf_law.
Qed.

Lemma write_internal_node_spec s p b l c0 es u s' :
  pages_of s !! p = Some (InternalImage b) -> page_number p -> Z.of_nat l <= u8_max -> page_number c0 ->
  Forall (fun e => page_number (snd e)) es -> write_internal_node p (node_of l c0 es) s = (Ok u, s') ->
  internal_at (pages_of s') l p c0 es /\ (forall q, q <> p -> pages_of s' !! q = pages_of s !! q).
Proof.
  unfold write_internal_node. intros Hp Hpn Hl Hc He Hw. st_inv Hw. apply st_lift_inv in Ha as [Henc ->]. destruct u.
  destruct (internal_encode_inv _ _ (node_of_wf l c0 es Hl Hc He) Henc) as (_ & Hlen & Hparse).
  rewrite (write_internal_law _ _ _ _ _ Hp Hlen Hw). split.
  - split_and!; try done. exists a. by rewrite lookup_insert_eq.
  - intros q Hq. by rewrite lookup_insert_ne.
Qed.

(** ** Chains *)

Lemma drain_chains_spec s p b ch r s' :
  pages_of s !! p = Some (LeafImage b ch) -> drain_chains p s = (Ok r, s') ->
  r = ch /\ pages_of s' = <[p := LeafImage b []]> (pages_of s).
Proof. intros Hp Hd. by apply (with_all_chains_law _ _ _ _ _ _ _ _ Hp) in Hd. Qed.

Lemma set_chain_spec s p b ch key c u s' :
  pages_of s !! p = Some (LeafImage b ch) -> set_chain p key c s = (Ok u, s') ->
  pages_of s' = <[p := LeafImage b (bt_insert key c ch)]> (pages_of s).
Proof. intros Hp Hd. by apply (with_chain_law _ _ _ _ _ _ _ _ _ Hp) in Hd as [_ Hd]. Qed.

Definition routed (route : list Z -> Result Z) (q : Z) (kc : list Z * chain) : bool :=
  match route (fst kc) with Ok p => p =? q | _ => false end.

Definition with_more_chains (more : btmap chain) (img : PageImage) : PageImage :=
  match img with LeafImage b ch => LeafImage b (bt_insert_all more ch) | InternalImage b => InternalImage b end.

(** Every chain goes to the page its key is routed to; nothing else changes. *)
Lemma rehome_spec route chains : forall s u s',
  rehome route chains s = (Ok u, s') ->
  (forall k p, route k = Ok p -> exists b ch, pages_of s !! p = Some (LeafImage b ch)) ->
  forall q, pages_of s' !! q = with_more_chains (List.filter (routed route q) chains) <$> (pages_of s !! q).
Proof.
  induction chains as [|[k c] chains IH]; intros s u s' Hr Hroute q; simpl in Hr.
  - injection Hr as <- <-. simpl. by destruct (pages_of s !! q) as [[]|].
  - st_inv Hr. apply st_lift_inv in Ha as [Hk ->]. destruct (Hroute _ _ Hk) as (b & ch & Hp).
    pose proof (set_chain_spec _ _ _ _ _ _ _ _ Hp Ha0) as Hs.
    rewrite (IH _ _ _ Hr); [|intros k' p Hk'; rewrite Hs; destruct (Hroute _ _ Hk') as (b' & ch' & Hp');
      destruct (decide (p = a)) as [->|]; [rewrite lookup_insert_eq; eauto|rewrite lookup_insert_ne by done; eauto]].
    rewrite Hs. simpl. unfold routed at 2. simpl. rewrite Hk. destruct (Z.eqb_spec a q) as [->|Hne].
    + by rewrite lookup_insert_eq, Hp.
    + by rewrite lookup_insert_ne.
Qed.
End Store.
