(* ===== verification/BTreeSplit.v ===== *)
(** * Split points of a leaf ([delete.rs], [insert.rs])

    The byte-aware choice of a cut by prefix sums, and the greedy packing used
    when no single cut fits. *)

From stdpp Require Import gmap.
From S2P Require Import Prelude Effects Bytes BTreeMap Version Crc Page LeafNode InternalNode.
From S2P Require Import OverflowRefs Chain HistoryCodec KeyTree HistoryStore Synth PageSource PageStore OverflowChain BTree BTreeLists.
From Stdlib Require Import Sorted.

#[local] Open Scope Z_scope.

(** ** Sizes *)

Lemma sum_sizes_app a b : sum_sizes (a ++ b) = sum_sizes a + sum_sizes b.
Proof. unfold sum_sizes. induction a as [|c a IH]; simpl; lia. Qed.

Lemma used_bytes_app a b : used_bytes_for_cells (a ++ b) = used_bytes_for_cells a + used_bytes_for_cells b - LEAF_HEADER_SIZE.
Proof. unfold used_bytes_for_cells. rewrite sum_sizes_app, len_app. lia. Qed.

(** ** The reference: both sides measured at every cut *)

Section Cuts.
Context (cs : list LeafCell) (original_left_len : Z).

Definition left_used (i : nat) : Z := used_bytes_for_cells (take i cs).
Definition right_used (i : nat) : Z := used_bytes_for_cells (drop i cs).

Definition feasible (i : nat) : Prop :=
  (1 <= i < length cs)%nat /\ left_used i <= PAGE_SIZE_LEAF /\ right_used i <= PAGE_SIZE_LEAF.

(** Missing bytes below half a page, then imbalance, then cells moved *)
Definition cut_score (i : nat) : Z * Z * Z :=
  (saturating_sub MIN_LEAF_BYTES (left_used i) + saturating_sub MIN_LEAF_BYTES (right_used i),
   abs_diff (left_used i) (right_used i),
   abs_diff (Z.of_nat i) original_left_len).

(** The first of the best cuts among those of a list *)
Definition best_of (l : list nat) (r : option ((Z * Z * Z) * nat)) : Prop :=
  match r with
  | None => forall j, In j l -> ~ feasible j
  | Some (sc, i) => sc = cut_score i /\ In i l /\ feasible i
      /\ forall j, In j l -> feasible j -> score_le (cut_score i) (cut_score j) = true
           /\ ((j < i)%nat -> score_le (cut_score j) (cut_score i) = false)
  end.

Lemma score_le_refl x : score_le x x = true.
Proof. destruct x as [[a b] c]. unfold score_le. rewrite !Z.eqb_refl, Z.leb_refl. by rewrite !andb_true_l, !orb_true_r. Qed.

Lemma score_le_spec a1 a2 a3 b1 b2 b3 :
  score_le (a1, a2, a3) (b1, b2, b3) = true <-> a1 < b1 \/ (a1 = b1 /\ (a2 < b2 \/ (a2 = b2 /\ a3 <= b3))).
Proof.
  unfold score_le. rewrite !orb_true_iff, !andb_true_iff, !orb_true_iff, !andb_true_iff, !Z.ltb_lt, !Z.eqb_eq, Z.leb_le. done.
Qed.

Lemma score_le_trans x y z : score_le x y = true -> score_le y z = true -> score_le x z = true.
Proof. destruct x as [[a1 a2] a3], y as [[b1 b2] b3], z as [[c1 c2] c3]. rewrite !score_le_spec. lia. Qed.

Lemma score_le_total x y : score_le x y = false -> score_le y x = true.
Proof.
  destruct x as [[a1 a2] a3], y as [[b1 b2] b3]. intros Hf. apply score_le_spec.
  assert (~ (a1 < b1 \/ (a1 = b1 /\ (a2 < b2 \/ (a2 = b2 /\ a3 <= b3))))) by (rewrite <- score_le_spec; by rewrite Hf). lia.
Qed.

Lemma score_le_false_trans x y z : score_le x y = false -> score_le x z = true -> score_le y z = true /\ score_le z y = false.
Proof.
  intros Hf Hz. pose proof (score_le_total _ _ Hf) as Hyx. split; [by eapply score_le_trans|].
  destruct (score_le z y) eqn:E; [|done]. rewrite (score_le_trans _ _ _ Hz E) in Hf. done.
Qed.

Lemma cut_sizes i : (i <= length cs)%nat ->
  left_used i = LEAF_HEADER_SIZE + Z.of_nat i * 2 + sum_sizes (take i cs)
  /\ right_used i = LEAF_HEADER_SIZE + (len cs - Z.of_nat i) * 2 + (sum_sizes cs - sum_sizes (take i cs)).
Proof.
  intros Hi. unfold left_used, right_used, used_bytes_for_cells. split; unfold len; rewrite ?length_take, ?length_drop; [lia|].
  assert (sum_sizes cs = sum_sizes (take i cs) + sum_sizes (drop i cs)) by (by rewrite <- sum_sizes_app, take_drop). lia.
Qed.

(** One step of the loop keeps the best cut so far. *)
Lemma score_cut_best l best i :
  best_of l best -> (1 <= i < length cs)%nat -> (forall j, In j l -> (j < i)%nat) ->
  best_of (l ++ [i]) (score_cut (len cs) (sum_sizes cs) original_left_len best (i, sum_sizes (take i cs))).
Proof.
  intros Hb Hi Hlt. destruct (cut_sizes i ltac:(lia)) as [Hl Hr]. unfold score_cut. cbv zeta. rewrite <- Hl, <- Hr.
  destruct ((PAGE_SIZE_LEAF <? left_used i) || (PAGE_SIZE_LEAF <? right_used i)) eqn:Hfit.
  - assert (Hn : ~ feasible i).
    { intros (_ & ? & ?). apply orb_true_iff in Hfit as [?%Z.ltb_lt|?%Z.ltb_lt]; lia. }
    destruct best as [[sc j]|]; cbn [best_of] in *.
    + destruct Hb as (-> & Hj & Hf & Hmin). split_and!; [done|apply in_app_iff; by left|done|].
      intros j' [Hj'|[<-|[]]]%in_app_iff Hf'; [by apply Hmin|done].
    + intros j [Hj|[<-|[]]]%in_app_iff; [by apply Hb|done].
  - apply orb_false_iff in Hfit as [?%Z.ltb_ge ?%Z.ltb_ge]. assert (Hf : feasible i) by done. fold (cut_score i).
    destruct best as [[sc j]|]; cbn [best_of] in *.
    + destruct Hb as (-> & Hj & Hfj & Hmin). destruct (score_le (cut_score j) (cut_score i)) eqn:Hle; cbn [best_of].
      * split_and!; [done|apply in_app_iff; by left|done|]. intros j' [Hj'|[<-|[]]]%in_app_iff Hf'; [by apply Hmin|].
        split; [done|]. intros ?. apply Hlt in Hj. lia.
      * split_and!; [done|apply in_app_iff; right; by left|done|]. intros j' [Hj'|[<-|[]]]%in_app_iff Hf'; [|split; [apply score_le_refl|lia]].
        destruct (Hmin j' Hj' Hf') as [Hm _]. destruct (score_le_false_trans _ _ _ Hle Hm). done.
    + split_and!; [done|apply in_app_iff; right; by left|done|]. intros j' [Hj'|[<-|[]]]%in_app_iff Hf'; [by destruct (Hb j')|split; [apply score_le_refl|lia]].
Qed.
End Cuts.

(** ** The loop is the reference *)

Lemma length_prefix_sums cs : forall acc, length (prefix_sums acc cs) = S (length cs).
Proof. induction cs as [|c cs IH]; intros acc; simpl; [done|]. by rewrite IH. Qed.

Lemma prefix_sums_lookup cs : forall acc i, (i <= length cs)%nat -> prefix_sums acc cs !! i = Some (acc + sum_sizes (take i cs)).
Proof.
  induction cs as [|c cs IH]; intros acc [|i] Hi; simpl in *; [f_equal; lia|lia|f_equal; lia|].
  rewrite IH by lia. f_equal. lia.
Qed.

Lemma cuts_eq cs : drop 1 (take (length cs) (imap (fun i b => (i, b)) (prefix_sums 0 cs))) =
  map (fun i => (i, sum_sizes (take i cs))) (seq 1 (length cs - 1)).
Proof.
  apply list_eq. intros i. rewrite lookup_drop. destruct (decide (i < length cs - 1)%nat) as [Hi|Hi].
  - rewrite lookup_take_lt by lia. rewrite list_lookup_imap, prefix_sums_lookup by lia. rewrite list_lookup_fmap, lookup_seq_lt by lia. done.
  - rewrite (lookup_ge_None_2 (map _ _)) by (rewrite length_map, length_seq; lia). apply lookup_ge_None_2.
    rewrite length_take, length_imap, length_prefix_sums. lia.
Qed.

Lemma best_of_nil cs o : best_of cs o [] None.
Proof. intros j []. Qed.

Lemma score_cuts_best cs o n : (n <= length cs - 1)%nat ->
  best_of cs o (seq 1 n) (foldl (score_cut (len cs) (sum_sizes cs) o) None (map (fun i => (i, sum_sizes (take i cs))) (seq 1 n))).
Proof.
  induction n as [|n IH]; intros Hn; [apply best_of_nil|]. rewrite seq_S, map_app, foldl_app. simpl. apply score_cut_best; [apply IH; lia|lia|].
  intros j Hj%in_seq. lia.
Qed.

(** The cut chosen is the first of the best feasible cuts, and there is one
    whenever a cut is feasible. *)
Lemma choose_best cs o : best_of cs o (seq 1 (length cs - 1))
  ((fun i => (cut_score cs o i, i)) <$> choose_leaf_redistribution_split cs o).
Proof.
  unfold choose_leaf_redistribution_split. cbv zeta. rewrite cuts_eq, prefix_sums_lookup, firstn_all by lia. simpl default. rewrite Z.add_0_l.
  pose proof (score_cuts_best cs o (length cs - 1) ltac:(lia)) as Hb.
  destruct (foldl _ _ _) as [[sc i]|]; cbn [fmap option_fmap option_map] in *; [|done]. destruct Hb as (-> & Hb). done.
Qed.

Lemma choose_Some cs o i : choose_leaf_redistribution_split cs o = Some i -> feasible cs i.
Proof. intros E. pose proof (choose_best cs o) as Hb. rewrite E in Hb. apply Hb. Qed.

Lemma choose_None cs o : choose_leaf_redistribution_split cs o = None -> forall i, ~ feasible cs i.
Proof.
  intros E i Hi. pose proof (choose_best cs o) as Hb. rewrite E in Hb. apply (Hb i); [|done]. apply in_seq. destruct Hi as [? _]. lia.
Qed.

(** ** Packing *)

Definition fits (cs : list LeafCell) : Prop := used_bytes_for_cells cs <= PAGE_SIZE_LEAF.

Definition group_ok (cs : list LeafCell) : Prop := cs <> [] /\ fits cs.

Lemma used_bytes_snoc cs c : used_bytes_for_cells (cs ++ [c]) = used_bytes_for_cells cs + (cell_encoded_size c + 2).
Proof. rewrite used_bytes_app. unfold used_bytes_for_cells at 2, sum_sizes. simpl. rewrite len_cons, len_nil. lia. Qed.

(** The rest of the cells, packed *)
Ltac pack_rest IH :=
  destruct (pack_loop _ _ _ _) as [?| |];
  [|let d := fresh in let Hd := fresh in destruct IH as (d & Hd & ?); exists d; split; [by right|done]|done].

Lemma pack_loop_spec cs : forall groups current,
  Forall group_ok groups -> fits current ->
  match pack_loop cs groups current (used_bytes_for_cells current) with
  | Ok out => concat out = concat groups ++ current ++ cs /\ Forall group_ok out
  | Err _ => exists c, In c cs /\ ~ fits [c]
  | Panic => False
  end.
Proof.
  induction cs as [|c cs IH]; intros groups current Hg Hc; cbn [pack_loop].
  - case_bool_decide as E; [subst; by rewrite !app_nil_r|]. rewrite concat_app. simpl. rewrite !app_nil_r. split; [done|].
    apply Forall_app. split; [done|]. by repeat constructor.
  - cbv zeta. case_bool_decide as E; cbn [negb andb].
    + subst current. destruct (Z.ltb_spec PAGE_SIZE_LEAF (used_bytes_for_cells [] + (cell_encoded_size c + 2))) as [Hbig|Hfit].
      * exists c. split; [by left|]. unfold fits. pose proof (used_bytes_snoc [] c) as Hu. cbn [app] in *. lia.
      * rewrite <- used_bytes_snoc in Hfit |- *. specialize (IH groups ([] ++ [c]) Hg Hfit).
        pack_rest IH. destruct IH as [-> ?]. split; [|done]. by rewrite <- app_assoc.
    + destruct (Z.ltb_spec PAGE_SIZE_LEAF (used_bytes_for_cells current + (cell_encoded_size c + 2))) as [Hflush|Hstay].
      * assert (Hg' : Forall group_ok (groups ++ [current])) by (apply Forall_app; split; [done|repeat constructor; done]).
        change LEAF_HEADER_SIZE with (used_bytes_for_cells []).
        destruct (Z.ltb_spec PAGE_SIZE_LEAF (used_bytes_for_cells [] + (cell_encoded_size c + 2))) as [Hbig|Hfit].
        -- exists c. split; [by left|]. unfold fits. pose proof (used_bytes_snoc [] c) as Hu. cbn [app] in *. lia.
        -- rewrite <- used_bytes_snoc in Hfit |- *. specialize (IH (groups ++ [current]) ([] ++ [c]) Hg' Hfit).
           pack_rest IH. destruct IH as [-> ?]. split; [|done]. rewrite concat_app. simpl. by rewrite app_nil_r, <- !app_assoc.
      * rewrite (proj2 (Z.ltb_ge _ _)) by done. rewrite <- used_bytes_snoc in Hstay |- *. specialize (IH groups (current ++ [c]) Hg Hstay).
        pack_rest IH. destruct IH as [-> ?]. split; [|done]. by rewrite <- !app_assoc.
Qed.

Lemma pack_spec cs :
  match pack_cells_multiway cs with
  | Ok groups => concat groups = cs /\ Forall group_ok groups
  | Err _ => exists c, In c cs /\ ~ fits [c]
  | Panic => False
  end.
Proof.
  unfold pack_cells_multiway. change LEAF_HEADER_SIZE with (used_bytes_for_cells []). apply (pack_loop_spec cs [] []); [constructor|by compute].
Qed.

Lemma split_groups_spec cs groups : split_groups cs = Ok groups -> concat groups = cs /\ Forall group_ok groups.
Proof.
  unfold split_groups. destruct (choose_leaf_redistribution_split cs (len cs / 2)) as [i|] eqn:E.
  - intros [= <-]. apply choose_Some in E as (Hi & Hl & Hr). simpl. rewrite app_nil_r, take_drop. split; [done|].
    repeat constructor; try done; intros Hn; apply (f_equal length) in Hn; rewrite ?length_take, ?length_drop in Hn; simpl in Hn; lia.
  - intros E2. pose proof (pack_spec cs) as Hp. by rewrite E2 in Hp.
Qed.

(** C37: splitting a leaf that is too full always succeeds when each cell fits a
    page by itself: the cells are cut, in order, into at least two groups, each
    of which is not empty and fits a page.  If a single cut can do it, exactly
    one is made, and it is the first of those with the least missing bytes,
    then the least imbalance, then the fewest cells moved. *)
Theorem leaf_split_total cs :
  Forall (fun c => fits [c]) cs -> ~ fits cs ->
  exists groups, split_groups cs = Ok groups /\ concat groups = cs /\ (2 <= length groups)%nat
    /\ Forall (fun g => g <> [] /\ used_bytes_for_cells g <= PAGE_SIZE_LEAF) groups
    /\ ((exists i, feasible cs i) -> exists i, groups = [take i cs; drop i cs] /\ feasible cs i
         /\ forall j, feasible cs j -> score_le (cut_score cs (len cs / 2) i) (cut_score cs (len cs / 2) j) = true).
Proof.
  intros Hc Hn. assert (Hg : exists groups, split_groups cs = Ok groups).
  { unfold split_groups. destruct (choose_leaf_redistribution_split cs (len cs / 2)) as [i|]; [eauto|].
    pose proof (pack_spec cs) as Hp. destruct (pack_cells_multiway cs) as [groups|e|]; [eauto| |done].
    destruct Hp as (c & Hin & Hnf). rewrite List.Forall_forall in Hc. by destruct Hnf; apply Hc. }
  destruct Hg as [groups Hg]. exists groups. destruct (split_groups_spec _ _ Hg) as [Hcat Hok]. split_and!; try done.
  - destruct groups as [|g [|g' groups]]; simpl in *; [|apply Forall_cons in Hok as [[_ Hf] _]; rewrite app_nil_r in Hcat; by subst|lia].
    subst. destruct Hn. by compute.
  - intros [i Hi]. unfold split_groups in Hg. pose proof (choose_best cs (len cs / 2)) as Hb.
    destruct (choose_leaf_redistribution_split cs (len cs / 2)) as [k|] eqn:E; [|by destruct (choose_None _ _ E i)].
    injection Hg as <-. exists k. destruct Hb as (_ & _ & Hk & Hmin). split_and!; [done..|]. intros j Hj. apply Hmin; [|done].
    apply in_seq. destruct Hj as [? _]. lia.
Qed.

(** *** Instance: a large cell between two others leaves no single cut *)

Definition wide_cell (k n : Z) : LeafCell := mkLeafCell [k] (Inline (zeros n)).

Definition wide_cells : list LeafCell := [wide_cell 1 16000; wide_cell 2 30000; wide_cell 3 16000].

Lemma leaf_split_total_witness :
  Forall (fun c => fits [c]) wide_cells /\ ~ fits wide_cells
  /\ exists groups, split_groups wide_cells = Ok groups /\ (2 <= length groups)%nat.
Proof.
  assert (H1 : Forall (fun c => fits [c]) wide_cells) by (repeat constructor; apply Z.leb_le; vm_compute; reflexivity).
  assert (H2 : ~ fits wide_cells) by (intros Hf%Z.leb_le; revert Hf; vm_compute; discriminate).
  split; [exact H1|]. split; [exact H2|]. destruct (leaf_split_total wide_cells H1 H2) as (g & Hg & _ & Hl & _). exists g. split; assumption.
Defined.

Example wide_cells_three_groups :
  match split_groups wide_cells with Ok gs => map (map cell_key) gs = [[[1]]; [[2]]; [[3]]] | _ => False end.
Proof. vm_compute. reflexivity. Qed.
