(* ===== verification/BTreeInsert.v ===== *)
(** * Insert keeps the tree ([storage/btree/insert.rs])

    The new cell is in its place, nothing else changes: cells, values, chains,
    separators, sibling list and pages, through leaf splits, promotions and
    root growth. *)

From stdpp Require Import gmap.
From S2P Require Import Prelude Effects Bytes BTreeMap Version Crc Page LeafNode InternalNode.
From S2P Require Import OverflowRefs Chain HistoryCodec KeyTree HistoryStore Synth PageSource PageStore OverflowChain.
From S2P Require Import BTree BTreeLists BTreeShape BTreeNodes BTreeSplit.
From Stdlib Require Import Sorted.

#[local] Open Scope Z_scope.

(** ** The leaves of a split *)

Definition chains_below (k : list Z) (ch : btmap chain) : btmap chain := List.filter (fun kc => lex_ltb (fst kc) k) ch.
Definition chains_from (k : list Z) (ch : btmap chain) : btmap chain := List.filter (fun kc => lex_leb k (fst kc)) ch.

(** A first group on [page], then separators, pages and groups *)
Fixpoint gsplit (page : Z) (group : list gcell) (rest : list (list Z * Z * list gcell)) (ch : btmap chain) : list gleaf :=
  match rest with
  | [] => [mkGLeaf page group ch]
  | (k, p, g) :: rest' => mkGLeaf page group (chains_below k ch) :: gsplit p g rest' (chains_from k ch)
  end.

Definition sep_of (x : list Z * Z * list gcell) : list Z := fst (fst x).
Definition page_of (x : list Z * Z * list gcell) : Z := snd (fst x).
Definition group_of (x : list Z * Z * list gcell) : list gcell := snd x.

Lemma gsplit_pages page group rest ch : map g_page (gsplit page group rest ch) = page :: map page_of rest.
Proof.
  revert page group ch. induction rest as [|[[k p] g] rest IH]; intros page group ch; simpl; [done|]. by rewrite IH.
Qed.

Lemma gsplit_cells page group rest ch : cells_of (gsplit page group rest ch) = group ++ concat (map group_of rest).
Proof.
  unfold cells_of. revert page group ch. induction rest as [|[[k p] g] rest IH]; intros page group ch; simpl; [done|]. by rewrite IH.
Qed.

Lemma chains_cut ch k : bt_sorted ch ->
  chains_below k ch ++ chains_from k ch = ch /\ Forall (fun kc => lex_lt (fst kc) k) (chains_below k ch)
  /\ Forall (fun kc => lex_le k (fst kc)) (chains_from k ch).
Proof.
  intros Hs. destruct (ksorted_bound fst k ch Hs) as (a & b & -> & Ha & Hb). unfold chains_below, chains_from. rewrite !List.filter_app.
  rewrite (filter_all _ a), (filter_never _ b), (filter_never _ a), (filter_all _ b), app_nil_r; [done|..].
  - eapply Forall_impl; [exact Hb|]. intros x. apply lex_leb_le.
  - eapply Forall_impl; [exact Ha|]. intros x. apply lex_leb_nle.
  - eapply Forall_impl; [exact Hb|]. intros x. apply lex_ltb_nlt.
  - eapply Forall_impl; [exact Ha|]. intros x. apply lex_ltb_lt.
Qed.

Lemma chains_cut_sorted ch k : bt_sorted ch -> bt_sorted (chains_below k ch) /\ bt_sorted (chains_from k ch).
Proof. intros Hs. destruct (chains_cut ch k Hs) as [Hc _]. rewrite <- Hc in Hs. by apply (ksorted_app fst) in Hs as (? & ? & _). Qed.

Lemma gsplit_chains rest : forall page group ch, bt_sorted ch -> chains_of (gsplit page group rest ch) = ch.
Proof.
  unfold chains_of. induction rest as [|[[k p] g] rest IH]; intros page group ch Hs; simpl; [by rewrite app_nil_r|].
  rewrite IH by (by apply chains_cut_sorted). by apply chains_cut.
Qed.

(** Where the code routes the chain of a key *)
Definition split_route (page : Z) (rest : list (list Z * Z * list gcell)) (key : list Z) : Result Z :=
  nth_page (page :: map page_of rest) (partition_point (fun sep => lex_leb sep key) (map sep_of rest)).

Lemma nth_page_in l i p : nth_page l i = Ok p -> p ∈ l.
Proof. unfold nth_page. destruct (l !! i) eqn:E; [|done]. intros [= <-]. by eapply list_elem_of_lookup_2. Qed.

Lemma split_route_cons page k p g rest key :
  split_route page ((k, p, g) :: rest) key = if lex_leb k key then split_route p rest key else Ok page.
Proof. unfold split_route. simpl. unfold sep_of at 1. simpl. by destruct (lex_leb k key). Qed.

Lemma gsplit_routed rest : forall page group ch, NoDup (page :: map page_of rest) ->
  Forall (fun L => g_chains L = List.filter (routed (split_route page rest) (g_page L)) ch) (gsplit page group rest ch).
Proof.
  induction rest as [|[[k p] g] rest IH]; intros page group ch Hnd; cbn [gsplit].
  - constructor; [|constructor]. simpl. symmetry. apply filter_all. apply Forall_forall. intros x _. unfold routed, split_route. simpl. by rewrite Z.eqb_refl.
  - cbn [map] in Hnd. unfold page_of at 1 in Hnd. cbn [fst snd] in Hnd. apply NoDup_cons in Hnd as [Hni Hnd]. constructor.
    + simpl. unfold chains_below. apply List.filter_ext. intros [key c]. unfold routed. simpl. rewrite split_route_cons.
      destruct (lex_leb k key) eqn:E.
      * rewrite (proj2 (lex_ltb_nlt key k)) by (by apply lex_leb_le). destruct (split_route p rest key) as [q| |] eqn:Eq; [|done..].
        apply nth_page_in in Eq. symmetry. apply Z.eqb_neq. by intros ->.
      * rewrite (proj2 (lex_ltb_lt key k)) by (by apply lex_leb_nle). by rewrite Z.eqb_refl.
    + specialize (IH p g (chains_from k ch) Hnd). rewrite Forall_forall in IH |- *. intros L HL. rewrite (IH L HL). unfold chains_from.
      rewrite filter_filter_and. apply List.filter_ext. intros [key c]. unfold routed. simpl. rewrite split_route_cons.
      destruct (lex_leb k key); [done|]. simpl. symmetry. apply Z.eqb_neq. intros ->. apply Hni.
      assert (Hin : g_page L ∈ map g_page (gsplit p g rest (chains_from k ch))) by (apply list_elem_of_fmap; eauto).
      by rewrite gsplit_pages in Hin.
Qed.

(** The leaves are siblings between the separators. *)
Lemma gsplit_siblings m rest : forall page group ch lo hi,
  Forall (leaf_at m) (gsplit page group rest ch) -> group <> [] ->
  Forall (fun x => exists c g, group_of x = c :: g /\ gc_key c = sep_of x) rest ->
  ksorted gc_key (group ++ concat (map group_of rest)) -> Forall (fun c => within lo hi (gc_key c)) (group ++ concat (map group_of rest)) ->
  bt_sorted ch -> Forall (fun kc => within lo hi (fst kc)) ch ->
  siblings (subtree m 0) page (map fst rest) lo hi (gsplit page group rest ch) [].
Proof.
  induction rest as [|[[k p] g] rest IH]; intros page group ch lo hi Hat Hne Hsep Hs Hw Hcs Hcw; cbn [gsplit map concat fst] in *.
  - rewrite app_nil_r in Hs, Hw. apply siblings_one. exists (mkGLeaf page group ch). apply Forall_cons in Hat as [Hat _]. done.
  - apply Forall_cons in Hat as [Hat0 Hat]. apply Forall_cons in Hsep as [(c & g' & Hg & Hk) Hsep]. cbn in Hg, Hk. subst g k.
    set (k := gc_key c) in *. set (tail := (c :: g') ++ concat (map group_of rest)) in *.
    apply ksorted_app in Hs as (Hsg & Hst & Hgt). apply Forall_app in Hw as [Hwg Hwt].
    assert (Hgk : Forall (fun x => lex_lt (gc_key x) k) group).
    { eapply Forall_impl; [exact Hgt|]. intros x Hx. unfold tail in Hx. by apply Forall_cons in Hx as [? _]. }
    assert (Htk : Forall (fun x => lex_le k (gc_key x)) tail).
    { constructor; [apply lex_le_refl|]. unfold tail in Hst. cbn [app] in Hst. apply ksorted_cons in Hst as [_ Ha].
      eapply Forall_impl; [exact Ha|]. intros x. apply lex_lt_le. }
    destruct (chains_cut ch k Hcs) as (Hcut & Hcb & Hcf). destruct (chains_cut_sorted ch k Hcs) as [Hsb Hsf].
    rewrite <- Hcut in Hcw. apply Forall_app in Hcw as [Hwb Hwf].
    assert (Hlok : strictly_above lo k /\ below hi k).
    { split.
      - destruct group as [|x group]; [done|]. apply Forall_cons in Hwg as [[Hx _] _]. apply Forall_cons in Hgk as [Hxk _]. eauto with lex.
      - unfold tail in Hwt. apply Forall_cons in Hwt as [[_ ?] _]. done. }
    apply (sib_cons _ page k p (map fst rest) lo hi [mkGLeaf page group (chains_below k ch)] [] _ []); [|apply Hlok..|].
    + exists (mkGLeaf page group (chains_below k ch)). split_and!; [done..|]. unfold leaf_within. simpl. split_and!; [done| |done|].
      * rewrite Forall_forall in Hwg, Hgk |- *. intros x Hx. split; [by apply Hwg|by apply Hgk].
      * rewrite Forall_forall in Hwb, Hcb |- *. intros x Hx. split; [by apply Hwb|by apply Hcb].
    + apply IH; try done.
      * rewrite Forall_forall in Hwt, Htk |- *. intros x Hx. split; [by apply Htk|by apply Hwt].
      * rewrite Forall_forall in Hwf, Hcf |- *. intros x Hx. split; [by apply Hcf|by apply Hwf].
Qed.

(** ** Links *)

Section Links.
Context {S : Type} `{BTreePageStoreLaws S} `{Crc32c}.

(** A write that keeps the cells changes links alone. *)
Lemma write_links s p b ch n n' u s' :
  pages_of s !! p = Some (LeafImage b ch) -> leaf_img b n -> node_wf n' -> cells n' = cells n -> write_leaf_node p n' s = (Ok u, s') ->
  same_content (pages_of s) (pages_of s') p /\ (forall q, q <> p -> pages_of s' !! q = pages_of s !! q)
  /\ (page_number p -> leaf_links (pages_of s') p (prev_leaf_page n') (next_leaf_page n')).
Proof.
  intros Hp Hi Hwf Hc Hw. destruct (write_leaf_node_spec _ _ _ _ _ _ _ Hp Hwf Hw) as (b' & Hs & Hi'). rewrite Hs. split_and!.
  - right. exists b, b', ch, n, (encoded_node n'). rewrite lookup_insert_eq. done.
  - intros q Hq. by rewrite lookup_insert_ne.
  - intros Hpn. split; [done|]. exists b', ch, (encoded_node n'). by rewrite lookup_insert_eq.
Qed.

Lemma relink_prev_spec B x y s u s' :
  linked (pages_of s) x B 0 -> NoDup B -> page_number y -> relink_prev (default 0 (head B)) y s = (Ok u, s') ->
  linked (pages_of s') y B 0 /\ (forall q, q ∉ B -> pages_of s' !! q = pages_of s !! q)
  /\ (forall q, same_content (pages_of s) (pages_of s') q).
Proof.
  intros Hl Hnd Hy Hr. destruct B as [|p B]; simpl in *; [injection Hr as <- <-; split_and!; [done..|]; intros; apply same_content_refl|].
  destruct Hl as [(Hp & b & ch & n & Hm & Hi & <- & Hn) Hl]. apply NoDup_cons in Hnd as [Hni Hnd]. unfold relink_prev in Hr.
  rewrite (proj2 (Z.eqb_neq p 0)) in Hr by (unfold page_number in Hp; lia). st_inv Hr. apply st_read_inv in Ha as [Ha ->].
  rewrite (read_leaf_node_at _ _ _ _ _ Hm Hi) in Ha. injection Ha as <-. pose proof (img_wf _ _ Hi) as (? & ? & ? & ?).
  destruct (write_links _ _ _ _ n (set_prev y n) u s' Hm Hi) as (Hsc & Ho & Hlk); [apply node_wf_mk; auto|done|exact Hr|].
  split; [|split].
  - split; [|eapply linked_eq; [|exact Hl]; intros q Hq; apply Ho; by intros ->]. specialize (Hlk Hp). simpl in Hlk. rewrite Hn in Hlk. done.
  - intros q [Hq _]%not_elem_of_cons. by apply Ho.
  - intros q. destruct (decide (q = p)) as [->|Hq]; [done|left; by apply Ho].
Qed.

Lemma relink_next_spec A x y s u s' :
  linked (pages_of s) 0 A x -> NoDup A -> page_number y -> relink_next (default 0 (last A)) y s = (Ok u, s') ->
  linked (pages_of s') 0 A y /\ (forall q, q ∉ A -> pages_of s' !! q = pages_of s !! q)
  /\ (forall q, same_content (pages_of s) (pages_of s') q).
Proof.
  intros Hl Hnd Hy Hr. destruct (last A) as [p|] eqn:E; [|apply last_None in E; subst; injection Hr as <- <-; split_and!; [done..|]; intros; apply same_content_refl].
  apply last_Some in E as [A' ->]. apply links_app in Hl as [Hl Hp]. apply NoDup_app in Hnd as (Hnd & Hni & _). simpl in Hl, Hp, Hr.
  destruct Hp as [(Hp & b & ch & n & Hm & Hi & Hpv & Hn) _]. unfold relink_next in Hr.
  rewrite (proj2 (Z.eqb_neq p 0)) in Hr by (unfold page_number in Hp; lia). st_inv Hr. apply st_read_inv in Ha as [Ha ->].
  rewrite (read_leaf_node_at _ _ _ _ _ Hm Hi) in Ha. injection Ha as <-. pose proof (img_wf _ _ Hi) as (? & ? & ? & ?).
  destruct (write_links _ _ _ _ n (set_next y n) u s' Hm Hi) as (Hsc & Ho & Hlk); [apply node_wf_mk; auto|done|exact Hr|].
  split; [|split].
  - apply links_app. simpl. split; [|split; [|done]].
    + eapply linked_eq; [|exact Hl]. intros q Hq. apply Ho. intros ->. apply (Hni p Hq). set_solver.
    + specialize (Hlk Hp). simpl in Hlk. rewrite Hpv in Hlk. done.
  - intros q Hq. apply Ho. set_solver.
  - intros q. destruct (decide (q = p)) as [->|Hq]; [done|left; by apply Ho].
Qed.

(** The page of a group: its cells, with the chains it had *)
Definition group_written (m m' : page_map) (cs : list LeafCell) (p : Z) : Prop :=
  exists b b' ch n, m !! p = Some (LeafImage b ch) /\ m' !! p = Some (LeafImage b' ch) /\ leaf_img b' n /\ cells n = cs.

Lemma write_right_groups_spec groups : forall prev pages old_next s u s',
  write_right_groups groups prev pages old_next s = (Ok u, s') -> length groups = length pages -> NoDup pages ->
  Forall page_number pages -> is_u32 prev -> is_u32 old_next -> Forall (Forall cell_ok) groups ->
  (forall p, p ∈ pages -> exists b ch, pages_of s !! p = Some (LeafImage b ch)) ->
  Forall2 (group_written (pages_of s) (pages_of s')) groups pages /\ linked (pages_of s') prev pages old_next
  /\ (forall q, q ∉ pages -> pages_of s' !! q = pages_of s !! q).
Proof.
  induction groups as [|cs groups IH]; intros prev [|p pages] old_next s u s' Hw Hlen Hnd Hpn Hprev Hold Hok Hex; try done.
  - injection Hw as <- <-. split_and!; [constructor|done|done].
  - cbn [write_right_groups] in Hw. st_inv Hw. apply NoDup_cons in Hnd as [Hni Hnd]. apply Forall_cons in Hpn as [Hp Hpn].
    apply Forall_cons in Hok as [Hcs Hok]. destruct (Hex p) as (b & ch & Hm); [set_solver|].
    assert (Hwf : node_wf (mkLeafNode 0 (default old_next (head pages)) prev cs)).
    { apply node_wf_mk; [by unfold is_u|destruct pages as [|q pages]; simpl; [done|]|done|done].
      apply Forall_cons in Hpn as [? _]. by apply page_number_u32. }
    destruct (write_leaf_node_spec _ _ _ _ _ _ _ Hm Hwf Ha) as (b' & Hs & Hi).
    assert (Hsame : forall q, q <> p -> pages_of w !! q = pages_of s !! q) by (intros q Hq; by rewrite Hs, lookup_insert_ne).
    destruct (IH _ _ _ _ _ _ Hw) as (Hg & Hl & Ho); [by injection Hlen|done|done|by apply page_number_u32|done|done| |].
    { intros q Hq. rewrite Hsame by (by intros ->). apply Hex. set_solver. }
    assert (Hp' : pages_of s' !! p = Some (LeafImage b' ch)) by (by rewrite Ho, Hs, lookup_insert_eq). split; [|split].
    + constructor; [exists b, b', ch, (encoded_node (mkLeafNode 0 (default old_next (head pages)) prev cs)); done|].
      apply Forall2_same_length_lookup. split; [by injection Hlen|]. intros i x q Hx Hq. pose proof (list_elem_of_lookup_2 _ _ _ Hq) as Hin.
      destruct (Forall2_lookup_lr _ _ _ _ _ _ Hg Hx Hq) as (b1 & b1' & ch1 & n1 & Hb1 & Hrest). exists b1, b1', ch1, n1. split; [|exact Hrest].
      rewrite <- Hb1. symmetry. apply Hsame. by intros ->.
    + split; [|done]. split; [done|]. exists b', ch, (encoded_node (mkLeafNode 0 (default old_next (head pages)) prev cs)). done.
    + intros q [Hq1 Hq2]%not_elem_of_cons. rewrite Ho by done. by apply Hsame.
Qed.
End Links.

(** ** Splitting a leaf *)

Definition split_pair (sr : SplitResult) : list Z * Z := (promoted_key sr, right_page sr).

Lemma concat_map_inv {A B} (f : A -> B) groups : forall l, concat groups = map f l ->
  exists gs, concat gs = l /\ groups = map (map f) gs.
Proof.
  induction groups as [|g groups IH]; intros l Hl; simpl in Hl; [by destruct l; [exists []|]|].
  symmetry in Hl. apply map_eq_app in Hl as (l1 & l2 & -> & <- & Hl2). destruct (IH l2) as (gs & <- & ->); [done|]. by exists (l1 :: gs).
Qed.

Lemma first_keys_spec groups : forall ks, first_keys groups = Ok ks ->
  Forall2 (fun g k => exists c rest, g = c :: rest /\ cell_key c = k) groups ks.
Proof.
  induction groups as [|[|c g] groups IH]; intros ks Hk; simpl in Hk; [injection Hk as <-; constructor|done|].
  apply bind_Ok_inv in Hk as (ks' & Hks & [= <-]). constructor; [by exists c, g|by apply IH].
Qed.

(** Separators, pages and groups, in one list *)
Fixpoint zip3 (seps : list (list Z)) (pages : list Z) (groups : list (list gcell)) : list (list Z * Z * list gcell) :=
  match seps, pages, groups with
  | k :: seps', p :: pages', g :: groups' => (k, p, g) :: zip3 seps' pages' groups'
  | _, _, _ => []
  end.

Lemma zip3_maps seps : forall pages groups, length pages = length seps -> length groups = length seps ->
  map sep_of (zip3 seps pages groups) = seps /\ map page_of (zip3 seps pages groups) = pages
  /\ map group_of (zip3 seps pages groups) = groups
  /\ map split_pair (zip_with mkSplit seps pages) = map fst (zip3 seps pages groups).
Proof.
  induction seps as [|k seps IH]; intros [|p pages] [|g groups] H1 H2; try done. simpl in *.
  destruct (IH pages groups) as (E1 & E2 & E3 & E4); [lia..|]. by rewrite E1, E2, E3, E4.
Qed.

Lemma chain_at_in_use m pages : forall cur data p, chain_at m pages cur data -> p ∈ pages -> is_Some (m !! p).
Proof.
  induction pages as [|q pages IH]; intros cur data p Hc Hp; [set_solver|].
  destruct Hc as (_ & _ & next & d & tail & (b & ch & hdr & Hm & _) & Hc & _). apply elem_of_cons in Hp as [->|Hp]; [by rewrite Hm|by eapply IH].
Qed.

Lemma overflow_in_use m cs p : Forall (gcell_at m) cs -> p ∈ overflow_of cs -> is_Some (m !! p).
Proof.
  unfold overflow_of. induction 1 as [|c cs Hc Hcs IH]; simpl; [set_solver|]. intros [Hp|Hp]%elem_of_app; [|by apply IH].
  unfold gcell_at in Hc. destruct (cell_val (gc_cell c)).
  - destruct Hc as (_ & E & _). rewrite E in Hp. set_solver.
  - destruct Hc as (Hc & _). by eapply chain_at_in_use.
Qed.

Section Split.
Context {S : Type} `{BTreePageStoreLaws S} `{Crc32c}.

Lemma partition_chains_spec left_page rest b0 ch s u s' :
  pages_of s !! left_page = Some (LeafImage b0 ch) -> bt_sorted ch -> NoDup (left_page :: map page_of rest) ->
  (forall p, p ∈ map page_of rest -> exists b, pages_of s !! p = Some (LeafImage b [])) ->
  partition_chains_for_split left_page (left_page :: map page_of rest) (map sep_of rest) s = (Ok u, s') ->
  (forall p, p ∈ left_page :: map page_of rest ->
     exists b, pages_of s' !! p = Some (LeafImage b (List.filter (routed (split_route left_page rest) p) ch)))
  /\ (forall q, q ∉ left_page :: map page_of rest -> pages_of s' !! q = pages_of s !! q).
Proof.
  intros Hm Hs Hnd Hex Hp. unfold partition_chains_for_split in Hp. st_inv Hp.
  destruct (drain_chains_spec _ _ _ _ _ _ Hm Ha) as [-> Hw]. apply NoDup_cons in Hnd as [Hni Hnd].
  assert (Hall : forall p, p ∈ left_page :: map page_of rest -> exists b, pages_of w !! p = Some (LeafImage b [])).
  { intros p [->|Hin]%elem_of_cons; rewrite Hw; [rewrite lookup_insert_eq; eauto|]. rewrite lookup_insert_ne by (by intros ->). by apply Hex. }
  assert (Hr : forall q, pages_of s' !! q = with_more_chains (List.filter (routed (split_route left_page rest) q) ch) <$> (pages_of w !! q)).
  { apply (rehome_spec _ _ _ _ _ Hp). intros k pg Hk. apply nth_page_in, Hall in Hk as [b Hb]. eauto. }
  split.
  - intros p Hin. rewrite Hr. destruct (Hall p Hin) as [b ->]. exists b. simpl. rewrite bt_insert_all_above; [done|].
    by apply (ksorted_filter fst).
  - intros q Hq. apply not_elem_of_cons in Hq as [Hq1 Hq2]. rewrite Hr, Hw, lookup_insert_ne by done.
    destruct (pages_of s !! q) as [img|]; [|done].
    assert (Hnone : List.filter (routed (split_route left_page rest) q) ch = []).
    { apply filter_never, Forall_forall. intros x _. unfold routed. destruct (split_route left_page rest (fst x)) as [p| |] eqn:E; [|done..].
      apply nth_page_in in E. apply Z.eqb_neq. intros ->. set_solver. }
    rewrite Hnone. by destruct img.
Qed.

Lemma gsplit_members rest : forall page group ch L, L ∈ gsplit page group rest ch ->
  (g_page L = page /\ g_cells L = group) \/ exists x, x ∈ rest /\ g_page L = page_of x /\ g_cells L = group_of x.
Proof.
  induction rest as [|[[k p] g] rest IH]; intros page group ch L; cbn [gsplit].
  - intros ->%list_elem_of_singleton. by left.
  - intros [->|HL]%elem_of_cons; [by left|]. right. apply IH in HL as [[E1 E2]|(x & Hx & E1 & E2)]; [exists (k, p, g)|exists x]; (split_and!; [|done..]); set_solver.
Qed.

Lemma rest_written (P : list LeafCell -> Z -> Prop) (rest : list (list Z * Z * list gcell)) :
  Forall2 P (map (map gc_cell) (map group_of rest)) (map page_of rest) ->
  Forall (fun x => P (map gc_cell (group_of x)) (page_of x)) rest.
Proof. induction rest as [|x rest IH]; simpl; intros HP; inv HP; constructor; [done|by apply IH]. Qed.

Lemma zip3_seps pages : forall seps gs,
  Forall2 (fun g k => exists c rest, g = c :: rest /\ cell_key c = k) (map (map gc_cell) gs) seps ->
  Forall (fun x => exists c g, group_of x = c :: g /\ gc_key c = sep_of x) (zip3 seps pages gs).
Proof.
  induction pages as [|p pages IH]; intros [|k seps] [|g gs] HP; simpl; try constructor; inv HP; [|by apply IH].
  match goal with H : exists _ _, _ |- _ => destruct H as (c & r & Hg & Hk) end. destruct g as [|x g]; [done|]. injection Hg as <- <-. by exists x, g.
Qed.

Lemma NoDup_app_not {A} (l k : list A) x : NoDup (l ++ k) -> x ∈ l -> x ∉ k.
Proof. intros (_ & Hn & _)%NoDup_app Hx. by apply Hn. Qed.

Lemma NoDup_mid {A} (l k : list A) x : NoDup (l ++ x :: k) -> NoDup l /\ NoDup k /\ (x ∉ l) /\ (x ∉ k) /\ (forall y, y ∈ l -> y ∉ k).
Proof.
  intros (Hl & Hlk & Hk)%NoDup_app. apply NoDup_cons in Hk as [Hx Hk]. split_and!; try done.
  - intros Hin. apply (Hlk _ Hin). set_solver.
  - intros y Hy Hy2. apply (Hlk _ Hy). set_solver.
Qed.

(** What a split of the leaf at [page] leaves on the pages *)
Definition split_done (m m' : page_map) (page : Z) (ch : btmap chain) (group0 : list gcell) (rest : list (list Z * Z * list gcell))
  (A B : list Z) : Prop :=
  NoDup (map page_of rest) /\ Forall (fun p => page_number p /\ m !! p = None) (map page_of rest)
  /\ (exists b n, m' !! page = Some (LeafImage b (List.filter (routed (split_route page rest) page) ch)) /\ leaf_img b n /\ cells n = map gc_cell group0)
  /\ Forall (fun x => exists b n, m' !! page_of x = Some (LeafImage b (List.filter (routed (split_route page rest) (page_of x)) ch))
       /\ leaf_img b n /\ cells n = map gc_cell (group_of x)) rest
  /\ linked m' 0 (A ++ (page :: map page_of rest) ++ B) 0
  /\ frame m m' (page :: map page_of rest) (A ++ B).

Lemma split_pages_run s s1 s2 s3 s4 s' page node b0 ch A B g0 rest nx u1 u2 u4 u5 :
  pages_of s !! page = Some (LeafImage b0 ch) -> leaf_img b0 node -> bt_sorted ch ->
  Forall cell_ok (map gc_cell g0) -> Forall (fun x => Forall cell_ok (map gc_cell (group_of x))) rest ->
  linked (pages_of s) 0 (A ++ page :: B) 0 -> NoDup (A ++ page :: B) ->
  NoDup (map page_of rest) -> Forall (fun p => page_number p /\ pages_of s !! p = None) (map page_of rest) ->
  (forall p, p ∈ map page_of rest -> exists b, pages_of s1 !! p = Some (LeafImage b [])) ->
  (forall q, q ∉ map page_of rest -> pages_of s1 !! q = pages_of s !! q) ->
  partition_chains_for_split page (page :: map page_of rest) (map sep_of rest) s1 = (Ok u1, s2) ->
  relink_prev (next_leaf_page node) (default page (last (map page_of rest))) s2 = (Ok u2, s3) ->
  nth_page (map page_of rest) 0 = Ok nx ->
  write_leaf_node page (set_next nx (set_cells (map gc_cell g0) node)) s3 = (Ok u4, s4) ->
  write_right_groups (map (map gc_cell) (map group_of rest)) page (map page_of rest) (next_leaf_page node) s4 = (Ok u5, s') ->
  split_done (pages_of s) (pages_of s') page ch g0 rest A B.
Proof.
  intros Hm Hi Hch Hok0 Hokr Hl Hnd Hndr Hfresh Himg Hsame1 Hp Hr Hnx Hw0 Hwr. set (rp := map page_of rest) in *.
  assert (Hin_use : forall q, q ∈ A ++ page :: B -> q ∉ rp).
  { intros q Hq Hq2. destruct (linked_leaf_page _ _ _ _ _ Hl Hq) as (b & c & n & Hmq & _).
    rewrite Forall_forall in Hfresh. destruct (Hfresh q Hq2) as [_ Hn]. by rewrite Hmq in Hn. }
  assert (Hpage : page ∉ rp) by (apply Hin_use; set_solver).
  apply links_app in Hl as [HlA [Hlp HlB]]. destruct Hlp as (Hpn & b0' & ch' & n0 & Hm' & Hi' & Hpv & Hnn). rewrite Hm in Hm'. injection Hm' as <- <-.
  assert (n0 = node) as -> by (pose proof (img_parse _ _ Hi); pose proof (img_parse _ _ Hi'); congruence).
  destruct (NoDup_mid _ _ _ Hnd) as (_ & HndB & HpA & HpB & HAB).
  destruct (partition_chains_spec page rest b0 ch s1 u1 s2) as [Hp1 Hp2]; [by rewrite Hsame1|done|by constructor|done|exact Hp|]. fold rp in Hp1, Hp2.
  assert (Hold : forall q, q ∈ A ++ B -> pages_of s2 !! q = pages_of s !! q).
  { intros q Hq. assert (q <> page) by (intros ->; set_solver). assert (q ∉ rp) by (apply Hin_use; set_solver). rewrite Hp2 by set_solver. by apply Hsame1. }
  assert (Hrpn : Forall page_number rp) by (eapply Forall_impl; [exact Hfresh|]; by intros q [? _]).
  destruct (relink_prev_spec B page (default page (last rp)) s2 u2 s3) as (Hb1 & Hb2 & Hb3).
  { eapply linked_eq; [|exact HlB]. intros q Hq. apply Hold. set_solver. }
  { exact HndB. }
  { destruct (last rp) eqn:E; [|done]. rewrite Forall_forall in Hrpn. apply Hrpn. by apply last_Some_elem_of. }
  { rewrite <- Hnn. exact Hr. }
  destruct (Hp1 page) as [bp Hbp]; [set_solver|]. pose proof (img_wf _ _ Hi) as (Hwf1 & Hwf2 & Hwf3 & _).
  assert (Hwf : node_wf (set_next nx (set_cells (map gc_cell g0) node))).
  { apply node_wf_mk; [done| |done|done]. apply nth_page_in in Hnx. rewrite Forall_forall in Hrpn. auto. }
  destruct (write_leaf_node_spec s3 page bp (List.filter (routed (split_route page rest) page) ch) (set_next nx (set_cells (map gc_cell g0) node)) u4 s4) as (b4 & Hs4 & Hi4);
    [by rewrite Hb2|exact Hwf|exact Hw0|].
  destruct (write_right_groups_spec _ _ _ _ _ _ _ Hwr) as (Hg1 & Hg2 & Hg3).
  { unfold rp. by rewrite !length_map. }
  { exact Hndr. }
  { exact Hrpn. }
  { auto. }
  { done. }
  { rewrite Forall_map, Forall_map. exact Hokr. }
  { intros q Hq. destruct (Hp1 q) as [bq Hbq]; [set_solver|]. assert (q ∉ B) by (intros HqB; apply (Hin_use q); set_solver).
    rewrite Hs4, lookup_insert_ne by (by intros ->). rewrite Hb2 by done. eauto. }
  assert (Hs4' : forall q, q <> page -> pages_of s4 !! q = pages_of s3 !! q) by (intros q Hq; by rewrite Hs4, lookup_insert_ne).
  assert (Hpg' : pages_of s' !! page = Some (LeafImage b4 (List.filter (routed (split_route page rest) page) ch)))
    by (rewrite Hg3 by done; rewrite Hs4; apply lookup_insert_eq).
  split_and!; [exact Hndr|exact Hfresh|eauto 6| | |].
  - apply Forall_forall. intros x Hx. assert (Hxr : page_of x ∈ rp) by (unfold rp; apply list_elem_of_fmap; eauto).
    assert (HxB : page_of x ∉ B) by (intros HqB; apply (Hin_use (page_of x)); set_solver).
    apply rest_written in Hg1. rewrite Forall_forall in Hg1. destruct (Hg1 x Hx) as (bx & bx' & chx & nx' & Hx1 & Hx2 & Hx3 & Hx4).
    exists bx', nx'. split; [|done]. rewrite Hx2. f_equal. f_equal. destruct (Hp1 (page_of x)) as [bq Hbq]; [set_solver|].
    assert (page_of x <> page) by (intros E; by rewrite E in Hxr). rewrite Hs4', Hb2, Hbq in Hx1 by done. by injection Hx1.
  - change ((page :: rp) ++ B) with (page :: rp ++ B). apply links_app. simpl. split; [|split].
    + eapply linked_eq; [|exact HlA]. intros q Hq. assert (q <> page) by (by intros ->). assert (q ∉ rp) by (apply Hin_use; set_solver).
      rewrite Hg3, Hs4', Hb2 by (done || by apply HAB). apply Hold. set_solver.
    + split; [exact Hpn|]. exists b4, (List.filter (routed (split_route page rest) page) ch), (encoded_node (set_next nx (set_cells (map gc_cell g0) node))).
      split_and!; [done..|]. simpl. fold rp. unfold nth_page in Hnx. clearbody rp. destruct rp as [|p0 rp0]; [done|]. by injection Hnx.
    + apply links_app. rewrite <- Hnn. split; [exact Hg2|]. eapply linked_eq; [|exact Hb1]. intros q Hq. assert (q <> page) by (by intros ->).
      assert (q ∉ rp) by (apply Hin_use; set_solver). by rewrite Hg3, Hs4' by done.
  - intros q [Hq1 Hq2]%not_elem_of_cons. split.
    + eapply same_content_trans; [|apply same_content_eq; by rewrite Hg3, Hs4' by done].
      eapply same_content_trans; [|apply Hb3]. apply same_content_eq. rewrite Hp2 by set_solver. by apply Hsame1.
    + intros [_ HqB]%not_elem_of_app. rewrite Hg3, Hs4', Hb2 by done. rewrite Hp2 by set_solver. by apply Hsame1.
Qed.

Lemma split_leaf_run s page node b0 ch A B pos new_cell splits s' gcs :
  pages_of s !! page = Some (LeafImage b0 ch) -> leaf_img b0 node -> bt_sorted ch ->
  insert_at pos new_cell (cells node) = map gc_cell gcs -> Forall cell_ok (map gc_cell gcs) ->
  linked (pages_of s) 0 (A ++ page :: B) 0 -> NoDup (A ++ page :: B) ->
  split_leaf page node pos new_cell s = (Ok splits, s') ->
  exists group0 rest, map split_pair splits = map fst rest /\ gcs = group0 ++ concat (map group_of rest) /\ group0 <> [] /\ rest <> []
    /\ Forall (fun x => exists c g, group_of x = c :: g /\ gc_key c = sep_of x) rest
    /\ split_done (pages_of s) (pages_of s') page ch group0 rest A B.
Proof.
  intros Hm Hi Hch Hins Hok Hl Hnd Hsp. unfold split_leaf in Hsp. rewrite Hins in Hsp. cbv zeta in Hsp. st_inv Hsp.
  apply st_lift_inv in Ha as [Hg ->]. destruct (split_groups_spec _ _ Hg) as [Hcat Hgok].
  destruct (concat_map_inv gc_cell _ _ Hcat) as ([|g0 gs] & <- & ->); [done|]. cbn [map] in Hsp. st_inv Hsp.
  rename a into rp, w into s1. apply alloc_leaves_spec in Ha as (Hlen & Hndr & Hfresh & Himg & Hsame1).
  apply st_lift_inv in Ha0 as [Hk ->]. rename a0 into seps. pose proof (first_keys_spec _ _ Hk) as Hseps.
  pose proof (Forall2_length _ _ _ Hseps) as Hls. rewrite !length_map in *. set (rest := zip3 seps rp gs).
  destruct (zip3_maps seps rp gs) as (E1 & E2 & E3 & E4); [lia..|]. fold rest in E1, E2, E3, E4.
  apply st_lift_inv in Ha3 as [Hnx ->]. exists g0, rest. apply Forall_cons in Hgok as [[Hg0 _] _]. cbn [concat] in Hok. rewrite map_app in Hok.
  apply Forall_app in Hok as [Hok0 Hokr]. pose proof (zip3_seps rp seps gs Hseps) as Hz. fold rest in Hz. clearbody rest. subst rp seps gs.
  split; [exact E4|]. split; [reflexivity|]. split; [intros ->; by apply Hg0|].
  split; [intros ->; done|]. split; [exact Hz|].
  eapply split_pages_run; [exact Hm|exact Hi|exact Hch|exact Hok0| |exact Hl|exact Hnd|exact Hndr|exact Hfresh|exact Himg|exact Hsame1|exact Ha1|exact Ha2|exact Hnx|exact Ha4|exact Ha5].
  clear -Hokr. induction rest as [|x r IH]; constructor; simpl in Hokr; rewrite map_app in Hokr; apply Forall_app in Hokr as [? ?]; auto.
Qed.
End Split.

(** ** Insert into a subtree *)

(** What insertion of the cell [gc] leaves of the subtree at [page] and of the
    list of leaves around it *)
Definition inserted (m m' : page_map) (l : nat) (page : Z) (lo hi : option (list Z)) (gc : gcell) (ls : list gleaf) (ps A B : list Z)
  (splits : list SplitResult) : Prop :=
  Forall (fun c => gc_key c <> gc_key gc) (cells_of ls)
  /\ exists ls' ps' news, siblings (subtree m' l) page (map split_pair splits) lo hi ls' ps'
       /\ cells_of ls' = kins gc_key gc (cells_of ls) /\ chains_of ls' = chains_of ls
       /\ nodes ls' ps' ≡ₚ news ++ nodes ls ps /\ NoDup news /\ Forall (fun p => page_number p /\ m !! p = None) news
       /\ linked m' 0 (A ++ map g_page ls' ++ B) 0
       /\ frame m m' (news ++ nodes ls ps) (A ++ B).

Section Subtree.
Context {S : Type} `{BTreePageStoreLaws S} `{Crc32c}.

Lemma cells_binary_search gcs node key : cells node = map gc_cell gcs -> ksorted gc_key gcs ->
  match binary_search node key with
  | Found j => exists a c b, gcs = a ++ c :: b /\ j = length a /\ gc_key c = key
  | Missing j => exists a b, gcs = a ++ b /\ j = length a /\ all_below gc_key key a /\ all_above gc_key key b
  end.
Proof.
  intros Hc Hs. apply ksorted_gcells in Hs. unfold binary_search. rewrite Hc. pose proof (binary_search_cases _ key Hs 0) as Hb.
  destruct (binary_search_from (map gc_cell gcs) 0 key).
  - destruct Hb as (a & c & b & Hg & -> & Hk). apply map_eq_app in Hg as (a' & b' & -> & <- & Hg). destruct b' as [|c' b']; [done|].
    injection Hg as <- <-. exists a', c', b'. rewrite length_map. done.
  - destruct Hb as (a & b & Hg & -> & Ha & Hb). apply map_eq_app in Hg as (a' & b' & -> & <- & <-). exists a', b'. rewrite length_map.
    unfold all_below, all_above in *. rewrite Forall_fmap in Ha, Hb. done.
Qed.

Lemma insert_at_map {A B} (f : A -> B) a x b : insert_at (length a) (f x) (map f (a ++ b)) = map f (a ++ x :: b).
Proof. rewrite !map_app. rewrite <- (length_map f a). apply insert_at_length. Qed.

Lemma split_done_inserted m m' L lo hi gc a c A B splits g0 rest :
  is_Some (m !! g_page L) -> page_number (g_page L) -> g_cells L = a ++ c -> leaf_within lo hi L ->
  all_below gc_key (gc_key gc) a -> all_above gc_key (gc_key gc) c -> within lo hi (gc_key gc) ->
  Forall (gcell_at m) (a ++ gc :: c) -> g_page L ∉ overflow_of (a ++ gc :: c) ->
  a ++ gc :: c = g0 ++ concat (map group_of rest) -> g0 <> [] -> map split_pair splits = map fst rest ->
  Forall (fun x => exists c g, group_of x = c :: g /\ gc_key c = sep_of x) rest ->
  split_done m m' (g_page L) (g_chains L) g0 rest A B ->
  inserted m m' 0 (g_page L) lo hi gc [L] [] A B splits.
Proof.
  intros Hm Hpn Hac (Hks & Hkw & Hcs & Hcw) Hak Hck Hw Hat Hov Hcat Hg0 Hsp Hsep (Hndr & Hfresh & (b & n & Hb & Hi & Hn) & Hrest & Hl & Hframe).
  set (page := g_page L) in *. set (pages := map page_of rest) in *.
  assert (Hpage : page ∉ pages).
  { intros Hin. rewrite Forall_forall in Hfresh. destruct (Hfresh _ Hin) as [_ Hnone]. rewrite Hnone in Hm. by destruct Hm. }
  assert (Hat' : Forall (gcell_at m') (a ++ gc :: c)).
  { eapply gcells_at_content; [|exact Hat]. intros q Hq. apply Hframe. apply not_elem_of_cons. split; [by intros ->|].
    intros Hin. rewrite Forall_forall in Hfresh. destruct (Hfresh _ Hin) as [_ Hnone]. destruct (overflow_in_use _ _ _ Hat Hq) as [x Hx]. by rewrite Hx in Hnone. }
  set (ls' := gsplit page g0 rest (g_chains L)).
  assert (Hleaves : Forall (leaf_at m') ls').
  { apply Forall_forall. intros L' HL'. pose proof (gsplit_routed rest page g0 (g_chains L)) as Hr. rewrite Forall_forall in Hr.
    specialize (Hr ltac:(by constructor) _ HL'). rewrite Hcat in Hat'. apply Forall_app in Hat' as [Hat0 Hatr].
    destruct (gsplit_members _ _ _ _ _ HL') as [[E1 E2]|(x & Hx & E1 & E2)]; unfold leaf_at; rewrite Hr, E1, E2.
    - split; [done|]. split; [|done]. exists b, n. done.
    - rewrite Forall_forall in Hrest. destruct (Hrest x Hx) as (bx & nx & Hbx & Hix & Hnx). assert (Hxp : page_of x ∈ pages) by (unfold pages; apply list_elem_of_fmap; eauto).
      split; [|split; [exists bx, nx; done|]].
      + rewrite Forall_forall in Hfresh. by destruct (Hfresh _ Hxp).
      + rewrite Forall_forall in Hatr |- *. intros y Hy. apply Hatr. apply elem_of_concat_map. eauto. }
  assert (Hsorted : ksorted gc_key (a ++ gc :: c)) by (apply ksorted_mid; rewrite Hac in Hks; done).
  assert (Hwithin : Forall (fun c => within lo hi (gc_key c)) (a ++ gc :: c)).
  { rewrite Hac in Hkw. apply Forall_app in Hkw as [? ?]. apply Forall_app. split; [done|]. by constructor. }
  assert (Hcells : cells_of [L] = a ++ c) by (unfold cells_of; simpl; by rewrite app_nil_r).
  split; [rewrite Hcells; apply Forall_app; split; [by apply all_below_ne|by apply all_above_ne]|].
  exists ls', [], pages. unfold ls'. split; [|split; [|split; [|split; [|split; [exact Hndr|split; [exact Hfresh|split]]]]]].
  - rewrite Hsp. rewrite Hcat in Hsorted, Hwithin. by apply gsplit_siblings.
  - by rewrite gsplit_cells, <- Hcat, Hcells, kins_below.
  - rewrite gsplit_chains by done. unfold chains_of. simpl. by rewrite app_nil_r.
  - unfold nodes. rewrite gsplit_pages. simpl. fold page. fold pages. solve_Permutation.
  - rewrite gsplit_pages. exact Hl.
  - intros q Hq. apply Hframe. unfold nodes in Hq. simpl in Hq. fold page pages in Hq |- *. set_solver.
Qed.

(** New cells on a leaf page: the links stay. *)
Lemma write_cells_spec s page b ch node cs u s' A B :
  pages_of s !! page = Some (LeafImage b ch) -> leaf_img b node -> Forall cell_ok cs ->
  linked (pages_of s) 0 (A ++ page :: B) 0 -> NoDup (A ++ page :: B) ->
  write_leaf_node page (set_cells cs node) s = (Ok u, s') ->
  exists b' n', pages_of s' = <[page := LeafImage b' ch]> (pages_of s) /\ leaf_img b' n' /\ cells n' = cs
    /\ prev_leaf_page n' = prev_leaf_page node /\ next_leaf_page n' = next_leaf_page node
    /\ linked (pages_of s') 0 (A ++ page :: B) 0.
Proof.
  intros Hm Hi Hok Hl Hnd Hw. pose proof (img_wf _ _ Hi) as (Hw1 & Hw2 & Hw3 & _).
  destruct (write_leaf_node_spec _ _ _ _ _ _ _ Hm (node_wf_mk _ _ _ cs Hw1 Hw2 Hw3 Hok) Hw) as (b' & Hs & Hi').
  exists b', (encoded_node (set_cells cs node)). split; [exact Hs|]. split; [exact Hi'|]. do 3 (split; [reflexivity|]). rewrite Hs.
  destruct (NoDup_mid _ _ _ Hnd) as (_ & _ & HA & HB & _). apply links_app in Hl as [HlA [(Hpn & b1 & ch1 & n1 & Hm1 & Hi1 & Hp1 & Hn1) HlB]].
  rewrite Hm in Hm1. injection Hm1 as <- <-. assert (n1 = node) as -> by (pose proof (img_parse _ _ Hi); pose proof (img_parse _ _ Hi1); congruence).
  apply links_app. split; [|split].
  - eapply linked_eq; [|exact HlA]. intros q Hq. rewrite lookup_insert_ne; [done|]. by intros ->.
  - split; [done|]. exists b', ch, (encoded_node (set_cells cs node)). by rewrite lookup_insert_eq.
  - eapply linked_eq; [|exact HlB]. intros q Hq. rewrite lookup_insert_ne; [done|]. by intros ->.
Qed.

Lemma insert_leaf_spec s page lo hi gc ls ps A B splits s' :
  subtree (pages_of s) 0 page lo hi ls ps -> NoDup (footprint ls ps ++ gc_pages gc) ->
  gcell_at (pages_of s) gc -> within lo hi (gc_key gc) ->
  linked (pages_of s) 0 (A ++ map g_page ls ++ B) 0 -> NoDup (A ++ map g_page ls ++ B) ->
  insert_leaf page (gc_key gc) (cell_val (gc_cell gc)) s = (Ok splits, s') ->
  inserted (pages_of s) (pages_of s') 0 page lo hi gc ls ps A B splits.
Proof.
  intros (L & -> & -> & <- & (Hpn & (b0 & node & Hm & Hi & Hc) & Hcells) & (Hks & Hkw & Hcs & Hcw)) Hfp Hgc Hw Hl Hnd Hins.
  cbn [map app] in Hl, Hnd. unfold insert_leaf in Hins. st_inv Hins. apply st_read_inv in Ha as [Ha ->].
  rewrite (read_leaf_node_at _ _ _ _ _ Hm Hi) in Ha. injection Ha as <-. pose proof (cells_binary_search _ _ (gc_key gc) Hc Hks) as Hbs.
  destruct (binary_search node (gc_key gc)) as [j|j]; [done|]. destruct Hbs as (a & c & Hac & -> & Hak & Hck).
  replace (mkLeafCell (gc_key gc) (cell_val (gc_cell gc))) with (gc_cell gc) in Hins by (by destruct gc as [[]]).
  assert (Hat : Forall (gcell_at (pages_of s)) (a ++ gc :: c)) by (rewrite Hac in Hcells; apply Forall_app in Hcells as [? ?]; apply Forall_app; by split; [|constructor]).
  assert (Hov : g_page L ∉ overflow_of (a ++ gc :: c)).
  { unfold footprint, nodes, cells_of in Hfp. simpl in Hfp. apply NoDup_cons in Hfp as [Hni _]. rewrite app_nil_r, Hac, overflow_of_app in Hni.
    rewrite overflow_of_app. unfold overflow_of in *. simpl. set_solver. }
  rewrite Hc, Hac, insert_at_map in Hins. pose proof (gcells_ok _ _ Hat) as Hok.
  destruct (can_insert node (cell_encoded_size (gc_cell gc))).
  - st_inv Hins. destruct (write_cells_spec _ _ _ _ _ _ _ _ _ _ Hm Hi Hok Hl Hnd Ha) as (b' & n' & Hs & Hi' & Hc' & _ & _ & Hl').
    apply (split_done_inserted _ _ L lo hi gc a c A B [] (a ++ gc :: c) []); try done; [by cbn; rewrite app_nil_r|by destruct a|].
    split; [constructor|]. split; [constructor|]. split; [|split; [constructor|split; [exact Hl'|]]].
    + exists b', n'. split; [|done]. rewrite Hs, lookup_insert_eq. do 2 f_equal. symmetry. apply filter_all, Forall_forall.
      intros x _. unfold routed, split_route. simpl. by rewrite Z.eqb_refl.
    + intros q [Hq _]%not_elem_of_cons. split; [left|intros _]; by rewrite Hs, lookup_insert_ne.
  - assert (Hins' : insert_at (length a) (gc_cell gc) (cells node) = map gc_cell (a ++ gc :: c)) by (by rewrite Hc, Hac, insert_at_map).
    destruct (split_leaf_run _ _ _ _ _ _ _ _ _ _ _ _ Hm Hi Hcs Hins' Hok Hl Hnd Hins) as (g0 & rest & E1 & E2 & Hg0 & _ & Hsep & Hdone).
    apply (split_done_inserted _ _ L lo hi gc a c A B splits g0 rest); done.
Qed.
End Subtree.

(** ** Promotions *)

(** The nodes of one level that came from one node: the separators between
    them, and all their children in order *)
Fixpoint spine (m : page_map) (level : nat) (page : Z) (out : list (list Z * Z)) (c0 : Z) (es : list (list Z * Z)) : Prop :=
  match out with
  | [] => internal_at m level page c0 es
  | (k, q) :: out' => exists es1 c1 es2, es = es1 ++ (k, c1) :: es2 /\ internal_at m level page c0 es1 /\ spine m level q out' c1 es2
  end.

Lemma partition_point_keys {A} (test : list Z -> bool) (f : A -> list Z) l :
  partition_point (fun x => test (f x)) l = partition_point test (map f l).
Proof. induction l as [|x l IH]; simpl; [done|]. by rewrite IH. Qed.

Lemma node_of_point level c0 es key :
  partition_point (fun e => lex_leb (fst e) key) (in_entries (node_of level c0 es)) = partition_point (fun e => lex_leb (fst e) key) es.
Proof. rewrite !(partition_point_keys (fun k => lex_leb k key) fst). unfold node_of. cbn [in_entries]. by rewrite to_entries_keys. Qed.

Lemma partition_point_le {A} test (l : list A) : (partition_point test l <= length l)%nat.
Proof. induction l as [|x l IH]; simpl; [done|]. destruct (test x); lia. Qed.

(** The child at a position replaced, and a separator with the old child put
    before it: a separator with its right child was inserted. *)
Lemma replace_insert level c0 a b key right : let (left, n) := replace_child (length a) right (node_of level c0 (a ++ b)) in
  in_level n = Z.of_nat level /\ map fst (in_entries n) = map fst (a ++ b)
  /\ insert_at (length a) (key, left) (in_entries n) = fst (to_entries c0 (a ++ (key, right) :: b))
  /\ in_rightmost_child n = snd (to_entries c0 (a ++ (key, right) :: b)).
Proof.
  unfold replace_child, node_of. cbn [in_entries in_rightmost_child]. rewrite !to_entries_app. cbn [fst snd].
  set (ea := fst (to_entries c0 a)). set (ca := child_of c0 a).
  assert (Hl : length a = length ea) by (symmetry; apply to_entries_length). rewrite Hl. rewrite lookup_app_r, Nat.sub_diag by done.
  assert (Hea : map fst ea = map fst a) by apply to_entries_keys.
  destruct b as [|[k c] b]; simpl.
  - split_and!; [done|by rewrite !map_app, Hea|by apply insert_at_length|done].
  - pose proof (to_entries_keys c b) as Hk. destruct (to_entries c b) as [eb rb]. simpl in *.
    assert (Hins : <[length ea := (k, right)]> (ea ++ (k, ca) :: eb) = ea ++ (k, right) :: eb).
    { rewrite <- (Nat.add_0_r (length ea)) at 1. by rewrite insert_app_r. }
    rewrite Hins. split_and!; [done| |by rewrite insert_at_length|done]. rewrite !map_app. simpl. by rewrite Hea, Hk.
Qed.

Section Promotions.
Context {S : Type} `{BTreePageStoreLaws S} `{Crc32c}.

Definition split_list (r : option SplitResult) : list (list Z * Z) := match r with Some sr => [split_pair sr] | None => [] end.

(** What one promotion changes: the nodes, a fresh page if a node split *)
Definition promoted (m m' : page_map) (page : Z) (r : option SplitResult) : Prop :=
  Forall (fun e => page_number (snd e) /\ m !! snd e = None) (split_list r)
  /\ forall q, q <> page -> q ∉ map snd (split_list r) -> m' !! q = m !! q.

Lemma internal_at_frame m m' l p c0 es : m' !! p = m !! p -> internal_at m l p c0 es -> internal_at m' l p c0 es.
Proof. intros He. apply internal_at_content. by left. Qed.

Lemma split_internal_spec s level page c0 es node pos key left r s' :
  (exists b, pages_of s !! page = Some (InternalImage b)) -> page_number page -> Z.of_nat level <= u8_max ->
  page_number c0 -> Forall (fun e => page_number (snd e)) es ->
  in_level node = Z.of_nat level -> partition_point (fun e => lex_leb (fst e) key) (in_entries node) = pos ->
  insert_at pos (key, left) (in_entries node) = fst (to_entries c0 es) -> in_rightmost_child node = snd (to_entries c0 es) ->
  split_internal page node key left s = (Ok r, s') ->
  spine (pages_of s') level page (split_list r) c0 es /\ promoted (pages_of s) (pages_of s') page r.
Proof.
  intros [b0 Hm] Hp Hlev Hc0 Hes Hl Hpos Hins Hright Hsp. unfold split_internal in Hsp. cbv zeta in Hsp. rewrite Hpos, Hins in Hsp.
  rewrite to_entries_length in Hsp. set (k := (length es / 2)%nat) in *. st_inv Hsp. apply st_lift_inv in Ha as [Hrem ->].
  unfold remove_at in Hrem. destruct (fst (to_entries c0 es) !! k) as [[pk pc]|] eqn:Ek; [|done]. injection Hrem as <-.
  assert (Hk : (k < length es)%nat) by (apply lookup_lt_Some in Ek; by rewrite to_entries_length in Ek).
  destruct (lookup_lt_is_Some_2 es k Hk) as [[k1 c1] He]. pose proof (take_drop_middle _ _ _ He) as Hmid.
  set (x := take k es) in *. set (y := drop (Datatypes.S k) es) in *. assert (Hx : length x = k) by (unfold x; rewrite length_take; lia).
  assert (Hte : to_entries c0 es = (fst (to_entries c0 x) ++ (k1, child_of c0 x) :: fst (to_entries c1 y), snd (to_entries c1 y))).
  { rewrite <- Hmid, to_entries_app. simpl. by destruct (to_entries c1 y). }
  assert (Hlx : length (fst (to_entries c0 x)) = k) by (by rewrite to_entries_length).
  rewrite Hte in Ek, H3, Hright. cbn [fst snd] in Ek, H3, Hright. rewrite list_lookup_middle in Ek by done. injection Ek as <- <-. subst z.
  rewrite <- Hlx, take_app_length, (cons_middle _ (fst (to_entries c0 x))), app_assoc, drop_app_length' in H3 by (rewrite length_app; simpl; lia). subst l.
  rewrite take_app_length' in Ha1 by done. rewrite drop_app_length' in Ha2 by done. rewrite Hl in Ha1, Ha2. rewrite Hright in Ha2.
  rewrite <- to_entries_snd in Ha1. fold (node_of level c0 x) in Ha1. fold (node_of level c1 y) in Ha2.
  apply st_lift_inv in Ha1 as [Henc1 ->]. apply st_lift_inv in Ha2 as [Henc2 ->].
  rewrite <- Hmid in Hes. apply Forall_app in Hes as [Hesx [Hc1 Hesy]%Forall_cons]. cbn [snd] in Hc1.
  destruct (internal_encode_inv _ _ (node_of_wf level c0 x Hlev Hc0 Hesx) Henc1) as (_ & Hlen1 & Hpar1).
  destruct (internal_encode_inv _ _ (node_of_wf level c1 y Hlev Hc1 Hesy) Henc2) as (_ & Hlen2 & Hpar2).
  apply alloc_internal_law in Ha0 as (Hfr & Hnone & b1 & Hw0). assert (Hne : page <> a) by (intros ->; by rewrite Hm in Hnone).
  destruct a2, a3. apply (write_internal_law _ _ b0) in Ha3; [|by rewrite Hw0, lookup_insert_ne|exact Hlen1].
  apply (write_internal_law _ _ b1) in Ha4; [|by rewrite Ha3, lookup_insert_ne, Hw0, lookup_insert_eq|exact Hlen2]. rewrite Ha4, Ha3, Hw0. split.
  - exists x, c1, y. split; [done|]. split.
    + do 4 (split; [done|]). exists a0. split; [by rewrite lookup_insert_ne, lookup_insert_eq|exact Hpar1].
    + do 4 (split; [done|]). exists a1. split; [by rewrite lookup_insert_eq|exact Hpar2].
  - split; [constructor; [|constructor]; simpl; done|]. simpl. intros q Hq1 Hq2. rewrite !lookup_insert_ne; [done|set_solver..].
Qed.

Lemma insert_into_internal_spec s level page c0 es key right r s' :
  internal_at (pages_of s) level page c0 es -> page_number right ->
  insert_into_internal page key right s = (Ok r, s') ->
  spine (pages_of s') level page (split_list r) c0 (kins fst (key, right) es) /\ promoted (pages_of s) (pages_of s') page r.
Proof.
  intros Hat Hr Hins. pose proof Hat as (Hp & Hlev & Hc0 & Hes & b & Hm & _). unfold insert_into_internal in Hins. apply st_bind_inv in Hins as (nd & w & Ha & Hins).
  apply st_read_inv in Ha as [Ha ->]. rewrite (read_internal_node_at _ _ _ _ _ Hat) in Ha. injection Ha as <-. rewrite node_of_point in Hins.
  unfold kins. cbn [fst]. set (p := partition_point (fun e => lex_leb (fst e) key) es) in *.
  assert (Hple : (p <= length es)%nat) by apply partition_point_le. set (x := take p es). set (y := drop p es).
  assert (Hxy : es = x ++ y) by (symmetry; apply take_drop). assert (Hx : length x = p) by (unfold x; rewrite length_take; lia).
  pose proof (replace_insert level c0 x y key right) as Hri. rewrite Hx, <- Hxy in Hri.
  destruct (replace_child p right (node_of level c0 es)) as [left n]. destruct Hri as (Hl & Hkeys & Hent & Hrm).
  change (insert_at p (key, right) es) with (x ++ (key, right) :: y). set (es' := x ++ (key, right) :: y) in *.
  assert (Hes' : Forall (fun e => page_number (snd e)) es').
  { rewrite Hxy in Hes. apply Forall_app in Hes as [? ?]. apply Forall_app. by split; [|constructor]. }
  destruct (internal_can_insert n (len key)).
  - apply st_bind_inv in Hins as (u & w & Ha & [= <- <-]). rewrite Hent in Ha. replace (set_entries (fst (to_entries c0 es')) n) with (node_of level c0 es') in Ha
      by (unfold set_entries, node_of; by rewrite Hl, Hrm).
    destruct (write_internal_node_spec _ _ _ _ _ _ _ _ Hm Hp Hlev Hc0 Hes' Ha) as [Hat' Hfr]. split; [exact Hat'|]. split; [constructor|]. intros q Hq _. by apply Hfr.
  - eapply split_internal_spec; try done; [eauto|]. rewrite (partition_point_keys (fun k => lex_leb k key) fst), Hkeys, <- partition_point_keys. done.
Qed.

Lemma spine_pages m level out : forall page c0 es q, spine m level page out c0 es -> q ∈ page :: map snd out ->
  page_number q /\ exists b, m !! q = Some (InternalImage b).
Proof.
  induction out as [|[k p] out IH]; intros page c0 es q Hs Hq; simpl in Hs.
  - apply list_elem_of_singleton in Hq as ->. destruct Hs as (Hp & _ & _ & _ & b & Hm & _). eauto.
  - destruct Hs as (es1 & c1 & es2 & _ & (Hp & _ & _ & _ & b & Hm & _) & Hs). apply elem_of_cons in Hq as [->|Hq]; [eauto|by eapply IH].
Qed.

Lemma spine_frame m m' level out : forall page c0 es,
  (forall q, q ∈ page :: map snd out -> m' !! q = m !! q) -> spine m level page out c0 es -> spine m' level page out c0 es.
Proof.
  induction out as [|[k p] out IH]; intros page c0 es Hf Hs; simpl in *.
  - eapply internal_at_frame; [|done]. apply Hf. set_solver.
  - destruct Hs as (es1 & c1 & es2 & -> & Hi & Hs). exists es1, c1, es2. split_and!; [done| |apply IH; [set_solver|done]].
    eapply internal_at_frame; [|done]. apply Hf. set_solver.
Qed.

Lemma spine_app m level a k q b c1 y : forall page c0 x,
  spine m level page a c0 x -> spine m level q b c1 y -> spine m level page (a ++ (k, q) :: b) c0 (x ++ (k, c1) :: y).
Proof.
  induction a as [|[k' p'] a IH]; intros page c0 x Hx Hy; simpl in *; [eauto 6|].
  destruct Hx as (x1 & c & x2 & -> & Hi & Hx). exists x1, c, (x2 ++ (k, c1) :: y). split_and!; [by rewrite <- app_assoc|done|by apply IH].
Qed.

Definition promotion_target (page : Z) (out : list SplitResult) (idx : nat) : Result Z :=
  match idx with
  | O => Ok page
  | Datatypes.S i => match out !! i with Some s => Ok (right_page s) | None => Panic end
  end.

Definition with_split (idx : nat) (r : option SplitResult) (out : list SplitResult) : list SplitResult :=
  match r with Some x => insert_at idx x out | None => out end.

Lemma split_pairs_pages out : map snd (map split_pair out) = map right_page out.
Proof. by rewrite map_map. Qed.

Lemma spine_insert s s' level key right r target : page_number right -> forall out page c0 es,
  spine (pages_of s) level page (map split_pair out) c0 es -> ksorted fst es -> NoDup (page :: map right_page out) ->
  let idx := partition_point (fun s => lex_leb (promoted_key s) key) out in
  promotion_target page out idx = Ok target -> insert_into_internal target key right s = (Ok r, s') ->
  spine (pages_of s') level page (map split_pair (with_split idx r out)) c0 (kins fst (key, right) es)
  /\ promoted (pages_of s) (pages_of s') target r /\ target ∈ page :: map right_page out.
Proof.
  intros Hr out. induction out as [|sr out IH]; intros page c0 es Hs Hk Hnd idx Htgt Hins.
  - injection Htgt as <-. destruct (insert_into_internal_spec _ _ _ _ _ _ _ _ _ Hs Hr Hins) as [Hs' Hpr]. split_and!; [|done|set_solver]. by destruct r.
  - pose proof Hs as (es1 & c1 & es2 & -> & Hi & Hs2). pose proof (spine_pages _ _ _ _ _ _ page Hs ltac:(set_solver)) as [_ [bp Hbp]].
    fold split_pair in Hs2. fold (map split_pair out) in Hs2.
    apply ksorted_mid in Hk as (Hk12 & Hk1 & Hk2). apply ksorted_app in Hk12 as (Hke1 & Hke2 & _). cbn [fst] in Hk1, Hk2.
    unfold idx in *. clear idx. cbn [partition_point promoted_key] in *. cbn [map] in Hnd. apply NoDup_cons in Hnd as [Hni Hnd].
    destruct (lex_leb (promoted_key sr) key) eqn:Ek.
    + apply lex_leb_le in Ek. set (idx := partition_point (fun s => lex_leb (promoted_key s) key) out) in *.
      assert (Htgt' : promotion_target (right_page sr) out idx = Ok target) by (destruct idx; exact Htgt).
      destruct (IH _ _ _ Hs2 Hke2 Hnd Htgt' Hins) as (Hs2' & [Hfr Hsame] & Hin). split_and!; [|by split|set_solver].
      replace (with_split (Datatypes.S idx) r (sr :: out)) with (sr :: with_split idx r out) by (by destruct r).
      exists es1, c1, (kins fst (key, right) es2). split_and!; [| |exact Hs2'].
      * rewrite cons_middle, app_assoc. rewrite <- (app_nil_r es2) at 1. rewrite kins_app; [by rewrite app_nil_r, <- app_assoc| |constructor].
        apply Forall_app. split; [|by repeat constructor]. eapply Forall_impl; [exact Hk1|]. simpl. eauto with lex.
      * eapply internal_at_frame; [|exact Hi]. apply Hsame; [by intros ->|]. intros Hin2. rewrite Forall_forall in Hfr.
        apply list_elem_of_fmap in Hin2 as (e & -> & He). destruct (Hfr e He) as [_ Hnone]. by rewrite Hbp in Hnone.
    + apply lex_leb_nle in Ek. injection Htgt as <-.
      destruct (insert_into_internal_spec _ _ _ _ _ _ _ _ _ Hi Hr Hins) as (Hs1 & [Hfr Hsame]). split_and!; [|by split|set_solver].
      replace (map split_pair (with_split 0 r (sr :: out))) with (split_list r ++ split_pair sr :: map split_pair out) by (by destruct r).
      assert (Hkk : kins fst (key, right) (es1 ++ (promoted_key sr, c1) :: es2) = kins fst (key, right) es1 ++ (promoted_key sr, c1) :: es2).
      { apply (kins_app fst (key, right) [] es1); [constructor|]. constructor; [done|]. eapply all_above_le; [exact Hk2|]. simpl. eauto with lex. }
      rewrite Hkk. apply spine_app; [exact Hs1|]. eapply spine_frame; [|exact Hs2]. rewrite split_pairs_pages. intros q Hq.
      apply Hsame; [by intros ->|]. intros Hin2. rewrite Forall_forall in Hfr. apply list_elem_of_fmap in Hin2 as (e & -> & He).
      destruct (Hfr e He) as [_ Hnone]. pose proof (spine_pages _ _ _ _ _ _ (snd e) Hs2) as Hp. rewrite split_pairs_pages in Hp.
      destruct (Hp Hq) as [_ [b Hb]]. by rewrite Hb in Hnone.
Qed.
End Promotions.

Section Loop.
Context {S : Type} `{BTreePageStoreLaws S} `{Crc32c}.

Lemma with_split_pages idx r out : (idx <= length out)%nat -> map right_page (with_split idx r out) ≡ₚ map snd (split_list r) ++ map right_page out.
Proof.
  intros Hi. destruct r as [x|]; simpl; [|done]. unfold insert_at. rewrite map_app. cbn [map]. rewrite <- (take_drop idx out) at 3. rewrite map_app. solve_Permutation.
Qed.

Lemma promotions_spec level promos : forall s page out c0 x y splits s',
  spine (pages_of s) level page (map split_pair out) c0 (x ++ y) -> ksorted fst (x ++ map split_pair promos ++ y) ->
  NoDup (page :: map right_page out) -> Forall (fun sr => page_number (right_page sr)) promos ->
  insert_promotions_loop page promos out s = (Ok splits, s') ->
  exists news, spine (pages_of s') level page (map split_pair splits) c0 (x ++ map split_pair promos ++ y)
    /\ map right_page splits ≡ₚ news ++ map right_page out /\ NoDup news
    /\ Forall (fun p => page_number p /\ pages_of s !! p = None) news
    /\ (forall q, q ∉ page :: news ++ map right_page out -> pages_of s' !! q = pages_of s !! q).
Proof.
  induction promos as [|sr promos IH]; intros s page out c0 x y splits s' Hs Hk Hnd Hpn Hrun; cbn [insert_promotions_loop] in Hrun.
  - st_inv Hrun. exists []. split_and!; [done|done|constructor|constructor|done].
  - cbv zeta in Hrun. st_inv Hrun. apply st_lift_inv in Ha as [Htgt ->]. fold (promotion_target page out (partition_point (fun s => lex_leb (promoted_key s) (promoted_key sr)) out)) in Htgt.
    apply Forall_cons in Hpn as [Hp Hpn]. set (idx := partition_point _ out) in *.
    assert (Hkxy : ksorted fst (x ++ y) /\ all_below fst (promoted_key sr) x /\ all_above fst (promoted_key sr) y).
    { cbn [map app] in Hk. apply ksorted_mid in Hk as (Hk & Hx & Hy). apply Forall_app in Hy as [_ Hy]. apply ksorted_app in Hk as (Hkx & Hk & Hxy).
      apply ksorted_app in Hk as (_ & Hky & _). split_and!; [|done..]. apply ksorted_app. split_and!; [done..|]. eapply Forall_impl; [exact Hxy|]. by intros e [_ ?]%Forall_app. }
    destruct Hkxy as (Hkxy & Hx & Hy).
    destruct (spine_insert _ _ _ _ _ _ _ Hp _ _ _ _ Hs Hkxy Hnd Htgt Ha0) as (Hs' & [Hfr Hsame] & Hin). fold idx in Hs'.
    rewrite kins_below in Hs' by done. fold (with_split idx a0 out) in Hrun.
    pose proof (with_split_pages idx a0 out (partition_point_le _ _)) as Hperm.
    set (fresh := map snd (split_list a0)) in *.
    assert (Hused : forall q, q ∈ page :: map right_page out -> is_Some (pages_of s !! q)).
    { intros q Hq. rewrite <- split_pairs_pages in Hq. destruct (spine_pages _ _ _ _ _ _ _ Hs Hq) as [_ [b ->]]. done. }
    assert (Hfresh : Forall (fun p => page_number p /\ pages_of s !! p = None) fresh) by (by apply Forall_fmap).
    assert (Hdisj : forall q, q ∈ fresh -> q ∉ page :: map right_page out).
    { intros q Hq Hq2. rewrite Forall_forall in Hfresh. destruct (Hfresh _ Hq) as [_ Hn]. apply Hused in Hq2. rewrite Hn in Hq2. by destruct Hq2. }
    assert (Hndf : NoDup fresh) by (unfold fresh; destruct a0; simpl; repeat constructor; set_solver).
    rewrite (cons_middle (promoted_key sr, right_page sr)), app_assoc in Hs'.
    destruct (IH w0 page (with_split idx a0 out) c0 (x ++ [split_pair sr]) y splits s') as (news & Hn1 & Hn2 & Hn3 & Hn4 & Hn5); [exact Hs'| | |exact Hpn|exact Hrun|].
    { rewrite <- app_assoc. exact Hk. }
    { rewrite Hperm. apply NoDup_cons in Hnd as [Hni Hnd]. constructor; [|apply NoDup_app; split_and!; [done|set_solver|done]]. set_solver. }
    assert (Hold : forall q, pages_of w0 !! q = None -> (q ∉ fresh) /\ pages_of s !! q = None).
    { intros q Hq. assert (Hnot : q ∉ page :: map right_page (with_split idx a0 out)).
      { intros Hin2. rewrite <- split_pairs_pages in Hin2. destruct (spine_pages _ _ _ _ _ _ _ Hs' Hin2) as [_ [b Hb]]. by rewrite Hb in Hq. }
      rewrite Hperm in Hnot. split; [set_solver|]. rewrite <- Hsame; [done| |set_solver]. intros ->. set_solver. }
    exists (news ++ fresh). rewrite <- app_assoc in Hn1. split_and!.
    + exact Hn1.
    + rewrite Hn2, Hperm. solve_Permutation.
    + apply NoDup_app. split_and!; [done| |done]. intros q Hq. rewrite Forall_forall in Hn4. destruct (Hn4 q Hq) as [_ Hnone]. by apply Hold.
    + apply Forall_app. split; [|done]. eapply Forall_impl; [exact Hn4|]. intros q [Hq Hnone]. split; [done|]. by apply Hold.
    + intros q Hq. rewrite Hn5 by (rewrite Hperm; set_solver). apply Hsame; [intros ->|]; set_solver.
Qed.
End Loop.

(** ** Recursion *)

(** Children under their nodes *)
Lemma spine_siblings m l out : forall page c0 es lo hi ls ps,
  spine m (S l) page out c0 es -> siblings (subtree m l) c0 es lo hi ls ps ->
  exists ps', siblings (subtree m (S l)) page out lo hi ls ps' /\ ps' ≡ₚ (page :: map snd out) ++ ps.
Proof.
  induction out as [|[k q] out IH]; intros page c0 es lo hi ls ps Hsp Hs; cbn [spine] in Hsp.
  - exists (page :: ps). split; [|done]. apply siblings_one. exists c0, es, ps. done.
  - destruct Hsp as (es1 & c1 & es2 & -> & Hi & Hsp). apply siblings_cut in Hs as (ls1 & ps1 & ls2 & ps2 & -> & -> & Hs1 & Ha & Hb & Hs2).
    destruct (IH _ _ _ _ _ _ _ Hsp Hs2) as (ps' & Hs' & Hp). exists ((page :: ps1) ++ ps'). split.
    + constructor; [|done|done|exact Hs']. exists c0, es1, ps1. done.
    + rewrite Hp. simpl. solve_Permutation.
Qed.

Lemma subtree_in_use m l : forall p lo hi ls ps q, subtree m l p lo hi ls ps -> q ∈ footprint ls ps -> is_Some (m !! q).
Proof.
  intros p lo hi ls ps q Hs. unfold footprint. intros [Hq|Hq]%elem_of_app.
  - pose proof (subtree_nodes _ _ _ _ _ _ _ Hs) as Hn. rewrite Forall_forall in Hn. by apply Hn.
  - assert (Hall : Forall (gcell_at m) (cells_of ls)); [|by eapply overflow_in_use].
    clear Hq q. revert p lo hi ls ps Hs. induction l as [|l IH]; intros p lo hi ls ps; simpl.
    + intros (L & -> & _ & _ & (_ & _ & Hc) & _). unfold cells_of. simpl. by rewrite app_nil_r.
    + intros (c0 & es & ps' & _ & _ & Hs). induction Hs as [|? ? ? ? ? ? ls1 ? ls2 ? Ht _ _ _ IH2]; [by eapply IH|].
      rewrite cells_of_app. apply Forall_app. split; [by eapply IH|done].
Qed.

Lemma siblings_in_use m l p es lo hi ls ps q : siblings (subtree m l) p es lo hi ls ps -> q ∈ footprint ls ps -> is_Some (m !! q).
Proof.
  induction 1 as [|? ? ? ? ? ? ls ps ls' ps' Ht _ _ _ IH]; [by apply subtree_in_use with (1 := H)|].
  rewrite footprint_app. intros [Hq|Hq]%elem_of_app; [by eapply subtree_in_use|by apply IH].
Qed.

Lemma same_content_none m m' q : same_content m m' q -> m' !! q = None -> m !! q = None.
Proof. intros [E|(b & b' & ch & n & n' & _ & E & _)]; congruence. Qed.

Lemma same_content_some m m' q : same_content m m' q -> is_Some (m !! q) -> is_Some (m' !! q).
Proof. intros [->|(b & b' & ch & n & n' & _ & -> & _)]; done. Qed.

Lemma nodes_cons p ls ps : nodes ls (p :: ps) = p :: nodes ls ps.
Proof. done. Qed.

Lemma footprint_cons p ls ps : footprint ls (p :: ps) = p :: footprint ls ps.
Proof. done. Qed.

Lemma overflow_kins gc cs q : q ∈ overflow_of (kins gc_key gc cs) -> q ∈ overflow_of cs \/ q ∈ gc_pages gc.
Proof.
  unfold overflow_of, kins, insert_at. rewrite !elem_of_concat_map. intros (c & Hc & Hq). apply elem_of_app in Hc as [Hc|[->|Hc]%elem_of_cons].
  - left. exists c. split; [|done]. eapply elem_of_take in Hc as (i & Hc & _). by eapply list_elem_of_lookup_2.
  - by right.
  - left. exists c. split; [|done]. apply list_elem_of_lookup in Hc as [i Hc]. rewrite lookup_drop in Hc. by eapply list_elem_of_lookup_2.
Qed.

Section Recursion.
Context {S : Type} `{BTreePageStoreLaws S} `{Crc32c}.

(** Promotions put the nodes of one level over their children. *)
Lemma promote_children s1 s2 l page c0 es1 es2 promos lo hi ls ps splits :
  internal_at (pages_of s1) (Datatypes.S l) page c0 (es1 ++ es2) ->
  siblings (subtree (pages_of s1) l) c0 (es1 ++ map split_pair promos ++ es2) lo hi ls ps -> page ∉ footprint ls ps ->
  Forall (fun sr => page_number (right_page sr)) promos ->
  insert_promotions_into_internal page promos s1 = (Ok splits, s2) ->
  exists ps' news, siblings (subtree (pages_of s2) (Datatypes.S l)) page (map split_pair splits) lo hi ls ps'
    /\ ps' ≡ₚ news ++ page :: ps /\ NoDup news /\ Forall (fun p => page_number p /\ pages_of s1 !! p = None) news
    /\ (forall q, q ∉ page :: news -> pages_of s2 !! q = pages_of s1 !! q).
Proof.
  intros Hi Hs Hpage Hpn Hrun. pose proof (siblings_keys _ _ _ _ _ _ _ Hs) as [Hk _].
  destruct (promotions_spec (Datatypes.S l) promos s1 page [] c0 es1 es2 splits s2 Hi Hk (NoDup_singleton _) Hpn Hrun) as (news & Hsp & Hpp & Hnd & Hfresh & Hsame).
  rewrite app_nil_r in Hpp, Hsame. assert (Hs2 : siblings (subtree (pages_of s2) l) c0 (es1 ++ map split_pair promos ++ es2) lo hi ls ps).
  { eapply siblings_content; [|exact Hs]. intros q Hq. left. apply Hsame. rewrite not_elem_of_cons. split; [by intros ->|]. intros Hq2.
    rewrite Forall_forall in Hfresh. destruct (Hfresh q Hq2) as [_ Hn]. destruct (siblings_in_use _ _ _ _ _ _ _ _ _ Hs Hq) as [x Hx]. by rewrite Hx in Hn. }
  destruct (spine_siblings _ _ _ _ _ _ _ _ _ _ Hsp Hs2) as (ps' & Hs' & Hp). exists ps', news. split_and!; try done.
  rewrite Hp, split_pairs_pages, Hpp. simpl. solve_Permutation.
Qed.

Lemma not_fresh (m : page_map) q (news : list Z) : Forall (fun p => page_number p /\ m !! p = None) news -> is_Some (m !! q) -> q ∉ news.
Proof. intros Hf [x Hx] Hq. rewrite Forall_forall in Hf. destruct (Hf q Hq) as [_ Hn]. by rewrite Hx in Hn. Qed.

(** From a child with its splits to the node above it *)
Lemma inserted_up m s1 s2 l page c0 es1 es2 lo hi gc lsL lsC lsR psL psC psR A B child_splits splits :
  internal_at m (Datatypes.S l) page c0 (es1 ++ es2) ->
  within (lo_of lo es1) (hi_of hi es2) (gc_key gc) ->
  leaves_all (under (lo_of lo es1)) lsL -> leaves_all (over (hi_of hi es2)) lsR ->
  (forall T' mid' lsM' psM',
     (forall p lo hi ls' ps', subtree m l p lo hi ls' ps' -> footprint ls' ps' ⊆ footprint (lsL ++ lsR) (psL ++ psR) -> T' p lo hi ls' ps') ->
     siblings T' (child_of c0 es1) mid' (lo_of lo es1) (hi_of hi es2) lsM' psM' ->
     siblings T' c0 (es1 ++ mid' ++ es2) lo hi (lsL ++ lsM' ++ lsR) (psL ++ psM' ++ psR)) ->
  NoDup (footprint (lsL ++ lsC ++ lsR) (page :: psL ++ psC ++ psR) ++ gc_pages gc) ->
  inserted m (pages_of s1) l (child_of c0 es1) (lo_of lo es1) (hi_of hi es2) gc lsC psC (A ++ map g_page lsL) (map g_page lsR ++ B) child_splits ->
  insert_promotions_into_internal page child_splits s1 = (Ok splits, s2) ->
  inserted m (pages_of s2) (Datatypes.S l) page lo hi gc (lsL ++ lsC ++ lsR) (page :: psL ++ psC ++ psR) A B splits.
Proof.
  intros Hi [Hwl Hwh] HL HR Hcont Hnd (Hne & lsC' & psC' & news1 & Hsib1 & Hcells & Hchains & Hnodes & Hndn & Hfresh & Hlink & Hframe) Hprom.
  rewrite footprint_cons in Hnd. cbn [app] in Hnd. apply NoDup_cons in Hnd as [Hpage Hnd].
  set (m1 := pages_of s1) in *. set (m2 := pages_of s2) in *.
  assert (Hpm : is_Some (m !! page)) by (destruct Hi as (_ & _ & _ & _ & b & -> & _); done).
  assert (Hfp : footprint (lsL ++ lsC ++ lsR) (psL ++ psC ++ psR) ≡ₚ footprint (lsL ++ lsR) (psL ++ psR) ++ footprint lsC psC)
    by (rewrite !footprint_app; solve_Permutation).
  rewrite Hfp in Hnd, Hpage. apply NoDup_app in Hnd as (Hnd & _ & _). apply NoDup_app in Hnd as (_ & Hdisj & _).
  assert (HpC : page ∉ news1 ++ nodes lsC psC).
  { rewrite not_elem_of_app. split; [by eapply not_fresh|]. unfold footprint in Hpage at 2. set_solver. }
  assert (Hsm1 : siblings (subtree m1 l) c0 (es1 ++ map split_pair child_splits ++ es2) lo hi (lsL ++ lsC' ++ lsR) (psL ++ psC' ++ psR)).
  { apply Hcont; [|exact Hsib1]. intros p lo1 hi1 ls1 ps1 Ht Hsub. eapply subtree_content; [|exact Ht]. intros q Hq. apply Hframe, not_elem_of_app. split.
    - eapply not_fresh; [done|]. by eapply subtree_in_use.
    - intros Hq2. apply Hsub in Hq. apply (Hdisj q Hq). unfold footprint. set_solver. }
  assert (Hpage1 : page ∉ footprint (lsL ++ lsC' ++ lsR) (psL ++ psC' ++ psR)).
  { rewrite !footprint_app. unfold footprint at 2. rewrite Hnodes, Hcells. intros Hin. apply not_elem_of_app in HpC as [? ?].
    rewrite !footprint_app in Hpage. unfold footprint in Hpage at 3. rewrite !not_elem_of_app in Hpage. destruct Hpage as (((HpL & HpR) & HpN & HpO) & Hpg).
    apply elem_of_app in Hin as [?|[[[?|?]%elem_of_app|[?|?]%overflow_kins]%elem_of_app|?]%elem_of_app]; done. }
  destruct (promote_children s1 s2 l page c0 es1 es2 child_splits lo hi (lsL ++ lsC' ++ lsR) (psL ++ psC' ++ psR) splits) as (ps' & news2 & Hs' & Hps & Hnd2 & Hfresh2 & Hsame2).
  { eapply internal_at_content; [|exact Hi]. by apply Hframe. }
  { exact Hsm1. }
  { exact Hpage1. }
  { destruct (siblings_children _ _ _ _ _ _ _ _ Hsib1) as [_ Hch]. by rewrite Forall_fmap in Hch. }
  { exact Hprom. }
  fold m1 in Hfresh2, Hsame2. fold m2 in Hs', Hsame2.
  assert (Huse1 : forall q, q ∈ news1 ++ nodes lsC psC -> is_Some (m1 !! q)).
  { intros q Hq. rewrite <- Hnodes in Hq. eapply siblings_in_use; [exact Hsib1|]. unfold footprint. set_solver. }
  assert (Hold : forall q, q ∈ news2 -> (q ∉ news1) /\ m !! q = None).
  { intros q Hq. rewrite Forall_forall in Hfresh2. destruct (Hfresh2 q Hq) as [_ Hn].
    assert (Hq1 : q ∉ news1 ++ nodes lsC psC) by (intros Hin; apply Huse1 in Hin; rewrite Hn in Hin; by destruct Hin).
    split; [set_solver|]. eapply same_content_none; [by apply Hframe|done]. }
  split.
  { rewrite !cells_of_app, !Forall_app. destruct HL as [HL _], HR as [HR _]. split_and!; [|done|].
    - eapply Forall_impl; [exact HL|]. intros c Hc. apply lex_lt_ne. exact (under_lt _ _ _ Hc Hwl).
    - eapply Forall_impl; [exact HR|]. intros c Hc. apply not_eq_sym, lex_lt_ne. exact (over_gt _ _ _ Hc Hwh). }
  exists (lsL ++ lsC' ++ lsR), ps', (news2 ++ news1). split_and!.
  - exact Hs'.
  - rewrite !cells_of_app, Hcells. symmetry. destruct HL as [HL _], HR as [HR _]. apply kins_app; [eapply Forall_impl; [exact HL|]|eapply Forall_impl; [exact HR|]]; intros c Hc.
    + apply lex_lt_le. exact (under_lt _ _ _ Hc Hwl).
    + exact (over_gt _ _ _ Hc Hwh).
  - by rewrite !chains_of_app, Hchains.
  - transitivity ((news2 ++ page :: nodes (lsL ++ lsR) (psL ++ psR)) ++ nodes lsC' psC'); [unfold nodes; rewrite Hps, !map_app; solve_Permutation|].
    rewrite Hnodes. unfold nodes. rewrite !map_app. solve_Permutation.
  - apply NoDup_app. split_and!; [done| |done]. intros q Hq. by apply Hold.
  - apply Forall_app. split; [|done]. rewrite Forall_forall in Hfresh2 |- *. intros q Hq. split; [by apply Hfresh2|by apply Hold].
  - rewrite !map_app, <- !app_assoc. rewrite <- !app_assoc in Hlink. eapply linked_eq; [|exact Hlink]. intros q Hq.
    destruct (linked_leaf_page _ _ _ _ _ Hlink Hq) as (b & ch & n & Hb & _). apply Hsame2, not_elem_of_cons. split; [|by eapply not_fresh; [done|rewrite Hb]].
    intros ->. destruct (internal_at_content m m1 _ _ _ _ (proj1 (Hframe _ HpC)) Hi) as (_ & _ & _ & _ & b' & Hb' & _). by rewrite Hb in Hb'.
  - intros q Hq. rewrite nodes_cons, !nodes_app in Hq. assert (Hq1 : q ∉ news1 ++ nodes lsC psC) by set_solver.
    assert (Hq2 : m2 !! q = m1 !! q) by (apply Hsame2; set_solver). destruct (Hframe q Hq1) as [Hc He]. split.
    + eapply same_content_trans; [exact Hc|by left].
    + intros Hab. rewrite Hq2. apply He. unfold nodes in Hq. set_solver.
Qed.

Lemma insert_subtree_spec l : forall s page lo hi gc ls ps A B splits s',
  subtree (pages_of s) l page lo hi ls ps -> NoDup (footprint ls ps ++ gc_pages gc) ->
  gcell_at (pages_of s) gc -> within lo hi (gc_key gc) ->
  linked (pages_of s) 0 (A ++ map g_page ls ++ B) 0 -> NoDup (A ++ map g_page ls ++ B) ->
  insert_subtree l page (gc_key gc) (cell_val (gc_cell gc)) s = (Ok splits, s') ->
  inserted (pages_of s) (pages_of s') l page lo hi gc ls ps A B splits.
Proof.
  induction l as [|l IH]; intros s page lo hi gc ls ps A B splits s' Hs Hnd Hgc Hw Hl Hndl Hrun; [by apply insert_leaf_spec|].
  cbn [insert_subtree] in Hrun. destruct Hs as (c0 & es & ps0 & -> & Hi & Hs). st_inv Hrun. apply st_read_inv in Ha as [Ha ->].
  rewrite (read_internal_node_at _ _ _ _ _ Hi) in Ha. injection Ha as <-. pose proof (siblings_keys _ _ _ _ _ _ _ Hs) as [Hk _].
  destruct (route_split es (gc_key gc) Hk) as (es1 & es2 & -> & H1k & H2k).
  rewrite (proj1 (find_idx_split (Datatypes.S l) c0 es1 es2 (gc_key gc) H1k H2k)), child_at_split in Ha0.
  destruct (siblings_focus _ _ es1 [] es2 _ _ _ _ Hs (subtree_contents _ l)) as (lsL & psL & lsC & psC & lsR & psR & -> & -> & Hc & HL & HR & Hcont).
  apply siblings_one in Hc. assert (Hw' : within (lo_of lo es1) (hi_of hi es2) (gc_key gc)) by (by apply within_of).
  rewrite !map_app, <- !app_assoc in Hl, Hndl. eapply inserted_up; [exact Hi|exact Hw'|exact HL|exact HR|exact Hcont|exact Hnd| |].
  - apply (IH _ _ _ _ _ _ _ _ _ _ _ Hc); [|done|done| | |exact Ha0].
    + rewrite footprint_cons, !footprint_app in Hnd. cbn [app] in Hnd. apply NoDup_cons in Hnd as [_ Hnd].
      assert (Hp : (footprint lsL psL ++ footprint lsC psC ++ footprint lsR psR) ++ gc_pages gc
        ≡ₚ (footprint lsC psC ++ gc_pages gc) ++ footprint lsL psL ++ footprint lsR psR) by solve_Permutation.
      rewrite Hp in Hnd. by apply NoDup_app in Hnd as (? & _).
    + by rewrite <- !app_assoc.
    + by rewrite <- !app_assoc.
  - destruct a0; [injection Hrun as <- <-; done|exact Hrun].
Qed.
End Recursion.

(** ** The root *)

Lemma on_store_inv {S A} (f : st S A) t a t' : on_store f t = (Ok a, t') ->
  exists s', f (bt_store t) = (Ok a, s') /\ t' = mkBTree s' (root_page t) (root_level t).
Proof. unfold on_store. destruct (f (bt_store t)) as [r s']. intros [= -> <-]. eauto. Qed.

Section Root.
Context {S : Type} `{BTreePageStoreLaws S} `{Crc32c}.

Abbreviation pages t := (pages_of (bt_store t)).

(** Pages of the store hold the tree: its leaves, its internal pages, every
    page once, the leaves in one list. *)
Definition tree_at (t : BTree S) (ls : list gleaf) (ps : list Z) : Prop :=
  subtree (pages t) (root_level t) (root_page t) None None ls ps
  /\ NoDup (footprint ls ps) /\ linked (pages t) 0 (map g_page ls) 0.

Definition fresh_pages (m : page_map) (news : list Z) : Prop :=
  NoDup news /\ Forall (fun p => page_number p /\ m !! p = None) news.

Lemma grow_root_spec fuel : forall splits t t' ls ps u,
  siblings (subtree (pages t) (root_level t)) (root_page t) (map split_pair splits) None None ls ps ->
  grow_root fuel splits t = (Ok u, t') ->
  exists ps' news, subtree (pages t') (root_level t') (root_page t') None None ls ps' /\ ps' ≡ₚ news ++ ps
    /\ fresh_pages (pages t) news /\ (forall q, q ∉ news -> pages t' !! q = pages t !! q).
Proof.
  induction fuel as [|fuel IH]; intros [|first rest] t t' ls ps u Hs Hg; cbn [grow_root] in Hg; try done.
  1,2: injection Hg as <- <-; exists ps, []; split_and!; [by apply siblings_one|done|split; constructor|done].
  apply st_bind_inv in Hg as (new_root & t1 & Ha & Hg). apply on_store_inv in Ha as (s1 & Ha & ->).
  apply alloc_internal_law in Ha as (Hfr & Hnone & b1 & Hs1). st_inv Hg. apply st_read_inv in Ha as [Hlv ->]. apply st_read_inv in Ha0 as [[= <-] ->].
  cbn [bt_store root_page root_level] in *. destruct (Z.ltb_spec (Z.of_nat (root_level t)) u8_max) as [Hlt|]; [|done]. injection Hlv as <-.
  apply on_store_inv in Ha1 as (s2 & Hw & ->). injection Ha2 as <- <-. apply on_store_inv in Ha3 as (s3 & Hprom & ->). cbn [bt_store root_page root_level] in *.
  pose proof (siblings_children _ _ _ _ _ _ _ _ Hs) as [Hrp Hch]. cbn [map] in Hch. apply Forall_cons in Hch as [Hf Hch]. cbn in Hf.
  destruct (write_internal_node_spec s1 new_root b1 (Datatypes.S (root_level t)) (root_page t) [split_pair first] a1 s2) as [Hat Hsame2];
    [by rewrite Hs1, lookup_insert_eq|done|lia|done|by constructor|exact Hw|].
  assert (Hm2 : forall q, q <> new_root -> pages_of s2 !! q = pages t !! q) by (intros q Hq; by rewrite Hsame2, Hs1, lookup_insert_ne).
  assert (Hnr : new_root ∉ footprint ls ps).
  { intros Hin. destruct (siblings_in_use _ _ _ _ _ _ _ _ _ Hs Hin) as [x Hx]. by rewrite Hx in Hnone. }
  destruct (promote_children s2 s3 (root_level t) new_root (root_page t) [split_pair first] [] rest None None ls ps a3) as (ps2 & news2 & Hs3 & Hps & Hnd2 & Hfr2 & Hsame3).
  { exact Hat. }
  { rewrite app_nil_r. eapply siblings_content; [|exact Hs]. intros q Hq. left. apply Hm2. by intros ->. }
  { exact Hnr. }
  { by rewrite Forall_fmap in Hch. }
  { exact Hprom. }
  destruct (IH a3 (mkBTree s3 new_root (Datatypes.S (root_level t))) t' ls ps2 u Hs3 Hg) as (ps' & news3 & Hs' & Hps' & [Hnd3 Hfr3] & Hsame'). cbn [bt_store root_page root_level] in *.
  assert (Hat2 : is_Some (pages_of s2 !! new_root)) by (destruct Hat as (_ & _ & _ & _ & b & -> & _); done).
  assert (H23 : forall q, pages_of s3 !! q = None -> (q ∉ new_root :: news2) /\ pages t !! q = None).
  { intros q Hq. assert (Hq2 : q ∉ new_root :: news2).
    { intros Hin. destruct (siblings_in_use _ _ _ _ _ _ _ _ q Hs3) as [x Hx]; [|by rewrite Hx in Hq]. unfold footprint, nodes. rewrite Hps. set_solver. }
    split; [done|]. rewrite <- Hm2 by set_solver. by rewrite <- Hsame3. }
  exists ps', (news3 ++ news2 ++ [new_root]). split_and!.
  - exact Hs'.
  - rewrite Hps', Hps. solve_Permutation.
  - split.
    + apply NoDup_app. split_and!; [done| |].
      * intros q Hq. rewrite Forall_forall in Hfr3. destruct (Hfr3 q Hq) as [_ Hn]. apply H23 in Hn as [Hn _]. set_solver.
      * apply NoDup_app. split_and!; [done| |apply NoDup_singleton]. intros q Hq ->%list_elem_of_singleton. exact (not_fresh _ _ _ Hfr2 Hat2 Hq).
    + rewrite !Forall_app. split_and!.
      * eapply Forall_impl; [exact Hfr3|]. intros q [? Hn]. split; [done|]. by apply H23.
      * rewrite Forall_forall in Hfr2 |- *. intros q Hq. destruct (Hfr2 q Hq) as [? Hn]. split; [done|]. rewrite <- Hm2; [done|]. intros ->. rewrite Hn in Hat2. by destruct Hat2.
      * by apply Forall_singleton.
  - intros q Hq. rewrite Hsame' by set_solver. rewrite Hsame3 by set_solver. apply Hm2. set_solver.
Qed.

Lemma cell_value_for_spec key value s cv s' :
  cell_value_for value s = (Ok cv, s') -> len value < 2 ^ 32 ->
  exists news, gcell_at (pages_of s') (mkGCell (mkLeafCell key cv) value news) /\ fresh_pages (pages_of s) news
    /\ forall q, q ∉ news -> pages_of s' !! q = pages_of s !! q.
Proof.
  unfold cell_value_for. intros Hc Hlen. pose proof (len_nonneg value). destruct (Z.ltb_spec OVERFLOW_THRESHOLD (len value)) as [Hbig|Hsmall].
  - st_inv Hc. destruct (write_overflow_chain_spec _ _ _ _ Ha Hlen) as (news & Hch & Hnd & Hu & Hmax & Hfr & Hsame).
    exists news. split_and!; [|by split|done]. unfold gcell_at. cbn [gc_cell cell_val gc_pages gc_value].
    rewrite as_u_small by (unfold is_u; lia). split_and!; try done; unfold is_u; lia.
  - injection Hc as <- <-. exists []. split_and!; [|split; constructor|done]. done.
Qed.

Lemma footprint_nodes ls ps ls' ps' news gc cs :
  nodes ls' ps' ≡ₚ news ++ nodes ls ps -> cells_of ls' = kins gc_key gc cs -> cells_of ls = cs ->
  footprint ls' ps' ≡ₚ (news ++ gc_pages gc) ++ footprint ls ps.
Proof.
  intros Hn Hc Hcs. unfold footprint. rewrite Hn, Hc, Hcs. unfold kins, insert_at. set (p := partition_point _ cs).
  rewrite <- (take_drop p cs) at 3. rewrite !overflow_of_app. unfold overflow_of at 2. simpl. fold (overflow_of (drop p cs)). solve_Permutation.
Qed.

Lemma fresh_trans (m m1 : page_map) a b : fresh_pages m a -> fresh_pages m1 b ->
  (forall q, q ∈ a -> is_Some (m1 !! q)) -> (forall q, m1 !! q = None -> m !! q = None) -> fresh_pages m (b ++ a).
Proof.
  intros [Hna Hfa] [Hnb Hfb] Hua Hback. split.
  - apply NoDup_app. split_and!; [done| |done]. intros q Hq Hq2. eapply not_fresh; [exact Hfb|by apply Hua|done].
  - apply Forall_app. split; [|done]. eapply Forall_impl; [exact Hfb|]. intros q [? ?]. split; [done|]. by apply Hback.
Qed.

Lemma fresh_NoDup (m : page_map) news fp : fresh_pages m news -> (forall q, q ∈ fp -> is_Some (m !! q)) -> NoDup fp -> NoDup (news ++ fp).
Proof. intros [Hn Hf] Hu Hfp. apply NoDup_app. split_and!; [done| |done]. intros q Hq Hq2. eapply not_fresh; [exact Hf|by apply Hu|done]. Qed.

(** What an insert leaves: the new cell in its place, everything else as it
    was, fresh pages only. *)
Lemma insert_spec key value t t' ls ps u :
  tree_at t ls ps -> len value < 2 ^ 32 -> insert key value t = (Ok u, t') ->
  Forall (fun c => gc_key c <> key) (cells_of ls)
  /\ exists gc ls' ps' news, gc_key gc = key /\ gc_value gc = value /\ tree_at t' ls' ps'
       /\ cells_of ls' = kins gc_key gc (cells_of ls) /\ chains_of ls' = chains_of ls
       /\ footprint ls' ps' ≡ₚ news ++ footprint ls ps /\ fresh_pages (pages t) news
       /\ (forall q, q ∉ footprint ls' ps' -> pages t' !! q = pages t !! q).
Proof.
  intros (Hs & Hnd & Hl) Hlen Hins. unfold insert in Hins. st_inv Hins. apply on_store_inv in Ha as (s1 & Hcv & ->).
  destruct (cell_value_for_spec key _ _ _ _ Hcv Hlen) as (ov & Hgc & [Hndo Hfro] & Hsame1). set (gc := mkGCell (mkLeafCell key a) value ov) in *.
  apply st_read_inv in Ha0 as [[= <-] ->]. apply st_read_inv in Ha1 as [[= <-] ->]. apply on_store_inv in Ha2 as (s2 & Hsub & ->). cbn [bt_store root_page root_level] in *.
  assert (Hnot : forall q, q ∈ footprint ls ps -> q ∉ ov) by (intros q Hq; eapply not_fresh; [exact Hfro|by eapply subtree_in_use]).
  assert (Hs1 : subtree (pages_of s1) (root_level t) (root_page t) None None ls ps).
  { eapply subtree_content; [|exact Hs]. intros q Hq. left. apply Hsame1. by apply Hnot. }
  assert (Hleaf : forall q, q ∈ map g_page ls -> q ∉ ov) by (intros q Hq; apply Hnot; unfold footprint, nodes; set_solver).
  assert (Hndl : NoDup (map g_page ls)) by (unfold footprint, nodes in Hnd; rewrite !NoDup_app in Hnd; tauto).
  destruct (insert_subtree_spec (root_level t) s1 (root_page t) None None gc ls ps [] [] a2 s2 Hs1) as (Hne & ls' & ps1 & news1 & Hs2 & Hc & Hch & Hn & Hnd1 & Hfr1 & Hl2 & Hframe).
  { apply NoDup_app. split_and!; done. }
  { exact Hgc. }
  { done. }
  { rewrite app_nil_r. eapply linked_eq; [|exact Hl]. intros q Hq. by apply Hsame1, Hleaf. }
  { by rewrite app_nil_r. }
  { exact Hsub. }
  rewrite app_nil_r in Hl2. cbn [app] in Hl2.
  destruct (grow_root_spec _ _ (mkBTree s2 (root_page t) (root_level t)) _ _ _ _ Hs2 Hins) as (ps' & news2 & Hs' & Hps & [Hnd2 Hfr2] & Hsame3). cbn [bt_store] in *.
  assert (Hov : forall q, q ∈ ov -> is_Some (pages_of s1 !! q)).
  { intros q Hq. eapply (overflow_in_use _ [gc]); [by constructor|]. unfold overflow_of. simpl. by rewrite app_nil_r. }
  assert (Hn1 : forall q, q ∈ news1 -> is_Some (pages_of s2 !! q)).
  { intros q Hq. eapply siblings_in_use; [exact Hs2|]. unfold footprint. rewrite Hn. set_solver. }
  assert (Hb1 : forall q, pages_of s1 !! q = None -> pages t !! q = None).
  { intros q Hq. rewrite <- Hsame1; [done|]. intros Hin. apply Hov in Hin. rewrite Hq in Hin. by destruct Hin. }
  assert (Hb2 : forall q, pages_of s2 !! q = None -> pages_of s1 !! q = None).
  { intros q Hq. eapply same_content_none; [apply Hframe|exact Hq]. rewrite <- Hn. intros Hin.
    destruct (siblings_in_use _ _ _ _ _ _ _ _ q Hs2) as [x Hx]; [unfold footprint; set_solver|by rewrite Hx in Hq]. }
  assert (Hfresh : fresh_pages (pages t) ((news2 ++ news1) ++ ov)).
  { eapply fresh_trans; [by split| |exact Hov|exact Hb1]. eapply fresh_trans; [by split|by split|exact Hn1|exact Hb2]. }
  assert (Hfp : footprint ls' ps' ≡ₚ ((news2 ++ news1) ++ ov) ++ footprint ls ps).
  { eapply (footprint_nodes ls ps ls' ps' (news2 ++ news1) gc); [|exact Hc|done]. rewrite <- app_assoc, <- Hn. unfold nodes. rewrite Hps. solve_Permutation. }
  split; [exact Hne|]. exists gc, ls', ps', ((news2 ++ news1) ++ ov). do 2 (split; [done|]). split; [|do 2 (split; [done|]); split; [exact Hfp|split; [exact Hfresh|]]].
  - split_and!; [exact Hs'| |].
    + rewrite Hfp. eapply fresh_NoDup; [exact Hfresh|intros q Hq; by eapply subtree_in_use|exact Hnd].
    + eapply linked_eq; [|exact Hl2]. intros q Hq. apply Hsame3. eapply not_fresh; [exact Hfr2|].
      eapply siblings_in_use; [exact Hs2|]. unfold footprint, nodes. set_solver.
  - intros q Hq. rewrite Hfp in Hq. unfold footprint in Hq. rewrite Hsame3 by set_solver.
    rewrite (proj2 (Hframe q ltac:(set_solver))) by set_solver. apply Hsame1. set_solver.
Qed.

(** ** The loop that grows the root ends *)

Lemma st_bind_ext {X A B} (m : st X A) (k1 k2 : A -> st X B) x :
  (forall a x', m x = (Ok a, x') -> k1 a x' = k2 a x') -> st_bind m k1 x = st_bind m k2 x.
Proof. unfold st_bind. intros Hk. destruct (m x) as [[a|e|] x']; [by apply Hk|done|done]. Qed.

Lemma promotions_length page promos : forall out s splits s',
  insert_promotions_loop page promos out s = (Ok splits, s') -> (length splits <= length promos + length out)%nat.
Proof.
  induction promos as [|sr promos IH]; intros out s splits s' Hrun; cbn [insert_promotions_loop] in Hrun; [injection Hrun as <- <-; done|].
  cbv zeta in Hrun. st_inv Hrun. apply IH in Hrun. destruct a0; simpl in *; [|lia].
  unfold insert_at in Hrun. rewrite length_app in Hrun. simpl in Hrun. rewrite length_take, length_drop in Hrun. lia.
Qed.

Lemma grow_root_fuel f : forall g splits t, (length splits <= f)%nat -> (length splits <= g)%nat -> grow_root f splits t = grow_root g splits t.
Proof.
  induction f as [|f IH]; intros [|g] [|first rest] t Hf Hg; simpl in Hf, Hg; try done; try lia. cbn [grow_root].
  do 5 (apply st_bind_ext; intros ? ? _). apply st_bind_ext. intros splits t1 Hrun. apply on_store_inv in Hrun as (s1 & Hrun & _).
  apply promotions_length in Hrun. simpl in Hrun. apply IH; lia.
Qed.
End Root.
