(* ===== verification/BTreeDelete.v ===== *)
(** * Delete keeps the tree ([storage/btree/delete.rs])

    The cell is gone and its overflow pages are free; nothing else changes:
    cells, values, chains, separators and sibling list, through merges,
    redistribution and root collapse. *)

From stdpp Require Import gmap.
From S2P Require Import Prelude Effects Bytes BTreeMap Version Crc Page LeafNode InternalNode.
From S2P Require Import OverflowRefs Chain HistoryCodec KeyTree HistoryStore Synth PageSource PageStore OverflowChain.
From S2P Require Import BTree BTreeLists BTreeShape BTreeNodes BTreeSplit BTreeInsert.
From Stdlib Require Import Sorted.

#[local] Open Scope Z_scope.

(** ** Two neighbouring leaves *)

Section Pairs.
Context {S : Type} `{BTreePageStoreLaws S} `{Crc32c}.

Lemma free_drained_leaf_spec p b s u s' :
  pages_of s !! p = Some (LeafImage b []) -> free_drained_leaf p s = (Ok u, s') -> pages_of s' = delete p (pages_of s).
Proof.
  unfold free_drained_leaf. intros Hp Hf. st_inv Hf. apply st_read_inv in Ha as [_ ->]. apply st_lift_inv in Ha0 as [_ ->]. destruct u. by eapply free_leaf_law.
Qed.

Lemma move_chains_spec from to bf bt chf cht s u s' :
  from <> to -> pages_of s !! from = Some (LeafImage bf chf) -> pages_of s !! to = Some (LeafImage bt cht) ->
  move_all_leaf_chains from to s = (Ok u, s') ->
  pages_of s' !! from = Some (LeafImage bf []) /\ pages_of s' !! to = Some (LeafImage bt (bt_insert_all chf cht))
  /\ forall q, q <> from -> q <> to -> pages_of s' !! q = pages_of s !! q.
Proof.
  intros Hne Hf Ht Hm. unfold move_all_leaf_chains in Hm. st_inv Hm. destruct (drain_chains_spec _ _ _ _ _ _ Hf Ha) as [-> Hw].
  assert (Hr : forall q, pages_of s' !! q = with_more_chains (List.filter (routed (fun _ => Ok to) q) chf) <$> (pages_of w !! q)).
  { apply (rehome_spec _ _ _ _ _ Hm). intros k p [= <-]. rewrite Hw, lookup_insert_ne by done. eauto. }
  assert (Hall : List.filter (routed (fun _ => Ok to) to) chf = chf) by (apply filter_all, Forall_forall; intros x _; unfold routed; apply Z.eqb_refl).
  assert (Hnone : forall q, q <> to -> List.filter (routed (fun _ => Ok to) q) chf = []).
  { intros q Hq. apply filter_never, Forall_forall. intros x _. unfold routed. by apply Z.eqb_neq. }
  split_and!.
  - rewrite Hr, Hw, lookup_insert_eq, Hnone by done. done.
  - rewrite Hr, Hw, lookup_insert_ne, Ht, Hall by done. done.
  - intros q Hq1 Hq2. rewrite Hr, Hw, lookup_insert_ne, Hnone by done. by destruct (pages_of s !! q) as [[]|].
Qed.

Lemma linked_pair m A x y B : linked m 0 (A ++ x :: y :: B) 0 <->
  linked m 0 A x /\ leaf_links m x (default 0 (last A)) y /\ leaf_links m y x (default 0 (head B)) /\ linked m y B 0.
Proof. rewrite links_app. simpl. tauto. Qed.

Lemma linked_one m A x B : linked m 0 (A ++ x :: B) 0 <->
  linked m 0 A x /\ leaf_links m x (default 0 (last A)) (default 0 (head B)) /\ linked m x B 0.
Proof. rewrite links_app. simpl. tauto. Qed.

Lemma leaf_links_img m p prev next b ch n :
  leaf_links m p prev next -> m !! p = Some (LeafImage b ch) -> leaf_img b n -> page_number p /\ prev_leaf_page n = prev /\ next_leaf_page n = next.
Proof.
  intros (Hp & b' & ch' & n' & Hm & Hi & <- & <-) Hm' Hi'. rewrite Hm in Hm'. injection Hm' as <- <-.
  assert (n' = n) as -> by (pose proof (img_parse _ _ Hi); pose proof (img_parse _ _ Hi'); congruence). done.
Qed.

Lemma NoDup_pair {A} (l k : list A) x y : NoDup (l ++ x :: y :: k) ->
  NoDup l /\ NoDup k /\ x <> y /\ (x ∉ l) /\ (x ∉ k) /\ (y ∉ l) /\ (y ∉ k) /\ (forall z, z ∈ l -> z ∉ k).
Proof.
  intros Hnd. destruct (NoDup_mid _ _ _ Hnd) as (Hl & Hk & Hxl & Hxk & Hlk). apply NoDup_cons in Hk as [Hyk Hk].
  split_and!; try done; set_solver.
Qed.

(** The leaf [y] drained into its left neighbour [x] *)
Lemma merge_left_pages s s1 s2 s3 s4 x y nx ny node bx bpy chx chy A B u1 u2 u3 u4 :
  pages_of s !! x = Some (LeafImage bx chx) -> leaf_img bx nx -> pages_of s !! y = Some (LeafImage bpy chy) -> leaf_img bpy ny ->
  cells node = cells ny -> next_leaf_page node = next_leaf_page ny -> bt_sorted (chx ++ chy) ->
  linked (pages_of s) 0 (A ++ x :: y :: B) 0 -> NoDup (A ++ x :: y :: B) ->
  move_all_leaf_chains y x s = (Ok u1, s1) -> relink_prev (next_leaf_page node) x s1 = (Ok u2, s2) ->
  write_leaf_node x (set_next (next_leaf_page node) (set_cells (cells nx ++ cells node) nx)) s2 = (Ok u3, s3) ->
  free_drained_leaf y s3 = (Ok u4, s4) ->
  (exists b n, pages_of s4 !! x = Some (LeafImage b (chx ++ chy)) /\ leaf_img b n /\ cells n = cells nx ++ cells ny)
  /\ pages_of s4 !! y = None /\ linked (pages_of s4) 0 (A ++ x :: B) 0 /\ frame (pages_of s) (pages_of s4) [x; y] (A ++ B).
Proof.
  intros Hx Hix Hy Hiy Hcn Hnn Hs Hl Hnd Hmv Hrl Hwr Hfr. set (merged := set_next _ _) in Hwr. destruct (NoDup_pair _ _ _ _ Hnd) as (_ & HndB & Hxy & HxA & HxB & HyA & HyB & HAB).
  apply linked_pair in Hl as (HlA & Hlx & Hly & HlB). destruct (leaf_links_img _ _ _ _ _ _ _ Hlx Hx Hix) as (Hpx & Hpvx & Hnx).
  destruct (leaf_links_img _ _ _ _ _ _ _ Hly Hy Hiy) as (Hpy & Hpvy & Hny).
  destruct (move_chains_spec y x _ _ _ _ _ _ _ (not_eq_sym Hxy) Hy Hx Hmv) as (Hy1 & Hx1 & Ho1). rewrite bt_insert_all_above in Hx1 by done.
  destruct (relink_prev_spec B y x s1 u2 s2) as (HlB2 & Ho2 & Hsc2).
  { eapply linked_eq; [|exact HlB]. intros q Hq. apply Ho1; by intros ->. }
  { done. } { done. } { by rewrite <- Hny, <- Hnn. }
  pose proof (img_wf _ _ Hix) as (Hw1 & Hw2 & Hw3 & Hw4). pose proof (img_wf _ _ Hiy) as (_ & Hw5 & _ & Hw6).
  assert (Hwf : node_wf merged).
  { apply node_wf_mk; [done|by rewrite Hnn|done|]. apply Forall_app. rewrite Hcn. done. }
  destruct (write_leaf_node_spec s2 x bx (chx ++ chy) merged u3 s3) as (b3 & Hs3 & Hi3); [by rewrite Ho2|exact Hwf|exact Hwr|].
  apply (free_drained_leaf_spec y bpy) in Hfr; [|by rewrite Hs3, lookup_insert_ne, Ho2].
  assert (Hother : forall q, q <> x -> q <> y -> pages_of s4 !! q = pages_of s2 !! q).
  { intros q Hqx Hqy. by rewrite Hfr, lookup_delete_ne, Hs3, lookup_insert_ne by done. }
  assert (Hx4 : pages_of s4 !! x = Some (LeafImage b3 (chx ++ chy))) by (by rewrite Hfr, lookup_delete_ne, Hs3, lookup_insert_eq).
  split_and!.
  - exists b3, (encoded_node merged). split_and!; [done..|]. simpl. by rewrite Hcn.
  - by rewrite Hfr, lookup_delete_eq.
  - apply linked_one. split_and!.
    + eapply linked_eq; [|exact HlA]. intros q Hq. assert (q <> x /\ q <> y) as [? ?] by (split; by intros ->). rewrite Hother, Ho2, Ho1 by (done || by apply HAB). done.
    + split; [done|]. exists b3, (chx ++ chy), (encoded_node merged). split_and!; [done..|]. simpl. by rewrite Hnn.
    + eapply linked_eq; [|exact HlB2]. intros q Hq. apply Hother; by intros ->.
  - intros q Hq. assert (q <> x /\ q <> y) as [? ?] by set_solver. split.
    + eapply same_content_trans; [|apply same_content_eq; by apply Hother]. eapply same_content_trans; [|apply Hsc2]. left. by apply Ho1.
    + intros [_ HqB]%not_elem_of_app. by rewrite Hother, Ho2, Ho1.
Qed.

(** The leaf [x] drained into its right neighbour [y] *)
Lemma merge_right_pages s s1 s2 s3 s4 x y nx ny node bx bpy chx chy A B u1 u2 u3 u4 :
  pages_of s !! x = Some (LeafImage bx chx) -> leaf_img bx nx -> pages_of s !! y = Some (LeafImage bpy chy) -> leaf_img bpy ny ->
  cells node = cells nx -> prev_leaf_page node = prev_leaf_page nx -> bt_sorted (chx ++ chy) ->
  linked (pages_of s) 0 (A ++ x :: y :: B) 0 -> NoDup (A ++ x :: y :: B) ->
  move_all_leaf_chains x y s = (Ok u1, s1) -> relink_next (prev_leaf_page node) y s1 = (Ok u2, s2) ->
  write_leaf_node y (set_prev (prev_leaf_page node) (set_cells (cells node ++ cells ny) ny)) s2 = (Ok u3, s3) ->
  free_drained_leaf x s3 = (Ok u4, s4) ->
  (exists b n, pages_of s4 !! y = Some (LeafImage b (chx ++ chy)) /\ leaf_img b n /\ cells n = cells nx ++ cells ny)
  /\ pages_of s4 !! x = None /\ linked (pages_of s4) 0 (A ++ y :: B) 0 /\ frame (pages_of s) (pages_of s4) [x; y] (A ++ B).
Proof.
  intros Hx Hix Hy Hiy Hcn Hnn Hs Hl Hnd Hmv Hrl Hwr Hfr. set (merged := set_prev _ _) in Hwr.
  destruct (NoDup_pair _ _ _ _ Hnd) as (HndA & _ & Hxy & HxA & HxB & HyA & HyB & HAB).
  apply linked_pair in Hl as (HlA & Hlx & Hly & HlB). destruct (leaf_links_img _ _ _ _ _ _ _ Hlx Hx Hix) as (Hpx & Hpvx & Hnx).
  destruct (leaf_links_img _ _ _ _ _ _ _ Hly Hy Hiy) as (Hpy & Hpvy & Hny).
  destruct (move_chains_spec x y _ _ _ _ _ _ _ Hxy Hx Hy Hmv) as (Hx1 & Hy1 & Ho1).
  pose proof (bt_insert_all_below chx [] chy Hs) as Hbi. cbn [app] in Hbi. rewrite Hbi in Hy1.
  destruct (relink_next_spec A x y s1 u2 s2) as (HlA2 & Ho2 & Hsc2).
  { eapply linked_eq; [|exact HlA]. intros q Hq. apply Ho1; by intros ->. }
  { done. } { done. } { by rewrite <- Hpvx, <- Hnn. }
  pose proof (img_wf _ _ Hix) as (_ & _ & Hw5 & Hw6). pose proof (img_wf _ _ Hiy) as (Hw1 & Hw2 & Hw3 & Hw4).
  assert (Hwf : node_wf merged).
  { apply node_wf_mk; [done|done|by rewrite Hnn|]. apply Forall_app. rewrite Hcn. done. }
  destruct (write_leaf_node_spec s2 y bpy (chx ++ chy) merged u3 s3) as (b3 & Hs3 & Hi3); [by rewrite Ho2|exact Hwf|exact Hwr|].
  apply (free_drained_leaf_spec x bx) in Hfr; [|by rewrite Hs3, lookup_insert_ne, Ho2].
  assert (Hother : forall q, q <> x -> q <> y -> pages_of s4 !! q = pages_of s2 !! q).
  { intros q Hqx Hqy. by rewrite Hfr, lookup_delete_ne, Hs3, lookup_insert_ne by done. }
  assert (Hy4 : pages_of s4 !! y = Some (LeafImage b3 (chx ++ chy))) by (by rewrite Hfr, lookup_delete_ne, Hs3, lookup_insert_eq).
  split_and!.
  - exists b3, (encoded_node merged). split_and!; [done..|]. simpl. by rewrite Hcn.
  - by rewrite Hfr, lookup_delete_eq.
  - apply linked_one. split_and!.
    + eapply linked_eq; [|exact HlA2]. intros q Hq. apply Hother; by intros ->.
    + split; [done|]. exists b3, (chx ++ chy), (encoded_node merged). split_and!; [done..| |done]. simpl. by rewrite Hnn.
    + assert (HlB' : linked (pages_of s4) y B 0); [|exact HlB']. eapply linked_eq; [|exact HlB]. intros q Hq.
      assert (q <> x /\ q <> y) as [? ?] by (split; by intros ->). rewrite Hother, Ho2, Ho1; try done. intros HqA. by apply (HAB q).
  - intros q Hq. assert (q <> x /\ q <> y) as [? ?] by set_solver. split.
    + eapply same_content_trans; [|apply same_content_eq; by apply Hother]. eapply same_content_trans; [|apply Hsc2]. left. by apply Ho1.
    + intros [HqA _]%not_elem_of_app. by rewrite Hother, Ho2, Ho1.
Qed.

Lemma redistribute_chains_spec x y bx bpy chx chy k s u s' :
  x <> y -> pages_of s !! x = Some (LeafImage bx chx) -> pages_of s !! y = Some (LeafImage bpy chy) -> bt_sorted (chx ++ chy) ->
  redistribute_leaf_chains x y k s = (Ok u, s') ->
  pages_of s' !! x = Some (LeafImage bx (chains_below k (chx ++ chy))) /\ pages_of s' !! y = Some (LeafImage bpy (chains_from k (chx ++ chy)))
  /\ forall q, q <> x -> q <> y -> pages_of s' !! q = pages_of s !! q.
Proof.
  intros Hne Hx Hy Hs Hr. unfold redistribute_leaf_chains in Hr. st_inv Hr. destruct (drain_chains_spec _ _ _ _ _ _ Hx Ha) as [-> Hw].
  destruct (drain_chains_spec w y bpy chy a0 w0) as [-> Hw0]; [by rewrite Hw, lookup_insert_ne|done|]. set (route := fun key => _) in Hr.
  assert (Hrh : forall q, pages_of s' !! q = with_more_chains (List.filter (routed route q) (chx ++ chy)) <$> (pages_of w0 !! q)).
  { apply (rehome_spec _ _ _ _ _ Hr). intros key p [= <-]. rewrite Hw0, Hw. destruct (lex_ltb key k).
    - rewrite lookup_insert_ne, lookup_insert_eq by done. eauto.
    - rewrite lookup_insert_eq. eauto. }
  destruct (chains_cut_sorted _ k Hs) as [Hsb Hsf]. split_and!.
  - rewrite Hrh, Hw0, lookup_insert_ne, Hw, lookup_insert_eq by done. simpl.
    replace (List.filter (routed route x) (chx ++ chy)) with (chains_below k (chx ++ chy)); [by rewrite bt_insert_all_above|].
    apply List.filter_ext. intros [key c]. unfold routed, route. simpl. destruct (lex_ltb key k); [by rewrite Z.eqb_refl|]. symmetry. by apply Z.eqb_neq.
  - rewrite Hrh, Hw0, lookup_insert_eq. simpl.
    replace (List.filter (routed route y) (chx ++ chy)) with (chains_from k (chx ++ chy)); [by rewrite bt_insert_all_above|].
    apply List.filter_ext. intros [key c]. unfold routed, route. simpl. destruct (lex_ltb key k) eqn:E.
    + rewrite (proj2 (lex_leb_nle k key)) by (by apply lex_ltb_lt). symmetry. by apply Z.eqb_neq.
    + rewrite (proj2 (lex_leb_le k key)) by (by apply lex_ltb_nlt). by rewrite Z.eqb_refl.
  - intros q Hqx Hqy. rewrite Hrh, Hw0, lookup_insert_ne, Hw, lookup_insert_ne by done.
    replace (List.filter (routed route q) (chx ++ chy)) with (@nil (list Z * chain)); [by destruct (pages_of s !! q) as [[]|]|].
    symmetry. apply filter_never, Forall_forall. intros [key c] _. unfold routed, route. simpl. destruct (lex_ltb key k); by apply Z.eqb_neq.
Qed.

Lemma entries_split c0 es1 k y es2 :
  to_entries c0 (es1 ++ (k, y) :: es2) = (fst (to_entries c0 es1) ++ (k, child_of c0 es1) :: fst (to_entries y es2), snd (to_entries y es2)).
Proof. rewrite to_entries_app. simpl. by destruct (to_entries y es2). Qed.

Lemma entry_at level c0 es1 k y es2 : in_entries (node_of level c0 (es1 ++ (k, y) :: es2)) !! length es1 = Some (k, child_of c0 es1).
Proof. unfold node_of. cbn [in_entries]. rewrite entries_split. cbn [fst]. apply list_lookup_middle. by rewrite to_entries_length. Qed.

(** A new key for a separator *)
Lemma entries_rekey level c0 es1 k k' y es2 :
  set_entries (<[length es1 := (k', child_of c0 es1)]> (in_entries (node_of level c0 (es1 ++ (k, y) :: es2)))) (node_of level c0 (es1 ++ (k, y) :: es2))
  = node_of level c0 (es1 ++ (k', y) :: es2).
Proof.
  unfold set_entries, node_of. cbn [in_level in_entries in_rightmost_child]. rewrite !entries_split. cbn [fst snd]. f_equal.
  rewrite <- (to_entries_length c0 es1). rewrite <- (Nat.add_0_r (length _)). by rewrite insert_app_r.
Qed.

(** Cells and chains of two neighbours cut at another key *)
Lemma redistribute_spec s s' x y nx ny nodex nodey bx bpy chx chy A B level p c0 es1 k es2 gcs u :
  pages_of s !! x = Some (LeafImage bx chx) -> leaf_img bx nx -> pages_of s !! y = Some (LeafImage bpy chy) -> leaf_img bpy ny ->
  node_wf nodex -> node_wf nodey -> prev_leaf_page nodex = prev_leaf_page nx -> next_leaf_page nodey = next_leaf_page ny ->
  cells nodex ++ cells nodey = map gc_cell gcs -> bt_sorted (chx ++ chy) ->
  linked (pages_of s) 0 (A ++ x :: y :: B) 0 -> NoDup (A ++ x :: y :: B) ->
  internal_at (pages_of s) level p c0 (es1 ++ (k, y) :: es2) -> child_of c0 es1 = x ->
  redistribute_leaf_pair x nodex y nodey p (length es1) s = (Ok u, s') ->
  exists gl c gr, gcs = gl ++ c :: gr /\ gl <> []
    /\ (exists b n, pages_of s' !! x = Some (LeafImage b (chains_below (gc_key c) (chx ++ chy))) /\ leaf_img b n /\ cells n = map gc_cell gl)
    /\ (exists b n, pages_of s' !! y = Some (LeafImage b (chains_from (gc_key c) (chx ++ chy))) /\ leaf_img b n /\ cells n = map gc_cell (c :: gr))
    /\ internal_at (pages_of s') level p c0 (es1 ++ (gc_key c, y) :: es2)
    /\ linked (pages_of s') 0 (A ++ x :: y :: B) 0 /\ (forall q, q ∉ [x; y; p] -> pages_of s' !! q = pages_of s !! q).
Proof.
  intros Hx Hix Hy Hiy Hwx Hwy Hpx' Hny' Hcells Hs Hl Hnd Hi Hchild Hr. unfold redistribute_leaf_pair in Hr. cbv zeta in Hr. rewrite Hcells in Hr. st_inv Hr.
  apply st_lift_inv in Ha as [Hcut ->]. unfold ok_or in Hcut. destruct (choose_leaf_redistribution_split (map gc_cell gcs) (len (cells nodex))) as [i|] eqn:E; [|done].
  injection Hcut as <-. apply choose_Some in E as ((Hi1 & Hi2) & _). rewrite length_map in Hi2.
  apply st_lift_inv in Ha0 as [Hsep ->].
  destruct (lookup_lt_is_Some_2 gcs i Hi2) as [c Hc]. pose proof (take_drop_middle _ _ _ Hc) as Hmid. set (gl := take i gcs) in *. set (gr := drop (Datatypes.S i) gcs) in *.
  assert (Hgl : length gl = i) by (unfold gl; rewrite length_take; lia).
  rewrite <- Hmid in Hsep, Ha2, Ha3. rewrite map_app in Hsep, Ha2, Ha3. cbn [map] in Hsep, Ha2, Ha3.
  rewrite <- Hgl, <- (length_map gc_cell gl) in Hsep, Ha2, Ha3. rewrite drop_app_length in Hsep, Ha3. rewrite take_app_length in Ha2. injection Hsep as <-.
  fold (gc_key c) in *. apply st_lift_inv in Ha2 as [He2 ->]. apply st_lift_inv in Ha3 as [He3 ->]. apply st_read_inv in Ha4 as [Hp4 ->].
  apply st_lift_inv in Ha5 as [Hent ->]. apply st_lift_inv in Ha6 as [He6 ->]. destruct a1, a7, a8, u.
  destruct (NoDup_pair _ _ _ _ Hnd) as (_ & _ & Hxy & HxA & HxB & HyA & HyB & _). pose proof Hi as (Hpp & Hlv & Hc0 & Hes & bp & Hbp & _).
  assert (Hpx : p <> x /\ p <> y) by (split; intros ->; congruence). destruct Hpx as [Hpx Hpy].
  destruct (redistribute_chains_spec _ _ _ _ _ _ _ _ _ _ Hxy Hx Hy Hs Ha1) as (Hx1 & Hy1 & Ho1).
  rewrite (read_internal_node_at _ level p c0 (es1 ++ (k, y) :: es2)) in Hp4 by (eapply internal_at_frame; [|exact Hi]; by apply Ho1). injection Hp4 as <-.
  rewrite entry_at in Hent. injection Hent as <-. cbn [snd] in He6. rewrite entries_rekey in He6.
  pose proof Hwx as (Hx1w & Hx2w & Hx3w & Hx4w). pose proof Hwy as (Hy1w & Hy2w & Hy3w & Hy4w).
  apply linked_pair in Hl as (HlA & Hlx & Hly & HlB). destruct (leaf_links_img _ _ _ _ _ _ _ Hlx Hx Hix) as (Hpnx & Hpvx & Hnx).
  destruct (leaf_links_img _ _ _ _ _ _ _ Hly Hy Hiy) as (Hpny & Hpvy & Hny).
  assert (Hok : Forall cell_ok (map gc_cell gcs)) by (rewrite <- Hcells; apply Forall_app; done). rewrite <- Hmid, map_app in Hok.
  apply Forall_app in Hok as [Hokl Hokr]. cbn [map] in Hokr.
  destruct (encode_img (set_next y (set_cells (map gc_cell gl) nodex)) a2) as [Hi2' Hl2]; [apply node_wf_mk; auto|exact He2|].
  destruct (encode_img (set_prev x (set_cells (gc_cell c :: map gc_cell gr) nodey)) a3) as [Hi3' Hl3]; [apply node_wf_mk; auto|exact He3|].
  assert (Hes' : Forall (fun e => page_number (snd e)) (es1 ++ (gc_key c, y) :: es2)).
  { apply Forall_app in Hes as [? [? ?]%Forall_cons]. apply Forall_app. by split; [|constructor]. }
  destruct (internal_encode_inv _ _ (node_of_wf level c0 _ Hlv Hc0 Hes') He6) as (_ & Hl6 & Hpar).
  apply (write_leaf_law _ _ _ _ _ _ Hx1 Hl2) in Ha7.
  apply (write_leaf_law _ _ bpy (chains_from (gc_key c) (chx ++ chy))) in Ha8; [|by rewrite Ha7, lookup_insert_ne|exact Hl3].
  apply (write_internal_law _ _ bp) in Hr; [|rewrite Ha8, !lookup_insert_ne, Ha7, lookup_insert_ne, Ho1 by done; done|exact Hl6].
  assert (Hother : forall q, q ∉ [x; y; p] -> pages_of s' !! q = pages_of s !! q).
  { intros q Hq. assert (q <> x /\ q <> y /\ q <> p) as (? & ? & ?) by set_solver. rewrite Hr, Ha8, Ha7, !lookup_insert_ne by done. by apply Ho1. }
  assert (Hx' : pages_of s' !! x = Some (LeafImage a2 (chains_below (gc_key c) (chx ++ chy))))
    by (by rewrite Hr, lookup_insert_ne, Ha8, lookup_insert_ne, Ha7, lookup_insert_eq).
  assert (Hy' : pages_of s' !! y = Some (LeafImage a3 (chains_from (gc_key c) (chx ++ chy)))) by (by rewrite Hr, lookup_insert_ne, Ha8, lookup_insert_eq).
  exists gl, c, gr. split; [done|]. split; [intros ->; simpl in Hgl; lia|]. split; [eauto 6|]. split; [eauto 6|]. split; [|split; [|exact Hother]].
  - do 4 (split; [done|]). exists a6. split; [by rewrite Hr, lookup_insert_eq|exact Hpar].
  - assert (Hleaf : forall q b ch, pages_of s !! q = Some (LeafImage b ch) -> q <> x -> q <> y -> pages_of s' !! q = pages_of s !! q).
    { intros q b ch Hq Hqx Hqy. apply Hother. assert (q <> p) by (intros ->; congruence). set_solver. }
    apply linked_pair. split; [|split; [|split]].
    + eapply linked_eq; [|exact HlA]. intros q Hq. destruct (linked_leaf_page _ _ _ _ _ HlA Hq) as (b & ch & n & Hb & _).
      eapply Hleaf; [exact Hb|by intros ->|by intros ->].
    + split; [done|]. eexists a2, _, _. split; [exact Hx'|]. split; [exact Hi2'|]. simpl. by rewrite Hpx', Hpvx.
    + split; [done|]. eexists a3, _, _. split; [exact Hy'|]. split; [exact Hi3'|]. simpl. by rewrite Hny', Hny.
    + eapply linked_eq; [|exact HlB]. intros q Hq. destruct (linked_leaf_page _ _ _ _ _ HlB Hq) as (b & ch & n & Hb & _).
      eapply Hleaf; [exact Hb|by intros ->|by intros ->].
Qed.
End Pairs.

(** ** The parent *)

Section Parent.
Context {S : Type} `{BTreePageStoreLaws S} `{Crc32c}.

Abbreviation pages t := (pages_of (bt_store t)).

(** Another child to the right of a separator *)
Lemma replace_child_node level c0 es1 k y es2 x :
  snd (replace_child (Datatypes.S (length es1)) x (node_of level c0 (es1 ++ (k, y) :: es2))) = node_of level c0 (es1 ++ (k, x) :: es2).
Proof.
  unfold replace_child, node_of. cbn [in_level in_entries in_rightmost_child]. rewrite !entries_split. cbn [fst snd].
  set (e1 := fst (to_entries c0 es1) ++ [(k, child_of c0 es1)]).
  assert (He : forall l, fst (to_entries c0 es1) ++ (k, child_of c0 es1) :: l = e1 ++ l) by (intros l; unfold e1; by rewrite <- app_assoc).
  rewrite !He. assert (Hl : Datatypes.S (length es1) = length e1) by (unfold e1; rewrite length_app, to_entries_length; simpl; lia). rewrite Hl.
  rewrite lookup_app_r, Nat.sub_diag by done. destruct es2 as [|[k2 z] es2]; simpl; [done|]. destruct (to_entries z es2) as [e r]. simpl.
  unfold set_entries. simpl. f_equal. rewrite <- (Nat.add_0_r (length e1)). by rewrite insert_app_r.
Qed.

(** A separator and the child to its left removed *)
Lemma remove_entry level c0 es1 k x es2 :
  remove_at (length es1) (in_entries (node_of level c0 (es1 ++ (k, x) :: es2)))
  = Ok ((k, child_of c0 es1), fst (to_entries c0 es1) ++ fst (to_entries x es2)).
Proof.
  unfold remove_at. rewrite entry_at. unfold node_of. cbn [in_entries]. rewrite entries_split. cbn [fst]. rewrite <- (to_entries_length c0 es1).
  rewrite take_app_length. by rewrite cons_middle, app_assoc, drop_app_length' by (rewrite length_app; simpl; lia).
Qed.

Lemma removed_left level c0 es1 k es2 :
  set_entries (fst (to_entries c0 es1) ++ fst (to_entries (child_of c0 es1) es2)) (node_of level c0 (es1 ++ (k, child_of c0 es1) :: es2))
  = node_of level c0 (es1 ++ es2).
Proof. unfold set_entries, node_of. cbn [in_level in_rightmost_child]. rewrite entries_split, to_entries_app. done. Qed.

Lemma removed_first level c0 k x es2 :
  set_entries (fst (to_entries c0 []) ++ fst (to_entries x es2)) (node_of level c0 ([] ++ (k, x) :: es2)) = node_of level x es2.
Proof. unfold set_entries, node_of. cbn [in_level in_rightmost_child]. rewrite entries_split. done. Qed.

Lemma redirect_spec s level p c0 es1 k y es2 x u s' :
  internal_at (pages_of s) level p c0 (es1 ++ (k, y) :: es2) -> page_number x ->
  redirect_parent_child_pointer p (Datatypes.S (length es1)) x s = (Ok u, s') ->
  internal_at (pages_of s') level p c0 (es1 ++ (k, x) :: es2) /\ forall q, q <> p -> pages_of s' !! q = pages_of s !! q.
Proof.
  intros Hi Hx Hr. pose proof Hi as (Hp & Hlv & Hc0 & Hes & b & Hb & _). unfold redirect_parent_child_pointer in Hr. st_inv Hr.
  apply st_read_inv in Ha as [Ha ->]. rewrite (read_internal_node_at _ _ _ _ _ Hi) in Ha. injection Ha as <-. rewrite replace_child_node in Hr.
  eapply write_internal_node_spec; try done. apply Forall_app in Hes as [? [? ?]%Forall_cons]. apply Forall_app. by split; [|constructor].
Qed.

(** What is left of the parent: the node without the separator, or, for a root
    without separators, its one child as the root *)
Definition separator_removed (t t' : BTree S) (level : nat) (p c0 : Z) (es : list (list Z * Z)) : Prop :=
  (root_page t' = root_page t /\ root_level t' = root_level t /\ internal_at (pages t') level p c0 es
   /\ forall q, q <> p -> pages t' !! q = pages t !! q)
  \/ (es = [] /\ p = root_page t /\ root_page t' = c0 /\ root_level t' = (root_level t - 1)%nat /\ pages t' = delete p (pages t)).

Lemma remove_from_parent_spec t level p c0 es1 k x es2 c0' es' u t' :
  internal_at (pages t) level p c0 (es1 ++ (k, x) :: es2) ->
  set_entries (fst (to_entries c0 es1) ++ fst (to_entries x es2)) (node_of level c0 (es1 ++ (k, x) :: es2)) = node_of level c0' es' ->
  page_number c0' -> Forall (fun e => page_number (snd e)) es' ->
  remove_from_parent p (length es1) t = (Ok u, t') -> separator_removed t t' level p c0' es'.
Proof.
  intros Hi Hnode Hc0' Hes' Hr. pose proof Hi as (Hp & Hlv & Hc0 & Hes & b & Hb & _). unfold remove_from_parent in Hr. st_inv Hr.
  apply st_read_inv in Ha as [Ha ->]. rewrite (read_internal_node_at _ _ _ _ _ Hi) in Ha. injection Ha as <-.
  apply st_lift_inv in Ha0 as [Hrem ->]. rewrite remove_entry in Hrem. injection Hrem as <-. apply st_read_inv in Ha1 as [[= <-] ->]. cbn [snd] in Hr.
  rewrite Hnode in Hr. destruct (bool_decide (in_entries (node_of level c0' es') = []) && (p =? root_page t)) eqn:E.
  - apply andb_true_iff in E as [E1%bool_decide_eq_true E2%Z.eqb_eq]. right. assert (es' = []) as ->.
    { destruct es' as [|[k' c'] es']; [done|]. unfold node_of in E1. simpl in E1. by destruct (to_entries c' es'). }
    st_inv Hr. apply st_read_inv in Ha as [[= <-] ->]. injection Ha0 as <- <-. apply on_store_inv in Hr as (s1 & Hf & ->). cbn [bt_store root_page root_level] in *.
    destruct u. split_and!; try done. by eapply free_internal_law.
  - left. apply on_store_inv in Hr as (s1 & Hw & ->). cbn [bt_store root_page root_level]. do 2 (split; [done|]). by eapply write_internal_node_spec.
Qed.
End Parent.

(** ** Leaves under one parent *)

Lemma leaf_siblings m c0 es lo hi ls ps : siblings (subtree m 0) c0 es lo hi ls ps -> ps = [] /\ map g_page ls = c0 :: map snd es.
Proof.
  induction 1 as [p lo hi ls ps Ht|p k q es lo hi ls ps ls' ps' Ht _ _ _ [-> IH]]; destruct Ht as (L & -> & -> & <- & _); simpl; [done|]. by rewrite IH.
Qed.

Lemma pair_focus m c0 es1 k y es2 lo hi ls ps : siblings (subtree m 0) c0 (es1 ++ (k, y) :: es2) lo hi ls ps ->
  exists lsL X Y lsR, ls = lsL ++ X :: Y :: lsR /\ ps = [] /\ g_page X = child_of c0 es1 /\ g_page Y = y /\ leaf_at m X /\ leaf_at m Y
    /\ leaf_within (lo_of lo es1) (Some k) X /\ leaf_within (Some k) (hi_of hi es2) Y
    /\ strictly_above (lo_of lo es1) k /\ below (hi_of hi es2) k
    /\ forall m' mid' lsM', (forall q, q ∈ footprint (lsL ++ lsR) [] -> same_content m m' q) ->
         siblings (subtree m' 0) (child_of c0 es1) mid' (lo_of lo es1) (hi_of hi es2) lsM' [] ->
         siblings (subtree m' 0) c0 (es1 ++ mid' ++ es2) lo hi (lsL ++ lsM' ++ lsR) [].
Proof.
  intros Hs. destruct (siblings_focus _ _ es1 [(k, y)] es2 _ _ _ _ Hs (subtree_contents _ 0)) as (lsL & psL & lsM & psM & lsR & psR & -> & -> & Hm & _ & _ & Hc).
  destruct (leaf_siblings _ _ _ _ _ _ _ Hs) as [Hps _]. apply app_nil in Hps as [-> Hps]. apply app_nil in Hps as [-> ->].
  apply siblings_cons_inv in Hm as (l1 & p1 & l2 & p2 & -> & _ & (X & -> & -> & HX & HaX & HwX) & Ha & Hb & HY). apply siblings_one in HY as (Y & -> & -> & HY & HaY & HwY).
  exists lsL, X, Y, lsR. split_and!; try done. intros m' mid' lsM' Hf Hm. apply (Hc (subtree m' 0) mid' lsM' []); [|exact Hm].
  intros p lo1 hi1 ls1 ps1 Ht Hsub. eapply subtree_content; [|exact Ht]. intros q Hq. apply Hf, Hsub, Hq.
Qed.

Definition merged (page : Z) (X Y : gleaf) : gleaf := mkGLeaf page (g_cells X ++ g_cells Y) (g_chains X ++ g_chains Y).

Lemma merged_within lo k hi page X Y :
  strictly_above lo k -> below hi k -> leaf_within lo (Some k) X -> leaf_within (Some k) hi Y -> leaf_within lo hi (merged page X Y).
Proof.
  intros Ha Hb (X1 & X2 & X3 & X4) (Y1 & Y2 & Y3 & Y4).
  destruct (ksorted_join gc_key lo hi k _ _ Ha Hb X1 X2 Y1 Y2). destruct (ksorted_join fst lo hi k _ _ Ha Hb X3 X4 Y3 Y4). done.
Qed.

Lemma cells_of_pair lsL X Y lsR : cells_of (lsL ++ X :: Y :: lsR) = cells_of lsL ++ (g_cells X ++ g_cells Y) ++ cells_of lsR.
Proof. unfold cells_of. rewrite map_app, concat_app. simpl. by rewrite <- app_assoc. Qed.

Lemma chains_of_pair lsL X Y lsR : chains_of (lsL ++ X :: Y :: lsR) = chains_of lsL ++ (g_chains X ++ g_chains Y) ++ chains_of lsR.
Proof. unfold chains_of. rewrite map_app, concat_app. simpl. by rewrite <- app_assoc. Qed.

(** A page of two neighbours is none of the others and holds no value. *)
Lemma pair_disjoint p lsL X Y lsR : NoDup (footprint (lsL ++ X :: Y :: lsR) [p]) -> forall q, q ∈ [g_page X; g_page Y; p] ->
  (q ∉ footprint (lsL ++ lsR) []) /\ q ∉ overflow_of (g_cells X ++ g_cells Y).
Proof.
  intros Hnd q Hq. assert (Hp : footprint (lsL ++ X :: Y :: lsR) [p] ≡ₚ [g_page X; g_page Y; p] ++ footprint (lsL ++ lsR) [] ++ overflow_of (g_cells X ++ g_cells Y)).
  { unfold footprint, nodes. rewrite cells_of_pair, cells_of_app, !overflow_of_app, !map_app. simpl. solve_Permutation. }
  rewrite Hp in Hnd. apply NoDup_app in Hnd as (_ & Hd & _). specialize (Hd q Hq). by apply not_elem_of_app in Hd.
Qed.

Section Underflow.
Context {S : Type} `{BTreePageStoreLaws S} `{Crc32c}.

Abbreviation pages t := (pages_of (bt_store t)).

(** The parent with its leaves after the change: in place, or, for a root left
    with one child, that child as the root *)
Definition parent_left (t t' : BTree S) (p : Z) (lo hi : option (list Z)) (ls : list gleaf) (ps : list Z) : Prop :=
  (root_page t' = root_page t /\ root_level t' = root_level t /\ subtree (pages t') 1 p lo hi ls ps)
  \/ (p = root_page t /\ root_level t' = (root_level t - 1)%nat /\ subtree (pages t') 0 (root_page t') lo hi ls ps).

Definition rebalanced (t t' : BTree S) (p : Z) (lo hi : option (list Z)) (ls : list gleaf) (A B : list Z) : Prop :=
  exists ls' ps' freed, parent_left t t' p lo hi ls' ps' /\ cells_of ls' = cells_of ls /\ chains_of ls' = chains_of ls
    /\ nodes ls [p] ≡ₚ freed ++ nodes ls' ps' /\ (forall q, q ∈ freed -> pages t' !! q = None)
    /\ linked (pages t') 0 (A ++ map g_page ls' ++ B) 0 /\ frame (pages t) (pages t') (nodes ls [p]) (A ++ B).

Lemma separator_removed_spec t t' p c0 es lo hi ls A B :
  siblings (subtree (pages t) 0) c0 es lo hi ls [] -> p ∉ footprint ls [] -> (exists b, pages t !! p = Some (InternalImage b)) ->
  linked (pages t) 0 (A ++ map g_page ls ++ B) 0 -> separator_removed t t' 1 p c0 es ->
  exists ps' freed, parent_left t t' p lo hi ls ps' /\ [p] = freed ++ ps' /\ (forall q, q ∈ freed -> pages t' !! q = None)
    /\ linked (pages t') 0 (A ++ map g_page ls ++ B) 0 /\ forall q, q <> p -> pages t' !! q = pages t !! q.
Proof.
  intros Hs Hp [b Hb] Hl Hsep.
  assert (Hsame : forall q, q <> p -> pages t' !! q = pages t !! q).
  { destruct Hsep as [(_ & _ & _ & Ho)|(_ & _ & _ & _ & ->)]; [done|]. intros q Hq. by rewrite lookup_delete_ne. }
  assert (Hs' : siblings (subtree (pages t') 0) c0 es lo hi ls []).
  { eapply siblings_content; [|exact Hs]. intros q Hq. left. apply Hsame. by intros ->. }
  assert (Hl' : linked (pages t') 0 (A ++ map g_page ls ++ B) 0).
  { eapply linked_eq; [|exact Hl]. intros q Hq. destruct (linked_leaf_page _ _ _ _ _ Hl Hq) as (b' & ch & n & Hq' & _). apply Hsame. intros ->. congruence. }
  destruct Hsep as [(Hr1 & Hr2 & Hi & _)|(-> & Hr1 & <- & Hr2 & Hdel)].
  - exists [p], []. split; [|split; [done|split; [set_solver|done]]]. left. split_and!; [done..|]. exists c0, es, []. done.
  - exists [], [p]. split; [|split; [done|split; [|done]]]; [right; split_and!; [done..|by apply siblings_one]|].
    intros q ->%list_elem_of_singleton. by rewrite Hdel, lookup_delete_eq.
Qed.

(** A node in memory with the cells and links of its page *)
Definition node_on (m : page_map) (p : Z) (node : LeafNode) : Prop :=
  exists b ch n, m !! p = Some (LeafImage b ch) /\ leaf_img b n /\ node_wf node /\ cells node = cells n
    /\ prev_leaf_page node = prev_leaf_page n /\ next_leaf_page node = next_leaf_page n.

Lemma leaf_at_node m L node : leaf_at m L -> node_on m (g_page L) node ->
  exists b n, m !! g_page L = Some (LeafImage b (g_chains L)) /\ leaf_img b n /\ cells n = map gc_cell (g_cells L)
    /\ node_wf node /\ cells node = cells n /\ prev_leaf_page node = prev_leaf_page n /\ next_leaf_page node = next_leaf_page n.
Proof.
  intros (_ & (b & n & Hm & Hi & Hc) & _) (b' & ch & n' & Hm' & Hi' & Hrest). rewrite Hm in Hm'. injection Hm' as <- <-.
  assert (n' = n) as -> by (pose proof (img_parse _ _ Hi); pose proof (img_parse _ _ Hi'); congruence). exists b, n. done.
Qed.

Lemma leaf_at_read (s : S) L node : leaf_at (pages_of s) L -> read_leaf_node s (g_page L) = Ok node -> node_on (pages_of s) (g_page L) node.
Proof.
  intros (_ & (b & n & Hm & Hi & Hc) & _) Hr. rewrite (read_leaf_node_at _ _ _ _ _ Hm Hi) in Hr. injection Hr as <-.
  exists b, (g_chains L), n. split_and!; try done. apply (img_wf _ _ Hi).
Qed.

(** The merged leaf on its page *)
Lemma merged_at (m m' : page_map) page X Y b n :
  page_number page -> leaf_at m X -> leaf_at m Y -> m' !! page = Some (LeafImage b (g_chains X ++ g_chains Y)) -> leaf_img b n ->
  cells n = map gc_cell (g_cells X) ++ map gc_cell (g_cells Y) ->
  (forall q, q ∈ overflow_of (g_cells X ++ g_cells Y) -> same_content m m' q) -> leaf_at m' (merged page X Y).
Proof.
  intros Hp (_ & _ & HcX) (_ & _ & HcY) Hm Hi Hc Hf. split; [done|]. split.
  - exists b, n. simpl. by rewrite map_app.
  - simpl. eapply gcells_at_content; [exact Hf|]. by apply Forall_app.
Qed.

Lemma merged_cells lsL page X Y lsR : cells_of (lsL ++ merged page X Y :: lsR) = cells_of (lsL ++ X :: Y :: lsR)
  /\ chains_of (lsL ++ merged page X Y :: lsR) = chains_of (lsL ++ X :: Y :: lsR).
Proof. rewrite cells_of_pair, chains_of_pair. unfold cells_of, chains_of. rewrite !map_app, !concat_app. done. Qed.

(** One leaf in the place of two, after the separator is gone *)
Lemma merge_done t s5 t' p lsL X Y lsR A B page other c0 es lo hi :
  NoDup (footprint (lsL ++ X :: Y :: lsR) [p]) -> [g_page X; g_page Y] ≡ₚ [page; other] ->
  siblings (subtree (pages_of s5) 0) c0 es lo hi (lsL ++ merged page X Y :: lsR) [] ->
  (exists b, pages_of s5 !! p = Some (InternalImage b)) -> pages_of s5 !! other = None ->
  linked (pages_of s5) 0 (A ++ map g_page (lsL ++ merged page X Y :: lsR) ++ B) 0 ->
  frame (pages t) (pages_of s5) [g_page X; g_page Y; p] ((A ++ map g_page lsL) ++ map g_page lsR ++ B) ->
  separator_removed (mkBTree s5 (root_page t) (root_level t)) t' 1 p c0 es ->
  rebalanced t t' p lo hi (lsL ++ X :: Y :: lsR) A B.
Proof.
  intros Hnd Hperm Hs Hp Hoth Hl Hf Hsep. destruct (merged_cells lsL page X Y lsR) as [Hmc Hmch].
  assert (Hnodes : nodes (lsL ++ X :: Y :: lsR) [p] ≡ₚ [other; p] ++ map g_page (lsL ++ merged page X Y :: lsR)).
  { unfold nodes. rewrite !map_app. simpl. change (g_page X :: g_page Y :: map g_page lsR) with ([g_page X; g_page Y] ++ map g_page lsR). rewrite Hperm. solve_Permutation. }
  assert (Hpfp : p ∉ footprint (lsL ++ merged page X Y :: lsR) []).
  { unfold footprint in Hnd |- *. rewrite Hmc. rewrite Hnodes in Hnd. unfold nodes. simpl in *. apply NoDup_cons in Hnd as [_ Hnd]. by apply NoDup_cons in Hnd as [? _]. }
  assert (Hop : other <> p) by (intros ->; destruct Hp as [b Hb]; by rewrite Hb in Hoth).
  destruct (separator_removed_spec (mkBTree s5 (root_page t) (root_level t)) t' p c0 es lo hi _ A B Hs Hpfp Hp Hl Hsep) as (ps' & freed & Hleft & Hfr & Hnone & Hl' & Hsame). cbn [bt_store] in *.
  exists (lsL ++ merged page X Y :: lsR), ps', (other :: freed). split; [exact Hleft|]. split; [exact Hmc|]. split; [exact Hmch|]. split; [|split; [|split; [exact Hl'|]]].
  - rewrite Hnodes. unfold nodes. rewrite app_assoc. simpl. by rewrite <- Hfr.
  - intros q [->|Hq]%elem_of_cons; [by rewrite Hsame|by apply Hnone].
  - intros q Hq. assert (Hq3 : q ∉ [g_page X; g_page Y; p]).
    { intros Hin. apply Hq. unfold nodes. rewrite map_app. simpl. set_solver. }
    assert (Hqp : q <> p) by set_solver. destruct (Hf q Hq3) as [Hc He]. split; [eapply same_content_trans; [exact Hc|left; by apply Hsame]|].
    intros Hab. rewrite Hsame by done. apply He. unfold nodes in Hq. rewrite map_app in Hq. simpl in Hq. set_solver.
Qed.

Lemma merge_leaf_into_left_spec t t' p c0 es1 k y es2 lo hi ls ps A B left_node node u :
  internal_at (pages t) 1 p c0 (es1 ++ (k, y) :: es2) -> siblings (subtree (pages t) 0) c0 (es1 ++ (k, y) :: es2) lo hi ls ps ->
  NoDup (footprint ls [p]) -> linked (pages t) 0 (A ++ map g_page ls ++ B) 0 -> NoDup (A ++ map g_page ls ++ B) ->
  read_leaf_node (bt_store t) (child_of c0 es1) = Ok left_node -> node_on (pages t) y node ->
  merge_leaf_into_left p (Datatypes.S (length es1)) (child_of c0 es1) left_node y node t = (Ok u, t') ->
  rebalanced t t' p lo hi ls A B.
Proof.
  intros Hi Hs Hnd Hl Hndl Hleft Hnode Hrun. destruct (pair_focus _ _ _ _ _ _ _ _ _ _ Hs) as (lsL & X & Y & lsR & -> & -> & HpX & HpY & HaX & HaY & HwX & HwY & Hk1 & Hk2 & Hcont).
  pose proof (pair_disjoint _ _ _ _ _ Hnd) as Hdisj. rewrite <- HpX in *. rewrite <- HpY in Hnode, Hi, Hrun.
  destruct (leaf_at_node _ _ _ HaX (leaf_at_read _ _ _ HaX Hleft)) as (bx & nx & Hmx & Hix & Hcx & _ & Hlc & _ & _).
  destruct (leaf_at_node _ _ _ HaY Hnode) as (bpy & ny & Hmy & Hiy & Hcy & Hwf & Hnc & Hnp & Hnn).
  assert (left_node = nx) as -> by (rewrite (read_leaf_node_at _ _ _ _ _ Hmx Hix) in Hleft; by injection Hleft).
  unfold merge_leaf_into_left in Hrun. cbv zeta in Hrun. st_inv Hrun.
  apply on_store_inv in Ha as (s1 & H1r & ->). apply on_store_inv in Ha0 as (s2 & H2r & ->). apply on_store_inv in Ha1 as (s3 & H3r & ->).
  apply on_store_inv in Ha2 as (s4 & H4r & ->). apply on_store_inv in Ha3 as (s5 & H5r & ->). cbn [bt_store root_page root_level] in *.
  assert (Hshape : forall C D, A ++ map g_page (lsL ++ C ++ lsR) ++ D = (A ++ map g_page lsL) ++ map g_page C ++ map g_page lsR ++ D)
    by (intros C D; by rewrite !map_app, <- !app_assoc).
  change (lsL ++ X :: Y :: lsR) with (lsL ++ [X; Y] ++ lsR) in Hl, Hndl. rewrite Hshape in Hl, Hndl. cbn [map app] in Hl, Hndl. set (A' := A ++ map g_page lsL) in *. set (B' := map g_page lsR ++ B) in *.
  set (M := merged (g_page X) X Y). assert (HwM : leaf_within (lo_of lo es1) (hi_of hi es2) M) by (by apply (merged_within _ k)).
  destruct (merge_left_pages _ _ _ _ _ _ _ _ _ _ _ _ _ _ A' B' _ _ _ _ Hmx Hix Hmy Hiy Hnc Hnn ltac:(apply HwM) Hl Hndl H1r H2r H3r H4r)
    as ((b & n & Hb & Hin & Hcn) & Hy4 & Hl4 & Hf4).
  pose proof Hi as (Hpn & _ & _ & _ & bp & Hbp & _). assert (Hpxy : p ∉ [g_page X; g_page Y]) by (intros Hin'; set_unfold in Hin'; naive_solver congruence).
  destruct (redirect_spec s4 1 p c0 es1 k (g_page Y) es2 (g_page X) a3 s5) as [Hi5 Ho5]; [eapply internal_at_content; [by apply Hf4|exact Hi]|apply HaX|exact H5r|].
  assert (Hx5 : pages_of s5 !! g_page X = Some (LeafImage b (g_chains X ++ g_chains Y))) by (rewrite Ho5; [exact Hb|set_solver]).
  assert (Hf5 : forall q, q ∉ [g_page X; g_page Y; p] -> same_content (pages t) (pages_of s5) q).
  { intros q Hq. eapply same_content_trans; [apply Hf4; set_solver|]. left. apply Ho5. set_solver. }
  apply (merge_done t s5 t' p lsL X Y lsR A B (g_page X) (g_page Y) c0 (es1 ++ es2)); [exact Hnd|done| |destruct Hi5 as (_ & _ & _ & _ & b5 & -> & _); eauto| | | |].
  - apply (Hcont _ [] [M]); [intros q Hq; apply Hf5; intros Hin'; by destruct (Hdisj q Hin')|]. apply siblings_one. exists M. do 3 (split; [done|]). split; [|exact HwM].
    apply (merged_at (pages t) _ _ _ _ b n); try done; [apply HaX|by rewrite Hcn, Hcx, Hcy|]. intros q Hq. apply Hf5. intros Hin'. by destruct (Hdisj q Hin').
  - rewrite Ho5; [exact Hy4|set_solver].
  - change (lsL ++ merged (g_page X) X Y :: lsR) with (lsL ++ [M] ++ lsR). rewrite Hshape. eapply linked_eq; [|exact Hl4]. intros q Hq.
    destruct (linked_leaf_page _ _ _ _ _ Hl4 Hq) as (b' & ch & n' & Hq' & _). apply Ho5. intros ->.
    destruct (internal_at_content _ _ _ _ _ _ (proj1 (Hf4 p Hpxy)) Hi) as (_ & _ & _ & _ & b4 & Hb4 & _). congruence.
  - intros q Hq. split; [by apply Hf5|]. intros Hab. rewrite Ho5 by set_solver. apply Hf4; [set_solver|done].
  - rewrite Nat.sub_succ, Nat.sub_0_r in Hrun. eapply remove_from_parent_spec; [exact Hi5| | | |exact Hrun].
    + rewrite HpX. apply removed_left.
    + apply Hi.
    + destruct Hi as (_ & _ & _ & He & _). apply Forall_app in He as [? [_ ?]%Forall_cons]. by apply Forall_app.
Qed.

Lemma first_pair (m : page_map) x k y es2 lo hi ls ps : siblings (subtree m 0) x ((k, y) :: es2) lo hi ls ps ->
  exists X Y lsR, ls = X :: Y :: lsR /\ g_page X = x /\ g_page Y = y /\ leaf_at m X /\ leaf_at m Y
    /\ leaf_within lo (Some k) X /\ leaf_within (Some k) (hi_of hi es2) Y /\ strictly_above lo k /\ below (hi_of hi es2) k
    /\ forall m' M, (forall q, q ∈ footprint lsR [] -> same_content m m' q) -> g_page M = y -> leaf_at m' M -> leaf_within lo (hi_of hi es2) M ->
         siblings (subtree m' 0) y es2 lo hi (M :: lsR) [].
Proof.
  intros Hs. apply siblings_cons_inv in Hs as (l1 & p1 & l2 & p2 & -> & -> & (X & -> & -> & HX & HaX & HwX) & Ha & Hb & Hs). destruct es2 as [|[k2 z] es3].
  - apply siblings_one in Hs as (Y & -> & -> & HY & HaY & HwY). exists X, Y, []. split_and!; try done. intros m' M _ HM HaM HwM. apply siblings_one. by exists M.
  - apply siblings_cons_inv in Hs as (l3 & p3 & l4 & p4 & -> & -> & (Y & -> & -> & HY & HaY & HwY) & Ha2 & Hb2 & Hs). simpl in Ha2.
    exists X, Y, l4. split_and!; try done. intros m' M Hf HM HaM HwM. pose proof (leaf_siblings _ _ _ _ _ _ _ Hs) as [-> _].
    apply (sib_cons _ y k2 z es3 lo hi [M] [] l4 []); [by exists M|eauto with lex|done|]. by eapply siblings_content.
Qed.

Lemma merge_leaf_into_right_spec t t' p x k y es2 lo hi ls ps A B right_node node u :
  internal_at (pages t) 1 p x ((k, y) :: es2) -> siblings (subtree (pages t) 0) x ((k, y) :: es2) lo hi ls ps ->
  NoDup (footprint ls [p]) -> linked (pages t) 0 (A ++ map g_page ls ++ B) 0 -> NoDup (A ++ map g_page ls ++ B) ->
  read_leaf_node (bt_store t) y = Ok right_node -> node_on (pages t) x node ->
  merge_leaf_into_right p x node y right_node t = (Ok u, t') ->
  rebalanced t t' p lo hi ls A B.
Proof.
  intros Hi Hs Hnd Hl Hndl Hright Hnode Hrun. destruct (first_pair _ _ _ _ _ _ _ _ _ Hs) as (X & Y & lsR & -> & HpX & HpY & HaX & HaY & HwX & HwY & Hk1 & Hk2 & Hcont).
  pose proof (pair_disjoint p [] X Y lsR Hnd) as Hdisj. subst x y. cbn [app] in Hdisj.
  destruct (leaf_at_node _ _ _ HaX Hnode) as (bx & nx & Hmx & Hix & Hcx & Hwf & Hnc & Hnp & Hnn).
  destruct (leaf_at_node _ _ _ HaY (leaf_at_read _ _ _ HaY Hright)) as (bpy & ny & Hmy & Hiy & Hcy & _ & _ & _ & _).
  assert (right_node = ny) as -> by (rewrite (read_leaf_node_at _ _ _ _ _ Hmy Hiy) in Hright; by injection Hright).
  unfold merge_leaf_into_right in Hrun. cbv zeta in Hrun. st_inv Hrun.
  apply on_store_inv in Ha as (s1 & H1r & ->). apply on_store_inv in Ha0 as (s2 & H2r & ->). apply on_store_inv in Ha1 as (s3 & H3r & ->).
  apply on_store_inv in Ha2 as (s4 & H4r & ->). cbn [bt_store root_page root_level] in *. cbn [map app] in Hl, Hndl.
  set (M := merged (g_page Y) X Y). assert (HwM : leaf_within lo (hi_of hi es2) M) by (by apply (merged_within _ k)).
  destruct (merge_right_pages _ _ _ _ _ _ _ _ _ _ _ _ _ _ A (map g_page lsR ++ B) _ _ _ _ Hmx Hix Hmy Hiy Hnc Hnp ltac:(apply HwM) Hl Hndl H1r H2r H3r H4r)
    as ((b & n & Hb & Hin & Hcn) & Hx4 & Hl4 & Hf4).
  pose proof Hi as (Hpn & _ & _ & _ & bp & Hbp & _). assert (Hpxy : p ∉ [g_page X; g_page Y]) by (intros Hin'; set_unfold in Hin'; naive_solver congruence).
  assert (Hi4 : internal_at (pages_of s4) 1 p (g_page X) ((k, g_page Y) :: es2)) by (eapply internal_at_content; [by apply Hf4|exact Hi]).
  assert (Hf5 : forall q, q ∉ [g_page X; g_page Y; p] -> same_content (pages t) (pages_of s4) q) by (intros q Hq; apply Hf4; set_solver).
  apply (merge_done t s4 t' p [] X Y lsR A B (g_page Y) (g_page X) (g_page Y) es2); [exact Hnd|solve_Permutation| |destruct Hi4 as (_ & _ & _ & _ & b4 & -> & _); eauto| | | |].
  - apply (Hcont _ M); [intros q Hq; apply Hf5; intros Hin'; by destruct (Hdisj q Hin')|done| |exact HwM].
    apply (merged_at (pages t) _ _ _ _ b n); try done; [apply HaY|by rewrite Hcn, Hcx, Hcy|]. intros q Hq. apply Hf5. intros Hin'. by destruct (Hdisj q Hin').
  - exact Hx4.
  - exact Hl4.
  - intros q Hq. split; [by apply Hf5|]. intros Hab. apply Hf4; [set_solver|]. simpl in Hab. set_solver.
  - eapply (remove_from_parent_spec _ 1 p (g_page X) [] k (g_page Y) es2); [exact Hi4| | | |exact Hrun].
    + apply removed_first.
    + apply HaY.
    + destruct Hi as (_ & _ & _ & He & _). by apply Forall_cons in He as [_ ?].
Qed.

Lemma redistribute_rebalanced t s' p c0 es1 k y es2 lo hi ls ps A B nodex nodey u :
  internal_at (pages t) 1 p c0 (es1 ++ (k, y) :: es2) -> siblings (subtree (pages t) 0) c0 (es1 ++ (k, y) :: es2) lo hi ls ps ->
  NoDup (footprint ls [p]) -> linked (pages t) 0 (A ++ map g_page ls ++ B) 0 -> NoDup (A ++ map g_page ls ++ B) ->
  node_on (pages t) (child_of c0 es1) nodex -> node_on (pages t) y nodey ->
  redistribute_leaf_pair (child_of c0 es1) nodex y nodey p (length es1) (bt_store t) = (Ok u, s') ->
  rebalanced t (mkBTree s' (root_page t) (root_level t)) p lo hi ls A B.
Proof.
  intros Hi Hs Hnd Hl Hndl Hnx Hny Hrun. destruct (pair_focus _ _ _ _ _ _ _ _ _ _ Hs) as (lsL & X & Y & lsR & -> & -> & HpX & HpY & HaX & HaY & HwX & HwY & Hk1 & Hk2 & Hcont).
  pose proof (pair_disjoint _ _ _ _ _ Hnd) as Hdisj. rewrite <- HpX in *. subst y.
  destruct (leaf_at_node _ _ _ HaX Hnx) as (bx & nx & Hmx & Hix & Hcx & Hwfx & Hncx & Hnpx & Hnnx).
  destruct (leaf_at_node _ _ _ HaY Hny) as (bpy & ny & Hmy & Hiy & Hcy & Hwfy & Hncy & Hnpy & Hnny).
  assert (Hshape : forall C D, A ++ map g_page (lsL ++ C ++ lsR) ++ D = (A ++ map g_page lsL) ++ map g_page C ++ map g_page lsR ++ D)
    by (intros C D; by rewrite !map_app, <- !app_assoc).
  change (lsL ++ X :: Y :: lsR) with (lsL ++ [X; Y] ++ lsR) in Hl, Hndl. rewrite Hshape in Hl, Hndl. cbn [map app] in Hl, Hndl.
  pose proof (merged_within _ k _ (g_page X) X Y Hk1 Hk2 HwX HwY) as (Hm1 & Hm2 & Hm3 & Hm4). cbn [merged g_cells g_chains] in *.
  assert (Hcells : cells nodex ++ cells nodey = map gc_cell (g_cells X ++ g_cells Y)) by (by rewrite map_app, Hncx, Hncy, Hcx, Hcy).
  destruct (redistribute_spec _ _ _ _ _ _ _ _ _ _ _ _ _ _ 1 p c0 es1 k es2 _ _ Hmx Hix Hmy Hiy Hwfx Hwfy Hnpx Hnny Hcells Hm3 Hl Hndl Hi (eq_sym HpX) Hrun)
    as (gl & c & gr & Hcut & Hgl & (b1 & n1 & Hx' & Hi1 & Hc1) & (b2 & n2 & Hy' & Hi2 & Hc2) & Hi' & Hl' & Ho).
  set (rest := [(gc_key c, g_page Y, c :: gr)] : list (list Z * Z * list gcell)).
  set (ls' := gsplit (g_page X) gl rest (g_chains X ++ g_chains Y)).
  assert (Hf : forall q, q ∉ [g_page X; g_page Y; p] -> same_content (pages t) (pages_of s') q) by (intros q Hq; left; by apply Ho).
  assert (Hat : Forall (leaf_at (pages_of s')) ls').
  { assert (Hg : Forall (gcell_at (pages_of s')) (g_cells X ++ g_cells Y)).
    { eapply gcells_at_content; [|apply Forall_app; split; [apply HaX|apply HaY]]. intros q Hq. apply Hf. intros Hin. by destruct (Hdisj q Hin). }
    rewrite Hcut in Hg. apply Forall_app in Hg as [Hg1 Hg2].
    apply Forall_cons. split; [split; [apply HaX|split; [exists b1, n1; done|exact Hg1]]|]. apply Forall_singleton. split; [apply HaY|split; [exists b2, n2; done|exact Hg2]]. }
  assert (Hsib : siblings (subtree (pages_of s') 0) (g_page X) (map fst rest) (lo_of lo es1) (hi_of hi es2) ls' []).
  { rewrite Hcut in Hm1, Hm2. apply gsplit_siblings; try done; [|by cbn; rewrite app_nil_r..]. repeat constructor. by exists c, gr. }
  assert (Hcells' : cells_of (lsL ++ ls' ++ lsR) = cells_of (lsL ++ X :: Y :: lsR)).
  { rewrite cells_of_pair, !cells_of_app. unfold ls'. rewrite gsplit_cells. cbn. by rewrite app_nil_r, <- Hcut. }
  assert (Hchains' : chains_of (lsL ++ ls' ++ lsR) = chains_of (lsL ++ X :: Y :: lsR)).
  { rewrite chains_of_pair, !chains_of_app. unfold ls'. by rewrite gsplit_chains. }
  exists (lsL ++ ls' ++ lsR), [p], []. split; [|split; [exact Hcells'|split; [exact Hchains'|split; [|split; [set_solver|split]]]]].
  - left. do 2 (split; [done|]). exists c0, (es1 ++ (gc_key c, g_page Y) :: es2), []. split; [done|]. split; [exact Hi'|].
    apply (Hcont _ [(gc_key c, g_page Y)] ls'); [|exact Hsib]. intros q Hq. apply Hf. intros Hin. by destruct (Hdisj q Hin).
  - unfold nodes. rewrite !map_app. done.
  - rewrite Hshape. exact Hl'.
  - intros q Hq. assert (Hq3 : q ∉ [g_page X; g_page Y; p]).
    { intros Hin. apply Hq. unfold nodes. rewrite map_app. simpl. set_solver. }
    split; [by apply Hf|intros _; by apply Ho].
Qed.

Lemma handle_leaf_underflow_spec t t' p c0 es1 es2 lo hi ls ps A B node path u :
  internal_at (pages t) 1 p c0 (es1 ++ es2) -> siblings (subtree (pages t) 0) c0 (es1 ++ es2) lo hi ls ps ->
  NoDup (footprint ls [p]) -> linked (pages t) 0 (A ++ map g_page ls ++ B) 0 -> NoDup (A ++ map g_page ls ++ B) ->
  node_on (pages t) (child_of c0 es1) node -> last path = Some (p, length es1) ->
  handle_leaf_underflow (child_of c0 es1) node path t = (Ok u, t') -> rebalanced t t' p lo hi ls A B.
Proof.
  intros Hi Hs Hnd Hl Hndl Hnode Hpath Hrun. unfold handle_leaf_underflow in Hrun. rewrite Hpath in Hrun.
  apply st_bind_inv in Hrun as (parent & w & Ha & Hrun). apply st_read_inv in Ha as [Ha ->].
  rewrite (read_internal_node_at _ _ _ _ _ Hi) in Ha. injection Ha as <-. cbv zeta in Hrun.
  destruct es1 as [|e es1 _] using rev_ind.
  - cbn [length] in Hrun. rewrite (proj2 (Nat.ltb_ge 0 0)) in Hrun by done. destruct es2 as [|[k y] es2]; [done|].
    replace (0 <? length (in_entries (node_of 1 c0 ([] ++ (k, y) :: es2))))%nat with true in Hrun
      by (symmetry; apply Nat.ltb_lt; unfold node_of; cbn [in_entries]; rewrite to_entries_length; simpl; lia).
    change ([] ++ (k, y) :: es2) with ([(k, y)] ++ es2) in Hrun. change (0 + 1)%nat with (length [(k, y)]) in Hrun. rewrite child_at_split in Hrun.
    change (child_of c0 [(k, y)]) with y in Hrun. change (child_of c0 []) with c0 in *.
    apply st_bind_inv in Hrun as (rn & w & Ha & Hrun). apply st_read_inv in Ha as [Hrn ->]. destruct (can_merge_leaves node rn).
    + eapply merge_leaf_into_right_spec; [exact Hi|exact Hs|exact Hnd|exact Hl|exact Hndl|exact Hrn|exact Hnode|exact Hrun].
    + apply on_store_inv in Hrun as (s1 & Hr & ->).
      eapply (redistribute_rebalanced t s1 p c0 [] k y es2); [exact Hi|exact Hs|exact Hnd|exact Hl|exact Hndl|exact Hnode| |exact Hr].
      destruct (first_pair _ _ _ _ _ _ _ _ _ Hs) as (X & Y & lsR & -> & _ & <- & _ & HaY & _). exact (leaf_at_read _ _ _ HaY Hrn).
  - destruct e as [k y]. rewrite <- app_assoc in Hi, Hs, Hrun. cbn [app] in Hi, Hs, Hrun.
    assert (Hy : child_of c0 (es1 ++ [(k, y)]) = y) by (unfold child_of; by rewrite last_snoc). rewrite Hy in *. rewrite length_app in Hrun. simpl in Hrun.
    rewrite Nat.add_1_r in Hrun. rewrite (proj2 (Nat.ltb_lt 0 (Datatypes.S (length es1)))) in Hrun by lia. rewrite Nat.sub_succ, Nat.sub_0_r, child_at_split in Hrun.
    apply st_bind_inv in Hrun as (ln & w & Ha & Hrun). apply st_read_inv in Ha as [Hln ->]. destruct (can_merge_leaves ln node).
    + eapply merge_leaf_into_left_spec; [exact Hi|exact Hs|exact Hnd|exact Hl|exact Hndl|exact Hln|exact Hnode|exact Hrun].
    + apply on_store_inv in Hrun as (s1 & Hr & ->).
      eapply (redistribute_rebalanced t s1 p c0 es1 k y es2); [exact Hi|exact Hs|exact Hnd|exact Hl|exact Hndl| |exact Hnode|exact Hr].
      destruct (pair_focus _ _ _ _ _ _ _ _ _ _ Hs) as (lsL & X & Y & lsR & -> & -> & HpX & _ & HaX & _). rewrite <- HpX in Hln |- *. exact (leaf_at_read _ _ _ HaX Hln).
Qed.
End Underflow.

(** ** Removing a cell *)

Lemma overflow_not_linked m pages a z c q : linked m a pages z -> gcell_at m c -> q ∈ gc_pages c -> q ∉ pages.
Proof.
  intros Hl Hc Hq Hin. destruct (linked_leaf_page _ _ _ _ _ Hl Hin) as (b & ch & n & Hm & Hi & _). unfold gcell_at in Hc.
  destruct (cell_val (gc_cell c)) as [v|first total]; [destruct Hc as (_ & E & _); rewrite E in Hq; by apply not_elem_of_nil in Hq|].
  destruct Hc as (Hc & _). revert first Hc. generalize (gc_value c). induction (gc_pages c) as [|p ps IH]; intros v first Hc; [by apply not_elem_of_nil in Hq|].
  destruct Hc as (_ & _ & next & d & tail & (b' & ch' & hdr & Hm' & Ho & Ht & _) & Hc & _). apply elem_of_cons in Hq as [->|Hq]; [|by eapply IH].
  rewrite Hm in Hm'. injection Hm' as <- <-. by destruct (leaf_img_not_overflow _ _ _ Hi Ho).
Qed.

Section Remove.
Context {S : Type} `{BTreePageStoreLaws S} `{Crc32c}.

Abbreviation pages t := (pages_of (bt_store t)).

Definition free_value (c : LeafCell) : st (BTree S) unit :=
  match cell_val c with Overflow first_page _ => on_store (free_overflow_chain first_page) | Inline _ => st_ret tt end.

Lemma free_value_spec c t u t' : gcell_at (pages t) c -> NoDup (gc_pages c) -> free_value (gc_cell c) t = (Ok u, t') ->
  root_page t' = root_page t /\ root_level t' = root_level t
  /\ forall q, pages t' !! q = if decide (q ∈ gc_pages c) then None else pages t !! q.
Proof.
  unfold gcell_at, free_value. intros Hc Hnd Hf. destruct (cell_val (gc_cell c)).
  - injection Hf as <- <-. destruct Hc as (_ & -> & _). split_and!; [done..|]. intros q. by rewrite decide_False by apply not_elem_of_nil.
  - apply on_store_inv in Hf as (s' & Hf & ->). destruct u. destruct Hc as (Hc & _). split_and!; [done..|]. by eapply free_chain_loop_spec.
Qed.

(** The leaf without a cell: the cell's pages are free, no other page changed *)
Lemma delete_cell t t1 s2 L a c b n A B u1 u2 :
  leaf_at (pages t) L -> g_cells L = a ++ c :: b -> linked (pages t) 0 (A ++ g_page L :: B) 0 -> NoDup (A ++ g_page L :: B) ->
  NoDup (g_page L :: overflow_of (g_cells L)) -> read_leaf_node (bt_store t) (g_page L) = Ok n ->
  free_value (gc_cell c) t = (Ok u1, t1) -> write_leaf_node (g_page L) (set_cells (map gc_cell (a ++ b)) n) (bt_store t1) = (Ok u2, s2) ->
  root_page t1 = root_page t /\ root_level t1 = root_level t
  /\ leaf_at (pages_of s2) (mkGLeaf (g_page L) (a ++ b) (g_chains L)) /\ linked (pages_of s2) 0 (A ++ g_page L :: B) 0
  /\ node_on (pages_of s2) (g_page L) (set_cells (map gc_cell (a ++ b)) n)
  /\ (forall q, q ∈ gc_pages c -> pages_of s2 !! q = None) /\ (forall q, q ∉ g_page L :: gc_pages c -> pages_of s2 !! q = pages t !! q).
Proof.
  intros HaL Hcells Hl Hndl Hnd Hread Hfree Hwrite. pose proof HaL as (Hpn & (bl & n' & Hm & Hi & Hc) & Hg).
  rewrite (read_leaf_node_at _ _ _ _ _ Hm Hi) in Hread. injection Hread as <-. rewrite Hcells in Hg, Hnd. apply Forall_app in Hg as [Hga [Hgc Hgb]%Forall_cons].
  rewrite overflow_of_app in Hnd. change (overflow_of (c :: b)) with (gc_pages c ++ overflow_of b) in Hnd. apply NoDup_cons in Hnd as [Hpo Hnd].
  assert (Hndc : NoDup (gc_pages c)) by (rewrite !NoDup_app in Hnd; tauto).
  assert (Hpc : g_page L ∉ gc_pages c) by set_solver.
  assert (Hdis : forall q, q ∈ gc_pages c -> q ∉ overflow_of (a ++ b)).
  { intros q Hq. rewrite overflow_of_app. apply NoDup_app in Hnd as (_ & Hd1 & Hnd). apply NoDup_app in Hnd as (_ & Hd2 & _).
    intros [Hq2|Hq2]%elem_of_app; [apply (Hd1 q Hq2); set_solver|by apply (Hd2 q)]. }
  destruct (free_value_spec c t u1 t1 Hgc Hndc Hfree) as (Hr1 & Hr2 & Hp1).
  assert (Hsame1 : forall q, q ∉ gc_pages c -> pages t1 !! q = pages t !! q) by (intros q Hq; by rewrite Hp1, decide_False).
  assert (Hok : Forall (gcell_at (pages t)) (a ++ b)) by (by apply Forall_app).
  assert (Hl1 : linked (pages t1) 0 (A ++ g_page L :: B) 0).
  { eapply linked_eq; [|exact Hl]. intros q Hq. apply Hsame1. intros Hin. by eapply overflow_not_linked. }
  assert (Hm1 : pages t1 !! g_page L = Some (LeafImage bl (g_chains L))) by (by rewrite Hsame1).
  destruct (write_cells_spec _ _ _ _ _ _ _ _ A B Hm1 Hi (gcells_ok _ _ Hok) Hl1 Hndl Hwrite) as (b2 & n2 & Hs2 & Hi2 & Hc2 & Hp2 & Hn2 & Hl2).
  pose proof (img_wf _ _ Hi) as (Hw1 & Hw2 & Hw3 & _).
  do 2 (split; [done|]). split; [|split; [exact Hl2|split; [|split]]].
  - split; [exact Hpn|]. split; [exists b2, n2; rewrite Hs2, lookup_insert_eq; done|]. cbn [g_cells]. eapply gcells_at_content; [|exact Hok].
    intros q Hq. left. rewrite Hs2, lookup_insert_ne; [|intros <-; rewrite overflow_of_app in Hq; set_solver]. apply Hsame1. intros Hin. by apply (Hdis q Hin).
  - exists b2, (g_chains L), n2. rewrite Hs2, lookup_insert_eq. split_and!; try done. apply node_wf_mk; try done. by eapply gcells_ok.
  - intros q Hq. rewrite Hs2, lookup_insert_ne by (by intros <-). by rewrite Hp1, decide_True.
  - intros q [Hq1 Hq2]%not_elem_of_cons. rewrite Hs2, lookup_insert_ne by done. by apply Hsame1.
Qed.

Lemma delete_from_leaf_inv t L key path r t' :
  leaf_at (pages t) L -> ksorted gc_key (g_cells L) -> delete_from_leaf (g_page L) key path t = (Ok r, t') ->
  (r = false /\ t' = t /\ Forall (fun c => gc_key c <> key) (g_cells L))
  \/ (r = true /\ exists a c b n t1 s2 u1 u2 u3, g_cells L = a ++ c :: b /\ gc_key c = key /\ read_leaf_node (bt_store t) (g_page L) = Ok n
       /\ free_value (gc_cell c) t = (Ok u1, t1)
       /\ write_leaf_node (g_page L) (set_cells (map gc_cell (a ++ b)) n) (bt_store t1) = (Ok u2, s2)
       /\ (if needs_rebalance (set_cells (map gc_cell (a ++ b)) n) && negb (bool_decide (path = []))
           then handle_leaf_underflow (g_page L) (set_cells (map gc_cell (a ++ b)) n) path else st_ret tt)
          (mkBTree s2 (root_page t1) (root_level t1)) = (Ok u3, t')).
Proof.
  intros HaL Hs Hrun. pose proof HaL as (_ & (bl & n & Hm & Hi & Hc) & _). unfold delete_from_leaf in Hrun.
  apply st_bind_inv in Hrun as (n' & w & Ha & Hrun). apply st_read_inv in Ha as [Hr ->]. pose proof Hr as Hread.
  rewrite (read_leaf_node_at _ _ _ _ _ Hm Hi) in Hr. injection Hr as <-. pose proof (cells_binary_search _ _ key Hc Hs) as Hbs.
  destruct (binary_search n key) as [j|j].
  - right. destruct Hbs as (a & c & b & Hg & -> & Hk). rewrite Hc, Hg in Hrun. cbv zeta in Hrun.
    assert (Hrem : remove_at (length a) (map gc_cell (a ++ c :: b)) = Ok (gc_cell c, map gc_cell (a ++ b))).
    { unfold remove_at. rewrite !map_app. cbn [map]. rewrite list_lookup_middle by (by rewrite length_map).
      rewrite <- (length_map gc_cell a), take_app_length. by rewrite cons_middle, app_assoc, drop_app_length' by (rewrite length_app; simpl; lia). }
    rewrite Hrem in Hrun. apply st_bind_inv in Hrun as (rm & w & Ha & Hrun). apply st_lift_inv in Ha as [[= <-] ->]. cbn [fst snd] in Hrun.
    apply st_bind_inv in Hrun as (u1 & t1 & Hf & Hrun). apply st_bind_inv in Hrun as (u2 & t2 & Hw & Hrun). apply on_store_inv in Hw as (s2 & Hw & ->).
    apply st_bind_inv in Hrun as (u3 & t3 & Hh & Hrun). injection Hrun as <- <-. split; [done|]. exists a, c, b, n, t1, s2, u1, u2, u3. done.
  - left. injection Hrun as <- <-. split_and!; [done..|]. destruct Hbs as (a & b & -> & _ & Ha & Hb). apply Forall_app. split; [by apply all_below_ne|by apply all_above_ne].
Qed.

(** What a delete leaves of a part of the tree *)
Definition deleted (m m' : page_map) (key : list Z) (ls : list gleaf) (ps : list Z) (ls' : list gleaf) (ps' A B : list Z) : Prop :=
  exists freed, cells_of ls' = krem gc_key key (cells_of ls) /\ chains_of ls' = chains_of ls
    /\ footprint ls ps ≡ₚ freed ++ footprint ls' ps' /\ (forall q, q ∈ freed -> m' !! q = None)
    /\ linked m' 0 (A ++ map g_page ls' ++ B) 0 /\ frame m m' (footprint ls ps) (A ++ B).

Lemma krem_focus key lsL a c b lsR : ksorted gc_key (cells_of lsL ++ (a ++ c :: b) ++ cells_of lsR) -> gc_key c = key ->
  krem gc_key key (cells_of lsL ++ (a ++ c :: b) ++ cells_of lsR) = cells_of lsL ++ (a ++ b) ++ cells_of lsR.
Proof. intros Hs <-. rewrite <- !app_assoc in *. cbn [app] in *. rewrite app_assoc in *. by rewrite krem_mid, <- app_assoc. Qed.

Lemma footprint_delete lsL lsR page ch ch' a c b ps :
  footprint (lsL ++ mkGLeaf page (a ++ c :: b) ch :: lsR) ps ≡ₚ gc_pages c ++ footprint (lsL ++ mkGLeaf page (a ++ b) ch' :: lsR) ps.
Proof.
  unfold footprint, nodes, cells_of. rewrite !map_app, !concat_app. simpl. rewrite !overflow_of_app. unfold overflow_of. simpl. solve_Permutation.
Qed.

Lemma footprint_leaf lsL L lsR ps :
  footprint (lsL ++ L :: lsR) ps ≡ₚ (g_page L :: overflow_of (g_cells L)) ++ footprint (lsL ++ lsR) ps.
Proof. unfold footprint, nodes, cells_of. rewrite !map_app, !concat_app. simpl. rewrite !overflow_of_app. solve_Permutation. Qed.

Lemma frame_none m m' own around q : frame m m' own around -> q ∉ own -> m !! q = None -> m' !! q = None.
Proof. intros Hf Hq Hn. destruct (Hf q Hq) as [[E|(b & b' & ch & n & n' & E & _)] _]; congruence. Qed.

(** What a delete finds or leaves *)
Definition delete_outcome (t t' : BTree S) (key : list Z) (ls : list gleaf) (ps A B : list Z) (r : bool)
  (left : list gleaf -> list Z -> Prop) : Prop :=
  (r = false /\ t' = t /\ Forall (fun c => gc_key c <> key) (cells_of ls))
  \/ (r = true /\ (exists c, c ∈ cells_of ls /\ gc_key c = key)
      /\ exists ls' ps', left ls' ps' /\ deleted (pages t) (pages t') key ls ps ls' ps' A B).

Lemma absent_focus lo hi key lsL lsC lsR : leaves_all (under lo) lsL -> leaves_all (over hi) lsR -> within lo hi key ->
  Forall (fun c => gc_key c <> key) (cells_of lsC) -> Forall (fun c => gc_key c <> key) (cells_of (lsL ++ lsC ++ lsR)).
Proof.
  intros [HL _] [HR _] [Hwl Hwh] HC. rewrite !cells_of_app, !Forall_app. split_and!; [|done|].
  - eapply Forall_impl; [exact HL|]. intros x Hx. apply lex_lt_ne. exact (under_lt _ _ _ Hx Hwl).
  - eapply Forall_impl; [exact HR|]. intros x Hx. apply not_eq_sym, lex_lt_ne. exact (over_gt _ _ _ Hx Hwh).
Qed.

Lemma deleted_rebalanced (t t2 t' : BTree S) p lo hi key ls ls2 A B :
  root_page t2 = root_page t -> root_level t2 = root_level t ->
  deleted (pages t) (pages t2) key ls [p] ls2 [p] A B -> NoDup (footprint ls [p]) -> rebalanced t2 t' p lo hi ls2 A B ->
  exists ls' ps', parent_left t t' p lo hi ls' ps' /\ deleted (pages t) (pages t') key ls [p] ls' ps' A B.
Proof.
  intros Hr1 Hr2 (freed & Hc & Hch & Hf & Hnone & Hl & Hframe) Hnd (ls' & ps' & freed' & Hp & Hc' & Hch' & Hf' & Hnone' & Hl' & Hframe').
  exists ls', ps'. split; [unfold parent_left in *; by rewrite Hr1, Hr2 in Hp|]. rewrite Hf in Hnd. apply NoDup_app in Hnd as (_ & Hdis & _).
  exists (freed ++ freed'). rewrite Hc', Hch'. split; [exact Hc|]. split; [exact Hch|]. split; [|split; [|split; [exact Hl'|]]].
  - rewrite Hf. unfold footprint. rewrite Hf', Hc'. solve_Permutation.
  - intros q [Hq|Hq]%elem_of_app; [|by apply Hnone']. eapply frame_none; [exact Hframe'| |by apply Hnone].
    intros Hin. apply (Hdis q Hq). unfold footprint. set_solver.
  - intros q Hq. assert (Hq' : q ∉ nodes ls2 [p]) by (intros Hin; apply Hq; rewrite Hf; unfold footprint; set_solver).
    destruct (Hframe q Hq) as [Hs1 He1]. destruct (Hframe' q Hq') as [Hs2 He2]. split; [by eapply same_content_trans|].
    intros Hn. rewrite (He2 Hn). exact (He1 Hn).
Qed.

(** The leaf among its siblings *)
Lemma delete_cell_siblings t t1 s2 p c0 es1 es2 lo hi lsL L lsR psL psR a c b n A B u1 u2 :
  internal_at (pages t) 1 p c0 (es1 ++ es2) -> leaf_at (pages t) L -> leaf_within (lo_of lo es1) (hi_of hi es2) L -> g_page L = child_of c0 es1 ->
  (forall T' mid' lsM' psM',
     (forall p lo hi ls' ps', subtree (pages t) 0 p lo hi ls' ps' -> footprint ls' ps' ⊆ footprint (lsL ++ lsR) (psL ++ psR) -> T' p lo hi ls' ps') ->
     siblings T' (child_of c0 es1) mid' (lo_of lo es1) (hi_of hi es2) lsM' psM' ->
     siblings T' c0 (es1 ++ mid' ++ es2) lo hi (lsL ++ lsM' ++ lsR) (psL ++ psM' ++ psR)) ->
  NoDup (footprint (lsL ++ L :: lsR) (p :: psL ++ psR)) -> ksorted gc_key (cells_of lsL ++ g_cells L ++ cells_of lsR) ->
  g_cells L = a ++ c :: b -> linked (pages t) 0 (A ++ map g_page (lsL ++ L :: lsR) ++ B) 0 -> NoDup (A ++ map g_page (lsL ++ L :: lsR) ++ B) ->
  read_leaf_node (bt_store t) (g_page L) = Ok n -> free_value (gc_cell c) t = (Ok u1, t1) ->
  write_leaf_node (g_page L) (set_cells (map gc_cell (a ++ b)) n) (bt_store t1) = (Ok u2, s2) ->
  let ls2 := lsL ++ mkGLeaf (g_page L) (a ++ b) (g_chains L) :: lsR in
  root_page t1 = root_page t /\ root_level t1 = root_level t /\ internal_at (pages_of s2) 1 p c0 (es1 ++ es2)
  /\ siblings (subtree (pages_of s2) 0) c0 (es1 ++ es2) lo hi ls2 (psL ++ psR)
  /\ node_on (pages_of s2) (child_of c0 es1) (set_cells (map gc_cell (a ++ b)) n)
  /\ deleted (pages t) (pages_of s2) (gc_key c) (lsL ++ L :: lsR) [p] ls2 [p] A B.
Proof.
  intros Hi HaL HwL Hpage Hcont Hnd Hsorted Hg Hl Hndl Hread Hfree Hwrite ls2.
  assert (Hshape : forall X : gleaf, A ++ map g_page (lsL ++ X :: lsR) ++ B = (A ++ map g_page lsL) ++ g_page X :: map g_page lsR ++ B)
    by (intros X; by rewrite !map_app, <- !app_assoc).
  rewrite Hshape in Hl, Hndl.
  rewrite footprint_cons, footprint_leaf in Hnd. apply NoDup_cons in Hnd as [Hp Hnd]. apply NoDup_app in Hnd as (HndL & Hdis & _).
  destruct (delete_cell t t1 s2 L a c b n _ _ u1 u2 HaL Hg Hl Hndl HndL Hread Hfree Hwrite) as (Hr1 & Hr2 & HaL' & Hl2 & Hnode & Hnone & Hsame).
  assert (Hgone : forall q, q ∈ g_page L :: gc_pages c -> q ∈ g_page L :: overflow_of (g_cells L)).
  { intros q. rewrite !elem_of_cons. intros [Hq|Hq]; [by left|right]. rewrite Hg, overflow_of_app. apply elem_of_app. right. unfold overflow_of. simpl. set_solver. }
  do 2 (split; [done|]). split; [|split; [|split; [by rewrite <- Hpage|]]].
  - eapply internal_at_frame; [|exact Hi]. apply Hsame. intros Hin. apply Hp, elem_of_app. left. by apply Hgone.
  - subst ls2. change (es1 ++ es2) with (es1 ++ [] ++ es2). change (psL ++ psR) with (psL ++ [] ++ psR). change (mkGLeaf (g_page L) (a ++ b) (g_chains L) :: lsR) with ([mkGLeaf (g_page L) (a ++ b) (g_chains L)] ++ lsR).
    apply Hcont.
    + intros q lo1 hi1 ls1 ps1 Ht Hsub. eapply subtree_content; [|exact Ht]. intros x Hx. left. apply Hsame. intros Hin. apply (Hdis x); [by apply Hgone|by apply Hsub].
    + apply siblings_one. eexists. do 2 (split; [done|]). split; [exact Hpage|]. split; [exact HaL'|]. destruct HwL as (Hs & Hin & Hrest). rewrite Hg in Hs, Hin.
      split; [|split; [|exact Hrest]]; cbn [g_cells]; [apply ksorted_mid in Hs as [Hs _]; exact Hs|]. rewrite Forall_app, Forall_cons in Hin. apply Forall_app. tauto.
  - exists (gc_pages c). subst ls2.
    split; [|split; [|split; [|split; [exact Hnone|split]]]].
    + change (mkGLeaf (g_page L) (a ++ b) (g_chains L) :: lsR) with ([mkGLeaf (g_page L) (a ++ b) (g_chains L)] ++ lsR). change (L :: lsR) with ([L] ++ lsR).
      rewrite !cells_of_app. unfold cells_of at 2 5. simpl. rewrite !app_nil_r. rewrite Hg in Hsorted |- *. by rewrite krem_focus.
    + rewrite !chains_of_app. done.
    + destruct L as [pg cs ch]. cbn [g_cells g_page g_chains] in *. rewrite Hg. apply footprint_delete.
    + rewrite Hshape. exact Hl2.
    + intros q Hq. assert (He : pages_of s2 !! q = pages t !! q).
      { apply Hsame. intros Hin. apply Hq. rewrite footprint_leaf. apply elem_of_app. left. by apply Hgone. }
      split; [by left|done].
Qed.

(** A delete in a leaf, seen from its parent *)
Lemma delete_under_parent t t' p c0 es1 es2 lo hi ls ps A B key path r :
  internal_at (pages t) 1 p c0 (es1 ++ es2) -> siblings (subtree (pages t) 0) c0 (es1 ++ es2) lo hi ls ps ->
  within lo hi key -> Forall (fun e => lex_le (fst e) key) es1 -> Forall (fun e => lex_lt key (fst e)) es2 ->
  NoDup (footprint ls [p]) -> linked (pages t) 0 (A ++ map g_page ls ++ B) 0 -> NoDup (A ++ map g_page ls ++ B) -> last path = Some (p, length es1) ->
  delete_from_leaf (child_of c0 es1) key path t = (Ok r, t') ->
  delete_outcome t t' key ls [p] A B r (parent_left t t' p lo hi).
Proof.
  intros Hi Hs Hw Hk1 Hk2 Hnd Hl Hndl Hpath Hrun. destruct (leaf_siblings _ _ _ _ _ _ _ Hs) as [-> _].
  destruct (siblings_focus _ _ es1 [] es2 _ _ _ _ Hs (subtree_contents _ 0)) as (lsL & psL & lsC & psC & lsR & psR & -> & Hps & Hc & HL & HR & Hcont).
  apply siblings_one in Hc as (L & -> & -> & Hpage & HaL & HwL). pose proof (within_of _ _ _ _ _ Hw Hk1 Hk2) as Hwk.
  symmetry in Hps. apply app_nil in Hps as [-> Hps]. cbn [app] in Hps. subst psR. cbn [app] in *.
  pose proof (siblings_contents _ _ _ _ _ _ _ Hs (subtree_contents _ 0)) as (Hsorted & _). change (L :: lsR) with ([L] ++ lsR) in Hsorted. rewrite !cells_of_app in Hsorted.
  unfold cells_of at 2 in Hsorted. simpl in Hsorted. rewrite app_nil_r in Hsorted. rewrite <- Hpage in Hrun.
  destruct (delete_from_leaf_inv _ _ _ _ _ _ HaL (proj1 HwL) Hrun) as [(-> & -> & Hne)|(-> & a & c & b & n & t1 & s2 & u1 & u2 & u3 & Hg & Hk & Hread & Hfree & Hwrite & Hrest)].
  { left. do 2 (split; [done|]). apply (absent_focus _ _ _ _ [L] _ HL HR Hwk). unfold cells_of. simpl. by rewrite app_nil_r. }
  right. split; [done|]. split; [exists c; split; [|done]; unfold cells_of; rewrite map_app, concat_app; simpl; rewrite Hg; set_solver|].
  destruct (delete_cell_siblings _ _ _ _ _ _ _ lo hi lsL L lsR [] [] _ _ _ _ A B _ _ Hi HaL HwL Hpage Hcont Hnd Hsorted Hg Hl Hndl Hread Hfree Hwrite)
    as (Hr1 & Hr2 & Hi2 & Hs2 & Hnode & Hdel). rewrite Hk in Hdel. cbn [app] in Hs2. clear Hrun Hfree Hwrite Hcont.
  set (t2 := mkBTree s2 (root_page t1) (root_level t1)) in *. change (pages_of s2) with (pages t2) in *. set (ls2 := lsL ++ mkGLeaf _ _ _ :: lsR) in *.
  destruct (needs_rebalance _ && _).
  - eapply (deleted_rebalanced t t2 t' p lo hi key _ ls2 A B Hr1 Hr2 Hdel Hnd). destruct Hdel as (freed & _ & _ & Hf & _ & Hl2 & _). rewrite Hpage in Hrest.
    assert (Hm : map g_page ls2 = map g_page (lsL ++ L :: lsR)) by (unfold ls2; by rewrite !map_app).
    eapply handle_leaf_underflow_spec; [exact Hi2|exact Hs2| |exact Hl2| |exact Hnode|exact Hpath|exact Hrest]; [|by rewrite Hm].
    rewrite Hf in Hnd. by apply NoDup_app in Hnd as (_ & _ & ?).
  - injection Hrest as _ <-. exists ls2, [p]. split; [|exact Hdel]. left. split; [exact Hr1|]. split; [exact Hr2|]. exists c0, (es1 ++ es2), []. split; [done|]. split; [exact Hi2|exact Hs2].
Qed.
End Remove.

(** ** Down the tree *)

Section Descend.
Context {S : Type} `{BTreePageStoreLaws S} `{Crc32c}.

Abbreviation pages t := (pages_of (bt_store t)).

(** A node after a delete below it: as it was, or, for a root over leaves, replaced by the one child it had left *)
Definition node_left (t t' : BTree S) (level : nat) (p : Z) (lo hi : option (list Z)) (ls : list gleaf) (ps : list Z) : Prop :=
  (root_page t' = root_page t /\ root_level t' = root_level t /\ subtree (pages t') level p lo hi ls ps)
  \/ (p = root_page t /\ level = 1%nat /\ root_level t' = (root_level t - 1)%nat /\ subtree (pages t') 0 (root_page t') lo hi ls ps).

Lemma deleted_up m m' l page c0 es1 es2 lo hi key lsL lsC lsR psL psC psR A B lsC' psC' :
  internal_at m (Datatypes.S l) page c0 (es1 ++ es2) -> within (lo_of lo es1) (hi_of hi es2) key ->
  leaves_all (under (lo_of lo es1)) lsL -> leaves_all (over (hi_of hi es2)) lsR ->
  (forall T' mid' lsM' psM',
     (forall p lo hi ls' ps', subtree m l p lo hi ls' ps' -> footprint ls' ps' ⊆ footprint (lsL ++ lsR) (psL ++ psR) -> T' p lo hi ls' ps') ->
     siblings T' (child_of c0 es1) mid' (lo_of lo es1) (hi_of hi es2) lsM' psM' ->
     siblings T' c0 (es1 ++ mid' ++ es2) lo hi (lsL ++ lsM' ++ lsR) (psL ++ psM' ++ psR)) ->
  NoDup (footprint (lsL ++ lsC ++ lsR) (page :: psL ++ psC ++ psR)) ->
  deleted m m' key lsC psC lsC' psC' (A ++ map g_page lsL) (map g_page lsR ++ B) ->
  subtree m' l (child_of c0 es1) (lo_of lo es1) (hi_of hi es2) lsC' psC' ->
  exists ls' ps', subtree m' (Datatypes.S l) page lo hi ls' ps' /\ deleted m m' key (lsL ++ lsC ++ lsR) (page :: psL ++ psC ++ psR) ls' ps' A B.
Proof.
  intros Hi [Hwl Hwh] [HL HL'] [HR HR'] Hcont Hnd (freed & Hcells & Hchains & Hfoot & Hnone & Hlink & Hframe) Hsub.
  assert (Hfp : forall X pX, footprint (lsL ++ X ++ lsR) (page :: psL ++ pX ++ psR) ≡ₚ page :: footprint X pX ++ footprint (lsL ++ lsR) (psL ++ psR))
    by (intros X pX; rewrite footprint_cons, !footprint_app; solve_Permutation).
  rewrite Hfp in Hnd. apply NoDup_cons in Hnd as [Hpage Hnd]. apply NoDup_app in Hnd as (_ & Hdis & _).
  exists (lsL ++ lsC' ++ lsR), (page :: psL ++ psC' ++ psR). split.
  - exists c0, (es1 ++ es2), (psL ++ psC' ++ psR). split; [done|]. split.
    + eapply internal_at_content; [|exact Hi]. apply Hframe. set_solver.
    + apply (Hcont _ []); [|by apply siblings_one]. intros p lo1 hi1 ls1 ps1 Ht Hin. eapply subtree_content; [|exact Ht]. intros q Hq. apply Hframe.
      intros HC. apply (Hdis q HC). by apply Hin.
  - exists freed. split; [|split; [|split; [|split; [exact Hnone|split]]]].
    + rewrite !cells_of_app, Hcells. rewrite !krem_app. rewrite (krem_none _ _ (cells_of lsL)), (krem_none _ _ (cells_of lsR)); [done| |].
      * apply all_above_ne. eapply Forall_impl; [exact HR|]. intros c Hc. exact (over_gt _ _ _ Hc Hwh).
      * apply all_below_ne. eapply Forall_impl; [exact HL|]. intros c Hc. exact (under_lt _ _ _ Hc Hwl).
    + by rewrite !chains_of_app, Hchains.
    + rewrite !Hfp, Hfoot. solve_Permutation.
    + rewrite <- !app_assoc in Hlink. rewrite !map_app, <- !app_assoc. exact Hlink.
    + intros q Hq. rewrite Hfp in Hq. assert (HqC : q ∉ footprint lsC psC) by set_solver. destruct (Hframe q HqC) as [Hs He]. split; [exact Hs|].
      intros Hn. apply He. rewrite footprint_app in Hq. unfold footprint, nodes in Hq. set_solver.
Qed.

Lemma delete_subtree_spec l : forall t t' p lo hi ls ps A B key path r,
  subtree (pages t) (Datatypes.S l) p lo hi ls ps -> within lo hi key -> (root_page t = p \/ root_page t ∉ nodes ls ps) ->
  NoDup (footprint ls ps) -> linked (pages t) 0 (A ++ map g_page ls ++ B) 0 -> NoDup (A ++ map g_page ls ++ B) ->
  delete_subtree (Datatypes.S l) p key path t = (Ok r, t') ->
  delete_outcome t t' key ls ps A B r (node_left t t' (Datatypes.S l) p lo hi).
Proof.
  induction l as [|l IH]; intros t t' p lo hi ls ps A B key path r (c0 & es & ps0 & -> & Hi & Hs) Hw Hroot Hnd Hl Hndl Hrun;
    cbn [delete_subtree] in Hrun; apply st_bind_inv in Hrun as (node & w & Ha & Hrun); apply st_read_inv in Ha as [Ha ->];
    rewrite (read_internal_node_at _ _ _ _ _ Hi) in Ha; injection Ha as <-; cbv zeta in Hrun;
    destruct (route_split es key (proj1 (siblings_keys _ _ _ _ _ _ _ Hs))) as (es1 & es2 & -> & Hk1 & Hk2);
    rewrite (proj1 (find_idx_split _ c0 es1 es2 key Hk1 Hk2)), child_at_split in Hrun.
  - destruct (leaf_siblings _ _ _ _ _ _ _ Hs) as [-> _].
    destruct (delete_under_parent t t' p c0 es1 es2 lo hi ls [] A B key (path ++ [(p, length es1)]) r) as [Hout|(-> & Hin & ls' & ps' & Hleft & Hdel)]; try done.
    { apply last_snoc. }
    { by left. }
    right. split; [done|]. split; [exact Hin|]. exists ls', ps'. split; [|exact Hdel]. destruct Hleft as [Hleft|(Hp & Hlv & Hsub)]; [by left|right]. done.
  - destruct (siblings_focus _ _ es1 [] es2 _ _ _ _ Hs (subtree_contents _ _)) as (lsL & psL & lsC & psC & lsR & psR & -> & -> & Hc & HL & HR & Hcont).
    apply siblings_one in Hc. pose proof (within_of _ _ _ _ _ Hw Hk1 Hk2) as Hwk. rewrite !map_app, <- !app_assoc in Hl, Hndl. pose proof Hnd as Hnd0.
    rewrite footprint_cons, !footprint_app in Hnd. apply NoDup_cons in Hnd as [Hpn Hnd]. rewrite !NoDup_app in Hnd.
    assert (HrC : root_page t ∉ nodes lsC psC) by (destruct Hroot as [->|Hroot]; unfold footprint, nodes in *; set_solver).
    destruct (IH t t' _ _ _ _ _ (A ++ map g_page lsL) (map g_page lsR ++ B) key _ r Hc Hwk (or_intror HrC) ltac:(tauto)
      ltac:(by rewrite <- !app_assoc) ltac:(by rewrite <- !app_assoc) Hrun) as [(-> & -> & Hne)|(-> & (c & Hin & Hck) & ls' & ps' & Hleft & Hdel)].
    { left. do 2 (split; [done|]). by eapply absent_focus. }
    right. split; [done|]. split; [exists c; rewrite !cells_of_app; set_solver|].
    destruct Hleft as [(Hr1 & Hr2 & Hsub)|(Hp & _)].
    + destruct (deleted_up _ _ _ _ _ _ _ _ _ _ _ _ _ _ _ _ A B _ _ Hi Hwk HL HR Hcont Hnd0 Hdel Hsub) as (ls2 & ps2 & Hs2 & Hd2). exists ls2, ps2. split; [by left|exact Hd2].
    + destruct HrC. rewrite <- Hp. by eapply subtree_root.
Qed.

(** A tree of one leaf *)
Lemma delete_root_leaf t t' p key ls ps r :
  subtree (pages t) 0 p None None ls ps -> NoDup (footprint ls ps) -> linked (pages t) 0 (map g_page ls) 0 ->
  delete_from_leaf p key [] t = (Ok r, t') ->
  delete_outcome t t' key ls ps [] [] r (node_left t t' 0 p None None).
Proof.
  intros (L & -> & -> & <- & HaL & Hsorted & Hin & Hrest) Hnd Hl Hrun. unfold footprint, nodes, cells_of in Hnd. simpl in Hnd. rewrite app_nil_r in Hnd.
  assert (Hcells : forall X : gleaf, cells_of [X] = g_cells X) by (intros X; unfold cells_of; simpl; by rewrite app_nil_r).
  destruct (delete_from_leaf_inv _ _ _ _ _ _ HaL Hsorted Hrun) as [(-> & -> & Hne)|(-> & a & c & b & n & t1 & s2 & u1 & u2 & u3 & Hg & <- & Hread & Hfree & Hwrite & Hfin)].
  { left. rewrite Hcells. done. }
  rewrite bool_decide_eq_true_2, andb_false_r in Hfin by done. injection Hfin as _ <-. right. split; [done|]. split; [exists c; rewrite Hcells, Hg; set_solver|].
  destruct (delete_cell t t1 s2 L a c b n [] [] u1 u2 HaL Hg Hl (NoDup_singleton _) Hnd Hread Hfree Hwrite) as (Hr1 & Hr2 & HaL' & Hl2 & Hnode & Hnone & Hsame).
  set (X := mkGLeaf (g_page L) (a ++ b) (g_chains L)) in *. exists [X], []. split; [left; do 2 (split; [done|])|].
  - exists X. do 3 (split; [done|]). split; [exact HaL'|]. rewrite Hg in Hsorted, Hin. apply ksorted_mid in Hsorted as [Hsorted _].
    split; [exact Hsorted|]. split; [|exact Hrest]. apply Forall_app in Hin as [? [_ ?]%Forall_cons]. by apply Forall_app.
  - exists (gc_pages c). rewrite !Hcells, Hg. split; [|split; [|split; [|split; [exact Hnone|split; [exact Hl2|]]]]].
    + rewrite Hg in Hsorted. by rewrite krem_mid.
    + done.
    + destruct L as [pg cs ch]. cbn [g_cells g_page g_chains] in *. rewrite Hg. apply (footprint_delete [] []).
    + intros q Hq. assert (He : pages_of s2 !! q = pages t !! q); [|by split; [left|]]. apply Hsame. intros Hq2. apply Hq.
      unfold footprint, nodes. rewrite Hcells, Hg, overflow_of_app. unfold overflow_of. simpl. set_solver.
Qed.

(** What a delete leaves: nothing changed where the key is absent; otherwise the
    key's cell alone is gone, and the pages given up are free. *)
Lemma delete_spec key t t' ls ps r :
  tree_at t ls ps -> delete_key key t = (Ok r, t') ->
  (r = false /\ t' = t /\ Forall (fun c => gc_key c <> key) (cells_of ls))
  \/ (r = true /\ (exists c, c ∈ cells_of ls /\ gc_key c = key)
      /\ exists ls' ps' freed, tree_at t' ls' ps' /\ cells_of ls' = krem gc_key key (cells_of ls) /\ chains_of ls' = chains_of ls
           /\ footprint ls ps ≡ₚ freed ++ footprint ls' ps' /\ (forall q, q ∈ freed -> pages t' !! q = None)
           /\ (forall q, q ∉ footprint ls ps -> pages t' !! q = pages t !! q)).
Proof.
  intros (Hs & Hnd & Hl) Hrun. unfold delete_key in Hrun. st_inv Hrun. apply st_read_inv in Ha as [[= <-] ->]. apply st_read_inv in Ha0 as [[= <-] ->].
  assert (Hndl : NoDup (map g_page ls)) by (unfold footprint, nodes in Hnd; rewrite !NoDup_app in Hnd; tauto).
  assert (Hout : delete_outcome t t' key ls ps [] [] r (node_left t t' (root_level t) (root_page t) None None)).
  { destruct (root_level t) as [|l]; [by apply delete_root_leaf|]. eapply delete_subtree_spec; [exact Hs|done|by left|exact Hnd| | |exact Hrun]; by rewrite app_nil_r. }
  destruct Hout as [Hout|(-> & Hin & ls' & ps' & Hleft & freed & Hc & Hch & Hf & Hnone & Hl' & Hframe)]; [by left|right]. split; [done|]. split; [exact Hin|].
  exists ls', ps', freed. split; [|do 3 (split; [done|]); split; [exact Hnone|]].
  - split_and!.
    + destruct Hleft as [(-> & -> & Hsub)|(_ & Hlv & -> & Hsub)]; [exact Hsub|]. by rewrite Hlv.
    + rewrite Hf in Hnd. by apply NoDup_app in Hnd as (_ & _ & ?).
    + rewrite app_nil_r in Hl'. exact Hl'.
  - intros q Hq. apply (Hframe q Hq). apply not_elem_of_nil.
Qed.
End Descend.
