(* ===== verification/BTreeRead.v ===== *)
(** * Reading a B+ tree ([storage/btree/scan.rs], [chain.rs], [mod.rs])

    A descent ends at the one leaf whose bounds hold the key; a point read
    answers as the ordered map of the tree's rows does, a range scan lists the
    rows between its bounds, a walk over the tree meets every page once. *)

From stdpp Require Import gmap.
From S2P Require Import Prelude Effects Bytes BTreeMap Version Crc Page LeafNode InternalNode.
From S2P Require Import OverflowRefs Chain HistoryCodec KeyTree HistoryStore Synth PageSource PageStore OverflowChain.
From S2P Require Import BTree BTreeLists BTreeShape BTreeNodes BTreeSplit BTreeInsert BTreeDelete.
From Stdlib Require Import Sorted.

#[local] Open Scope Z_scope.

Section Descent.
Context {S : Type} `{BTreePageStoreLaws S} `{Crc32c}.

(** The leaf a key belongs to.  A leaf with the same page and bounds can take
    its place. *)
Definition home (m : page_map) (l : nat) (p : Z) (lo hi : option (list Z)) (ps : list Z) (key : list Z) (lsL : list gleaf) (L : gleaf) (lsR : list gleaf) : Prop :=
  leaf_at m L /\ leaves_all (fun k => lex_lt k key) lsL /\ leaves_all (fun k => lex_lt key k) lsR
  /\ exists lo' hi', within lo' hi' key /\ leaf_within lo' hi' L
       /\ forall m' L', g_page L' = g_page L -> leaf_at m' L' -> leaf_within lo' hi' L' ->
            (forall q, q ∈ footprint (lsL ++ lsR) ps -> same_content m m' q) -> subtree m' l p lo hi (lsL ++ L' :: lsR) ps.

Lemma find_leaf_home l : forall s p lo hi ls ps key,
  subtree (pages_of s) l p lo hi ls ps -> within lo hi key ->
  exists lsL L lsR, find_leaf_from s l p key = Ok (g_page L) /\ ls = lsL ++ L :: lsR /\ home (pages_of s) l p lo hi ps key lsL L lsR.
Proof.
  induction l as [|l IH]; intros s p lo hi ls ps key Hs Hw; cbn [find_leaf_from].
  - destruct Hs as (L & -> & -> & <- & Ha & HwL). exists [], L, []. do 2 (split; [done|]). split; [exact Ha|]. do 2 (split; [apply leaves_all_nil|]).
    exists lo, hi. do 2 (split; [done|]). intros m' L' Hp Ha' HwL' _. by exists L'.
  - destruct Hs as (c0 & es & ps' & -> & Hi & Hs). rewrite (read_internal_node_at _ _ _ _ _ Hi), bind_Ok.
    destruct (route_split es key (proj1 (siblings_keys _ _ _ _ _ _ _ Hs))) as (es1 & es2 & -> & Hk1 & Hk2).
    rewrite (proj2 (find_idx_split (Datatypes.S l) c0 es1 es2 key Hk1 Hk2)).
    destruct (siblings_focus _ _ es1 [] es2 _ _ _ _ Hs (subtree_contents _ l)) as (lsL & psL & lsC & psC & lsR & psR & -> & -> & Hc & HL & HR & Hcont).
    apply siblings_one in Hc. destruct (within_of _ _ _ _ _ Hw Hk1 Hk2) as [Hwl Hwh].
    destruct (IH _ _ _ _ _ _ key Hc (conj Hwl Hwh)) as (aL & L & aR & Hf & -> & Ha & HaL & HaR & lo' & hi' & Hw' & HwL & Hput).
    exists (lsL ++ aL), L, (aR ++ lsR). split; [exact Hf|]. split; [by rewrite <- !app_assoc|]. split; [exact Ha|].
    split; [apply leaves_all_app; split; [|done]; eapply leaves_all_impl; [exact HL|]; intros k Hk; exact (under_lt _ _ _ Hk Hwl)|].
    split; [apply leaves_all_app; split; [done|]; eapply leaves_all_impl; [exact HR|]; intros k Hk; exact (over_gt _ _ _ Hk Hwh)|].
    exists lo', hi'. do 2 (split; [done|]). intros m' L' Hp Ha' HwL' Hsame.
    assert (Hfp : footprint ((lsL ++ aL) ++ aR ++ lsR) (p :: psL ++ psC ++ psR) ≡ₚ p :: footprint (aL ++ aR) psC ++ footprint (lsL ++ lsR) (psL ++ psR)).
    { rewrite footprint_cons, <- app_assoc, (app_assoc aL). rewrite !footprint_app. solve_Permutation. }
    setoid_rewrite Hfp in Hsame. exists c0, (es1 ++ es2), (psL ++ psC ++ psR). split; [done|]. split.
    + eapply internal_at_content; [|exact Hi]. apply Hsame, list_elem_of_here.
    + assert ((lsL ++ aL) ++ L' :: aR ++ lsR = lsL ++ (aL ++ L' :: aR) ++ lsR) as -> by (by rewrite <- !app_assoc).
      apply (Hcont _ []).
      * intros x lo1 hi1 ls1 ps1 Ht Hin. eapply subtree_content; [|exact Ht]. intros q Hq. apply Hsame, list_elem_of_further, elem_of_app. right. by apply Hin.
      * apply siblings_one. apply Hput; [done..|]. intros q Hq. apply Hsame, list_elem_of_further, elem_of_app. by left.
Qed.

Lemma leftmost_home l : forall s p lo hi ls ps,
  subtree (pages_of s) l p lo hi ls ps -> exists L lsR, leftmost_leaf_from s l p = Ok (g_page L) /\ ls = L :: lsR.
Proof.
  induction l as [|l IH]; intros s p lo hi ls ps Hs; cbn [leftmost_leaf_from].
  - destruct Hs as (L & -> & -> & <- & _). eauto.
  - destruct Hs as (c0 & es & ps' & -> & Hi & Hs). rewrite (read_internal_node_at _ _ _ _ _ Hi), bind_Ok.
    assert (leftmost_child (node_of (Datatypes.S l) c0 es) = c0) as ->.
    { destruct es as [|[k c] es]; [done|]. unfold leftmost_child, node_of. cbn [in_entries to_entries]. by destruct (to_entries c es). }
    destruct es as [|[k c] es].
    + apply siblings_one in Hs. by eapply IH.
    + apply siblings_cons_inv in Hs as (ls1 & ps1 & ls2 & ps2 & -> & -> & Ht & _). destruct (IH _ _ _ _ _ _ Ht) as (L & lsR & Hf & ->).
      exists L, (lsR ++ ls2). done.
Qed.

(** The cell of a key *)
Lemma find_gcell_mid a c b key : ksorted gc_key (a ++ c :: b) -> gc_key c = key ->
  bt_get key (map (fun c => (gc_key c, gc_value c)) (a ++ c :: b)) = Some (gc_value c).
Proof.
  intros Hs <-. rewrite map_app. cbn [map]. apply bt_get_mid. apply ksorted_mid in Hs as (_ & Ha & _). unfold all_below in *. by rewrite Forall_fmap.
Qed.

Lemma bt_get_absent key cs : Forall (fun c => gc_key c <> key) cs -> bt_get key (map (fun c => (gc_key c, gc_value c)) cs) = None.
Proof. intros Hc. apply bt_get_missing. by rewrite Forall_fmap. Qed.

Abbreviation pages t := (pages_of (bt_store t)).

Lemma tree_sorted (t : BTree S) ls ps : tree_at t ls ps -> ksorted gc_key (cells_of ls).
Proof. intros (Hs & _). by apply subtree_contents in Hs as (? & _). Qed.

(** A search answers with the key's cell, or finds none. *)
Lemma search_spec (t : BTree S) ls ps key : tree_at t ls ps ->
  (exists c, c ∈ cells_of ls /\ gc_key c = key /\ gcell_at (pages t) c /\ search t key = Ok (Some (cell_val (gc_cell c))))
  \/ (Forall (fun c => gc_key c <> key) (cells_of ls) /\ search t key = Ok None).
Proof.
  intros (Hs & _). unfold search, find_leaf. destruct (find_leaf_home _ _ _ _ _ _ _ key Hs) as (lsL & L & lsR & -> & -> & Ha & [HL _] & [HR _] & lo & hi & _ & HwL & _); [done|].
  rewrite bind_Ok. destruct Ha as (_ & (b & n & Hm & Hi & Hc) & Hg). destruct (read_leaf_law _ _ _ _ Hm) as [snap ->]. rewrite bind_Ok. cbn [fst].
  destruct HwL as (Hsorted & _). pose proof (proj1 (ksorted_gcells _) Hsorted) as Hks.
  rewrite (img_lookup _ _ Hi) by (rewrite Hc; by apply ksorted_sorted_cells). rewrite Hc, !cells_of_app. change (cells_of (L :: lsR)) with (g_cells L ++ cells_of lsR).
  pose proof (cells_binary_search _ n key Hc Hsorted) as Hb. destruct (binary_search n key).
  - left. destruct Hb as (a & c & b' & Hg' & _ & Hk). rewrite Hg' in *. exists c. split; [set_solver|]. split; [done|]. split.
    + rewrite Forall_app, Forall_cons in Hg. tauto.
    + rewrite map_app in *. cbn [map] in *. by rewrite (find_cell_mid _ (gc_cell c)).
  - right. destruct Hb as (a & b' & Hg' & _ & Ha & Hb'). rewrite Hg' in *.
    assert (Hne : Forall (fun c => gc_key c <> key) (a ++ b')) by (apply Forall_app; split; [by apply all_below_ne|by apply all_above_ne]). split.
    + rewrite !Forall_app in *. split_and!; try tauto; [by apply all_below_ne|by apply all_above_ne].
    + rewrite find_cell_missing; [done|]. by rewrite Forall_fmap.
Qed.

Lemma resolve_gcell (s : S) c : gcell_at (pages_of s) c -> resolve_cell_value (read_overflow_chain s) (cell_val (gc_cell c)) = Ok (gc_value c).
Proof.
  unfold gcell_at. destruct (cell_val (gc_cell c)) as [v|first total]; simpl; [by intros (-> & _)|].
  intros (Hc & Hl & -> & _). by eapply read_overflow_chain_spec.
Qed.

(** A read answers as the map of the rows does. *)
Lemma get_value_spec (t : BTree S) ls ps key : tree_at t ls ps -> get_value t key = Ok (bt_get key (rows_of ls)).
Proof.
  intros Ht. pose proof (tree_sorted _ _ _ Ht) as Hs. unfold get_value. destruct (search_spec t ls ps key Ht) as [(c & Hc & Hk & Hat & ->)|(Hne & ->)]; rewrite bind_Ok.
  - rewrite (resolve_gcell _ _ Hat), bind_Ok. apply list_elem_of_split in Hc as (a & b & Hc). unfold rows_of. rewrite Hc in *. by rewrite find_gcell_mid.
  - unfold rows_of. by rewrite bt_get_absent.
Qed.

(** ** Range scans *)

Definition scan_gcells (lo hi : option (list Z)) (cs : list gcell) : list gcell := filter (fun c => in_scan lo hi (gc_key c) = true) cs.

Definition scan_item (c : gcell) : list Z * CellValue := (gc_key c, cell_val (gc_cell c)).

Lemma scan_gcells_app lo hi a b : scan_gcells lo hi (a ++ b) = scan_gcells lo hi a ++ scan_gcells lo hi b.
Proof. apply filter_app. Qed.

Lemma scan_gcells_none lo hi cs : Forall (fun c => in_scan lo hi (gc_key c) = false) cs -> scan_gcells lo hi cs = [].
Proof. induction 1 as [|c cs Hc _ IH]; [done|]. unfold scan_gcells in *. rewrite filter_cons, decide_False by congruence. done. Qed.

Lemma scan_gcells_rows lo hi cs :
  scan_rows lo hi (map (fun c => (gc_key c, gc_value c)) cs) = map (fun c => (gc_key c, gc_value c)) (scan_gcells lo hi cs).
Proof.
  unfold scan_rows, scan_gcells. induction cs as [|c cs IH]; [done|]. rewrite map_cons, !filter_cons, IH. cbn [fst].
  by destruct (decide (in_scan lo hi (gc_key c) = true)).
Qed.

Lemma in_scan_lo lo hi k : in_scan (Some lo) hi k = lex_leb lo k && in_scan None hi k.
Proof. done. Qed.

(** From the position of the start key on, nothing below it *)
Lemma scan_start n cs lo hi : cells n = map gc_cell cs -> ksorted gc_key cs ->
  exists cs', drop (match lo with Some k => search_index (binary_search n k) | None => O end) (cells n) = map gc_cell cs'
    /\ ksorted gc_key cs' /\ scan_gcells lo hi cs = scan_gcells None hi cs' /\ (forall c, c ∈ cs' -> c ∈ cs).
Proof.
  intros Hc Hs. rewrite Hc. destruct lo as [lo|]; [|by exists cs]. pose proof (cells_binary_search _ n lo Hc Hs) as Hb.
  assert (Hcut : exists a b, cs = a ++ b /\ search_index (binary_search n lo) = length a
    /\ Forall (fun c => lex_lt (gc_key c) lo) a /\ Forall (fun c => lex_le lo (gc_key c)) b).
  { destruct (binary_search n lo).
    - destruct Hb as (a & c & b & -> & -> & <-). exists a, (c :: b). apply ksorted_mid in Hs as (_ & Ha & Hb). split_and!; [done..|].
      constructor; [eauto with lex|]. eapply Forall_impl; [exact Hb|]. simpl. eauto with lex.
    - destruct Hb as (a & b & -> & -> & Ha & Hb). exists a, b. split_and!; [done..|]. eapply Forall_impl; [exact Hb|]. simpl. eauto with lex. }
  destruct Hcut as (a & b & -> & -> & Ha & Hb'). exists b. rewrite map_app. rewrite <- (length_map gc_cell a), drop_app_length.
  split; [done|]. apply ksorted_app in Hs as (_ & Hs & _). split; [done|]. split; [|set_solver]. rewrite scan_gcells_app, scan_gcells_none.
  - cbn [app]. unfold scan_gcells. clear -Hb'. induction Hb' as [|c b Hk _ IH]; [done|]. rewrite !filter_cons, IH. rewrite !in_scan_lo.
    rewrite (proj2 (lex_leb_le _ _) Hk). done.
  - eapply Forall_impl; [exact Ha|]. intros c Hk. cbv beta in *. rewrite in_scan_lo. by rewrite (proj2 (lex_leb_nle _ _) Hk).
Qed.

Lemma in_scan_hi k c : in_scan None (Some k) c = lex_leb c k.
Proof. done. Qed.

(** Up to the first cell above the end bound; the loop then stops, and no later cell is in range. *)
Lemma scan_cells_spec hi cs : ksorted gc_key cs -> exists stop, scan_cells hi (map gc_cell cs) = (map scan_item (scan_gcells None hi cs), stop)
  /\ (stop = true -> exists h c, hi = Some h /\ c ∈ cs /\ lex_lt h (gc_key c)).
Proof.
  induction cs as [|c cs IH]; intros Hs; [by exists false|]. apply ksorted_cons in Hs as [Hs Hc]. cbn [map scan_cells]. fold (gc_key c).
  destruct (IH Hs) as (stop & E & Hstop). unfold scan_gcells. rewrite filter_cons. fold (scan_gcells None hi cs). destruct hi as [h|].
  - rewrite in_scan_hi. destruct (lex_ltb h (gc_key c)) eqn:El.
    + exists true. apply lex_ltb_lt in El. rewrite decide_False; [|intros Hle%lex_leb_le; by apply Hle]. rewrite scan_gcells_none.
      * split; [done|]. intros _. exists h, c. set_solver.
      * eapply Forall_impl; [exact Hc|]. intros x Hx. cbv beta in *. rewrite in_scan_hi. apply lex_leb_nle. eauto with lex.
    + apply lex_ltb_nlt in El. rewrite decide_True by (by apply lex_leb_le). rewrite E. exists stop. split; [done|]. intros Ht.
      destruct (Hstop Ht) as (h' & x & ? & ? & ?). exists h', x. set_solver.
  - rewrite decide_True, E by done. exists stop. split; [done|]. intros Ht. destruct (Hstop Ht) as (h' & x & ? & _). done.
Qed.

Lemma scan_run (s : S) lo hi : forall rest L prev results, Forall (leaf_at (pages_of s)) (L :: rest) ->
  linked (pages_of s) prev (map g_page (L :: rest)) 0 -> ksorted gc_key (cells_of (L :: rest)) ->
  forall b ch, pages_of s !! g_page L = Some (LeafImage b ch) ->
  run (Datatypes.S (length rest)) (range_scan_body s lo hi) (b, results) = Done (Ok (results ++ map scan_item (scan_gcells lo hi (cells_of (L :: rest))))).
Proof.
  induction rest as [|L2 rest IH]; intros L prev results [Ha Har]%Forall_cons Hl Hs b ch Hb; cbn [length]; cbn [run];
    destruct Ha as (_ & (b' & n & Hm & Hi & Hc) & _); rewrite Hm in Hb; injection Hb as <- <-;
    cbn [map linked] in Hl; destruct Hl as [(_ & b2 & ch2 & n2 & Hm2 & Hi2 & _ & Hnext) Hl]; rewrite Hm in Hm2; injection Hm2 as <- <-;
    assert (n2 = n) as -> by (pose proof (img_parse _ _ Hi); pose proof (img_parse _ _ Hi2); congruence); clear Hi2;
    cbn [range_scan_body]; rewrite (img_parse _ _ Hi);
    match goal with |- context [cells_of (L :: ?r)] => change (cells_of (L :: r)) with (g_cells L ++ cells_of r) in * end;
    apply ksorted_app in Hs as (HsL & Hsr & Hlr); destruct (scan_start n (g_cells L) lo hi Hc HsL) as (cs' & -> & Hs' & Hscan & Hsub);
    destruct (scan_cells_spec hi cs' Hs') as (stop & -> & Hstop); rewrite scan_gcells_app, Hscan, map_app.
  - change (next_leaf_page n = 0) in Hnext. rewrite Hnext, Z.eqb_refl. rewrite app_nil_r. by destruct stop.
  - destruct stop.
    + destruct (Hstop eq_refl) as (h & c & -> & Hin & Hgt). rewrite (scan_gcells_none _ _ (cells_of (L2 :: rest))), app_nil_r; [done|].
      rewrite Forall_forall in Hlr. eapply Forall_impl; [exact (Hlr c (Hsub c Hin))|]. intros x Hx. cbv beta in *. unfold in_scan.
      rewrite (proj2 (lex_leb_nle (gc_key x) h)) by eauto with lex. apply andb_false_r.
    + change (next_leaf_page n = g_page L2) in Hnext. rewrite Hnext. assert (Hp2 : page_number (g_page L2)) by (by apply Forall_cons in Har as [[? _] _]).
      rewrite (proj2 (Z.eqb_neq (g_page L2) 0)) by (unfold page_number in Hp2; lia).
      pose proof Har as [(_ & (bb & nn & Hmm & _) & _) _]%Forall_cons. destruct (read_leaf_law _ _ _ _ Hmm) as [snap ->]. cbn [fst].
      change (run (Datatypes.S (length rest)) (range_scan_body s lo hi) (bb, results ++ map scan_item (scan_gcells None hi cs')) =
        Done (Ok (results ++ map scan_item (scan_gcells None hi cs') ++ map scan_item (scan_gcells lo hi (cells_of (L2 :: rest)))))).
      rewrite (IH L2 (g_page L) _ Har Hl Hsr bb _ Hmm). by rewrite <- app_assoc.
Qed.

Lemma siblings_leaves T m p es lo hi ls ps : (forall p lo hi ls ps, T p lo hi ls ps -> Forall (leaf_at m) ls) ->
  siblings T p es lo hi ls ps -> Forall (leaf_at m) ls.
Proof. intros HT. induction 1 as [|p k q es lo hi ls ps ls' ps' Ht _ _ _ IH]; [by eapply HT|]. apply Forall_app. split; [by eapply HT|done]. Qed.

Lemma subtree_leaves m l : forall p lo hi ls ps, subtree m l p lo hi ls ps -> Forall (leaf_at m) ls.
Proof.
  induction l as [|l IH]; intros p lo hi ls ps; simpl.
  - intros (L & -> & _ & _ & Ha & _). by constructor.
  - intros (c0 & es & ps' & _ & _ & Hs). by eapply siblings_leaves.
Qed.

Lemma NoDup_bounded (l : list Z) (n : nat) : NoDup l -> Forall (fun p => 0 <= p < Z.of_nat n) l -> (length l <= n)%nat.
Proof.
  intros Hnd Hb. rewrite <- (length_map Z.to_nat), <- (length_seq n 0). apply NoDup_incl_length.
  - apply NoDup_ListNoDup, NoDup_fmap_2_strong; [|done]. rewrite Forall_forall in Hb. intros x y Hx Hy E. apply Hb in Hx, Hy. lia.
  - intros x [p [<- Hp]]%in_map_iff. apply in_seq. rewrite Forall_forall in Hb. apply list_elem_of_In in Hp. apply Hb in Hp. lia.
Qed.

Lemma leaf_count (t : BTree S) ls ps : tree_at t ls ps -> (length ls <= 2 ^ 32)%nat.
Proof.
  intros (Hs & Hnd & _). assert (HN : Z.of_nat (2 ^ 32)%nat = 2 ^ 32) by apply Nat2Z.inj_pow. revert HN. generalize (2 ^ 32)%nat. intros N HN.
  rewrite <- (length_map g_page). apply NoDup_bounded.
  - unfold footprint, nodes in Hnd. rewrite !NoDup_app in Hnd. tauto.
  - rewrite Forall_fmap. eapply Forall_impl; [by eapply subtree_leaves|]. intros L [Hp _]. unfold page_number in Hp. unfold compose. lia.
Qed.

(** A scan lists the cells between its bounds, in key order; the loop ends. *)
Lemma range_scan_spec (t : BTree S) ls ps lo hi : tree_at t ls ps ->
  range_scan t lo hi = Ok (map scan_item (scan_gcells lo hi (cells_of ls))).
Proof.
  intros Ht. pose proof (tree_sorted _ _ _ Ht) as Hsort. pose proof (leaf_count _ _ _ Ht) as Hcount. destruct Ht as (Hs & _ & Hl). pose proof (subtree_leaves _ _ _ _ _ _ _ Hs) as Hall.
  assert (Hhome : exists lsL L lsR, match lo with Some k => find_leaf t k | None => leftmost_leaf t end = Ok (g_page L)
    /\ ls = lsL ++ L :: lsR /\ scan_gcells lo hi (cells_of lsL) = []).
  { destruct lo as [k|].
    - destruct (find_leaf_home _ _ _ _ _ _ _ k Hs) as (lsL & L & lsR & Hf & -> & _ & [HL _] & _); [done|]. exists lsL, L, lsR. do 2 (split; [done|]).
      apply scan_gcells_none. eapply Forall_impl; [exact HL|]. intros c Hc. cbv beta in *. rewrite in_scan_lo. by rewrite (proj2 (lex_leb_nle _ _) Hc).
    - destruct (leftmost_home _ _ _ _ _ _ _ Hs) as (L & lsR & Hf & ->). by exists [], L, lsR. }
  destruct Hhome as (lsL & L & lsR & Hf & -> & Hnone). unfold range_scan. rewrite Hf, bind_Ok.
  rewrite map_app in Hl. apply links_app in Hl as [_ Hl]. rewrite cells_of_app in *. apply ksorted_app in Hsort as (_ & Hsort & _). apply Forall_app in Hall as [_ Hall].
  pose proof Hall as [(_ & (b & n & Hm & _) & _) _]%Forall_cons. destruct (read_leaf_law _ _ _ _ Hm) as [snap ->]. rewrite bind_Ok. cbn [fst].
  rewrite (iterate_Done (Datatypes.S (length lsR)) _ _ _ (Ok (map scan_item (scan_gcells lo hi (cells_of (L :: lsR)))))).
  - by rewrite scan_gcells_app, Hnone.
  - rewrite length_app in Hcount. cbn [length] in Hcount. revert Hcount. generalize (2 ^ 32)%nat. intros N HN. lia.
  - apply (scan_run (bt_store t) lo hi lsR L _ [] Hall Hl Hsort _ _ Hm).
Qed.

(** Values are where the scan says they are. *)
Lemma gcells_at_tree (t : BTree S) ls ps : tree_at t ls ps -> Forall (gcell_at (pages t)) (cells_of ls).
Proof.
  intros (Hs & _). unfold cells_of. apply Forall_concat. rewrite Forall_fmap. eapply Forall_impl; [by eapply subtree_leaves|]. by intros L (_ & _ & ?).
Qed.

Lemma gcell_stored (m : page_map) c : gcell_at m c -> stored_as (cell_val (gc_cell c)) (gc_value c).
Proof.
  unfold gcell_at, stored_as. destruct (cell_val (gc_cell c)) as [v|p n].
  - intros (-> & _ & Hl). destruct (Z.ltb_spec OVERFLOW_THRESHOLD (len (gc_value c))); [lia|done].
  - intros (_ & _ & -> & Hl & _). rewrite (proj2 (Z.ltb_lt _ _) Hl). by exists p.
Qed.

(** ** Walks over the whole tree *)

Definition tree_pages (ls : list gleaf) (ps : list Z) : list (Z * PageSize) :=
  map (fun p => (p, Small4k)) ps ++ map (fun p => (p, Large32k)) (map g_page ls ++ overflow_of (cells_of ls)).

Lemma tree_pages_app ls ps ls' ps' : tree_pages (ls ++ ls') (ps ++ ps') ≡ₚ tree_pages ls ps ++ tree_pages ls' ps'.
Proof. unfold tree_pages. rewrite cells_of_app, overflow_of_app, !map_app. solve_Permutation. Qed.

Lemma entries_children level c0 es : map snd (in_entries (node_of level c0 es)) ++ [in_rightmost_child (node_of level c0 es)] = c0 :: map snd es.
Proof.
  unfold node_of. cbn [in_entries in_rightmost_child]. revert c0. induction es as [|[k c] es IH]; intros c0; [done|]. specialize (IH c).
  cbn [to_entries]. destruct (to_entries c es). cbn [fst snd map app] in *. by rewrite IH.
Qed.

Lemma collect_overflows_spec (s : S) cs : Forall (gcell_at (pages_of s)) cs ->
  collect_overflows s (map gc_cell cs) = Ok (map (fun p => (p, Large32k)) (overflow_of cs)).
Proof.
  induction 1 as [|c cs Hc _ IH]; [done|]. cbn [map collect_overflows]. rewrite IH. change (overflow_of (c :: cs)) with (gc_pages c ++ overflow_of cs). rewrite map_app.
  unfold gcell_at in Hc. destruct (cell_val (gc_cell c)); [destruct Hc as (_ & -> & _); done|]. destruct Hc as (Hc & Hl & _).
  unfold collect_overflow_pages. rewrite (collect_chain s _ _ _ walk_fuel 0 Hc); [done| |lia]. unfold walk_fuel, len in *. lia.
Qed.

Lemma collect_each_cons (f : Z -> Result (list (Z * PageSize))) c rest :
  collect_each f (c :: rest) = (ps ← f c; more ← collect_each f rest; Ok (ps ++ more)).
Proof. done. Qed.

Lemma collect_each_snoc (f : Z -> Result (list (Z * PageSize))) a r :
  collect_each f (a ++ [r]) = (x ← collect_each f a; y ← f r; Ok (x ++ y)).
Proof.
  induction a as [|c a IH]; cbn [app collect_each].
  - cbn. destruct (f r); cbn; [by rewrite app_nil_r|done|done].
  - fold (collect_each f). destruct (f c); cbn; [|done..]. rewrite IH. destruct (collect_each f a); cbn; [|done..]. destruct (f r); cbn; [by rewrite app_assoc|done..].
Qed.

Lemma collect_each_siblings T (f : Z -> Result (list (Z * PageSize))) p es lo hi ls ps :
  (forall p lo hi ls ps, T p lo hi ls ps -> exists out, f p = Ok out /\ out ≡ₚ tree_pages ls ps) ->
  siblings T p es lo hi ls ps -> exists out, collect_each f (p :: map snd es) = Ok out /\ out ≡ₚ tree_pages ls ps.
Proof.
  intros HT. induction 1 as [p lo hi ls ps Ht|p k q es lo hi ls ps ls' ps' Ht _ _ _ (o' & Ho' & Hp')]; destruct (HT _ _ _ _ _ Ht) as (o & Ho & Hp).
  - exists o. cbn [map snd collect_each]. rewrite Ho, bind_Ok, bind_Ok, app_nil_r. done.
  - exists (o ++ o'). cbn [map snd] in *. rewrite collect_each_cons, Ho, bind_Ok, Ho', bind_Ok. split; [done|]. by rewrite tree_pages_app, Hp, Hp'.
Qed.

(** Every page of the tree, with its size, once *)
Lemma collect_subtree_spec (s : S) l : forall p lo hi ls ps, subtree (pages_of s) l p lo hi ls ps ->
  exists out, collect_subtree_pages s l p = Ok out /\ out ≡ₚ tree_pages ls ps.
Proof.
  induction l as [|l IH]; intros p lo hi ls ps.
  - intros (L & -> & -> & <- & (_ & (b & n & Hm & Hi & Hc) & Hg) & _). cbn [collect_subtree_pages].
    rewrite (read_leaf_node_at _ _ _ _ _ Hm Hi), bind_Ok, Hc, collect_overflows_spec, bind_Ok by done. eexists. split; [done|].
    unfold tree_pages, cells_of. simpl. rewrite app_nil_r. solve_Permutation.
  - intros (c0 & es & ps' & -> & Hi & Hs). cbn [collect_subtree_pages]. rewrite (read_internal_node_at _ _ _ _ _ Hi), bind_Ok.
    destruct (collect_each_siblings _ _ _ _ _ _ _ _ IH Hs) as (out & Ho & Hp). rewrite <- (entries_children (Datatypes.S l)), collect_each_snoc in Ho.
    destruct (collect_each _ _) as [x| |]; cbn in Ho; try done. destruct (collect_subtree_pages s l _) as [y| |]; cbn in Ho; try done. injection Ho as Ho.
    exists (x ++ y ++ [(p, Small4k)]). split; [done|]. rewrite app_assoc, Ho, Hp. unfold tree_pages. cbn [map]. solve_Permutation.
Qed.

(** ** Giving a tree up *)

Definition freed (m m' : page_map) (fp : list Z) : Prop := forall q, m' !! q = if decide (q ∈ fp) then None else m !! q.

Lemma freed_outside m m' fp q : freed m m' fp -> q ∉ fp -> m' !! q = m !! q.
Proof. intros Hf Hq. by rewrite (Hf q), decide_False. Qed.

Lemma freed_trans m1 m2 m3 a b c : freed m1 m2 a -> freed m2 m3 b -> (forall q, q ∈ c <-> q ∈ a \/ q ∈ b) -> freed m1 m3 c.
Proof.
  intros H12 H23 Hc q. rewrite (H23 q), (H12 q). destruct (decide (q ∈ c)) as [Hq|Hq]; destruct (decide (q ∈ b)), (decide (q ∈ a)); try done; exfalso; rewrite Hc in Hq; tauto.
Qed.

Lemma freed_last m1 m2 m3 a p : freed m1 m2 a -> m3 = delete p m2 -> freed m1 m3 (p :: a).
Proof.
  intros Hf ->. eapply (freed_trans _ _ _ a [p]); [exact Hf| |intros q; set_solver]. intros q.
  destruct (decide (q ∈ [p])) as [->%list_elem_of_singleton|Hq]; [apply lookup_delete_eq|]. apply lookup_delete_ne. set_solver.
Qed.

Lemma free_overflows_spec cs : forall (s : S) u s', Forall (gcell_at (pages_of s)) cs -> NoDup (overflow_of cs) ->
  free_overflows (map gc_cell cs) s = (Ok u, s') -> freed (pages_of s) (pages_of s') (overflow_of cs).
Proof.
  induction cs as [|c cs IH]; intros s u s' Hall Hnd Hf; cbn [map free_overflows] in Hf.
  - injection Hf as _ <-. intros q. by rewrite decide_False by apply not_elem_of_nil.
  - apply Forall_cons in Hall as [Hc Hcs]. change (overflow_of (c :: cs)) with (gc_pages c ++ overflow_of cs) in *. apply NoDup_app in Hnd as (Hndc & Hdis & Hnd).
    apply st_bind_inv in Hf as ([] & s1 & H1f & Hf).
    assert (Hfree : freed (pages_of s) (pages_of s1) (gc_pages c)).
    { unfold gcell_at in Hc. destruct (cell_val (gc_cell c)).
      - injection H1f as <-. destruct Hc as (_ & -> & _). intros q. by rewrite decide_False by apply not_elem_of_nil.
      - destruct Hc as (Hc & _). intros q. by eapply free_chain_loop_spec. }
    eapply freed_trans; [exact Hfree|eapply IH; [|exact Hnd|exact Hf]|intros q; by rewrite elem_of_app].
    eapply gcells_at_content; [|exact Hcs]. intros q Hq. left. apply (freed_outside _ _ _ _ Hfree). intros Hin. by apply (Hdis q).
Qed.

Lemma free_each_snoc (f : Z -> st S unit) a r s : free_each f (a ++ [r]) s = (_ <~ free_each f a ;; f r)%st s.
Proof.
  revert s. induction a as [|c a IH]; intros s; cbn [app free_each].
  - unfold st_bind, st_ret. by destruct (f r s) as [[[]| |] ?].
  - fold (free_each f). unfold st_bind in *. destruct (f c s) as [[| |] ?]; [apply IH|done..].
Qed.

Lemma free_each_cons (f : Z -> st S unit) c rest : free_each f (c :: rest) = (_ <~ f c ;; free_each f rest)%st.
Proof. done. Qed.

Lemma free_each_siblings l f : (forall p lo hi ls ps (s s' : S) u, subtree (pages_of s) l p lo hi ls ps -> NoDup (footprint ls ps) ->
    f p s = (Ok u, s') -> freed (pages_of s) (pages_of s') (footprint ls ps)) ->
  forall es p lo hi ls ps (s s' : S) u, siblings (subtree (pages_of s) l) p es lo hi ls ps -> NoDup (footprint ls ps) ->
  free_each f (p :: map snd es) s = (Ok u, s') -> freed (pages_of s) (pages_of s') (footprint ls ps).
Proof.
  intros HT. induction es as [|[k q] es IH]; intros p lo hi ls ps s s' u Hs Hnd Hf; rewrite free_each_cons in Hf; apply st_bind_inv in Hf as (u1 & s1 & Hf1 & Hf).
  - injection Hf as _ <-. apply siblings_one in Hs. by eapply HT.
  - apply siblings_cons_inv in Hs as (ls1 & ps1 & ls2 & ps2 & -> & -> & Ht & _ & _ & Hs). rewrite footprint_app in Hnd. apply NoDup_app in Hnd as (Hnd1 & Hdis & Hnd2).
    pose proof (HT _ _ _ _ _ _ _ _ Ht Hnd1 Hf1) as Hfree.
    eapply freed_trans; [exact Hfree|eapply IH; [|exact Hnd2|exact Hf]|intros x; by rewrite footprint_app, elem_of_app].
    eapply siblings_content; [|exact Hs]. intros x Hx. left. apply (freed_outside _ _ _ _ Hfree). intros Hin. by apply (Hdis x).
Qed.

(** The pages of the tree are free, no other page changed. *)
Lemma free_subtree_spec l : forall p lo hi ls ps (s s' : S) u, subtree (pages_of s) l p lo hi ls ps -> NoDup (footprint ls ps) ->
  free_subtree l p s = (Ok u, s') -> freed (pages_of s) (pages_of s') (footprint ls ps).
Proof.
  induction l as [|l IH]; intros p lo hi ls ps s s' [].
  - intros (L & -> & -> & <- & (_ & (b & n & Hm & Hi & Hc) & Hg) & _) Hnd Hf. cbn [free_subtree] in Hf. apply st_bind_inv in Hf as (n' & w & Ha & Hf).
    apply st_read_inv in Ha as [Ha ->]. rewrite (read_leaf_node_at _ _ _ _ _ Hm Hi) in Ha. injection Ha as <-. apply st_bind_inv in Hf as (u & s1 & Ho & Hf).
    rewrite Hc in Ho. unfold footprint, nodes, cells_of in *. simpl in *. rewrite app_nil_r in *. apply NoDup_cons in Hnd as [Hp Hnd].
    pose proof (free_overflows_spec _ _ _ _ Hg Hnd Ho) as Hfree. eapply free_leaf_law in Hf; [|by rewrite (freed_outside _ _ _ _ Hfree Hp)].
    exact (freed_last _ _ _ _ _ Hfree Hf).
  - intros (c0 & es & ps' & -> & Hi & Hs) Hnd Hf. cbn [free_subtree] in Hf. apply st_bind_inv in Hf as (n' & w & Ha & Hf).
    apply st_read_inv in Ha as [Ha ->]. rewrite (read_internal_node_at _ _ _ _ _ Hi) in Ha. injection Ha as <-.
    apply st_bind_inv in Hf as (u1 & s1 & He & Hf). apply st_bind_inv in Hf as (u2 & s2 & Hr & Hf). rewrite footprint_cons in *. apply NoDup_cons in Hnd as [Hp Hnd].
    assert (Heach : free_each (free_subtree l) (c0 :: map snd es) s = (Ok u2, s2)).
    { rewrite <- (entries_children (Datatypes.S l)), free_each_snoc. unfold st_bind. by rewrite He. }
    pose proof (free_each_siblings l _ IH _ _ _ _ _ _ _ _ _ Hs Hnd Heach) as Hfree. destruct Hi as (_ & _ & _ & _ & b & Hm & _).
    eapply free_internal_law in Hf; [|by rewrite (freed_outside _ _ _ _ Hfree Hp)].
    exact (freed_last _ _ _ _ _ Hfree Hf).
Qed.
End Descent.
