(* ===== verification/BTreeCorrect.v ===== *)
(** * The B+ tree as an ordered map

    The operations of [storage/btree] on a tree whose pages are well formed:
    construction, insert, replace, delete, reads, scans and walks, against the
    ordered map of the tree's rows.  The tree implements the interface its
    clients are proved against. *)

From stdpp Require Import gmap.
From S2P Require Import Prelude Effects Bytes Timestamp BTreeMap Version Crc Page LeafNode InternalNode.
From S2P Require Import OverflowRefs Chain HistoryCodec KeyTree HistoryStore Synth PageSource PageStore OverflowChain.
From S2P Require Import BTree BTreeLists BTreeShape BTreeNodes BTreeSplit BTreeInsert BTreeDelete BTreeRead.
From Stdlib Require Import Sorted.

#[local] Open Scope Z_scope.

(** ** Rows *)

Definition row_of (c : gcell) : list Z * list Z := (gc_key c, gc_value c).

Lemma rows_inserted ls ls' gc : ksorted gc_key (cells_of ls) -> Forall (fun c => gc_key c <> gc_key gc) (cells_of ls) ->
  cells_of ls' = kins gc_key gc (cells_of ls) -> rows_of ls' = bt_insert (gc_key gc) (gc_value gc) (rows_of ls).
Proof.
  intros Hs Hne Hc. unfold rows_of. rewrite Hc. destruct (ksorted_cut gc_key (gc_key gc) _ Hs Hne) as (a & b & -> & Ha & Hb).
  rewrite kins_below, !map_app by done. cbn [map]. symmetry. apply bt_insert_mid; unfold all_below, all_above; by rewrite Forall_fmap.
Qed.

Lemma rows_removed ls ls' key : cells_of ls' = krem gc_key key (cells_of ls) -> rows_of ls' = bt_remove key (rows_of ls).
Proof.
  intros Hc. unfold rows_of. rewrite Hc. generalize (cells_of ls). intros cs. unfold krem, bt_remove. induction cs as [|c cs IH]; [done|].
  rewrite map_cons, !filter_cons, <- IH. cbn [fst]. by destruct (decide (gc_key c <> key)).
Qed.

Lemma rows_sorted_of ls : ksorted gc_key (cells_of ls) -> bt_sorted (rows_of ls).
Proof. intros Hs. unfold bt_sorted, rows_of. apply (ksorted_map (fun c => (gc_key c, gc_value c)) fst) in Hs. exact Hs. Qed.

Lemma rows_present ls key : (exists c, c ∈ cells_of ls /\ gc_key c = key) -> is_Some (bt_get key (rows_of ls)).
Proof.
  intros (c & Hin & <-). unfold rows_of. induction (cells_of ls) as [|d cs IH]; [by apply not_elem_of_nil in Hin|]. cbn [map bt_get].
  destruct (decide (gc_key c = gc_key d)) as [E|Hne]; [eauto|]. apply IH.
  apply elem_of_cons in Hin as [->|?]; done.
Qed.

(** ** Replacing a value *)

Section Replace.
Context {S : Type} `{BTreePageStoreLaws S} `{Crc32c}.

Abbreviation pages t := (pages_of (bt_store t)).

(** The leaf with another value for one of its keys: the new pages are in
    place, the old ones free, no other page changed *)
Lemma replace_cell t s1 t2 s3 L a c b cv value news n A B u1 u2 :
  leaf_at (pages t) L -> g_cells L = a ++ c :: b -> linked (pages t) 0 (A ++ g_page L :: B) 0 -> NoDup (A ++ g_page L :: B) ->
  NoDup (g_page L :: overflow_of (g_cells L)) -> read_leaf_node (bt_store t) (g_page L) = Ok n ->
  let c' := mkGCell (mkLeafCell (gc_key c) cv) value news in
  gcell_at (pages_of s1) c' -> fresh_pages (pages t) news -> (forall q, q ∉ news -> pages_of s1 !! q = pages t !! q) ->
  free_value (gc_cell c) (mkBTree s1 (root_page t) (root_level t)) = (Ok u1, t2) ->
  write_leaf_node (g_page L) (set_cells (map gc_cell (a ++ c' :: b)) n) (bt_store t2) = (Ok u2, s3) ->
  root_page t2 = root_page t /\ root_level t2 = root_level t
  /\ leaf_at (pages_of s3) (mkGLeaf (g_page L) (a ++ c' :: b) (g_chains L)) /\ linked (pages_of s3) 0 (A ++ g_page L :: B) 0
  /\ (forall q, q ∈ gc_pages c -> pages_of s3 !! q = None)
  /\ (forall q, q ∉ g_page L :: gc_pages c ++ news -> pages_of s3 !! q = pages t !! q).
Proof.
  intros HaL Hcells Hl Hndl Hnd Hread c' Hc' Hfresh Hs1 Hfree Hwrite. pose proof HaL as (Hpn & (bl & n' & Hm & Hi & Hc) & Hg).
  rewrite (read_leaf_node_at _ _ _ _ _ Hm Hi) in Hread. injection Hread as <-.
  assert (Huse : forall q, q ∈ g_page L :: overflow_of (g_cells L) -> q ∉ news).
  { intros q Hq. eapply not_fresh; [apply Hfresh|]. apply elem_of_cons in Hq as [->|Hq]; [by rewrite Hm|by eapply overflow_in_use]. }
  rewrite Hcells in Hg, Hnd, Huse. apply Forall_app in Hg as [Hga [Hgc Hgb]%Forall_cons].
  rewrite overflow_of_app in Hnd, Huse. change (overflow_of (c :: b)) with (gc_pages c ++ overflow_of b) in Hnd, Huse. apply NoDup_cons in Hnd as [Hpo Hnd].
  apply NoDup_app in Hnd as (_ & Hd1 & Hnd). apply NoDup_app in Hnd as (Hndc & Hd2 & _).
  assert (Hpc : g_page L ∉ gc_pages c) by (rewrite !not_elem_of_app in Hpo; tauto).
  assert (Hkeep : forall q, q ∈ overflow_of a \/ q ∈ overflow_of b -> (q ∉ gc_pages c) /\ (q ∉ news) /\ q <> g_page L).
  { intros q Hq. split; [|split]; [intros Hin| |intros ->].
    - destruct Hq as [Hq|Hq]; [apply (Hd1 q Hq); set_solver|by apply (Hd2 q)].
    - apply Huse, list_elem_of_further. rewrite !elem_of_app. tauto.
    - apply Hpo. rewrite !elem_of_app. tauto. }
  assert (Hgc1 : gcell_at (pages_of s1) c) by (eapply gcell_at_content; [|exact Hgc]; intros q Hq; left; apply Hs1, Huse; set_solver).
  destruct (free_value_spec c (mkBTree s1 (root_page t) (root_level t)) u1 t2 Hgc1 Hndc Hfree) as (Hr1 & Hr2 & Hp2). cbn [bt_store root_page root_level] in *.
  assert (Hcn : forall q, q ∈ news -> q ∉ gc_pages c) by (intros q Hq Hin; apply (Huse q); [set_solver|done]).
  assert (Hsame2 : forall q, q ∉ gc_pages c -> q ∉ news -> pages t2 !! q = pages t !! q) by (intros q ? ?; by rewrite Hp2, decide_False, Hs1).
  assert (Hln : forall q, q ∈ A ++ g_page L :: B -> (q ∉ gc_pages c) /\ (q ∉ news)).
  { intros q Hq. split; [intros Hin; by eapply overflow_not_linked|]. destruct (linked_leaf_page _ _ _ _ _ Hl Hq) as (bq & chq & nq & Hmq & _).
    eapply not_fresh; [apply Hfresh|by rewrite Hmq]. }
  assert (Hl2 : linked (pages t2) 0 (A ++ g_page L :: B) 0) by (eapply linked_eq; [|exact Hl]; intros q Hq; by apply Hsame2; apply Hln).
  assert (Hall : Forall (gcell_at (pages t2)) (a ++ c' :: b)).
  { rewrite Forall_app, Forall_cons. split_and!.
    - eapply gcells_at_content; [|exact Hga]. intros q Hq. left. by apply Hsame2; apply Hkeep; left.
    - eapply gcell_at_content; [|exact Hc']. intros q Hq. left. by rewrite Hp2, decide_False by (by apply Hcn).
    - eapply gcells_at_content; [|exact Hgb]. intros q Hq. left. by apply Hsame2; apply Hkeep; right. }
  assert (Hm2 : pages t2 !! g_page L = Some (LeafImage bl (g_chains L))).
  { rewrite Hsame2; [exact Hm|exact Hpc|]. apply Huse, list_elem_of_here. }
  destruct (write_cells_spec _ _ _ _ _ _ _ _ A B Hm2 Hi (gcells_ok _ _ Hall) Hl2 Hndl Hwrite) as (b2 & n2 & Hs3 & Hi2 & Hc2 & _ & _ & Hl3).
  do 2 (split; [done|]). split; [|split; [exact Hl3|split]].
  - split; [exact Hpn|]. split; [exists b2, n2; rewrite Hs3, lookup_insert_eq; done|]. cbn [g_cells]. eapply gcells_at_content; [|exact Hall].
    intros q Hq. left. rewrite Hs3. apply lookup_insert_ne. intros <-. rewrite overflow_of_app in Hq. change (overflow_of (c' :: b)) with (news ++ overflow_of b) in Hq.
    apply elem_of_app in Hq as [Hq|[Hq|Hq]%elem_of_app]; [by eapply Hkeep; [left|]| |by eapply Hkeep; [right|]]. revert Hq. apply Huse, list_elem_of_here.
  - intros q Hq. rewrite Hs3, lookup_insert_ne by (by intros <-). by rewrite Hp2, decide_True.
  - intros q [Hq1 [Hq2 Hq3]%not_elem_of_app]%not_elem_of_cons. rewrite Hs3, lookup_insert_ne by done. by apply Hsame2.
Qed.

Lemma bt_insert_replace {V} k (v v' : V) a b : all_below fst k a -> bt_insert k v' (a ++ (k, v) :: b) = a ++ (k, v') :: b.
Proof.
  induction 1 as [|[k' w] a Hk _ IH]; simpl in *; [by rewrite lex_cmp_refl|]. rewrite (proj2 (lex_cmp_gt k k') Hk). by rewrite IH.
Qed.

Lemma cells_of_mid lsL page ch a c b lsR :
  cells_of (lsL ++ mkGLeaf page (a ++ c :: b) ch :: lsR) = (cells_of lsL ++ a) ++ c :: b ++ cells_of lsR.
Proof. rewrite cells_of_app. unfold cells_of. simpl. by rewrite <- !app_assoc. Qed.

Lemma rows_replaced lsL page ch a c c' b lsR : gc_key c' = gc_key c -> ksorted gc_key (cells_of (lsL ++ mkGLeaf page (a ++ c :: b) ch :: lsR)) ->
  rows_of (lsL ++ mkGLeaf page (a ++ c' :: b) ch :: lsR) = bt_insert (gc_key c) (gc_value c') (rows_of (lsL ++ mkGLeaf page (a ++ c :: b) ch :: lsR)).
Proof.
  intros Hk Hs. unfold rows_of. rewrite !cells_of_mid in *. apply ksorted_mid in Hs as (_ & Ha & _). revert Ha. generalize (cells_of lsL ++ a) (b ++ cells_of lsR).
  intros x y Hx. rewrite !map_app. cbn [map]. rewrite Hk, bt_insert_replace; [done|]. unfold all_below. by rewrite Forall_fmap.
Qed.

Lemma replace_existing_inv t L key value r t' lsL lsR ps :
  home (pages t) (root_level t) (root_page t) None None ps key lsL L lsR -> find_leaf t key = Ok (g_page L) -> replace_existing key value t = (Ok r, t') ->
  (r = false /\ t' = t /\ Forall (fun c => gc_key c <> key) (g_cells L))
  \/ (r = true /\ exists a c b n cv s1 t2 s3 u1 u2, g_cells L = a ++ c :: b /\ gc_key c = key /\ read_leaf_node (bt_store t) (g_page L) = Ok n
       /\ cell_value_for value (bt_store t) = (Ok cv, s1) /\ free_value (gc_cell c) (mkBTree s1 (root_page t) (root_level t)) = (Ok u1, t2)
       /\ write_leaf_node (g_page L) (set_cells (map gc_cell a ++ mkLeafCell (gc_key c) cv :: map gc_cell b) n) (bt_store t2) = (Ok u2, s3)
       /\ t' = mkBTree s3 (root_page t2) (root_level t2)).
Proof.
  intros ((_ & (bl & n & Hm & Hi & Hc) & _) & _ & _ & lo & hi & _ & (Hs & _) & _) Hfind Hrun. unfold replace_existing in Hrun.
  apply st_bind_inv in Hrun as (lp & w & Ha & Hrun). apply st_read_inv in Ha as [Ha ->]. rewrite Hfind in Ha. injection Ha as <-.
  apply st_bind_inv in Hrun as (n' & w & Ha & Hrun). apply st_read_inv in Ha as [Hr ->]. pose proof Hr as Hread.
  rewrite (read_leaf_node_at _ _ _ _ _ Hm Hi) in Hr. injection Hr as <-. pose proof (cells_binary_search _ _ key Hc Hs) as Hbs.
  destruct (binary_search n key) as [j|j].
  - right. destruct Hbs as (a & c & b & Hg & -> & Hk). apply st_bind_inv in Hrun as (cv & t1 & Hcv & Hrun). apply on_store_inv in Hcv as (s1 & Hcv & ->).
    rewrite Hc, Hg, map_app in Hrun. cbn [map] in Hrun.
    assert (Hlk : (map gc_cell a ++ gc_cell c :: map gc_cell b) !! length a = Some (gc_cell c)) by (rewrite list_lookup_middle; [done|by rewrite length_map]).
    assert (Hin : <[length a := mkLeafCell (gc_key c) cv]> (map gc_cell a ++ gc_cell c :: map gc_cell b) = map gc_cell a ++ mkLeafCell (gc_key c) cv :: map gc_cell b).
    { rewrite <- (length_map gc_cell a). rewrite <- (Nat.add_0_r (length _)), insert_app_r. done. }
    rewrite Hlk in Hrun. apply st_bind_inv in Hrun as (old & w & Ha & Hrun). apply st_lift_inv in Ha as [[= <-] ->]. fold (gc_key c) in Hrun. rewrite Hin in Hrun.
    apply st_bind_inv in Hrun as (u1 & t2 & Hf & Hrun). apply st_bind_inv in Hrun as (u2 & t3 & Hw & Hrun). apply on_store_inv in Hw as (s3 & Hw & ->).
    injection Hrun as <- <-. split; [done|]. exists a, c, b, n, cv, s1, t2, s3, u1, u2. done.
  - left. injection Hrun as <- <-. split_and!; [done..|]. destruct Hbs as (a & b & -> & _ & Ha & Hb). apply Forall_app. split; [by apply all_below_ne|by apply all_above_ne].
Qed.

(** What a replace leaves: the key's value alone changed; its old pages are
    free, the new ones fresh. *)
Lemma replace_spec key value t t' ls ps r :
  tree_at t ls ps -> len value < 2 ^ 32 -> replace_existing key value t = (Ok r, t') ->
  (r = false /\ t' = t /\ Forall (fun c => gc_key c <> key) (cells_of ls))
  \/ (r = true /\ (exists c, c ∈ cells_of ls /\ gc_key c = key)
      /\ exists ls' kept old news, tree_at t' ls' ps /\ rows_of ls' = bt_insert key value (rows_of ls) /\ chains_of ls' = chains_of ls
           /\ footprint ls ps ≡ₚ old ++ kept /\ footprint ls' ps ≡ₚ news ++ kept /\ fresh_pages (pages t) news
           /\ (forall q, q ∈ old -> pages t' !! q = None) /\ (forall q, q ∉ footprint ls ps ++ news -> pages t' !! q = pages t !! q)).
Proof.
  intros Ht Hlen Hrun. pose proof (tree_sorted _ _ _ Ht) as Hsort. destruct Ht as (Hs & Hnd & Hl).
  destruct (find_leaf_home _ _ _ _ _ _ _ key Hs) as (lsL & L & lsR & Hfind & -> & Hhome); [done|]. pose proof Hhome as (HaL & HL & HR & lo & hi & Hw & HwL & Hput).
  destruct (replace_existing_inv t L key value r t' lsL lsR ps Hhome Hfind Hrun)
    as [(-> & -> & Hne)|(-> & a & c & b & n & cv & s1 & t2 & s3 & u1 & u2 & Hg & <- & Hread & Hcv & Hfree & Hwrite & ->)].
  { left. do 2 (split; [done|]). rewrite cells_of_app. change (cells_of (L :: lsR)) with (g_cells L ++ cells_of lsR). rewrite !Forall_app. destruct HL, HR.
    split_and!; [by apply all_below_ne|done|by apply all_above_ne]. }
  right. split; [done|]. split; [exists c; split; [|done]; rewrite cells_of_app; change (cells_of (L :: lsR)) with (g_cells L ++ cells_of lsR); rewrite Hg; set_solver|].
  destruct (cell_value_for_spec (gc_key c) _ _ _ _ Hcv Hlen) as (news & Hc' & Hfresh & Hs1). set (c' := mkGCell (mkLeafCell (gc_key c) cv) value news) in *.
  pose proof Hnd as Hnd0. rewrite footprint_leaf in Hnd. apply NoDup_app in Hnd as (HndL & Hdis & _).
  assert (Hndl : NoDup (map g_page (lsL ++ L :: lsR))) by (unfold footprint, nodes in Hnd0; rewrite !NoDup_app in Hnd0; tauto).
  rewrite map_app in Hl, Hndl. cbn [map] in Hl, Hndl. change (mkLeafCell (gc_key c) cv) with (gc_cell c') in Hwrite.
  assert (Hmap : map gc_cell a ++ gc_cell c' :: map gc_cell b = map gc_cell (a ++ c' :: b)) by (by rewrite map_app). rewrite Hmap in Hwrite.
  destruct (replace_cell t s1 t2 s3 L a c b cv value news n _ _ u1 u2 HaL Hg Hl Hndl HndL Hread Hc' Hfresh Hs1 Hfree Hwrite) as (Hr1 & Hr2 & HaL' & Hl' & Hold & Hsame).
  destruct L as [pg cs ch]. cbn [g_page g_cells g_chains] in *. subst cs. set (L' := mkGLeaf pg (a ++ c' :: b) ch) in *.
  assert (Huse : forall q, q ∈ footprint (lsL ++ mkGLeaf pg (a ++ c :: b) ch :: lsR) ps -> is_Some (pages t !! q)) by (intros q Hq; by eapply subtree_in_use).
  assert (Hfp : footprint (lsL ++ L' :: lsR) ps ≡ₚ news ++ footprint (lsL ++ mkGLeaf pg (a ++ b) ch :: lsR) ps) by (apply (footprint_delete _ _ _ _ ch _ c')).
  pose proof (footprint_delete lsL lsR pg ch ch a c b ps) as Hfp0.
  exists (lsL ++ L' :: lsR), (footprint (lsL ++ mkGLeaf pg (a ++ b) ch :: lsR) ps), (gc_pages c), news.
  split; [|split; [by apply (rows_replaced lsL pg ch a c c' b lsR)|split; [by rewrite !chains_of_app|]]].
  - split; [|split].
    + cbn [root_page root_level bt_store]. rewrite Hr1, Hr2. apply (Hput _ L'); [done|exact HaL'| |].
      * destruct HwL as (Hk & Hin & Hch). split; [|split; [|exact Hch]]; cbn [g_cells] in *.
        -- apply ksorted_mid. apply ksorted_mid in Hk. exact Hk.
        -- change (g_cells L') with (a ++ c' :: b). rewrite Forall_app, Forall_cons in *. exact Hin.
      * intros q Hq. left. apply Hsame. intros Hin. apply elem_of_cons in Hin as [->|[Hin|Hin]%elem_of_app].
        -- apply (Hdis pg); [apply list_elem_of_here|done].
        -- apply (Hdis q); [|done]. apply list_elem_of_further. rewrite overflow_of_app. unfold overflow_of. simpl. set_solver.
        -- eapply not_fresh; [apply Hfresh| |exact Hin]. apply Huse. rewrite footprint_leaf. apply elem_of_app. by right.
    + rewrite Hfp. eapply fresh_NoDup; [exact Hfresh| |].
      * intros q Hq. apply Huse. rewrite Hfp0. apply elem_of_app. by right.
      * rewrite Hfp0 in Hnd0. by apply NoDup_app in Hnd0 as (_ & _ & ?).
    + rewrite map_app. exact Hl'.
  - split; [exact Hfp0|]. split; [exact Hfp|]. split; [exact Hfresh|]. split; [exact Hold|]. intros q [Hq Hq2]%not_elem_of_app. apply Hsame.
    rewrite footprint_leaf in Hq. intros Hin. apply elem_of_cons in Hin as [->|[Hin|Hin]%elem_of_app]; [| |done]; apply Hq; apply elem_of_app; left.
    + apply list_elem_of_here.
    + apply list_elem_of_further. cbn [g_cells]. rewrite overflow_of_app. unfold overflow_of. simpl. set_solver.
Qed.
End Replace.

(** ** A new tree *)

Section Whole.
Context {S : Type} `{BTreePageStoreLaws S} `{Crc32c}.

Abbreviation pages t := (pages_of (bt_store t)).

Definition empty_leaf (root : Z) (ch : btmap chain) : gleaf := mkGLeaf root [] ch.

Lemma empty_node_wf : node_wf (mkLeafNode 0 0 0 []).
Proof. apply node_wf_mk; [done..|constructor]. Qed.

Lemma empty_leaf_img buf : empty_leaf_page_bytes = Ok buf ->
  len buf = PAGE_SIZE_LEAF /\ exists n, leaf_img buf n /\ cells n = [] /\ prev_leaf_page n = 0 /\ next_leaf_page n = 0.
Proof.
  unfold empty_leaf_page_bytes. pose proof empty_node_wf as Hwf. remember (mkLeafNode 0 0 0 []) as n eqn:En. intros Hb.
  destruct (encode_img _ _ Hwf Hb) as [Hi Hlen]. split; [exact Hlen|]. exists (encoded_node n). split; [exact Hi|]. by rewrite En.
Qed.

Lemma empty_tree_at (s : S) root b ch n : page_number root -> pages_of s !! root = Some (LeafImage b ch) -> leaf_img b n ->
  cells n = [] -> prev_leaf_page n = 0 -> next_leaf_page n = 0 -> bt_sorted ch -> tree_at (mkBTree s root 0) [empty_leaf root ch] [].
Proof.
  intros Hroot Hm Hi Hc Hp Hn Hch. split; [|split].
  - exists (empty_leaf root ch). do 3 (split; [done|]). split.
    + split; [exact Hroot|]. split; [|constructor]. by exists b, n.
    + split; [constructor|]. split; [constructor|]. split; [exact Hch|]. apply Forall_true. by intros.
  - apply NoDup_singleton.
  - split; [|done]. split; [exact Hroot|]. by exists b, ch, n.
Qed.

Lemma create_spec (s s' : S) t : create s = (Ok t, s') ->
  bt_store t = s' /\ exists root, page_number root /\ pages_of s !! root = None /\ tree_at t [empty_leaf root []] []
    /\ forall q, q <> root -> pages_of s' !! q = pages_of s !! q.
Proof.
  unfold create, create_at. generalize empty_leaf_img. generalize empty_leaf_page_bytes. intros empty Hempty Hc.
  apply st_bind_inv in Hc as (root & s1 & Ha & Hc). apply alloc_leaf_law in Ha as (Hroot & Hnone & b & Hs1).
  destruct ((buf <~ st_lift empty ;; write_leaf_structural root buf)%st s1) as [[u| |] s2] eqn:E; [|done..].
  injection Hc as <- <-. apply st_bind_inv in E as (buf & w & Hb & Hw). apply st_lift_inv in Hb as [Hb ->].
  apply Hempty in Hb as (Hlen & n & Hi & Hn & Hp & Hx). destruct u.
  eapply write_leaf_law in Hw; [|by rewrite Hs1, lookup_insert_eq|exact Hlen]. rewrite Hs1, insert_insert_eq in Hw.
  split; [done|]. exists root. split; [exact Hroot|]. split; [exact Hnone|]. split.
  - apply (empty_tree_at s2 root buf [] n); try done; [by rewrite Hw, lookup_insert_eq|constructor].
  - intros q Hq. by rewrite Hw, lookup_insert_ne by done.
Qed.

(** ** The interface of the tree *)

(** The rows, read back through the tree's own scan *)
Definition tree_contents (t : BTree S) : btmap (list Z) :=
  match range_scan t None None with
  | Ok out => map (fun kv => (fst kv, match resolve_cell_value (read_overflow_chain (bt_store t)) (snd kv) with Ok v => v | _ => [] end)) out
  | _ => []
  end.

Lemma scan_gcells_all cs : scan_gcells None None cs = cs.
Proof. unfold scan_gcells. induction cs as [|c cs IH]; [done|]. rewrite filter_cons, decide_True, IH by done. done. Qed.

Lemma tree_contents_rows t ls ps : tree_at t ls ps -> tree_contents t = rows_of ls.
Proof.
  intros Ht. unfold tree_contents. rewrite (range_scan_spec _ _ _ None None Ht), scan_gcells_all. pose proof (gcells_at_tree _ _ _ Ht) as Hg.
  unfold rows_of. induction Hg as [|c cs Hc _ IH]; [done|]. cbn [map]. rewrite IH. cbn [fst snd scan_item]. by rewrite (resolve_gcell _ _ Hc).
Qed.

Definition result_of {A B} (f : A -> BTree S -> B) (r : Result A * BTree S) : Result B :=
  match r with (Ok a, t) => Ok (f a t) | (Err e, _) => Err e | (Panic, _) => Panic end.

#[export] Instance btree_tree : KeyTree (BTree S) := {
  tree_wf t := exists ls ps, tree_at t ls ps;
  tree_rows := tree_contents;
  tree_get k t := get_value t k;
  tree_insert k v t := result_of (fun _ t' => t') (insert k v t);
  tree_delete k t := result_of pair (delete_key k t);
  tree_range_scan lo hi t := range_scan t lo hi }.

Lemma result_of_inv {A B} (f : A -> BTree S -> B) r b : result_of f r = Ok b -> exists a t, r = (Ok a, t) /\ b = f a t.
Proof. destruct r as [[a| |] t]; [|done..]. intros [= <-]. eauto. Qed.

Lemma scan_stored t ls ps lo hi : tree_at t ls ps ->
  exists out, range_scan t lo hi = Ok out /\ Forall2 (fun o r => fst o = fst r /\ stored_as (snd o) (snd r)) out (scan_rows lo hi (rows_of ls)).
Proof.
  intros Ht. eexists. split; [by eapply range_scan_spec|]. unfold rows_of. rewrite scan_gcells_rows. pose proof (gcells_at_tree _ _ _ Ht) as Hg.
  assert (Hs : Forall (gcell_at (pages t)) (scan_gcells lo hi (cells_of ls))).
  { apply Forall_forall. intros c [_ Hc]%list_elem_of_filter. rewrite Forall_forall in Hg. by apply Hg. }
  induction Hs as [|c cs Hc _ IH]; constructor; [|exact IH]. split; [done|]. by eapply gcell_stored.
Qed.

#[export] Instance btree_tree_laws : KeyTreeLaws (BTree S).
Proof.
  split; simpl.
  - intros t (ls & ps & Ht). rewrite (tree_contents_rows _ _ _ Ht). apply rows_sorted_of. by eapply tree_sorted.
  - intros k t (ls & ps & Ht). rewrite (tree_contents_rows _ _ _ Ht). by eapply get_value_spec.
  - intros k v t t' (ls & ps & Ht) Hlen _ (u & t1 & Hins & ->)%result_of_inv. pose proof (tree_sorted _ _ _ Ht) as Hs.
    destruct (insert_spec _ _ _ _ _ _ _ Ht Hlen Hins) as (Hne & gc & ls' & ps' & news & <- & <- & Ht' & Hc & _). split; [by eauto|].
    rewrite (tree_contents_rows _ _ _ Ht), (tree_contents_rows _ _ _ Ht'). by apply rows_inserted.
  - intros k t b t' (ls & ps & Ht) (r & t1 & Hdel & [= -> ->])%result_of_inv. rewrite (tree_contents_rows _ _ _ Ht).
    destruct (delete_spec _ _ _ _ _ _ Ht Hdel) as [(-> & -> & Hne)|(-> & Hin & ls' & ps' & freed & Ht' & Hc & _)].
    + rewrite (tree_contents_rows _ _ _ Ht). split; [by eauto|]. split.
      * apply rows_removed. by rewrite krem_none.
      * unfold rows_of. rewrite bt_get_absent by done. by rewrite bool_decide_eq_false_2 by (by intros [? ?]).
    + rewrite (tree_contents_rows _ _ _ Ht'). split; [by eauto|]. split; [by apply rows_removed|].
      by rewrite bool_decide_eq_true_2 by (by apply rows_present).
  - intros lo hi t (ls & ps & Ht). rewrite (tree_contents_rows _ _ _ Ht). by eapply scan_stored.
Qed.
End Whole.

(** ** The tree against the ordered map *)

Inductive tree_op : Set :=
| OpInsert (key value : list Z)
| OpReplace (key value : list Z)
| OpDelete (key : list Z).

(** Values carry a 32-bit length. *)
Definition op_small (o : tree_op) : Prop :=
  match o with OpInsert _ v | OpReplace _ v => len v < 2 ^ 32 | OpDelete _ => True end.

(** What the operation does to a map, and its answer; an insert of a key that is
    there has none *)
Definition map_op (o : tree_op) (m : btmap (list Z)) : option (bool * btmap (list Z)) :=
  match o with
  | OpInsert k v => match bt_get k m with Some _ => None | None => Some (true, bt_insert k v m) end
  | OpReplace k v => Some (match bt_get k m with Some _ => (true, bt_insert k v m) | None => (false, m) end)
  | OpDelete k => Some (bool_decide (is_Some (bt_get k m)), bt_remove k m)
  end.

Fixpoint map_ops (ops : list tree_op) (m : btmap (list Z)) : option (list bool * btmap (list Z)) :=
  match ops with
  | [] => Some ([], m)
  | o :: rest => match map_op o m with
                 | Some (b, m') => match map_ops rest m' with Some (bs, m2) => Some (b :: bs, m2) | None => None end
                 | None => None
                 end
  end.

Section Refinement.
Context {S : Type} `{BTreePageStoreLaws S} `{Crc32c}.

Abbreviation pages t := (pages_of (bt_store t)).

Definition tree_do (o : tree_op) : st (BTree S) bool :=
  match o with
  | OpInsert k v => (_ <~ insert k v ;; st_ret true)%st
  | OpReplace k v => replace_existing k v
  | OpDelete k => delete_key k
  end.

Fixpoint tree_ops (ops : list tree_op) : st (BTree S) (list bool) :=
  match ops with
  | [] => st_ret []
  | o :: rest => (b <~ tree_do o ;; bs <~ tree_ops rest ;; st_ret (b :: bs))%st
  end.

(** Every page of the tree was free in [m0], every other page is as in [m0]. *)
Definition grown_from (m0 : page_map) (t : BTree S) (ls : list gleaf) (ps : list Z) : Prop :=
  tree_at t ls ps /\ (forall q, q ∈ footprint ls ps -> m0 !! q = None) /\ (forall q, q ∉ footprint ls ps -> pages t !! q = m0 !! q).

Lemma bt_get_rows_absent ls key : Forall (fun c => gc_key c <> key) (cells_of ls) -> bt_get key (rows_of ls) = None.
Proof. apply bt_get_absent. Qed.

Lemma tree_do_spec o t t' ls ps r : tree_at t ls ps -> op_small o -> tree_do o t = (Ok r, t') ->
  exists ls' ps' kept gone news, tree_at t' ls' ps' /\ map_op o (rows_of ls) = Some (r, rows_of ls') /\ chains_of ls' = chains_of ls
    /\ footprint ls ps ≡ₚ gone ++ kept /\ footprint ls' ps' ≡ₚ news ++ kept /\ fresh_pages (pages t) news
    /\ (forall q, q ∈ gone -> pages t' !! q = None) /\ (forall q, q ∉ footprint ls ps ++ news -> pages t' !! q = pages t !! q).
Proof.
  intros Ht Hsm Hrun. pose proof (tree_sorted _ _ _ Ht) as Hsort. assert (Hnil : fresh_pages (pages t) []) by (split; constructor).
  destruct o as [k v|k v|k]; cbn [tree_do map_op op_small] in *.
  - apply st_bind_inv in Hrun as (u & t1 & Hrun & Hr). injection Hr as <- <-.
    destruct (insert_spec _ _ _ _ _ _ _ Ht Hsm Hrun) as (Hne & gc & ls' & ps' & news & <- & <- & Ht' & Hc & Hch & Hf & Hfr & Hsame).
    exists ls', ps', (footprint ls ps), [], news. split; [exact Ht'|]. split; [rewrite bt_get_rows_absent by done; by rewrite (rows_inserted ls ls' gc)|].
    split; [done|]. split; [done|]. split; [done|]. split; [done|]. split; [by intros q Hq%not_elem_of_nil|]. intros q Hq. apply Hsame. rewrite Hf. set_solver.
  - destruct (replace_spec _ _ _ _ _ _ _ Ht Hsm Hrun) as [(-> & -> & Hne)|(-> & Hin & ls' & kept & old & news & Ht' & Hr & Hch & Hf & Hf' & Hfr & Hold & Hsame)].
    + exists ls, ps, (footprint ls ps), [], []. rewrite bt_get_rows_absent by done. split_and!; try done. by intros q Hq%not_elem_of_nil.
    + destruct (rows_present _ _ Hin) as [x Hx]. rewrite Hx, <- Hr. exists ls', ps, kept, old, news. done.
  - destruct (delete_spec _ _ _ _ _ _ Ht Hrun) as [(-> & -> & Hne)|(-> & Hin & ls' & ps' & gone & Ht' & Hc & Hch & Hf & Hgone & Hsame)].
    + exists ls, ps, (footprint ls ps), [], []. rewrite bt_get_rows_absent by done. split; [exact Ht|]. split.
      * rewrite bool_decide_eq_false_2 by (by intros [? ?]). do 2 f_equal. rewrite <- (rows_removed ls ls k); [done|]. by rewrite krem_none.
      * split_and!; try done. by intros q Hq%not_elem_of_nil.
    + exists ls', ps', (footprint ls' ps'), gone, []. split; [exact Ht'|]. split.
      * rewrite bool_decide_eq_true_2 by (by apply rows_present). by rewrite <- (rows_removed ls ls' k).
      * split_and!; try done. intros q Hq. apply Hsame. set_solver.
Qed.

Lemma grown_step o m0 t t' ls ps r : grown_from m0 t ls ps -> op_small o -> tree_do o t = (Ok r, t') ->
  exists ls' ps', grown_from m0 t' ls' ps' /\ map_op o (rows_of ls) = Some (r, rows_of ls').
Proof.
  intros (Ht & Hfree & Hsame) Hsm Hrun. destruct (tree_do_spec o t t' ls ps r Ht Hsm Hrun) as (ls' & ps' & kept & gone & news & Ht' & Hm & _ & Hf & Hf' & [_ Hfr] & Hgone & Hs').
  exists ls', ps'. split; [|exact Hm]. split; [exact Ht'|]. destruct Ht as (Hsub & _). split.
  - intros q Hq. rewrite Hf' in Hq. apply elem_of_app in Hq as [Hq|Hq].
    + rewrite Forall_forall in Hfr. destruct (Hfr q Hq) as [_ Hn]. rewrite <- Hsame; [done|]. intros Hin. destruct (subtree_in_use _ _ _ _ _ _ _ _ Hsub Hin) as [x Hx]. congruence.
    + apply Hfree. rewrite Hf. apply elem_of_app. by right.
  - intros q Hq. rewrite Hf' in Hq. apply not_elem_of_app in Hq as [Hqn Hqk]. destruct (decide (q ∈ gone)) as [Hg|Hg].
    + rewrite (Hgone q Hg). symmetry. apply Hfree. rewrite Hf. apply elem_of_app. by left.
    + assert (Hq2 : q ∉ footprint ls ps) by (rewrite Hf; apply not_elem_of_app; done). rewrite Hs'; [by apply Hsame|]. by apply not_elem_of_app.
Qed.

Lemma grown_steps ops : forall m0 t t' ls ps outs, grown_from m0 t ls ps -> Forall op_small ops -> tree_ops ops t = (Ok outs, t') ->
  exists ls' ps', grown_from m0 t' ls' ps' /\ map_ops ops (rows_of ls) = Some (outs, rows_of ls').
Proof.
  induction ops as [|o ops IH]; intros m0 t t' ls ps outs Hg Hsm Hrun; cbn [tree_ops map_ops] in *.
  - injection Hrun as <- <-. by exists ls, ps.
  - apply Forall_cons in Hsm as [Ho Hsm]. apply st_bind_inv in Hrun as (b & t1 & Hb & Hrun). apply st_bind_inv in Hrun as (bs & t2 & Hbs & Hrun). injection Hrun as <- <-.
    destruct (grown_step o m0 t t1 ls ps b Hg Ho Hb) as (ls1 & ps1 & Hg1 & ->). destruct (IH m0 t1 t2 ls1 ps1 bs Hg1 Hsm Hbs) as (ls2 & ps2 & Hg2 & ->). by exists ls2, ps2.
Qed.

(** ** Where version chains are *)

(** The chain of a key, in the frame of the leaf a descent for the key ends at *)
Definition chain_of (t : BTree S) (key : list Z) : option chain :=
  match find_leaf t key with
  | Ok p => match pages t !! p with Some (LeafImage _ ch) => bt_get key ch | _ => None end
  | _ => None
  end.

Lemma bt_get_skip {V} key (a b : btmap V) : Forall (fun kv => fst kv <> key) a -> bt_get key (a ++ b) = bt_get key b.
Proof. induction 1 as [|[k v] a Hk _ IH]; [done|]. simpl in *. by rewrite decide_False by congruence. Qed.

Lemma bt_get_cut {V} key (a b : btmap V) : Forall (fun kv => fst kv <> key) b -> bt_get key (a ++ b) = bt_get key a.
Proof.
  intros Hb. induction a as [|[k v] a IH]; simpl; [by apply bt_get_missing|]. by destruct (decide (key = k)).
Qed.

Lemma chain_of_spec t ls ps key : tree_at t ls ps -> chain_of t key = bt_get key (chains_of ls).
Proof.
  intros (Hs & _). destruct (find_leaf_home _ _ _ _ _ _ _ key Hs) as (lsL & L & lsR & Hf & -> & (_ & (b & n & Hm & _) & _) & [_ HL] & [_ HR] & _); [done|].
  unfold chain_of, find_leaf. rewrite Hf, Hm, chains_of_app. change (chains_of (L :: lsR)) with (g_chains L ++ chains_of lsR).
  rewrite bt_get_skip, bt_get_cut; [done| |].
  - eapply Forall_impl; [exact HR|]. intros kc Hk. apply not_eq_sym, lex_lt_ne. exact Hk.
  - eapply Forall_impl; [exact HL|]. intros kc Hk. apply lex_lt_ne. exact Hk.
Qed.

Lemma scan_resolved t ls ps lo hi : tree_at t ls ps -> exists out, range_scan t lo hi = Ok out
  /\ Forall2 (fun o r => fst o = fst r /\ resolve_cell_value (read_overflow_chain (bt_store t)) (snd o) = Ok (snd r)) out (scan_rows lo hi (rows_of ls)).
Proof.
  intros Ht. eexists. split; [by eapply range_scan_spec|]. unfold rows_of. rewrite scan_gcells_rows. pose proof (gcells_at_tree _ _ _ Ht) as Hg.
  assert (Hs : Forall (gcell_at (pages t)) (scan_gcells lo hi (cells_of ls))).
  { apply Forall_forall. intros c [_ Hc]%list_elem_of_filter. rewrite Forall_forall in Hg. by apply Hg. }
  induction Hs as [|c cs Hc _ IH]; constructor; [|exact IH]. split; [done|]. by apply resolve_gcell.
Qed.

(** ** Theorems *)

(** C2: the B+ tree implements an ordered map.  Run any sequence of inserts,
    replaces and deletes that succeeds on a new tree: the answers are those of
    the map, and so are afterwards every point read and every range scan, which
    do not fail.  No page is lost or shared: the walk over the tree lists its
    pages once each, no page outside of them changed, and giving the tree up
    leaves the store as it was before the tree was created. *)
Theorem btree_refines_map ops s s1 t t' outs :
  create s = (Ok t, s1) -> Forall op_small ops -> tree_ops ops t = (Ok outs, t') ->
  exists m, map_ops ops [] = Some (outs, m)
    /\ (forall key, get_value t' key = Ok (bt_get key m))
    /\ (forall lo hi, exists out, range_scan t' lo hi = Ok out
          /\ Forall2 (fun o r => fst o = fst r /\ resolve_cell_value (read_overflow_chain (bt_store t')) (snd o) = Ok (snd r)) out (scan_rows lo hi m))
    /\ exists own, collect_pages_by_size t' = Ok own /\ NoDup (map fst own)
         /\ (forall q, q ∉ map fst own -> pages t' !! q = pages_of s !! q)
         /\ (forall u s2, free_all_pages t' = (Ok u, s2) -> forall q, pages_of s2 !! q = pages_of s !! q).
Proof.
  intros Hc Hsm Hrun. destruct (create_spec _ _ _ Hc) as (<- & root & _ & Hnone & Ht & Hsame).
  assert (Hg : grown_from (pages_of s) t [empty_leaf root []] []).
  { split; [exact Ht|]. unfold footprint, nodes. simpl. split; intros q Hq; [by apply list_elem_of_singleton in Hq as ->|]. apply Hsame. by rewrite list_elem_of_singleton in Hq. }
  destruct (grown_steps ops _ _ _ _ _ _ Hg Hsm Hrun) as (ls & ps & (Ht' & Hfree & Hout) & Hm). exists (rows_of ls). split; [exact Hm|].
  split; [intros key; by eapply get_value_spec|]. split; [intros lo hi; by eapply scan_resolved|]. pose proof Ht' as (Hs & Hnd & _).
  destruct (collect_subtree_spec _ _ _ _ _ _ _ Hs) as (own & Hown & Hp). exists own. split; [exact Hown|].
  assert (Hfst : map fst own ≡ₚ footprint ls ps).
  { rewrite Hp. unfold tree_pages, footprint, nodes. rewrite !map_app, !map_map. simpl. rewrite !map_id. solve_Permutation. }
  split; [by rewrite Hfst|]. split; [intros q Hq; apply Hout; by rewrite <- Hfst|].
  intros u s2 Hf q. rewrite (free_subtree_spec _ _ _ _ _ _ _ _ _ Hs Hnd Hf q). destruct (decide (q ∈ footprint ls ps)); [symmetry; by apply Hfree|by apply Hout].
Qed.

(** C3: structural changes move no version chain away from its key.  Whatever
    splits, merges, redistributions and root changes an insert, a replace or a
    delete causes, the chain found in the leaf where the descent for a key ends
    is the same afterwards as before, for every key. *)
Theorem chains_follow_keys o t t' ls ps r :
  tree_at t ls ps -> op_small o -> tree_do o t = (Ok r, t') -> forall key, chain_of t' key = chain_of t key.
Proof.
  intros Ht Hsm Hrun key. destruct (tree_do_spec o t t' ls ps r Ht Hsm Hrun) as (ls' & ps' & kept & gone & news & Ht' & _ & Hch & _).
  by rewrite (chain_of_spec _ _ _ _ Ht'), (chain_of_spec _ _ _ _ Ht), Hch.
Qed.

(** An operation on the tree touches no page of another tree: pages outside
    the tree's own are as they were, except pages that were free. *)
Theorem operation_frame o t t' ls ps r q :
  tree_at t ls ps -> op_small o -> tree_do o t = (Ok r, t') ->
  q ∉ footprint ls ps -> is_Some (pages t !! q) -> pages t' !! q = pages t !! q.
Proof.
  intros Ht Hsm Hrun Hq Huse. destruct (tree_do_spec o t t' ls ps r Ht Hsm Hrun) as (ls' & ps' & kept & gone & news & _ & _ & _ & _ & _ & [_ Hfr] & _ & Hsame).
  apply Hsame, not_elem_of_app. split; [done|]. intros Hin. rewrite Forall_forall in Hfr. destruct (Hfr q Hin) as [_ Hn]. rewrite Hn in Huse. by destruct Huse.
Qed.
End Refinement.

(** *** Instances: a tree in an empty store *)

(** Checksums play no part here: the pages are read back as they are written. *)
Definition no_checksum : Crc32c.
Proof. refine {| crc32c := fun _ => 0; crc32c_append := fun _ _ => 0 |}; [intros; unfold is_u; lia|done]. Defined.

Module Sample.

#[local] Existing Instance no_checksum.

Definition ops : list tree_op :=
  [OpInsert [1] [10]; OpInsert [2] [20]; OpReplace [1] [11]; OpDelete [2]; OpDelete [3]].

Definition created : Result (BTree page_map) * page_map := create (∅ : page_map).

Definition value_of {A B} (d : A) (p : Result A * B) : A := match fst p with Ok a => a | _ => d end.

Definition succeeds {A B} (p : Result A * B) : bool := match fst p with Ok _ => true | _ => false end.

Lemma succeeds_eq {A B} (d : A) (p : Result A * B) : succeeds p = true -> p = (Ok (value_of d p), snd p).
Proof. destruct p as [[a| |] b]; done. Qed.

Definition tree0 : BTree page_map := value_of (mkBTree ∅ 0 0) created.

Lemma created_ok : created = (Ok tree0, snd created).
Proof. apply succeeds_eq. vm_compute. reflexivity. Qed.

Lemma btree_refines_map_witness :
  match tree_ops ops tree0 with
  | (Ok outs, t') => outs = [true; true; true; true; false] /\ get_value t' [1] = Ok (Some [11]) /\ get_value t' [2] = Ok None
  | _ => False
  end.
Proof.
  destruct (tree_ops ops tree0) as [r t'] eqn:E.
  assert (Hr : r = Ok [true; true; true; true; false]).
  { transitivity (fst (tree_ops ops tree0)); [by rewrite E|]. clear. vm_compute. reflexivity. }
  rewrite Hr in E |- *. split; [reflexivity|].
  assert (Hsm : Forall op_small ops) by (repeat constructor).
  destruct (btree_refines_map ops ∅ (snd created) tree0 t' _ created_ok Hsm E) as (m & Hm & Hget & _).
  injection Hm as <-. split; [exact (Hget [1])|exact (Hget [2])].
Defined.

(** One leaf with a version chain, and a page of another tree *)
Definition sample_chain : chain := [mkEntry (mkTs 3 0) Ts_MAX 9 Committed (VInline [4]) false].

Definition bytes_of (r : Result (list Z)) : list Z := match r with Ok b => b | _ => [] end.

Definition is_ok (r : Result (list Z)) : bool := match r with Ok _ => true | _ => false end.

Definition empty_bytes : list Z := bytes_of empty_leaf_page_bytes.

Lemma empty_bytes_ok : empty_leaf_page_bytes = Ok empty_bytes.
Proof.
  assert (Hb : is_ok empty_leaf_page_bytes = true) by (vm_compute; reflexivity).
  unfold empty_bytes. revert Hb. generalize empty_leaf_page_bytes. by intros [].
Qed.

Definition other_page : PageImage := LeafImage [] [].

Definition store1 : page_map := <[1 := LeafImage empty_bytes [([5], sample_chain)]]> (<[7 := other_page]> ∅).

Definition tree1 : BTree page_map := mkBTree store1 1 0.

Lemma tree1_at : tree_at tree1 [empty_leaf 1 [([5], sample_chain)]] [].
Proof.
  destruct (empty_leaf_img _ empty_bytes_ok) as (_ & n & Hi & Hc & Hp & Hn). unfold tree1, store1. revert Hi. generalize empty_bytes. intros b Hi.
  eapply (empty_tree_at _ _ b _ n); [by vm_compute|apply lookup_insert_eq|done..|]. repeat constructor.
Qed.

Definition inserted1 : Result bool * BTree page_map := tree_do (OpInsert [1] [10]) tree1.

Lemma inserted1_ok : tree_do (OpInsert [1] [10]) tree1 = (Ok true, snd inserted1).
Proof.
  assert (Hf : fst inserted1 = Ok true) by (vm_compute; reflexivity). revert Hf. change (tree_do (OpInsert [1] [10]) tree1) with inserted1.
  generalize inserted1. intros [r t]. simpl. by intros ->.
Qed.

Lemma chains_follow_keys_witness : chain_of (snd inserted1) [5] = Some sample_chain.
Proof.
  rewrite (chains_follow_keys (OpInsert [1] [10]) tree1 (snd inserted1) _ _ true tree1_at ltac:(done) inserted1_ok [5]).
  rewrite (chain_of_spec _ _ _ _ tree1_at). reflexivity.
Defined.

Lemma operation_frame_witness : pages_of (bt_store (snd inserted1)) !! 7 = Some other_page.
Proof.
  assert (Hat : pages_of (bt_store tree1) !! 7 = Some other_page) by (cbn; unfold store1; by rewrite lookup_insert_ne, lookup_insert_eq).
  rewrite (operation_frame (OpInsert [1] [10]) tree1 (snd inserted1) _ _ true 7 tree1_at ltac:(done) inserted1_ok).
  - exact Hat.
  - unfold footprint, nodes. simpl. by rewrite list_elem_of_singleton.
  - by rewrite Hat.
Defined.
End Sample.

(** ** Deletes that cannot succeed *)

Module Stuck.

#[local] Existing Instance no_checksum.

Definition wide_key (i : Z) : list Z := i :: zeros 1800.

Definition five_inserts : list tree_op := map (fun i => OpInsert (wide_key i) (zeros 14000)) [1; 2; 3; 4; 5].

Definition new_tree : BTree page_map := Sample.value_of (mkBTree ∅ 0 0) (create (∅ : page_map)).

(** Five inserts build three levels; the delete of the first key merges the two
    leaves of the leftmost inner node and leaves it with one child *)
Definition drained : Result (list bool) * BTree page_map := tree_ops (five_inserts ++ [OpDelete (wide_key 1)]) new_tree.

Definition second_delete (t : BTree page_map) : Result bool * BTree page_map := delete_key (wide_key 2) t.

Definition found (t : BTree page_map) : bool := match search t (wide_key 2) with Ok (Some _) => true | _ => false end.

(** The answers of the run, of the second delete, and whether its key is found before and after *)
Definition report : Result (list bool) * Result bool * bool * bool :=
  let (answers, t) := drained in let (answer, t') := second_delete t in (answers, answer, found t, found t').

(** A delete can fail on a well-formed tree.  Merges remove separators from
    an inner node that is not the root, and nothing refills it; once it has a
    single leaf left, emptying that leaf ends in an internal error, after the
    cell was removed and written. *)
Example drained_parent_delete_fails :
  report = (Ok [true; true; true; true; true; true], Err (Internal "leaf underflow reached a parent with no siblings"), true, false).
Proof. vm_compute. reflexivity. Qed.

(** An insert of a key that is there writes the overflow pages of its value first
    and keeps them: they belong to no tree afterwards. *)
Definition in_use (t : BTree page_map) : list Z := map fst (map_to_list (bt_store t : gmap Z PageImage)).

Definition leak_report : Result unit * list Z * list Z * Result (list (Z * PageSize)) :=
  let t := snd (tree_ops [OpInsert [1] [10]] new_tree) in
  let (r, t') := insert [1] (zeros 33000) t in (r, in_use t, in_use t', collect_pages_by_size t').

Example duplicate_insert_leaks : leak_report = (Err DuplicateKey, [1], [3; 2; 1], Ok [(1, Large32k)]).
Proof. vm_compute. reflexivity. Qed.
End Stuck.

(** C38: the loop that grows the root after an insert ends within as many turns as
    the tree's old root was split into pieces: more turns change nothing. *)
Theorem root_growth_terminates {S} `{BTreePageStoreLaws S} `{Crc32c} extra splits (t : BTree S) :
  grow_root (extra + length splits) splits t = grow_root (length splits) splits t.
Proof. apply grow_root_fuel; lia. Qed.
