(* ===== verification/Allocator.v ===== *)
(** * The page allocator

    [storage/allocator/free_list.rs] and [storage/allocator/mod.rs]: two free
    lists threaded through the free pages themselves, one per page size, with
    their heads and lengths in the file header; the handle with its freeze
    window and its header flush. *)

From S2P Require Import Prelude Bytes Timestamp Crc Page DbHeader PageSource.

#[local] Open Scope Z_scope.

(** ** Header fields *)

Definition free_head (s : PageSize) (h : FileHeader) : Z :=
  match s with Small4k => free_list_head_4k h | Large32k => free_list_head_32k h end.

Definition free_count (s : PageSize) (h : FileHeader) : Z :=
  match s with Small4k => free_page_count_4k h | Large32k => free_page_count_32k h end.

(** The header with the allocator's five fields replaced *)
Definition set_alloc (h : FileHeader) (head4 head32 total count4 count32 : Z) : FileHeader :=
  mkFileHeader (magic h) (format_version h) (page_size_internal h) (page_size_leaf h) (created_at h)
    (last_checkpoint_ts h) (catalog_root_page h) head4 head32 total count4 count32
    (checksum_algo h) (wal_salt1 h) (wal_salt2 h) (catalog_root_backup h) (catalog_root_level h)
    (next_namespace_id h) (next_index_id h) (history_store_root_page h) (history_store_root_level h)
    (checkpoint_applied_lsn h).

Definition set_free_list (s : PageSize) (head count : Z) (h : FileHeader) : FileHeader :=
  match s with
  | Small4k => set_alloc h head (free_list_head_32k h) (total_page_count h) count (free_page_count_32k h)
  | Large32k => set_alloc h (free_list_head_4k h) head (total_page_count h) (free_page_count_4k h) count
  end.

Definition set_total (total : Z) (h : FileHeader) : FileHeader :=
  set_alloc h (free_list_head_4k h) (free_list_head_32k h) total (free_page_count_4k h) (free_page_count_32k h).

(** ** [PageAllocator] *)

Section FreeList.
Context {D : Type} `{PageSource D}.

Definition read_free_link (io : D) (page_number : Z) (size : PageSize) : Result Z :=
  buf ← read_page io page_number size;
  read_le buf 0 4.

Definition free_link_page (next : Z) (size : PageSize) : list Z := put (zeros (page_bytes size)) 0 (le_bytes 4 next).

Definition write_free_link (io : D) (page_number next : Z) (size : PageSize) : Result unit * D :=
  write_page io page_number size (free_link_page next size).

Definition allocate (h : FileHeader) (io : D) (size : PageSize) : Result Z * FileHeader :=
  let head := free_head size h in
  if negb (head =? 0) then
    match read_free_link io head size with
    | Ok next => (Ok head, set_free_list size next (saturating_sub (free_count size h) 1) h)
    | Err e => (Err e, h)
    | Panic => (Panic, h)
    end
  else
    let page_number := total_page_count h in
    match checked_add 32 (total_page_count h) 1 with
    | Some total => (Ok page_number, set_total total h)
    | None => (Err (DiskFull 4096), h)
    end.

Definition free (h : FileHeader) (io : D) (page_number : Z) (size : PageSize) : Result unit * FileHeader * D :=
  if page_number =? 0 then (Err (Internal "cannot free page 0 (file header page)"), h, io)
  else if total_page_count h <=? page_number then (Err (Internal "cannot free page: beyond end of file"), h, io)
  else
    match write_free_link io page_number (free_head size h) size with
    | (Ok _, io') =>
        match checked_add 32 (free_count size h) 1 with
        | Some count => (Ok tt, set_free_list size page_number count h, io')
        | None => (Err (Internal "free_page_count overflow"), set_free_list size page_number (free_count size h) h, io')
        end
    | (Err e, io') => (Err e, h, io')
    | (Panic, io') => (Panic, h, io')
    end.

(** ** [AllocatorHandle] *)

Record AllocatorState : Type := mkState { st_header : FileHeader; st_header_dirty : bool; st_frozen : bool }.

Definition allocator_new (h : FileHeader) : AllocatorState := mkState h false false.

Definition frozen_error : Error := Internal "allocator is frozen; mutation rejected".

Definition alloc (st : AllocatorState) (io : D) (size : PageSize) : Result Z * AllocatorState :=
  if st_frozen st then (Err frozen_error, st)
  else
    match allocate (st_header st) io size with
    | (Ok p, h) => (Ok p, mkState h true (st_frozen st))
    | (r, h) => (r, mkState h (st_header_dirty st) (st_frozen st))
    end.

Definition free_page (st : AllocatorState) (io : D) (page_number : Z) (size : PageSize) : Result unit * AllocatorState * D :=
  if st_frozen st then (Err frozen_error, st, io)
  else
    match free (st_header st) io page_number size with
    | (Ok u, h, io') => (Ok u, mkState h true (st_frozen st), io')
    | (r, h, io') => (r, mkState h (st_header_dirty st) (st_frozen st), io')
    end.

Definition update_header (f : FileHeader -> FileHeader) (st : AllocatorState) : Result unit * AllocatorState :=
  if st_frozen st then (Err frozen_error, st)
  else (Ok tt, mkState (f (st_header st)) true (st_frozen st)).

Definition freeze (st : AllocatorState) : Result unit * AllocatorState :=
  if st_frozen st then (Err frozen_error, st) else (Ok tt, mkState (st_header st) (st_header_dirty st) true).

Definition release (st : AllocatorState) : AllocatorState := mkState (st_header st) (st_header_dirty st) false.

Definition flush_header `{Crc32c} (st : AllocatorState) (io : D) : Result unit * AllocatorState * D :=
  if st_frozen st then (Err frozen_error, st, io)
  else if negb (st_header_dirty st) then (Ok tt, st, io)
  else
    match to_bytes (st_header st) with
    | Ok bytes =>
        match write_page io 0 Small4k bytes with
        | (Ok _, io') => (Ok tt, mkState (st_header st) false (st_frozen st), io')
        | (r, io') => (r, st, io')
        end
    | Err e => (Err e, st, io)
    | Panic => (Panic, st, io)
    end.

End FreeList.

(** ** The invariant *)

Section Invariant.
Context {D : Type} `{PageSourceLaws D}.

(** The free list of one size: each free page holds the number of the next *)
Inductive free_chain (d : D) (s : PageSize) : Z -> list Z -> Prop :=
| free_chain_nil : free_chain d s 0 []
| free_chain_cons p next rest :
    0 < p -> is_u32 next -> stored d p s (free_link_page next s) -> free_chain d s next rest ->
    free_chain d s p (p :: rest).

(** Every page but the header's is in exactly one of the free lists or in use. *)
Record alloc_inv (h : FileHeader) (d : D) (fl : PageSize -> list Z) (live : list Z) : Prop := mkInv {
  ai_header : header_wf h;
  ai_total : 1 <= total_page_count h;
  ai_chain : forall s, free_chain d s (free_head s h) (fl s);
  ai_count : forall s, free_count s h = len (fl s);
  ai_pages : fl Small4k ++ fl Large32k ++ live ≡ₚ seqZ 1 (total_page_count h - 1) }.

Definition set_fl (s : PageSize) (l : list Z) (fl : PageSize -> list Z) : PageSize -> list Z :=
  fun t => if decide (t = s) then l else fl t.

Lemma len_free_link next s : len (free_link_page next s) = page_bytes s.
Proof.
  unfold free_link_page. pose proof (File.page_bytes_range s). rewrite len_put; rewrite ?len_zeros, ?len_le_bytes by lia; simpl; lia.
Qed.

Lemma read_link d p s next : is_u32 next -> stored d p s (free_link_page next s) -> read_free_link d p s = Ok next.
Proof.
  intros Hn Hs. unfold read_free_link. rewrite (stored_read _ _ _ _ Hs), bind_Ok.
  apply (read_le_field _ 0 0 4 next 4); [|done..]. pose proof (File.page_bytes_range s).
  apply holds_put; rewrite ?len_zeros, ?len_le_bytes by lia; simpl; lia.
Qed.

Lemma chain_head_u32 d s head l : free_chain d s head l -> Forall (fun p => 0 < p < 2 ^ 32) l -> is_u32 head.
Proof. destruct 1; [done|]. intros [? _]%Forall_cons. unfold is_u. lia. Qed.

Lemma chain_write d s head l p t buf r d' :
  free_chain d s head l -> 0 <= p -> p ∉ l -> len buf = page_bytes t -> write_page d p t buf = (r, d') -> free_chain d' s head l.
Proof.
  induction 1 as [|q next rest Hq Hn Hs _ IH]; intros Hp Hni Hl Hw; [constructor|]. apply not_elem_of_cons in Hni as [Hne Hni].
  econstructor; [done|exact Hn| |by apply IH]. by apply (write_other d p t buf r d' q).
Qed.

Lemma inv_page_range h d fl live p :
  alloc_inv h d fl live -> p ∈ fl Small4k ++ fl Large32k ++ live -> 0 < p < total_page_count h.
Proof. intros Hi. rewrite (ai_pages _ _ _ _ Hi), elem_of_seqZ. lia. Qed.

Lemma inv_nodup h d fl live : alloc_inv h d fl live -> NoDup (fl Small4k ++ fl Large32k ++ live).
Proof. intros Hi. rewrite (ai_pages _ _ _ _ Hi). apply NoDup_seqZ. Qed.

Lemma inv_total h d fl live : alloc_inv h d fl live -> is_u32 (total_page_count h).
Proof.
  intros Hi. pose proof (ai_header _ _ _ _ Hi) as (_ & _ & _ & _ & _ & _ & Hf & _).
  do 3 apply Forall_inv_tail in Hf. by apply Forall_inv in Hf.
Qed.

Lemma fl_elem h d fl live s p : alloc_inv h d fl live -> p ∈ fl s -> 0 < p < total_page_count h /\ p ∉ live.
Proof.
  intros Hi Hp. split.
  - apply (inv_page_range h d fl live); [done|]. destruct s; rewrite !elem_of_app; auto.
  - pose proof (inv_nodup _ _ _ _ Hi) as Hn. apply NoDup_app in Hn as (_ & Hn4 & Hn). apply NoDup_app in Hn as (_ & Hn32 & _).
    destruct s; [|by apply Hn32]. intros Hl. apply (Hn4 p Hp). rewrite elem_of_app. auto.
Qed.

Lemma set_fl_eq s l fl : set_fl s l fl s = l.
Proof. unfold set_fl. by rewrite decide_True. Qed.

Lemma set_fl_ne s t l fl : t <> s -> set_fl s l fl t = fl t.
Proof. intros. unfold set_fl. by rewrite decide_False. Qed.

Lemma set_fl_perm fl s l live live' :
  fl s ++ live ≡ₚ l ++ live' ->
  set_fl s l fl Small4k ++ set_fl s l fl Large32k ++ live' ≡ₚ fl Small4k ++ fl Large32k ++ live.
Proof.
  intros Hp. destruct s; rewrite set_fl_eq, set_fl_ne by done.
  - by rewrite (Permutation_app_swap_app l), (Permutation_app_swap_app (fl Small4k)), Hp.
  - by rewrite Hp.
Qed.

Lemma set_alloc_wf h a b c d e : header_wf h -> Forall is_u32 [a; b; c; d; e] -> header_wf (set_alloc h a b c d e).
Proof.
  intros (? & ? & ? & ? & ? & ? & Hf & ? & ? & ?) Hn. unfold header_wf, set_alloc. cbn.
  repeat match goal with Hx : Forall _ (_ :: _) |- _ => apply Forall_cons in Hx as [? Hx] end.
  split_and!; try done; repeat (constructor; [done|]); constructor.
Qed.

Lemma header_u32 h : header_wf h ->
  Forall is_u32 [free_list_head_4k h; free_list_head_32k h; total_page_count h; free_page_count_4k h; free_page_count_32k h].
Proof.
  intros (_ & _ & _ & _ & _ & _ & Hf & _). repeat match goal with Hx : Forall _ (_ :: _) |- _ => apply Forall_cons in Hx as [? Hx] end.
  by repeat (constructor; [done|]).
Qed.

Lemma set_free_list_wf s head count h : header_wf h -> is_u32 head -> is_u32 count -> header_wf (set_free_list s head count h).
Proof.
  intros Hh ? ?. pose proof (header_u32 h Hh) as Hf.
  repeat match goal with Hx : Forall _ (_ :: _) |- _ => apply Forall_cons in Hx as [? Hx] end.
  destruct s; apply set_alloc_wf; try done; by repeat (constructor; [done|]).
Qed.

Lemma free_head_set s t head count h :
  free_head t (set_free_list s head count h) = if decide (t = s) then head else free_head t h.
Proof. by destruct s, t. Qed.

Lemma free_count_set s t head count h :
  free_count t (set_free_list s head count h) = if decide (t = s) then count else free_count t h.
Proof. by destruct s, t. Qed.

Lemma total_set_free_list s head count h : total_page_count (set_free_list s head count h) = total_page_count h.
Proof. by destruct s. Qed.

(** A head and its list change together. *)
Lemma inv_set_list h d d' fl live s head l live' :
  alloc_inv h d fl live -> free_chain d' s head l -> (forall t, t <> s -> free_chain d' t (free_head t h) (fl t)) ->
  is_u32 head -> is_u32 (len l) -> fl s ++ live ≡ₚ l ++ live' ->
  alloc_inv (set_free_list s head (len l) h) d' (set_fl s l fl) live'.
Proof.
  intros Hi Hc Hother Hh Hl Hp. split.
  - apply set_free_list_wf; [apply Hi|done|done].
  - rewrite total_set_free_list. apply Hi.
  - intros t. rewrite free_head_set. unfold set_fl. destruct (decide (t = s)) as [->|Hne]; auto.
  - intros t. rewrite free_count_set. unfold set_fl. destruct (decide (t = s)) as [->|Hne]; [done|apply Hi].
  - rewrite total_set_free_list, <- (ai_pages _ _ _ _ Hi). by apply set_fl_perm.
Qed.

Lemma fl_len h d fl live s : alloc_inv h d fl live -> len (fl s) + len live <= total_page_count h - 1.
Proof.
  intros Hi. pose proof (Permutation_length (ai_pages _ _ _ _ Hi)) as Hl. rewrite !length_app, length_seqZ in Hl.
  pose proof (ai_total _ _ _ _ Hi). unfold len. destruct s; lia.
Qed.

(** ** Allocation *)

Lemma allocate_spec h d fl live s :
  alloc_inv h d fl live ->
  match allocate h d s with
  | (Ok p, h') => 0 < p < total_page_count h' /\ (p ∉ live) /\ exists fl', alloc_inv h' d fl' (p :: live)
  | (Err e, h') => e = DiskFull 4096 /\ h' = h /\ fl s = [] /\ total_page_count h = u32_max
  | (Panic, _) => False
  end.
Proof.
  intros Hi. unfold allocate. cbv zeta. pose proof (ai_chain _ _ _ _ Hi s) as Hc. pose proof (inv_total _ _ _ _ Hi) as Ht.
  pose proof (ai_total _ _ _ _ Hi).
  inversion Hc as [Hh Hl|p next rest Hp Hn Hs Hrest Hh Hl]; simpl negb; cbv iota.
  - unfold checked_add. destruct (Z.ltb_spec (total_page_count h + 1) (2 ^ 32)); [|by split_and!; try done; unfold u32_max, is_u in *; lia].
    assert (Hnl : total_page_count h ∉ fl Small4k ++ fl Large32k ++ live) by (intros Hin; apply (inv_page_range _ _ _ _ _ Hi) in Hin; lia).
    split_and!; [lia|simpl; lia|rewrite !elem_of_app in Hnl; tauto|]. exists fl. split.
    + apply set_alloc_wf; [apply Hi|]. pose proof (header_u32 h (ai_header _ _ _ _ Hi)) as Hf.
      repeat match goal with Hx : Forall _ (_ :: _) |- _ => apply Forall_cons in Hx as [? Hx] end.
      repeat (constructor; [done || (unfold is_u in *; lia)|]). constructor.
    + simpl. lia.
    + intros t. pose proof (ai_chain _ _ _ _ Hi t) as Hct. by destruct t.
    + intros t. pose proof (ai_count _ _ _ _ Hi t) as Hct. by destruct t.
    + cbn [set_total set_alloc total_page_count]. replace (total_page_count h + 1 - 1) with (total_page_count h - 1 + 1) by lia.
      rewrite seqZ_app, <- (ai_pages _ _ _ _ Hi) by lia. replace (1 + (total_page_count h - 1)) with (total_page_count h) by lia.
      change (seqZ (total_page_count h) 1) with [total_page_count h]. rewrite <- !app_assoc, (Permutation_app_comm live). done.
  - rewrite <- Hh in *. rewrite (proj2 (Z.eqb_neq p 0)) by lia. simpl negb. cbv iota. rewrite (read_link d p s next) by done.
    destruct (fl_elem _ _ _ _ s p Hi) as [Hr Hnl]; [rewrite <- Hl; by left|]. rewrite total_set_free_list. split_and!; [lia|lia|done|].
    rewrite (ai_count _ _ _ _ Hi s), <- Hl, len_cons. pose proof (len_nonneg rest). pose proof (fl_len _ _ _ _ s Hi) as Hfl.
    rewrite <- Hl, len_cons in Hfl. pose proof (len_nonneg live).
    replace (saturating_sub (1 + len rest) 1) with (len rest) by (unfold saturating_sub; lia).
    exists (set_fl s rest fl). apply (inv_set_list h d d fl live s next rest); try done.
    + intros t _. apply Hi.
    + unfold is_u in *. lia.
    + rewrite <- Hl. simpl. by rewrite Permutation_middle.
Qed.

(** ** Freeing *)

Lemma free_spec h d fl live live' p s :
  alloc_inv h d fl live -> live ≡ₚ p :: live' ->
  match free h d p s with
  | (Ok _, h', d') => exists fl', alloc_inv h' d' fl' live'
  | (_, h', d') => h' = h /\ alloc_inv h' d' fl live
  end.
Proof.
  intros Hi Hlive. assert (Hpl : p ∈ live) by (rewrite Hlive; by left).
  assert (Hr : 0 < p < total_page_count h) by (apply (inv_page_range _ _ _ _ _ Hi); rewrite !elem_of_app; auto).
  assert (Hnf : forall t, p ∉ fl t) by (intros t Ht; by apply (fl_elem _ _ _ _ t p Hi) in Ht as [_ Ht]).
  unfold free. rewrite (proj2 (Z.eqb_neq p 0)), (proj2 (Z.leb_gt _ _)) by lia.
  destruct (write_free_link d p (free_head s h) s) as [r d'] eqn:Hw. unfold write_free_link in Hw.
  assert (Hchain : forall t, free_chain d' t (free_head t h) (fl t)).
  { intros t. apply (chain_write d t _ _ p s (free_link_page (free_head s h) s) r); try done; [apply Hi|lia|apply len_free_link]. }
  destruct r as [[]|e|]; [|by split; [|split; try apply Hi]..].
  pose proof (fl_len _ _ _ _ s Hi) as Hfl. pose proof (inv_total _ _ _ _ Hi) as Ht. pose proof (len_nonneg (fl s)).
  assert (Hu : is_u32 (free_head s h)).
  { pose proof (header_u32 h (ai_header _ _ _ _ Hi)) as Hf. repeat match goal with Hx : Forall _ (_ :: _) |- _ => apply Forall_cons in Hx as [? Hx] end.
    by destruct s. }
  rewrite Hlive, len_cons in Hfl. pose proof (len_nonneg live'). rewrite (ai_count _ _ _ _ Hi s). unfold checked_add.
  rewrite (proj2 (Z.ltb_lt _ _)) by (unfold is_u in *; lia). exists (set_fl s (p :: fl s) fl).
  replace (len (fl s) + 1) with (len (p :: fl s)) by (rewrite len_cons; lia).
  apply (inv_set_list h d d' fl live s p (p :: fl s)); try done.
  - apply free_chain_cons with (free_head s h); [lia|done| |apply Hchain]. apply (write_stored d p s _ d'); [lia|apply len_free_link|done].
  - unfold is_u in *. lia.
  - rewrite len_cons. unfold is_u in *. lia.
  - rewrite Hlive. simpl. by rewrite Permutation_middle.
Qed.

Lemma free_out_of_range h d p s :
  p = 0 \/ total_page_count h <= p -> exists e, free h d p s = (Err e, h, d).
Proof.
  intros Hp. unfold free. destruct (Z.eqb_spec p 0); [eauto|]. rewrite (proj2 (Z.leb_le _ _)) by lia. eauto.
Qed.

(** A write to a page in use, or to the header page *)
Lemma write_inv h d fl live p s buf r d' :
  alloc_inv h d fl live -> p = 0 \/ p ∈ live -> len buf = page_bytes s -> write_page d p s buf = (r, d') ->
  alloc_inv h d' fl live.
Proof.
  intros Hi Hp Hl Hw. split; try apply Hi. intros t.
  assert (0 <= p /\ p ∉ fl t) as [? ?].
  { destruct Hp as [->|Hp].
    - split; [done|]. intros Hin. apply (fl_elem _ _ _ _ t 0 Hi) in Hin. lia.
    - split; [|intros Hin; by apply (fl_elem _ _ _ _ t p Hi) in Hin as [_ Hin]].
      enough (0 < p < total_page_count h) by lia. apply (inv_page_range _ _ _ _ _ Hi). rewrite !elem_of_app. auto. }
  by apply (chain_write d t _ _ p s buf r); [apply Hi|..].
Qed.
End Invariant.

(** ** Executions *)

Section Executions.
Context {D : Type} `{PageSourceLaws D} `{Crc32c}.

(** The handle, the page source and the pages handed out and not freed yet *)
Record AllocSystem : Type := mkSys { sys_state : AllocatorState; sys_io : D; sys_live : list Z }.

Definition same_alloc_fields (h h' : FileHeader) : Prop :=
  (forall s, free_head s h' = free_head s h /\ free_count s h' = free_count s h) /\ total_page_count h' = total_page_count h.

(** Clients allocate, free pages they hold, ask to free pages outside the file,
    write pages they hold, update other fields of the header, flush it, and open
    and close the freeze window, in any order; writes may fail. *)
Inductive alloc_step : AllocSystem -> AllocSystem -> Prop :=
| step_alloc st io live s p st' :
    alloc st io s = (Ok p, st') -> alloc_step (mkSys st io live) (mkSys st' io (p :: live))
| step_alloc_err st io live s e st' :
    alloc st io s = (Err e, st') -> alloc_step (mkSys st io live) (mkSys st' io live)
| step_free st io live s p live' st' io' :
    live ≡ₚ p :: live' -> free_page st io p s = (Ok tt, st', io') ->
    alloc_step (mkSys st io live) (mkSys st' io' live')
| step_free_err st io live s p e st' io' :
    p ∈ live \/ p = 0 \/ total_page_count (st_header st) <= p -> free_page st io p s = (Err e, st', io') ->
    alloc_step (mkSys st io live) (mkSys st' io' live)
| step_write st io live s p buf r io' :
    p ∈ live -> len buf = page_bytes s -> write_page io p s buf = (r, io') ->
    alloc_step (mkSys st io live) (mkSys st io' live)
| step_update st io live f r st' :
    same_alloc_fields (st_header st) (f (st_header st)) -> header_wf (f (st_header st)) ->
    update_header f st = (r, st') -> alloc_step (mkSys st io live) (mkSys st' io live)
| step_flush st io live r st' io' :
    flush_header st io = (r, st', io') -> alloc_step (mkSys st io live) (mkSys st' io' live)
| step_freeze st io live r st' :
    freeze st = (r, st') -> alloc_step (mkSys st io live) (mkSys st' io live)
| step_release st io live : alloc_step (mkSys st io live) (mkSys (release st) io live).

(** The header page holds [h]. *)
Definition header_stored (io : D) (h : FileHeader) : Prop :=
  exists bytes, to_bytes h = Ok bytes /\ stored io 0 Small4k bytes.

Definition sys_inv (x : AllocSystem) : Prop :=
  (exists fl, alloc_inv (st_header (sys_state x)) (sys_io x) fl (sys_live x))
  /\ (st_header_dirty (sys_state x) = false -> header_stored (sys_io x) (st_header (sys_state x))).

Lemma header_stored_write io h p s buf r io' :
  header_stored io h -> 0 < p -> len buf = page_bytes s -> write_page io p s buf = (r, io') -> header_stored io' h.
Proof. intros (b & Hb & Hs) Hp Hl Hw. exists b. split; [done|]. apply (write_other io p s buf r io'); try done; lia. Qed.

Lemma live_range x p : sys_inv x -> p ∈ sys_live x -> 0 < p < total_page_count (st_header (sys_state x)).
Proof. intros [[fl Hi] _] Hp. apply (inv_page_range _ _ _ _ _ Hi). rewrite !elem_of_app. auto. Qed.

Lemma alloc_inv_step st io live s :
  sys_inv (mkSys st io live) ->
  match alloc st io s with
  | (Ok p, st') => 0 < p /\ (p ∉ live) /\ sys_inv (mkSys st' io (p :: live))
  | (Err e, st') =>
      sys_inv (mkSys st' io live)
      /\ (st_frozen st = true \/ e = DiskFull 4096 /\ total_page_count (st_header st) = u32_max)
  | (Panic, _) => False
  end.
Proof.
  intros [[fl Hi] Hd]. unfold alloc. destruct (st_frozen st) eqn:Hf; [split; [split; [by exists fl|done]|auto]|].
  pose proof (allocate_spec _ _ _ _ s Hi) as Hs. simpl in Hs.
  destruct (allocate (st_header st) io s) as [[p|e|] h']; [| |done].
  - destruct Hs as (Hp & Hn & Hi'). split_and!; [lia|done|]. split; [done|done].
  - destruct Hs as (-> & -> & _ & Ht). split; [|auto]. split; [by exists fl|done].
Qed.

Lemma free_page_inv st io live live' p s :
  sys_inv (mkSys st io live) -> live ≡ₚ p :: live' ->
  match free_page st io p s with
  | (Ok _, st', io') => sys_inv (mkSys st' io' live')
  | (_, st', io') => sys_inv (mkSys st' io' live)
  end.
Proof.
  intros Hx Hlive. assert (Hp : p ∈ live) by (rewrite Hlive; by left).
  pose proof (live_range _ p Hx Hp) as Hr. destruct Hx as [[fl Hi] Hd]. simpl in Hi, Hd, Hr. unfold free_page.
  destruct (st_frozen st) eqn:Hf; [split; [by exists fl|done]|]. pose proof (free_spec _ _ _ _ _ p s Hi Hlive) as Hs.
  assert (Hio : forall r h' io', free (st_header st) io p s = (r, h', io') ->
    st_header_dirty st = false -> header_stored io' (st_header st)).
  { intros r h' io' He Hdirty. unfold free in He.
    destruct (Z.eqb_spec p 0); [lia|]. destruct (Z.leb_spec (total_page_count (st_header st)) p); [lia|].
    destruct (write_free_link io p _ s) as [r0 io0] eqn:Hw.
    assert (Hst : header_stored io0 (st_header st)) 
      by (refine (header_stored_write _ _ p _ _ _ _ (Hd Hdirty) _ (len_free_link _ _) Hw); lia).
    destruct r0; [destruct (checked_add _ _ _)|..]; by injection He as _ _ <-. }
  destruct (free (st_header st) io p s) as [[r h'] io'] eqn:He. specialize (Hio r h' io' eq_refl).
  destruct r as [[]|e|]; [by split|..]; destruct Hs as [-> Hi']; (split; [by exists fl|exact Hio]).
Qed.

Lemma sys_inv_step x y : alloc_step x y -> sys_inv x -> sys_inv y.
Proof.
  destruct 1 as [st io live s p st' Ha|st io live s e st' Ha|st io live s p live' st' io' Hl Hf|st io live s p e st' io' Hp Hf
    |st io live s p buf r io' Hp Hl Hw|st io live f r st' [Hs Ht] Hwf Hu|st io live r st' io' Hf|st io live r st' Hf|st io live]; intros Hx.
  - pose proof (alloc_inv_step _ _ _ s Hx) as Hs. rewrite Ha in Hs. tauto.
  - pose proof (alloc_inv_step _ _ _ s Hx) as Hs. rewrite Ha in Hs. tauto.
  - pose proof (free_page_inv _ _ _ _ p s Hx Hl) as Hs. by rewrite Hf in Hs.
  - destruct Hp as [Hp|Hp].
    + apply elem_of_Permutation in Hp as [live' Hl]. pose proof (free_page_inv _ _ _ _ p s Hx Hl) as Hs. by rewrite Hf in Hs.
    + destruct (free_out_of_range (st_header st) io p s Hp) as [e' He]. unfold free_page in Hf. rewrite He in Hf.
      destruct (st_frozen st) eqn:Hfr; injection Hf as _ <- <-; [done|]. by destruct Hx.
  - pose proof (live_range _ p Hx Hp) as Hr. destruct Hx as [[fl Hi] Hd]. split.
    + exists fl. apply (write_inv _ io _ _ p s buf r); [exact Hi|by right|done..].
    + intros Hdirty. simpl in *. refine (header_stored_write _ _ p _ _ _ _ (Hd Hdirty) _ Hl Hw). lia.
  - destruct Hx as [[fl Hi] Hd]. unfold update_header in Hu. destruct (st_frozen st); injection Hu as _ <-; [by split; [exists fl|]|].
    split; [|done]. exists fl. simpl in *. split; [done|by rewrite Ht; apply Hi| | |by rewrite Ht; apply Hi];
      intros s; destruct (Hs s) as [E1 E2]; rewrite ?E1, ?E2; apply Hi.
  - destruct Hx as [[fl Hi] Hd]. simpl in *. unfold flush_header in Hf.
    destruct (st_frozen st); [injection Hf as _ <- <-; by split; [exists fl|]|].
    destruct (st_header_dirty st) eqn:Hdirty; [|injection Hf as _ <- <-; split; [by exists fl|intros _; by apply Hd]].
    destruct (to_bytes_regions (st_header st)) as (b & Hb & Hlb & _); [by rewrite (proj1 (ai_header _ _ _ _ Hi))|].
    simpl negb in Hf. cbv iota in Hf. rewrite Hb in Hf. destruct (write_page io 0 Small4k b) as [r0 io0] eqn:Hw.
    assert (Hi' : alloc_inv (st_header st) io0 fl live) by (apply (write_inv _ io _ _ 0 Small4k b r0); [done|by left|done..]).
    destruct r0 as [[]|e|]; injection Hf as _ <- <-; (split; [by exists fl|]); simpl; [|congruence..].
    intros _. exists b. split; [done|]. by apply (write_stored io 0 Small4k b io0).
  - unfold freeze in Hf. destruct (st_frozen st); injection Hf as _ <-; destruct Hx as [[fl Hi] Hd]; (split; [by exists fl|done]).
  - destruct Hx as [[fl Hi] Hd]. split; [by exists fl|done].
Qed.

(** A fresh file: the header and nothing else, with the header on page 0 *)
Definition fresh (x : AllocSystem) : Prop :=
  header_wf (st_header (sys_state x)) /\ total_page_count (st_header (sys_state x)) = 1
  /\ (forall s, free_head s (st_header (sys_state x)) = 0 /\ free_count s (st_header (sys_state x)) = 0)
  /\ sys_live x = [] /\ header_stored (sys_io x) (st_header (sys_state x)).

Lemma fresh_inv x : fresh x -> sys_inv x.
Proof.
  intros (Hwf & Ht & Hf & Hl & Hs). split; [|done]. exists (fun _ => []). split; [done|lia| | |].
  - intros s. destruct (Hf s) as [-> _]. constructor.
  - intros s. by destruct (Hf s) as [_ ->].
  - by rewrite Ht, Hl.
Qed.

Lemma reachable_inv x y : fresh x -> rtc alloc_step x y -> sys_inv y.
Proof. intros Hf. apply fresh_inv in Hf. induction 1; eauto using sys_inv_step. Qed.

(** C6: over any interleaving of allocations, frees, client writes, header
    updates, flushes and freeze windows from a fresh file, with failing writes
    allowed, allocation never hands out a page that is still in use nor the
    header page, does not panic, and fails only inside a freeze window or when
    the page number space is exhausted. No page is lost: the pages of the file
    are exactly those in use and those on the two free lists, whose heads and
    lengths the header records. *)
Theorem allocation_safety x y s :
  fresh x -> rtc alloc_step x y ->
  match alloc (sys_state y) (sys_io y) s with
  | (Ok p, _) => 0 < p /\ (p ∉ sys_live y)
  | (Err e, _) =>
      st_frozen (sys_state y) = true
      \/ e = DiskFull 4096 /\ total_page_count (st_header (sys_state y)) = u32_max
  | (Panic, _) => False
  end
  /\ exists fl, alloc_inv (st_header (sys_state y)) (sys_io y) fl (sys_live y).
Proof.
  intros Hf Hr. pose proof (reachable_inv x y Hf Hr) as Hi. split; [|apply Hi].
  destruct y as [st io live]. pose proof (alloc_inv_step st io live s Hi) as Hs. simpl.
  destruct (alloc st io s) as [[p|e|] st']; tauto.
Qed.

(** C25: reopening finds the allocator where it was left: in every reachable
    state whose header is clean, in particular after a flush, page 0 reads back
    as the header in memory. *)
Theorem clean_header_reopens x y :
  fresh x -> rtc alloc_step x y -> st_header_dirty (sys_state y) = false ->
  exists bytes, read_page (sys_io y) 0 Small4k = Ok bytes /\ from_bytes bytes = Ok (st_header (sys_state y)).
Proof.
  intros Hf Hr Hd. destruct (reachable_inv x y Hf Hr) as [[fl Hi] Hs]. destruct (Hs Hd) as (b & Hb & Hst). exists b.
  split; [by apply stored_read|]. pose proof (ai_header _ _ _ _ Hi) as Hwf.
  destruct (to_bytes_regions (st_header (sys_state y))) as (b' & Hb' & Hl & R1 & R2 & R3); [by rewrite (proj1 Hwf)|].
  assert (b' = b) as -> by congruence. by apply from_bytes_regions.
Qed.
End Executions.

(** ** Instances *)

Definition new_header : FileHeader := DbHeader.new 1700000000000 7 8.

Definition new_file : list Z := match @to_bytes Bitwise.crc32c_bitwise new_header with Ok b => b | _ => [] end.

Definition new_system : AllocSystem := mkSys (allocator_new new_header) new_file [].

Lemma new_system_fresh : @fresh (list Z) _ _ Bitwise.crc32c_bitwise new_system.
Proof.
  split; [by split_and!; repeat constructor|]. split; [done|]. split; [by intros []|]. split; [done|].
  exists new_file. split; [by vm_compute|]. split_and!; [done|by vm_compute|]. exact (holds_self new_file).
Qed.

Lemma write_page_file file p s buf : write_page file p s buf = (Ok tt, file_write file (File.file_offset p) buf).
Proof. reflexivity. Qed.

(** Allocates an internal page, writes it, frees it. *)
Definition reused (file : list Z) : AllocSystem :=
  mkSys (mkState (set_free_list Small4k 1 1 (set_total 2 new_header)) true false)
    (file_write (file_write file (File.file_offset 1) (zeros PAGE_SIZE_INTERNAL)) (File.file_offset 1) (free_link_page 0 Small4k)) [].

Lemma reused_reachable file :
  @rtc AllocSystem (@alloc_step (list Z) _ Bitwise.crc32c_bitwise) (mkSys (allocator_new new_header) file []) (reused file).
Proof.
  unfold reused. generalize (zeros PAGE_SIZE_INTERNAL) as buf, (len_zeros PAGE_SIZE_INTERNAL ltac:(done)). intros buf Hbuf.
  apply rtc_l with (mkSys (mkState (set_total 2 new_header) true false) file [1]); [by apply (step_alloc _ _ _ Small4k)|].
  eapply rtc_l.
  { apply (step_write _ _ _ Small4k 1 buf (Ok tt)); [by left|exact Hbuf|apply write_page_file]. }
  apply rtc_once, (step_free _ _ _ Small4k 1 []); [reflexivity|]. unfold free_page, free, write_free_link.
  by rewrite write_page_file.
Qed.

Lemma allocation_safety_witness :
  match alloc (sys_state (reused new_file)) (sys_io (reused new_file)) Small4k with
  | (Ok p, _) => 0 < p /\ (p ∉ sys_live (reused new_file))
  | (Err e, _) =>
      st_frozen (sys_state (reused new_file)) = true
      \/ e = DiskFull 4096 /\ total_page_count (st_header (sys_state (reused new_file))) = u32_max
  | (Panic, _) => False
  end.
Proof.
  pose proof (@allocation_safety (list Z) _ _ Bitwise.crc32c_bitwise new_system (reused new_file) Small4k
    new_system_fresh (reused_reachable new_file)) as [Hr _]. exact Hr.
Defined.

Lemma clean_header_reopens_witness :
  exists bytes, read_page (sys_io new_system) 0 Small4k = Ok bytes /\ @from_bytes Bitwise.crc32c_bitwise bytes = Ok new_header.
Proof.
  apply (@clean_header_reopens (list Z) _ _ Bitwise.crc32c_bitwise new_system new_system).
  - apply new_system_fresh.
  - apply rtc_refl.
  - reflexivity.
Defined.
