(* ===== verification/DeferredFree.v ===== *)
(** * Deferred frees

    The page-lifetime queue ([mvcc/deferred_free.rs]) and the drains of
    [storage/allocator/overflow.rs]: a page whose overflow chain lost its last
    reference, or that belonged to a dropped tree, returns to the allocator only
    behind a later checkpoint, with a zero reference count, and for a dropped
    tree once no registered reader predates the drop. The last section models
    the race between the final decref of a chain and the retirement of its tree
    ([storage/paged_engine.rs]). *)

From S2P Require Import Prelude Bytes Timestamp BTreeMap Version OverflowRefs Crc Page DbHeader PageSource Allocator.

#[local] Open Scope Z_scope.

(** ** The queue *)

Inductive PageLifetimeKind : Set := OverflowDeferredFree | RetiredTree4k | RetiredTree32k.

#[export] Instance PageLifetimeKind_eq_dec : EqDecision PageLifetimeKind.
Proof. solve_decision. Defined.

Record PageLifetimeEntry : Set := mkEntry {
  pe_kind : PageLifetimeKind;
  pe_page : Z;
  pe_enqueue_fence : Z;
  pe_reader_fence_ts : Ts }.

Definition overflow_deferred_free (page enqueue_fence : Z) : PageLifetimeEntry :=
  mkEntry OverflowDeferredFree page enqueue_fence (mkTs 0 0).

Definition is_fence_eligible (checkpoint_fence : Z) (e : PageLifetimeEntry) : bool := pe_enqueue_fence e <? checkpoint_fence.

Record PageLifetimeQueue : Set := mkQueue { q_overflow : list PageLifetimeEntry; q_retired : list PageLifetimeEntry }.

Definition push_entry (e : PageLifetimeEntry) (q : PageLifetimeQueue) : PageLifetimeQueue :=
  match pe_kind e with
  | OverflowDeferredFree => mkQueue (q_overflow q ++ [e]) (q_retired q)
  | RetiredTree4k | RetiredTree32k => mkQueue (q_overflow q) (q_retired q ++ [e])
  end.

Definition push_overflow_deferred_free (page enqueue_fence : Z) : PageLifetimeQueue -> PageLifetimeQueue :=
  push_entry (overflow_deferred_free page enqueue_fence).

Definition push_retired_tree (kind : PageLifetimeKind) (page enqueue_fence : Z) (reader_fence_ts : Ts)
  : PageLifetimeQueue -> PageLifetimeQueue :=
  push_entry (mkEntry kind page enqueue_fence reader_fence_ts).

(** [v.retain(|e| if test(e) { out.push(e); false } else { true })] *)
Definition extract {A} (test : A -> bool) (l : list A) : list A * list A :=
  (List.filter test l, List.filter (fun x => negb (test x)) l).

Definition take_eligible (checkpoint_fence : Z) (q : PageLifetimeQueue) : list PageLifetimeEntry * PageLifetimeQueue :=
  let (eligible, rest) := extract (is_fence_eligible checkpoint_fence) (q_overflow q) in
  (eligible, mkQueue rest (q_retired q)).

(** [reader_floor]: the provider's answer, [None] without a provider; it is
    evaluated once, at the first entry that passed its fence *)
Definition take_eligible_retired (checkpoint_fence : Z) (reader_floor : option Ts) (q : PageLifetimeQueue)
  : list PageLifetimeEntry * PageLifetimeQueue :=
  let release e :=
    is_fence_eligible checkpoint_fence e
    && match reader_floor with Some floor => ts_leb (pe_reader_fence_ts e) floor | None => false end in
  let (eligible, rest) := extract release (q_retired q) in
  (eligible, mkQueue (q_overflow q) rest).

Definition depth (q : PageLifetimeQueue) : Z := len (q_overflow q) + len (q_retired q).

(** ** The allocator's side *)

Section Drains.
Context {D : Type} `{PageSource D}.

(** The handle with its tables *)
Record LifetimeState : Type := mkLife {
  l_alloc : AllocatorState;
  l_refs : refcounts;
  l_queue : PageLifetimeQueue;
  l_fence : Z;
  l_pending : list (Z * Ts) }.

Definition set_queue (q : PageLifetimeQueue) (l : LifetimeState) : LifetimeState :=
  mkLife (l_alloc l) (l_refs l) q (l_fence l) (l_pending l).

Definition set_pending (p : list (Z * Ts)) (l : LifetimeState) : LifetimeState :=
  mkLife (l_alloc l) (l_refs l) (l_queue l) (l_fence l) p.

Definition remove_count (refs : refcounts) (page : Z) : refcounts := fun q => if q =? page then None else refs q.

Definition advance_page_lifetime_checkpoint_fence (l : LifetimeState) : LifetimeState :=
  mkLife (l_alloc l) (l_refs l) (l_queue l) (l_fence l + 1) (l_pending l).

Definition enqueue_retired_tree_page (page : Z) (size : PageSize) (reader_fence_ts : Ts) (l : LifetimeState) : LifetimeState :=
  let kind := match size with Small4k => RetiredTree4k | Large32k => RetiredTree32k end in
  set_queue (push_retired_tree kind page (l_fence l) reader_fence_ts (l_queue l)) l.

(** The map of pending notes; a later note for the same page replaces it *)
Definition pending_get (page : Z) (p : list (Z * Ts)) : option Ts := snd <$> find (fun x => fst x =? page) p.
Definition pending_remove (page : Z) (p : list (Z * Ts)) : list (Z * Ts) := List.filter (fun x => negb (fst x =? page)) p.

Definition note_retired_overflow_pending (page : Z) (reader_fence_ts : Ts) (l : LifetimeState) : LifetimeState :=
  set_pending ((page, reader_fence_ts) :: pending_remove page (l_pending l)) l.

Definition take_retired_overflow_pending (page : Z) (l : LifetimeState) : option Ts * LifetimeState :=
  (pending_get page (l_pending l), set_pending (pending_remove page (l_pending l)) l).

Definition enqueue_overflow_deferred_free (first_page : Z) (l : LifetimeState) : LifetimeState :=
  match take_retired_overflow_pending first_page l with
  | (Some reader_fence_ts, l') => enqueue_retired_tree_page first_page Large32k reader_fence_ts l'
  | (None, l') => set_queue (push_overflow_deferred_free first_page (l_fence l') (l_queue l')) l'
  end.

(** [Drop for OverflowRef] *)
Definition drop_overflow_ref (first_page : Z) (l : LifetimeState) : LifetimeState :=
  let (post, refs) := decref_overflow (l_refs l) first_page in
  let l' := mkLife (l_alloc l) refs (l_queue l) (l_fence l) (l_pending l) in
  if post =? 0 then enqueue_overflow_deferred_free first_page l' else l'.

(** The free loop: the entries to requeue and the pages freed, or the error of
    the free that failed, with the header, the pages and the counts so far *)
Fixpoint free_entries (entries : list PageLifetimeEntry) (h : FileHeader) (io : D) (refs : refcounts)
  : Result (list PageLifetimeEntry * list PageLifetimeEntry) * FileHeader * D * refcounts :=
  match entries with
  | [] => (Ok ([], []), h, io, refs)
  | e :: rest =>
      let continue_with (freed : bool) h io refs :=
        match free_entries rest h io refs with
        | (Ok (requeue, done), h, io, refs) =>
            (Ok (if freed then (requeue, e :: done) else (e :: requeue, done)), h, io, refs)
        | r => r
        end in
      match pe_kind e with
      | RetiredTree4k =>
          match free h io (pe_page e) Small4k with
          | (Ok _, h', io') => continue_with true h' io' refs
          | (Err err, h', io') => (Err err, h', io', refs)
          | (Panic, h', io') => (Panic, h', io', refs)
          end
      | OverflowDeferredFree | RetiredTree32k =>
          if overflow_refcount refs (pe_page e) =? 0 then
            match free h io (pe_page e) Large32k with
            | (Ok _, h', io') => continue_with true h' io' (remove_count refs (pe_page e))
            | (Err err, h', io') => (Err err, h', io', refs)
            | (Panic, h', io') => (Panic, h', io', refs)
            end
          else continue_with false h io refs
      end
  end.

Definition free_drained_entries (entries : list PageLifetimeEntry) (l : LifetimeState) (io : D)
  : Result (list PageLifetimeEntry) * LifetimeState * D :=
  match entries with
  | [] => (Ok [], l, io)
  | _ =>
      let st := l_alloc l in
      if st_frozen st then (Err frozen_error, l, io)
      else
        match free_entries entries (st_header st) io (l_refs l) with
        | (Ok (requeue, done), h, io', refs) =>
            let dirty := match done with [] => st_header_dirty st | _ => true end in
            (Ok done,
             mkLife (mkState h dirty (st_frozen st)) refs (foldl (fun q e => push_entry e q) (l_queue l) requeue)
               (l_fence l) (l_pending l),
             io')
        | (Err e, h, io', refs) =>
            (Err e, mkLife (mkState h (st_header_dirty st) (st_frozen st)) refs (l_queue l) (l_fence l) (l_pending l), io')
        | (Panic, h, io', refs) =>
            (Panic, mkLife (mkState h (st_header_dirty st) (st_frozen st)) refs (l_queue l) (l_fence l) (l_pending l), io')
        end
  end.

(** The results below list the freed entries; the code returns their number. *)
Definition drain_free_queue (l : LifetimeState) (io : D) : Result (list PageLifetimeEntry) * LifetimeState * D :=
  if st_frozen (l_alloc l) then (Err frozen_error, l, io)
  else
    let (entries, q) := take_eligible (l_fence l) (l_queue l) in
    free_drained_entries entries (set_queue q l) io.

Definition drain_free_queue_with_retired (reader_floor : option Ts) (l : LifetimeState) (io : D)
  : Result (list PageLifetimeEntry) * LifetimeState * D :=
  if st_frozen (l_alloc l) then (Err frozen_error, l, io)
  else
    let (entries, q) := take_eligible (l_fence l) (l_queue l) in
    let (retired, q) := take_eligible_retired (l_fence l) reader_floor q in
    free_drained_entries (entries ++ retired) (set_queue q l) io.

(** [BufferPoolHandle::advance_page_lifetime_checkpoint] *)
Definition advance_page_lifetime_checkpoint (reader_floor : option Ts) (l : LifetimeState) (io : D)
  : Result (list PageLifetimeEntry) * LifetimeState * D :=
  drain_free_queue_with_retired reader_floor (advance_page_lifetime_checkpoint_fence l) io.

(** [drain_deferred_free_pages]: the pages ready to be freed by a structural batch *)
Fixpoint ready_pages (entries : list PageLifetimeEntry) (refs : refcounts)
  : list Z * list PageLifetimeEntry * refcounts :=
  match entries with
  | [] => ([], [], refs)
  | e :: rest =>
      if negb (bool_decide (pe_kind e = OverflowDeferredFree)) || negb (overflow_refcount refs (pe_page e) =? 0)
      then let '(ready, requeue, refs') := ready_pages rest refs in (ready, e :: requeue, refs')
      else let '(ready, requeue, refs') := ready_pages rest (remove_count refs (pe_page e)) in (pe_page e :: ready, requeue, refs')
  end.

Definition drain_deferred_free_pages (l : LifetimeState) : list Z * LifetimeState :=
  let (entries, q) := take_eligible (l_fence l) (l_queue l) in
  let '(ready, requeue, refs) := ready_pages entries (l_refs l) in
  (ready, mkLife (l_alloc l) refs (foldl (fun q e => push_entry e q) q requeue) (l_fence l) (l_pending l)).

End Drains.

(** ** What a drain releases *)

Definition queued (q : PageLifetimeQueue) : list PageLifetimeEntry := q_overflow q ++ q_retired q.

Lemma queued_push e q : queued (push_entry e q) ≡ₚ e :: queued q.
Proof.
  unfold queued, push_entry. destruct (pe_kind e); cbn [q_overflow q_retired].
  - by rewrite <- app_assoc, Permutation_middle.
  - by rewrite (app_assoc _ _ [e]), Permutation_app_comm.
  - by rewrite (app_assoc _ _ [e]), Permutation_app_comm.
Qed.

Lemma queued_push_all l : forall q, queued (foldl (fun q e => push_entry e q) q l) ≡ₚ l ++ queued q.
Proof. induction l as [|e l IH]; intros q; [done|]. simpl. by rewrite IH, queued_push, Permutation_middle. Qed.

Lemma extract_perm {A} test (l : list A) : l ≡ₚ fst (extract test l) ++ snd (extract test l).
Proof.
  simpl. induction l as [|x l IH]; [done|]. simpl. destruct (test x); simpl; [by f_equiv|].
  by rewrite IH at 1; rewrite Permutation_middle.
Qed.

Lemma elem_of_filter_In {A} test (l : list A) x : x ∈ List.filter test l <-> x ∈ l /\ test x = true.
Proof. by rewrite !list_elem_of_In, filter_In. Qed.

Section DrainProofs.
Context {D : Type} `{PageSourceLaws D}.

(** The pages queued, each at most once and all of them still in use *)
Definition pages_live (entries : list PageLifetimeEntry) (live : list Z) : Prop :=
  NoDup (map pe_page entries) /\ Forall (fun p => p ∈ live) (map pe_page entries).

(** An entry that the loop may free: a zero count, unless the page is an
    internal page of a dropped tree *)
Definition unreferenced (refs : refcounts) (e : PageLifetimeEntry) : Prop :=
  pe_kind e = RetiredTree4k \/ overflow_refcount refs (pe_page e) = 0.

Lemma pages_live_inv e entries live :
  pages_live (e :: entries) live ->
  exists live', live ≡ₚ pe_page e :: live' /\ pages_live entries live'
    /\ Forall (fun e' => pe_page e' <> pe_page e) entries.
Proof.
  intros [[Hn Hnd]%NoDup_cons [Hl Hls]%Forall_cons]. apply elem_of_Permutation in Hl as [live' Hp]. exists live'.
  split; [done|]. assert (Hne : Forall (fun e' => pe_page e' <> pe_page e) entries).
  { apply List.Forall_forall. intros e' Hin E. apply Hn. rewrite <- E. by apply list_elem_of_In, in_map. }
  split; [|done]. split; [done|]. apply List.Forall_forall. intros p Hin. rewrite List.Forall_forall in Hls, Hne.
  specialize (Hls p Hin). rewrite Hp, elem_of_cons in Hls. destruct Hls as [->|]; [|done]. exfalso. apply Hn. by apply list_elem_of_In.
Qed.

Lemma remove_count_other refs p q : q <> p -> overflow_refcount (remove_count refs p) q = overflow_refcount refs q.
Proof. intros Hne. unfold overflow_refcount, remove_count. by rewrite (proj2 (Z.eqb_neq q p)). Qed.

Lemma unreferenced_other refs p (l : list PageLifetimeEntry) :
  Forall (fun e => pe_page e <> p) l -> forall e, e ∈ l -> unreferenced (remove_count refs p) e <-> unreferenced refs e.
Proof. intros Hl e He. rewrite Forall_forall in Hl. unfold unreferenced. by rewrite remove_count_other by (by apply Hl). Qed.

(** The outcome of the free loop on pages in use: on success every entry is
    freed or requeued, by its count alone, and the freed pages are the
    allocator's; on failure the pages freed so far are. *)
Definition drained (refs : refcounts) (entries : list PageLifetimeEntry) (live : list Z)
  (r : Result (list PageLifetimeEntry * list PageLifetimeEntry) * FileHeader * D * refcounts) : Prop :=
  match r with
  | (Ok (requeue, freed), h', io', _) =>
      entries ≡ₚ freed ++ requeue /\ Forall (unreferenced refs) freed /\ Forall (fun e => ~ unreferenced refs e) requeue
      /\ exists fl' live', live ≡ₚ map pe_page freed ++ live' /\ alloc_inv h' io' fl' live'
  | (_, h', io', _) => exists fl' live' gone, live ≡ₚ gone ++ live' /\ alloc_inv h' io' fl' live'
  end.

Lemma drained_free e entries h io fl live live' size refs refs' :
  alloc_inv h io fl live -> live ≡ₚ pe_page e :: live' -> unreferenced refs e ->
  (forall e', e' ∈ entries -> unreferenced refs' e' <-> unreferenced refs e') ->
  (forall h1 io1 fl1, alloc_inv h1 io1 fl1 live' -> drained refs' entries live' (free_entries entries h1 io1 refs')) ->
  drained refs (e :: entries) live
    match free h io (pe_page e) size with
    | (Ok _, h', io') =>
        match free_entries entries h' io' refs' with
        | (Ok (requeue, freed), h, io, refs) => (Ok (requeue, e :: freed), h, io, refs)
        | r => r
        end
    | (Err err, h', io') => (Err err, h', io', refs)
    | (Panic, h', io') => (Panic, h', io', refs)
    end.
Proof.
  intros Hi Hp He Hrefs IH. pose proof (free_spec h io fl live live' (pe_page e) size Hi Hp) as Hs.
  destruct (free h io (pe_page e) size) as [[[[]|err|] h1] io1]; [|destruct Hs as [-> Hs]; by exists fl, live, []..].
  destruct Hs as [fl1 Hi1]. specialize (IH h1 io1 fl1 Hi1).
  destruct (free_entries entries h1 io1 refs') as [[[[[requeue freed]|err|] h2] io2] refs2];
    [|destruct IH as (fl2 & live2 & gone & E2 & Hi2); exists fl2, live2, (pe_page e :: gone); by rewrite Hp, E2..].
  destruct IH as (E & Hd & Hr & fl2 & live2 & E2 & Hi2). split_and!; [by rewrite E| | |].
  - constructor; [done|]. rewrite Forall_forall in *. intros x Hx. apply Hrefs; [rewrite E, elem_of_app; auto|auto].
  - rewrite Forall_forall in *. intros x Hx. rewrite <- Hrefs; [auto|rewrite E, elem_of_app; auto].
  - exists fl2, live2. split; [by rewrite Hp, E2|done].
Qed.

Lemma free_entries_spec entries : forall h io refs fl live,
  alloc_inv h io fl live -> pages_live entries live -> drained refs entries live (free_entries entries h io refs).
Proof.
  induction entries as [|e entries IH]; intros h io refs fl live Hi Hl; cbn [free_entries].
  { split_and!; [done|constructor|constructor|]. by exists fl, live. }
  assert (Htail : pages_live entries live) by (destruct Hl as [[_ ?]%NoDup_cons [_ ?]%Forall_cons]; done).
  apply pages_live_inv in Hl as (live' & Hp & Hl' & Hne). cbv zeta.
  assert (H32 : pe_kind e <> RetiredTree4k -> drained refs (e :: entries) live
    (if overflow_refcount refs (pe_page e) =? 0 then
       match free h io (pe_page e) Large32k with
       | (Ok _, h', io') =>
           match free_entries entries h' io' (remove_count refs (pe_page e)) with
           | (Ok (requeue, freed), h, io, refs) => (Ok (requeue, e :: freed), h, io, refs)
           | r => r
           end
       | (Err err, h', io') => (Err err, h', io', refs)
       | (Panic, h', io') => (Panic, h', io', refs)
       end
     else
       match free_entries entries h io refs with
       | (Ok (requeue, freed), h, io, refs) => (Ok (e :: requeue, freed), h, io, refs)
       | r => r
       end)).
  { intros Hk. destruct (Z.eqb_spec (overflow_refcount refs (pe_page e)) 0) as [H0c|H0c].
    - apply (drained_free e entries h io fl live live'); [done|done|by right|by apply unreferenced_other|]. intros. by apply (IH _ _ _ fl1).
    - specialize (IH h io refs fl live Hi Htail). destruct (free_entries entries h io refs) as [[[[[requeue freed]|err|] h2] io2] refs2];
        [|done..]. destruct IH as (E & Hd & Hr & IH). split_and!; [by rewrite E, Permutation_middle|done| |done].
      constructor; [|done]. by intros [|]. }
  destruct (pe_kind e) eqn:Hk; [by apply H32| |by apply H32].
  apply (drained_free e entries h io fl live live'); [done|done|by left|done|]. intros. by apply (IH _ _ _ fl1).
Qed.

Lemma free_drained_spec entries l io fl live :
  alloc_inv (st_header (l_alloc l)) io fl live -> pages_live entries live -> st_frozen (l_alloc l) = false ->
  match free_drained_entries entries l io with
  | (Ok freed, l', io') =>
      exists requeue, entries ≡ₚ freed ++ requeue /\ queued (l_queue l') ≡ₚ requeue ++ queued (l_queue l)
      /\ Forall (unreferenced (l_refs l)) freed /\ Forall (fun e => ~ unreferenced (l_refs l) e) requeue
      /\ exists fl' live', live ≡ₚ map pe_page freed ++ live' /\ alloc_inv (st_header (l_alloc l')) io' fl' live'
  | (_, l', io') => exists fl' live' gone, live ≡ₚ gone ++ live' /\ alloc_inv (st_header (l_alloc l')) io' fl' live'
  end.
Proof.
  intros Hi Hl Hf. unfold free_drained_entries. destruct entries as [|e0 entries].
  { exists []. split_and!; [done|done|constructor|constructor|]. by exists fl, live. }
  cbv zeta. rewrite Hf. pose proof (free_entries_spec (e0 :: entries) _ _ (l_refs l) _ _ Hi Hl) as Hs. revert Hs.
  generalize (e0 :: entries). intros es.
  destruct (free_entries es _ io (l_refs l)) as [[[[[requeue freed]|err|] h2] io2] refs2]; cbn [drained l_alloc st_header l_queue]; [|done..].
  intros (E & Hd & Hr & Hx). exists requeue. split_and!; [done|apply queued_push_all|done..].
Qed.

(** Each segment holds its kinds. *)
Definition queue_wf (q : PageLifetimeQueue) : Prop :=
  Forall (fun e => pe_kind e = OverflowDeferredFree) (q_overflow q)
  /\ Forall (fun e => pe_kind e <> OverflowDeferredFree) (q_retired q).

(** What the two extractions take and leave *)
Lemma eligible_spec fence floor q entries q1 retired q2 :
  queue_wf q -> take_eligible fence q = (entries, q1) -> take_eligible_retired fence (Some floor) q1 = (retired, q2) ->
  queued q ≡ₚ (entries ++ retired) ++ queued q2
  /\ Forall (fun e => pe_enqueue_fence e < fence
       /\ (pe_kind e <> OverflowDeferredFree -> ts_le (pe_reader_fence_ts e) floor)) (entries ++ retired)
  /\ Forall (fun e => pe_enqueue_fence e < fence -> e ∈ entries) (q_overflow q).
Proof.
  intros [Hov Hret]. unfold take_eligible, take_eligible_retired. destruct (extract _ (q_overflow q)) as [a b] eqn:Ea.
  intros [= -> <-]. cbn [q_retired q_overflow]. cbv zeta. destruct (extract _ (q_retired q)) as [c d] eqn:Ec. intros [= -> <-].
  pose proof (extract_perm (is_fence_eligible fence) (q_overflow q)) as P1. rewrite Ea in P1.
  match type of Ec with extract ?t _ = _ => pose proof (extract_perm t (q_retired q)) as P2 end. rewrite Ec in P2. simpl in P1, P2.
  split_and!.
  - unfold queued. cbn [q_overflow q_retired]. rewrite P1, P2, <- !app_assoc. f_equiv. apply Permutation_app_swap_app.
  - apply Forall_app. split; apply Forall_forall; intros e He.
    + injection Ea as <- _. apply elem_of_filter_In in He as [He Ht]. unfold is_fence_eligible in Ht.
      rewrite Forall_forall in Hov. split; [lia|]. intros Hk. by rewrite Hov in Hk.
    + injection Ec as <- _. apply elem_of_filter_In in He as [He Ht]. apply andb_true_iff in Ht as [Ht Hfl].
      unfold is_fence_eligible in Ht. split; [lia|]. intros _. ts_lia.
  - injection Ea as <- _. apply Forall_forall. intros e He Hf. apply elem_of_filter_In. split; [done|]. by apply Z.ltb_lt.
Qed.

(** A drain that fails keeps only the entries it had not taken: those it took,
    freed or not, are gone from the queue, and the header's dirty mark does not
    record the pages freed before the failure. *)
Lemma failed_drain_forgets floor l io e l' io' :
  st_frozen (l_alloc l) = false -> drain_free_queue_with_retired floor l io = (Err e, l', io') ->
  l_queue l' = snd (take_eligible_retired (l_fence l) floor (snd (take_eligible (l_fence l) (l_queue l)))) /\
  st_header_dirty (l_alloc l') = st_header_dirty (l_alloc l).
Proof.
  intros Hf. unfold drain_free_queue_with_retired. rewrite Hf.
  destruct (take_eligible (l_fence l) (l_queue l)) as [entries q1].
  cbn [snd]. destruct (take_eligible_retired (l_fence l) floor q1) as [retired q2].
  unfold free_drained_entries. destruct (entries ++ retired) as [|x xs]; [done|].
  cbn [l_alloc set_queue]. rewrite Hf.
  destruct (free_entries _ _ _ _) as [[[[[requeue ds]|err|] h] io1] refs]; [done| |done].
  by intros [= _ <- _].
Qed.

(** C8: the checkpoint drain, with the registry's horizon as reader floor,
    returns a page to the allocator only if its queue entry is older than the
    checkpoint fence, its overflow count is zero (internal pages of dropped
    trees have none) and, for an entry queued as a page of a dropped tree
    ([RetiredTree4k], [RetiredTree32k]), no registered view is older than the
    drop; an entry queued as an overflow page is not checked against readers,
    also when a dropped tree owned the page.  A drain that succeeds frees every
    overflow entry past the fence with a zero count, keeps every entry it does
    not free, and moves the freed pages from use to the free lists with the
    allocator's invariant intact; after a failed drain the allocator's
    invariant holds too, but the entries it took are not put back. *)
Theorem checkpoint_drain_safe registry l io fl live :
  alloc_inv (st_header (l_alloc l)) io fl live -> pages_live (queued (l_queue l)) live -> queue_wf (l_queue l) ->
  st_frozen (l_alloc l) = false ->
  match drain_free_queue_with_retired (Some (Registry.oldest_required_ts registry)) l io with
  | (Ok freed, l', io') =>
      queued (l_queue l) ≡ₚ freed ++ queued (l_queue l')
      /\ Forall (fun e => pe_enqueue_fence e < l_fence l /\ unreferenced (l_refs l) e
           /\ (pe_kind e <> OverflowDeferredFree ->
               forall id t, In (id, t) registry -> ts_le (pe_reader_fence_ts e) t)) freed
      /\ Forall (fun e => pe_enqueue_fence e < l_fence l -> unreferenced (l_refs l) e -> e ∈ freed) (q_overflow (l_queue l))
      /\ exists fl' live', live ≡ₚ map pe_page freed ++ live' /\ alloc_inv (st_header (l_alloc l')) io' fl' live'
  | (_, l', io') => exists fl' live' gone, live ≡ₚ gone ++ live' /\ alloc_inv (st_header (l_alloc l')) io' fl' live'
  end.
Proof.
  intros Hi Hl Hwf Hf. unfold drain_free_queue_with_retired. rewrite Hf.
  destruct (take_eligible (l_fence l) (l_queue l)) as [entries q1] eqn:E1.
  destruct (take_eligible_retired (l_fence l) _ q1) as [retired q2] eqn:E2.
  destruct (eligible_spec _ _ _ _ _ _ _ Hwf E1 E2) as (Hperm & Hel & Hall).
  assert (Hl' : pages_live (entries ++ retired) live).
  { destruct Hl as [Hn Ha]. rewrite Hperm, map_app in Hn, Ha. apply NoDup_app in Hn as [Hn _]. apply Forall_app in Ha as [Ha _]. done. }
  pose proof (free_drained_spec (entries ++ retired) (set_queue q2 l) io fl live Hi Hl' Hf) as Hs.
  destruct (free_drained_entries (entries ++ retired) (set_queue q2 l) io) as [[[freed|err|] l'] io']; [|done..].
  destruct Hs as (requeue & P1 & P2 & Hfreed & Hre & Hx). cbn [l_queue l_refs set_queue] in *. split_and!; [| | |done].
  - by rewrite Hperm, P1, P2, <- app_assoc.
  - rewrite P1, Forall_app in Hel. destruct Hel as [Hel _]. eapply Forall_impl; [apply Forall_and; split; [exact Hel|exact Hfreed]|].
    intros e [[Hlt Hfl] Hu]. split_and!; [done..|]. intros Hk id t Hin. specialize (Hfl Hk).
    pose proof (Registry.oldest_required_ts_le registry id t Hin). ts_lia.
  - eapply Forall_impl; [exact Hall|]. intros e He Hlt Hu. specialize (He Hlt). rewrite Forall_forall in Hre.
    assert (Hin : e ∈ freed ++ requeue) by (rewrite <- P1, elem_of_app; auto). apply elem_of_app in Hin as [|Hin]; [done|]. by apply Hre in Hin.
Qed.
End DrainProofs.

(** *** Instance: two pages in use, both queued; the one view is newer *)

Definition two_live : FileHeader := set_total 3 new_header.

Lemma two_live_inv : alloc_inv two_live (@nil Z) (fun _ => []) [1; 2].
Proof.
  split; [by split_and!; repeat constructor|done| | |].
  - intros s. destruct s; constructor.
  - by intros [].
  - done.
Qed.

Definition two_queued : LifetimeState :=
  mkLife (allocator_new two_live) (fun _ => None)
    (mkQueue [overflow_deferred_free 2 3] [mkEntry RetiredTree4k 1 4 (mkTs 9 0)]) 5 [].

Lemma two_queued_live : pages_live (queued (l_queue two_queued)) [1; 2].
Proof. split; simpl; [|repeat constructor; set_solver]. repeat (constructor; [set_solver|]). constructor. Qed.

Lemma checkpoint_drain_safe_witness :
  match drain_free_queue_with_retired (Some (Registry.oldest_required_ts [(0, mkTs 10 0)])) two_queued (@nil Z) with
  | (Ok freed, l', io') =>
      map pe_page freed = [2; 1] /\ queued (l_queue l') = []
      /\ exists fl' live', [1; 2] ≡ₚ map pe_page freed ++ live' /\ alloc_inv (st_header (l_alloc l')) io' fl' live'
  | _ => False
  end.
Proof.
  pose proof (checkpoint_drain_safe [(0, mkTs 10 0)] two_queued (@nil Z) (fun _ => []) [1; 2] two_live_inv) as Hd.
  destruct (drain_free_queue_with_retired _ two_queued _) as [[r l'] io'] eqn:E.
  assert (Hr : match r with Ok freed => map pe_page freed = [2; 1] | _ => False end
    /\ queued (l_queue l') = []).
  { replace r with (fst (fst (drain_free_queue_with_retired (Some (Registry.oldest_required_ts [(0, mkTs 10 0)])) two_queued (@nil Z)))) by by rewrite E.
    replace l' with (snd (fst (drain_free_queue_with_retired (Some (Registry.oldest_required_ts [(0, mkTs 10 0)])) two_queued (@nil Z)))) by by rewrite E.
    clear. by vm_compute. }
  destruct r as [freed|e|]; destruct Hr as [Hp Hq]; [|done..]. split_and!; [exact Hp|exact Hq|].
  destruct Hd as (_ & _ & _ & Hx); [exact two_queued_live|by repeat constructor|reflexivity|exact Hx].
Defined.


(** ** The final decref against the retirement of a tree

    One overflow page [page] of a tree that is dropped while references to its
    chain are being released. Each step is one atomic access of the code. *)

Module RetireRace.

(** A reference: held; its [fetch_sub] done, with the count it left; the note
    looked up; dropped *)
Inductive Holder : Set := Holding | Decremented (post : Z) | Taken (note : option Ts) | Dropped.

(** [retire_dropped_tree_pages] on the page: before; noted; probed; the note
    reclaimed on the branch without a slot; done, with what the probe saw *)
Inductive Retire : Set := RIdle | RNoted | RProbed (slot : option Z) | RReclaimed (note : option Ts) | RDone (slot : option Z).

Record Race : Type := mkRace { r_life : LifetimeState; r_holders : list Holder; r_retire : Retire }.

Section Protocol.
Context (page : Z) (fence_ts : Ts).

Definition push_taken (note : option Ts) (l : LifetimeState) : LifetimeState :=
  match note with
  | Some reader_fence_ts => enqueue_retired_tree_page page Large32k reader_fence_ts l
  | None => set_queue (push_overflow_deferred_free page (l_fence l) (l_queue l)) l
  end.

Definition set_refs (refs : refcounts) (l : LifetimeState) : LifetimeState :=
  mkLife (l_alloc l) refs (l_queue l) (l_fence l) (l_pending l).

Inductive race_step : Race -> Race -> Prop :=
| step_clone l a b r n refs :
    incref_overflow (l_refs l) page = (Ok n, refs) ->
    race_step (mkRace l (a ++ Holding :: b) r) (mkRace (set_refs refs l) (Holding :: a ++ Holding :: b) r)
| step_decref l a b r post refs :
    decref_overflow (l_refs l) page = (post, refs) ->
    race_step (mkRace l (a ++ Holding :: b) r) (mkRace (set_refs refs l) (a ++ Decremented post :: b) r)
| step_not_last l a b r post :
    post <> 0 -> race_step (mkRace l (a ++ Decremented post :: b) r) (mkRace l (a ++ Dropped :: b) r)
| step_take l a b r note l' :
    take_retired_overflow_pending page l = (note, l') ->
    race_step (mkRace l (a ++ Decremented 0 :: b) r) (mkRace l' (a ++ Taken note :: b) r)
| step_push l a b r note :
    race_step (mkRace l (a ++ Taken note :: b) r) (mkRace (push_taken note l) (a ++ Dropped :: b) r)
| step_note l hs :
    race_step (mkRace l hs RIdle) (mkRace (note_retired_overflow_pending page fence_ts l) hs RNoted)
| step_probe l hs : race_step (mkRace l hs RNoted) (mkRace l hs (RProbed (l_refs l page)))
| step_no_slot l hs note l' :
    take_retired_overflow_pending page l = (note, l') -> race_step (mkRace l hs (RProbed None)) (mkRace l' hs (RReclaimed note))
| step_no_slot_push l hs note :
    race_step (mkRace l hs (RReclaimed note))
      (mkRace (match note with Some ts => enqueue_retired_tree_page page Large32k ts l | None => l end) hs (RDone None))
| step_zero l hs :
    race_step (mkRace l hs (RProbed (Some 0))) (mkRace (snd (take_retired_overflow_pending page l)) hs (RDone (Some 0)))
| step_positive l hs n : n <> 0 -> race_step (mkRace l hs (RProbed (Some n))) (mkRace l hs (RDone (Some n))).

(** The entries of the page, the references held, and those on their way to
    the queue *)
Definition entries (l : LifetimeState) : list PageLifetimeEntry := List.filter (fun e => pe_page e =? page) (queued (l_queue l)).
Definition holds_ref (h : Holder) : bool := match h with Holding => true | _ => false end.
Definition has_ticket (h : Holder) : bool := match h with Decremented 0 | Taken _ => true | _ => false end.
Definition holding (hs : list Holder) : Z := len (List.filter holds_ref hs).
Definition tickets (hs : list Holder) : Z := len (List.filter has_ticket hs).

(** With references: the slot counts them, and once the last is gone there is
    one entry or one drop on its way to add it. *)
Definition referenced_inv (x : Race) : Prop :=
  let l := r_life x in let hs := r_holders x in
  l_refs l page = Some (holding hs) /\ holding hs <= u32_max
  /\ (holding hs = 0 -> len (entries l) + tickets hs = 1) /\ (0 < holding hs -> len (entries l) + tickets hs = 0)
  /\ match r_retire x with RProbed None | RReclaimed _ | RDone None => False | _ => True end.

Lemma filter_mid {A} (f : A -> bool) a x b :
  len (List.filter f (a ++ x :: b)) = len (List.filter f a) + (if f x then 1 else 0) + len (List.filter f b).
Proof. rewrite List.filter_app, len_app. simpl. destruct (f x); rewrite ?len_cons; lia. Qed.

Lemma holding_mid a h b : holding (a ++ h :: b) = holding a + (if holds_ref h then 1 else 0) + holding b.
Proof. apply filter_mid. Qed.

Lemma tickets_mid a h b : tickets (a ++ h :: b) = tickets a + (if has_ticket h then 1 else 0) + tickets b.
Proof. apply filter_mid. Qed.

Lemma filter_perm {A} (f : A -> bool) l k : l ≡ₚ k -> List.filter f l ≡ₚ List.filter f k.
Proof.
  induction 1 as [|x l k _ IH|x y l|l k m _ IH1 _ IH2]; simpl; [done| | |by rewrite IH1].
  - destruct (f x); by rewrite IH.
  - destruct (f x), (f y); [apply Permutation_swap|done..].
Qed.

Lemma entries_push e l : pe_page e = page -> entries (set_queue (push_entry e (l_queue l)) l) ≡ₚ e :: entries l.
Proof.
  intros He. unfold entries. cbn [set_queue l_queue]. rewrite (filter_perm _ _ _ (queued_push e (l_queue l))). simpl.
  by rewrite He, Z.eqb_refl.
Qed.

Lemma len_push_taken note l : len (entries (push_taken note l)) = 1 + len (entries l).
Proof.
  unfold push_taken, enqueue_retired_tree_page, push_overflow_deferred_free, push_retired_tree.
  destruct note; rewrite entries_push by done; apply len_cons.
Qed.

Lemma holding_nonneg hs : 0 <= holding hs.
Proof. apply len_nonneg. Qed.

Lemma tickets_nonneg hs : 0 <= tickets hs.
Proof. apply len_nonneg. Qed.

Lemma referenced_step x y : race_step x y -> referenced_inv x -> referenced_inv y.
Proof.
  pose proof holding_nonneg as Hh. pose proof tickets_nonneg as Ht.
  destruct 1 as [l a b r n refs Hi|l a b r post refs Hd|l a b r post Hp|l a b r note l' Ht'|l a b r note|l hs|l hs|l hs note l' Ht'
    |l hs note|l hs|l hs n Hn]; intros (Hrefs & Hmax & Hone & Hnone & Hpc); unfold referenced_inv; cbn [r_life r_holders r_retire] in *;
    rewrite ?app_comm_cons, ?holding_mid, ?tickets_mid in *; cbn [holds_ref] in *;
    repeat match goal with hs : list Holder |- _ => lazymatch goal with _ : 0 <= holding hs |- _ => fail | _ => pose proof (Hh hs); pose proof (Ht hs) end end.
  - unfold incref_overflow, overflow_refcount in Hi. rewrite Hrefs in Hi. simpl in Hi. destruct (Z.eqb_spec (holding a + 1 + holding b) u32_max); [done|].
    injection Hi as <- <-. change (holding (Holding :: a)) with (len (Holding :: List.filter holds_ref a)). rewrite len_cons. fold (holding a).
    change (tickets (Holding :: a)) with (tickets a). cbn [set_refs l_refs has_ticket] in *. unfold set_count. rewrite Z.eqb_refl.
    change (entries (set_refs _ l)) with (entries l). split_and!; [f_equal; lia|lia|lia|lia|done].
  - unfold decref_overflow in Hd. rewrite Hrefs in Hd. injection Hd as <- <-. unfold saturating_sub. cbn [set_refs l_refs].
    unfold set_count. rewrite Z.eqb_refl, as_u_small by (unfold is_u, u32_max in *; lia). change (entries (set_refs _ l)) with (entries l).
    replace (Z.max 0 (holding a + 1 + holding b - 1)) with (holding a + holding b) by lia. cbn [has_ticket] in Hone, Hnone.
    destruct (holding a + holding b) eqn:E; cbn [has_ticket]; (split_and!; [f_equal; lia|lia|lia|lia|done]).
  - destruct post; [done|..]; done.
  - injection Ht' as <- <-. done.
  - rewrite len_push_taken. cbn [has_ticket] in *. split_and!; [by destruct note|done|lia|lia|done].
  - done.
  - rewrite Hrefs. done.
  - done.
  - done.
  - done.
  - done.
Qed.

(** *** The reader fence *)

Definition pend (l : LifetimeState) : option Ts := pending_get page (l_pending l).
Definition fenced (e : PageLifetimeEntry) : Prop := pe_kind e = RetiredTree32k /\ pe_reader_fence_ts e = fence_ts.
Definition taken_fenced (h : Holder) : Prop := match h with Taken note => note = Some fence_ts | _ => True end.
Definition undecided (h : Holder) : bool := match h with Decremented 0 => true | _ => false end.

(** A probe that saw references makes the last drop inherit the fence. *)
Definition fence_inv (x : Race) : Prop :=
  let l := r_life x in let hs := r_holders x in
  match r_retire x with
  | RNoted => 0 < holding hs -> pend l = Some fence_ts
  | RProbed (Some n) | RDone (Some n) =>
      n <> 0 -> Forall fenced (entries l) /\ Forall taken_fenced hs
        /\ (pend l = Some fence_ts \/ holding hs = 0 /\ List.filter undecided hs = [])
  | _ => True
  end.

Lemma pend_note l : pend (note_retired_overflow_pending page fence_ts l) = Some fence_ts.
Proof. unfold pend, pending_get, note_retired_overflow_pending. cbn. by rewrite Z.eqb_refl. Qed.

Lemma pend_push_taken note l : pend (push_taken note l) = pend l.
Proof. by destruct note. Qed.

Lemma tickets_0 hs : tickets hs = 0 -> Forall taken_fenced hs /\ List.filter undecided hs = [].
Proof.
  unfold tickets. induction hs as [|h hs IH]; [done|]. simpl. intros Hl.
  destruct h as [|post|note|]; simpl in *; try (destruct (IH Hl); split; [by constructor|done]).
  - destruct post; simpl in *; [rewrite len_cons in Hl; pose proof (len_nonneg (List.filter has_ticket hs)); lia|..];
      destruct (IH Hl); (split; [by constructor|done]).
  - rewrite len_cons in Hl. pose proof (len_nonneg (List.filter has_ticket hs)). lia.
Qed.

Lemma len_0 {A} (l : list A) : len l = 0 -> l = [].
Proof. destruct l; [done|]. rewrite len_cons. pose proof (len_nonneg l). lia. Qed.

Lemma undecided_mid a h b : List.filter undecided (a ++ h :: b) = [] <->
  List.filter undecided a = [] /\ undecided h = false /\ List.filter undecided b = [].
Proof.
  rewrite List.filter_app. simpl. destruct (undecided h); split.
  - intros E. apply app_eq_nil in E as [_ E]. done.
  - naive_solver.
  - intros [? ?]%app_eq_nil. done.
  - intros (-> & _ & ->). done.
Qed.

Lemma pend_take l : pend (snd (take_retired_overflow_pending page l)) = None.
Proof.
  unfold pend, pending_get, take_retired_overflow_pending. cbn. unfold pending_remove.
  induction (l_pending l) as [|[p t] rest IH]; [done|]. simpl. destruct (Z.eqb_spec p page) as [->|Hne]; simpl; [done|].
  by rewrite (proj2 (Z.eqb_neq p page)).
Qed.

Lemma fence_step x y : race_step x y -> referenced_inv x -> fence_inv x -> fence_inv y.
Proof.
  pose proof holding_nonneg as Hh. pose proof tickets_nonneg as Htk.
  destruct 1 as [l a b r n refs Hi|l a b r post refs Hd|l a b r post Hp|l a b r note l' Ht|l a b r note|l hs|l hs|l hs note l' Ht
    |l hs note|l hs|l hs n Hn]; intros (Hrefs & Hmax & Hone & Hnone & Hpc); unfold fence_inv; cbn [r_life r_holders r_retire] in *;
    rewrite ?app_comm_cons, ?holding_mid, ?tickets_mid in *; cbn [holds_ref] in *; try done.
  - intros Hf. pose proof (Hh a). pose proof (Hh b). change (pend (set_refs refs l)) with (pend l). change (entries (set_refs refs l)) with (entries l).
    assert (Hcase : pend l = Some fence_ts \/ holding a + 1 + holding b = 0 /\ List.filter undecided (a ++ Holding :: b) = [] -> pend l = Some fence_ts) by (intros [|[? _]]; [done|lia]).
    destruct r as [| |[m|]|n0|[m|]]; try done; [intros _; apply Hf; lia|..]; intros Hm; destruct (Hf Hm) as (F1 & F2 & F3);
      (split_and!; [done|by constructor|left; by apply Hcase]).
  - intros Hf. pose proof (Hh a). pose proof (Hh b). change (pend (set_refs refs l)) with (pend l). change (entries (set_refs refs l)) with (entries l).
    destruct r as [| |[m|]|n0|[m|]]; try done; [intros _; apply Hf; lia|..]; intros Hm; destruct (Hf Hm) as (F1 & F2 & F3);
      (split_and!; [done| |left; destruct F3 as [|[? _]]; [done|lia]]);
      apply Forall_app in F2 as [Fa [_ Fb]%Forall_cons]; apply Forall_app; (split; [done|]); by constructor.
  - intros Hf. assert (Hu : List.filter undecided (a ++ Decremented post :: b) = List.filter undecided (a ++ Dropped :: b))
      by (rewrite !List.filter_app; simpl; by destruct post).
    rewrite Hu in Hf. destruct r as [| |[m|]|n0|[m|]]; try done; intros Hm; destruct (Hf Hm) as (F1 & F2 & F3); (split_and!; [done| |done]);
      apply Forall_app in F2 as [Fa [_ Fb]%Forall_cons]; apply Forall_app; (split; [done|]); by constructor.
  - intros Hf. assert (Hnote : note = pend l) by (by injection Ht). assert (El : l' = snd (take_retired_overflow_pending page l)) by by rewrite Ht.
    assert (Ee : entries l' = entries l) by by rewrite El. cbn [has_ticket] in *.
    pose proof (Hh a). pose proof (Hh b). pose proof (Htk a). pose proof (Htk b). pose proof (len_nonneg (entries l)).
    assert (Hz : holding a + 0 + holding b = 0 /\ tickets a = 0 /\ tickets b = 0) by lia. destruct Hz as (Hz & Ta & Tb).
    destruct (tickets_0 a Ta) as [Fa Ua], (tickets_0 b Tb) as [Fb Ub].
    destruct r as [| |[m|]|n0|[m|]]; try done; [lia|..]; intros Hm; destruct (Hf Hm) as (F1 & F2 & F3); rewrite Ee;
      (split_and!; [done| |right; split; [done|by apply undecided_mid]]); apply Forall_app; (split; [done|]); (constructor; [|done]);
      simpl; rewrite Hnote; destruct F3 as [|[_ F3]]; [done|by apply undecided_mid in F3 as (_ & ? & _)|done|by apply undecided_mid in F3 as (_ & ? & _)].
  - rewrite pend_push_taken. intros Hf.
    assert (Hu : List.filter undecided (a ++ Taken note :: b) = List.filter undecided (a ++ Dropped :: b)) by (by rewrite !List.filter_app).
    rewrite Hu in Hf. destruct r as [| |[m|]|n0|[m|]]; try done; intros Hm; destruct (Hf Hm) as (F1 & F2 & F3);
      apply Forall_app in F2 as [Fa [Fn Fb]%Forall_cons]; simpl in Fn; subst note; (split_and!; [|apply Forall_app; split; [done|by constructor]|done]);
      unfold push_taken, enqueue_retired_tree_page, push_retired_tree; rewrite entries_push by done; by constructor.
  - intros _ _. apply pend_note.
  - rewrite Hrefs. intros Hf Hm. pose proof (Hh hs). pose proof (Htk hs). pose proof (len_nonneg (entries l)).
    assert (tickets hs = 0 /\ len (entries l) = 0) as [Ht He] by lia. destruct (tickets_0 hs Ht) as [Ft _]. rewrite (len_0 _ He).
    split_and!; [constructor|done|left; apply Hf; lia].
Qed.

(** *** A page without a slot *)

Definition unreferenced_inv (x : Race) : Prop :=
  let l := r_life x in
  r_holders x = [] /\ l_refs l page = None
  /\ match r_retire x with
     | RIdle => entries l = []
     | RNoted | RProbed None => entries l = [] /\ pend l = Some fence_ts
     | RReclaimed note => entries l = [] /\ note = Some fence_ts
     | RDone None => len (entries l) = 1 /\ Forall fenced (entries l)
     | RProbed (Some _) | RDone (Some _) => False
     end.

Lemma unreferenced_step x y : race_step x y -> unreferenced_inv x -> unreferenced_inv y.
Proof.
  destruct 1 as [l a b r n refs Hi|l a b r post refs Hd|l a b r post Hp|l a b r note l' Ht|l a b r note|l hs|l hs|l hs note l' Ht
    |l hs note|l hs|l hs n Hn]; intros (Hh & Hr & Hpc); unfold unreferenced_inv; cbn [r_life r_holders r_retire] in *;
    try (by destruct a); try done.
  - by rewrite pend_note.
  - by rewrite Hr.
  - destruct Hpc as [He Hp]. injection Ht as <- <-. done.
  - destruct Hpc as [He ->]. unfold enqueue_retired_tree_page, push_retired_tree. rewrite entries_push, He by done.
    by repeat constructor.
Qed.

(** The page when its tree is dropped: [n] references, no entry, no note *)
Definition start (n : nat) (x : Race) : Prop :=
  Z.of_nat n <= u32_max /\ r_holders x = replicate n Holding /\ r_retire x = RIdle /\ entries (r_life x) = []
  /\ pend (r_life x) = None /\ l_refs (r_life x) page = match n with O => None | _ => Some (Z.of_nat n) end.

(** Every reference dropped and the retirement over *)
Definition finished (x : Race) : Prop :=
  Forall (fun h => h = Dropped) (r_holders x) /\ match r_retire x with RDone _ => True | _ => False end.

Definition race_inv (x : Race) : Prop := unreferenced_inv x \/ referenced_inv x /\ fence_inv x.

Lemma race_inv_step x y : race_step x y -> race_inv x -> race_inv y.
Proof. intros Hs [H|[H F]]; [left|right; split]; eauto using unreferenced_step, referenced_step, fence_step. Qed.

Lemma start_counts n : holding (replicate n Holding) = Z.of_nat n /\ tickets (replicate n Holding) = 0.
Proof.
  induction n as [|n [IH1 IH2]]; [done|]. split; [|done]. unfold holding in *. simpl. rewrite len_cons. lia.
Qed.

Lemma race_inv_start n x : start n x -> race_inv x.
Proof.
  intros (Hn & Hh & Hr & He & Hp & Hs). destruct (start_counts n) as [H1 H2]. unfold race_inv, unreferenced_inv, referenced_inv, fence_inv.
  rewrite Hh, Hr, He, Hs, H1, H2. destruct n as [|n]; [by left|right]. change (len (@nil PageLifetimeEntry)) with 0. split_and!; [done|lia..|done|done].
Qed.

Lemma finished_counts x : finished x -> holding (r_holders x) = 0 /\ tickets (r_holders x) = 0.
Proof.
  intros [Hf _]. induction Hf as [|h hs -> _ [IH1 IH2]]; [done|]. split; done.
Qed.

(** C18: a 32 KiB page of a dropped tree reaches the lifetime queue exactly
    once, however the retirement interleaves with cloning and dropping of the
    [n] references the page has: never twice, and once when all of them are
    dropped and the retirement is over. Unless the retirement's probe saw the
    count at zero, the entry carries the reader fence of the drop. *)
Theorem retired_page_enqueued_once n x y :
  start n x -> rtc race_step x y ->
  len (entries (r_life y)) <= 1
  /\ (finished y -> len (entries (r_life y)) = 1)
  /\ match r_retire y with
     | RDone None => Forall fenced (entries (r_life y))
     | RDone (Some seen) => seen <> 0 -> Forall fenced (entries (r_life y))
     | _ => True
     end.
Proof.
  intros Hs%race_inv_start Hr. assert (Hy : race_inv y) by (induction Hr; eauto using race_inv_step). clear Hr Hs.
  pose proof (holding_nonneg (r_holders y)). pose proof (tickets_nonneg (r_holders y)). pose proof (finished_counts y) as Hf.
  destruct Hy as [(Hh & _ & Hpc)|[(_ & _ & Hc0 & Hc1 & Hpc) Hfence]].
  - unfold finished. rewrite Hh in *. destruct (r_retire y) as [| |[m|]|nt|[m|]]; try done; [| | | |by destruct Hpc; split_and!; [lia|..]];
      destruct_and?; repeat match goal with E : entries _ = [] |- _ => rewrite E end; (split_and!; [done| |done]); by intros [_ []].
  - split_and!; [lia|intros F; destruct (Hf F); lia|]. unfold fence_inv in Hfence. destruct (r_retire y) as [| |[m|]|nt|[m|]]; try done. intros Hm. by apply Hfence.
Qed.
End Protocol.

(** *** Instances *)

Definition drop_ts : Ts := mkTs 9 0.

(** Page 5 with one reference *)
Definition one_ref : Race :=
  mkRace (mkLife (allocator_new new_header) (set_count (fun _ => None) 5 1) (mkQueue [] []) 7 []) [Holding] RIdle.

(** The reference goes after the retirement. *)
Definition dropped_after : Race :=
  mkRace (mkLife (allocator_new new_header) (set_count (set_count (fun _ => None) 5 1) 5 0)
    (mkQueue [] [mkEntry RetiredTree32k 5 7 drop_ts]) 7 []) [Dropped] (RDone (Some 1)).

Lemma dropped_after_reachable : rtc (race_step 5 drop_ts) one_ref dropped_after.
Proof.
  eapply rtc_l; [apply step_note|]. eapply rtc_l; [apply step_probe|]. eapply rtc_l; [by apply step_positive|].
  eapply rtc_l; [by apply (step_decref _ _ _ [] [])|]. eapply rtc_l; [by apply (step_take _ _ _ [] [])|].
  eapply rtc_l; [apply (step_push _ _ _ [] [])|]. exact (rtc_refl _ dropped_after).
Qed.

Lemma one_ref_start : start 5 1 one_ref.
Proof. by split_and!. Qed.

Lemma retired_page_enqueued_once_witness :
  len (entries 5 (r_life dropped_after)) = 1 /\ Forall (fenced drop_ts) (entries 5 (r_life dropped_after)).
Proof.
  destruct (retired_page_enqueued_once 5 drop_ts 1 one_ref dropped_after one_ref_start dropped_after_reachable) as (_ & Hone & Hfenced).
  split; [apply Hone; by repeat constructor|by apply Hfenced].
Defined.

(** The decrement lands between the note and the probe, and the retirement
    reclaims the note before the drop looks for it. *)
Definition dropped_between : Race :=
  mkRace (mkLife (allocator_new new_header) (set_count (set_count (fun _ => None) 5 1) 5 0)
    (mkQueue [overflow_deferred_free 5 7] []) 7 []) [Dropped] (RDone (Some 0)).

(** A page of a dropped tree can be queued without the reader fence of the
    drop: the note is reclaimed while the last drop is between its decrement
    and its lookup, so the entry waits for the checkpoint fence only. *)
Theorem retired_page_can_lose_fence :
  start 5 1 one_ref /\ rtc (race_step 5 drop_ts) one_ref dropped_between /\ finished dropped_between
  /\ map pe_kind (entries 5 (r_life dropped_between)) = [OverflowDeferredFree]
  /\ map pe_page (fst (take_eligible 8 (l_queue (r_life dropped_between)))) = [5].
Proof.
  split; [apply one_ref_start|]. split; [|by split; [split; [by repeat constructor|done]|]].
  eapply rtc_l; [apply step_note|]. eapply rtc_l; [by apply (step_decref _ _ _ [] [])|]. eapply rtc_l; [apply step_probe|].
  eapply rtc_l; [apply step_zero|]. eapply rtc_l; [by apply (step_take _ _ _ [] [])|].
  eapply rtc_l; [apply (step_push _ _ _ [] [])|]. exact (rtc_refl _ dropped_between).
Qed.
End RetireRace.
